(* ===== verification/_CoqProject ===== *)
-Q . S2P
Prelude.v
Primitives.v
Decimal.v
Fees.v
EsEntity.v
Concrete.v
GraphqlTypes.v
Jwks.v
PaymentEntity.v
InvoiceEntity.v
Outbox.v
Listen.v
Fanout.v
Lnd.v
LndClient.v
Symphony.v
Wallet.v
Effects.v
Credits.v
App.v
Grpc.v
StatusStream.v
Subscription.v
Feed.v
Delivery.v
AppPayment.v
AppInvoice.v
Adapters.v
Mutation.v
Schema.v
Jobs.v
Ledger.v
Evidence.v
Announced.v
Safety.v
SendSafety.v
InvoiceSafety.v
MutationSafety.v
Gateway.v
Reload.v
Provenance.v
Finality.v
Wired.v
EndToEnd.v
Responsive.v
Verdict.v
Answers.v
Listeners.v
Recovery.v
CrashRecovery.v
Watch.v
WatchTruth.v
WatchProgress.v
StreamReference.v
Ingest.v
WatchRuns.v
Boot.v
Servers.v
Supervisor.v
