(* ===== verification/Prelude.v ===== *)
(** * The Blink Lightning gateway

    A verification of the Rust sources under src/src/: the service that lets wallets send
    and receive Lightning payments through an LND node, asks Symphony to authorize every
    spend, keeps event-sourced payments and invoices in Postgres, and tells the outside
    world what happened through an outbox.

    ** The program and the files

    Values.  primitives/ is [Primitives] (milli-satoshi in wrapping [u64], hashes,
    preimages, keys, ids, BOLT11 text, timestamps), the decimal text of integers is
    [Decimal], fees/policy.rs is [Fees].  The [es-entity] crate is the interface [EsEntity]
    (event log, idempotency guard, repository, each with its laws); [Concrete] has concrete
    functions for every crate that is a parameter, so that no law is vacuous and closed
    runs can be evaluated.

    Aggregates.  payment/ is [PaymentEntity] and invoice/ is [InvoiceEntity]: events,
    commands, hydration, constructors, repository columns and queries.  Each command is
    shown to refine a table (a state of a payment, a phase of an invoice) and to keep the
    aggregate equal to what its log replays to; histories of commands never record two
    outcomes.

    Events to the outside.  outbox/entity.rs and publisher.rs are [Outbox],
    listen_connection.rs is [Listen], fanout.rs is [Fanout].

    Neighbours.  lnd/ is [Lnd] (messages decoded, every call, the two subscription loops)
    and [LndClient] (the client with or without its connection, and the interface [LndApi]
    it shares with the stub of bin/write_sdl.rs), symphony/ is [Symphony],
    wallet/ownership.rs is [Wallet], server/jwks.rs is [Jwks].

    Use cases.  [Effects] is the language of the asynchronous code: a program is a tree of
    external calls and database transactions; threads interleave at every effect, a
    transaction may fail before or after its commit, a thread may stop for ever.  Its logic
    ([wp], adequacy) is proved sound there; [Credits] is its counterpart for bounds: a
    program pays a credit for each effect.  app.rs and app/ are [App] (error type, effects,
    helpers, commits), [AppPayment] (sending, intraledger transfer, LND's payment updates,
    orphan-hold sweep, fee probe) and [AppInvoice] (creation, LND's invoice updates,
    settlement, reconciliation, the per-hash listener dispatcher); job/ is [Jobs], with the
    turns of the two loops that consume LND's updates.  [Adapters] puts the handles of an
    [App] together: what the collaborators remember and how each call is answered.

    Interfaces to clients. api/graphql/types.rs is [GraphqlTypes]; api/graphql/mutation.rs
    and the handler of server/graphql.rs are [Mutation]; api/graphql/subscription.rs is
    [StatusStream]; api/graphql/schema.rs and query.rs are [Schema], the roots and what an
    operation of theirs starts; api/grpc/error.rs is [Grpc] and api/grpc/service.rs is
    [Subscription].

    Process. cli.rs, cli/, server/config.rs and health.rs are [Boot] (what is refused on the
    way up, and the [App] that is served), the bootstrap of the three servers, the health
    routes and the initializers of the jobs are [Servers], the tasks, their exits and the
    shutdown are [Supervisor].

    ** The theorems

    One invariant, [Ledger.db_ok]: every stored log hydrates to a well-formed aggregate and
    the row's columns are that aggregate's; for every payment hash the outbox holds, in
    order, exactly what the logs announce; a transfer between two wallets of the gateway has
    completed on both sides or on neither; external ids are unique.  One specification of
    effects, [Safety.allowed]: what must have happened in a run before it may call LND,
    Symphony, the ownership gate or answer a client, and, of a transaction, that each event
    it appends has its evidence in the run ([Evidence]).  [Safety], [SendSafety],
    [InvoiceSafety] and [MutationSafety] prove every handler against both, by one lemma per
    use case; [Gateway] reads the consequences off: nobody acts for a wallet that a
    verified token does not own, money leaves only under an approved hold that covers it, a
    preimage is released only for an accepted hold, the outbox mirrors the logs, and storage
    only grows.  [Provenance] carries the evidence to
    every stored log: nothing is recorded that LND, Symphony or the gate did not say.
    [Reload] is the round trip through the event store, a class ([Hydrates]) of aggregates
    whose saved value is what loading gives back, with payments and invoices as instances.
    [Finality] looks along runs: what is decided loads unchanged for ever, everything else
    only goes on along its lifecycle.

    End to end.  In [Gateway] the world answers anything.  [Wired] closes the gap to the
    wires: a machine in which every call is answered by the code of the collaborators
    ([Adapters.serve]) from arbitrary raw messages of the router, Symphony, LND and the key
    server, the ownership gate in the two steps its unlocked cache allows, LND's streams
    feeding the two channels.  It refines the gateway, and every answer in its traces is
    genuine: made from a message in its log.  [EndToEnd] restates authorization, outcomes
    and the release of preimages in terms of those messages, with runs; [Listeners] shows
    that the dispatcher, its tasks and their channel stay with the stored invoices.

    Progress.  Safety does not say that anything gets done.  [Responsive] bounds the effects
    of every handler and shows requests wait-free: from any point of any run, turns of its
    handler alone answer a request.  [Verdict] has a triple for one program among others
    ([assures], rely and guarantee on the invariant of [Gateway]) and shows that a handler
    that has heard LND's verdict does not leave the payment initiated, also when another
    handler was faster; next to it is the run in which an update is lost on a pending one.
    [Answers] uses the same triple, with exact traces, for what clients are told: the status
    of a send is the state its payment had when the request last looked, [ALREADY_PAID]
    comes from a request that paid and wrote nothing, and an answer with errors hides
    neither a payment nor an acknowledged write; [ALREADY_PAID] does not say that the payment
    on record succeeded, and a run shows it said of a failed one.

    Recovery.  [Recovery] runs a program to its end against an oracle of the world's answers
    and shows of the orphan-hold sweep, [CrashRecovery] of the reconciliation sweep, that in
    a world where nothing fails they return and carry LND's outcomes out, for exactly the
    rows they select, from every configuration the handlers can be stopped in.  Each query
    has a limit and no order: all that is stranded or held is selected, and so repaired, when
    the query returns fewer rows than its limit or the table is no larger; beyond that
    nothing is claimed.

    Two subscriptions.  For gRPC, [Feed] shows order and faithfulness in every run and
    [Delivery] completeness under the conditions it states, with the runs that break them.
    For GraphQL, [Watch] puts the status stream, the fan-out and the LISTEN connection
    beside the gateway as one machine, whose steps are the awaited operations with the
    failures they can have; it shows the shape of every stream, [Announced] and
    [WatchTruth] that what it tells agrees with the database, [WatchProgress] that it
    concludes, [StreamReference] that a resumed stream equals a one-pass reference, [Ingest]
    that while its session lasts and its task is not cancelled the fan-out loses exactly the
    rows whose own read fails; [WatchRuns] has the witnesses, that of a lost row among them,
    and the run in which an event committed during an outage is never told.

    Components.  [Fees] (the cap never overflows), [Primitives] (rounding and its bound),
    [Lnd] (a payment message decoded as a specification of its fields says, and a listener
    that forwards exactly the decoded messages of its hash, in order), [Symphony] and [Wallet] (fail closed), [Listen] (bounded
    back-off), [Jwks] (which key decides, bounded refresh),
    [GraphqlTypes] (ranges and round trips), [Boot] (no half-configured start),
    [Supervisor] (orderly shutdown, honest exit, termination).

    ** Conventions

    Machine integers are [Z] in the range of their type, with the wrap-around, saturation or
    checked conversion the source has.  [result] is Rust's [Result], [let?] its question
    mark.  A method that changes its receiver returns the new value.  SQL queries are
    functions on the tables; a sequence value of [BIGSERIAL] is an input of the insert, so
    commits need not be in its order.  Handlers need no fuel: programs are finite trees and
    sweeps recurse on the rows they read.  [WatchProgress.play] takes fuel, and twice the
    rows of the outbox plus four is shown to be enough; [Responsive.alone] takes a list of
    turns, and 24 are shown to be enough for a request, two for each of its at most twelve
    effects; retries and back-off have the source's own bounds, the sweeps those of their
    queries.  Every property with a hypothesis has a closed example, next to
    it or in [WatchRuns], that applies it.

    ** Not modelled

    The transports (tonic, axum, reqwest), the GraphQL executor with its federation fields
    and schema printer, SQL and the migrations beyond the columns and indexes the code
    names, the job crate's scheduler, signature verification, BOLT11 parsing, YAML,
    OpenTelemetry: libraries, which enter as parameters with the documented behaviour the
    code relies on.  Log lines, metrics spans and the [Debug] and [Display] texts that only
    go there: no part of the behaviour.  lib.rs and the module files only declare
    modules; build.rs, the generated protobuf code and the tests are not the program.  Time
    is what a call of the clock answers; timeouts are outcomes.  Transactions are atomic
    steps: the isolation that makes them so is Postgres's.  The
    lines of the sources that no definition models are these, headers of implementations,
    and the type descriptions of sqlx. *)
From Stdlib Require Strings.Byte.
From Stdlib Require Export Init.Byte.
From stdpp Require Export base tactics list gmap strings fin_maps.
From Stdlib Require Export ZArith Lia.

(** * Results

    Rust's [Result<T, E>]; [let?] is the [?] operator of one error type. *)

Inductive result (A E : Type) : Type :=
| Ok (a : A)
| Err (e : E).
Arguments Ok {A E} a.
Arguments Err {A E} e.

#[export] Instance result_eq_dec {A E} `{EqDecision A, EqDecision E} :
  EqDecision (result A E).
Proof. solve_decision. Defined.

Definition result_bind {A B E} (r : result A E) (k : A -> result B E) : result B E :=
  match r with Ok a => k a | Err e => Err e end.

(** [Result::map_err] and [Result::map]. *)
Definition map_err {A E F} (f : E -> F) (r : result A E) : result A F :=
  match r with Ok a => Ok a | Err e => Err (f e) end.
Definition result_map {A B E} (f : A -> B) (r : result A E) : result B E :=
  match r with Ok a => Ok (f a) | Err e => Err e end.
(** [Option::ok_or]. *)
Definition ok_or {A E} (e : E) (o : option A) : result A E :=
  match o with Some a => Ok a | None => Err e end.
(** [Result::unwrap_or]. *)
Definition unwrap_or {A E} (r : result A E) (d : A) : A :=
  match r with Ok a => a | Err _ => d end.

Definition is_ok {A E} (r : result A E) : bool :=
  match r with Ok _ => true | Err _ => false end.

Declare Scope gateway_scope.
Delimit Scope gateway_scope with gw.
Notation "'let?' x ':=' r 'in' k" := (result_bind r (fun x => k))
  (at level 10, x pattern, r at level 100, k at level 200,
   format "'[v' 'let?'  x  ':='  r  'in' '/' k ']'") : gateway_scope.
Open Scope gateway_scope.

Lemma result_bind_ok {A B E} (r : result A E) (k : A -> result B E) b :
  result_bind r k = Ok b <-> exists a, r = Ok a /\ k a = Ok b.
Proof. destruct r; naive_solver. Qed.

Lemma ok_or_ok {A E} (e : E) (o : option A) a : ok_or e o = Ok a <-> o = Some a.
Proof. destruct o; naive_solver. Qed.

Lemma map_err_ok {A E F} (f : E -> F) (r : result A E) a :
  map_err f r = Ok a <-> r = Ok a.
Proof. destruct r; naive_solver. Qed.

(** * Machine integers

    A [u64]/[i64]/[u32]/[i32] is a [Z]; the operations write the wrap-around of the
    release profile out, and the [as] casts are reductions modulo [2^w]. *)

Definition u32_max : Z := 2 ^ 32 - 1.
Definition u64_max : Z := 2 ^ 64 - 1.
Definition i64_max : Z := 2 ^ 63 - 1.
Definition i64_min : Z := - 2 ^ 63.

Definition is_u64 (z : Z) : Prop := (0 <= z <= u64_max)%Z.
Definition is_i64 (z : Z) : Prop := (i64_min <= z <= i64_max)%Z.
Definition is_u32 (z : Z) : Prop := (0 <= z <= u32_max)%Z.

Definition wrap_u64 (z : Z) : Z := (z mod 2 ^ 64)%Z.

(** [x as i64] on a [u64]. *)
Definition u64_as_i64 (z : Z) : Z :=
  (if z <=? i64_max then z else z - 2 ^ 64)%Z.
(** [x as u64] on an [i64]. *)
Definition i64_as_u64 (z : Z) : Z := (z mod 2 ^ 64)%Z.

(** [x as i32] on a [u32]. *)
Definition u32_as_i32 (z : Z) : Z := (if z <? 2 ^ 31 then z else z - 2 ^ 32)%Z.

(** [u64::saturating_mul] / [u32::saturating_mul]. *)
Definition u64_saturating_mul (a b : Z) : Z := Z.min (a * b) u64_max.
Definition u32_saturating_mul (a b : Z) : Z := Z.min (a * b) u32_max.

(** [u64::div_ceil]. *)
Definition div_ceil (a b : Z) : Z :=
  (if a mod b =? 0 then a / b else a / b + 1)%Z.

(** [i64::try_from] on a [u64], [u64::try_from] on an [i64]. *)
Definition i64_try_from_u64 (z : Z) : option Z :=
  if (z <=? i64_max)%Z then Some z else None.
Definition u64_try_from_i64 (z : Z) : option Z :=
  if (0 <=? z)%Z then Some z else None.

(** Unfolds the width constants so that [lia] sees numerals. *)
Ltac unfold_width :=
  unfold is_u64, is_i64, is_u32, u64_max, i64_max, i64_min, u32_max, wrap_u64 in *.

(** Machine-integer arithmetic: unfold the widths, turn [/] and [mod] into
    (in)equalities and call [lia]. *)
Ltac width_lia :=
  unfold_width; Z.to_euclidean_division_equations; lia.

Lemma wrap_u64_small z : is_u64 z -> wrap_u64 z = z.
Proof. intros H. unfold wrap_u64. apply Z.mod_small. unfold_width. lia. Qed.

Lemma wrap_u64_range z : is_u64 (wrap_u64 z).
Proof. unfold_width. pose proof (Z.mod_pos_bound z (2 ^ 64)). lia. Qed.

Lemma u64_as_i64_small z : (0 <= z <= i64_max)%Z -> u64_as_i64 z = z.
Proof.
  intros H. unfold u64_as_i64. destruct (Z.leb_spec z i64_max); [done | lia].
Qed.

Lemma i64_as_u64_small z : (0 <= z)%Z -> is_i64 z -> i64_as_u64 z = z.
Proof. intros ? ?. unfold i64_as_u64. apply Z.mod_small. unfold_width. lia. Qed.

Lemma i64_u64_i64 z : is_i64 z -> u64_as_i64 (i64_as_u64 z) = z.
Proof.
  intros H. unfold u64_as_i64, i64_as_u64. unfold_width.
  destruct (Z.leb_spec (z mod 2 ^ 64) (2 ^ 63 - 1)%Z); width_lia.
Qed.

Lemma div_ceil_spec a b :
  (0 <= a)%Z -> (0 < b)%Z ->
  (a <= div_ceil a b * b < a + b)%Z.
Proof.
  intros Ha Hb. unfold div_ceil.
  destruct (Z.eqb_spec (a mod b) 0); Z.to_euclidean_division_equations; nia.
Qed.

(** * Bytes and fixed-size arrays

    [[u8; N]] is a list of bytes carrying its length; the length proof is a decided
    boolean, so two arrays are equal when their bytes are. *)

#[export] Instance byte_eq_dec : EqDecision byte := Byte.byte_eq_dec.
#[export] Program Instance byte_countable : Countable byte :=
  inj_countable Byte.to_N Byte.of_N _.
Next Obligation. intros b. apply Byte.of_to_N. Qed.

Definition array (n : nat) : Type := dsig (fun l : list byte => length l = n).

#[export] Instance array_eq_dec n : EqDecision (array n) := _.
#[export] Instance array_countable n : Countable (array n) := _.

Definition array_bytes {n} (a : array n) : list byte := proj1_sig a.

Lemma array_length {n} (a : array n) : length (array_bytes a) = n.
Proof. exact (proj2_dsig a). Qed.

Lemma array_ext {n} (a b : array n) : array_bytes a = array_bytes b -> a = b.
Proof. intros H. by apply dsig_eq. Qed.

(** [Vec<u8>::try_into::<[u8; N]>]. *)
Definition array_try_from {n} (l : list byte) : option (array n) :=
  match decide (length l = n) with
  | left H => Some (dexist l H)
  | right _ => None
  end.

Lemma array_try_from_bytes {n} (a : array n) : array_try_from (array_bytes a) = Some a.
Proof.
  unfold array_try_from. destruct (decide _) as [H | H].
  - f_equal. by apply array_ext.
  - by destruct H; apply array_length.
Qed.

Lemma array_try_from_Some {n} l (a : array n) :
  array_try_from l = Some a <-> array_bytes a = l.
Proof.
  split.
  - unfold array_try_from. destruct (decide _); [| done]. intros [= <-]. done.
  - intros <-. apply array_try_from_bytes.
Qed.

Lemma array_try_from_None {n} l : @array_try_from n l = None <-> length l <> n.
Proof. unfold array_try_from. destruct (decide _); naive_solver. Qed.

(** [[b; N]]. *)
Definition array_repeat (b : byte) (n : nat) : array n :=
  dexist (repeat b n) (repeat_length b n).

(** * JSON values

    The shape of [serde_json::Value] the code builds with [json!]. *)

Inductive json : Type :=
| JNull
| JBool (b : bool)
| JNum (z : Z)
| JStr (s : string)
| JArr (l : list json)
| JObj (kv : list (string * json)).

(** Lookup of a key of an object, the first binding. *)
Definition json_get (k : string) (j : json) : option json :=
  match j with
  | JObj kv => snd <$> List.find (fun p => String.eqb k p.1) kv
  | _ => None
  end.

Definition json_opt_num (o : option Z) : json :=
  match o with Some z => JNum z | None => JNull end.

(** * Lists *)

Lemma existsb_rev {A} (f : A -> bool) (l : list A) : existsb f (rev l) = existsb f l.
Proof.
  apply eq_true_iff_eq. rewrite !existsb_exists. setoid_rewrite <- in_rev. done.
Qed.

Lemma existsb_snoc {A} (f : A -> bool) (l : list A) x :
  existsb f (l ++ [x]) = existsb f l || f x.
Proof. rewrite existsb_app. simpl. by destruct (existsb f l), (f x). Qed.

Lemma find_app {A} (f : A -> bool) (l1 l2 : list A) :
  List.find f (l1 ++ l2) =
  match List.find f l1 with Some x => Some x | None => List.find f l2 end.
Proof. induction l1 as [| x l1 IH]; [done |]. simpl. by destruct (f x). Qed.

Lemma length_omap_le {A B} (f : A -> option B) (l : list A) :
  length (omap f l) <= length l.
Proof. induction l as [| x l IH]; [done |]. csimpl. destruct (f x); simpl; lia. Qed.

Create HintDb gateway.
#[export] Hint Rewrite @existsb_rev @existsb_snoc : gateway.
#[export] Hint Resolve array_length : gateway.

(** * Proof automation *)

(** Splits the first [match]/[if] of the goal or of [H], keeping the equation. *)
Ltac case_match_goal :=
  match goal with
  | |- context [match ?x with _ => _ end] => destruct x eqn:?
  end.
Ltac case_match_in H :=
  match type of H with
  | context [match ?x with _ => _ end] => destruct x eqn:?
  end.

(** Splits the first comparison of two strings in the goal. *)
Ltac case_string :=
  match goal with
  | |- context [String.eqb ?x ?y] => destruct (String.eqb_spec x y)
  end.

(** Inverts every equation between results, options and pairs. *)
Ltac inv_results :=
  repeat match goal with
  | H : Ok _ = Ok _ |- _ => injection H as H; subst
  | H : Err _ = Err _ |- _ => injection H as H; subst
  | H : Ok _ = Err _ |- _ => discriminate H
  | H : Err _ = Ok _ |- _ => discriminate H
  | H : Some _ = Some _ |- _ => injection H as H; subst
  | H : (_, _) = (_, _) |- _ => injection H as ? ?; subst
  | H : result_bind _ _ = Ok _ |- _ => apply result_bind_ok in H as (? & ? & ?)
  end.
