(* ===== verification/Primitives.v ===== *)
(** Value objects shared by every component (src/src/primitives/): amounts, hashes,
    preimages, public keys, wallet ids, BOLT11 strings and timestamps, with their
    text (hex), JSON and Postgres forms.  The [hex], [sha2] and [uuid] crates are
    parameters, given by the classes [Hex], [Sha256] and [UuidText]. *)
From S2P Require Import Prelude.
From stdpp Require Export pretty.

(** * The crates the value objects call *)

(** The [hex] crate: [encode] and [decode]. *)
Class Hex := {
  FromHexError : Type;
  FromHexError_to_string : FromHexError -> string;
  hex_encode : list byte -> string;
  hex_decode : string -> result (list byte) FromHexError
}.

(** What its documentation promises: [decode] undoes [encode], and [encode] writes two
    characters per byte. *)
Class HexLaws `{Hex} : Prop := {
  hex_decode_encode : forall l, hex_decode (hex_encode l) = Ok l;
  hex_encode_length : forall l, String.length (hex_encode l) = (2 * length l)%nat;
  hex_decode_length :
    forall s l, hex_decode s = Ok l -> String.length s = (2 * length l)%nat
}.

(** The [sha2] crate: the digest of a 32-byte message. *)
Class Sha256 := { sha256 : list byte -> array 32 }.

(** [uuid::Uuid]: a 16-byte value with its text form. *)
Definition Uuid : Type := array 16.
#[export] Instance Uuid_eq_dec : EqDecision Uuid := _.
#[export] Instance Uuid_countable : Countable Uuid := _.

Class UuidText := {
  UuidError : Type;
  uuid_to_string : Uuid -> string;
  uuid_parse_str : string -> result Uuid UuidError
}.
Class UuidLaws `{UuidText} : Prop := {
  uuid_parse_to_string : forall u, uuid_parse_str (uuid_to_string u) = Ok u
}.

(** The error of a [Deserialize] impl: the JSON value is not of the expected shape, or
    the type's own parser refused it ([serde::de::Error::custom]). *)
Inductive DeError (E : Type) : Type :=
| InvalidType
| Custom (e : E).
Arguments InvalidType {E}.
Arguments Custom {E} e.

(** * Amounts (milli_satoshi.rs) *)

Inductive MilliSatoshiError : Type :=
| Negative (v : Z)
| Overflow.
#[export] Instance MilliSatoshiError_eq_dec : EqDecision MilliSatoshiError.
Proof. solve_decision. Defined.

Definition MilliSatoshiError_to_string (e : MilliSatoshiError) : string :=
  match e with
  | Negative v => "milli-satoshi value must be non-negative; got " +:+ pretty v
  | Overflow => "milli-satoshi value exceeds i64::MAX (cannot encode as Postgres BIGINT)"
  end.

Module MilliSatoshi.
Record t : Type := new { as_u64 : Z }.

#[export] Instance eq_dec : EqDecision t.
Proof. solve_decision. Defined.

(** The value range of the field. *)
Definition wf (m : t) : Prop := is_u64 (as_u64 m).

Definition ZERO : t := new 0.

Definition round_up_to_sat (m : t) : t :=
  new (wrap_u64 (div_ceil (as_u64 m) 1000 * 1000)).

Definition whole_sat (m : t) : Z := (as_u64 m / 1000)%Z.

Definition to_string (m : t) : string := (pretty (as_u64 m) +:+ " msat")%string.

Definition try_from_i64 (v : Z) : result t MilliSatoshiError :=
  if (v <? 0)%Z then Err (Negative v) else Ok (new (i64_as_u64 v)).

Definition serialize (m : t) : json := JNum (as_u64 m).
Definition deserialize (j : json) : result t (DeError Empty_set) :=
  match j with
  | JNum z => if decide (is_u64 z) then Ok (new z) else Err InvalidType
  | _ => Err InvalidType
  end.

(** The [BIGINT] column value. *)
Definition encode (m : t) : result Z MilliSatoshiError :=
  ok_or Overflow (i64_try_from_u64 (as_u64 m)).
Definition decode (v : Z) : result t MilliSatoshiError :=
  if (v <? 0)%Z then Err (Negative v) else Ok (new (i64_as_u64 v)).
End MilliSatoshi.

Module Satoshis.
Record t : Type := new { as_u64 : Z }.

#[export] Instance eq_dec : EqDecision t.
Proof. solve_decision. Defined.

Definition ZERO : t := new 0.

Definition to_msat (s : t) : MilliSatoshi.t :=
  MilliSatoshi.new (wrap_u64 (as_u64 s * 1000)).

Definition to_string (s : t) : string := (pretty (as_u64 s) +:+ " sat")%string.
End Satoshis.

(** * Hex-coded byte arrays

    The parsing steps [from_str] of the three newtypes shares: hex, then length. *)

Definition array_from_str `{Hex} {E} (n : nat) (hex_err : FromHexError -> E)
    (len_err : nat -> E) (s : string) : result (array n) E :=
  let? bytes := map_err hex_err (hex_decode s) in
  ok_or (len_err (length bytes)) (array_try_from bytes).

Definition array_decode {E} (n : nat) (len_err : nat -> E) (bytes : list byte) :
    result (array n) E :=
  ok_or (len_err (length bytes)) (array_try_from bytes).

Definition array_deserialize `{Hex} {E A} (from_str : string -> result A E) (j : json) :
    result A (DeError E) :=
  match j with
  | JStr s => map_err Custom (from_str s)
  | _ => Err InvalidType
  end.

Section HexArrays.
Context `{HexLaws} {E : Type} (he : FromHexError -> E) (le : nat -> E).

Lemma array_from_str_encode {n} (a : array n) :
  array_from_str n he le (hex_encode (array_bytes a)) = Ok a.
Proof.
  unfold array_from_str. rewrite hex_decode_encode. simpl.
  by rewrite array_try_from_bytes.
Qed.

Lemma array_from_str_Ok {n} s (a : array n) :
  array_from_str n he le s = Ok a <-> hex_decode s = Ok (array_bytes a).
Proof.
  unfold array_from_str. destruct (hex_decode s) as [l | e]; simpl; [| naive_solver].
  rewrite ok_or_ok, array_try_from_Some. naive_solver.
Qed.

(** Text of the wrong length never parses. *)
Lemma array_from_str_length {n} s (a : array n) :
  array_from_str n he le s = Ok a -> String.length s = (2 * n)%nat.
Proof.
  intros Ha%array_from_str_Ok. apply hex_decode_length in Ha.
  by rewrite array_length in Ha.
Qed.

Lemma array_decode_bytes {n} (a : array n) :
  array_decode n le (array_bytes a) = Ok a.
Proof. unfold array_decode. by rewrite array_try_from_bytes. Qed.
End HexArrays.

Lemma hex_encode_inj `{HexLaws} {n} (a b : array n) :
  hex_encode (array_bytes a) = hex_encode (array_bytes b) -> a = b.
Proof.
  intros Heq. apply array_ext.
  assert (Hd := f_equal hex_decode Heq). rewrite !hex_decode_encode in Hd. congruence.
Qed.

(** * Payment hashes (payment_hash.rs) *)

Module PaymentHash.
Record t : Type := new { as_bytes : array 32 }.

#[export] Instance eq_dec : EqDecision t.
Proof. solve_decision. Defined.
#[export] Instance countable : Countable t :=
  inj_countable' as_bytes new (fun h => match h with new a => eq_refl end).

Inductive Error `{Hex} : Type :=
| EHex (e : FromHexError)
| InvalidLength (n : nat).

Definition Error_to_string `{Hex} (e : Error) : string :=
  match e with
  | EHex e => "payment hash hex decode failed: " +:+ FromHexError_to_string e
  | InvalidLength n => "payment hash must be exactly 32 bytes, got " +:+ pretty (N.of_nat n)
  end.

Definition to_hex `{Hex} (h : t) : string := hex_encode (array_bytes (as_bytes h)).
Definition to_string `{Hex} (h : t) : string := to_hex h.
Definition debug `{Hex} (h : t) : string := ("PaymentHash(" +:+ to_hex h +:+ ")")%string.
Definition from_str `{Hex} (s : string) : result t Error :=
  result_map new (array_from_str 32 EHex InvalidLength s).
Definition serialize `{Hex} (h : t) : json := JStr (to_hex h).
Definition deserialize `{Hex} : json -> result t (DeError Error) :=
  array_deserialize from_str.
(** The [BYTEA] column value. *)
Definition encode (h : t) : list byte := array_bytes (as_bytes h).
Definition decode `{Hex} (bytes : list byte) : result t Error :=
  result_map new (array_decode 32 InvalidLength bytes).

Lemma to_hex_inj `{HexLaws} h1 h2 : to_hex h1 = to_hex h2 -> h1 = h2.
Proof.
  destruct h1, h2. unfold to_hex. simpl. intros ?%hex_encode_inj. by f_equal.
Qed.
End PaymentHash.
Export (hints) PaymentHash MilliSatoshi Satoshis.

(** * Preimages (preimage.rs) *)

Module Preimage.
Record t : Type := new { as_bytes : array 32 }.

#[export] Instance eq_dec : EqDecision t.
Proof. solve_decision. Defined.

Inductive Error `{Hex} : Type :=
| EHex (e : FromHexError)
| InvalidLength (n : nat).

Definition Error_to_string `{Hex} (e : Error) : string :=
  match e with
  | EHex e => "preimage hex decode failed: " +:+ FromHexError_to_string e
  | InvalidLength n => "preimage must be exactly 32 bytes, got " +:+ pretty (N.of_nat n)
  end.

(** [generate]: the 32 bytes the random generator filled the zeroed buffer with. *)
Definition generate (fill_bytes : array 32 -> array 32) : t :=
  new (fill_bytes (array_repeat x00 32)).

Definition payment_hash `{Sha256} (p : t) : PaymentHash.t :=
  PaymentHash.new (sha256 (array_bytes (as_bytes p))).

Definition to_hex `{Hex} (p : t) : string := hex_encode (array_bytes (as_bytes p)).
Definition to_string `{Hex} (p : t) : string := to_hex p.
Definition debug `{Hex} (p : t) : string := ("Preimage(" +:+ to_hex p +:+ ")")%string.
Definition from_str `{Hex} (s : string) : result t Error :=
  result_map new (array_from_str 32 EHex InvalidLength s).
Definition serialize `{Hex} (p : t) : json := JStr (to_hex p).
Definition deserialize `{Hex} : json -> result t (DeError Error) :=
  array_deserialize from_str.
Definition encode (p : t) : list byte := array_bytes (as_bytes p).
Definition decode `{Hex} (bytes : list byte) : result t Error :=
  result_map new (array_decode 32 InvalidLength bytes).
End Preimage.

(** * Public keys (pubkey.rs) *)

Module Pubkey.
Record t : Type := new { as_bytes : array 33 }.

#[export] Instance eq_dec : EqDecision t.
Proof. solve_decision. Defined.
#[export] Instance countable : Countable t :=
  inj_countable' as_bytes new (fun h => match h with new a => eq_refl end).

Inductive Error `{Hex} : Type :=
| EHex (e : FromHexError)
| InvalidLength (n : nat).

Definition Error_to_string `{Hex} (e : Error) : string :=
  match e with
  | EHex e => "pubkey hex decode failed: " +:+ FromHexError_to_string e
  | InvalidLength n => "pubkey must be exactly 33 bytes (66 hex chars), got " +:+ pretty (N.of_nat n)
  end.

Definition to_hex `{Hex} (p : t) : string := hex_encode (array_bytes (as_bytes p)).
Definition to_string `{Hex} (p : t) : string := to_hex p.
Definition debug `{Hex} (p : t) : string := ("Pubkey(" +:+ to_hex p +:+ ")")%string.
Definition from_str `{Hex} (s : string) : result t Error :=
  result_map new (array_from_str 33 EHex InvalidLength s).
Definition serialize `{Hex} (p : t) : json := JStr (to_hex p).
Definition deserialize `{Hex} : json -> result t (DeError Error) :=
  array_deserialize from_str.
Definition encode (p : t) : list byte := array_bytes (as_bytes p).
Definition decode `{Hex} (bytes : list byte) : result t Error :=
  result_map new (array_decode 33 InvalidLength bytes).
End Pubkey.
Export (hints) Preimage Pubkey.

(** * Ids, BOLT11 strings, timestamps (ids.rs, bolt_invoice.rs, timestamp.rs) *)

Module WalletId.
Record t : Type := from_uuid { uuid : Uuid }.
#[export] Instance eq_dec : EqDecision t.
Proof. solve_decision. Defined.
#[export] Instance countable : Countable t :=
  inj_countable' uuid from_uuid (fun h => match h with from_uuid a => eq_refl end).
Definition to_string `{UuidText} (w : t) : string := uuid_to_string (uuid w).
Definition from_str `{UuidText} (s : string) : result t UuidError :=
  result_map from_uuid (uuid_parse_str s).
End WalletId.

(** [entity_id!]: transparent newtypes over [Uuid]. *)
Module InvoiceId.
Record t : Type := from_uuid { uuid : Uuid }.
#[export] Instance eq_dec : EqDecision t.
Proof. solve_decision. Defined.
Definition to_string `{UuidText} (i : t) : string := uuid_to_string (uuid i).
End InvoiceId.

Module PaymentId.
Record t : Type := from_uuid { uuid : Uuid }.
#[export] Instance eq_dec : EqDecision t.
Proof. solve_decision. Defined.
Definition to_string `{UuidText} (i : t) : string := uuid_to_string (uuid i).
End PaymentId.

Module BoltInvoice.
Record t : Type := new { as_str : string }.
#[export] Instance eq_dec : EqDecision t.
Proof. solve_decision. Defined.
Definition to_string (b : t) : string := as_str b.
End BoltInvoice.

(** An instant of [DateTime<Utc>]: nanoseconds since the Unix epoch. *)
Module Timestamp.
Record t : Type := new { as_nanos : Z }.
#[export] Instance eq_dec : EqDecision t.
Proof. solve_decision. Defined.
Definition le (a b : t) : Prop := (as_nanos a <= as_nanos b)%Z.
Definition lt (a b : t) : Prop := (as_nanos a < as_nanos b)%Z.
#[export] Instance lt_dec a b : Decision (lt a b).
Proof. unfold lt. apply _. Defined.
#[export] Instance le_dec a b : Decision (le a b).
Proof. unfold le. apply _. Defined.
End Timestamp.
Export (hints) WalletId InvoiceId PaymentId BoltInvoice Timestamp.
