(* ===== verification/Decimal.v ===== *)
(** The standard library's decimal text of integers: [str::parse] at [i64], [u64] and
    [u32], digit by digit with the overflow checks in its order, and the round trip with
    the text [Display] prints. *)
From S2P Require Import Prelude Primitives.

Module ParseIntError.
Inductive t : Type := Empty | InvalidDigit | PosOverflow | NegOverflow.
#[export] Instance eq_dec : EqDecision t.
Proof. solve_decision. Defined.
Definition to_string (e : t) : string :=
  match e with
  | Empty => "cannot parse integer from empty string"
  | InvalidDigit => "invalid digit found in string"
  | PosOverflow => "number too large to fit in target type"
  | NegOverflow => "number too small to fit in target type"
  end.
End ParseIntError.
Export (hints) ParseIntError.

Definition to_digit (c : Ascii.ascii) : result Z ParseIntError.t :=
  let n := Z.of_N (Ascii.N_of_ascii c) in
  if ((48 <=? n) && (n <=? 57))%Z then Ok (n - 48)%Z else Err ParseIntError.InvalidDigit.

Fixpoint parse_pos (max : Z) (s : string) (acc : Z) : result Z ParseIntError.t :=
  match s with
  | EmptyString => Ok acc
  | String c s =>
      let? x := to_digit c in
      if (max <? acc * 10 + x)%Z then Err ParseIntError.PosOverflow
      else parse_pos max s (acc * 10 + x)
  end.

Fixpoint parse_neg (min : Z) (s : string) (acc : Z) : result Z ParseIntError.t :=
  match s with
  | EmptyString => Ok acc
  | String c s =>
      let? x := to_digit c in
      if (acc * 10 - x <? min)%Z then Err ParseIntError.NegOverflow
      else parse_neg min s (acc * 10 - x)
  end.

Definition plus_sign : Ascii.ascii := Ascii.ascii_of_N 43.
Definition minus_sign : Ascii.ascii := Ascii.ascii_of_N 45.

Definition parse_unsigned (max : Z) (s : string) : result Z ParseIntError.t :=
  match s with
  | EmptyString => Err ParseIntError.Empty
  | String c EmptyString =>
      if decide (c = plus_sign \/ c = minus_sign) then Err ParseIntError.InvalidDigit
      else parse_pos max s 0
  | String c rest => if decide (c = plus_sign) then parse_pos max rest 0 else parse_pos max s 0
  end.

Definition parse_u64 : string -> result Z ParseIntError.t := parse_unsigned u64_max.
Definition parse_u32 : string -> result Z ParseIntError.t := parse_unsigned u32_max.

Definition parse_i64 (s : string) : result Z ParseIntError.t :=
  match s with
  | EmptyString => Err ParseIntError.Empty
  | String c EmptyString =>
      if decide (c = plus_sign \/ c = minus_sign) then Err ParseIntError.InvalidDigit
      else parse_pos i64_max s 0
  | String c rest =>
      if decide (c = plus_sign) then parse_pos i64_max rest 0
      else if decide (c = minus_sign) then parse_neg i64_min rest 0
      else parse_pos i64_max s 0
  end.

(** ** Round trip *)

Lemma digit_of_char n :
  (n < 10)%N ->
  to_digit (pretty_N_char n) = Ok (Z.of_N n) /\
  pretty_N_char n <> plus_sign /\ pretty_N_char n <> minus_sign.
Proof.
  destruct n as [| p]; [done |].
  do 4 try destruct p as [p | p |]; intros Hn; try lia; vm_compute; by repeat split.
Qed.

#[local] Ltac div_lia := zify; Z.to_euclidean_division_equations; lia.

Lemma parse_pos_pretty max x s :
  (Z.of_N x <= max)%Z -> parse_pos max (pretty_N_go x s) 0 = parse_pos max s (Z.of_N x).
Proof.
  revert s. induction (N.lt_wf_0 x) as [x _ IH]. intros s Hx.
  destruct (decide (x = 0)%N) as [-> | Hne]; [done |].
  rewrite pretty_N_go_step by lia.
  rewrite IH by (first [apply N.div_lt; lia | div_lia]).
  cbn [parse_pos]. destruct (digit_of_char (x mod 10)) as [-> _]; [by apply N.mod_lt |]. cbn [result_bind].
  replace (Z.of_N (x / 10) * 10 + Z.of_N (x mod 10))%Z with (Z.of_N x) by div_lia.
  by destruct (Z.ltb_spec max (Z.of_N x)); [lia |].
Qed.

Lemma parse_neg_pretty min x s :
  (min <= - Z.of_N x)%Z -> parse_neg min (pretty_N_go x s) 0 = parse_neg min s (- Z.of_N x).
Proof.
  revert s. induction (N.lt_wf_0 x) as [x _ IH]. intros s Hx.
  destruct (decide (x = 0)%N) as [-> | Hne]; [done |].
  rewrite pretty_N_go_step by lia.
  rewrite IH by (first [apply N.div_lt; lia | div_lia]).
  cbn [parse_neg]. destruct (digit_of_char (x mod 10)) as [-> _]; [by apply N.mod_lt |]. cbn [result_bind].
  replace (- Z.of_N (x / 10) * 10 - Z.of_N (x mod 10))%Z with (- Z.of_N x)%Z by div_lia.
  by destruct (Z.ltb_spec (- Z.of_N x) min); [lia |].
Qed.

(** The text of a natural number starts with a digit. *)
Lemma pretty_head (n : N) :
  exists c rest, pretty n = String c rest /\ c <> plus_sign /\ c <> minus_sign.
Proof.
  assert (Hgo : forall x s, (0 < x)%N ->
    exists c rest, pretty_N_go x s = String c rest /\ c <> plus_sign /\ c <> minus_sign).
  { intros x. induction (N.lt_wf_0 x) as [x _ IH]. intros s Hx.
    rewrite pretty_N_go_step by done.
    destruct (decide (x / 10 = 0)%N) as [-> | Hne].
    - rewrite pretty_N_go_0. eexists _, _. split; [done |].
      apply digit_of_char. by apply N.mod_lt.
    - apply IH; [apply N.div_lt; lia | by apply N.neq_0_lt_0]. }
  unfold pretty, pretty_N. case_decide; [eexists _, _; split; [done |]; split; discriminate | apply Hgo; lia].
Qed.

Lemma pretty_N_unfold (n : N) : pretty n = if decide (n = 0)%N then "0" else pretty_N_go n "".
Proof. done. Qed.

Lemma parse_pos_pretty_N max (n : N) : (Z.of_N n <= max)%Z -> parse_pos max (pretty n) 0 = Ok (Z.of_N n).
Proof.
  intros Hn. rewrite pretty_N_unfold. case_decide as H0.
  - subst n. change "0" with (String (pretty_N_char 0) ""). cbn [parse_pos].
    destruct (digit_of_char 0) as [-> _]; [done |]. cbn [result_bind].
    change (0 * 10 + Z.of_N 0)%Z with 0%Z. by destruct (Z.ltb_spec max 0); [simpl in Hn; lia |].
  - by rewrite parse_pos_pretty.
Qed.

Lemma pretty_Z_nonneg (z : Z) : (0 <= z)%Z -> pretty z = pretty (Z.to_N z).
Proof. by destruct z. Qed.

Lemma parse_unsigned_pretty max (z : Z) :
  (0 <= z <= max)%Z -> parse_unsigned max (pretty z) = Ok z.
Proof.
  intros Hz. rewrite pretty_Z_nonneg by lia.
  pose proof (parse_pos_pretty_N max (Z.to_N z) ltac:(lia)) as Hp.
  rewrite Z2N.id in Hp by lia.
  destruct (pretty_head (Z.to_N z)) as (c & rest & Heq & Hc & Hm). rewrite Heq in *. simpl.
  destruct rest; repeat case_decide; naive_solver.
Qed.

Lemma parse_u64_pretty (z : Z) : is_u64 z -> parse_u64 (pretty z) = Ok z.
Proof. apply parse_unsigned_pretty. Qed.

Lemma parse_i64_pretty (z : Z) : is_i64 z -> parse_i64 (pretty z) = Ok z.
Proof.
  intros Hz. unfold_width. destruct (Z.le_gt_cases 0 z) as [Hpos | Hneg].
  - rewrite pretty_Z_nonneg by lia.
    pose proof (parse_pos_pretty_N i64_max (Z.to_N z)) as Hp.
    rewrite Z2N.id in Hp by lia. unfold_width. specialize (Hp ltac:(lia)).
    destruct (pretty_head (Z.to_N z)) as (c & rest & Heq & Hc & Hm). rewrite Heq in *.
    simpl. destruct rest; repeat case_decide; naive_solver.
  - destruct z as [| p | p]; [lia | lia |].
    change (pretty (Z.neg p)) with (String minus_sign (pretty (N.pos p))).
    destruct (pretty_head (N.pos p)) as (c & rest & Heq & Hc & Hm).
    assert (Hp : parse_neg i64_min (pretty (N.pos p)) 0 = Ok (Z.neg p)).
    { rewrite pretty_N_unfold. case_decide; [done |].
      rewrite parse_neg_pretty; [done |]. unfold_width. lia. }
    rewrite Heq in *. simpl. by repeat case_decide.
Qed.

(** What is parsed is in the range of its type. *)
Lemma to_digit_range c x : to_digit c = Ok x -> (0 <= x <= 9)%Z.
Proof. unfold to_digit. case_match eqn:Hc; [| done]. intros [= <-]. lia. Qed.

Lemma parse_pos_range max s acc v :
  (0 <= acc <= max)%Z -> parse_pos max s acc = Ok v -> (0 <= v <= max)%Z.
Proof.
  revert acc. induction s as [| c s IH]; intros acc Hacc; simpl; [by intros [= <-] |].
  intros (x & Hx%to_digit_range & Hrest)%result_bind_ok.
  destruct (Z.ltb_spec max (acc * 10 + x)); [done |]. eapply IH; [| exact Hrest]. lia.
Qed.

Lemma parse_unsigned_range max s v :
  (0 <= max)%Z -> parse_unsigned max s = Ok v -> (0 <= v <= max)%Z.
Proof.
  intros Hmax. unfold parse_unsigned. destruct s as [| c [| d s]]; [done | |];
    case_decide; try done; apply parse_pos_range; lia.
Qed.

Example parse_edges :
  parse_i64 "9223372036854775808" = Err ParseIntError.PosOverflow /\
  parse_i64 "-9223372036854775808" = Ok i64_min /\
  parse_u64 "-1" = Err ParseIntError.InvalidDigit /\ parse_u64 "+7" = Ok 7%Z /\
  parse_u64 "" = Err ParseIntError.Empty.
Proof. vm_compute. split_and!; reflexivity. Qed.
