(* ===== verification/Fees.v ===== *)
(** The Lightning max-fee policy (src/src/fees/policy.rs) and the whole-satoshi
    arithmetic of src/src/primitives/milli_satoshi.rs it is computed in. *)
From S2P Require Import Prelude Primitives.

Module LnFees.
Definition FEE_CAP_BASIS_POINTS : Z := 50.
Definition FEE_CAP_MIN_SAT : Z := 10.

Definition max_for (amount_msat : MilliSatoshi.t) : MilliSatoshi.t :=
  let amount_sat := MilliSatoshi.whole_sat amount_msat in
  let scaled := u64_saturating_mul amount_sat FEE_CAP_BASIS_POINTS in
  let quotient := (scaled / 10000)%Z in
  let pct_sat :=
    if (5000 <? scaled mod 10000)%Z then wrap_u64 (quotient + 1) else quotient in
  let max_fee_sat := Z.max pct_sat FEE_CAP_MIN_SAT in
  MilliSatoshi.new (wrap_u64 (max_fee_sat * 1000)).

(** Reference: [h] is half a percent of [a], rounded to the nearest integer, ties
    towards zero. *)
Definition half_percent_half_down (a h : Z) : Prop :=
  (200 * h - 100 < a <= 200 * h + 100)%Z.
End LnFees.

(** * Whole-satoshi rounding *)

Lemma round_up_to_sat_exact m :
  MilliSatoshi.wf m -> (MilliSatoshi.as_u64 m <= 18446744073709551000)%Z ->
  MilliSatoshi.as_u64 (MilliSatoshi.round_up_to_sat m) =
  (div_ceil (MilliSatoshi.as_u64 m) 1000 * 1000)%Z.
Proof.
  intros Hwf Hle. unfold MilliSatoshi.wf in Hwf. simpl. apply wrap_u64_small.
  assert (Hm : (0 <= MilliSatoshi.as_u64 m)%Z) by (unfold_width; lia).
  pose proof (div_ceil_spec (MilliSatoshi.as_u64 m) 1000 Hm ltac:(lia)).
  unfold div_ceil in *. destruct (Z.eqb_spec (MilliSatoshi.as_u64 m mod 1000) 0); width_lia.
Qed.

(** C38. [round_up_to_sat] is the least whole-satoshi amount not below its
    argument, so a later [whole_sat] is lossless; it is idempotent, and it stays a
    [u64] value.  The bound is exact: the next amount wraps around (last clause). *)
Theorem round_up_to_sat_spec m :
  MilliSatoshi.wf m ->
  let r := MilliSatoshi.round_up_to_sat m in
  MilliSatoshi.wf r /\
  ((MilliSatoshi.as_u64 m <= 18446744073709551000)%Z ->
   (MilliSatoshi.as_u64 m <= MilliSatoshi.as_u64 r < MilliSatoshi.as_u64 m + 1000)%Z /\
   (MilliSatoshi.whole_sat r * 1000 = MilliSatoshi.as_u64 r)%Z /\
   (forall k, MilliSatoshi.as_u64 m <= k * 1000 -> MilliSatoshi.as_u64 r <= k * 1000)%Z /\
   MilliSatoshi.round_up_to_sat r = r) /\
  ((18446744073709551000 < MilliSatoshi.as_u64 m)%Z -> MilliSatoshi.as_u64 r = 384%Z).
Proof.
  intros Hwf r. split; [apply wrap_u64_range |]. split.
  - intros Hle. pose proof (round_up_to_sat_exact m Hwf Hle) as Hr. fold r in Hr.
    assert (Hr' : MilliSatoshi.as_u64 (MilliSatoshi.round_up_to_sat r) =
                  (div_ceil (MilliSatoshi.as_u64 r) 1000 * 1000)%Z).
    { apply round_up_to_sat_exact; [apply wrap_u64_range |]. rewrite Hr.
      unfold MilliSatoshi.wf, div_ceil in *.
      destruct (Z.eqb_spec (MilliSatoshi.as_u64 m mod 1000) 0); width_lia. }
    assert (Hexact : MilliSatoshi.as_u64 (MilliSatoshi.round_up_to_sat r) =
                     MilliSatoshi.as_u64 r).
    { rewrite Hr', Hr. unfold div_ceil at 1. rewrite Z.mod_mul by lia.
      simpl. rewrite Z.div_mul by lia. done. }
    unfold MilliSatoshi.whole_sat. rewrite Hr in *.
    pose proof (div_ceil_spec (MilliSatoshi.as_u64 m) 1000) as Hc.
    unfold MilliSatoshi.wf in *. repeat split.
    + unfold_width; lia.
    + unfold_width; lia.
    + rewrite Z.div_mul; lia.
    + intros k Hk. unfold div_ceil.
      destruct (Z.eqb_spec (MilliSatoshi.as_u64 m mod 1000) 0); width_lia.
    + destruct (MilliSatoshi.round_up_to_sat r), r. simpl in *. congruence.
  - intros Hgt. unfold r, MilliSatoshi.round_up_to_sat, MilliSatoshi.wf in *. simpl.
    assert (Hd : div_ceil (MilliSatoshi.as_u64 m) 1000 = 18446744073709552%Z).
    { unfold div_ceil.
      destruct (Z.eqb_spec (MilliSatoshi.as_u64 m mod 1000) 0); width_lia. }
    by rewrite Hd.
Qed.

Example round_up_to_sat_spec_witness :
  MilliSatoshi.wf (MilliSatoshi.new 1001) /\
  MilliSatoshi.round_up_to_sat (MilliSatoshi.round_up_to_sat (MilliSatoshi.new 1001)) =
  MilliSatoshi.new 2000.
Proof.
  assert (Hwf : MilliSatoshi.wf (MilliSatoshi.new 1001)) by (split; vm_compute; discriminate).
  split; [exact Hwf |].
  destruct (round_up_to_sat_spec _ Hwf) as (_ & H & _).
  destruct H as (_ & _ & _ & H); [vm_compute; discriminate |].
  etransitivity; [exact H | reflexivity].
Defined.

(** * The fee cap *)

Lemma max_for_exact m :
  MilliSatoshi.wf m ->
  exists h,
    LnFees.half_percent_half_down (MilliSatoshi.whole_sat m) h /\
    (0 <= h)%Z /\
    MilliSatoshi.as_u64 (LnFees.max_for m) = (Z.max h LnFees.FEE_CAP_MIN_SAT * 1000)%Z.
Proof.
  intros Hwf. unfold MilliSatoshi.wf in Hwf.
  set (a := MilliSatoshi.whole_sat m).
  assert (Ha : (0 <= a <= 18446744073709551)%Z)
    by (unfold a, MilliSatoshi.whole_sat; width_lia).
  unfold LnFees.max_for, LnFees.half_percent_half_down. fold a. simpl.
  unfold u64_saturating_mul, LnFees.FEE_CAP_BASIS_POINTS, LnFees.FEE_CAP_MIN_SAT.
  rewrite (Z.min_l (a * 50)) by (unfold_width; lia).
  destruct (Z.ltb_spec 5000 ((a * 50) mod 10000)%Z) as [Hup | Hdown].
  - exists ((a * 50) / 10000 + 1)%Z.
    rewrite (wrap_u64_small (_ + 1)) by width_lia.
    rewrite wrap_u64_small by width_lia. repeat split; width_lia.
  - exists ((a * 50) / 10000)%Z.
    rewrite wrap_u64_small by width_lia. repeat split; width_lia.
Qed.

(** The result is a [u64] between the floor and half a percent plus one satoshi. *)
Lemma max_for_range m :
  MilliSatoshi.wf m ->
  (10000 <= MilliSatoshi.as_u64 (LnFees.max_for m) <=
   Z.max 10000 (MilliSatoshi.as_u64 m / 200 + 1000))%Z.
Proof.
  intros Hwf. destruct (max_for_exact m Hwf) as (h & Hh & Hpos & ->).
  unfold LnFees.FEE_CAP_MIN_SAT, LnFees.half_percent_half_down, MilliSatoshi.whole_sat,
    MilliSatoshi.wf in *. width_lia.
Qed.

(** [max_for] never overflows: on every [u64] amount it is the larger of 10
    satoshis and half a percent of the whole-satoshi amount rounded half down, in
    millisatoshi; so it is a positive whole-satoshi amount within [i64], the routing
    fee limit always fits the column it is stored in, and the intraledger marker
    (a zero fee) is never the result. *)
Theorem max_for_spec m :
  MilliSatoshi.wf m ->
  let fee := LnFees.max_for m in
  (exists h,
    LnFees.half_percent_half_down (MilliSatoshi.whole_sat m) h /\
    MilliSatoshi.as_u64 fee = (Z.max h 10 * 1000)%Z) /\
  MilliSatoshi.wf fee /\
  (10000 <= MilliSatoshi.as_u64 fee <= Z.max 10000 (MilliSatoshi.as_u64 m / 200 + 1000))%Z /\
  (MilliSatoshi.whole_sat fee * 1000 = MilliSatoshi.as_u64 fee)%Z /\
  MilliSatoshi.encode fee = Ok (MilliSatoshi.as_u64 fee) /\
  fee <> MilliSatoshi.ZERO.
Proof.
  intros Hwf fee. destruct (max_for_exact m Hwf) as (h & Hh & Hpos & Heq).
  pose proof (max_for_range m Hwf) as Hb. fold fee in Heq, Hb.
  unfold LnFees.FEE_CAP_MIN_SAT in Heq.
  unfold LnFees.half_percent_half_down, MilliSatoshi.whole_sat, MilliSatoshi.wf in *.
  assert (Hi : (MilliSatoshi.as_u64 fee <= i64_max)%Z) by width_lia.
  split; [eauto |]. split; [unfold_width; lia |]. split; [exact Hb |].
  split; [rewrite Heq, Z.div_mul; lia |]. split.
  - unfold MilliSatoshi.encode, i64_try_from_u64.
    destruct (Z.leb_spec (MilliSatoshi.as_u64 fee) i64_max); [done | lia].
  - intros Hz. rewrite Hz in Hb. simpl in Hb. lia.
Qed.

Example max_for_spec_witness :
  MilliSatoshi.wf (MilliSatoshi.new 100000000) /\
  LnFees.max_for (MilliSatoshi.new 100000000) = MilliSatoshi.new 500000 /\
  LnFees.max_for (MilliSatoshi.new 100000000) <> MilliSatoshi.ZERO.
Proof.
  assert (Hwf : MilliSatoshi.wf (MilliSatoshi.new 100000000))
    by (split; vm_compute; discriminate).
  split; [exact Hwf | split; [reflexivity |]].
  destruct (max_for_spec _ Hwf) as (_ & _ & _ & _ & _ & H). exact H.
Defined.

(** The cap is monotone in the amount. *)
Theorem max_for_monotone m1 m2 :
  MilliSatoshi.wf m1 -> MilliSatoshi.wf m2 ->
  (MilliSatoshi.as_u64 m1 <= MilliSatoshi.as_u64 m2)%Z ->
  (MilliSatoshi.as_u64 (LnFees.max_for m1) <= MilliSatoshi.as_u64 (LnFees.max_for m2))%Z.
Proof.
  intros H1 H2 Hle.
  destruct (max_for_exact m1 H1) as (h1 & Hh1 & _ & ->).
  destruct (max_for_exact m2 H2) as (h2 & Hh2 & _ & ->).
  unfold LnFees.half_percent_half_down, MilliSatoshi.whole_sat, LnFees.FEE_CAP_MIN_SAT in *.
  Z.to_euclidean_division_equations; lia.
Qed.

Example max_for_monotone_witness :
  (MilliSatoshi.as_u64 (LnFees.max_for (MilliSatoshi.new 5000000)) <=
   MilliSatoshi.as_u64 (LnFees.max_for (MilliSatoshi.new 5000001)))%Z.
Proof. apply max_for_monotone; [split; vm_compute; discriminate .. | vm_compute; discriminate]. Defined.

(** [Satoshis::to_msat] is multiplication by 1000 exactly on the amounts whose
    millisatoshi value is a [u64], and the wrapped product beyond. *)
Lemma to_msat_exact s :
  (0 <= Satoshis.as_u64 s)%Z ->
  MilliSatoshi.as_u64 (Satoshis.to_msat s) = (Satoshis.as_u64 s * 1000)%Z <->
  (Satoshis.as_u64 s <= 18446744073709551)%Z.
Proof.
  intros Hs. simpl. split.
  - intros Heq. pose proof (wrap_u64_range (Satoshis.as_u64 s * 1000)). width_lia.
  - intros Hle. apply wrap_u64_small. width_lia.
Qed.
