(* ===== verification/EsEntity.v ===== *)
(** The interface of the [es-entity] crate the aggregates are written against: the
    event log of one entity ([EntityEvents]), the idempotency guard, and the
    repository [#[derive(EsRepo)]] generates for an entity.  The crate and what the
    derive expands to are not part of the repository, so they are operations of type
    classes here, with their documented behaviour as laws; a repository's laws are
    stated over the column list, the constraints and the hydration function the
    repository's source gives ([repo_desc]). *)
From S2P Require Import Prelude Primitives.

(** [sqlx::Error], by its text. *)
Record SqlxError : Type := Sqlx { sqlx_detail : string }.

(** [es_entity::Idempotent<T>] at the one type the commands use it, [()]. *)
Inductive Idempotent : Type := Executed | AlreadyApplied.
#[export] Instance Idempotent_eq_dec : EqDecision Idempotent.
Proof. solve_decision. Defined.

(** [EntityHydrationError], as [derive_builder] raises it: the required field no event
    has set. *)
Record EntityHydrationError : Type := UninitializedFieldError { field : string }.

(** A required field of a derived builder. *)
Definition required {A} (name : string) (o : option A) : result A EntityHydrationError :=
  ok_or (UninitializedFieldError name) o.

(** * Event logs *)

Class EventStore := {
  EntityEvents : Type -> Type -> Type;
  ev_init : forall {I E}, I -> list E -> EntityEvents I E;
  ev_load : forall {I E}, I -> list E -> EntityEvents I E;
  ev_id : forall {I E}, EntityEvents I E -> I;
  ev_push : forall {I E}, EntityEvents I E -> E -> EntityEvents I E;
  ev_mark_persisted : forall {I E}, EntityEvents I E -> EntityEvents I E;
  iter_persisted : forall {I E}, EntityEvents I E -> list E;
  iter_new : forall {I E}, EntityEvents I E -> list E;
  iter_all : forall {I E}, EntityEvents I E -> list E;
  (** [idempotency_guard!(iter, already_applied: pat)] returns early. *)
  guard_already_applied : forall {E}, list E -> (E -> bool) -> bool
}.

Class EventStoreLaws `{EventStore} : Prop := {
  iter_all_split {I E} (l : EntityEvents I E) :
    iter_all l = iter_persisted l ++ iter_new l;
  iter_persisted_init {I E} (i : I) (es : list E) : iter_persisted (ev_init i es) = [];
  iter_new_init {I E} (i : I) (es : list E) : iter_new (ev_init i es) = es;
  iter_persisted_load {I E} (i : I) (es : list E) : iter_persisted (ev_load i es) = es;
  iter_new_load {I E} (i : I) (es : list E) : iter_new (ev_load i es) = [];
  iter_persisted_push {I E} (l : EntityEvents I E) e :
    iter_persisted (ev_push l e) = iter_persisted l;
  iter_new_push {I E} (l : EntityEvents I E) e : iter_new (ev_push l e) = iter_new l ++ [e];
  iter_persisted_mark {I E} (l : EntityEvents I E) :
    iter_persisted (ev_mark_persisted l) = iter_persisted l ++ iter_new l;
  iter_new_mark {I E} (l : EntityEvents I E) : iter_new (ev_mark_persisted l) = [];
  ev_id_init {I E} (i : I) (es : list E) : ev_id (ev_init i es) = i;
  ev_id_load {I E} (i : I) (es : list E) : ev_id (ev_load i es) = i;
  ev_id_push {I E} (l : EntityEvents I E) e : ev_id (ev_push l e) = ev_id l;
  ev_id_mark {I E} (l : EntityEvents I E) : ev_id (ev_mark_persisted l) = ev_id l;
  guard_spec {E} (es : list E) p : guard_already_applied es p = existsb p es
}.

Section EventStore.
Context `{EventStoreLaws}.
Context {I E : Type}.
Implicit Types (l : EntityEvents I E) (e : E).

Lemma iter_all_init (i : I) (es : list E) : iter_all (ev_init i es) = es.
Proof. by rewrite iter_all_split, iter_persisted_init, iter_new_init. Qed.

Lemma iter_all_load (i : I) (es : list E) : iter_all (ev_load i es) = es.
Proof. by rewrite iter_all_split, iter_persisted_load, iter_new_load, app_nil_r. Qed.

Lemma iter_all_push l e : iter_all (ev_push l e) = iter_all l ++ [e].
Proof. by rewrite !iter_all_split, iter_persisted_push, iter_new_push, app_assoc. Qed.

Lemma iter_all_mark l : iter_all (ev_mark_persisted l) = iter_all l.
Proof. by rewrite !iter_all_split, iter_persisted_mark, iter_new_mark, app_nil_r. Qed.

(** The guard scans the log backwards; the order does not matter. *)
Lemma guard_rev l p :
  guard_already_applied (rev (iter_all l)) p = existsb p (iter_all l).
Proof. by rewrite guard_spec, existsb_rev. Qed.
End EventStore.

#[export] Hint Rewrite @iter_all_init @iter_all_load @iter_all_push @iter_all_mark
  @iter_persisted_init @iter_new_init @iter_persisted_load @iter_new_load
  @iter_persisted_push @iter_new_push @iter_persisted_mark @iter_new_mark
  @ev_id_init @ev_id_load @ev_id_push @ev_id_mark @guard_rev using typeclasses eauto
  : events.

(** * Repositories *)

(** A row of the projection table with the entity's rows of the events table. *)
Record stored (Row Id Ev : Type) : Type :=
  Stored { st_id : Id; st_row : Row; st_events : list Ev }.
Arguments Stored {Row Id Ev} _ _ _.
Arguments st_id {Row Id Ev} _.
Arguments st_row {Row Id Ev} _.
Arguments st_events {Row Id Ev} _.

(** Both tables of the repository have a unique [payment_hash] column: the pair of
    tables is a finite map from it. *)
Notation table Row Id Ev := (gmap PaymentHash.t (stored Row Id Ev)).

(** The order in which a query without [ORDER BY] returns the rows of a table. *)
Class RowOrder := {
  row_order : forall {Row Id Ev}, table Row Id Ev -> list (PaymentHash.t * stored Row Id Ev)
}.
Class RowOrderLaws `{RowOrder} : Prop := {
  row_order_perm {Row Id Ev} (tbl : table Row Id Ev) :
    row_order tbl ≡ₚ map_to_list tbl
}.

(** [SELECT ... WHERE sel LIMIT limit]: the rows of the table that satisfy [sel]. *)
Definition select_limit `{RowOrder} {Row Id Ev} (sel : stored Row Id Ev -> bool) (limit : Z)
    (tbl : table Row Id Ev) : result (list (PaymentHash.t * stored Row Id Ev)) SqlxError :=
  if (limit <? 0)%Z then Err (Sqlx "LIMIT must not be negative")
  else Ok (take (Z.to_nat limit) (List.filter (fun r => sel r.2) (row_order tbl))).

Lemma select_limit_sound `{RowOrderLaws} {Row Id Ev} sel limit (tbl : table Row Id Ev) rows h st :
  select_limit sel limit tbl = Ok rows -> (h, st) ∈ rows -> tbl !! h = Some st /\ sel st = true.
Proof.
  unfold select_limit. destruct (limit <? 0)%Z; intros [= <-].
  intros Hin. apply list_elem_of_In in Hin.
  assert (Hin' : In (h, st) (List.filter (fun r => sel r.2) (row_order tbl))).
  { rewrite <- (take_drop (Z.to_nat limit) (List.filter _ _)). apply in_app_iff. by left. }
  apply filter_In in Hin' as [Hrow Hsel]. split; [| done].
  apply list_elem_of_In in Hrow. rewrite row_order_perm in Hrow.
  by apply elem_of_map_to_list.
Qed.

Lemma select_limit_err `{RowOrder} {Row Id Ev} sel limit (tbl : table Row Id Ev) e :
  select_limit sel limit tbl = Err e -> (limit < 0)%Z.
Proof. unfold select_limit. destruct (Z.ltb_spec limit 0); [done |]. by intros [=]. Qed.

(** No row is returned twice, and every one is when the limit is large enough. *)
Lemma select_limit_keys `{RowOrderLaws} {Row Id Ev} sel limit (tbl : table Row Id Ev) rows :
  select_limit sel limit tbl = Ok rows -> NoDup (map fst rows).
Proof.
  unfold select_limit. destruct (limit <? 0)%Z; intros [= <-].
  assert (Hnd : NoDup (map fst (row_order tbl))).
  { rewrite row_order_perm. apply NoDup_fst_map_to_list. }
  revert Hnd. generalize (Z.to_nat limit). induction (row_order tbl) as [| r l IH];
    intros n; simpl; [by destruct n |]. intros [Hno Hnd]%NoDup_cons.
  destruct (sel r.2); [| by apply IH]. destruct n as [| n]; [constructor |]. simpl.
  constructor; [| by apply IH]. intros Hin. apply Hno. apply list_elem_of_fmap in Hin
    as (x & Hx & Hin). apply list_elem_of_fmap. exists x. split; [done |].
  apply (subseteq_take n) in Hin. apply list_elem_of_In in Hin.
  apply list_elem_of_In. by apply filter_In in Hin as [? _].
Qed.

Lemma select_limit_complete `{RowOrderLaws} {Row Id Ev} sel limit (tbl : table Row Id Ev)
    rows h st :
  select_limit sel limit tbl = Ok rows -> (Z.of_nat (size tbl) <= limit)%Z ->
  tbl !! h = Some st -> sel st = true -> (h, st) ∈ rows.
Proof.
  unfold select_limit. destruct (limit <? 0)%Z; intros [= <-]. intros Hfit Hst Hsel.
  rewrite take_ge.
  - apply list_elem_of_In, filter_In. split; [| done]. apply list_elem_of_In.
    rewrite row_order_perm. by apply elem_of_map_to_list.
  - etransitivity; [apply List.filter_length_le |]. rewrite row_order_perm.
    rewrite length_map_to_list. lia.
Qed.

(** A query that returns fewer rows than its limit returns all there are. *)
Lemma select_limit_short `{RowOrderLaws} {Row Id Ev} sel limit (tbl : table Row Id Ev)
    rows h st :
  select_limit sel limit tbl = Ok rows -> (Z.of_nat (length rows) < limit)%Z ->
  tbl !! h = Some st -> sel st = true -> (h, st) ∈ rows.
Proof.
  unfold select_limit. destruct (limit <? 0)%Z; intros [= <-]. rewrite length_take.
  intros Hshort Hst Hsel. rewrite take_ge by lia. apply list_elem_of_In, filter_In.
  split; [| done]. apply list_elem_of_In. rewrite row_order_perm. by apply elem_of_map_to_list.
Qed.

Lemma select_limit_length `{RowOrder} {Row Id Ev} sel limit (tbl : table Row Id Ev) rows :
  select_limit sel limit tbl = Ok rows -> (Z.of_nat (length rows) <= limit)%Z.
Proof.
  unfold select_limit. destruct (Z.ltb_spec limit 0); intros [= <-].
  rewrite length_take. lia.
Qed.

(** The errors the derive generates per repository. *)
Inductive CreateError (Col : Type) : Type :=
| CreateConstraintViolation (column : option Col) (value : option string)
| CreateSqlx (e : SqlxError)
| CreateHydration (e : EntityHydrationError).
Arguments CreateConstraintViolation {Col} column value.
Arguments CreateSqlx {Col} e.
Arguments CreateHydration {Col} e.

Inductive ModifyError : Type :=
| ConcurrentModification
| ModifySqlx (e : SqlxError).

Inductive FindError : Type :=
| NotFound
| FindSqlx (e : SqlxError)
| FindHydration (e : EntityHydrationError).

(** Of the generated list queries, which the source does not call; by its text. *)
Record QueryError : Type := Query { query_detail : string }.

(** What the source says about a repository: the key, the INSERT binding, the unique
    constraints, the UPDATE binding and the entity's event-sourcing functions. *)
Record repo_desc `{EventStore} (Ent New Ev Id Row Col : Type) : Type := RepoDesc {
  d_new_key : New -> PaymentHash.t;
  d_into_events : New -> EntityEvents Id Ev;
  d_insert_row : Timestamp.t -> New -> result Row SqlxError;
  d_conflict : New -> table Row Id Ev -> option Col;
  d_try_from_events : EntityEvents Id Ev -> result Ent EntityHydrationError;
  d_key : Ent -> PaymentHash.t;
  d_events : Ent -> EntityEvents Id Ev;
  d_set_events : EntityEvents Id Ev -> Ent -> Ent;
  d_update_row : Ent -> Row -> Row
}.
Arguments d_new_key {_ Ent New Ev Id Row Col} _.
Arguments d_into_events {_ Ent New Ev Id Row Col} _.
Arguments d_insert_row {_ Ent New Ev Id Row Col} _.
Arguments d_conflict {_ Ent New Ev Id Row Col} _.
Arguments d_try_from_events {_ Ent New Ev Id Row Col} _.
Arguments d_key {_ Ent New Ev Id Row Col} _.
Arguments d_events {_ Ent New Ev Id Row Col} _.
Arguments d_set_events {_ Ent New Ev Id Row Col} _.
Arguments d_update_row {_ Ent New Ev Id Row Col} _.

(** The generated operations. *)
Class EsRepo `{EventStore} {Ent New Ev Id Row Col} (d : repo_desc Ent New Ev Id Row Col) := {
  create_in_op :
    Timestamp.t -> New -> table Row Id Ev -> result (Ent * table Row Id Ev) (CreateError Col);
  update_in_op : Ent -> table Row Id Ev -> result (Ent * table Row Id Ev) ModifyError;
  find_by_payment_hash : PaymentHash.t -> table Row Id Ev -> result Ent FindError
}.
Arguments create_in_op {_ Ent New Ev Id Row Col} d {_} _ _ _.
Arguments update_in_op {_ Ent New Ev Id Row Col} d {_} _ _.
Arguments find_by_payment_hash {_ Ent New Ev Id Row Col} d {_} _ _.

(** Their documented behaviour.  [create] inserts the projection row, appends the new
    events and hydrates the entity; a unique index refuses a duplicate.  [update] is
    optimistic: the new events get the sequence numbers after the ones the entity was
    loaded with, so it fails as a concurrent modification when the stored log has grown
    since; without new events it does nothing.  [find] hydrates the stored log. *)
Class EsRepoLaws `{EsRepo} : Prop := {
  create_in_op_spec now n tbl :
    match d_insert_row d now n, d_conflict d n tbl with
    | Err e, _ => create_in_op d now n tbl = Err (CreateSqlx e)
    | Ok _, Some col =>
        exists v, create_in_op d now n tbl = Err (CreateConstraintViolation (Some col) v)
    | Ok row, None =>
        create_in_op d now n tbl =
          (let evs := ev_mark_persisted (d_into_events d n) in
           let? ent := map_err CreateHydration (d_try_from_events d evs) in
           Ok (ent, <[ d_new_key d n := Stored (ev_id evs) row (iter_persisted evs) ]> tbl))
    end;
  update_in_op_unchanged ent tbl :
    iter_new (d_events d ent) = [] -> update_in_op d ent tbl = Ok (ent, tbl);
  update_in_op_spec ent tbl st :
    iter_new (d_events d ent) <> [] ->
    tbl !! d_key d ent = Some st ->
    update_in_op d ent tbl =
      (if decide (length (st_events st) = length (iter_persisted (d_events d ent))) then
         Ok (d_set_events d (ev_mark_persisted (d_events d ent)) ent,
             <[ d_key d ent := Stored (st_id st) (d_update_row d ent (st_row st))
                                 (st_events st ++ iter_new (d_events d ent)) ]> tbl)
       else Err ConcurrentModification);
  find_by_payment_hash_spec h tbl :
    find_by_payment_hash d h tbl =
      match tbl !! h with
      | None => Err NotFound
      | Some st =>
          map_err FindHydration (d_try_from_events d (ev_load (st_id st) (st_events st)))
      end
}.
