(* ===== verification/Concrete.v ===== *)
(** Concrete functions for the crates the development is parameterised by: each meets
    the laws of its class, so the laws are consistent and the closed examples of the
    other files can be evaluated.  None of them is exported as an instance; a file that
    evaluates an example declares the ones it uses local instances. *)
From S2P Require Import Prelude Primitives EsEntity.
From Stdlib Require Strings.Byte.

(** * Hex *)

Definition hex_digit (n : N) : Ascii.ascii :=
  default Ascii.zero (String.get (N.to_nat n) "0123456789abcdef").

Definition hex_value (c : Ascii.ascii) : option N :=
  let n := Ascii.N_of_ascii c in
  if (48 <=? n)%N && (n <=? 57)%N then Some (n - 48)%N
  else if (97 <=? n)%N && (n <=? 102)%N then Some (n - 87)%N
  else if (65 <=? n)%N && (n <=? 70)%N then Some (n - 55)%N
  else None.

Fixpoint list_hex_encode (l : list byte) : string :=
  match l with
  | [] => ""
  | b :: l =>
      String (hex_digit (Byte.to_N b / 16)) (String (hex_digit (Byte.to_N b mod 16))
        (list_hex_encode l))
  end.

Fixpoint list_hex_decode (s : string) : result (list byte) string :=
  match s with
  | EmptyString => Ok []
  | String c EmptyString => Err "Odd number of digits"
  | String c (String d s) =>
      match hex_value c, hex_value d with
      | Some hi, Some lo =>
          let? l := list_hex_decode s in
          match Byte.of_N (16 * hi + lo) with
          | Some b => Ok (b :: l)
          | None => Err "Invalid character"
          end
      | _, _ => Err "Invalid character"
      end
  end.

Definition list_hex : Hex :=
  {| FromHexError := string; FromHexError_to_string e := e; hex_encode := list_hex_encode; hex_decode := list_hex_decode |}.

Lemma hex_byte_roundtrip b :
  hex_value (hex_digit (Byte.to_N b / 16)) = Some (Byte.to_N b / 16)%N /\
  hex_value (hex_digit (Byte.to_N b mod 16)) = Some (Byte.to_N b mod 16)%N /\
  Byte.of_N (16 * (Byte.to_N b / 16) + Byte.to_N b mod 16) = Some b.
Proof. by destruct b. Qed.

Lemma list_hex_decode_encode l : list_hex_decode (list_hex_encode l) = Ok l.
Proof.
  induction l as [| b l IH]; [done |].
  destruct (hex_byte_roundtrip b) as (Hhi & Hlo & Hb).
  cbn [list_hex_encode list_hex_decode]. rewrite Hhi, Hlo, IH. cbn [result_bind]. by rewrite Hb.
Qed.

Lemma list_hex_decode_length s l :
  list_hex_decode s = Ok l -> String.length s = (2 * length l)%nat.
Proof.
  revert l.
  assert (Hind : forall n s l, String.length s <= n -> list_hex_decode s = Ok l ->
                   String.length s = (2 * length l)%nat).
  { clear s. induction n as [| n IH]; intros [| c [| d s]] l Hn; cbn; try done; simpl in Hn;
      try lia; try (by intros [= <-]).
    destruct (hex_value c), (hex_value d); try done.
    destruct (list_hex_decode s) as [l' |] eqn:Hs; [| done]. cbn.
    destruct (Byte.of_N _); [| done]. intros [= <-].
    assert (Hlen : String.length s = (2 * length l')%nat) by (apply IH; [lia | done]).
    simpl. lia. }
  intros l. by apply (Hind (String.length s)).
Qed.

Lemma list_hex_laws : @HexLaws list_hex.
Proof.
  constructor.
  - exact list_hex_decode_encode.
  - intros l. induction l as [| b l IH]; [done |]. simpl in *. lia.
  - exact list_hex_decode_length.
Qed.

(** * Digest, UUID text *)

(** A stand-in digest: the identity on 32-byte messages. *)
Definition list_sha : Sha256 :=
  {| sha256 l := default (array_repeat x00 32) (array_try_from l) |}.

Definition list_uuid : UuidText :=
  {| UuidError := unit;
     uuid_to_string u := list_hex_encode (array_bytes u);
     uuid_parse_str s :=
       match list_hex_decode s with
       | Ok l => ok_or tt (array_try_from l)
       | Err _ => Err tt
       end |}.

Lemma list_uuid_laws : @UuidLaws list_uuid.
Proof.
  constructor. intros u. simpl. rewrite list_hex_decode_encode.
  by rewrite array_try_from_bytes.
Qed.

(** * Event logs and repositories *)

Record list_events (I E : Type) : Type :=
  ListEvents { le_id : I; le_persisted : list E; le_new : list E }.
Arguments ListEvents {I E}.
Arguments le_id {I E}.
Arguments le_persisted {I E}.
Arguments le_new {I E}.

Definition list_store : EventStore :=
  {| EntityEvents := list_events;
     ev_init I E i es := ListEvents i [] es;
     ev_load I E i es := ListEvents i es [];
     ev_id I E l := le_id l;
     ev_push I E l e := ListEvents (le_id l) (le_persisted l) (le_new l ++ [e]);
     ev_mark_persisted I E l := ListEvents (le_id l) (le_persisted l ++ le_new l) [];
     iter_persisted I E l := le_persisted l;
     iter_new I E l := le_new l;
     iter_all I E l := le_persisted l ++ le_new l;
     guard_already_applied E es p := existsb p es |}.

Lemma list_store_laws : @EventStoreLaws list_store.
Proof. by constructor. Qed.

Definition map_row_order : RowOrder := {| row_order Row Id Ev tbl := map_to_list tbl |}.

Lemma map_row_order_laws : @RowOrderLaws map_row_order.
Proof. by constructor. Qed.

Section Repo.
Context `{EventStore} {Ent New Ev Id Row Col : Type} (d : repo_desc Ent New Ev Id Row Col).

Definition table_create_in_op (now : Timestamp.t) (n : New) (tbl : table Row Id Ev) :
    result (Ent * table Row Id Ev) (CreateError Col) :=
  match d_insert_row d now n, d_conflict d n tbl with
  | Err e, _ => Err (CreateSqlx e)
  | Ok _, Some col => Err (CreateConstraintViolation (Some col) None)
  | Ok row, None =>
      let evs := ev_mark_persisted (d_into_events d n) in
      let? ent := map_err CreateHydration (d_try_from_events d evs) in
      Ok (ent, <[ d_new_key d n := Stored (ev_id evs) row (iter_persisted evs) ]> tbl)
  end.

Definition table_update_in_op (ent : Ent) (tbl : table Row Id Ev) :
    result (Ent * table Row Id Ev) ModifyError :=
  match iter_new (d_events d ent), tbl !! d_key d ent with
  | [], _ => Ok (ent, tbl)
  | _, None => Err (ModifySqlx (Sqlx "violates foreign key constraint"))
  | new, Some st =>
      if decide (length (st_events st) = length (iter_persisted (d_events d ent))) then
        Ok (d_set_events d (ev_mark_persisted (d_events d ent)) ent,
            <[ d_key d ent := Stored (st_id st) (d_update_row d ent (st_row st))
                                (st_events st ++ new) ]> tbl)
      else Err ConcurrentModification
  end.

Definition table_find (h : PaymentHash.t) (tbl : table Row Id Ev) : result Ent FindError :=
  match tbl !! h with
  | None => Err NotFound
  | Some st => map_err FindHydration (d_try_from_events d (ev_load (st_id st) (st_events st)))
  end.

Definition table_repo : EsRepo d :=
  {| create_in_op := table_create_in_op;
     update_in_op := table_update_in_op;
     find_by_payment_hash := table_find |}.

Lemma table_repo_laws : @EsRepoLaws _ _ _ _ _ _ _ _ table_repo.
Proof.
  constructor; simpl.
  - intros now n tbl. unfold table_create_in_op.
    destruct (d_insert_row d now n); [| done]. destruct (d_conflict d n tbl); eauto.
  - intros ent tbl Hnew. unfold table_update_in_op. by rewrite Hnew.
  - intros ent tbl st Hnew Hst. unfold table_update_in_op. rewrite Hst.
    by destruct (iter_new (d_events d ent)).
  - done.
Qed.
End Repo.

(** Short byte arrays for the examples. *)
Definition bytes_of (b : byte) (n : nat) : array n := array_repeat b n.
Definition hash_of (b : byte) : PaymentHash.t := PaymentHash.new (bytes_of b 32).
Definition preimage_of (b : byte) : Preimage.t := Preimage.new (bytes_of b 32).
Definition wallet_of (b : byte) : WalletId.t := WalletId.from_uuid (bytes_of b 16).
