(* ===== verification/GraphqlTypes.v ===== *)
(** The GraphQL types (src/src/api/graphql/types.rs): the scalars with their parsers and
    printers, the inputs, the payloads.  The values of [async-graphql] are its documented
    enumeration, of which the scalars read numbers and strings; its numbers, which are
    those of [serde_json], are a parameter. *)
From S2P Require Import Prelude Primitives Decimal Concrete.

(** [serde_json::Number]: the conversion from [u64] and [as_u64]. *)
Class GqlNumber := {
  Number : Type;
  number_from_u64 : Z -> Number;
  as_u64 : Number -> option Z
}.
Class GqlNumberLaws `{GqlNumber} : Prop := {
  as_u64_from : forall n, is_u64 n -> as_u64 (number_from_u64 n) = Some n;
  as_u64_range : forall x n, as_u64 x = Some n -> is_u64 n
}.

(** The text of a refused UUID. *)
Class UuidErrorText `{UuidText} := { UuidError_to_string : UuidError -> string }.

(** A GraphQL value; the kinds no scalar of the gateway reads are named by their kind. *)
Inductive Value `{GqlNumber} : Type :=
| VNumber (n : Number)
| VString (s : string)
| VOther (kind : string).

Inductive InputValueError `{GqlNumber} : Type :=
| ExpectedType (v : Value)
| CustomError (msg : string).

Section Scalars.
Context `{GqlNumber}.

Definition custom {A} (msg : string) : result A InputValueError := Err (CustomError msg).

(** The scalars that are any text. *)
Definition parse_text {A} (mk : string -> A) (v : Value) : result A InputValueError :=
  match v with
  | VString s => Ok (mk s)
  | other => Err (ExpectedType other)
  end.
End Scalars.

Module SatAmount.
Record t : Type := mk { as_u64_ : Z }.

Section Scalar.
Context `{GqlNumber}.

Definition parse (value : Value) : result t InputValueError :=
  match value with
  | VNumber n =>
      match as_u64 n with
      | Some v => Ok (mk v)
      | None => custom "SatAmount must be a non-negative integer"
      end
  | VString s =>
      match parse_u64 s with
      | Ok v => Ok (mk v)
      | Err e => custom ("invalid SatAmount: " +:+ ParseIntError.to_string e)
      end
  | other => Err (ExpectedType other)
  end.

Definition to_value (a : t) : Value := VNumber (number_from_u64 (as_u64_ a)).
End Scalar.

(** Unchecked: the multiplication wraps in a release build. *)
Definition to_msat (a : t) : MilliSatoshi.t := MilliSatoshi.new (wrap_u64 (as_u64_ a * 1000)).
End SatAmount.

Module Minutes.
Record t : Type := mk { minutes : Z }.

Section Scalar.
Context `{GqlNumber}.

Definition parse (value : Value) : result t InputValueError :=
  match value with
  | VNumber n =>
      match v ← as_u64 n; if (v <=? u32_max)%Z then Some v else None with
      | Some v => Ok (mk v)
      | None => custom "Minutes out of range"
      end
  | VString s =>
      match parse_u32 s with
      | Ok v => Ok (mk v)
      | Err e => custom ("invalid Minutes: " +:+ ParseIntError.to_string e)
      end
  | other => Err (ExpectedType other)
  end.

Definition to_value (m : t) : Value := VNumber (number_from_u64 (minutes m)).
End Scalar.
End Minutes.

Module TxExternalId.
Record t : Type := mk { text : string }.
Definition parse `{GqlNumber} : Value -> result t InputValueError := parse_text mk.
Definition to_value `{GqlNumber} (x : t) : Value := VString (text x).
End TxExternalId.

Module Memo.
Record t : Type := mk { text : string }.
Definition parse `{GqlNumber} : Value -> result t InputValueError := parse_text mk.
Definition to_value `{GqlNumber} (m : t) : Value := VString (text m).
End Memo.

Module GqlWalletId.
Record t : Type := mk { wallet : WalletId.t }.

Section Scalar.
Context `{GqlNumber} `{UuidErrorText}.

Definition parse (value : Value) : result t InputValueError :=
  match value with
  | VString s =>
      match WalletId.from_str s with
      | Ok w => Ok (mk w)
      | Err e => custom ("invalid WalletId: " +:+ UuidError_to_string e)
      end
  | other => Err (ExpectedType other)
  end.

Definition to_value (w : t) : Value := VString (WalletId.to_string (wallet w)).
End Scalar.
End GqlWalletId.

Module GqlPaymentHash.
Record t : Type := mk { hash : PaymentHash.t }.

Section Scalar.
Context `{GqlNumber} `{Hex}.

Definition parse (value : Value) : result t InputValueError :=
  match value with
  | VString s =>
      match PaymentHash.from_str s with
      | Ok h => Ok (mk h)
      | Err e => custom ("invalid PaymentHash: " +:+ PaymentHash.Error_to_string e)
      end
  | other => Err (ExpectedType other)
  end.

Definition to_value (h : t) : Value := VString (PaymentHash.to_string (hash h)).
End Scalar.
End GqlPaymentHash.

Module LnPaymentRequest.
Record t : Type := mk { text : string }.
Definition parse `{GqlNumber} : Value -> result t InputValueError := parse_text mk.
Definition to_value `{GqlNumber} (r : t) : Value := VString (text r).
Definition from_bolt (b : BoltInvoice.t) : t := mk (BoltInvoice.as_str b).
End LnPaymentRequest.

Module LnPaymentSecret.
Record t : Type := mk { text : string }.
Definition parse `{GqlNumber} : Value -> result t InputValueError := parse_text mk.
Definition to_value `{GqlNumber} (s : t) : Value := VString (text s).
End LnPaymentSecret.

Module LnPaymentPreImage.
Record t : Type := mk { text : string }.
Definition parse `{GqlNumber} : Value -> result t InputValueError := parse_text mk.
Definition to_value `{GqlNumber} (p : t) : Value := VString (text p).
End LnPaymentPreImage.

(** * Inputs and payloads *)

Module LnInvoiceCreateInput.
Record t : Type := mk {
  amount : SatAmount.t;
  expires_in : option Minutes.t;
  external_id : option TxExternalId.t;
  memo : option Memo.t;
  wallet_id : GqlWalletId.t
}.
End LnInvoiceCreateInput.

Module LnInvoicePaymentInput.
Record t : Type := mk {
  memo : option Memo.t;
  payment_request : LnPaymentRequest.t;
  wallet_id : GqlWalletId.t
}.
End LnInvoicePaymentInput.

Module LnInvoiceFeeProbeInput.
Record t : Type := mk {
  payment_request : LnPaymentRequest.t;
  wallet_id : GqlWalletId.t
}.
End LnInvoiceFeeProbeInput.

(** [GraphqlError], built by [from_message]. *)
Record GraphqlError : Type := from_message { error_message : string }.

Module LnInvoice.
Record t : Type := mk {
  payment_hash : GqlPaymentHash.t;
  payment_request : LnPaymentRequest.t;
  payment_secret : LnPaymentSecret.t;
  satoshis : SatAmount.t
}.
End LnInvoice.

Module LnInvoicePayload.
Record t : Type := mk { errors : list GraphqlError; invoice : option LnInvoice.t }.
End LnInvoicePayload.

Module PaymentSendResult.
Inductive t : Type := AlreadyPaid | Failure | Pending | Success.
#[export] Instance eq_dec : EqDecision t.
Proof. solve_decision. Defined.
End PaymentSendResult.
Export (hints) PaymentSendResult.

Record Transaction : Type := MkTransaction { transaction_id : string }.

Module PaymentSendPayload.
Record t : Type := mk {
  errors : list GraphqlError;
  status : option PaymentSendResult.t;
  transaction : option Transaction
}.
End PaymentSendPayload.

Module SatAmountPayload.
Record t : Type := mk { amount : option SatAmount.t; errors : list GraphqlError }.
End SatAmountPayload.

Module InvoicePaymentStatus.
Inductive t : Type := Expired | Paid | Pending.
#[export] Instance eq_dec : EqDecision t.
Proof. solve_decision. Defined.
End InvoicePaymentStatus.
Export (hints) InvoicePaymentStatus.

Module LnInvoicePaymentStatusPayload.
Record t : Type := mk {
  errors : list GraphqlError;
  payment_hash : option GqlPaymentHash.t;
  payment_preimage : option LnPaymentPreImage.t;
  payment_request : option LnPaymentRequest.t;
  status : option InvoicePaymentStatus.t
}.
End LnInvoicePaymentStatusPayload.

(** * Theorems *)

Section Theorems.
Context `{GqlNumberLaws} `{HexLaws} `{UuidLaws} `{!UuidErrorText}.

(** C40. What the two numeric scalars accept fits the Rust type that carries it, and a number
    given as a JSON number is accepted as itself or refused - never truncated. *)
Theorem numeric_scalars_in_range (v : Value) :
  (forall a, SatAmount.parse v = Ok a -> is_u64 (SatAmount.as_u64_ a)) /\
  (forall m, Minutes.parse v = Ok m -> (0 <= Minutes.minutes m <= u32_max)%Z) /\
  (forall n a, SatAmount.parse (VNumber n) = Ok a -> as_u64 n = Some (SatAmount.as_u64_ a)) /\
  (forall n m, Minutes.parse (VNumber n) = Ok m -> as_u64 n = Some (Minutes.minutes m)).
Proof.
  split_and!.
  - intros a. destruct v as [n | s | k]; simpl; [| | done].
    + destruct (as_u64 n) eqn:Hn; [| done]. intros [= <-]. by eapply as_u64_range.
    + destruct (parse_u64 s) eqn:Hs; [| done]. intros [= <-].
      apply parse_unsigned_range in Hs; unfold_width; simpl; lia.
  - intros m. destruct v as [n | s | k]; simpl; [| | done].
    + destruct (as_u64 n) as [z |] eqn:Hn; simpl; [| done]. apply as_u64_range in Hn.
      destruct (Z.leb_spec z u32_max); [| done]. intros [= <-]. unfold is_u64 in Hn. simpl. lia.
    + destruct (parse_u32 s) eqn:Hs; [| done]. intros [= <-].
      apply parse_unsigned_range in Hs; unfold_width; simpl; lia.
  - intros n a. simpl. by destruct (as_u64 n); [intros [= <-] |].
  - intros n m. simpl. destruct (as_u64 n) as [z |]; simpl; [| done].
    by destruct (z <=? u32_max)%Z; [intros [= <-] |].
Qed.

(** Every scalar reads back what it prints, and both numeric scalars also read the decimal
    text of their value. *)
Theorem scalars_roundtrip (v : Z) (s : string) (w : WalletId.t) (h : PaymentHash.t) :
  is_u64 v ->
  SatAmount.parse (SatAmount.to_value (SatAmount.mk v)) = Ok (SatAmount.mk v) /\
  SatAmount.parse (VString (pretty v)) = Ok (SatAmount.mk v) /\
  ((v <= u32_max)%Z ->
     Minutes.parse (Minutes.to_value (Minutes.mk v)) = Ok (Minutes.mk v) /\
     Minutes.parse (VString (pretty v)) = Ok (Minutes.mk v)) /\
  GqlWalletId.parse (GqlWalletId.to_value (GqlWalletId.mk w)) = Ok (GqlWalletId.mk w) /\
  GqlPaymentHash.parse (GqlPaymentHash.to_value (GqlPaymentHash.mk h)) =
    Ok (GqlPaymentHash.mk h) /\
  Memo.parse (Memo.to_value (Memo.mk s)) = Ok (Memo.mk s) /\
  TxExternalId.parse (TxExternalId.to_value (TxExternalId.mk s)) = Ok (TxExternalId.mk s) /\
  LnPaymentRequest.parse (LnPaymentRequest.to_value (LnPaymentRequest.mk s)) =
    Ok (LnPaymentRequest.mk s).
Proof.
  intros Hv. split_and!; try done.
  - simpl. by rewrite as_u64_from.
  - simpl. by rewrite parse_u64_pretty.
  - intros Hm. split; simpl.
    + rewrite as_u64_from by done. simpl. by destruct (Z.leb_spec v u32_max); [| lia].
    + unfold parse_u32. rewrite parse_unsigned_pretty; [done |]. unfold is_u64 in Hv. lia.
  - simpl. unfold WalletId.to_string, WalletId.from_str. rewrite uuid_parse_to_string.
    by destruct w.
  - simpl. unfold PaymentHash.to_string, PaymentHash.to_hex, PaymentHash.from_str.
    rewrite array_from_str_encode. by destruct h.
Qed.
End Theorems.

(** A number type that meets the laws: integers, of which the unsigned ones convert. *)
Definition int_number : GqlNumber :=
  {| Number := Z; number_from_u64 n := n;
     as_u64 n := if bool_decide (is_u64 n) then Some n else None |}.
Lemma int_number_laws : @GqlNumberLaws int_number.
Proof.
  constructor; simpl.
  - intros n Hn. by rewrite bool_decide_eq_true_2.
  - intros x n. case_bool_decide; [| done]. by intros [= <-].
Qed.

Example scalars_roundtrip_witness :
  @SatAmount.parse int_number (VString "21000000") = Ok (SatAmount.mk 21000000).
Proof.
  exact (proj1 (proj2 (@scalars_roundtrip int_number int_number_laws list_hex list_hex_laws
    list_uuid list_uuid_laws {| UuidError_to_string _ := "bad uuid" |}
    21000000 "" (wallet_of x01) (hash_of x02) ltac:(split; vm_compute; discriminate)))).
Defined.

Example numeric_scalars_in_range_witness :
  exists a, @SatAmount.parse int_number (VNumber (21%Z : @Number int_number)) = Ok a /\
    is_u64 (SatAmount.as_u64_ a).
Proof.
  exists (SatAmount.mk 21). split; [reflexivity |].
  apply (proj1 (@numeric_scalars_in_range int_number int_number_laws
    (VNumber (21%Z : @Number int_number)))). reflexivity.
Defined.
