(* ===== verification/Jwks.v ===== *)
(** The caller's identity (src/src/server/jwks.rs): the cache of signing keys, its refresh
    with bounded retries, and the verification of a token against the cached keys.  The
    [jsonwebtoken] crate and the HTTP client are parameters. *)
From S2P Require Import Prelude Primitives Concrete.

(** Seconds. *)
Definition REFRESH_INTERVAL : Z := 1800.
Definition FETCH_RETRY_COUNT : nat := 10.
Definition FETCH_RETRY_BACKOFF : Z := 2.

Record JwtClaims : Type := MkJwtClaims { claims_sub : string }.

(** [jsonwebtoken]: the key id of a header, the verification of signature and expiry under
    one key at an instant, the key of an RSA modulus and exponent. *)
Class JsonWebToken := {
  JwtError : Type;
  JwtError_to_string : JwtError -> string;
  DecodingKey : Type;
  decode_header : string -> result (option string) JwtError;
  verify : Z -> string -> DecodingKey -> result JwtClaims JwtError;
  from_rsa_components : string -> string -> result DecodingKey JwtError
}.

Module Jwk.
Record t : Type := mk { kid : option string; n : string; e : string }.
End Jwk.

Module JwksError.
Inductive t `{JsonWebToken} : Type :=
| Jwt (e : JwtError)
| FetchFailed (s : string)
| NoKeyAvailable.
Definition to_string `{JsonWebToken} (e : t) : string :=
  match e with
  | Jwt e => "jwt validation failed: " +:+ JwtError_to_string e
  | FetchFailed s => "jwks fetch failed: " +:+ s
  | NoKeyAvailable => "no jwks key available"
  end.
End JwksError.

Module RemoteJwksDecoder.
Section Decoder.
Context `{JsonWebToken}.

(** The cached keys, with their ids. *)
Definition keys_cache : Type := list (option string * DecodingKey).

(** A new decoder knows no key. *)
Definition new : keys_cache := [].

(** ** Fetching

    One attempt: the request fails, or a response arrives, whose body is a key set or not. *)
Definition attempt : Type := result (result (list Jwk.t) string) string.

Definition usable_keys (jwks : list Jwk.t) : keys_cache :=
  omap (fun jwk =>
    match from_rsa_components (Jwk.n jwk) (Jwk.e jwk) with
    | Ok key => Some (Jwk.kid jwk, key)
    | Err _ => None
    end) jwks.

(** The loop from attempt [k] on, with [budget] attempts left; the second component is the
    seconds slept. *)
Fixpoint fetch_from (attempts : nat -> attempt) (budget k : nat) (last_error : option string) :
    result keys_cache JwksError.t * Z :=
  match budget with
  | 0 => (Err (JwksError.FetchFailed (default "jwks fetch retries exhausted" last_error)), 0%Z)
  | S budget =>
      match attempts k with
      | Ok body =>
          (match body with
           | Ok jwks => Ok (usable_keys jwks)
           | Err e => Err (JwksError.FetchFailed e)
           end, 0%Z)
      | Err e =>
          let slept := if (k <? FETCH_RETRY_COUNT)%nat then FETCH_RETRY_BACKOFF else 0%Z in
          let (r, rest) := fetch_from attempts budget (S k) (Some e) in
          (r, slept + rest)%Z
      end
  end.

Definition fetch_jwks (attempts : nat -> attempt) : result keys_cache JwksError.t * Z :=
  fetch_from attempts FETCH_RETRY_COUNT 1 None.

(** The cache is replaced by a successful fetch only. *)
Definition refresh_keys (attempts : nat -> attempt) (keys : keys_cache) :
    keys_cache * result unit JwksError.t :=
  match (fetch_jwks attempts).1 with
  | Ok keys' => (keys', Ok tt)
  | Err e => (keys, Err e)
  end.

(** [refresh_keys_periodically], unrolled over the rounds of attempts it makes: an error is
    logged, the loop sleeps and goes on. *)
Fixpoint refresh_keys_periodically (rounds : list (nat -> attempt)) (keys : keys_cache) :
    keys_cache :=
  match rounds with
  | [] => keys
  | attempts :: rounds => refresh_keys_periodically rounds (refresh_keys attempts keys).1
  end.

(** ** Verification *)

Fixpoint decode_any (now : Z) (token : string) (keys : keys_cache) (last_err : JwksError.t) :
    result JwtClaims JwksError.t :=
  match keys with
  | [] => Err last_err
  | (_, key) :: keys =>
      match verify now token key with
      | Ok claims => Ok claims
      | Err e => decode_any now token keys (JwksError.Jwt e)
      end
  end.

Definition decode (now : Z) (keys : keys_cache) (token : string) :
    result JwtClaims JwksError.t :=
  let? kid := map_err JwksError.Jwt (decode_header token) in
  match kid with
  | Some target_kid =>
      match List.find (fun k => bool_decide (k.1 = Some target_kid)) keys with
      | Some (_, key) => map_err JwksError.Jwt (verify now token key)
      | None => decode_any now token keys JwksError.NoKeyAvailable
      end
  | None => decode_any now token keys JwksError.NoKeyAvailable
  end.
End Decoder.
End RemoteJwksDecoder.

(** * Theorems *)

Section Theorems.
Context `{JsonWebToken}.
Import RemoteJwksDecoder.

Lemma decode_any_spec now token keys e :
  match decode_any now token keys e with
  | Ok claims => exists kid key, (kid, key) ∈ keys /\ verify now token key = Ok claims
  | Err _ => forall kid key, (kid, key) ∈ keys -> is_ok (verify now token key) = false
  end.
Proof.
  revert e. induction keys as [| [kid key] keys IH]; intros e; simpl.
  - by intros kid key ?%not_elem_of_nil.
  - destruct (verify now token key) as [claims | err] eqn:Hv.
    + exists kid, key. split; [by left | done].
    + specialize (IH (JwksError.Jwt err)). destruct (decode_any _ _ _ _).
      * destruct IH as (kid' & key' & Hin & Hv'). exists kid', key'. split; [by right | done].
      * intros kid' key' [[= -> ->] | Hin]%elem_of_cons; [by rewrite Hv | by eapply IH].
Qed.

(** Accepted claims are those a cached key verifies. *)
Lemma decode_verified now keys token claims :
  decode now keys token = Ok claims ->
  exists kid key, (kid, key) ∈ keys /\ verify now token key = Ok claims.
Proof.
  unfold decode. intros (kid & _ & Hd)%result_bind_ok.
  pose proof (decode_any_spec now token keys JwksError.NoKeyAvailable) as Hany.
  destruct kid as [target |]; [| by rewrite Hd in Hany].
  destruct (List.find _ keys) as [[kid key] |] eqn:Hf; [| by rewrite Hd in Hany].
  apply find_some in Hf as [Hin%list_elem_of_In _]. apply map_err_ok in Hd. by exists kid, key.
Qed.

(** The key under the token's own id, if one is cached. *)
Definition named_key (keys : keys_cache) (token : string) : option DecodingKey :=
  match decode_header token with
  | Ok (Some target) =>
      snd <$> List.find (fun k : option string * DecodingKey => bool_decide (k.1 = Some target)) keys
  | _ => None
  end.

(** C39. Who a caller is: a token is accepted only with claims that some cached key verifies; when
    the token names a cached key, that key alone decides - no other key is tried; when it
    names none, any cached key that verifies it is enough. *)
Theorem decode_spec now keys token :
  match decode now keys token with
  | Ok claims =>
      exists kid key, (kid, key) ∈ keys /\ verify now token key = Ok claims /\
        (forall named, named_key keys token = Some named -> verify now token named = Ok claims)
  | Err _ =>
      is_ok (decode_header token) = true ->
      match named_key keys token with
      | Some named => is_ok (verify now token named) = false
      | None => forall kid key, (kid, key) ∈ keys -> is_ok (verify now token key) = false
      end
  end.
Proof.
  unfold decode, named_key. destruct (decode_header token) as [[target |] |]; simpl; [| | done].
  - destruct (List.find _ keys) as [[kid key] |] eqn:Hf; simpl.
    + apply find_some in Hf as [Hin%list_elem_of_In _].
      destruct (verify now token key) as [claims | e] eqn:Hv; simpl; [| by intros _].
      exists kid, key. split_and!; [done | done | by intros ? [= <-]].
    + pose proof (decode_any_spec now token keys JwksError.NoKeyAvailable) as Hany.
      destruct (decode_any _ _ _ _); [| done]. destruct Hany as (kid & key & Hin & Hv).
      by exists kid, key.
  - pose proof (decode_any_spec now token keys JwksError.NoKeyAvailable) as Hany.
    destruct (decode_any _ _ _ _); [| done]. destruct Hany as (kid & key & Hin & Hv).
    by exists kid, key.
Qed.

Lemma fetch_from_spec attempts budget k e :
  (forall j, k <= j < k + budget -> is_ok (attempts j) = false) /\
    (exists msg, (fetch_from attempts budget k e).1 = Err (JwksError.FetchFailed msg)) \/
  exists j body, k <= j < k + budget /\ attempts j = Ok body /\
    (forall i, k <= i < j -> is_ok (attempts i) = false) /\
    (fetch_from attempts budget k e).1 =
      match body with
      | Ok jwks => Ok (usable_keys jwks)
      | Err e => Err (JwksError.FetchFailed e)
      end.
Proof.
  revert k e. induction budget as [| budget IH]; intros k e; [left; split; [lia | by eexists] |].
  simpl. destruct (attempts k) as [body | err] eqn:Hk.
  - right. exists k, body. split_and!; [lia | lia | done | lia | done].
  - specialize (IH (S k) (Some err)). destruct (fetch_from _ _ _ _) as [r rest]. simpl in *.
    destruct IH as [[Hall Hr] | (j & body & Hj & Hok & Hbefore & Hr)].
    + left. split; [| done]. intros j Hj.
      destruct (decide (j = k)) as [-> | Hne]; [by rewrite Hk | apply Hall; lia].
    + right. exists j, body. split_and!; [lia | lia | done | | done]. intros i Hi.
      destruct (decide (i = k)) as [-> | Hne]; [by rewrite Hk | apply Hbefore; lia].
Qed.

Lemma fetch_from_slept attempts budget k e :
  (0 <= (fetch_from attempts budget k e).2 <=
    FETCH_RETRY_BACKOFF * Z.of_nat (Nat.min budget (FETCH_RETRY_COUNT - k)))%Z.
Proof.
  unfold FETCH_RETRY_BACKOFF. revert k e.
  induction budget as [| budget IH]; intros k e; [simpl; lia |]. cbn [fetch_from].
  destruct (attempts k); [simpl; lia |]. specialize (IH (S k) (Some e0)).
  destruct (fetch_from _ _ _ _) as [r rest]. cbn [snd] in IH |- *.
  destruct (Nat.ltb_spec k FETCH_RETRY_COUNT); unfold FETCH_RETRY_BACKOFF, FETCH_RETRY_COUNT in *; lia.
Qed.

(** A refresh of the key cache ends: at most ten attempts and eighteen seconds of sleep.
    It takes the first response that arrives, right or wrong - a response that is not a
    key set is not retried - and the keys in use are replaced by a key set only: every
    failure leaves them as they were. *)
Theorem refresh_keys_bounded attempts keys :
  (0 <= (fetch_jwks attempts).2 <= 18)%Z /\
  match refresh_keys attempts keys with
  | (keys', Ok _) =>
      exists j jwks, 1 <= j <= FETCH_RETRY_COUNT /\ attempts j = Ok (Ok jwks) /\
        (forall i, 1 <= i < j -> is_ok (attempts i) = false) /\ keys' = usable_keys jwks
  | (keys', Err e) =>
      keys' = keys /\
      ((forall j, 1 <= j <= FETCH_RETRY_COUNT -> is_ok (attempts j) = false) \/
       exists j msg, 1 <= j <= FETCH_RETRY_COUNT /\ attempts j = Ok (Err msg) /\
         e = JwksError.FetchFailed msg)
  end.
Proof.
  split.
  { pose proof (fetch_from_slept attempts FETCH_RETRY_COUNT 1 None) as Hs.
    unfold fetch_jwks. change (Z.of_nat _) with 9%Z in Hs. unfold FETCH_RETRY_BACKOFF in Hs. lia. }
  unfold refresh_keys, fetch_jwks.
  destruct (fetch_from_spec attempts FETCH_RETRY_COUNT 1 None)
    as [[Hall [msg ->]] | (j & body & Hj & Hok & Hbefore & ->)].
  - split; [done |]. left. intros j Hj. apply Hall. lia.
  - destruct body as [jwks | msg].
    + exists j, jwks. split_and!; [lia | lia | done | done | done].
    + split; [done |]. right. exists j, msg. split_and!; [lia | lia | done | done].
Qed.
End Theorems.

(** A checker whose keys are words: a token is verified by its prefixes, and its first letter
    is its key id. *)
Definition word_jwt : JsonWebToken :=
  {| JwtError := string; JwtError_to_string e := e; DecodingKey := string;
     decode_header s := if String.eqb s "" then Err "InvalidToken" else Ok (String.get 0 s ≫= fun c => Some (String c ""));
     verify now s k := if String.prefix k s then Ok (MkJwtClaims "alice") else Err "InvalidSignature";
     from_rsa_components n e := if String.eqb n "" then Err "InvalidRsaKey" else Ok n |}.

(** The cached key with the token's id refuses the token although another one verifies it. *)
Example named_key_decides :
  @RemoteJwksDecoder.decode word_jwt 0 [(Some "k", "zz"); (None, "k1")] "k1-token" =
    Err (@JwksError.Jwt word_jwt "InvalidSignature") /\
  @RemoteJwksDecoder.decode word_jwt 0 [(Some "q", "zz"); (None, "k1")] "k1-token" =
    Ok (MkJwtClaims "alice").
Proof. by vm_compute. Qed.

Example decode_spec_witness :
  exists key, @verify word_jwt 0 "k1-token" key = Ok (MkJwtClaims "alice").
Proof.
  destruct (@decode_spec word_jwt 0 [(Some "q", "zz"); (None, "k1")] "k1-token")
    as (kid & key & _ & Hv & _).
  by exists key.
Defined.

Example refresh_keys_bounded_witness :
  (0 <= (@RemoteJwksDecoder.fetch_jwks word_jwt
           (fun j => if (j =? 3)%nat then Ok (Ok [Jwk.mk (Some "k") "k1" "AQAB"]) else Err "down")).2
     <= 18)%Z.
Proof. exact (proj1 (@refresh_keys_bounded word_jwt _ [])). Defined.
