(* ===== verification/PaymentEntity.v ===== *)
(** The [Payment] aggregate (src/src/payment/): its events, states and errors, the two
    validating constructors, the command methods, hydration from the event log, and
    the repository's column list and queries. *)
From S2P Require Import Prelude Primitives EsEntity Concrete.

(** * Events (event.rs) *)

Module FailureReason.
Inductive t : Type :=
| Timeout
| NoRoute
| InsufficientBalance
| IncorrectPaymentDetails
| Other (s : string).
#[export] Instance eq_dec : EqDecision t.
Proof. solve_decision. Defined.

Definition as_str (r : t) : string :=
  match r with
  | Timeout => "Timeout"
  | NoRoute => "NoRoute"
  | InsufficientBalance => "InsufficientBalance"
  | IncorrectPaymentDetails => "IncorrectPaymentDetails"
  | Other _ => "Other"
  end.

Definition detail_str (r : t) : string :=
  match r with
  | Other s => "Other: " +:+ s
  | other => as_str other
  end.
End FailureReason.
Export (hints) FailureReason.

Module Hop.
Record t : Type := mk {
  pub_key : Pubkey.t;
  channel_id : Z;
  fee_msat : MilliSatoshi.t;
  amt_msat : MilliSatoshi.t;
  expiry : Z
}.
#[export] Instance eq_dec : EqDecision t.
Proof. solve_decision. Defined.
End Hop.
Export (hints) Hop.

Module PaymentEvent.
Inductive t : Type :=
| Initiated (payment_hash : PaymentHash.t) (wallet_id : WalletId.t)
    (amount_msat max_fee_msat : MilliSatoshi.t) (bolt_invoice : BoltInvoice.t)
    (destination : string) (initiated_at : Timestamp.t)
| Pending (sent_at : Timestamp.t)
| Completed (settled_at : Timestamp.t) (payment_preimage : Preimage.t)
    (fees_paid_msat : MilliSatoshi.t) (route_hops : list Hop.t)
| Failed (failed_at : Timestamp.t) (failure_reason : FailureReason.t)
| Reversed (reversed_at : Timestamp.t) (reason : string).
#[export] Instance eq_dec : EqDecision t.
Proof. solve_decision. Defined.

(** The patterns of the idempotency guards. *)
Definition is_Pending (e : t) : bool := match e with Pending _ => true | _ => false end.
Definition is_Completed (e : t) : bool :=
  match e with Completed _ _ _ _ => true | _ => false end.
Definition is_Failed (e : t) : bool := match e with Failed _ _ => true | _ => false end.
Definition is_Reversed (e : t) : bool := match e with Reversed _ _ => true | _ => false end.
End PaymentEvent.
Export (hints) PaymentEvent.

(** * States and errors (entity.rs, error.rs) *)

Module PaymentState.
Inductive t : Type := Initiated | Pending | Completed | Failed | Reversed.
#[export] Instance eq_dec : EqDecision t.
Proof. solve_decision. Defined.

Definition as_str (s : t) : string :=
  match s with
  | Initiated => "initiated"
  | Pending => "pending"
  | Completed => "completed"
  | Failed => "failed"
  | Reversed => "reversed"
  end.

Lemma as_str_inj s1 s2 : as_str s1 = as_str s2 -> s1 = s2.
Proof. by destruct s1, s2. Qed.
End PaymentState.
Export (hints) PaymentState.

(** [PaymentColumn], generated from the repository's columns. *)
Inductive PaymentColumn : Type := PaymentColumn_Id | PaymentColumn_PaymentHash.

Module PaymentError.
Inductive t : Type :=
| InvalidAmount
| AmountRequired
| AmountOverspecified
| AmountMismatch
| InvalidMaxFee
| EmptyBoltInvoice
| InvalidBoltInvoice (s : string)
| ExpiredBoltInvoice
| AlreadyPaid (payment_hash : string)
| SelfPayment
| RecipientInvoiceCanceled
| RecipientInvoiceInProgress
| RecipientInvoiceExpired
| InvalidStateTransition (from : PaymentState.t) (attempted : string)
| CorruptEventLog
| PaymentCreate (e : CreateError PaymentColumn)
| PaymentModify (e : ModifyError)
| PaymentFind (e : FindError)
| PaymentQuery (e : QueryError)
| PaymentSqlx (e : SqlxError).

(** [From<PaymentCreateError>]. *)
Definition from_create (error : CreateError PaymentColumn) : t :=
  match error with
  | CreateConstraintViolation (Some PaymentColumn_PaymentHash) value =>
      AlreadyPaid (default "" value)
  | other => PaymentCreate other
  end.
End PaymentError.

(** * Construction (entity.rs) *)

Module DecodedInvoice.
Record t : Type := mk {
  payment_hash : PaymentHash.t;
  destination : string;
  amount_msat : option MilliSatoshi.t;
  bolt_invoice : BoltInvoice.t
}.
End DecodedInvoice.

Module NewPayment.
Record t : Type := mk {
  id : PaymentId.t;
  payment_hash : PaymentHash.t;
  wallet_id : WalletId.t;
  amount_msat : MilliSatoshi.t;
  max_fee_msat : MilliSatoshi.t;
  bolt_invoice : BoltInvoice.t;
  destination : string;
  initiated_at : Timestamp.t
}.

(** [uuid] is the value [PaymentId::new()] mints. *)
Definition try_new (uuid : Uuid) (decoded : DecodedInvoice.t) (wallet_id : WalletId.t)
    (requested_amount_msat : option MilliSatoshi.t) (max_fee_msat : MilliSatoshi.t)
    (initiated_at : Timestamp.t) : result t PaymentError.t :=
  let? amount_msat :=
    match DecodedInvoice.amount_msat decoded, requested_amount_msat with
    | Some invoice_amount, None => Ok invoice_amount
    | None, Some requested => Ok requested
    | Some _, Some _ => Err PaymentError.AmountOverspecified
    | None, None => Err PaymentError.AmountRequired
    end in
  if (MilliSatoshi.as_u64 amount_msat =? 0)%Z then Err PaymentError.InvalidAmount
  else if (MilliSatoshi.as_u64 max_fee_msat =? 0)%Z then Err PaymentError.InvalidMaxFee
  else if String.eqb (BoltInvoice.as_str (DecodedInvoice.bolt_invoice decoded)) "" then
    Err PaymentError.EmptyBoltInvoice
  else
    Ok {| id := PaymentId.from_uuid uuid;
          payment_hash := DecodedInvoice.payment_hash decoded;
          wallet_id := wallet_id;
          amount_msat := amount_msat;
          max_fee_msat := max_fee_msat;
          bolt_invoice := DecodedInvoice.bolt_invoice decoded;
          destination := DecodedInvoice.destination decoded;
          initiated_at := initiated_at |}.

Definition try_new_intraledger (uuid : Uuid) (decoded : DecodedInvoice.t)
    (invoice_amount_msat : option MilliSatoshi.t) (wallet_id : WalletId.t)
    (initiated_at : Timestamp.t) : result t PaymentError.t :=
  let? amount_msat :=
    match invoice_amount_msat with
    | Some invoice_amount =>
        match DecodedInvoice.amount_msat decoded with
        | Some sender_amount =>
            if decide (sender_amount <> invoice_amount) then Err PaymentError.AmountMismatch
            else Ok invoice_amount
        | None => Ok invoice_amount
        end
    | None => ok_or PaymentError.AmountRequired (DecodedInvoice.amount_msat decoded)
    end in
  if (MilliSatoshi.as_u64 amount_msat =? 0)%Z then Err PaymentError.InvalidAmount
  else if String.eqb (BoltInvoice.as_str (DecodedInvoice.bolt_invoice decoded)) "" then
    Err PaymentError.EmptyBoltInvoice
  else
    Ok {| id := PaymentId.from_uuid uuid;
          payment_hash := DecodedInvoice.payment_hash decoded;
          wallet_id := wallet_id;
          amount_msat := amount_msat;
          max_fee_msat := MilliSatoshi.ZERO;
          bolt_invoice := DecodedInvoice.bolt_invoice decoded;
          destination := DecodedInvoice.destination decoded;
          initiated_at := initiated_at |}.

Definition state_str (n : t) : string := PaymentState.as_str PaymentState.Initiated.

(** The one event of [into_events]. *)
Definition initial_event (n : t) : PaymentEvent.t :=
  PaymentEvent.Initiated (payment_hash n) (wallet_id n) (amount_msat n) (max_fee_msat n)
    (bolt_invoice n) (destination n) (initiated_at n).

Definition into_events `{EventStore} (n : t) : EntityEvents PaymentId.t PaymentEvent.t :=
  ev_init (id n) [initial_event n].
End NewPayment.

(** * The aggregate (entity.rs)

    A command takes [&mut self]: it returns the aggregate it leaves behind together
    with its result, on the error paths too. *)

Module Payment.
Section Aggregate.
Context `{EventStore}.

Record t : Type := mk {
  id : PaymentId.t;
  payment_hash : PaymentHash.t;
  wallet_id : WalletId.t;
  amount_msat : MilliSatoshi.t;
  max_fee_msat : MilliSatoshi.t;
  state : PaymentState.t;
  fees_paid_msat : option MilliSatoshi.t;
  payment_preimage : option Preimage.t;
  initiated_at : Timestamp.t;
  settled_at : option Timestamp.t;
  events : EntityEvents PaymentId.t PaymentEvent.t
}.

(** [self.events.push(e)] and the assignments to the projected fields. *)
Definition push (e : PaymentEvent.t) (p : t) : t :=
  mk (id p) (payment_hash p) (wallet_id p) (amount_msat p) (max_fee_msat p) (state p)
    (fees_paid_msat p) (payment_preimage p) (initiated_at p) (settled_at p)
    (ev_push (events p) e).
Definition set_events (evs : EntityEvents PaymentId.t PaymentEvent.t) (p : t) : t :=
  mk (id p) (payment_hash p) (wallet_id p) (amount_msat p) (max_fee_msat p) (state p)
    (fees_paid_msat p) (payment_preimage p) (initiated_at p) (settled_at p) evs.
Definition set_state (s : PaymentState.t) (p : t) : t :=
  mk (id p) (payment_hash p) (wallet_id p) (amount_msat p) (max_fee_msat p) s
    (fees_paid_msat p) (payment_preimage p) (initiated_at p) (settled_at p) (events p).
Definition set_settlement (fees : MilliSatoshi.t) (preimage : Preimage.t)
    (settled : Timestamp.t) (p : t) : t :=
  mk (id p) (payment_hash p) (wallet_id p) (amount_msat p) (max_fee_msat p) (state p)
    (Some fees) (Some preimage) (initiated_at p) (Some settled) (events p).

(** [idempotency_guard!(self.events.iter_all().rev(), already_applied: pat)]. *)
Definition guard (p : t) (pat : PaymentEvent.t -> bool) : bool :=
  guard_already_applied (rev (iter_all (events p))) pat.

Definition state_str (p : t) : string := PaymentState.as_str (state p).

Definition mark_pending (sent_at : Timestamp.t) (p : t) :
    t * result Idempotent PaymentError.t :=
  let advance := set_state PaymentState.Pending (push (PaymentEvent.Pending sent_at) p) in
  match state p with
  | PaymentState.Initiated => (advance, Ok Executed)
  | PaymentState.Pending =>
      if guard p PaymentEvent.is_Pending then (p, Ok AlreadyApplied)
      else (advance, Ok Executed)
  | PaymentState.Completed | PaymentState.Failed | PaymentState.Reversed =>
      (p, Err (PaymentError.InvalidStateTransition (state p) "mark_pending"))
  end.

Definition settle (preimage : Preimage.t) (fees : MilliSatoshi.t)
    (route_hops : list Hop.t) (settled : Timestamp.t) (p : t) :
    t * result Idempotent PaymentError.t :=
  if guard p PaymentEvent.is_Completed then (p, Ok AlreadyApplied)
  else match state p with
  | PaymentState.Initiated | PaymentState.Pending =>
      (set_settlement fees preimage settled
         (set_state PaymentState.Completed
            (push (PaymentEvent.Completed settled preimage fees route_hops) p)),
       Ok Executed)
  | from => (p, Err (PaymentError.InvalidStateTransition from "settle"))
  end.

Definition fail (failure_reason : FailureReason.t) (failed_at : Timestamp.t) (p : t) :
    t * result Idempotent PaymentError.t :=
  if guard p PaymentEvent.is_Failed then (p, Ok AlreadyApplied)
  else match state p with
  | PaymentState.Initiated | PaymentState.Pending =>
      (set_state PaymentState.Failed
         (push (PaymentEvent.Failed failed_at failure_reason) p), Ok Executed)
  | from => (p, Err (PaymentError.InvalidStateTransition from "fail"))
  end.

Definition reverse (reason : string) (reversed_at : Timestamp.t) (p : t) :
    t * result Idempotent PaymentError.t :=
  if guard p PaymentEvent.is_Reversed then (p, Ok AlreadyApplied)
  else match state p with
  | PaymentState.Completed =>
      (set_state PaymentState.Reversed
         (push (PaymentEvent.Reversed reversed_at reason) p), Ok Executed)
  | from => (p, Err (PaymentError.InvalidStateTransition from "reverse"))
  end.

(** ** Hydration

    The derived builder: an option per field, the last write wins. *)
Record builder : Type := Builder {
  b_id : option PaymentId.t;
  b_payment_hash : option PaymentHash.t;
  b_wallet_id : option WalletId.t;
  b_amount_msat : option MilliSatoshi.t;
  b_max_fee_msat : option MilliSatoshi.t;
  b_state : option PaymentState.t;
  b_fees_paid_msat : option (option MilliSatoshi.t);
  b_payment_preimage : option (option Preimage.t);
  b_initiated_at : option Timestamp.t;
  b_settled_at : option (option Timestamp.t)
}.

Definition builder_id (i : PaymentId.t) : builder :=
  Builder (Some i) None None None None None None None None None.

Definition builder_apply (b : builder) (ev : PaymentEvent.t) : builder :=
  match ev with
  | PaymentEvent.Initiated hash wallet amount max_fee _ _ initiated =>
      Builder (b_id b) (Some hash) (Some wallet) (Some amount) (Some max_fee) (b_state b)
        (b_fees_paid_msat b) (b_payment_preimage b) (Some initiated) (b_settled_at b)
  | PaymentEvent.Pending _ =>
      Builder (b_id b) (b_payment_hash b) (b_wallet_id b) (b_amount_msat b)
        (b_max_fee_msat b) (Some PaymentState.Pending) (b_fees_paid_msat b)
        (b_payment_preimage b) (b_initiated_at b) (b_settled_at b)
  | PaymentEvent.Completed settled preimage fees _ =>
      Builder (b_id b) (b_payment_hash b) (b_wallet_id b) (b_amount_msat b)
        (b_max_fee_msat b) (Some PaymentState.Completed) (Some (Some fees))
        (Some (Some preimage)) (b_initiated_at b) (Some (Some settled))
  | PaymentEvent.Failed _ _ =>
      Builder (b_id b) (b_payment_hash b) (b_wallet_id b) (b_amount_msat b)
        (b_max_fee_msat b) (Some PaymentState.Failed) (b_fees_paid_msat b)
        (b_payment_preimage b) (b_initiated_at b) (b_settled_at b)
  | PaymentEvent.Reversed _ _ =>
      Builder (b_id b) (b_payment_hash b) (b_wallet_id b) (b_amount_msat b)
        (b_max_fee_msat b) (Some PaymentState.Reversed) (b_fees_paid_msat b)
        (b_payment_preimage b) (b_initiated_at b) (b_settled_at b)
  end.

(** [builder.events(events).build()]: the required fields in declaration order, the
    [#[builder(default)]] ones with their default. *)
Definition build (b : builder) (evs : EntityEvents PaymentId.t PaymentEvent.t) :
    result t EntityHydrationError :=
  let? id := required "id" (b_id b) in
  let? hash := required "payment_hash" (b_payment_hash b) in
  let? wallet := required "wallet_id" (b_wallet_id b) in
  let? amount := required "amount_msat" (b_amount_msat b) in
  let? max_fee := required "max_fee_msat" (b_max_fee_msat b) in
  let? initiated := required "initiated_at" (b_initiated_at b) in
  Ok (mk id hash wallet amount max_fee (default PaymentState.Initiated (b_state b))
        (default None (b_fees_paid_msat b)) (default None (b_payment_preimage b))
        initiated (default None (b_settled_at b)) evs).

Definition try_from_events (evs : EntityEvents PaymentId.t PaymentEvent.t) :
    result t EntityHydrationError :=
  build (fold_left builder_apply (iter_all evs) (builder_id (ev_id evs))) evs.
End Aggregate.
End Payment.

(** * The repository (repo.rs) *)

(** A row of [payments]; the unique [payment_hash] column is the key of the table. *)
Module PaymentRow.
Record t : Type := mk {
  wallet_id : WalletId.t;
  amount_msat : Z;
  max_fee_msat : Z;
  state : string;
  created_at : Timestamp.t
}.
End PaymentRow.

Notation payment_table := (table PaymentRow.t PaymentId.t PaymentEvent.t).

Module Payments.
Section Repo.
Context `{EventStore}.

Definition encode_msat (m : MilliSatoshi.t) : result Z SqlxError :=
  map_err (fun e => Sqlx (MilliSatoshiError_to_string e)) (MilliSatoshi.encode m).

Definition insert_row (now : Timestamp.t) (n : NewPayment.t) :
    result PaymentRow.t SqlxError :=
  let? amount := encode_msat (NewPayment.amount_msat n) in
  let? max_fee := encode_msat (NewPayment.max_fee_msat n) in
  Ok (PaymentRow.mk (NewPayment.wallet_id n) amount max_fee (NewPayment.state_str n) now).

Definition conflict (n : NewPayment.t) (tbl : payment_table) :
    option PaymentColumn :=
  match tbl !! NewPayment.payment_hash n with
  | Some _ => Some PaymentColumn_PaymentHash
  | None => None
  end.

Definition update_row (p : Payment.t) (r : PaymentRow.t) : PaymentRow.t :=
  PaymentRow.mk (PaymentRow.wallet_id r) (PaymentRow.amount_msat r)
    (PaymentRow.max_fee_msat r) (Payment.state_str p) (PaymentRow.created_at r).

Definition desc : repo_desc Payment.t NewPayment.t PaymentEvent.t PaymentId.t
                    PaymentRow.t PaymentColumn :=
  {| d_new_key := NewPayment.payment_hash;
     d_into_events := NewPayment.into_events;
     d_insert_row := insert_row;
     d_conflict := conflict;
     d_try_from_events := Payment.try_from_events;
     d_key := Payment.payment_hash;
     d_events := Payment.events;
     d_set_events := Payment.set_events;
     d_update_row := update_row |}.

Definition list_stranded_initiated `{RowOrder} (older_than : Timestamp.t) (limit : Z)
    (tbl : payment_table) : result (list PaymentHash.t) PaymentError.t :=
  let sel (st : stored PaymentRow.t PaymentId.t PaymentEvent.t) :=
    String.eqb (PaymentRow.state (st_row st)) "initiated" &&
    bool_decide (Timestamp.lt (PaymentRow.created_at (st_row st)) older_than) in
  let? rows := map_err PaymentError.PaymentSqlx (select_limit sel limit tbl) in
  Ok (map fst rows).
End Repo.
End Payments.

(** * The state machine

    The abstract lifecycle: which event leads from which state to which. *)

Inductive payment_step : PaymentState.t -> PaymentEvent.t -> PaymentState.t -> Prop :=
| step_pending t :
    payment_step PaymentState.Initiated (PaymentEvent.Pending t) PaymentState.Pending
| step_completed s t pre fees hops :
    s = PaymentState.Initiated \/ s = PaymentState.Pending ->
    payment_step s (PaymentEvent.Completed t pre fees hops) PaymentState.Completed
| step_failed s t r :
    s = PaymentState.Initiated \/ s = PaymentState.Pending ->
    payment_step s (PaymentEvent.Failed t r) PaymentState.Failed
| step_reversed t r :
    payment_step PaymentState.Completed (PaymentEvent.Reversed t r) PaymentState.Reversed.

(** The logs of the lifecycle, with the state each ends in. *)
Inductive payment_log : list PaymentEvent.t -> PaymentState.t -> Prop :=
| log_initiated n : payment_log [NewPayment.initial_event n] PaymentState.Initiated
| log_step l s e s' : payment_log l s -> payment_step s e s' -> payment_log (l ++ [e]) s'.

Definition is_Initiated (e : PaymentEvent.t) : bool :=
  match e with PaymentEvent.Initiated _ _ _ _ _ _ _ => true | _ => false end.

(** What a log says about the guards of the commands. *)
Definition log_marks (l : list PaymentEvent.t) (s : PaymentState.t) : Prop :=
  existsb PaymentEvent.is_Completed l =
    bool_decide (s = PaymentState.Completed \/ s = PaymentState.Reversed) /\
  existsb PaymentEvent.is_Failed l = bool_decide (s = PaymentState.Failed) /\
  existsb PaymentEvent.is_Reversed l = bool_decide (s = PaymentState.Reversed) /\
  (s = PaymentState.Pending -> existsb PaymentEvent.is_Pending l = true).

Lemma payment_log_marks l s : payment_log l s -> log_marks l s.
Proof.
  unfold log_marks. induction 1 as [n | l s e s' Hl (Hc & Hf & Hr & Hp) Hstep].
  - done.
  - rewrite !existsb_snoc, Hc, Hf, Hr.
    destruct Hstep as [| ? ? ? ? ? [-> | ->] | ? ? ? [-> | ->] |]; simpl;
      split_and!; try done; intros; by rewrite ?orb_true_r.
Qed.

Lemma payment_log_head l s :
  payment_log l s ->
  exists n es, l = NewPayment.initial_event n :: es /\ Forall (fun e => is_Initiated e = false) es.
Proof.
  induction 1 as [n | l s e s' Hl (n & es & -> & Hes) Hstep].
  - exists n, []. by split; [| constructor].
  - exists n, (es ++ [e]). split; [done |]. apply Forall_app_2; [done |].
    constructor; [by destruct Hstep | constructor].
Qed.

(** A log ends in one state. *)
Lemma payment_log_functional l s1 s2 : payment_log l s1 -> payment_log l s2 -> s1 = s2.
Proof.
  intros H1. revert s2. induction H1 as [n | l s e s' Hl IH Hstep]; intros s2 H2.
  - inversion H2 as [| l' s0 e0 s0' Hl' Hs' Heq]; [done |].
    destruct l' as [| x l']; [inversion Hl' as [| ? ? ? ? ? ? Happ];
      by destruct (app_cons_not_nil _ _ _ (eq_sym Happ)) |].
    by destruct l'.
  - inversion H2 as [n Heq | l' s0 e0 s0' Hl' Hs' Heq].
    + destruct l as [| x l]; [inversion Hl as [| ? ? ? ? ? ? Happ];
        by destruct (app_cons_not_nil _ _ _ (eq_sym Happ)) |].
      by destruct l.
    + apply app_inj_tail in Heq as [-> ->]. pose proof (IH _ Hl') as ->.
      by inversion Hstep; subst; inversion Hs'; subst.
Qed.

Module PaymentTheory.
Section Theory.
Context `{EventStoreLaws}.
Import Payment.

(** The projection of an event on the aggregate's fields. *)
Definition project (e : PaymentEvent.t) (p : t) : t :=
  match e with
  | PaymentEvent.Initiated _ _ _ _ _ _ _ => p
  | PaymentEvent.Pending _ => set_state PaymentState.Pending p
  | PaymentEvent.Completed settled preimage fees _ =>
      set_settlement fees preimage settled (set_state PaymentState.Completed p)
  | PaymentEvent.Failed _ _ => set_state PaymentState.Failed p
  | PaymentEvent.Reversed _ _ => set_state PaymentState.Reversed p
  end.

(** The projected fields are those hydration computes from the log. *)
Definition coherent (p : t) : Prop := try_from_events (events p) = Ok p.

Definition wf (p : t) : Prop :=
  coherent p /\ payment_log (iter_all (events p)) (state p).

Lemma build_apply b evs p e evs' :
  is_Initiated e = false -> build b evs = Ok p ->
  build (builder_apply b e) evs' = Ok (set_events evs' (project e p)).
Proof.
  destruct b as [[] [] [] [] [] st fees pre [] set]; unfold build; simpl; try done.
  intros He [= <-]. by destruct e.
Qed.

Lemma try_from_events_set evs evs' p :
  iter_all evs' = iter_all evs -> ev_id evs' = ev_id evs ->
  try_from_events evs = Ok p -> try_from_events evs' = Ok (set_events evs' p).
Proof.
  unfold try_from_events. intros -> ->. generalize (builder_id (ev_id evs)).
  intros b0. generalize (fold_left builder_apply (iter_all evs) b0). intros b.
  destruct b as [[] [] [] [] [] st fees pre [] set]; unfold build; simpl; try done.
  intros [= <-]. done.
Qed.

Lemma try_from_events_push evs p e :
  is_Initiated e = false -> try_from_events evs = Ok p ->
  try_from_events (ev_push evs e) = Ok (set_events (ev_push evs e) (project e p)).
Proof.
  intros He Hp. unfold try_from_events in *.
  autorewrite with events. rewrite fold_left_app. simpl. by eapply build_apply.
Qed.

Lemma try_from_events_events evs p : try_from_events evs = Ok p -> events p = evs.
Proof.
  unfold try_from_events. generalize (fold_left builder_apply (iter_all evs) (builder_id (ev_id evs))).
  intros [[] [] [] [] [] st fees pre [] set]; unfold build; simpl; try done. by intros [= <-].
Qed.

(** The identity of a hydrated payment is the one its first event states. *)
Lemma hydrate_identity evs p n es :
  try_from_events evs = Ok p ->
  iter_all evs = NewPayment.initial_event n :: es ->
  Forall (fun e => is_Initiated e = false) es ->
  payment_hash p = NewPayment.payment_hash n /\ wallet_id p = NewPayment.wallet_id n /\
  amount_msat p = NewPayment.amount_msat n /\ max_fee_msat p = NewPayment.max_fee_msat n.
Proof.
  unfold try_from_events. intros Hp Hall Hes. rewrite Hall in Hp. simpl in Hp.
  assert (Hgen : forall es b,
    Forall (fun e => is_Initiated e = false) es ->
    b_payment_hash b = Some (NewPayment.payment_hash n) ->
    b_wallet_id b = Some (NewPayment.wallet_id n) ->
    b_amount_msat b = Some (NewPayment.amount_msat n) ->
    b_max_fee_msat b = Some (NewPayment.max_fee_msat n) ->
    build (fold_left builder_apply es b) evs = Ok p ->
    payment_hash p = NewPayment.payment_hash n /\ wallet_id p = NewPayment.wallet_id n /\
    amount_msat p = NewPayment.amount_msat n /\ max_fee_msat p = NewPayment.max_fee_msat n).
  { clear. induction es as [| e es IH]; intros b Hno Hh Hw Ha Hm Hb.
    - destruct b as [[] ? ? ? ? st fees pre [] set]; unfold build in Hb; simpl in *; subst;
        simpl in *; simplify_eq; by repeat split.
    - apply Forall_cons in Hno as [He Hno]. simpl in Hb.
      apply (IH (builder_apply b e)); [done | by destruct e .. | done]. }
  by eapply (Hgen es); [| | | | | exact Hp].
Qed.

(** An event of the lifecycle, pushed and projected, keeps an aggregate well-formed. *)
Lemma push_wf p e :
  wf p -> payment_step (state p) e (state (project e p)) -> wf (project e (push e p)).
Proof.
  intros [Hco Hlog] Hstep.
  assert (He : is_Initiated e = false) by by inversion Hstep.
  pose proof (try_from_events_push _ _ _ He Hco) as Hp.
  assert (Heq : project e (push e p) = set_events (ev_push (events p) e) (project e p))
    by by destruct e.
  rewrite Heq. split.
  - exact Hp.
  - simpl. autorewrite with events. simpl. by eapply log_step.
Qed.

Lemma guards p :
  wf p ->
  guard p PaymentEvent.is_Completed =
    bool_decide (state p = PaymentState.Completed \/ state p = PaymentState.Reversed) /\
  guard p PaymentEvent.is_Failed = bool_decide (state p = PaymentState.Failed) /\
  guard p PaymentEvent.is_Reversed = bool_decide (state p = PaymentState.Reversed) /\
  (state p = PaymentState.Pending -> guard p PaymentEvent.is_Pending = true).
Proof.
  intros [_ Hlog%payment_log_marks]. unfold guard. by rewrite !guard_rev.
Qed.
End Theory.
End PaymentTheory.

(** * The commands refine the lifecycle *)

(** A command with its arguments. *)
Inductive payment_command : Type :=
| MarkPending (sent_at : Timestamp.t)
| Settle (preimage : Preimage.t) (fees : MilliSatoshi.t) (hops : list Hop.t)
    (settled_at : Timestamp.t)
| Fail_ (reason : FailureReason.t) (failed_at : Timestamp.t)
| Reverse (reason : string) (reversed_at : Timestamp.t).

Definition command_event (c : payment_command) : PaymentEvent.t :=
  match c with
  | MarkPending t => PaymentEvent.Pending t
  | Settle pre fees hops t => PaymentEvent.Completed t pre fees hops
  | Fail_ r t => PaymentEvent.Failed t r
  | Reverse r t => PaymentEvent.Reversed t r
  end.

(** The answer of each command in each state: the specification of the commands, which
    neither looks at the log nor writes it. *)
Definition lifecycle (c : payment_command) (s : PaymentState.t) :
    result Idempotent PaymentError.t :=
  match c, s with
  | MarkPending _, PaymentState.Initiated => Ok Executed
  | MarkPending _, PaymentState.Pending => Ok AlreadyApplied
  | MarkPending _, s => Err (PaymentError.InvalidStateTransition s "mark_pending")
  | Settle _ _ _ _, (PaymentState.Initiated | PaymentState.Pending) => Ok Executed
  | Settle _ _ _ _, (PaymentState.Completed | PaymentState.Reversed) => Ok AlreadyApplied
  | Settle _ _ _ _, s => Err (PaymentError.InvalidStateTransition s "settle")
  | Fail_ _ _, (PaymentState.Initiated | PaymentState.Pending) => Ok Executed
  | Fail_ _ _, PaymentState.Failed => Ok AlreadyApplied
  | Fail_ _ _, s => Err (PaymentError.InvalidStateTransition s "fail")
  | Reverse _ _, PaymentState.Completed => Ok Executed
  | Reverse _ _, PaymentState.Reversed => Ok AlreadyApplied
  | Reverse _ _, s => Err (PaymentError.InvalidStateTransition s "reverse")
  end.

Section Commands.
Context `{EventStoreLaws}.
Import Payment PaymentTheory.

Definition run_command (c : payment_command) (p : t) : t * result Idempotent PaymentError.t :=
  match c with
  | MarkPending t => mark_pending t p
  | Settle pre fees hops t => settle pre fees hops t p
  | Fail_ r t => fail r t p
  | Reverse r t => reverse r t p
  end.

Lemma lifecycle_step c p :
  lifecycle c (state p) = Ok Executed ->
  payment_step (state p) (command_event c) (state (project (command_event c) p)).
Proof.
  destruct c, (state p) eqn:Hs; simpl; intros [=]; constructor; auto.
Qed.

Lemma run_command_answer c p :
  wf p ->
  run_command c p =
    (match lifecycle c (state p) with
     | Ok Executed => project (command_event c) (push (command_event c) p)
     | _ => p
     end, lifecycle c (state p)).
Proof.
  intros (Hc & Hf & Hr & Hp)%guards.
  destruct c; simpl; unfold mark_pending, settle, fail, reverse; rewrite ?Hc, ?Hf, ?Hr;
    destruct (state p) eqn:Hs; rewrite ?Hp by done; simpl; rewrite ?Hs; done.
Qed.

Lemma run_command_wf c p : wf p -> wf (run_command c p).1.
Proof.
  intros Hwf. rewrite run_command_answer by done. simpl.
  destruct (lifecycle c (state p)) as [[|] |] eqn:Hl; [| done | done].
  apply push_wf; [done | by apply lifecycle_step].
Qed.

(** C26. On a well-formed payment (its projected fields are the ones hydration
    computes from its log, and its log is a path of the lifecycle) every command answers
    as the lifecycle table says; when it executes it appends exactly its event and
    projects it, when it is a duplicate or a contradiction it leaves the payment and its
    log untouched; and it keeps the payment well-formed, so what is written to the
    database hydrates back to the same aggregate. *)
Theorem payment_command_refines c p :
  wf p ->
  (run_command c p).2 = lifecycle c (state p) /\
  match (run_command c p).2 with
  | Ok Executed =>
      iter_all (events (run_command c p).1) = iter_all (events p) ++ [command_event c] /\
      payment_step (state p) (command_event c) (state (run_command c p).1) /\
      (run_command c p).1 = project (command_event c) (push (command_event c) p)
  | _ => (run_command c p).1 = p
  end /\
  wf (run_command c p).1 /\
  try_from_events (events (run_command c p).1) = Ok (run_command c p).1.
Proof.
  intros Hwf. pose proof (run_command_wf c p Hwf) as Hwf'.
  pose proof (run_command_answer c p Hwf) as Heq. rewrite Heq in *. simpl in *.
  split; [done |]. split; [| split; [done | by destruct Hwf']].
  destruct (lifecycle c (state p)) as [[|] |] eqn:Hl; [| done | done].
  split_and!; [| | done].
  - destruct c; simpl; by autorewrite with events.
  - pose proof (lifecycle_step c p Hl) as Hstep. by destruct c.
Qed.
End Commands.

(** * Construction *)

Section Construction.
Context `{EventStoreLaws}.
Import Payment PaymentTheory.

(** The aggregate a new payment hydrates to. *)
Definition fresh (n : NewPayment.t) (evs : EntityEvents PaymentId.t PaymentEvent.t) : t :=
  mk (NewPayment.id n) (NewPayment.payment_hash n) (NewPayment.wallet_id n)
    (NewPayment.amount_msat n) (NewPayment.max_fee_msat n) PaymentState.Initiated None None
    (NewPayment.initiated_at n) None evs.

Lemma hydrate_new n evs :
  iter_all evs = [NewPayment.initial_event n] -> ev_id evs = NewPayment.id n ->
  try_from_events evs = Ok (fresh n evs).
Proof. unfold try_from_events. by intros -> ->. Qed.

Lemma fresh_wf n evs :
  iter_all evs = [NewPayment.initial_event n] -> ev_id evs = NewPayment.id n ->
  wf (fresh n evs).
Proof.
  intros Hall Hid. split; [by apply hydrate_new |]. simpl. rewrite Hall. constructor.
Qed.

(** Hydration never panics and fails exactly on a log without the initial
    event (the empty log among them), always naming the first missing field. *)
Theorem payment_hydration_error (evs : EntityEvents PaymentId.t PaymentEvent.t) :
  if existsb is_Initiated (iter_all evs) then exists p, try_from_events evs = Ok p
  else try_from_events evs = Err (UninitializedFieldError "payment_hash").
Proof.
  unfold try_from_events.
  assert (Hgen : forall l b,
    b_id b <> None ->
    (b_payment_hash b = None \/
     b_wallet_id b <> None /\ b_amount_msat b <> None /\ b_max_fee_msat b <> None /\
     b_initiated_at b <> None) ->
    if existsb is_Initiated l || bool_decide (b_payment_hash b <> None)
    then exists p, build (fold_left builder_apply l b) evs = Ok p
    else build (fold_left builder_apply l b) evs =
         Err (UninitializedFieldError "payment_hash")).
  { induction l as [| e l IH]; intros b Hid Hb.
    - destruct b as [[] [] [] [] [] st fees pre [] set]; simpl in *; unfold build; simpl;
        try done; try (by destruct Hb as [| (? & ? & ? & ?)]); eauto.
    - specialize (IH (builder_apply b e)). simpl.
      destruct e; simpl in *; try (apply IH; [done | naive_solver]).
      rewrite orb_true_r in IH.
      apply IH; [done |]. by right. }
  specialize (Hgen (iter_all evs) (builder_id (ev_id evs)) ltac:(done) ltac:(by left)).
  by rewrite orb_false_r in Hgen.
Qed.
End Construction.

(** The amount of an outbound payment comes from exactly one source: the invoice
    when it commits one (then the caller may not supply any), the caller otherwise.  Each
    refusal has its own error, in this order of precedence; an accepted intent has a
    positive amount, a positive fee limit and carries every field over unchanged. *)
Theorem try_new_spec uuid decoded wallet requested max_fee at_ :
  NewPayment.try_new uuid decoded wallet requested max_fee at_ =
  match DecodedInvoice.amount_msat decoded, requested with
  | Some _, Some _ => Err PaymentError.AmountOverspecified
  | None, None => Err PaymentError.AmountRequired
  | Some a, None | None, Some a =>
      if decide (a = MilliSatoshi.ZERO) then Err PaymentError.InvalidAmount
      else if decide (max_fee = MilliSatoshi.ZERO) then Err PaymentError.InvalidMaxFee
      else if decide (DecodedInvoice.bolt_invoice decoded = BoltInvoice.new "") then
        Err PaymentError.EmptyBoltInvoice
      else Ok (NewPayment.mk (PaymentId.from_uuid uuid) (DecodedInvoice.payment_hash decoded)
                 wallet a max_fee (DecodedInvoice.bolt_invoice decoded)
                 (DecodedInvoice.destination decoded) at_)
  end.
Proof.
  assert (Hz : forall m, (MilliSatoshi.as_u64 m =? 0)%Z = bool_decide (m = MilliSatoshi.ZERO)).
  { intros [z]. simpl. destruct (Z.eqb_spec z 0); symmetry.
    - apply bool_decide_eq_true_2. by subst.
    - apply bool_decide_eq_false_2. intros [=]. done. }
  assert (Hs : forall b, String.eqb (BoltInvoice.as_str b) "" =
                         bool_decide (b = BoltInvoice.new "")).
  { intros [s]. simpl. destruct (String.eqb_spec s ""); symmetry.
    - apply bool_decide_eq_true_2. by subst.
    - apply bool_decide_eq_false_2. intros [=]. done. }
  unfold NewPayment.try_new. destruct (DecodedInvoice.amount_msat decoded), requested;
    simpl; rewrite ?Hz, ?Hs; try done; by repeat case_decide; rewrite ?bool_decide_eq_true_2,
      ?bool_decide_eq_false_2 by done.
Qed.

(** An intraledger transfer pays exactly what the recipient's own invoice
    commits: when that invoice has an amount, an accepted intent has this amount, whatever
    the sender's BOLT11 string says, and a string that says otherwise is refused; an
    amountless invoice takes the sender's amount.  The intent is positive and carries the
    zero fee limit. *)
Theorem try_new_intraledger_amount uuid decoded invoice_amount wallet at_ n :
  NewPayment.try_new_intraledger uuid decoded invoice_amount wallet at_ = Ok n ->
  (forall a, invoice_amount = Some a ->
     NewPayment.amount_msat n = a /\
     (forall b, DecodedInvoice.amount_msat decoded = Some b -> b = a)) /\
  (invoice_amount = None ->
     DecodedInvoice.amount_msat decoded = Some (NewPayment.amount_msat n)) /\
  NewPayment.amount_msat n <> MilliSatoshi.ZERO /\
  NewPayment.max_fee_msat n = MilliSatoshi.ZERO /\
  NewPayment.payment_hash n = DecodedInvoice.payment_hash decoded /\
  NewPayment.wallet_id n = wallet.
Proof.
  unfold NewPayment.try_new_intraledger. intros (a & Ha & Hn)%result_bind_ok.
  destruct (Z.eqb_spec (MilliSatoshi.as_u64 a) 0) as [| Hnz]; [done |].
  destruct (String.eqb _ _); [done |]. injection Hn as <-. simpl.
  assert (Hz : a <> MilliSatoshi.ZERO) by by intros ->.
  destruct invoice_amount as [b |], (DecodedInvoice.amount_msat decoded) as [c |]; simpl in *;
    repeat case_decide; naive_solver.
Qed.

Example try_new_intraledger_amount_witness :
  exists n,
    NewPayment.try_new_intraledger (bytes_of x07 16)
      (DecodedInvoice.mk (hash_of x01) "02ab" (Some (MilliSatoshi.new 1000))
         (BoltInvoice.new "lnbc10n1"))
      (Some (MilliSatoshi.new 1000)) (wallet_of x02) (Timestamp.new 5) = Ok n /\
    NewPayment.amount_msat n = MilliSatoshi.new 1000.
Proof.
  eexists. split; [reflexivity |].
  refine (proj1 (proj1 (try_new_intraledger_amount (bytes_of x07 16) (DecodedInvoice.mk (hash_of x01) "02ab" (Some (MilliSatoshi.new 1000))
         (BoltInvoice.new "lnbc10n1")) (Some (MilliSatoshi.new 1000)) (wallet_of x02) (Timestamp.new 5) _ _) _ _)); reflexivity.
Defined.

(** * Histories *)

(** The number of terminal outcomes a log records. *)
Definition outcomes (l : list PaymentEvent.t) : nat :=
  length (List.filter (fun e => PaymentEvent.is_Completed e || PaymentEvent.is_Failed e) l).

Lemma payment_log_outcomes l s :
  payment_log l s ->
  outcomes l = match s with PaymentState.Initiated | PaymentState.Pending => 0 | _ => 1 end.
Proof.
  unfold outcomes. induction 1 as [n | l s e s' Hl IH Hstep]; [done |].
  rewrite List.filter_app, length_app, IH.
  by destruct Hstep as [| ? ? ? ? ? [-> | ->] | ? ? ? [-> | ->] |].
Qed.

Section Histories.
Context `{EventStoreLaws}.
Import Payment PaymentTheory.

Definition run_commands (cs : list payment_command) (p : t) : t :=
  fold_left (fun p c => (run_command c p).1) cs p.

(** The fields no command may change. *)
Definition same_identity (p q : t) : Prop :=
  id p = id q /\ payment_hash p = payment_hash q /\ wallet_id p = wallet_id q /\
  amount_msat p = amount_msat q /\ max_fee_msat p = max_fee_msat q /\
  initiated_at p = initiated_at q.

#[export] Instance same_identity_equiv : Equivalence same_identity.
Proof. unfold same_identity. split; red; intros; destruct_and?; repeat split; congruence. Qed.

Definition same_settlement (p q : t) : Prop :=
  fees_paid_msat p = fees_paid_msat q /\ payment_preimage p = payment_preimage q /\
  settled_at p = settled_at q.

#[export] Instance same_settlement_equiv : Equivalence same_settlement.
Proof. unfold same_settlement. split; red; intros; destruct_and?; repeat split; congruence. Qed.

Lemma project_identity e p : same_identity p (project e (push e p)).
Proof. by destruct e. Qed.

Lemma run_command_identity c p : wf p -> same_identity p (run_command c p).1.
Proof.
  intros Hwf. rewrite run_command_answer by done. simpl.
  destruct (lifecycle c (state p)) as [[|] |]; [apply project_identity | done | done].
Qed.

Lemma run_commands_wf cs p : wf p -> wf (run_commands cs p).
Proof. revert p. induction cs as [| c cs IH]; intros p Hp; [done |]. by apply IH, run_command_wf. Qed.

Lemma run_commands_inv (P : t -> Prop) cs p :
  (forall c q, wf q -> P q -> P (run_command c q).1) -> wf p -> P p -> P (run_commands cs p).
Proof.
  intros Hstep. revert p. induction cs as [| c cs IH]; intros p Hp HP; [done |].
  apply IH; [by apply run_command_wf | by apply Hstep].
Qed.

(** Whatever commands arrive, in whatever order and however often replayed:
    the payment's identity, amount and fee limit never change; its log records at most
    one terminal outcome, so it is never both completed and failed and never settled
    twice; a failed payment never changes again; a completed payment keeps its preimage,
    fee and settlement time, and can only become reversed. *)
Theorem payment_history_safe cs p :
  wf p ->
  let q := run_commands cs p in
  wf q /\ same_identity p q /\
  outcomes (iter_all (events q)) <= 1 /\
  (state p = PaymentState.Failed -> q = p) /\
  (state p = PaymentState.Reversed -> q = p) /\
  (state p = PaymentState.Completed ->
     same_settlement p q /\ (q = p \/ state q = PaymentState.Reversed)).
Proof.
  intros Hwf q. assert (Hq : wf q) by by apply run_commands_wf.
  split; [done |]. split; [| split; [| split; [| split]]].
  - apply (run_commands_inv (fun q => same_identity p q)); [| done | done].
    intros c r Hr Hpr. etransitivity; [exact Hpr | by apply run_command_identity].
  - destruct Hq as [_ Hlog]. rewrite (payment_log_outcomes _ _ Hlog). case_match; lia.
  - intros Hs. apply (run_commands_inv (fun q => q = p)); [| done | done].
    intros c r Hr ->. rewrite run_command_answer by done. rewrite Hs. by destruct c.
  - intros Hs. apply (run_commands_inv (fun q => q = p)); [| done | done].
    intros c r Hr ->. rewrite run_command_answer by done. rewrite Hs. by destruct c.
  - intros Hs.
    apply (run_commands_inv
      (fun q => same_settlement p q /\ (q = p \/ state q = PaymentState.Reversed)));
      [| done | by split; [done | left]].
    intros c r Hr [Hset Hcase]. rewrite run_command_answer by done.
    destruct Hcase as [-> | Hrev]; [rewrite Hs | rewrite Hrev]; destruct c; simpl;
      (split; [first [exact Hset | done] | by auto]).
Qed.

(** A settle of a reversed payment is answered [AlreadyApplied], not refused: the log of
    a reversed payment still holds its [Completed] event, which the guard finds before
    the state is looked at. *)
Theorem settle_after_reverse_already_applied q pre fees hops t :
  wf q -> state q = PaymentState.Reversed ->
  settle pre fees hops t q = (q, Ok AlreadyApplied).
Proof.
  intros Hwf Hs. pose proof (run_command_answer (Settle pre fees hops t) q Hwf) as Heq.
  simpl in Heq. by rewrite Heq, Hs.
Qed.
End Histories.

(** ** Examples *)

Section Examples.
#[local] Existing Instance list_store.
#[local] Existing Instance list_store_laws.
Import Payment PaymentTheory.

Let n : NewPayment.t :=
  NewPayment.mk (PaymentId.from_uuid (bytes_of x07 16)) (hash_of x01) (wallet_of x02)
    (MilliSatoshi.new 5000) (MilliSatoshi.new 10000) (BoltInvoice.new "lnbc50n1") "02ab"
    (Timestamp.new 5).
Let p : t := fresh n (NewPayment.into_events n).

Example payment_command_refines_witness :
  wf p /\
  (run_command (Settle (preimage_of x03) MilliSatoshi.ZERO [] (Timestamp.new 6)) p).2 =
    Ok Executed.
Proof.
  assert (Hwf : wf p) by (apply fresh_wf; reflexivity). split; [exact Hwf |].
  exact (proj1 (payment_command_refines
    (Settle (preimage_of x03) MilliSatoshi.ZERO [] (Timestamp.new 6)) p Hwf)).
Defined.

Example payment_history_safe_witness :
  outcomes (iter_all (events (run_commands
    [MarkPending (Timestamp.new 6); Fail_ FailureReason.Timeout (Timestamp.new 7);
     Settle (preimage_of x03) MilliSatoshi.ZERO [] (Timestamp.new 8)] p))) <= 1.
Proof.
  assert (Hwf : wf p) by (apply fresh_wf; reflexivity).
  exact (proj1 (proj2 (proj2 (payment_history_safe _ p Hwf)))).
Defined.

Example settle_after_reverse_witness :
  let q := run_commands [Settle (preimage_of x03) MilliSatoshi.ZERO [] (Timestamp.new 6);
                         Reverse "mismatch" (Timestamp.new 7)] p in
  wf q /\ (settle (preimage_of x03) MilliSatoshi.ZERO [] (Timestamp.new 8) q).2 =
          Ok AlreadyApplied.
Proof.
  assert (Hwf : wf p) by (apply fresh_wf; reflexivity). split.
  - by apply run_commands_wf.
  - rewrite settle_after_reverse_already_applied;
      [reflexivity | by apply run_commands_wf | reflexivity].
Defined.
End Examples.
