(* ===== verification/InvoiceEntity.v ===== *)
(** The [Invoice] aggregate (src/src/invoice/): its events, states and errors, the
    validating constructor with the expiry policy, the command methods, hydration from
    the event log, and the repository's column list and queries. *)
From S2P Require Import Prelude Primitives EsEntity Concrete.

(** * Events (event.rs) *)

Module CancelReason.
Inductive t : Type := Expired.
#[export] Instance eq_dec : EqDecision t.
Proof. solve_decision. Defined.
Definition as_str (r : t) : string := match r with Expired => "Expired" end.
End CancelReason.
Export (hints) CancelReason.

Module InvoiceEvent.
Inductive t : Type :=
| Created (payment_hash : PaymentHash.t) (payment_preimage : Preimage.t)
    (wallet_id : WalletId.t) (amount_msat : option MilliSatoshi.t)
    (expiry_at : Timestamp.t) (bolt_invoice : BoltInvoice.t) (external_id : string)
    (created_at : Timestamp.t)
| HtlcHeld (held_at : Timestamp.t) (htlc_amount_msat : MilliSatoshi.t)
| Settled (settled_at : Timestamp.t)
| SettledIntraledger (settled_at : Timestamp.t)
| Canceled (canceled_at : Timestamp.t) (reason : CancelReason.t).
#[export] Instance eq_dec : EqDecision t.
Proof. solve_decision. Defined.

(** The patterns of the idempotency guards. *)
Definition is_HtlcHeld (e : t) : bool := match e with HtlcHeld _ _ => true | _ => false end.
Definition is_Settled (e : t) : bool := match e with Settled _ => true | _ => false end.
Definition is_SettledIntraledger (e : t) : bool :=
  match e with SettledIntraledger _ => true | _ => false end.
Definition is_Canceled (e : t) : bool := match e with Canceled _ _ => true | _ => false end.
End InvoiceEvent.
Export (hints) InvoiceEvent.

(** * States and errors (entity.rs, error.rs) *)

Module InvoiceState.
Inductive t : Type := Open | Held | Settled | Canceled.
#[export] Instance eq_dec : EqDecision t.
Proof. solve_decision. Defined.

Definition as_str (s : t) : string :=
  match s with
  | Open => "open"
  | Held => "held"
  | Settled => "settled"
  | Canceled => "canceled"
  end.

Lemma invoice_as_str_inj s1 s2 : as_str s1 = as_str s2 -> s1 = s2.
Proof. by destruct s1, s2. Qed.
End InvoiceState.
Export (hints) InvoiceState.

(** [InvoiceColumn], generated from the repository's columns with a constraint. *)
Inductive InvoiceColumn : Type :=
| InvoiceColumn_Id
| InvoiceColumn_PaymentHash
| InvoiceColumn_ExternalId.

Module InvoiceError.
Inductive t : Type :=
| InvalidAmount
| InvoiceNotFound (h : PaymentHash.t)
| InvalidStateTransition (from : InvoiceState.t) (attempted : string)
| DuplicateExternalId (detail : string)
| InvalidExternalId (s : string)
| InvoiceCreate (e : CreateError InvoiceColumn)
| InvoiceModify (e : ModifyError)
| InvoiceFind (e : FindError)
| InvoiceQuery (e : QueryError)
| InvoiceSqlx (e : SqlxError).

(** [From<InvoiceCreateError>]. *)
Definition from_create (error : CreateError InvoiceColumn) : t :=
  match error with
  | CreateConstraintViolation (Some InvoiceColumn_ExternalId) value =>
      DuplicateExternalId (default "" value)
  | other => InvoiceCreate other
  end.
End InvoiceError.

(** * Construction (entity.rs) *)

Definition SECS_PER_MIN : Z := 60.
Definition SECS_PER_HOUR : Z := 60 * 60.
Definition SECS_PER_4_HOURS : Z := SECS_PER_HOUR * 4.
Definition SECS_PER_DAY : Z := SECS_PER_HOUR * 24.
Definition BTC_INVOICE_MIN_SECONDS : Z := SECS_PER_MIN.
Definition BTC_INVOICE_MAX_SECONDS : Z := SECS_PER_DAY.
Definition BTC_INVOICE_DEFAULT_SECONDS : Z := SECS_PER_4_HOURS.

Definition nanos_per_sec : Z := 1000000000.

Module NewInvoice.
Record t : Type := mk {
  id : InvoiceId.t;
  payment_hash : PaymentHash.t;
  payment_preimage : Preimage.t;
  wallet_id : WalletId.t;
  amount_msat : option MilliSatoshi.t;
  expiry_at : Timestamp.t;
  bolt_invoice : BoltInvoice.t;
  external_id : string;
  created_at : Timestamp.t
}.

Definition effective_expiry (expiry_seconds : Z) : Z :=
  (if (BTC_INVOICE_MIN_SECONDS <=? expiry_seconds) &&
      (expiry_seconds <=? BTC_INVOICE_MAX_SECONDS)
   then expiry_seconds else BTC_INVOICE_DEFAULT_SECONDS)%Z.

(** [uuid] is the value [InvoiceId::new()] mints. *)
Definition try_new (uuid : Uuid) (payment_hash : PaymentHash.t)
    (payment_preimage : Preimage.t) (wallet_id : WalletId.t)
    (amount_msat : option MilliSatoshi.t) (expiry_seconds : Z)
    (bolt_invoice : BoltInvoice.t) (external_id : string) (now : Timestamp.t) :
    result t InvoiceError.t :=
  if match amount_msat with Some a => (MilliSatoshi.as_u64 a =? 0)%Z | None => false end
  then Err InvoiceError.InvalidAmount
  else
    let expiry_at := Timestamp.new
      (Timestamp.as_nanos now + effective_expiry expiry_seconds * nanos_per_sec) in
    Ok {| id := InvoiceId.from_uuid uuid;
          payment_hash := payment_hash;
          payment_preimage := payment_preimage;
          wallet_id := wallet_id;
          amount_msat := amount_msat;
          expiry_at := expiry_at;
          bolt_invoice := bolt_invoice;
          external_id := external_id;
          created_at := now |}.

Definition state_str (n : t) : string := InvoiceState.as_str InvoiceState.Open.

Definition initial_event (n : t) : InvoiceEvent.t :=
  InvoiceEvent.Created (payment_hash n) (payment_preimage n) (wallet_id n) (amount_msat n)
    (expiry_at n) (bolt_invoice n) (external_id n) (created_at n).

Definition into_events `{EventStore} (n : t) : EntityEvents InvoiceId.t InvoiceEvent.t :=
  ev_init (id n) [initial_event n].
End NewInvoice.

(** * The aggregate (entity.rs) *)

Module Invoice.
Section Aggregate.
Context `{EventStore}.

Record t : Type := mk {
  id : InvoiceId.t;
  payment_hash : PaymentHash.t;
  payment_preimage : Preimage.t;
  wallet_id : WalletId.t;
  amount_msat : option MilliSatoshi.t;
  expiry_at : Timestamp.t;
  bolt_invoice : BoltInvoice.t;
  external_id : string;
  state : InvoiceState.t;
  created_at : Timestamp.t;
  held_amount_msat : option MilliSatoshi.t;
  canceled_reason : option CancelReason.t;
  events : EntityEvents InvoiceId.t InvoiceEvent.t
}.

(** The assignments of the commands. *)
Definition set_events (evs : EntityEvents InvoiceId.t InvoiceEvent.t) (i : t) : t :=
  mk (id i) (payment_hash i) (payment_preimage i) (wallet_id i) (amount_msat i)
    (expiry_at i) (bolt_invoice i) (external_id i) (state i) (created_at i)
    (held_amount_msat i) (canceled_reason i) evs.
Definition push (e : InvoiceEvent.t) (i : t) : t := set_events (ev_push (events i) e) i.
Definition set_state (s : InvoiceState.t) (i : t) : t :=
  mk (id i) (payment_hash i) (payment_preimage i) (wallet_id i) (amount_msat i)
    (expiry_at i) (bolt_invoice i) (external_id i) s (created_at i)
    (held_amount_msat i) (canceled_reason i) (events i).
Definition set_held (m : MilliSatoshi.t) (i : t) : t :=
  mk (id i) (payment_hash i) (payment_preimage i) (wallet_id i) (amount_msat i)
    (expiry_at i) (bolt_invoice i) (external_id i) (state i) (created_at i)
    (Some m) (canceled_reason i) (events i).
Definition set_canceled (r : CancelReason.t) (i : t) : t :=
  mk (id i) (payment_hash i) (payment_preimage i) (wallet_id i) (amount_msat i)
    (expiry_at i) (bolt_invoice i) (external_id i) (state i) (created_at i)
    (held_amount_msat i) (Some r) (events i).

Definition guard (i : t) (pat : InvoiceEvent.t -> bool) : bool :=
  guard_already_applied (rev (iter_all (events i))) pat.

Definition state_str (i : t) : string := InvoiceState.as_str (state i).

Definition mark_held (htlc_amount_msat : MilliSatoshi.t) (held_at : Timestamp.t) (i : t) :
    t * result Idempotent InvoiceError.t :=
  if guard i InvoiceEvent.is_HtlcHeld then (i, Ok AlreadyApplied)
  else match state i with
  | InvoiceState.Open =>
      (set_held htlc_amount_msat (set_state InvoiceState.Held
         (push (InvoiceEvent.HtlcHeld held_at htlc_amount_msat) i)), Ok Executed)
  | from => (i, Err (InvoiceError.InvalidStateTransition from "mark_held"))
  end.

Definition settle (settled_at : Timestamp.t) (i : t) : t * result Idempotent InvoiceError.t :=
  if guard i InvoiceEvent.is_Settled then (i, Ok AlreadyApplied)
  else match state i with
  | InvoiceState.Held =>
      (set_state InvoiceState.Settled (push (InvoiceEvent.Settled settled_at) i), Ok Executed)
  | from => (i, Err (InvoiceError.InvalidStateTransition from "settle"))
  end.

Definition settle_intraledger (settled_at : Timestamp.t) (i : t) :
    t * result Idempotent InvoiceError.t :=
  if guard i InvoiceEvent.is_SettledIntraledger then (i, Ok AlreadyApplied)
  else match state i with
  | InvoiceState.Open =>
      (set_state InvoiceState.Settled (push (InvoiceEvent.SettledIntraledger settled_at) i),
       Ok Executed)
  | from => (i, Err (InvoiceError.InvalidStateTransition from "settle_intraledger"))
  end.

Definition cancel (reason : CancelReason.t) (canceled_at : Timestamp.t) (i : t) :
    t * result Idempotent InvoiceError.t :=
  if guard i InvoiceEvent.is_Canceled then (i, Ok AlreadyApplied)
  else match state i with
  | InvoiceState.Open | InvoiceState.Held =>
      (set_canceled reason (set_state InvoiceState.Canceled
         (push (InvoiceEvent.Canceled canceled_at reason) i)), Ok Executed)
  | from => (i, Err (InvoiceError.InvalidStateTransition from "cancel"))
  end.

(** ** Hydration *)

Record builder : Type := Builder {
  b_id : option InvoiceId.t;
  b_payment_hash : option PaymentHash.t;
  b_payment_preimage : option Preimage.t;
  b_wallet_id : option WalletId.t;
  b_amount_msat : option (option MilliSatoshi.t);
  b_expiry_at : option Timestamp.t;
  b_bolt_invoice : option BoltInvoice.t;
  b_external_id : option string;
  b_state : option InvoiceState.t;
  b_created_at : option Timestamp.t;
  b_held_amount_msat : option (option MilliSatoshi.t);
  b_canceled_reason : option (option CancelReason.t)
}.

Definition builder_id (i : InvoiceId.t) : builder :=
  Builder (Some i) None None None None None None None None None None None.

Definition builder_state (s : InvoiceState.t) (b : builder) : builder :=
  Builder (b_id b) (b_payment_hash b) (b_payment_preimage b) (b_wallet_id b)
    (b_amount_msat b) (b_expiry_at b) (b_bolt_invoice b) (b_external_id b) (Some s)
    (b_created_at b) (b_held_amount_msat b) (b_canceled_reason b).

Definition builder_apply (b : builder) (ev : InvoiceEvent.t) : builder :=
  match ev with
  | InvoiceEvent.Created hash preimage wallet amount expiry bolt ext created =>
      Builder (b_id b) (Some hash) (Some preimage) (Some wallet) (Some amount) (Some expiry)
        (Some bolt) (Some ext) (b_state b) (Some created) (b_held_amount_msat b)
        (b_canceled_reason b)
  | InvoiceEvent.HtlcHeld _ htlc =>
      let b := builder_state InvoiceState.Held b in
      Builder (b_id b) (b_payment_hash b) (b_payment_preimage b) (b_wallet_id b)
        (b_amount_msat b) (b_expiry_at b) (b_bolt_invoice b) (b_external_id b) (b_state b)
        (b_created_at b) (Some (Some htlc)) (b_canceled_reason b)
  | InvoiceEvent.Settled _ | InvoiceEvent.SettledIntraledger _ =>
      builder_state InvoiceState.Settled b
  | InvoiceEvent.Canceled _ reason =>
      let b := builder_state InvoiceState.Canceled b in
      Builder (b_id b) (b_payment_hash b) (b_payment_preimage b) (b_wallet_id b)
        (b_amount_msat b) (b_expiry_at b) (b_bolt_invoice b) (b_external_id b) (b_state b)
        (b_created_at b) (b_held_amount_msat b) (Some (Some reason))
  end.

Definition build (b : builder) (evs : EntityEvents InvoiceId.t InvoiceEvent.t) :
    result t EntityHydrationError :=
  let? id := required "id" (b_id b) in
  let? hash := required "payment_hash" (b_payment_hash b) in
  let? preimage := required "payment_preimage" (b_payment_preimage b) in
  let? wallet := required "wallet_id" (b_wallet_id b) in
  let? amount := required "amount_msat" (b_amount_msat b) in
  let? expiry := required "expiry_at" (b_expiry_at b) in
  let? bolt := required "bolt_invoice" (b_bolt_invoice b) in
  let? ext := required "external_id" (b_external_id b) in
  let? created := required "created_at" (b_created_at b) in
  Ok (mk id hash preimage wallet amount expiry bolt ext
        (default InvoiceState.Open (b_state b)) created
        (default None (b_held_amount_msat b)) (default None (b_canceled_reason b)) evs).

Definition try_from_events (evs : EntityEvents InvoiceId.t InvoiceEvent.t) :
    result t EntityHydrationError :=
  build (fold_left builder_apply (iter_all evs) (builder_id (ev_id evs))) evs.
End Aggregate.
End Invoice.

(** * The repository (repo.rs) *)

Module InvoiceRow.
Record t : Type := mk {
  payment_preimage : Preimage.t;
  bolt_invoice : BoltInvoice.t;
  wallet_id : WalletId.t;
  amount_msat : option Z;
  expiry_at : Timestamp.t;
  external_id : string;
  state : string
}.
End InvoiceRow.

Notation invoice_table := (table InvoiceRow.t InvoiceId.t InvoiceEvent.t).

Module Invoices.
Section Repo.
Context `{EventStore}.

Definition encode_msat_opt (m : option MilliSatoshi.t) : result (option Z) SqlxError :=
  match m with
  | None => Ok None
  | Some m =>
      result_map Some
        (map_err (fun e => Sqlx (MilliSatoshiError_to_string e)) (MilliSatoshi.encode m))
  end.

Definition insert_row (now : Timestamp.t) (n : NewInvoice.t) : result InvoiceRow.t SqlxError :=
  let? amount := encode_msat_opt (NewInvoice.amount_msat n) in
  Ok (InvoiceRow.mk (NewInvoice.payment_preimage n) (NewInvoice.bolt_invoice n)
        (NewInvoice.wallet_id n) amount (NewInvoice.expiry_at n) (NewInvoice.external_id n)
        (NewInvoice.state_str n)).

(** The unique constraints: [payment_hash], and
    [uq_invoices_wallet_id_external_id] on [(wallet_id, external_id)]. *)
Definition same_external_id (n : NewInvoice.t)
    (r : PaymentHash.t * stored InvoiceRow.t InvoiceId.t InvoiceEvent.t) : bool :=
  bool_decide (InvoiceRow.wallet_id (st_row r.2) = NewInvoice.wallet_id n) &&
  String.eqb (InvoiceRow.external_id (st_row r.2)) (NewInvoice.external_id n).

Definition conflict (n : NewInvoice.t) (tbl : invoice_table) : option InvoiceColumn :=
  match tbl !! NewInvoice.payment_hash n with
  | Some _ => Some InvoiceColumn_PaymentHash
  | None =>
      if existsb (same_external_id n) (map_to_list tbl)
      then Some InvoiceColumn_ExternalId else None
  end.

Definition update_row (i : Invoice.t) (r : InvoiceRow.t) : InvoiceRow.t :=
  InvoiceRow.mk (InvoiceRow.payment_preimage r) (InvoiceRow.bolt_invoice r)
    (InvoiceRow.wallet_id r) (InvoiceRow.amount_msat r) (InvoiceRow.expiry_at r)
    (InvoiceRow.external_id r) (Invoice.state_str i).

Definition desc : repo_desc Invoice.t NewInvoice.t InvoiceEvent.t InvoiceId.t
                    InvoiceRow.t InvoiceColumn :=
  {| d_new_key := NewInvoice.payment_hash;
     d_into_events := NewInvoice.into_events;
     d_insert_row := insert_row;
     d_conflict := conflict;
     d_try_from_events := Invoice.try_from_events;
     d_key := Invoice.payment_hash;
     d_events := Invoice.events;
     d_set_events := Invoice.set_events;
     d_update_row := update_row |}.

Definition state_in (states : list string)
    (st : stored InvoiceRow.t InvoiceId.t InvoiceEvent.t) : bool :=
  existsb (String.eqb (InvoiceRow.state (st_row st))) states.

Definition list_held `{RowOrder} (limit : Z) (tbl : invoice_table) :
    result (list PaymentHash.t) InvoiceError.t :=
  let? rows := map_err InvoiceError.InvoiceSqlx (select_limit (state_in ["held"]) limit tbl) in
  Ok (map fst rows).

(** The rows [list_open_invoices] loads one by one; the source names them by their
    [id], the other unique column. *)
Definition open_rows `{RowOrder} (tbl : invoice_table) : list PaymentHash.t :=
  map fst (List.filter (fun r => state_in ["open"; "held"] r.2) (row_order tbl)).
End Repo.
End Invoices.

(** * The state machine

    The phases of an invoice's life: the projected state, with the way it was reached
    where the guards of the commands depend on it. *)

Inductive phase : Type :=
| PhOpen
| PhHeld
| PhSettled
| PhSettledIntraledger
| PhCanceled (was_held : bool).
#[export] Instance phase_eq_dec : EqDecision phase.
Proof. solve_decision. Defined.

Definition phase_state (ph : phase) : InvoiceState.t :=
  match ph with
  | PhOpen => InvoiceState.Open
  | PhHeld => InvoiceState.Held
  | PhSettled | PhSettledIntraledger => InvoiceState.Settled
  | PhCanceled _ => InvoiceState.Canceled
  end.

(** An HTLC was parked on the invoice at some point. *)
Definition phase_held (ph : phase) : bool :=
  match ph with
  | PhHeld | PhSettled => true
  | PhCanceled b => b
  | PhOpen | PhSettledIntraledger => false
  end.

Inductive invoice_step : phase -> InvoiceEvent.t -> phase -> Prop :=
| step_held t m : invoice_step PhOpen (InvoiceEvent.HtlcHeld t m) PhHeld
| step_settled t : invoice_step PhHeld (InvoiceEvent.Settled t) PhSettled
| step_settled_intraledger t :
    invoice_step PhOpen (InvoiceEvent.SettledIntraledger t) PhSettledIntraledger
| step_canceled ph t r :
    ph = PhOpen \/ ph = PhHeld ->
    invoice_step ph (InvoiceEvent.Canceled t r) (PhCanceled (phase_held ph)).

Inductive invoice_log : list InvoiceEvent.t -> phase -> Prop :=
| log_created n : invoice_log [NewInvoice.initial_event n] PhOpen
| ilog_step l ph e ph' :
    invoice_log l ph -> invoice_step ph e ph' -> invoice_log (l ++ [e]) ph'.

Definition is_Created (e : InvoiceEvent.t) : bool :=
  match e with InvoiceEvent.Created _ _ _ _ _ _ _ _ => true | _ => false end.

Lemma invoice_log_marks l ph :
  invoice_log l ph ->
  existsb InvoiceEvent.is_HtlcHeld l = phase_held ph /\
  existsb InvoiceEvent.is_Settled l = bool_decide (ph = PhSettled) /\
  existsb InvoiceEvent.is_SettledIntraledger l = bool_decide (ph = PhSettledIntraledger) /\
  existsb InvoiceEvent.is_Canceled l =
    bool_decide (phase_state ph = InvoiceState.Canceled).
Proof.
  induction 1 as [n | l ph e ph' Hl (Hh & Hs & Hi & Hc) Hstep]; [done |].
  rewrite !existsb_snoc, Hh, Hs, Hi, Hc.
  by destruct Hstep as [| | | ? ? ? [-> | ->]].
Qed.

Lemma invoice_log_nonempty l ph : invoice_log l ph -> l <> [].
Proof. destruct 1; [done |]. intros Heq. by apply app_nil in Heq as [_ ?]. Qed.

Lemma invoice_log_head l ph :
  invoice_log l ph ->
  exists n es, l = NewInvoice.initial_event n :: es /\
    Forall (fun e => is_Created e = false) es.
Proof.
  induction 1 as [n | l ph e ph' Hl (n & es & -> & Hes) Hstep].
  - exists n, []. by split; [| constructor].
  - exists n, (es ++ [e]). split; [done |]. apply Forall_app_2; [done |].
    constructor; [by destruct Hstep | constructor].
Qed.

Lemma invoice_log_functional l ph1 ph2 : invoice_log l ph1 -> invoice_log l ph2 -> ph1 = ph2.
Proof.
  intros H1. revert ph2. induction H1 as [n | l ph e ph' Hl IH Hstep]; intros ph2 H2.
  - inversion H2 as [| l' ? e ? Hl' Hs Heq]; [done |].
    apply invoice_log_nonempty in Hl'. destruct l' as [| x [|]]; done.
  - inversion H2 as [n Heq | l' ? e' ? Hl' Hs Heq].
    + apply invoice_log_nonempty in Hl. destruct l as [| x [|]]; done.
    + apply app_inj_tail in Heq as [-> ->]. pose proof (IH _ Hl') as ->.
      by inversion Hstep; subst; inversion Hs; subst.
Qed.

Module InvoiceTheory.
Section Theory.
Context `{EventStoreLaws}.
Import Invoice.

Definition project (e : InvoiceEvent.t) (i : t) : t :=
  match e with
  | InvoiceEvent.Created _ _ _ _ _ _ _ _ => i
  | InvoiceEvent.HtlcHeld _ m => set_held m (set_state InvoiceState.Held i)
  | InvoiceEvent.Settled _ | InvoiceEvent.SettledIntraledger _ =>
      set_state InvoiceState.Settled i
  | InvoiceEvent.Canceled _ r => set_canceled r (set_state InvoiceState.Canceled i)
  end.

Definition coherent (i : t) : Prop := try_from_events (events i) = Ok i.

(** Well-formed in phase [ph]. *)
Definition wf_in (ph : phase) (i : t) : Prop :=
  coherent i /\ invoice_log (iter_all (events i)) ph /\
  state i = phase_state ph /\
  (is_Some (held_amount_msat i) <-> phase_held ph = true) /\
  (is_Some (canceled_reason i) <-> phase_state ph = InvoiceState.Canceled).

Definition wf (i : t) : Prop := exists ph, wf_in ph i.

Lemma invoice_build_apply b evs i e evs' :
  is_Created e = false -> build b evs = Ok i ->
  build (builder_apply b e) evs' = Ok (set_events evs' (project e i)).
Proof.
  destruct b as [[] [] [] [] [] [] [] [] st [] held can]; unfold build; simpl; try done.
  intros He [= <-]. by destruct e.
Qed.

Lemma invoice_try_from_events_set evs evs' i :
  iter_all evs' = iter_all evs -> ev_id evs' = ev_id evs ->
  try_from_events evs = Ok i -> try_from_events evs' = Ok (set_events evs' i).
Proof.
  unfold try_from_events. intros -> ->. generalize (builder_id (ev_id evs)).
  intros b0. generalize (fold_left builder_apply (iter_all evs) b0). intros b.
  destruct b as [[] [] [] [] [] [] [] [] st [] held can]; unfold build; simpl; try done.
  by intros [= <-].
Qed.

Lemma invoice_try_from_events_push evs i e :
  is_Created e = false -> try_from_events evs = Ok i ->
  try_from_events (ev_push evs e) = Ok (set_events (ev_push evs e) (project e i)).
Proof.
  intros He Hi. unfold try_from_events in *.
  autorewrite with events. rewrite fold_left_app. simpl. by eapply invoice_build_apply.
Qed.

Lemma invoice_try_from_events_events evs i : try_from_events evs = Ok i -> events i = evs.
Proof.
  unfold try_from_events.
  generalize (fold_left builder_apply (iter_all evs) (builder_id (ev_id evs))).
  intros [[] [] [] [] [] [] [] [] st [] held can]; unfold build; simpl; try done.
  by intros [= <-].
Qed.

(** The identity of a hydrated invoice is the one its first event states. *)
Lemma invoice_hydrate_identity evs i n es :
  try_from_events evs = Ok i ->
  iter_all evs = NewInvoice.initial_event n :: es ->
  Forall (fun e => is_Created e = false) es ->
  payment_hash i = NewInvoice.payment_hash n /\
  payment_preimage i = NewInvoice.payment_preimage n /\
  wallet_id i = NewInvoice.wallet_id n /\ external_id i = NewInvoice.external_id n.
Proof.
  unfold try_from_events. intros Hi Hall Hes. rewrite Hall in Hi. simpl in Hi.
  assert (Hgen : forall es b,
    Forall (fun e => is_Created e = false) es ->
    b_payment_hash b = Some (NewInvoice.payment_hash n) ->
    b_payment_preimage b = Some (NewInvoice.payment_preimage n) ->
    b_wallet_id b = Some (NewInvoice.wallet_id n) ->
    b_external_id b = Some (NewInvoice.external_id n) ->
    build (fold_left builder_apply es b) evs = Ok i ->
    payment_hash i = NewInvoice.payment_hash n /\
    payment_preimage i = NewInvoice.payment_preimage n /\
    wallet_id i = NewInvoice.wallet_id n /\ external_id i = NewInvoice.external_id n).
  { clear. induction es as [| e es IH]; intros b Hno Hh Hp Hw Hx Hb.
    - destruct b as [[] ? ? ? [] [] [] ? st [] held can]; unfold build in Hb; simpl in *;
        subst; simpl in *; simplify_eq; by repeat split.
    - apply Forall_cons in Hno as [He Hno]. simpl in Hb.
      apply (IH (builder_apply b e)); [done | by destruct e .. | done]. }
  by eapply (Hgen es); [| | | | | exact Hi].
Qed.

Lemma invoice_push_wf ph i e ph' :
  wf_in ph i -> invoice_step ph e ph' -> wf_in ph' (project e (push e i)).
Proof.
  intros (Hco & Hlog & Hst & Hheld & Hcan) Hstep.
  assert (He : is_Created e = false) by by inversion Hstep.
  pose proof (invoice_try_from_events_push _ _ _ He Hco) as Hi.
  assert (Heq : project e (push e i) = set_events (ev_push (events i) e) (project e i))
    by by destruct e.
  rewrite Heq. split_and!.
  - exact Hi.
  - simpl. autorewrite with events. by eapply ilog_step.
  - by inversion Hstep.
  - inversion Hstep; subst; simpl; try done; naive_solver.
  - inversion Hstep; subst; simpl in *; try done; naive_solver.
Qed.

Lemma invoice_guards ph i :
  wf_in ph i ->
  guard i InvoiceEvent.is_HtlcHeld = phase_held ph /\
  guard i InvoiceEvent.is_Settled = bool_decide (ph = PhSettled) /\
  guard i InvoiceEvent.is_SettledIntraledger = bool_decide (ph = PhSettledIntraledger) /\
  guard i InvoiceEvent.is_Canceled =
    bool_decide (phase_state ph = InvoiceState.Canceled).
Proof. intros (_ & Hlog%invoice_log_marks & _). unfold guard. by rewrite !guard_rev. Qed.
End Theory.
End InvoiceTheory.

(** * The commands refine the lifecycle *)

Inductive invoice_command : Type :=
| MarkHeld (amt : MilliSatoshi.t) (held_at : Timestamp.t)
| SettleHold (settled_at : Timestamp.t)
| SettleIntraledger (settled_at : Timestamp.t)
| Cancel (reason : CancelReason.t) (canceled_at : Timestamp.t).

Definition invoice_command_event (c : invoice_command) : InvoiceEvent.t :=
  match c with
  | MarkHeld m t => InvoiceEvent.HtlcHeld t m
  | SettleHold t => InvoiceEvent.Settled t
  | SettleIntraledger t => InvoiceEvent.SettledIntraledger t
  | Cancel r t => InvoiceEvent.Canceled t r
  end.

(** The phase an executed command leads to. *)
Definition invoice_command_phase (c : invoice_command) (ph : phase) : phase :=
  match c with
  | MarkHeld _ _ => PhHeld
  | SettleHold _ => PhSettled
  | SettleIntraledger _ => PhSettledIntraledger
  | Cancel _ _ => PhCanceled (phase_held ph)
  end.

Definition invoice_lifecycle (c : invoice_command) (ph : phase) :
    result Idempotent InvoiceError.t :=
  let refuse (attempted : string) :=
    Err (InvoiceError.InvalidStateTransition (phase_state ph) attempted) in
  match c, ph with
  | MarkHeld _ _, PhOpen => Ok Executed
  | MarkHeld _ _, (PhHeld | PhSettled | PhCanceled true) => Ok AlreadyApplied
  | MarkHeld _ _, _ => refuse "mark_held"
  | SettleHold _, PhHeld => Ok Executed
  | SettleHold _, PhSettled => Ok AlreadyApplied
  | SettleHold _, _ => refuse "settle"
  | SettleIntraledger _, PhOpen => Ok Executed
  | SettleIntraledger _, PhSettledIntraledger => Ok AlreadyApplied
  | SettleIntraledger _, _ => refuse "settle_intraledger"
  | Cancel _ _, (PhOpen | PhHeld) => Ok Executed
  | Cancel _ _, PhCanceled _ => Ok AlreadyApplied
  | Cancel _ _, _ => refuse "cancel"
  end.

Section Commands.
Context `{EventStoreLaws}.
Import Invoice InvoiceTheory.

Definition run_invoice_command (c : invoice_command) (i : t) :
    t * result Idempotent InvoiceError.t :=
  match c with
  | MarkHeld m t => mark_held m t i
  | SettleHold t => settle t i
  | SettleIntraledger t => settle_intraledger t i
  | Cancel r t => cancel r t i
  end.

Lemma invoice_lifecycle_step c ph :
  invoice_lifecycle c ph = Ok Executed ->
  invoice_step ph (invoice_command_event c) (invoice_command_phase c ph).
Proof. destruct c, ph as [| | | | []]; simpl; intros [=]; constructor; auto. Qed.

Lemma run_invoice_command_answer c ph i :
  wf_in ph i ->
  run_invoice_command c i =
    (match invoice_lifecycle c ph with
     | Ok Executed =>
         project (invoice_command_event c) (push (invoice_command_event c) i)
     | _ => i
     end, invoice_lifecycle c ph).
Proof.
  intros Hwf. pose proof (invoice_guards ph i Hwf) as (Hh & Hs & Hi & Hc).
  destruct Hwf as (_ & _ & Hst & _).
  destruct c; simpl; unfold mark_held, settle, settle_intraledger, cancel;
    rewrite ?Hh, ?Hs, ?Hi, ?Hc, Hst; by destruct ph as [| | | | []].
Qed.

Lemma run_invoice_command_wf c ph i :
  wf_in ph i ->
  wf_in (match invoice_lifecycle c ph with
         | Ok Executed => invoice_command_phase c ph | _ => ph end)
    (run_invoice_command c i).1.
Proof.
  intros Hwf. rewrite (run_invoice_command_answer c ph) by done. simpl.
  destruct (invoice_lifecycle c ph) as [[|] |] eqn:Hl; [| done | done].
  eapply invoice_push_wf; [done | by apply invoice_lifecycle_step].
Qed.

(** C27. On a well-formed invoice every command answers as the lifecycle table of
    its phase says; when it executes it appends exactly its event and projects it, when
    it is a duplicate or a contradiction it leaves the invoice and its log untouched; and
    the invoice stays well-formed: it hydrates back from the log it leaves, and it
    carries a held amount exactly when an HTLC was parked on it. *)
Theorem invoice_command_refines c ph i :
  wf_in ph i ->
  let ph' := match invoice_lifecycle c ph with
             | Ok Executed => invoice_command_phase c ph | _ => ph end in
  (run_invoice_command c i).2 = invoice_lifecycle c ph /\
  match (run_invoice_command c i).2 with
  | Ok Executed =>
      iter_all (events (run_invoice_command c i).1) =
        iter_all (events i) ++ [invoice_command_event c] /\
      invoice_step ph (invoice_command_event c) ph'
  | _ => (run_invoice_command c i).1 = i
  end /\
  wf_in ph' (run_invoice_command c i).1.
Proof.
  intros Hwf ph'. pose proof (run_invoice_command_wf c ph i Hwf) as Hwf'.
  pose proof (run_invoice_command_answer c ph i Hwf) as Heq.
  fold ph' in Hwf'. rewrite Heq in *. simpl in *.
  split; [done |]. split; [| done]. unfold ph'.
  destruct (invoice_lifecycle c ph) as [[|] |] eqn:Hl; [| done | done].
  split; [| by apply invoice_lifecycle_step].
  destruct c; simpl; by autorewrite with events.
Qed.

(** The aggregate a new invoice hydrates to. *)
Definition fresh_invoice (n : NewInvoice.t)
    (evs : EntityEvents InvoiceId.t InvoiceEvent.t) : t :=
  mk (NewInvoice.id n) (NewInvoice.payment_hash n) (NewInvoice.payment_preimage n)
    (NewInvoice.wallet_id n) (NewInvoice.amount_msat n) (NewInvoice.expiry_at n)
    (NewInvoice.bolt_invoice n) (NewInvoice.external_id n) InvoiceState.Open
    (NewInvoice.created_at n) None None evs.

Lemma hydrate_new_invoice n evs :
  iter_all evs = [NewInvoice.initial_event n] -> ev_id evs = NewInvoice.id n ->
  try_from_events evs = Ok (fresh_invoice n evs).
Proof. unfold try_from_events. by intros -> ->. Qed.

Lemma fresh_invoice_wf n evs :
  iter_all evs = [NewInvoice.initial_event n] -> ev_id evs = NewInvoice.id n ->
  wf_in PhOpen (fresh_invoice n evs).
Proof.
  intros Hall Hid. split_and!; try done.
  - by apply hydrate_new_invoice.
  - simpl. rewrite Hall. constructor.
  - by split; [intros [] |].
  - by split; [intros [] |].
Qed.
End Commands.

(** * Construction: the amount and expiry policy *)

(** [try_new] refuses exactly the zero amount (an absent amount is an amountless
    invoice); every other input is accepted, and the invoice then expires between one
    minute and one day after its creation: at the requested time when that is in range,
    at the four-hour default otherwise. *)
Theorem new_invoice_policy uuid hash preimage wallet amount expiry bolt ext now :
  match NewInvoice.try_new uuid hash preimage wallet amount expiry bolt ext now with
  | Err e => e = InvoiceError.InvalidAmount /\ amount = Some MilliSatoshi.ZERO
  | Ok n =>
      amount <> Some MilliSatoshi.ZERO /\
      NewInvoice.amount_msat n = amount /\ NewInvoice.payment_hash n = hash /\
      NewInvoice.payment_preimage n = preimage /\ NewInvoice.external_id n = ext /\
      NewInvoice.created_at n = now /\
      let life := (Timestamp.as_nanos (NewInvoice.expiry_at n) - Timestamp.as_nanos now)%Z in
      (60 * nanos_per_sec <= life <= 86400 * nanos_per_sec)%Z /\
      life = (nanos_per_sec *
              if decide (60 <= expiry <= 86400)%Z then expiry else 14400)%Z
  end.
Proof.
  unfold NewInvoice.try_new.
  destruct amount as [[z] |]; simpl; [destruct (Z.eqb_spec z 0) as [-> |]; [done |] |].
  all: split_and!; try done; try (by intros [=]).
  all: unfold NewInvoice.effective_expiry, BTC_INVOICE_MIN_SECONDS, BTC_INVOICE_MAX_SECONDS,
         BTC_INVOICE_DEFAULT_SECONDS, SECS_PER_MIN, SECS_PER_DAY, SECS_PER_4_HOURS,
         SECS_PER_HOUR, nanos_per_sec in *.
  all: destruct (Z.leb_spec 60 expiry), (Z.leb_spec expiry (60 * 60 * 24)); simpl;
         try case_decide; lia.
Qed.

(** * Histories *)

Definition is_terminal_event (e : InvoiceEvent.t) : bool :=
  InvoiceEvent.is_Settled e || InvoiceEvent.is_SettledIntraledger e ||
  InvoiceEvent.is_Canceled e.

Definition invoice_outcomes (l : list InvoiceEvent.t) : nat :=
  length (List.filter is_terminal_event l).

Definition phase_terminal (ph : phase) : bool :=
  match ph with PhOpen | PhHeld => false | _ => true end.

Lemma invoice_log_outcomes l ph :
  invoice_log l ph -> invoice_outcomes l = if phase_terminal ph then 1 else 0.
Proof.
  unfold invoice_outcomes. induction 1 as [n | l ph e ph' Hl IH Hstep]; [done |].
  rewrite List.filter_app, length_app, IH. by destruct Hstep as [| | | ? ? ? [-> | ->]].
Qed.

Section Histories.
Context `{EventStoreLaws}.
Import Invoice InvoiceTheory.

Definition run_invoice_commands (cs : list invoice_command) (i : t) : t :=
  fold_left (fun i c => (run_invoice_command c i).1) cs i.

(** The fields no command may change. *)
Definition same_invoice (i j : t) : Prop :=
  id i = id j /\ payment_hash i = payment_hash j /\ payment_preimage i = payment_preimage j /\
  wallet_id i = wallet_id j /\ amount_msat i = amount_msat j /\ expiry_at i = expiry_at j /\
  bolt_invoice i = bolt_invoice j /\ external_id i = external_id j /\
  created_at i = created_at j.

#[export] Instance same_invoice_equiv : Equivalence same_invoice.
Proof.
  unfold same_invoice. split; red; intros; destruct_and?; repeat split; congruence.
Qed.

Lemma run_invoice_command_identity c i : wf i -> same_invoice i (run_invoice_command c i).1.
Proof.
  intros [ph Hwf]. rewrite (run_invoice_command_answer c ph) by done. simpl.
  destruct (invoice_lifecycle c ph) as [[|] |]; [by destruct c | done | done].
Qed.

Lemma run_invoice_commands_wf cs i : wf i -> wf (run_invoice_commands cs i).
Proof.
  revert i. induction cs as [| c cs IH]; intros i Hi; [done |]. apply IH.
  destruct Hi as [ph Hi]. eexists. by apply run_invoice_command_wf.
Qed.

Lemma run_invoice_commands_inv (P : t -> Prop) cs i :
  (forall c j, wf j -> P j -> P (run_invoice_command c j).1) ->
  wf i -> P i -> P (run_invoice_commands cs i).
Proof.
  intros Hstep. revert i. induction cs as [| c cs IH]; intros i Hi HP; [done |].
  apply IH; [| by apply Hstep]. destruct Hi as [ph Hi]. eexists.
  by apply run_invoice_command_wf.
Qed.

(** Whatever commands arrive, in whatever order and however often: the
    invoice's wallet, preimage, amount and expiry never change; its log records at most
    one of settled, settled-intraledger and canceled, so a canceled invoice is never
    settled and a settled one never canceled; a settled or canceled invoice never
    changes again; and a held invoice always carries the held amount. *)
Theorem invoice_history_safe cs i :
  wf i ->
  let j := run_invoice_commands cs i in
  wf j /\ same_invoice i j /\
  invoice_outcomes (iter_all (events j)) <= 1 /\
  (state i = InvoiceState.Settled \/ state i = InvoiceState.Canceled -> j = i) /\
  (state j = InvoiceState.Held -> is_Some (held_amount_msat j)).
Proof.
  intros Hwf j. assert (Hj : wf j) by by apply run_invoice_commands_wf.
  split; [done |]. split; [| split; [| split]].
  - apply (run_invoice_commands_inv (fun j => same_invoice i j)); [| done | done].
    intros c k Hk Hik. etransitivity; [exact Hik | by apply run_invoice_command_identity].
  - destruct Hj as (ph & _ & Hlog & _). rewrite (invoice_log_outcomes _ _ Hlog).
    destruct (phase_terminal ph); lia.
  - intros Hs. apply (run_invoice_commands_inv (fun j => j = i)); [| done | done].
    intros c k [ph Hk] ->. rewrite (run_invoice_command_answer c ph) by done.
    destruct Hk as (_ & _ & Hst & _). rewrite Hst in Hs.
    destruct ph as [| | | | []]; simpl in Hs; destruct Hs; try done; by destruct c.
  - destruct Hj as (ph & _ & _ & Hst & Hheld & _). rewrite Hst, Hheld. by destruct ph.
Qed.

(** What a successful update writes back: the stored log of an invoice of the wallet. *)
Lemma wf_mark_persisted ph i :
  wf_in ph i -> wf_in ph (set_events (ev_mark_persisted (events i)) i).
Proof.
  intros (Hco & Hlog & Hst & Hheld & Hcan). split_and!; try done.
  - unfold coherent. simpl. apply (invoice_try_from_events_set (events i)); [..| done];
      by autorewrite with events.
  - simpl. by autorewrite with events.
Qed.
End Histories.

(** ** Examples *)

Section Examples.
#[local] Existing Instance list_store.
#[local] Existing Instance list_store_laws.
Import Invoice InvoiceTheory.

Let n : NewInvoice.t :=
  NewInvoice.mk (InvoiceId.from_uuid (bytes_of x07 16)) (hash_of x01) (preimage_of x09)
    (wallet_of x02) (Some (MilliSatoshi.new 5000)) (Timestamp.new 100)
    (BoltInvoice.new "lnbc50n1") "ext" (Timestamp.new 5).
Let i : t := fresh_invoice n (NewInvoice.into_events n).

Example invoice_command_refines_witness :
  wf_in PhOpen i /\
  (run_invoice_command (MarkHeld (MilliSatoshi.new 5000) (Timestamp.new 6)) i).2 =
    Ok Executed.
Proof.
  assert (Hwf : wf_in PhOpen i) by (apply fresh_invoice_wf; reflexivity).
  split; [exact Hwf |].
  exact (proj1 (invoice_command_refines
    (MarkHeld (MilliSatoshi.new 5000) (Timestamp.new 6)) PhOpen i Hwf)).
Defined.

Example invoice_history_safe_witness :
  invoice_outcomes (iter_all (events (run_invoice_commands
    [MarkHeld (MilliSatoshi.new 5000) (Timestamp.new 6); SettleHold (Timestamp.new 7);
     Cancel CancelReason.Expired (Timestamp.new 8)] i))) <= 1.
Proof.
  assert (Hwf : wf i) by (exists PhOpen; apply fresh_invoice_wf; reflexivity).
  exact (proj1 (proj2 (proj2 (invoice_history_safe _ i Hwf)))).
Defined.
End Examples.
