(* ===== verification/Outbox.v ===== *)
(** The transactional outbox (src/src/outbox/): the event vocabulary, the rows of
    [outbox_events], the publisher's insert and reads, the protobuf projection. *)
From S2P Require Import Prelude Primitives EsEntity Concrete.
From stdpp Require Import sorting.

(** * Errors (error.rs) *)

Module OutboxError.
Inductive t : Type :=
| Db (e : SqlxError)
| UnknownEventType (s : string)
| Metadata (e : string)
| ListenDisconnected
| Configuration (s : string).
#[export] Instance eq_dec : EqDecision t.
Proof. assert (EqDecision SqlxError) by solve_decision. solve_decision. Defined.
End OutboxError.
Export (hints) OutboxError.

(** * The vocabulary (entity.rs) *)

(** The enum [prost] generates from proto/lightning_payment_gateway.proto. *)
Module ProtoEventType.
Inductive t : Type :=
| Unspecified
| OutgoingPaymentInitiated | OutgoingPaymentCompleted | OutgoingPaymentFailed
| OutgoingPaymentReversed | IncomingPaymentReceived | IncomingPaymentPending
| IncomingPaymentConfirmed | IncomingPaymentCanceled.
Definition as_i32 (e : t) : Z :=
  match e with
  | Unspecified => 0
  | OutgoingPaymentInitiated => 1 | OutgoingPaymentCompleted => 2
  | OutgoingPaymentFailed => 3 | OutgoingPaymentReversed => 4
  | IncomingPaymentReceived => 5 | IncomingPaymentPending => 6
  | IncomingPaymentConfirmed => 7 | IncomingPaymentCanceled => 8
  end.
End ProtoEventType.

Module GatewayEventType.
Inductive t : Type :=
| OutgoingPaymentInitiated | OutgoingPaymentCompleted | OutgoingPaymentFailed
| OutgoingPaymentReversed | IncomingPaymentReceived | IncomingPaymentPending
| IncomingPaymentConfirmed | IncomingPaymentCanceled.
#[export] Instance eq_dec : EqDecision t.
Proof. solve_decision. Defined.

Definition as_str (e : t) : string :=
  match e with
  | OutgoingPaymentInitiated => "OUTGOING_PAYMENT_INITIATED"
  | OutgoingPaymentCompleted => "OUTGOING_PAYMENT_COMPLETED"
  | OutgoingPaymentFailed => "OUTGOING_PAYMENT_FAILED"
  | OutgoingPaymentReversed => "OUTGOING_PAYMENT_REVERSED"
  | IncomingPaymentReceived => "INCOMING_PAYMENT_RECEIVED"
  | IncomingPaymentPending => "INCOMING_PAYMENT_PENDING"
  | IncomingPaymentConfirmed => "INCOMING_PAYMENT_CONFIRMED"
  | IncomingPaymentCanceled => "INCOMING_PAYMENT_CANCELED"
  end.

Definition to_proto (e : t) : ProtoEventType.t :=
  match e with
  | OutgoingPaymentInitiated => ProtoEventType.OutgoingPaymentInitiated
  | OutgoingPaymentCompleted => ProtoEventType.OutgoingPaymentCompleted
  | OutgoingPaymentFailed => ProtoEventType.OutgoingPaymentFailed
  | OutgoingPaymentReversed => ProtoEventType.OutgoingPaymentReversed
  | IncomingPaymentReceived => ProtoEventType.IncomingPaymentReceived
  | IncomingPaymentPending => ProtoEventType.IncomingPaymentPending
  | IncomingPaymentConfirmed => ProtoEventType.IncomingPaymentConfirmed
  | IncomingPaymentCanceled => ProtoEventType.IncomingPaymentCanceled
  end.

Definition from_str (s : string) : result t OutboxError.t :=
  if String.eqb s "OUTGOING_PAYMENT_INITIATED" then Ok OutgoingPaymentInitiated
  else if String.eqb s "OUTGOING_PAYMENT_COMPLETED" then Ok OutgoingPaymentCompleted
  else if String.eqb s "OUTGOING_PAYMENT_FAILED" then Ok OutgoingPaymentFailed
  else if String.eqb s "OUTGOING_PAYMENT_REVERSED" then Ok OutgoingPaymentReversed
  else if String.eqb s "INCOMING_PAYMENT_RECEIVED" then Ok IncomingPaymentReceived
  else if String.eqb s "INCOMING_PAYMENT_PENDING" then Ok IncomingPaymentPending
  else if String.eqb s "INCOMING_PAYMENT_CONFIRMED" then Ok IncomingPaymentConfirmed
  else if String.eqb s "INCOMING_PAYMENT_CANCELED" then Ok IncomingPaymentCanceled
  else Err (OutboxError.UnknownEventType s).
End GatewayEventType.
Export (hints) GatewayEventType.

Module GatewayDomainEvent.
Inductive t : Type :=
| LightningInvoiceSettled
| LightningHtlcHeld
| LightningInvoiceCanceled
| LightningPaymentInitiated
| LightningPaymentCompleted
| LightningPaymentFailed
| LightningPaymentReversed
| LightningIntraledgerTransferCompleted.
#[export] Instance eq_dec : EqDecision t.
Proof. solve_decision. Defined.

Definition as_str (e : t) : string :=
  match e with
  | LightningInvoiceSettled => "lightning_invoice_settled"
  | LightningHtlcHeld => "lightning_htlc_held"
  | LightningInvoiceCanceled => "lightning_invoice_canceled"
  | LightningPaymentInitiated => "lightning_payment_initiated"
  | LightningPaymentCompleted => "lightning_payment_completed"
  | LightningPaymentFailed => "lightning_payment_failed"
  | LightningPaymentReversed => "lightning_payment_reversed"
  | LightningIntraledgerTransferCompleted => "lightning_intraledger_transfer_completed"
  end.

Definition to_standardized (e : t) : GatewayEventType.t :=
  match e with
  | LightningInvoiceSettled => GatewayEventType.IncomingPaymentConfirmed
  | LightningHtlcHeld => GatewayEventType.IncomingPaymentPending
  | LightningInvoiceCanceled => GatewayEventType.IncomingPaymentCanceled
  | LightningPaymentInitiated => GatewayEventType.OutgoingPaymentInitiated
  | LightningPaymentCompleted => GatewayEventType.OutgoingPaymentCompleted
  | LightningPaymentFailed => GatewayEventType.OutgoingPaymentFailed
  | LightningPaymentReversed => GatewayEventType.OutgoingPaymentReversed
  | LightningIntraledgerTransferCompleted => GatewayEventType.OutgoingPaymentCompleted
  end.

Definition from_str (s : string) : result t OutboxError.t :=
  if String.eqb s "lightning_invoice_settled" then Ok LightningInvoiceSettled
  else if String.eqb s "lightning_htlc_held" then Ok LightningHtlcHeld
  else if String.eqb s "lightning_invoice_canceled" then Ok LightningInvoiceCanceled
  else if String.eqb s "lightning_payment_initiated" then Ok LightningPaymentInitiated
  else if String.eqb s "lightning_payment_completed" then Ok LightningPaymentCompleted
  else if String.eqb s "lightning_payment_failed" then Ok LightningPaymentFailed
  else if String.eqb s "lightning_payment_reversed" then Ok LightningPaymentReversed
  else if String.eqb s "lightning_intraledger_transfer_completed" then
    Ok LightningIntraledgerTransferCompleted
  else Err (OutboxError.UnknownEventType s).
End GatewayDomainEvent.
Export (hints) GatewayDomainEvent.

(** * Events and rows (entity.rs) *)

Module OutboxEvent.
Record t : Type := mk {
  sequence : Z;
  correlation_id : string;
  domain_event : GatewayDomainEvent.t;
  event_type : GatewayEventType.t;
  reference_id : string;
  amount_sat : Z;
  timestamp : Timestamp.t;
  gateway_metadata : json
}.
End OutboxEvent.

(** The protobuf message of proto/lightning_payment_gateway.proto. *)
Module ProtoPaymentEvent.
Inductive amount : Type := Sats (n : Z) | Millisats (n : Z) | Fiat (cents : Z) (currency : string).
Record t : Type := mk {
  sequence : Z;
  correlation_id : string;
  event_type : Z;
  reference_id : string;
  amount_ : option amount;
  timestamp_ms : Z;
  gateway_metadata : string
}.
End ProtoPaymentEvent.

(** [serde_json::to_string]. *)
Class SerdeJson := { json_to_string : json -> result string string }.

Definition to_proto `{SerdeJson} (e : OutboxEvent.t) : ProtoPaymentEvent.t :=
  let safe_amount_sat :=
    if (0 <=? OutboxEvent.amount_sat e)%Z then i64_as_u64 (OutboxEvent.amount_sat e) else 0%Z in
  {| ProtoPaymentEvent.sequence := i64_as_u64 (OutboxEvent.sequence e);
     ProtoPaymentEvent.correlation_id := OutboxEvent.correlation_id e;
     ProtoPaymentEvent.event_type :=
       ProtoEventType.as_i32 (GatewayEventType.to_proto (OutboxEvent.event_type e));
     ProtoPaymentEvent.reference_id := OutboxEvent.reference_id e;
     ProtoPaymentEvent.amount_ := Some (ProtoPaymentEvent.Sats safe_amount_sat);
     ProtoPaymentEvent.timestamp_ms :=
       (Timestamp.as_nanos (OutboxEvent.timestamp e) / 1000000)%Z;
     ProtoPaymentEvent.gateway_metadata :=
       unwrap_or (json_to_string (OutboxEvent.gateway_metadata e)) "{}" |}.

Module NewOutboxEvent.
Record t : Type := new {
  domain_event : GatewayDomainEvent.t;
  correlation_id : string;
  reference_id : string;
  amount_sat : Z;
  timestamp : Timestamp.t;
  gateway_metadata : json
}.

Definition for_lightning_invoice_settled :=
  new GatewayDomainEvent.LightningInvoiceSettled.
Definition for_lightning_payment_initiated :=
  new GatewayDomainEvent.LightningPaymentInitiated.
Definition for_lightning_payment_completed :=
  new GatewayDomainEvent.LightningPaymentCompleted.
Definition for_lightning_payment_failed :=
  new GatewayDomainEvent.LightningPaymentFailed.
Definition for_lightning_htlc_held :=
  new GatewayDomainEvent.LightningHtlcHeld.
Definition for_lightning_intraledger_transfer_completed :=
  new GatewayDomainEvent.LightningIntraledgerTransferCompleted.
Definition for_lightning_invoice_canceled :=
  new GatewayDomainEvent.LightningInvoiceCanceled.
End NewOutboxEvent.

(** * The publisher (publisher.rs) *)

(** A row of [outbox_events]: the two type columns are text. *)
Module OutboxRow.
Record t : Type := mk {
  sequence : Z;
  correlation_id : string;
  domain_event_type : string;
  event_type : string;
  reference_id : string;
  amount_sat : Z;
  timestamp : Timestamp.t;
  gateway_metadata : json
}.
End OutboxRow.

(** The committed rows, in commit order; [sequence] is the primary key. *)
Notation outbox_table := (list OutboxRow.t).

Module EventPublisher.
Definition BACKFILL_BATCH_SIZE : Z := 1000.
Definition MAX_BACKFILL_EVENTS : Z := 100000.

Definition row_of (sequence : Z) (event : NewOutboxEvent.t) : OutboxRow.t :=
  {| OutboxRow.sequence := sequence;
     OutboxRow.correlation_id := NewOutboxEvent.correlation_id event;
     OutboxRow.domain_event_type :=
       GatewayDomainEvent.as_str (NewOutboxEvent.domain_event event);
     OutboxRow.event_type :=
       GatewayEventType.as_str
         (GatewayDomainEvent.to_standardized (NewOutboxEvent.domain_event event));
     OutboxRow.reference_id := NewOutboxEvent.reference_id event;
     OutboxRow.amount_sat := NewOutboxEvent.amount_sat event;
     OutboxRow.timestamp := NewOutboxEvent.timestamp event;
     OutboxRow.gateway_metadata := NewOutboxEvent.gateway_metadata event |}.

(** [nextval] is the value the [BIGSERIAL] sequence hands to this insert: unique, but
    handed out before the transaction commits, so not ordered as the commits are. *)
Definition publish_in_tx (nextval : Z) (event : NewOutboxEvent.t) (tbl : outbox_table) :
    result (Z * outbox_table) OutboxError.t :=
  if existsb (fun r => OutboxRow.sequence r =? nextval)%Z tbl then
    Err (OutboxError.Db (Sqlx "duplicate key value violates unique constraint"))
  else Ok (nextval, tbl ++ [row_of nextval event]).

Definition event_of_row (r : OutboxRow.t) : result OutboxEvent.t OutboxError.t :=
  let? domain_event := GatewayDomainEvent.from_str (OutboxRow.domain_event_type r) in
  let? event_type := GatewayEventType.from_str (OutboxRow.event_type r) in
  Ok {| OutboxEvent.sequence := OutboxRow.sequence r;
        OutboxEvent.correlation_id := OutboxRow.correlation_id r;
        OutboxEvent.domain_event := domain_event;
        OutboxEvent.event_type := event_type;
        OutboxEvent.reference_id := OutboxRow.reference_id r;
        OutboxEvent.amount_sat := OutboxRow.amount_sat r;
        OutboxEvent.timestamp := OutboxRow.timestamp r;
        OutboxEvent.gateway_metadata := OutboxRow.gateway_metadata r |}.

Definition find_by_sequence (sequence : Z) (tbl : outbox_table) :
    result (option OutboxEvent.t) OutboxError.t :=
  match List.find (fun r => OutboxRow.sequence r =? sequence)%Z tbl with
  | None => Ok None
  | Some r => result_map Some (event_of_row r)
  end.

(** [collect] into a [Result<Vec<_>, _>]: the first error wins. *)
Fixpoint collect {A E} (l : list (result A E)) : result (list A) E :=
  match l with
  | [] => Ok []
  | r :: l => let? a := r in let? rest := collect l in Ok (a :: rest)
  end.

(** [WHERE sequence > after ORDER BY sequence]. *)
Definition row_le (r1 r2 : OutboxRow.t) : Prop :=
  (OutboxRow.sequence r1 <= OutboxRow.sequence r2)%Z.
#[export] Instance row_le_dec r1 r2 : Decision (row_le r1 r2).
Proof. unfold row_le. apply _. Defined.

Definition rows_after (after_sequence : Z) (tbl : outbox_table) : list OutboxRow.t :=
  merge_sort row_le (List.filter (fun r => after_sequence <? OutboxRow.sequence r)%Z tbl).

Definition fetch_after_batch (after_sequence : Z) (tbl : outbox_table) :
    result (list OutboxEvent.t) OutboxError.t :=
  collect (map event_of_row
    (take (Z.to_nat BACKFILL_BATCH_SIZE) (rows_after after_sequence tbl))).

Definition count_after (after_sequence : Z) (tbl : outbox_table) : Z :=
  Z.of_nat (length (List.filter (fun r => after_sequence <? OutboxRow.sequence r)%Z tbl)).
End EventPublisher.

(** * Theorems *)

(** The database text of both vocabularies is parsed back to the value it was
    written for and to nothing else, every other text is refused with the offending text,
    and the numeric tags of the wire form are the eight distinct tags 1 to 8. *)
Theorem event_text_roundtrip :
  (forall e s, GatewayEventType.from_str s = Ok e <-> GatewayEventType.as_str e = s) /\
  (forall e s, GatewayDomainEvent.from_str s = Ok e <-> GatewayDomainEvent.as_str e = s) /\
  (forall s e, GatewayEventType.from_str s = Err e -> e = OutboxError.UnknownEventType s) /\
  (forall s e, GatewayDomainEvent.from_str s = Err e -> e = OutboxError.UnknownEventType s) /\
  (forall e, (1 <= ProtoEventType.as_i32 (GatewayEventType.to_proto e) <= 8)%Z) /\
  (forall e1 e2, ProtoEventType.as_i32 (GatewayEventType.to_proto e1) =
                 ProtoEventType.as_i32 (GatewayEventType.to_proto e2) -> e1 = e2).
Proof.
  split_and!.
  - intros e s. split; [| by intros <-; destruct e].
    unfold GatewayEventType.from_str.
    repeat (case_string; [subst s; by intros [= <-] |]). done.
  - intros e s. split; [| by intros <-; destruct e].
    unfold GatewayDomainEvent.from_str.
    repeat (case_string; [subst s; by intros [= <-] |]). done.
  - intros s e. unfold GatewayEventType.from_str.
    repeat (case_string; [done |]). by intros [= <-].
  - intros s e. unfold GatewayDomainEvent.from_str.
    repeat (case_string; [done |]). by intros [= <-].
  - intros e. destruct e; simpl; lia.
  - intros e1 e2. by destruct e1, e2.
Qed.

Module OutboxTheory.
Import EventPublisher.

(** A row some publish wrote. *)
Definition published (r : OutboxRow.t) : Prop := exists seq e, r = row_of seq e.

(** The event a published row reads back as. *)
Definition event_of (seq : Z) (e : NewOutboxEvent.t) : OutboxEvent.t :=
  {| OutboxEvent.sequence := seq;
     OutboxEvent.correlation_id := NewOutboxEvent.correlation_id e;
     OutboxEvent.domain_event := NewOutboxEvent.domain_event e;
     OutboxEvent.event_type :=
       GatewayDomainEvent.to_standardized (NewOutboxEvent.domain_event e);
     OutboxEvent.reference_id := NewOutboxEvent.reference_id e;
     OutboxEvent.amount_sat := NewOutboxEvent.amount_sat e;
     OutboxEvent.timestamp := NewOutboxEvent.timestamp e;
     OutboxEvent.gateway_metadata := NewOutboxEvent.gateway_metadata e |}.

Lemma event_of_row_of seq e : event_of_row (row_of seq e) = Ok (event_of seq e).
Proof. by destruct e as [[] ? ? ? ? ?]. Qed.

Definition outbox_wf (tbl : outbox_table) : Prop :=
  Forall published tbl /\ NoDup (map OutboxRow.sequence tbl).

Lemma sequence_unused tbl seq :
  existsb (fun r => OutboxRow.sequence r =? seq)%Z tbl = false <->
  seq ∉ map OutboxRow.sequence tbl.
Proof.
  rewrite list_elem_of_fmap. split.
  - intros Hno (r & -> & Hr). apply not_true_iff_false in Hno. apply Hno.
    apply existsb_exists. exists r. split; [by apply list_elem_of_In | lia].
  - intros Hno. apply not_true_iff_false. rewrite existsb_exists. intros (r & Hr & Heq).
    apply Hno. exists r. split; [lia | by apply list_elem_of_In].
Qed.

Lemma publish_wf seq e tbl seq' tbl' :
  outbox_wf tbl -> publish_in_tx seq e tbl = Ok (seq', tbl') ->
  outbox_wf tbl' /\ tbl' = tbl ++ [row_of seq e] /\ seq' = seq.
Proof.
  intros [Hpub Hnd]. unfold publish_in_tx.
  destruct (existsb _ tbl) eqn:Hno; intros [= <- <-]. apply sequence_unused in Hno.
  split_and!; [split | done | done].
  - apply Forall_app_2; [done |]. constructor; [by eexists _, _ | constructor].
  - rewrite map_app. apply NoDup_app. split_and!; [done | | apply NoDup_singleton].
    intros x Hx Hx'. apply list_elem_of_singleton in Hx' as ->. done.
Qed.

Lemma event_of_row_published r : published r -> exists e, event_of_row r = Ok e.
Proof. intros (seq & e & ->). eexists. apply event_of_row_of. Qed.

(** A published event is read back under its sequence number with the
    standardized type of its domain event, and publishing changes no other read; a
    sequence number already used is refused and nothing is written. *)
Theorem publish_then_find seq e tbl :
  outbox_wf tbl ->
  match publish_in_tx seq e tbl with
  | Ok (seq', tbl') =>
      seq' = seq /\ outbox_wf tbl' /\
      find_by_sequence seq tbl' = Ok (Some (event_of seq e)) /\
      (forall other, other <> seq -> find_by_sequence other tbl' = find_by_sequence other tbl)
  | Err _ => exists old, find_by_sequence seq tbl = Ok (Some old)
  end.
Proof.
  intros Hwf. destruct (publish_in_tx seq e tbl) as [[seq' tbl'] | err] eqn:Hpub.
  - destruct (publish_wf _ _ _ _ _ Hwf Hpub) as (Hwf' & -> & ->).
    unfold publish_in_tx in Hpub. destruct (existsb _ tbl) eqn:Hno; [done |].
    split_and!; [done | done | |].
    + unfold find_by_sequence. rewrite find_app.
      destruct (List.find _ tbl) as [r |] eqn:Hf.
      * apply find_some in Hf as [Hr Heq].
        assert (existsb (fun r => OutboxRow.sequence r =? seq)%Z tbl = true)
          by (apply existsb_exists; eauto). congruence.
      * simpl. rewrite Z.eqb_refl. by rewrite event_of_row_of.
    + intros other Hne. unfold find_by_sequence. rewrite find_app.
      destruct (List.find _ tbl); [done |]. simpl.
      by destruct (Z.eqb_spec seq other).
  - unfold publish_in_tx in Hpub. destruct (existsb _ tbl) eqn:Hex; [| done].
    unfold find_by_sequence. destruct (List.find _ tbl) as [r |] eqn:Hf.
    + apply find_some in Hf as [Hr%list_elem_of_In _]. destruct Hwf as [Hpubs _].
      eapply Forall_forall in Hpubs as [ev ->]%event_of_row_published; [| done].
      by eexists.
    + apply existsb_exists in Hex as (r & Hr & Heq).
      pose proof (List.find_none _ _ Hf _ Hr). simpl in *. congruence.
Qed.

Example publish_then_find_witness :
  let e := NewOutboxEvent.for_lightning_htlc_held "c" "r" 5%Z (Timestamp.new 9) JNull in
  exists tbl', publish_in_tx 7 e [] = Ok (7%Z, tbl') /\
    find_by_sequence 7 tbl' = Ok (Some (event_of 7 e)).
Proof.
  eexists. split; [reflexivity |].
  exact (proj1 (proj2 (proj2 (publish_then_find 7 _ [] (conj (Forall_nil_2 _) (NoDup_nil_2)))))).
Defined.
End OutboxTheory.

(** The protobuf projection never wraps: a non-negative amount and sequence are
    carried exactly, a corrupt negative amount becomes zero rather than a huge unsigned
    value, and the event type is one of the eight tags. *)
Theorem to_proto_amount `{SerdeJson} e :
  is_i64 (OutboxEvent.amount_sat e) -> is_i64 (OutboxEvent.sequence e) ->
  ProtoPaymentEvent.amount_ (to_proto e) =
    Some (ProtoPaymentEvent.Sats (Z.max 0 (OutboxEvent.amount_sat e))) /\
  ((0 <= OutboxEvent.sequence e)%Z ->
     ProtoPaymentEvent.sequence (to_proto e) = OutboxEvent.sequence e) /\
  (1 <= ProtoPaymentEvent.event_type (to_proto e) <= 8)%Z.
Proof.
  intros Ha Hs. split_and!.
  - simpl. destruct (Z.leb_spec 0 (OutboxEvent.amount_sat e)).
    + by rewrite i64_as_u64_small, Z.max_r by done.
    + by rewrite Z.max_l by lia.
  - intros Hpos. simpl. by apply i64_as_u64_small.
  - simpl. destruct (OutboxEvent.event_type e); simpl; lia.
  - simpl. destruct (OutboxEvent.event_type e); simpl; lia.
Qed.

Example to_proto_amount_witness :
  let json := {| json_to_string := fun _ => Ok "{}" |} in
  ProtoPaymentEvent.amount_ (@to_proto json
    (OutboxTheory.event_of 7
       (NewOutboxEvent.for_lightning_htlc_held "c" "r" (-5)%Z (Timestamp.new 9) JNull))) =
  Some (ProtoPaymentEvent.Sats 0).
Proof.
  refine (proj1 (@to_proto_amount _ _ _ _)); split; vm_compute; discriminate.
Defined.

(** ** Backfill pages *)

Section Batches.
Import EventPublisher OutboxTheory.

Lemma rows_after_perm after tbl :
  rows_after after tbl ≡ₚ List.filter (fun r => after <? OutboxRow.sequence r)%Z tbl.
Proof. apply merge_sort_Permutation. Qed.

Lemma rows_after_in after tbl r :
  r ∈ rows_after after tbl <-> r ∈ tbl /\ (after < OutboxRow.sequence r)%Z.
Proof.
  rewrite rows_after_perm, !list_elem_of_In, filter_In, Z.ltb_lt. done.
Qed.

#[local] Instance row_le_total : Total row_le.
Proof. intros r1 r2. unfold row_le. lia. Qed.
#[local] Instance row_le_trans : Transitive row_le.
Proof. intros r1 r2 r3. unfold row_le. lia. Qed.

Lemma rows_after_sorted after tbl : StronglySorted row_le (rows_after after tbl).
Proof. apply StronglySorted_merge_sort; apply _. Qed.

Lemma rows_after_length after tbl :
  Z.of_nat (length (rows_after after tbl)) = count_after after tbl.
Proof. unfold count_after. by rewrite rows_after_perm. Qed.

Lemma collect_map {A B E} (f : A -> result B E) l l' :
  Forall2 (fun a b => f a = Ok b) l l' -> collect (map f l) = Ok l'.
Proof. induction 1 as [| a b l l' Hab _ IH]; [done |]. simpl. by rewrite Hab, IH. Qed.

Lemma event_of_row_sequence r e :
  event_of_row r = Ok e -> OutboxEvent.sequence e = OutboxRow.sequence r.
Proof. unfold event_of_row. intros H. inv_results. done. Qed.

(** The events rows read back as; a row nothing published could not be parsed. *)
Definition events_of (rows : list OutboxRow.t) : list OutboxEvent.t :=
  omap (fun r => match event_of_row r with Ok e => Some e | Err _ => None end) rows.

Lemma events_of_app l1 l2 : events_of (l1 ++ l2) = events_of l1 ++ events_of l2.
Proof. apply omap_app. Qed.

Lemma events_of_cons r l e : event_of_row r = Ok e -> events_of (r :: l) = e :: events_of l.
Proof. unfold events_of. csimpl. by intros ->. Qed.

Lemma collect_published l : Forall published l -> collect (map event_of_row l) = Ok (events_of l).
Proof.
  induction 1 as [| r l (e & He)%event_of_row_published _ IH]; [done |].
  rewrite (events_of_cons _ _ e) by done. simpl. by rewrite He, IH.
Qed.

Lemma collect_row l es e :
  collect (map event_of_row l) = Ok es -> e ∈ es -> exists r, r ∈ l /\ event_of_row r = Ok e.
Proof.
  revert es. induction l as [| r l IH]; intros es; simpl.
  - intros [= <-] []%not_elem_of_nil.
  - intros (e0 & He0 & (es0 & Hes0 & [= <-])%result_bind_ok)%result_bind_ok.
    intros [-> | Hin]%elem_of_cons; [exists r; split; [by left | done] |].
    destruct (IH _ Hes0 Hin) as (r' & Hr' & He'). exists r'. split; [by right | done].
Qed.

Lemma events_of_nil l : Forall published l -> events_of l = [] -> l = [].
Proof.
  destruct 1 as [| r l (e & He)%event_of_row_published _]; [done |].
  by rewrite (events_of_cons _ _ e).
Qed.

(** Rows whose sequence numbers increase, as when commits happen in the order in which
    the numbers were taken. *)
Definition seq_lt (r1 r2 : OutboxRow.t) : Prop :=
  (OutboxRow.sequence r1 < OutboxRow.sequence r2)%Z.
Definition in_order (tbl : outbox_table) : Prop := StronglySorted seq_lt tbl.

Lemma in_order_split tbl x :
  in_order tbl ->
  exists l1 l2, tbl = l1 ++ l2 /\
    Forall (fun r => OutboxRow.sequence r <= x)%Z l1 /\
    Forall (fun r => x < OutboxRow.sequence r)%Z l2.
Proof.
  induction 1 as [| r tbl Hs IH Hr]; [by exists [], [] |].
  destruct (Z.le_gt_cases (OutboxRow.sequence r) x) as [Hle | Hgt].
  - destruct IH as (l1 & l2 & -> & H1 & H2). exists (r :: l1), l2. by split_and!; [| constructor |].
  - exists [], (r :: tbl). split_and!; [done | constructor |]. constructor; [lia |].
    eapply Forall_impl; [exact Hr |]. unfold seq_lt. lia.
Qed.

Lemma filter_after_split l1 l2 x :
  Forall (fun r => OutboxRow.sequence r <= x)%Z l1 ->
  Forall (fun r => x < OutboxRow.sequence r)%Z l2 ->
  List.filter (fun r => x <? OutboxRow.sequence r)%Z (l1 ++ l2) = l2.
Proof.
  intros H1 H2. rewrite List.filter_app.
  replace (List.filter _ l1) with (@nil OutboxRow.t).
  - simpl. induction H2 as [| r l Hr _ IH]; [done |]. simpl.
    destruct (Z.ltb_spec x (OutboxRow.sequence r)); [by rewrite IH | lia].
  - symmetry. induction H1 as [| r l Hr _ IH]; [done |]. simpl.
    by destruct (Z.ltb_spec x (OutboxRow.sequence r)); [lia |].
Qed.

Lemma rows_after_split l1 l2 x :
  in_order (l1 ++ l2) ->
  Forall (fun r => OutboxRow.sequence r <= x)%Z l1 ->
  Forall (fun r => x < OutboxRow.sequence r)%Z l2 ->
  rows_after x (l1 ++ l2) = l2.
Proof.
  intros Ho H1 H2. pose proof (StronglySorted_app_1_r _ _ _ Ho) as Ho2.
  pose proof (rows_after_perm x (l1 ++ l2)) as Hperm.
  rewrite filter_after_split in Hperm by done.
  apply (StronglySorted_unique_strong row_le); [| apply rows_after_sorted | | exact Hperm].
  - intros r1 r2 Hr1 Hr2 Hle1 Hle2. rewrite Hperm in Hr1. clear -Ho2 Hr1 Hr2 Hle1 Hle2.
    unfold row_le in *. induction Ho2 as [| r l Hs IH Hr]; [by apply not_elem_of_nil in Hr1 |].
    rewrite Forall_forall in Hr. unfold seq_lt in Hr.
    apply elem_of_cons in Hr1 as [-> | Hr1], Hr2 as [-> | Hr2]; [done | | | by apply IH].
    + specialize (Hr _ Hr2). lia.
    + specialize (Hr _ Hr1). lia.
  - clear -Ho2. induction Ho2 as [| r l Hs IH Hr]; constructor; [done |].
    eapply Forall_impl; [exact Hr |]. unfold seq_lt, row_le. lia.
Qed.

(** Distinct sequence numbers make the order of a page strict. *)
Lemma rows_after_in_order after tbl :
  NoDup (map OutboxRow.sequence tbl) -> in_order (rows_after after tbl).
Proof.
  intros Hnd. pose proof (rows_after_sorted after tbl) as Hs.
  assert (Hnd' : NoDup (map OutboxRow.sequence (rows_after after tbl))).
  { rewrite rows_after_perm. clear -Hnd. induction tbl as [| r tbl IH]; [constructor |].
    simpl in *. apply NoDup_cons in Hnd as [Hr Hnd]. destruct (after <? _)%Z; [| by apply IH].
    simpl. constructor; [| by apply IH]. intros Hin. apply Hr. clear -Hin.
    apply list_elem_of_fmap in Hin as (r' & -> & Hr').
    apply list_elem_of_In, filter_In in Hr' as [Hr' _]. apply list_elem_of_fmap.
    exists r'. split; [done | by apply list_elem_of_In]. }
  clear Hnd. induction Hs as [| r l Hs IH Hr]; [constructor |].
  simpl in *. apply NoDup_cons in Hnd' as [Hno Hnd]. constructor; [by apply IH |].
  apply Forall_forall. intros r' Hr'.
  pose proof (proj1 (Forall_forall _ _) Hr r' Hr') as Hle. unfold row_le, seq_lt in *.
  assert (OutboxRow.sequence r <> OutboxRow.sequence r'); [| lia].
  intros Heq. apply Hno. rewrite Heq. by apply list_elem_of_fmap_2.
Qed.

Lemma in_order_sequences l : in_order l -> StronglySorted Z.lt (map OutboxRow.sequence l).
Proof.
  induction 1 as [| r l Hs IH Hr]; constructor; [done |].
  apply Forall_forall. intros x (r' & -> & Hr')%list_elem_of_fmap.
  by apply (proj1 (Forall_forall _ _) Hr).
Qed.

Lemma events_of_sequences l :
  Forall published l -> map OutboxEvent.sequence (events_of l) = map OutboxRow.sequence l.
Proof.
  induction 1 as [| r l (e & He)%event_of_row_published _ IH]; [done |].
  rewrite (events_of_cons _ _ e) by done. simpl. rewrite IH. f_equal.
  by apply event_of_row_sequence.
Qed.

Lemma find_by_sequence_row tbl sequence e :
  find_by_sequence sequence tbl = Ok (Some e) ->
  exists r, r ∈ tbl /\ event_of_row r = Ok e /\ OutboxRow.sequence r = sequence.
Proof.
  unfold find_by_sequence. destruct (List.find _ tbl) as [r |] eqn:Hf; [| done].
  apply find_some in Hf as [Hr%list_elem_of_In Heq]. destruct (event_of_row r) as [e' |] eqn:He; [| done].
  intros [= <-]. exists r. split_and!; [done | done | lia].
Qed.

Lemma find_by_sequence_in_order l1 r l2 e :
  in_order (l1 ++ r :: l2) -> event_of_row r = Ok e ->
  find_by_sequence (OutboxRow.sequence r) (l1 ++ r :: l2) = Ok (Some e).
Proof.
  intros Ho He. unfold find_by_sequence. rewrite find_app.
  assert (Hno : List.find (fun r0 => OutboxRow.sequence r0 =? OutboxRow.sequence r)%Z l1 = None).
  { destruct (List.find _ l1) as [r' |] eqn:Hf; [| done].
    apply find_some in Hf as [Hr'%list_elem_of_In Heq].
    pose proof (StronglySorted_app_1_elem_of _ _ _ r' r Ho Hr' ltac:(by left)) as Hlt.
    unfold seq_lt in Hlt. lia. }
  rewrite Hno. simpl. by rewrite Z.eqb_refl, He.
Qed.
End Batches.
