(* ===== verification/Listen.v ===== *)
(** The LISTEN connection (src/src/outbox/listen_connection.rs): the task that keeps a
    Postgres session listening on [gateway_events], reconnects with exponential back-off
    and forwards the notified sequence numbers, with a marker at every loss. *)
From S2P Require Import Prelude Primitives Decimal EsEntity Concrete Outbox.

Module ListenConnection.
Definition BASE_BACKOFF_MS : Z := 1000.
Definition MAX_BACKOFF_MS : Z := 30000.

(** [new]: what it logs about TLS, which the connector does not speak.  Lowering the ASCII
    letters is enough for the words looked for. *)
Inductive tls_note : Type := RequiresTls | PrefersTls.

Definition ascii_lower (c : Ascii.ascii) : Ascii.ascii :=
  let n := Ascii.nat_of_ascii c in
  if (65 <=? n) && (n <=? 90) then Ascii.ascii_of_nat (n + 32) else c.

Fixpoint to_lowercase (s : string) : string :=
  match s with
  | EmptyString => EmptyString
  | String c s => String (ascii_lower c) (to_lowercase s)
  end.

Fixpoint contains (word s : string) : bool :=
  String.prefix word s ||
  match s with EmptyString => false | String _ s => contains word s end.

Definition new (pg_config : string) : option tls_note :=
  let lower := to_lowercase pg_config in
  if contains "sslmode=require" lower || contains "sslmode=verify" lower then Some RequiresTls
  else if contains "sslmode=prefer" lower then Some PrefersTls
  else None.

Example tls_is_noted :
  new "host=db SSLMODE=Verify-Full" = Some RequiresTls /\
  new "host=db sslmode=prefer" = Some PrefersTls /\ new "host=db" = None.
Proof. by vm_compute. Qed.

(** [validate]. *)
Definition validate (pg_config : string) : result unit OutboxError.t :=
  if String.eqb pg_config "" then
    Err (OutboxError.Configuration
      "pg_config is empty - LISTEN connection requires valid PostgreSQL connection string")
  else Ok tt.

(** Where [connection_loop] is: connecting, executing [LISTEN], in the notification
    loop, in the back-off sleep, or returned. *)
Inductive phase : Type := Connecting | Registering | Listening | Sleeping | Stopped.
#[export] Instance phase_eq_dec : EqDecision phase.
Proof. solve_decision. Defined.

Record t : Type := mk { backoff_ms : Z; at_ : phase }.

(** [start_listening] spawns the loop. *)
Definition start : t := mk BASE_BACKOFF_MS Connecting.

(** What the awaited operation of the current phase returns. *)
Inductive input : Type :=
| Cancelled
| Connected
| ConnectFailed
| ListenRegistered
| ListenFailed
| Notification (payload : string)
| NotificationsClosed
| Slept.

(** The channel to the subscriber: sequences and loss markers. *)
Notation message := (result Z OutboxError.t).

(** One [await] of the loop.  [receiver] says whether the receiving side still exists: a
    send to a dropped one ends the task.  An input the phase does not wait for leaves it
    alone. *)
Definition lost (receiver : bool) (c : t) : t * list message :=
  if receiver then (mk (backoff_ms c) Sleeping, [Err OutboxError.ListenDisconnected])
  else (mk (backoff_ms c) Stopped, []).

Definition connection_step (receiver : bool) (i : input) (c : t) : t * list message :=
  match at_ c, i with
  | Connecting, Cancelled | Listening, Cancelled => (mk (backoff_ms c) Stopped, [])
  | Connecting, Connected => (mk BASE_BACKOFF_MS Registering, [])
  | Connecting, ConnectFailed => lost receiver c
  | Registering, ListenFailed => lost receiver c
  | Registering, ListenRegistered => (mk (backoff_ms c) Listening, [])
  | Listening, Notification payload =>
      match parse_i64 payload with
      | Ok sequence =>
          if receiver then (c, [Ok sequence]) else (mk (backoff_ms c) Stopped, [])
      | Err _ => (c, [])
      end
  | Listening, NotificationsClosed => lost receiver c
  | Sleeping, Slept => (mk (Z.min (backoff_ms c * 2) MAX_BACKOFF_MS) Connecting, [])
  | _, _ => (c, [])
  end.

(** The loop on a sequence of inputs, with the receiver alive. *)
Fixpoint connection_loop (inputs : list input) (c : t) : t * list message :=
  match inputs with
  | [] => (c, [])
  | i :: inputs =>
      let (c, out) := connection_step true i c in
      let (c, out') := connection_loop inputs c in
      (c, out ++ out')
  end.

(** The sleeps a run takes, in milliseconds. *)
Fixpoint sleeps (inputs : list input) (c : t) : list Z :=
  match inputs with
  | [] => []
  | i :: inputs =>
      match at_ c, i with Sleeping, Slept => [backoff_ms c] | _, _ => [] end ++
      sleeps inputs (connection_step true i c).1
  end.

(** ** Theorems *)

Definition backoff_ok (c : t) : Prop :=
  (BASE_BACKOFF_MS <= backoff_ms c <= MAX_BACKOFF_MS)%Z.

Lemma step_backoff receiver i c :
  backoff_ok c -> backoff_ok (connection_step receiver i c).1.
Proof.
  unfold backoff_ok, connection_step, lost, BASE_BACKOFF_MS, MAX_BACKOFF_MS.
  destruct c as [b []], i; simpl; repeat case_match; simpl; lia.
Qed.

(** A failed connection attempt, then the sleep. *)
Fixpoint outage (n : nat) : list input :=
  match n with 0 => [] | S n => ConnectFailed :: Slept :: outage n end.

Lemma outage_sleeps n b :
  (0 <= b <= MAX_BACKOFF_MS)%Z ->
  forall k, k < n ->
  sleeps (outage n) (mk b Connecting) !! k = Some (Z.min (b * 2 ^ Z.of_nat k) MAX_BACKOFF_MS).
Proof.
  revert b. induction n as [| n IH]; intros b Hb k Hk; [lia |].
  destruct k as [| k]; simpl.
  - f_equal. unfold MAX_BACKOFF_MS in *. lia.
  - rewrite IH by (unfold MAX_BACKOFF_MS in *; lia). f_equal.
    replace (Z.of_nat (S k)) with (Z.of_nat k + 1)%Z by lia.
    rewrite Z.pow_add_r by lia. unfold MAX_BACKOFF_MS in *.
    pose proof (Z.pow_pos_nonneg 2 (Z.of_nat k) ltac:(lia) ltac:(lia)). nia.
Qed.

(** The reconnect back-off: whatever happens, every sleep is between one and thirty
    seconds; during an outage the [k]-th sleep is [2^k] seconds until the cap; and a
    successful connection starts over at one second. *)
Theorem backoff_bounded inputs k d n :
  (sleeps inputs start !! k = Some d -> (BASE_BACKOFF_MS <= d <= MAX_BACKOFF_MS)%Z) /\
  (k < n -> sleeps (outage n) start !! k =
              Some (Z.min (BASE_BACKOFF_MS * 2 ^ Z.of_nat k) MAX_BACKOFF_MS)) /\
  forall c receiver, at_ c = Connecting ->
    backoff_ms (connection_step receiver Connected c).1 = BASE_BACKOFF_MS.
Proof.
  split_and!.
  - assert (Hs : forall c k, backoff_ok c -> sleeps inputs c !! k = Some d ->
              (BASE_BACKOFF_MS <= d <= MAX_BACKOFF_MS)%Z).
    { clear k. induction inputs as [| i inputs IH]; intros c k Hc; simpl; [done |].
      rewrite lookup_app_Some. intros [Hl | [_ Hl]].
      - destruct (at_ c), i; simpl in Hl; try done. destruct k; simplify_eq/=; exact Hc.
      - eapply IH; [| exact Hl]. by apply step_backoff. }
    apply Hs. unfold backoff_ok, start, BASE_BACKOFF_MS, MAX_BACKOFF_MS. simpl. lia.
  - intros Hk. apply outage_sleeps; [| done]. unfold BASE_BACKOFF_MS, MAX_BACKOFF_MS. lia.
  - intros [b p] receiver Hp. simpl in Hp. by subst.
Qed.

Example backoff_bounded_witness :
  sleeps (outage 7) start = [1000; 2000; 4000; 8000; 16000; 30000; 30000]%Z /\
  sleeps (outage 7) start !! 6 = Some 30000%Z.
Proof.
  split; [reflexivity |].
  exact (proj1 (proj2 (backoff_bounded [] 6 0 7)) (Nat.lt_succ_diag_r 6)).
Defined.
End ListenConnection.
Export (hints) ListenConnection.
