(* ===== verification/Fanout.v ===== *)
(** The in-process fan-out of the outbox (src/src/outbox/fanout.rs): one task that ingests
    the notified rows and broadcasts them, and the receivers that attach to it. *)
From S2P Require Import Prelude Primitives EsEntity Concrete Outbox Listen.

Module OutboxFanout.
Definition BROADCAST_CAPACITY : nat := 1000.

(** [start]: nothing is spawned without a connection string. *)
Definition start (pg_config : string) : result unit OutboxError.t :=
  ListenConnection.validate pg_config.

(** Where [ingest_loop] is: in the [select!], reading the row of a notification, or
    returned. *)
Inductive pc : Type := Waiting | Reading (sequence : Z) | Stopped.

(** With everything it has broadcast so far, oldest first. *)
Record t : Type := mk { at_ : pc; broadcast : list OutboxEvent.t }.

Definition started : t := mk Waiting [].

Definition on_cancelled (f : t) : t := mk Stopped (broadcast f).

(** A notification of the connection task; [None] is the end of its channel.  Loss markers
    and other errors are only logged. *)
Definition on_notification (n : option (result Z OutboxError.t)) (f : t) : t :=
  match n with
  | Some (Ok sequence) => mk (Reading sequence) (broadcast f)
  | Some (Err _) => mk Waiting (broadcast f)
  | None => mk Stopped (broadcast f)
  end.

(** The row of the notification: broadcast when there is one, otherwise only logged. *)
Definition on_row (row : result (option OutboxEvent.t) OutboxError.t) (f : t) : t :=
  match row with
  | Ok (Some event) => mk Waiting (broadcast f ++ [event])
  | Ok None | Err _ => mk Waiting (broadcast f)
  end.

(** ** Receivers

    [subscribe]: a receiver is the position in the broadcast of the next value it gets. *)
Definition subscribe (f : t) : nat := length (broadcast f).

(** What [recv] answers.  The channel keeps at least the last [BROADCAST_CAPACITY] values:
    a receiver further behind may be told how many it has missed, and goes on with the
    oldest value kept. *)
Inductive recv : Type :=
| Received (event : OutboxEvent.t)
| Lagged (skipped : nat)
| Closed.

Definition receive (skipped : nat) (f : t) (next : nat) : option (recv * nat) :=
  match skipped with
  | 0 => event ← broadcast f !! next; Some (Received event, S next)
  | S _ =>
      if (next + skipped + BROADCAST_CAPACITY <=? length (broadcast f))%nat
      then Some (Lagged skipped, (next + skipped)%nat) else None
  end.

(** ** Theorems *)

(** What a step of the ingest task adds to the broadcast is the row it was notified of. *)
Lemma on_row_broadcast row f event :
  event ∈ broadcast (on_row row f) -> event ∈ broadcast f \/ row = Ok (Some event).
Proof.
  destruct row as [[e |] |]; simpl; [| by left | by left].
  intros [? | Hin%list_elem_of_singleton]%elem_of_app; [by left |]. right. by subst.
Qed.

Lemma receive_in skipped f next event next' :
  receive skipped f next = Some (Received event, next') -> event ∈ broadcast f /\ next' = S next.
Proof.
  destruct skipped; simpl; [| by case_match].
  destruct (broadcast f !! next) as [e |] eqn:He; simpl; [| done].
  intros [= <- <-]. split; [by eapply list_elem_of_lookup_2 | done].
Qed.
End OutboxFanout.
