(* ===== verification/Lnd.v ===== *)
(** The LND adapter (src/src/lnd/): its errors, the types it trades in, the mappings
    from LND's protobuf messages, and each call of [LndApi] as a function of the remote
    procedure it issues.  The [tonic_lnd] crate is a parameter: the enum conversions
    [prost] generates ([LndProto]) and the remote procedures themselves. *)
From S2P Require Import Prelude Primitives EsEntity Concrete PaymentEntity.

(** * gRPC status *)

Inductive Code : Type :=
| Code_Ok | Code_Cancelled | Code_Unknown | Code_InvalidArgument | Code_DeadlineExceeded
| Code_NotFound | Code_AlreadyExists | Code_PermissionDenied | Code_ResourceExhausted
| Code_FailedPrecondition | Code_Aborted | Code_OutOfRange | Code_Unimplemented
| Code_Internal | Code_Unavailable | Code_DataLoss | Code_Unauthenticated.
#[export] Instance Code_eq_dec : EqDecision Code.
Proof. solve_decision. Defined.

Record Status : Type := MkStatus { code : Code; message : string }.
#[export] Instance Status_eq_dec : EqDecision Status.
Proof. solve_decision. Defined.

(** The texts the crates print for their values. *)
Class TonicText := { status_to_string : Status -> string }.

(** * Errors (error.rs) *)

Module LndError.
Inductive t : Type :=
| Connect (s : string)
| Rpc (s : Status)
| Stub
| InvalidResponse (s : string)
| PaymentNotFound
| PaymentTimeout
| NoRoute
| IncorrectPaymentDetails.
#[export] Instance eq_dec : EqDecision t.
Proof. solve_decision. Defined.

Definition from_status (s : Status) : t := Rpc s.

Definition to_string `{TonicText} (e : t) : string :=
  match e with
  | Connect s => "LND connection failed: " +:+ s
  | Rpc s => "LND RPC returned status: " +:+ status_to_string s
  | Stub => "LND adapter is stubbed; real wiring is exercised through `tilt up`"
  | InvalidResponse s => "invalid LND response: " +:+ s
  | PaymentNotFound => "LND has no record of this payment"
  | PaymentTimeout => "payment timed out before LND found a route"
  | NoRoute => "no route found to destination"
  | IncorrectPaymentDetails => "destination rejected payment details"
  end.
End LndError.
Export (hints) LndError.

(** * Adapter types (payment.rs, invoice.rs, subscription.rs) *)

Module SendPaymentParams.
Record t : Type := mk {
  bolt_invoice : BoltInvoice.t;
  max_fee_msat : MilliSatoshi.t;
  timeout_seconds : Z
}.
End SendPaymentParams.

Module SendPaymentStatus.
Inductive t : Type := InFlight | Succeeded | Failed.
#[export] Instance eq_dec : EqDecision t.
Proof. solve_decision. Defined.
End SendPaymentStatus.
Export (hints) SendPaymentStatus.

Module SendPaymentResponse.
Record t : Type := mk {
  payment_hash : PaymentHash.t;
  payment_preimage : option Preimage.t;
  status : SendPaymentStatus.t;
  fees_paid_msat : MilliSatoshi.t;
  route_hops : list Hop.t;
  failure_reason : option FailureReason.t
}.
End SendPaymentResponse.

Record FeeProbeParams : Type := MkFeeProbeParams { fp_bolt_invoice : BoltInvoice.t }.
Record FeeProbeResponse : Type :=
  MkFeeProbeResponse { fp_fee_msat : MilliSatoshi.t; fp_expiry_seconds : Z }.

Module AddHoldInvoiceParams.
Record t : Type := mk {
  payment_hash : PaymentHash.t;
  amount_msat : option MilliSatoshi.t;
  memo : option string;
  expiry_seconds : Z
}.
End AddHoldInvoiceParams.

Record AddHoldInvoiceResponse : Type :=
  MkAddHoldInvoiceResponse { ah_bolt_invoice : BoltInvoice.t }.

Module LndInvoiceState.
Inductive t : Type := Open | Accepted | Settled | Canceled.
#[export] Instance eq_dec : EqDecision t.
Proof. solve_decision. Defined.
End LndInvoiceState.
Export (hints) LndInvoiceState.

Module InvoiceUpdate.
Record t : Type := mk {
  payment_hash : PaymentHash.t;
  state : LndInvoiceState.t;
  amt_paid_msat : MilliSatoshi.t;
  payment_preimage : option Preimage.t
}.
End InvoiceUpdate.

Module PaymentUpdate.
Record t : Type := mk {
  payment_hash : PaymentHash.t;
  status : SendPaymentStatus.t;
  payment_preimage : option Preimage.t;
  fees_paid_msat : MilliSatoshi.t;
  route_hops : list Hop.t;
  failure_reason : option FailureReason.t
}.
End PaymentUpdate.

(** * LND's messages

    The fields of the protobuf messages the adapter reads. *)

Module lnrpc.
Inductive PaymentStatus : Type :=
| PS_Unknown | PS_InFlight | PS_Succeeded | PS_Failed | PS_Initiated.

Inductive PaymentFailureReason : Type :=
| FailureReasonNone | FailureReasonTimeout | FailureReasonNoRoute | FailureReasonError
| FailureReasonIncorrectPaymentDetails | FailureReasonInsufficientBalance
| FailureReasonCanceled.

Inductive InvoiceState : Type := IS_Open | IS_Settled | IS_Canceled | IS_Accepted.

Record Hop : Type := MkHop {
  pub_key : string; chan_id : Z; fee_msat : Z; amt_to_forward_msat : Z; expiry : Z
}.
Record Route : Type := MkRoute { hops : list Hop }.
Record HtlcAttempt : Type := MkHtlc { route : option Route }.

Record Payment : Type := MkPayment {
  payment_hash : string;
  payment_preimage : string;
  status : Z;
  fee_msat_ : Z;
  htlcs : list HtlcAttempt;
  failure_reason : Z
}.

Record Invoice : Type := MkInvoice {
  r_hash : list byte;
  r_preimage : list byte;
  state : Z;
  amt_paid_msat : Z
}.
End lnrpc.

(** The conversions [prost] generates for LND's enums. *)
Class LndProto := {
  PaymentStatus_try_from : Z -> option lnrpc.PaymentStatus;
  PaymentFailureReason_try_from : Z -> option lnrpc.PaymentFailureReason;
  InvoiceState_try_from : Z -> option lnrpc.InvoiceState;
  PaymentFailureReason_as_i32 : lnrpc.PaymentFailureReason -> Z;
  PaymentFailureReason_debug : lnrpc.PaymentFailureReason -> string
}.

(** * Mapping payments (client.rs) *)

Section Mapping.
Context `{Hex} `{LndProto}.

Definition parse_hex_payment_hash (s : string) : result PaymentHash.t LndError.t :=
  map_err (fun e => LndError.InvalidResponse
                      ("payment.payment_hash: " +:+ PaymentHash.Error_to_string e))
    (PaymentHash.from_str s).

Definition parse_preimage (s : string) : option Preimage.t :=
  if String.eqb s "" then None
  else if negb (String.length s =? 64) then None
  else match Preimage.from_str s with
       | Ok p => Some p
       | Err _ => None
       end.

Definition map_payment_status (value : Z) : result SendPaymentStatus.t LndError.t :=
  let? status := ok_or (LndError.InvalidResponse ("unknown PaymentStatus: " +:+ pretty value))
                   (PaymentStatus_try_from value) in
  match status with
  | lnrpc.PS_Initiated | lnrpc.PS_InFlight => Ok SendPaymentStatus.InFlight
  | lnrpc.PS_Succeeded => Ok SendPaymentStatus.Succeeded
  | lnrpc.PS_Failed => Ok SendPaymentStatus.Failed
  | lnrpc.PS_Unknown =>
      Err (LndError.InvalidResponse "LND returned PaymentStatus::Unknown")
  end.

Definition map_failure_reason_to_lnd_error (value : Z) : LndError.t :=
  match default lnrpc.FailureReasonError (PaymentFailureReason_try_from value) with
  | lnrpc.FailureReasonTimeout => LndError.PaymentTimeout
  | lnrpc.FailureReasonNoRoute => LndError.NoRoute
  | lnrpc.FailureReasonIncorrectPaymentDetails => LndError.IncorrectPaymentDetails
  | other => LndError.InvalidResponse
               ("LND failure reason: " +:+ PaymentFailureReason_debug other)
  end.

Definition map_failure_reason_to_typed (value : Z) : FailureReason.t :=
  match default lnrpc.FailureReasonError (PaymentFailureReason_try_from value) with
  | lnrpc.FailureReasonNone => FailureReason.Other "none"
  | lnrpc.FailureReasonTimeout => FailureReason.Timeout
  | lnrpc.FailureReasonNoRoute => FailureReason.NoRoute
  | lnrpc.FailureReasonInsufficientBalance => FailureReason.InsufficientBalance
  | lnrpc.FailureReasonIncorrectPaymentDetails => FailureReason.IncorrectPaymentDetails
  | lnrpc.FailureReasonError => FailureReason.Other "LND failure_reason: error"
  | lnrpc.FailureReasonCanceled => FailureReason.Other "canceled"
  end.

(** [MilliSatoshi::try_from(v).unwrap_or(ZERO).round_up_to_sat()]. *)
Definition msat_or_zero (v : Z) : MilliSatoshi.t :=
  MilliSatoshi.round_up_to_sat (unwrap_or (MilliSatoshi.try_from_i64 v) MilliSatoshi.ZERO).

Definition map_hop (hop : lnrpc.Hop) : option Hop.t :=
  match Pubkey.from_str (lnrpc.pub_key hop) with
  | Err _ => None
  | Ok pub_key =>
      Some {| Hop.pub_key := pub_key;
              Hop.channel_id := lnrpc.chan_id hop;
              Hop.fee_msat := msat_or_zero (lnrpc.fee_msat hop);
              Hop.amt_msat := msat_or_zero (lnrpc.amt_to_forward_msat hop);
              Hop.expiry := lnrpc.expiry hop |}
  end.

(** [find_map]: the first [Some]. *)
Fixpoint find_map {A B} (f : A -> option B) (l : list A) : option B :=
  match l with
  | [] => None
  | a :: l => match f a with Some b => Some b | None => find_map f l end
  end.

Definition first_route_hops (htlcs : list lnrpc.HtlcAttempt) : list Hop.t :=
  match find_map lnrpc.route htlcs with
  | Some route => omap map_hop (lnrpc.hops route)
  | None => []
  end.

Definition lnd_payment_to_send_response (payment : lnrpc.Payment) :
    result SendPaymentResponse.t LndError.t :=
  let? payment_hash := parse_hex_payment_hash (lnrpc.payment_hash payment) in
  let payment_preimage := parse_preimage (lnrpc.payment_preimage payment) in
  let? status := map_payment_status (lnrpc.status payment) in
  let fees_paid_msat := msat_or_zero (lnrpc.fee_msat_ payment) in
  let route_hops := first_route_hops (lnrpc.htlcs payment) in
  let failure_reason :=
    if decide (status = SendPaymentStatus.Failed)
    then Some (map_failure_reason_to_typed (lnrpc.failure_reason payment)) else None in
  Ok (SendPaymentResponse.mk payment_hash payment_preimage status fees_paid_msat route_hops
        failure_reason).

Definition payment_to_update (payment : lnrpc.Payment) : result PaymentUpdate.t LndError.t :=
  let? resp := lnd_payment_to_send_response payment in
  Ok {| PaymentUpdate.payment_hash := SendPaymentResponse.payment_hash resp;
        PaymentUpdate.status := SendPaymentResponse.status resp;
        PaymentUpdate.payment_preimage := SendPaymentResponse.payment_preimage resp;
        PaymentUpdate.fees_paid_msat := SendPaymentResponse.fees_paid_msat resp;
        PaymentUpdate.route_hops := SendPaymentResponse.route_hops resp;
        PaymentUpdate.failure_reason := SendPaymentResponse.failure_reason resp |}.

(** ** Mapping invoices (invoice.rs) *)

Definition map_invoice_state (value : Z) : result LndInvoiceState.t LndError.t :=
  let? s := ok_or (LndError.InvalidResponse ("unknown InvoiceState: " +:+ pretty value))
              (InvoiceState_try_from value) in
  Ok (match s with
      | lnrpc.IS_Open => LndInvoiceState.Open
      | lnrpc.IS_Accepted => LndInvoiceState.Accepted
      | lnrpc.IS_Settled => LndInvoiceState.Settled
      | lnrpc.IS_Canceled => LndInvoiceState.Canceled
      end).

(** invoice.rs's own [parse_preimage], on bytes. *)
Definition parse_preimage_bytes (bytes : list byte) : option Preimage.t :=
  match bytes with
  | [] => None
  | _ => if negb (length bytes =? 32) then None
         else Preimage.new <$> array_try_from bytes
  end.

Definition lnd_invoice_to_update (invoice : lnrpc.Invoice) :
    result InvoiceUpdate.t LndError.t :=
  let r_hash_len := pretty (N.of_nat (length (lnrpc.r_hash invoice))) in
  let? r_hash :=
    ok_or (LndError.InvalidResponse ("r_hash length " +:+ r_hash_len +:+ ", expected 32"))
      (array_try_from (lnrpc.r_hash invoice)) in
  let payment_hash := PaymentHash.new r_hash in
  let? state := map_invoice_state (lnrpc.state invoice) in
  let? amt_paid_msat :=
    ok_or (LndError.InvalidResponse
             ("amt_paid_msat negative: " +:+ pretty (lnrpc.amt_paid_msat invoice)))
      (MilliSatoshi.new <$> u64_try_from_i64 (lnrpc.amt_paid_msat invoice)) in
  let payment_preimage := parse_preimage_bytes (lnrpc.r_preimage invoice) in
  Ok (InvoiceUpdate.mk payment_hash state amt_paid_msat payment_preimage).

(** * The calls of [LndApi] (client.rs)

    [connected] is [inner.is_some()]; each remote procedure is a function of its request.
    A server stream of which only the first message is read is a result of an option:
    [None] when it closes first. *)

Definition require_inner (connected : bool) : result unit LndError.t :=
  if connected then Ok tt else Err LndError.Stub.

Definition map_track_payment_status (status : Status) : LndError.t :=
  if decide (code status = Code_NotFound) then LndError.PaymentNotFound
  else LndError.Rpc status.

Record AddHoldInvoiceRequest : Type :=
  MkAddHoldInvoiceRequest { hash : list byte; value_msat : Z; expiry_ : Z; memo_ : string }.

Definition add_hold_invoice (connected : bool)
    (rpc : AddHoldInvoiceRequest -> result string Status)
    (params : AddHoldInvoiceParams.t) : result AddHoldInvoiceResponse LndError.t :=
  let? _ := require_inner connected in
  let? value_msat :=
    match AddHoldInvoiceParams.amount_msat params with
    | Some a => ok_or (LndError.InvalidResponse "amount_msat exceeds i64::MAX")
                  (i64_try_from_u64 (MilliSatoshi.as_u64 a))
    | None => Ok 0%Z
    end in
  let req := {| hash := array_bytes (PaymentHash.as_bytes
                                       (AddHoldInvoiceParams.payment_hash params));
                value_msat := value_msat;
                expiry_ := AddHoldInvoiceParams.expiry_seconds params;
                memo_ := default "" (AddHoldInvoiceParams.memo params) |} in
  let? payment_request := map_err LndError.from_status (rpc req) in
  Ok (MkAddHoldInvoiceResponse (BoltInvoice.new payment_request)).

Definition settle_invoice (connected : bool) (rpc : list byte -> result unit Status)
    (preimage : Preimage.t) : result unit LndError.t :=
  let? _ := require_inner connected in
  map_err LndError.from_status (rpc (array_bytes (Preimage.as_bytes preimage))).

Definition cancel_invoice (connected : bool) (rpc : list byte -> result unit Status)
    (payment_hash : PaymentHash.t) : result unit LndError.t :=
  let? _ := require_inner connected in
  map_err LndError.from_status (rpc (array_bytes (PaymentHash.as_bytes payment_hash))).

Definition lookup_invoice (connected : bool)
    (rpc : list byte -> result lnrpc.Invoice Status) (payment_hash : PaymentHash.t) :
    result InvoiceUpdate.t LndError.t :=
  let? _ := require_inner connected in
  let? invoice := map_err LndError.from_status
                    (rpc (array_bytes (PaymentHash.as_bytes payment_hash))) in
  let? update := lnd_invoice_to_update invoice in
  if decide (InvoiceUpdate.payment_hash update <> payment_hash) then
    Err (LndError.InvalidResponse
      ("lookup_invoice: requested " +:+ PaymentHash.to_hex payment_hash +:+
       ", LND returned " +:+ PaymentHash.to_hex (InvoiceUpdate.payment_hash update)))
  else Ok update.

Definition lookup_payment (connected : bool)
    (rpc : list byte -> result (result (option lnrpc.Payment) Status) Status)
    (payment_hash : PaymentHash.t) : result SendPaymentResponse.t LndError.t :=
  let? _ := require_inner connected in
  let? stream := map_err map_track_payment_status
                   (rpc (array_bytes (PaymentHash.as_bytes payment_hash))) in
  let? message := map_err map_track_payment_status stream in
  let? payment :=
    ok_or (LndError.InvalidResponse
             "TrackPaymentV2 stream closed without yielding a Payment") message in
  let? resp := lnd_payment_to_send_response payment in
  if decide (SendPaymentResponse.payment_hash resp <> payment_hash) then
    Err (LndError.InvalidResponse
      ("lookup_payment: requested " +:+ PaymentHash.to_hex payment_hash +:+
       ", LND returned " +:+ PaymentHash.to_hex (SendPaymentResponse.payment_hash resp)))
  else Ok resp.

Record SendPaymentRequest : Type := MkSendPaymentRequest {
  payment_request : string; fee_limit_msat : Z; timeout_seconds_ : Z;
  no_inflight_updates : bool }.

Definition send_payment (connected : bool)
    (rpc : SendPaymentRequest -> result (result (option lnrpc.Payment) Status) Status)
    (params : SendPaymentParams.t) : result SendPaymentResponse.t LndError.t :=
  let? _ := require_inner connected in
  let? fee_limit_msat :=
    ok_or (LndError.InvalidResponse "max_fee_msat exceeds i64::MAX")
      (i64_try_from_u64 (MilliSatoshi.as_u64 (SendPaymentParams.max_fee_msat params))) in
  let request := {| payment_request :=
                      BoltInvoice.as_str (SendPaymentParams.bolt_invoice params);
                    fee_limit_msat := fee_limit_msat;
                    timeout_seconds_ := u32_as_i32 (SendPaymentParams.timeout_seconds params);
                    no_inflight_updates := false |} in
  let? stream := map_err LndError.from_status (rpc request) in
  let? message := map_err LndError.from_status stream in
  let? payment :=
    ok_or (LndError.InvalidResponse
             "SendPaymentV2 stream closed without yielding a Payment") message in
  lnd_payment_to_send_response payment.

Record RouteFeeResponse : Type := MkRouteFeeResponse {
  routing_fee_msat : Z; time_lock_delay : Z; rf_failure_reason : Z }.

Definition fee_probe (connected : bool) (rpc : string -> result RouteFeeResponse Status)
    (params : FeeProbeParams) : result FeeProbeResponse LndError.t :=
  let? _ := require_inner connected in
  let? resp := map_err LndError.from_status
                 (rpc (BoltInvoice.as_str (fp_bolt_invoice params))) in
  if negb (rf_failure_reason resp =?
           PaymentFailureReason_as_i32 lnrpc.FailureReasonNone)%Z then
    Err (map_failure_reason_to_lnd_error (rf_failure_reason resp))
  else
    let? fee_msat :=
      map_err (fun e => LndError.InvalidResponse
                 ("estimate_route_fee.routing_fee_msat: " +:+ MilliSatoshiError_to_string e))
        (MilliSatoshi.try_from_i64 (routing_fee_msat resp)) in
    let expiry_seconds :=
      if ((0 <=? time_lock_delay resp) && (time_lock_delay resp <=? u32_max))%Z
      then time_lock_delay resp else 0%Z in
    Ok (MkFeeProbeResponse fee_msat expiry_seconds).
End Mapping.

(** * Subscription streams (subscription.rs, invoice.rs)

    What one turn of a stream pump sees: a message with the outcome of forwarding it to
    the channel, the end of the stream, a stream error, or the cancellation signal. *)

Inductive send_outcome : Type := Sent | ReceiverDropped | CancelledInSend.

Inductive recv (A : Type) : Type :=
| Message (a : A) (send : send_outcome)
| Closed
| StreamError (s : Status)
| CancelSignal.
Arguments Message {A} a send.
Arguments Closed {A}.
Arguments StreamError {A} s.
Arguments CancelSignal {A}.

Inductive SubscribeInvoiceExit : Type := Terminal | Cancelled.
#[export] Instance SubscribeInvoiceExit_eq_dec : EqDecision SubscribeInvoiceExit.
Proof. solve_decision. Defined.

Definition is_terminal_state (s : LndInvoiceState.t) : bool :=
  match s with LndInvoiceState.Settled | LndInvoiceState.Canceled => true | _ => false end.

Section Streams.
Context `{Hex} `{LndProto}.

(** [subscription.rs::drive_stream] on the turns of one stream: the updates put into
    the channel, and how the pump ends ([None]: it is still waiting). *)
Fixpoint drive_payment_stream (turns : list (recv lnrpc.Payment)) :
    list PaymentUpdate.t * option (result unit LndError.t) :=
  match turns with
  | [] => ([], None)
  | CancelSignal :: _ => ([], Some (Ok tt))
  | StreamError s :: _ => ([], Some (Err (LndError.from_status s)))
  | Closed :: _ => ([], Some (Ok tt))
  | Message payment send :: turns =>
      match payment_to_update payment with
      | Err _ => drive_payment_stream turns
      | Ok update =>
          match send with
          | CancelledInSend | ReceiverDropped => ([], Some (Ok tt))
          | Sent => let (rest, res) := drive_payment_stream turns in (update :: rest, res)
          end
      end
  end.

(** [invoice.rs::drive_stream]. *)
Fixpoint drive_invoice_stream (payment_hash : PaymentHash.t)
    (turns : list (recv lnrpc.Invoice)) :
    list InvoiceUpdate.t * option (result (option SubscribeInvoiceExit) LndError.t) :=
  match turns with
  | [] => ([], None)
  | CancelSignal :: _ => ([], Some (Ok (Some Cancelled)))
  | StreamError s :: _ => ([], Some (Err (LndError.from_status s)))
  | Closed :: _ => ([], Some (Ok None))
  | Message invoice send :: turns =>
      match lnd_invoice_to_update invoice with
      | Err _ => drive_invoice_stream payment_hash turns
      | Ok update =>
          if decide (InvoiceUpdate.payment_hash update <> payment_hash) then
            drive_invoice_stream payment_hash turns
          else
            match send with
            | CancelledInSend | ReceiverDropped => ([], Some (Ok (Some Cancelled)))
            | Sent =>
                if is_terminal_state (InvoiceUpdate.state update) then
                  ([update], Some (Ok (Some Terminal)))
                else
                  let (rest, res) := drive_invoice_stream payment_hash turns in
                  (update :: rest, res)
            end
      end
  end.

(** One attempt of the reconnect loop of [subscribe_invoice]: the cancellation flag at
    its head, the outcome of opening the stream, the turns it saw, the flag after the
    pump, and whether the cancellation fired during the two-second pause. *)
Record attempt : Type := MkAttempt {
  cancelled_before : bool;
  opened : result (list (recv lnrpc.Invoice)) LndError.t;
  cancelled_after : bool;
  cancelled_in_sleep : bool
}.

Fixpoint subscribe_invoice_loop (payment_hash : PaymentHash.t) (attempts : list attempt) :
    list InvoiceUpdate.t * option (result SubscribeInvoiceExit LndError.t) :=
  match attempts with
  | [] => ([], None)
  | a :: attempts =>
      if cancelled_before a then ([], Some (Ok Cancelled))
      else
        let pause :=
          if cancelled_in_sleep a then ([], Some (Ok Cancelled))
          else subscribe_invoice_loop payment_hash attempts in
        match opened a with
        | Err _ => pause
        | Ok turns =>
            let (sent, res) := drive_invoice_stream payment_hash turns in
            match res with
            | None => (sent, None)
            | Some res =>
                if cancelled_after a then (sent, Some (Ok Cancelled))
                else match res with
                | Ok (Some exit) => (sent, Some (Ok exit))
                | Ok None | Err _ => let (rest, out) := pause in (sent ++ rest, out)
                end
            end
        end
  end.

Definition subscribe_invoice (connected : bool) (payment_hash : PaymentHash.t)
    (attempts : list attempt) :
    list InvoiceUpdate.t * option (result SubscribeInvoiceExit LndError.t) :=
  if negb connected then ([], Some (Ok Cancelled))
  else subscribe_invoice_loop payment_hash attempts.

(** The same for the reconnect loop of [subscribe_payments]. *)
Record payments_attempt : Type := MkPaymentsAttempt {
  payments_cancelled_before : bool;
  payments_opened : result (list (recv lnrpc.Payment)) LndError.t;
  payments_cancelled_after : bool;
  payments_cancelled_in_sleep : bool
}.

Fixpoint subscribe_payments_loop (attempts : list payments_attempt) :
    list PaymentUpdate.t * option (result unit LndError.t) :=
  match attempts with
  | [] => ([], None)
  | a :: attempts =>
      if payments_cancelled_before a then ([], Some (Ok tt))
      else
        let pause :=
          if payments_cancelled_in_sleep a then ([], Some (Ok tt))
          else subscribe_payments_loop attempts in
        match payments_opened a with
        | Err _ => pause
        | Ok turns =>
            let (sent, res) := drive_payment_stream turns in
            match res with
            | None => (sent, None)
            | Some _ =>
                if payments_cancelled_after a then (sent, Some (Ok tt))
                else let (rest, out) := pause in (sent ++ rest, out)
            end
        end
  end.

(** Without a connection it waits for the cancellation; [cancelled] says that it came. *)
Definition subscribe_payments (connected cancelled : bool) (attempts : list payments_attempt) :
    list PaymentUpdate.t * option (result unit LndError.t) :=
  if negb connected then ([], if cancelled then Some (Ok tt) else None)
  else subscribe_payments_loop attempts.

(** The attempts in which the cancellation has fired. *)
Definition payments_cancelled (a : payments_attempt) : bool :=
  payments_cancelled_before a || payments_cancelled_after a || payments_cancelled_in_sleep a.

(** The payment subscription ends for one reason only: the cancellation.  It never reports
    an error, whatever the stream does and even when nobody receives the updates. *)
Lemma subscribe_payments_exit connected cancelled attempts sent r :
  subscribe_payments connected cancelled attempts = (sent, Some r) ->
  r = Ok tt /\ (if connected then existsb payments_cancelled attempts else cancelled) = true.
Proof.
  unfold subscribe_payments. destruct connected; simpl; [| by destruct cancelled; intros [= <- <-]].
  revert sent. induction attempts as [| a attempts IH]; intros sent; simpl; [done |].
  unfold payments_cancelled at 1.
  destruct (payments_cancelled_before a); [by intros [= <- <-] |].
  destruct (payments_opened a) as [turns |];
    [destruct (drive_payment_stream turns) as [s [res |]]; [| done];
     destruct (payments_cancelled_after a); [by intros [= <- <-] |] |];
    (destruct (payments_cancelled_in_sleep a); [by intros [= <- <-]; rewrite ?orb_true_r |]).
  - destruct (subscribe_payments_loop attempts) as [rest out]. intros [= <- ->].
    destruct (IH rest eq_refl) as [-> ->]. by rewrite orb_true_r.
  - intros Hl. destruct (IH _ Hl) as [-> ->]. by rewrite orb_true_r.
Qed.
End Streams.

(** * Theorems *)

Lemma msat_or_zero_spec v :
  is_i64 v ->
  let m := msat_or_zero v in
  (Z.max 0 v <= MilliSatoshi.as_u64 m < Z.max 0 v + 1000)%Z /\
  (MilliSatoshi.as_u64 m mod 1000 = 0)%Z /\ MilliSatoshi.wf m.
Proof.
  intros Hv m. unfold m, msat_or_zero, MilliSatoshi.try_from_i64.
  assert (Hcase : MilliSatoshi.as_u64 (MilliSatoshi.round_up_to_sat
            (MilliSatoshi.new (Z.max 0 v))) = (div_ceil (Z.max 0 v) 1000 * 1000)%Z).
  { simpl. apply wrap_u64_small. pose proof (div_ceil_spec (Z.max 0 v) 1000).
    unfold_width; lia. }
  assert (Heq : MilliSatoshi.round_up_to_sat
            (unwrap_or (if (v <? 0)%Z then Err (Negative v)
                        else Ok (MilliSatoshi.new (i64_as_u64 v))) MilliSatoshi.ZERO) =
          MilliSatoshi.round_up_to_sat (MilliSatoshi.new (Z.max 0 v))).
  { destruct (Z.ltb_spec v 0); simpl.
    - by rewrite Z.max_l by lia.
    - by rewrite i64_as_u64_small, Z.max_r by (unfold_width; lia). }
  rewrite Heq, Hcase. pose proof (div_ceil_spec (Z.max 0 v) 1000).
  split_and!; [lia | lia | apply Z.mod_mul; lia | apply wrap_u64_range..].
Qed.

(** ** What LND's payment message says

    The specification of the decoder, field by field. *)

(** A whole number of satoshis, the least above the reported millisatoshis; a negative
    report counts as zero. *)
Definition rounds (v : Z) (m : MilliSatoshi.t) : Prop :=
  (Z.max 0 v <= MilliSatoshi.as_u64 m < Z.max 0 v + 1000)%Z /\
  (MilliSatoshi.as_u64 m mod 1000 = 0)%Z.

Lemma rounds_unique v m m' : rounds v m -> rounds v m' -> m = m'.
Proof.
  destruct m as [a], m' as [b]. unfold rounds. cbn. intros [Ha Ham] [Hb Hbm]. f_equal.
  Z.to_euclidean_division_equations; lia.
Qed.

Lemma msat_or_zero_rounds v : is_i64 v -> rounds v (msat_or_zero v).
Proof. intros Hv. by destruct (msat_or_zero_spec v Hv) as (? & ? & _). Qed.

Definition status_says (s : lnrpc.PaymentStatus) (st : SendPaymentStatus.t) : Prop :=
  match st with
  | SendPaymentStatus.InFlight => s = lnrpc.PS_Initiated \/ s = lnrpc.PS_InFlight
  | SendPaymentStatus.Succeeded => s = lnrpc.PS_Succeeded
  | SendPaymentStatus.Failed => s = lnrpc.PS_Failed
  end.

Definition reason_says (r : option lnrpc.PaymentFailureReason) (f : FailureReason.t) : Prop :=
  match f with
  | FailureReason.Timeout => r = Some lnrpc.FailureReasonTimeout
  | FailureReason.NoRoute => r = Some lnrpc.FailureReasonNoRoute
  | FailureReason.InsufficientBalance => r = Some lnrpc.FailureReasonInsufficientBalance
  | FailureReason.IncorrectPaymentDetails =>
      r = Some lnrpc.FailureReasonIncorrectPaymentDetails
  | FailureReason.Other text =>
      (text = "none" /\ r = Some lnrpc.FailureReasonNone) \/
      (text = "canceled" /\ r = Some lnrpc.FailureReasonCanceled) \/
      (text = "LND failure_reason: error" /\ (r = Some lnrpc.FailureReasonError \/ r = None))
  end.

Section Theorems.
Context `{HexLaws} `{LndProto}.

Definition hop_says (raw : lnrpc.Hop) (hop : Hop.t) : Prop :=
  hex_decode (lnrpc.pub_key raw) = Ok (array_bytes (Pubkey.as_bytes (Hop.pub_key hop))) /\
  Hop.channel_id hop = lnrpc.chan_id raw /\
  rounds (lnrpc.fee_msat raw) (Hop.fee_msat hop) /\
  rounds (lnrpc.amt_to_forward_msat raw) (Hop.amt_msat hop) /\
  Hop.expiry hop = lnrpc.expiry raw.

Definition hex_array (n : nat) (text : string) : Prop :=
  exists a : array n, hex_decode text = Ok (array_bytes a).

(** Hop by hop; one without a readable key is left out. *)
Inductive hops_say : list lnrpc.Hop -> list Hop.t -> Prop :=
| hops_none : hops_say [] []
| hops_next raw hop raws hops :
    hop_says raw hop -> hops_say raws hops -> hops_say (raw :: raws) (hop :: hops)
| hops_skip raw raws hops :
    ~ hex_array 33 (lnrpc.pub_key raw) -> hops_say raws hops -> hops_say (raw :: raws) hops.

(** The hops of the first attempt that has a route. *)
Inductive first_route : list lnrpc.HtlcAttempt -> list lnrpc.Hop -> Prop :=
| first_none : first_route [] []
| first_here r htlcs : first_route (lnrpc.MkHtlc (Some r) :: htlcs) (lnrpc.hops r)
| first_later htlcs raws :
    first_route htlcs raws -> first_route (lnrpc.MkHtlc None :: htlcs) raws.

Record payment_says (payment : lnrpc.Payment) (resp : SendPaymentResponse.t) : Prop := {
  says_hash :
    hex_decode (lnrpc.payment_hash payment) =
      Ok (array_bytes (PaymentHash.as_bytes (SendPaymentResponse.payment_hash resp)));
  says_preimage p :
    SendPaymentResponse.payment_preimage resp = Some p <->
    hex_decode (lnrpc.payment_preimage payment) = Ok (array_bytes (Preimage.as_bytes p));
  says_status :
    exists s, PaymentStatus_try_from (lnrpc.status payment) = Some s /\
      status_says s (SendPaymentResponse.status resp);
  says_fee : rounds (lnrpc.fee_msat_ payment) (SendPaymentResponse.fees_paid_msat resp);
  says_hops :
    exists raws, first_route (lnrpc.htlcs payment) raws /\
      hops_say raws (SendPaymentResponse.route_hops resp);
  says_reason :
    match SendPaymentResponse.failure_reason resp with
    | Some f => SendPaymentResponse.status resp = SendPaymentStatus.Failed /\
        reason_says (PaymentFailureReason_try_from (lnrpc.failure_reason payment)) f
    | None => SendPaymentResponse.status resp <> SendPaymentStatus.Failed
    end
}.

(** The amounts of the message fit the protobuf's [int64]. *)
Definition int64_fields (payment : lnrpc.Payment) : Prop :=
  is_i64 (lnrpc.fee_msat_ payment) /\
  forall htlc r, htlc ∈ lnrpc.htlcs payment -> lnrpc.route htlc = Some r ->
    Forall (fun raw => is_i64 (lnrpc.fee_msat raw) /\ is_i64 (lnrpc.amt_to_forward_msat raw))
      (lnrpc.hops r).

(** *** The decoder meets it *)

Lemma hash_from_str_says text h :
  PaymentHash.from_str text = Ok h <->
  hex_decode text = Ok (array_bytes (PaymentHash.as_bytes h)).
Proof.
  unfold PaymentHash.from_str. rewrite <- (array_from_str_Ok PaymentHash.EHex PaymentHash.InvalidLength).
  destruct h as [a]. destruct (array_from_str _ _ _ _); cbn; naive_solver.
Qed.

Lemma pubkey_from_str_says text k :
  Pubkey.from_str text = Ok k <-> hex_decode text = Ok (array_bytes (Pubkey.as_bytes k)).
Proof.
  unfold Pubkey.from_str. rewrite <- (array_from_str_Ok Pubkey.EHex Pubkey.InvalidLength).
  destruct k as [a]. destruct (array_from_str _ _ _ _); cbn; naive_solver.
Qed.

Lemma parse_preimage_says text p :
  parse_preimage text = Some p <->
  hex_decode text = Ok (array_bytes (Preimage.as_bytes p)).
Proof.
  assert (Hp : Preimage.from_str text = Ok p <->
    hex_decode text = Ok (array_bytes (Preimage.as_bytes p))).
  { unfold Preimage.from_str. rewrite <- (array_from_str_Ok Preimage.EHex Preimage.InvalidLength).
    destruct p as [a]. destruct (array_from_str _ _ _ _); cbn; naive_solver. }
  rewrite <- Hp. unfold parse_preimage.
  assert (Hlen : Preimage.from_str text = Ok p -> String.length text = 64).
  { intros Hd%Hp%hex_decode_length. by rewrite array_length in Hd. }
  destruct (String.eqb_spec text "") as [-> |]; [by split; [| intros ?%Hlen] |].
  destruct (Nat.eqb_spec (String.length text) 64) as [| Hne]; cbn;
    [destruct (Preimage.from_str text); naive_solver | by split; [| intros ?%Hlen]].
Qed.

Lemma map_payment_status_says v st :
  map_payment_status v = Ok st <->
  exists s, PaymentStatus_try_from v = Some s /\ status_says s st.
Proof.
  unfold map_payment_status. destruct (PaymentStatus_try_from v) as [s |]; cbn; [| naive_solver].
  split; [intros Hs; exists s; split; [done |]; destruct s; cbn in Hs; simplify_eq; cbn; auto |].
  intros (s' & [= <-] & Hs). destruct st; cbn in Hs; naive_solver.
Qed.

Lemma map_failure_reason_says v :
  reason_says (PaymentFailureReason_try_from v) (map_failure_reason_to_typed v).
Proof.
  unfold map_failure_reason_to_typed.
  destruct (PaymentFailureReason_try_from v) as [[] |]; cbn; auto 10.
Qed.

Lemma map_hop_says raw :
  is_i64 (lnrpc.fee_msat raw) -> is_i64 (lnrpc.amt_to_forward_msat raw) ->
  match map_hop raw with
  | Some hop => hop_says raw hop
  | None => ~ hex_array 33 (lnrpc.pub_key raw)
  end.
Proof.
  intros Hf Ha. unfold map_hop. destruct (Pubkey.from_str _) as [k | e] eqn:Hk.
  - apply pubkey_from_str_says in Hk.
    split_and!; cbn; [done | done | by apply msat_or_zero_rounds.. | done].
  - intros [a Hd]. assert (Hok : Pubkey.from_str (lnrpc.pub_key raw) = Ok (Pubkey.new a))
      by by apply pubkey_from_str_says. congruence.
Qed.

Lemma map_hops_say raws :
  Forall (fun raw => is_i64 (lnrpc.fee_msat raw) /\ is_i64 (lnrpc.amt_to_forward_msat raw)) raws ->
  hops_say raws (omap map_hop raws).
Proof.
  induction 1 as [| raw raws [Hf Ha] _ IH]; csimpl; [constructor |].
  pose proof (map_hop_says raw Hf Ha) as Hhop.
  destruct (map_hop raw); [by constructor | by apply hops_skip].
Qed.

Lemma first_route_found htlcs :
  first_route htlcs (match find_map lnrpc.route htlcs with Some r => lnrpc.hops r | None => [] end).
Proof. induction htlcs as [| [[r |]] htlcs IH]; cbn; by constructor. Qed.

Lemma find_map_in {A B} (f : A -> option B) l b : find_map f l = Some b -> exists a, a ∈ l /\ f a = Some b.
Proof.
  induction l as [| a l IH]; cbn; [done |]. destruct (f a) as [b' |] eqn:Ha.
  - intros [= <-]. exists a. split; [by left | done].
  - intros (a' & Hin & ?)%IH. exists a'. split; [by right | done].
Qed.

(** *** It leaves nothing open *)

Lemma reason_says_unique r f f' : reason_says r f -> reason_says r f' -> f = f'.
Proof. destruct f, f'; cbn; naive_solver. Qed.

Lemma first_route_unique htlcs raws raws' :
  first_route htlcs raws -> first_route htlcs raws' -> raws = raws'.
Proof. intros Hr. revert raws'. induction Hr; inversion 1; auto. Qed.

Lemma hop_says_unique raw hop hop' : hop_says raw hop -> hop_says raw hop' -> hop = hop'.
Proof.
  destruct hop as [[k] c f a e], hop' as [[k'] c' f' a' e']. unfold hop_says. cbn.
  intros (Hk & -> & Hf & Ha & ->) (Hk' & -> & Hf' & Ha' & ->).
  rewrite Hk in Hk'. injection Hk' as Hkk%array_ext. subst k'.
  f_equal; by eapply rounds_unique.
Qed.

Lemma hop_readable raw hop : hop_says raw hop -> hex_array 33 (lnrpc.pub_key raw).
Proof. intros [Hk _]. by eexists. Qed.

Lemma hops_say_unique raws hops hops' : hops_say raws hops -> hops_say raws hops' -> hops = hops'.
Proof.
  intros Hs. revert hops'.
  induction Hs as [| raw hop raws hops Hhop _ IH | raw raws hops Hno _ IH]; inversion 1; subst.
  - done.
  - f_equal; [by eapply hop_says_unique | by apply IH].
  - exfalso. eauto using hop_readable.
  - exfalso. eauto using hop_readable.
  - by apply IH.
Qed.

Lemma payment_says_unique payment resp resp' :
  payment_says payment resp -> payment_says payment resp' -> resp = resp'.
Proof.
  destruct resp as [[h] pre st fee hops reason], resp' as [[h'] pre' st' fee' hops' reason'].
  intros [Hh Hp (s & Hs & Hst) Hf (raws & Hr & Hhops) Hre]
         [Hh' Hp' (s' & Hs' & Hst') Hf' (raws' & Hr' & Hhops') Hre']. cbn in *.
  rewrite Hh in Hh'. injection Hh' as Hhh%array_ext. subst h'.
  assert (pre = pre') as <-.
  { destruct pre as [p |]; [symmetry; by apply Hp', Hp |]. destruct pre' as [p |]; [| done].
    by apply Hp, Hp'. }
  rewrite Hs in Hs'. injection Hs' as <-.
  assert (st = st') as <- by (destruct st, st'; cbn in *; naive_solver).
  rewrite (rounds_unique _ _ _ Hf Hf'). pose proof (first_route_unique _ _ _ Hr Hr') as <-.
  rewrite (hops_say_unique _ _ _ Hhops Hhops'). f_equal.
  destruct reason as [f |], reason' as [f' |]; try tauto.
  f_equal. destruct Hre as [_ Hre], Hre' as [_ Hre']. by eapply reason_says_unique.
Qed.

Lemma decoded_says payment resp :
  int64_fields payment -> lnd_payment_to_send_response payment = Ok resp ->
  payment_says payment resp.
Proof.
  intros [Hfee Hhops]. unfold lnd_payment_to_send_response, parse_hex_payment_hash.
  intros (h & Hh%map_err_ok%hash_from_str_says & (s & Hs & Hr)%result_bind_ok)%result_bind_ok.
  injection Hr as <-. split; cbn.
  - done.
  - apply parse_preimage_says.
  - by apply map_payment_status_says.
  - by apply msat_or_zero_rounds.
  - eexists. split; [apply first_route_found |]. unfold first_route_hops.
    destruct (find_map _ _) as [r |] eqn:Hr; [| constructor]. apply map_hops_say.
    apply find_map_in in Hr as (htlc & Hin & Hr). by eapply Hhops.
  - case_decide as Hst; [| done]. split; [done | apply map_failure_reason_says].
Qed.

(** C36. What the adapter reports about a payment is exactly what LND's message says, field
    by field, and nothing else is possible: the hash and the preimage are the 32 bytes their
    hex fields denote, no preimage being reported just when the field denotes none; the
    status follows LND's, initiated counting as in flight; fee, hop fees and hop amounts
    are the reported ones rounded up to whole satoshis; the hops are, in order, those of the
    first attempt with a route, each with its own key, channel, fee, amount and expiry, the
    ones without a readable key left out; a failed payment, and no other, has a reason, the
    one LND names.  A message is refused exactly when its hash does not denote 32 bytes or
    its status is none of the known ones. *)
Theorem send_response_faithful payment :
  int64_fields payment ->
  (forall resp, lnd_payment_to_send_response payment = Ok resp <-> payment_says payment resp) /\
  ((exists e, lnd_payment_to_send_response payment = Err e) <->
   ~ hex_array 32 (lnrpc.payment_hash payment) \/
   PaymentStatus_try_from (lnrpc.status payment) = None \/
   PaymentStatus_try_from (lnrpc.status payment) = Some lnrpc.PS_Unknown).
Proof.
  intros Hint.
  assert (Hok : hex_array 32 (lnrpc.payment_hash payment) ->
    (exists s st, PaymentStatus_try_from (lnrpc.status payment) = Some s /\ status_says s st) ->
    exists resp, lnd_payment_to_send_response payment = Ok resp).
  { intros [a Ha] (s & st & Hs & Hst). unfold lnd_payment_to_send_response, parse_hex_payment_hash.
    rewrite (proj2 (hash_from_str_says _ (PaymentHash.new a)) Ha).
    rewrite (proj2 (map_payment_status_says _ st)) by by exists s. by eexists. }
  split.
  - intros resp. split; [by apply decoded_says |]. intros Hsays.
    destruct Hok as [resp' Hresp'].
    + destruct Hsays as [Hh _ _ _ _ _]. by eexists.
    + destruct Hsays as [_ _ (s & Hs & Hst) _ _ _]. by exists s, (SendPaymentResponse.status resp).
    + by rewrite Hresp', (payment_says_unique _ _ _ (decoded_says _ _ Hint Hresp') Hsays).
  - split.
    + intros [e He]. destruct (PaymentStatus_try_from (lnrpc.status payment)) as [s |] eqn:Hs; [| auto].
      assert (Hcase : s = lnrpc.PS_Unknown \/ exists st, status_says s st).
      { destruct s; [by left | right.. ]; [by exists SendPaymentStatus.InFlight; right
          | by exists SendPaymentStatus.Succeeded | by exists SendPaymentStatus.Failed
          | by exists SendPaymentStatus.InFlight; left]. }
      destruct Hcase as [-> | [st Hst]]; [auto |]. left. intros Hh.
      destruct Hok as [resp Hresp]; [done | by exists s, st |]. congruence.
    + intros Hbad. destruct (lnd_payment_to_send_response payment) as [resp | e] eqn:Hresp;
        [exfalso | by exists e].
      destruct (decoded_says _ _ Hint Hresp) as [Hh _ (s & Hs & Hst) _ _ _].
      destruct Hbad as [Hno | [Hno | Hno]]; [by apply Hno; eexists | congruence |].
      rewrite Hs in Hno. injection Hno as ->.
      destruct (SendPaymentResponse.status resp); cbn in Hst; naive_solver.
Qed.

(** A lookup never answers about another payment or invoice than the one it
    was asked for, and reports a payment as unknown only when LND answered NotFound (so
    no transport failure can be mistaken for one). *)
Theorem lookup_same_hash connected rpc rpc' h :
  (forall resp, lookup_payment connected rpc h = Ok resp ->
     SendPaymentResponse.payment_hash resp = h) /\
  (forall u, lookup_invoice connected rpc' h = Ok u -> InvoiceUpdate.payment_hash u = h) /\
  (lookup_payment connected rpc h = Err LndError.PaymentNotFound ->
     connected = true /\
     exists m, rpc (array_bytes (PaymentHash.as_bytes h)) = Err (MkStatus Code_NotFound m) \/
               rpc (array_bytes (PaymentHash.as_bytes h)) =
                 Ok (Err (MkStatus Code_NotFound m))).
Proof.
  unfold lookup_payment, lookup_invoice, require_inner. split_and!.
  - intros resp Hr. repeat apply result_bind_ok in Hr as (? & ? & Hr).
    case_decide as Hd; [done |]. by injection Hr as <-.
  - intros u Hr. repeat apply result_bind_ok in Hr as (? & ? & Hr).
    case_decide as Hd; [done |]. by injection Hr as <-.
  - destruct connected; simpl; [| done]. destruct (rpc _) as [stream | s]; simpl.
    + destruct stream as [m | s]; simpl.
      * destruct m as [p |]; simpl; [| done].
        unfold lnd_payment_to_send_response, parse_hex_payment_hash, map_payment_status.
        destruct (PaymentHash.from_str _); simpl; [| done].
        destruct (PaymentStatus_try_from _) as [[] |]; simpl; try done; by case_decide.
      * unfold map_track_payment_status. destruct s as [c msg]. simpl.
        case_decide as Hc; [subst c; eauto | done].
    + unfold map_track_payment_status. destruct s as [c msg]. simpl.
      case_decide as Hc; [subst c; eauto | done].
Qed.

(** ** What a listener forwards *)

(** The message, decoded, when it is about [h]. *)
Definition heard (h : PaymentHash.t) (invoice : lnrpc.Invoice) : option InvoiceUpdate.t :=
  match lnd_invoice_to_update invoice with
  | Ok u => if decide (InvoiceUpdate.payment_hash u = h) then Some u else None
  | Err _ => None
  end.

(** The messages of one stream, up to its end, and whether it has not ended yet. *)
Fixpoint messages (turns : list (recv lnrpc.Invoice)) : list lnrpc.Invoice :=
  match turns with Message invoice _ :: turns => invoice :: messages turns | _ => [] end.

Fixpoint waiting (turns : list (recv lnrpc.Invoice)) : bool :=
  match turns with [] => true | Message _ _ :: turns => waiting turns | _ => false end.

(** The messages of the streams one after the other; after one that has not ended there is
    no other yet. *)
Fixpoint delivered (attempts : list attempt) : list lnrpc.Invoice :=
  match attempts with
  | [] => []
  | a :: attempts =>
      match opened a with
      | Ok turns => messages turns ++ (if waiting turns then [] else delivered attempts)
      | Err _ => delivered attempts
      end
  end.

(** The listener was told to stop, or found nobody to send to. *)
Definition turn_stops (t : recv lnrpc.Invoice) : bool :=
  match t with
  | CancelSignal | Message _ ReceiverDropped | Message _ CancelledInSend => true
  | _ => false
  end.
Definition stopped (a : attempt) : bool :=
  cancelled_before a || cancelled_after a || cancelled_in_sleep a ||
  match opened a with Ok turns => existsb turn_stops turns | Err _ => false end.

Definition terminal (u : InvoiceUpdate.t) : bool := is_terminal_state (InvoiceUpdate.state u).

(** No settled or canceled update among [l]. *)
Definition quiet (l : list InvoiceUpdate.t) : Prop := Forall (fun u => terminal u = false) l.

(** A settled or canceled update is the last, and then [ended] holds; otherwise [open]. *)
Definition closes (sent : list InvoiceUpdate.t) (ended open : Prop) : Prop :=
  (exists l u, sent = l ++ [u] /\ quiet l /\ terminal u = true /\ ended) \/ (quiet sent /\ open).

(** [sent] is what was heard in a beginning of [from], the whole of it when [whole]. *)
Definition relays (h : PaymentHash.t) (from : list lnrpc.Invoice) (sent : list InvoiceUpdate.t)
    (whole : Prop) : Prop :=
  exists seen rest, from = seen ++ rest /\ sent = omap (heard h) seen /\ (whole -> rest = []).

Lemma relays_nil h from (whole : Prop) : ~ whole -> relays h from [] whole.
Proof. intros Hno. by exists [], from. Qed.

Lemma relays_skip h i from sent whole :
  heard h i = None -> relays h from sent whole -> relays h (i :: from) sent whole.
Proof.
  intros Hi (seen & rest & -> & -> & Hw). exists (i :: seen), rest. csimpl. by rewrite Hi.
Qed.

Lemma relays_next h i u from sent whole :
  heard h i = Some u -> relays h from sent whole -> relays h (i :: from) (u :: sent) whole.
Proof.
  intros Hi (seen & rest & -> & -> & Hw). exists (i :: seen), rest. csimpl. by rewrite Hi.
Qed.

Lemma relays_app h from1 from2 sent1 sent2 (whole1 whole : Prop) :
  whole1 -> relays h from1 sent1 whole1 -> relays h from2 sent2 whole ->
  relays h (from1 ++ from2) (sent1 ++ sent2) whole.
Proof.
  intros Hw1 (seen1 & rest1 & -> & -> & Hall) (seen2 & rest2 & -> & -> & Hall2).
  rewrite (Hall Hw1), app_nil_r. exists (seen1 ++ seen2), rest2.
  by rewrite app_assoc, omap_app.
Qed.

(** A stream that was not read to its end is a beginning of everything. *)
Lemma relays_cut h from more sent (whole whole' : Prop) :
  relays h from sent whole -> (whole' -> whole /\ more = []) -> relays h (from ++ more) sent whole'.
Proof.
  intros (seen & rest & -> & -> & Hall) Hw. exists seen, (rest ++ more).
  split; [by rewrite app_assoc |]. split; [done |]. intros [Hw1 ->]%Hw. by rewrite (Hall Hw1).
Qed.

Lemma closes_quiet l sent ended open : quiet l -> closes sent ended open -> closes (l ++ sent) ended open.
Proof.
  intros Hl [(k & u & -> & Hk & Hu & He) | [Hs Ho]]; [left | right; split; [by apply Forall_app_2 | done]].
  exists (l ++ k), u. rewrite app_assoc. split_and!; try done. by apply Forall_app_2.
Qed.

Lemma closes_mono sent (e1 o1 e2 o2 : Prop) :
  (e1 -> e2) -> (o1 -> o2) -> closes sent e1 o1 -> closes sent e2 o2.
Proof. unfold closes. naive_solver. Qed.

(** One stream. *)
Lemma drive_invoice_stream_sound h turns sent res :
  drive_invoice_stream h turns = (sent, res) ->
  relays h (messages turns) sent
    (res = None \/ res = Some (Ok None) \/ exists e, res = Some (Err e)) /\
  closes sent (res = Some (Ok (Some Terminal))) (res <> Some (Ok (Some Terminal))) /\
  (res = None <-> waiting turns = true /\ res <> Some (Ok (Some Cancelled)) /\
                  res <> Some (Ok (Some Terminal))) /\
  (res = Some (Ok (Some Cancelled)) -> existsb turn_stops turns = true).
Proof.
  assert (Hnil : forall (ended open : Prop), open -> closes [] ended open)
    by (intros ended open Ho; right; split; [constructor | done]).
  revert sent res. induction turns as [| t turns IH]; intros sent res.
  { intros [= <- <-]. split; [by exists [], [] |]. split; [by apply Hnil |]. by split. }
  destruct t as [invoice send | | s |]; cbn [drive_invoice_stream].
  2: { intros [= <- <-]. split; [by exists [], [] |]. split; [by apply Hnil |]. by split; [split; [| intros []] |]. }
  2: { intros [= <- <-]. split; [by exists [], [] |]. split; [by apply Hnil |]. by split; [split; [| intros []] |]. }
  2: { intros [= <- <-]. split; [by exists [], [] |]. split; [by apply Hnil |]. by split; [split; [| intros []] |]. }
  cbn [messages waiting existsb].
  assert (Hskip : heard h invoice = None -> drive_invoice_stream h turns = (sent, res) ->
    relays h (invoice :: messages turns) sent
      (res = None \/ res = Some (Ok None) \/ exists e, res = Some (Err e)) /\
    closes sent (res = Some (Ok (Some Terminal))) (res <> Some (Ok (Some Terminal))) /\
    (res = None <-> waiting turns = true /\ res <> Some (Ok (Some Cancelled)) /\
                    res <> Some (Ok (Some Terminal))) /\
    (res = Some (Ok (Some Cancelled)) ->
     turn_stops (Message invoice send) || existsb turn_stops turns = true)).
  { intros Hi Hd. destruct (IH _ _ Hd) as (Hr & Hc & Hw & Hs). split; [by apply relays_skip |].
    split; [done |]. split; [done |]. intros Hcan. by rewrite (Hs Hcan), orb_true_r. }
  destruct (lnd_invoice_to_update invoice) as [u |] eqn:Hu;
    [| by apply Hskip; unfold heard; rewrite Hu].
  case_decide as Hh; [apply Hskip; unfold heard; by rewrite Hu, decide_False |].
  clear Hskip.
  assert (Hi : heard h invoice = Some u) by (unfold heard; by rewrite Hu, decide_True).
  destruct send.
  2, 3: intros [= <- <-]; split; [apply relays_nil; naive_solver |];
    (split; [by apply Hnil |]); split; [split; [done | by intros (_ & [] & _)] | done].
  fold (terminal u). destruct (terminal u) eqn:Ht.
  - intros [= <- <-]. split; [| split; [| split; [split; [done | by intros (_ & _ & [])] | done]]].
    + exists [invoice], (messages turns). csimpl. rewrite Hi. naive_solver.
    + left. by exists [], u; split_and!; [| constructor | |].
  - destruct (drive_invoice_stream h turns) as [rest out]. intros [= <- <-].
    destruct (IH _ _ eq_refl) as (Hr & Hc & Hw & Hs). split; [by apply relays_next |].
    split; [apply (closes_quiet [u]); [by repeat constructor | done] |]. by split.
Qed.

(** What a listener that heard [from] has done so far, or by its end; [may_stop] says that
    it was told to stop, or that nobody received any more. *)
Definition listened (h : PaymentHash.t) (from : list lnrpc.Invoice) (may_stop : bool)
    (sent : list InvoiceUpdate.t) (out : option (result SubscribeInvoiceExit LndError.t)) : Prop :=
  relays h from sent (out = None) /\
  closes sent (out = Some (Ok Terminal) \/ out = Some (Ok Cancelled))
    (out = None \/ out = Some (Ok Cancelled)) /\
  (out = Some (Ok Cancelled) -> may_stop = true).

Lemma listened_cancelled h from : listened h from true [] (Some (Ok Cancelled)).
Proof.
  split; [by apply relays_nil |]. split; [right; split; [constructor | by right] | done].
Qed.

(** C35. Whatever the streams deliver and however often they are reopened, what the
    listener has forwarded is exactly the updates LND's messages decode to, those about the
    hash it is subscribed to, in the order the messages came, none left out, altered,
    repeated or made up, up to some message; up to the very last one as long as it is still
    listening.  It forwards nothing after a settled or canceled update.  It ends with
    [Terminal] only when it has forwarded one; otherwise only when it was cancelled or
    nobody receives any more, and never with an error.  Without a connection it forwards
    nothing. *)
Theorem subscribe_invoice_sound connected h attempts sent out :
  subscribe_invoice connected h attempts = (sent, out) ->
  if connected then listened h (delivered attempts) (existsb stopped attempts) sent out
  else sent = [] /\ out = Some (Ok Cancelled).
Proof.
  unfold subscribe_invoice. destruct connected; cbn [negb]; [| by intros [= <- <-]].
  revert sent out. induction attempts as [| a attempts IH]; intros sent out.
  { intros [= <- <-]. split; [by exists [], [] |].
    split; [right; by split; [constructor | left] | done]. }
  cbn [subscribe_invoice_loop delivered existsb]. fold (delivered attempts).
  destruct (cancelled_before a) eqn:Hb.
  { intros [= <- <-]. unfold stopped. rewrite Hb. apply listened_cancelled. }
  set (pause := if cancelled_in_sleep a then _ else _).
  assert (Hpause : forall s o, pause = (s, o) ->
    listened h (delivered attempts) (stopped a || existsb stopped attempts) s o).
  { intros s o. unfold pause. destruct (cancelled_in_sleep a) eqn:Hsl.
    - intros [= <- <-]. unfold stopped. rewrite Hsl, orb_true_r. apply listened_cancelled.
    - intros Hl. destruct (IH _ _ Hl) as (Hr & Hc & Hs). split; [done |]. split; [done |].
      intros Hcan. by rewrite (Hs Hcan), orb_true_r. }
  destruct (opened a) as [turns |] eqn:Ho; [| by apply Hpause].
  destruct (drive_invoice_stream h turns) as [fwd res] eqn:Hd.
  destruct (drive_invoice_stream_sound _ _ _ _ Hd) as (Hr & Hc & Hw & Hs).
  destruct res as [res |].
  2: { intros [= <- <-]. destruct (proj1 Hw eq_refl) as (-> & _). rewrite app_nil_r.
    split; [destruct Hr as (seen & rest & -> & -> & Hr); exists seen, rest; naive_solver |].
    split; [| done]. eapply closes_mono, Hc; [intros [=] | by left]. }
  destruct (cancelled_after a) eqn:Haf.
  { intros [= <- <-]. split; [eapply relays_cut; [exact Hr | intros [=]] |].
    split; [eapply closes_mono, Hc; by right |].
    intros _. unfold stopped. by rewrite Haf, orb_true_r. }
  assert (Hon : res = Ok None \/ (exists e, res = Err e) -> forall s o, pause = (s, o) ->
    listened h (messages turns ++ (if waiting turns then [] else delivered attempts))
      (stopped a || existsb stopped attempts) (fwd ++ s) o).
  { intros Hres s o Hp. destruct (Hpause s o Hp) as (Hr2 & Hc2 & Hs2).
    assert (Hwait : waiting turns = false).
    { destruct (waiting turns); [| done].
      assert (Hno : Some res = None); [apply Hw; split; [done |] | done]. naive_solver. }
    rewrite Hwait. split; [eapply relays_app; [| exact Hr | done]; naive_solver |].
    split; [| done]. apply closes_quiet; [| done].
    destruct Hc as [(? & ? & _ & _ & _ & Hx) | [Hq _]]; [naive_solver | done]. }
  destruct res as [[exit |] | e].
  - intros [= <- <-]. split; [eapply relays_cut; [exact Hr | intros [=]] |]. split.
    + destruct exit; eapply closes_mono, Hc; naive_solver.
    + intros [= ->]. unfold stopped. by rewrite Ho, (Hs eq_refl), orb_true_r.
  - destruct pause as [s o] eqn:Hp. intros [= <- <-]. by apply Hon; [left |].
  - destruct pause as [s o] eqn:Hp. intros [= <- <-]. by apply Hon; [right; exists e |].
Qed.
End Theorems.

(** ** Examples *)

Section Examples.
#[local] Existing Instance list_hex.
#[local] Existing Instance list_hex_laws.

(** The tags of LND's protobuf enums. *)
#[local] Instance lnd_tags : LndProto := {|
  PaymentStatus_try_from z :=
    match z with
    | 0 => Some lnrpc.PS_Unknown | 1 => Some lnrpc.PS_InFlight | 2 => Some lnrpc.PS_Succeeded
    | 3 => Some lnrpc.PS_Failed | 4 => Some lnrpc.PS_Initiated | _ => None
    end%Z;
  PaymentFailureReason_try_from z :=
    match z with
    | 0 => Some lnrpc.FailureReasonNone | 1 => Some lnrpc.FailureReasonTimeout
    | 2 => Some lnrpc.FailureReasonNoRoute | 3 => Some lnrpc.FailureReasonError
    | 4 => Some lnrpc.FailureReasonIncorrectPaymentDetails
    | 5 => Some lnrpc.FailureReasonInsufficientBalance
    | 6 => Some lnrpc.FailureReasonCanceled | _ => None
    end%Z;
  InvoiceState_try_from z :=
    match z with
    | 0 => Some lnrpc.IS_Open | 1 => Some lnrpc.IS_Settled | 2 => Some lnrpc.IS_Canceled
    | 3 => Some lnrpc.IS_Accepted | _ => None
    end%Z;
  PaymentFailureReason_as_i32 r :=
    match r with
    | lnrpc.FailureReasonNone => 0 | lnrpc.FailureReasonTimeout => 1
    | lnrpc.FailureReasonNoRoute => 2 | lnrpc.FailureReasonError => 3
    | lnrpc.FailureReasonIncorrectPaymentDetails => 4
    | lnrpc.FailureReasonInsufficientBalance => 5 | lnrpc.FailureReasonCanceled => 6
    end%Z;
  PaymentFailureReason_debug _ := "FailureReason" |}.

(** A settled payment over two hops, the second without a readable key. *)
Let payment : lnrpc.Payment :=
  lnrpc.MkPayment (PaymentHash.to_hex (hash_of x01)) (Preimage.to_hex (preimage_of x02)) 2
    1500
    [lnrpc.MkHtlc None;
     lnrpc.MkHtlc (Some (lnrpc.MkRoute
       [lnrpc.MkHop (hex_encode (repeat x03 33)) 7 1500 20500 40;
        lnrpc.MkHop "unreadable" 8 0 20000 0]))] 0.

Example send_response_faithful_witness :
  exists resp, lnd_payment_to_send_response payment = Ok resp /\
    SendPaymentResponse.fees_paid_msat resp = MilliSatoshi.new 2000 /\
    length (SendPaymentResponse.route_hops resp) = 1 /\ payment_says payment resp.
Proof.
  eexists. split; [vm_compute; reflexivity |]. split; [reflexivity |]. split; [reflexivity |].
  refine (proj1 (proj1 (send_response_faithful payment _) _) _); [| vm_compute; reflexivity].
  split; [split; vm_compute; discriminate |].
  intros htlc r [-> | [-> | []%not_elem_of_nil]%elem_of_cons]%elem_of_cons; intros [= <-].
  repeat constructor; vm_compute; discriminate.
Defined.

(** Three messages: of the invoice held, of another one, of the invoice settled. *)
Example subscribe_invoice_sound_witness :
  let says b state := lnrpc.MkInvoice (array_bytes (bytes_of b 32)) [] state 5000 in
  let attempts := [MkAttempt false (Ok [Message (says x01 3%Z) Sent; Closed]) false false;
                   MkAttempt false (Ok [Message (says x02 1%Z) Sent; Message (says x01 1%Z) Sent])
                     false false] in
  exists sent, subscribe_invoice true (hash_of x01) attempts = (sent, Some (Ok Terminal)) /\
    map InvoiceUpdate.state sent = [LndInvoiceState.Accepted; LndInvoiceState.Settled] /\
    relays (hash_of x01) (delivered attempts) sent False.
Proof.
  intros says attempts. destruct (subscribe_invoice true (hash_of x01) attempts) as [sent out] eqn:Hs.
  pose proof (subscribe_invoice_sound true (hash_of x01) attempts sent out Hs) as (Hr & _).
  assert (Hrun : out = Some (Ok Terminal) /\
    map InvoiceUpdate.state sent = [LndInvoiceState.Accepted; LndInvoiceState.Settled])
    by (vm_compute in Hs; injection Hs as <- <-; by split).
  destruct Hrun as [-> Hstates]. exists sent. split; [done |]. split; [exact Hstates |].
  destruct Hr as (seen & rest & Hseen & Hsent & _). by exists seen, rest.
Defined.
End Examples.
