(* ===== verification/LndClient.v ===== *)
(** The LND client (src/src/lnd/client.rs, src/src/lnd/config.rs): the connection it holds or
    not, the streams it opens, the interface [LndApi] the application depends on, and its two
    implementations - the client, and the stub of src/src/bin/write_sdl.rs.  The [tonic_lnd]
    crate is a parameter: [tonic_connect] opens its channel, [LndRpcs] is what LND answers
    at a moment to the remote procedures. *)
From S2P Require Import Prelude Primitives EsEntity Concrete PaymentEntity Lnd.

Module LndConfig.
Record t : Type := mk { address : string; cert_path : string; macaroon_path : string }.
Definition stub : t := mk "stub:0" "/dev/null" "/dev/null".

(** [{:?}]; [str_debug] is the quoting of a string, and of a path. *)
Definition debug (str_debug : string -> string) (c : t) : string :=
  "LndConfig { address: " +:+ str_debug (address c) +:+
  ", cert_path: " +:+ str_debug (cert_path c) +:+
  ", macaroon_path: " +:+ str_debug (macaroon_path c) +:+ " }".
End LndConfig.

(** The remote procedures.  A server stream of which one message is read is an option; the
    stream of a subscription is the turns its pump will see. *)
Class LndRpcs := {
  add_hold_invoice_rpc : AddHoldInvoiceRequest -> result string Status;
  settle_invoice_rpc : list byte -> result unit Status;
  cancel_invoice_rpc : list byte -> result unit Status;
  lookup_invoice_rpc : list byte -> result lnrpc.Invoice Status;
  track_payment_v2_rpc : list byte -> result (result (option lnrpc.Payment) Status) Status;
  send_payment_v2_rpc :
    SendPaymentRequest -> result (result (option lnrpc.Payment) Status) Status;
  estimate_route_fee_rpc : string -> result RouteFeeResponse Status;
  track_payments_rpc : bool -> result (list (recv lnrpc.Payment)) Status;
  subscribe_single_invoice_rpc : list byte -> result (list (recv lnrpc.Invoice)) Status
}.

(** * The interface *)

Class LndApi := {
  api_add_hold_invoice : AddHoldInvoiceParams.t -> result AddHoldInvoiceResponse LndError.t;
  api_settle_invoice : Preimage.t -> result unit LndError.t;
  api_cancel_invoice : PaymentHash.t -> result unit LndError.t;
  api_lookup_invoice : PaymentHash.t -> result InvoiceUpdate.t LndError.t;
  api_lookup_payment : PaymentHash.t -> result SendPaymentResponse.t LndError.t;
  api_send_payment : SendPaymentParams.t -> result SendPaymentResponse.t LndError.t;
  api_fee_probe : FeeProbeParams -> result FeeProbeResponse LndError.t
}.

(** Two implementations no caller can tell apart. *)
Definition same_api (a b : LndApi) : Prop :=
  (forall p, @api_add_hold_invoice a p = @api_add_hold_invoice b p) /\
  (forall p, @api_settle_invoice a p = @api_settle_invoice b p) /\
  (forall h, @api_cancel_invoice a h = @api_cancel_invoice b h) /\
  (forall h, @api_lookup_invoice a h = @api_lookup_invoice b h) /\
  (forall h, @api_lookup_payment a h = @api_lookup_payment b h) /\
  (forall p, @api_send_payment a p = @api_send_payment b p) /\
  (forall p, @api_fee_probe a p = @api_fee_probe b p).

#[export] Instance same_api_equivalence : Equivalence same_api.
Proof.
  unfold same_api. split.
  - intros a. by split_and!.
  - intros a b (H1 & H2 & H3 & H4 & H5 & H6 & H7). split_and!; by intros.
  - intros a b c (A1 & A2 & A3 & A4 & A5 & A6 & A7) (B1 & B2 & B3 & B4 & B5 & B6 & B7).
    split_and!; intros; etransitivity; eauto.
Qed.

Module LndClient.
Section Client.
Context {Client : Type} (tonic_connect : string -> string -> string -> result Client string).

Record t : Type := mk { config : LndConfig.t; inner : option Client }.

Definition connect (config : LndConfig.t) : result t LndError.t :=
  let? client :=
    map_err LndError.Connect
      (tonic_connect (LndConfig.address config) (LndConfig.cert_path config)
         (LndConfig.macaroon_path config)) in
  Ok (mk config (Some client)).

Definition boot_stub (config : LndConfig.t) : t := mk config None.

Definition is_connected (c : t) : bool := match inner c with Some _ => true | None => false end.

Definition require_inner (c : t) : result Client LndError.t := ok_or LndError.Stub (inner c).

Definition debug (str_debug : string -> string) (c : t) : string :=
  let state := if is_connected c then "connected" else "boot_stub" in
  "LndClient { config: " +:+ LndConfig.debug str_debug (config c) +:+
  ", inner: " +:+ str_debug state +:+ " }".

Context `{Hex} `{LndProto} `{LndRpcs}.

Definition track_payments_stream (c : t) : result (list (recv lnrpc.Payment)) LndError.t :=
  let? _ := require_inner c in
  map_err LndError.from_status (track_payments_rpc false).

Definition subscribe_single_invoice_stream (c : t) (payment_hash : PaymentHash.t) :
    result (list (recv lnrpc.Invoice)) LndError.t :=
  let? _ := require_inner c in
  map_err LndError.from_status
    (subscribe_single_invoice_rpc (array_bytes (PaymentHash.as_bytes payment_hash))).

Definition api (c : t) : LndApi := {|
  api_add_hold_invoice := add_hold_invoice (is_connected c) add_hold_invoice_rpc;
  api_settle_invoice := settle_invoice (is_connected c) settle_invoice_rpc;
  api_cancel_invoice := cancel_invoice (is_connected c) cancel_invoice_rpc;
  api_lookup_invoice := lookup_invoice (is_connected c) lookup_invoice_rpc;
  api_lookup_payment := lookup_payment (is_connected c) track_payment_v2_rpc;
  api_send_payment := send_payment (is_connected c) send_payment_v2_rpc;
  api_fee_probe := fee_probe (is_connected c) estimate_route_fee_rpc |}.
End Client.
Arguments t : clear implicits.
End LndClient.

(** The stub of the schema printer. *)
Definition StubLnd : LndApi := {|
  api_add_hold_invoice _ := Err LndError.Stub;
  api_settle_invoice _ := Err LndError.Stub;
  api_cancel_invoice _ := Err LndError.Stub;
  api_lookup_invoice _ := Err LndError.Stub;
  api_lookup_payment _ := Err LndError.Stub;
  api_send_payment _ := Err LndError.Stub;
  api_fee_probe _ := Err LndError.Stub |}.

Section Theorems.
Context {Client : Type} `{Hex} `{LndProto}.

(** A client without a connection is the stub: it refuses every operation, whatever LND
    would answer, and opens no stream. *)
Lemma boot_stub_refuses `{LndRpcs} (config : LndConfig.t) :
  let c : LndClient.t Client := LndClient.boot_stub config in
  same_api (LndClient.api c) StubLnd /\
  LndClient.track_payments_stream c = Err LndError.Stub /\
  forall h, LndClient.subscribe_single_invoice_stream c h = Err LndError.Stub.
Proof. split; [by split_and! | by split]. Qed.

End Theorems.

(** A client that connected holds the configuration it was given. *)
Lemma connected_config {Client} tonic_connect config (c : LndClient.t Client) :
  LndClient.connect tonic_connect config = Ok c ->
  LndClient.config c = config /\ LndClient.is_connected c = true.
Proof.
  unfold LndClient.connect. destruct (tonic_connect _ _ _) as [client |]; simpl; [| done].
  by intros [= <-].
Qed.
