(* ===== verification/Symphony.v ===== *)
(** The spend-authorization client (src/src/symphony/): requests and responses, the
    mapping of Symphony's protobuf answer, the fail-closed classification of errors. *)
From S2P Require Import Prelude Primitives EsEntity Concrete Outbox Lnd.

Module SymphonyAuthorizeStatus.
Inductive t : Type := Approved | Declined.
#[export] Instance eq_dec : EqDecision t.
Proof. solve_decision. Defined.
End SymphonyAuthorizeStatus.
Export (hints) SymphonyAuthorizeStatus.

Module DeclineReason.
Inductive t : Type :=
| InsufficientFunds
| AccountFrozen
| AmountExceedsLimit
| Other (s : string).
#[export] Instance eq_dec : EqDecision t.
Proof. solve_decision. Defined.

(** [{:?}]; [str_debug] is the quoting of a string. *)
Definition debug (str_debug : string -> string) (r : t) : string :=
  match r with
  | InsufficientFunds => "InsufficientFunds"
  | AccountFrozen => "AccountFrozen"
  | AmountExceedsLimit => "AmountExceedsLimit"
  | Other s => "Other(" +:+ str_debug s +:+ ")"
  end.
End DeclineReason.
Export (hints) DeclineReason.

Module AccountKind.
Inductive t : Type := WalletLiability | CardCollateral.
#[export] Instance eq_dec : EqDecision t.
Proof. solve_decision. Defined.
(** [to_proto() as i32]. *)
Definition to_proto (k : t) : Z :=
  match k with WalletLiability => 1 | CardCollateral => 2 end.
End AccountKind.
Export (hints) AccountKind.

Record AccountRef : Type := MkAccountRef { kind : AccountKind.t; account_id : string }.

Module SymphonyAuthorizeRequest.
Record t : Type := mk {
  correlation_id : string;
  account : AccountRef;
  sat_amount : Z;
  idempotency_key : string;
  gateway_metadata : json
}.
End SymphonyAuthorizeRequest.

Module SymphonyAuthorizeResponse.
Record t : Type := mk {
  status : SymphonyAuthorizeStatus.t;
  authorization_id : option string;
  decline_reason : option DeclineReason.t
}.
End SymphonyAuthorizeResponse.

Module SymphonyError.
Inductive t : Type :=
| Transport (e : string)
| StatusError (s : Status)
| Declined (reason : DeclineReason.t)
| Config (s : string).

Definition to_string `{TonicText} (str_debug : string -> string) (e : t) : string :=
  match e with
  | Transport e => "symphony gRPC transport error: " +:+ e
  | StatusError s => "symphony gRPC status: " +:+ status_to_string s
  | Declined reason => "symphony declined: " +:+ DeclineReason.debug str_debug reason
  | Config s => "symphony client config error: " +:+ s
  end.
End SymphonyError.

Definition is_authorize_unavailable (err : SymphonyError.t) : bool :=
  match err with
  | SymphonyError.Transport _ => true
  | SymphonyError.StatusError status =>
      match code status with
      | Code_Unavailable | Code_Unknown | Code_DeadlineExceeded | Code_Cancelled
      | Code_Unimplemented => true
      | _ => false
      end
  | SymphonyError.Declined _ => false
  | SymphonyError.Config _ => false
  end.

(** * Symphony's messages (proto/spend_authorization.proto) *)

Inductive SpendDeclineReason : Type :=
| SpendDeclineUnspecified | SpendDeclineInsufficientBalance | SpendDeclineAccountNotFound
| SpendDeclineAccountFrozen | SpendDeclineAmountExceedsLimit | SpendDeclineInternalError.

Definition SpendDeclineReason_try_from (z : Z) : option SpendDeclineReason :=
  match z with
  | 0 => Some SpendDeclineUnspecified | 1 => Some SpendDeclineInsufficientBalance
  | 2 => Some SpendDeclineAccountNotFound | 3 => Some SpendDeclineAccountFrozen
  | 4 => Some SpendDeclineAmountExceedsLimit | 5 => Some SpendDeclineInternalError
  | _ => None
  end%Z.

Record SpendAuthorizeRequest : Type := MkSpendAuthorizeRequest {
  sa_correlation_id : string; sa_account_kind : Z; sa_account_id : string;
  sa_sat_amount : Z; sa_idempotency_key : string; sa_gateway_metadata : string }.

Record SpendAuthorizeResponse : Type := MkSpendAuthorizeResponse {
  authorized : bool; sr_authorization_id : string; sr_decline_reason : Z;
  decline_message : string }.

Definition map_decline_reason (code : Z) (message : string) : DeclineReason.t :=
  let detail (fallback : string) := if String.eqb message "" then fallback else message in
  match default SpendDeclineUnspecified (SpendDeclineReason_try_from code) with
  | SpendDeclineInsufficientBalance => DeclineReason.InsufficientFunds
  | SpendDeclineAccountFrozen => DeclineReason.AccountFrozen
  | SpendDeclineAmountExceedsLimit => DeclineReason.AmountExceedsLimit
  | SpendDeclineAccountNotFound => DeclineReason.Other (detail "account not found")
  | SpendDeclineInternalError => DeclineReason.Other (detail "symphony internal error")
  | SpendDeclineUnspecified => DeclineReason.Other (detail "unspecified decline")
  end.

(** The two client modes: [Real] holds the channel, [BootStub] refuses every call. *)
Inductive ClientMode : Type := Real | BootStub.

Definition client (mode : ClientMode) : result unit SymphonyError.t :=
  match mode with
  | Real => Ok tt
  | BootStub =>
      Err (SymphonyError.StatusError (MkStatus Code_Unavailable
        "symphony spend-authorization client not configured (boot stub); failing closed"))
  end.

(** [LightningSymphonyClient::connect_lazy] and [boot_stub]; [from_shared] is the parsing of
    the endpoint, after which the channel connects on first use. *)
Definition connect_lazy (from_shared : string -> result unit string) (endpoint : string) :
    result ClientMode SymphonyError.t :=
  let? _ := map_err (fun e => SymphonyError.Config ("invalid grpc_endpoint: " +:+ e))
              (from_shared endpoint) in
  Ok Real.

Definition boot_stub : ClientMode := BootStub.

Definition non_empty (s : string) : option string :=
  if negb (String.eqb s "") then Some s else None.

(** The request on the wire. *)
Definition proto_req `{SerdeJson} (request : SymphonyAuthorizeRequest.t) :
    SpendAuthorizeRequest := {|
  sa_correlation_id := SymphonyAuthorizeRequest.correlation_id request;
  sa_account_kind := AccountKind.to_proto (kind (SymphonyAuthorizeRequest.account request));
  sa_account_id := account_id (SymphonyAuthorizeRequest.account request);
  sa_sat_amount := u64_as_i64 (SymphonyAuthorizeRequest.sat_amount request);
  sa_idempotency_key := SymphonyAuthorizeRequest.idempotency_key request;
  sa_gateway_metadata :=
    unwrap_or (json_to_string (SymphonyAuthorizeRequest.gateway_metadata request)) "{}" |}.

Definition authorize_spend `{SerdeJson} (mode : ClientMode)
    (rpc : SpendAuthorizeRequest -> result SpendAuthorizeResponse Status)
    (request : SymphonyAuthorizeRequest.t) :
    result SymphonyAuthorizeResponse.t SymphonyError.t :=
  let? _ := client mode in
  let? resp := map_err SymphonyError.StatusError (rpc (proto_req request)) in
  if authorized resp then
    Ok {| SymphonyAuthorizeResponse.status := SymphonyAuthorizeStatus.Approved;
          SymphonyAuthorizeResponse.authorization_id := non_empty (sr_authorization_id resp);
          SymphonyAuthorizeResponse.decline_reason := None |}
  else
    Ok {| SymphonyAuthorizeResponse.status := SymphonyAuthorizeStatus.Declined;
          SymphonyAuthorizeResponse.authorization_id := non_empty (sr_authorization_id resp);
          SymphonyAuthorizeResponse.decline_reason :=
            Some (map_decline_reason (sr_decline_reason resp) (decline_message resp)) |}.

Definition void_spend_authorization (mode : ClientMode)
    (rpc : string -> string -> result unit Status)
    (correlation_id authorization_id : string) : result unit SymphonyError.t :=
  let? _ := client mode in
  map_err SymphonyError.StatusError (rpc correlation_id authorization_id).

(** [SymphonyConfig::validate]; [trim] is [str::trim]. *)
Definition SymphonyConfig_validate (trim : string -> string) (grpc_endpoint : string) :
    result unit string :=
  if String.eqb (trim grpc_endpoint) "" then
    Err "symphony.grpc_endpoint must be set; empty value rejected"
  else Ok tt.

(** * Theorems *)

(** The client approves a spend only when Symphony answered [authorized] to the
    request as given (amount, account, idempotency key); an unconfigured client never
    approves and its refusal counts as unavailable; a declined answer always carries a
    reason, and only Symphony's insufficient-balance code reads as insufficient funds. *)
Theorem authorize_spend_fail_closed `{SerdeJson} mode rpc req resp :
  (0 <= SymphonyAuthorizeRequest.sat_amount req <= i64_max)%Z ->
  authorize_spend mode rpc req = Ok resp ->
  mode = Real /\
  exists wire answer,
    rpc wire = Ok answer /\
    sa_sat_amount wire = SymphonyAuthorizeRequest.sat_amount req /\
    sa_account_id wire = account_id (SymphonyAuthorizeRequest.account req) /\
    sa_idempotency_key wire = SymphonyAuthorizeRequest.idempotency_key req /\
    (SymphonyAuthorizeResponse.status resp = SymphonyAuthorizeStatus.Approved <->
     authorized answer = true) /\
    (SymphonyAuthorizeResponse.status resp = SymphonyAuthorizeStatus.Declined <->
     is_Some (SymphonyAuthorizeResponse.decline_reason resp)) /\
    (SymphonyAuthorizeResponse.decline_reason resp = Some DeclineReason.InsufficientFunds ->
     sr_decline_reason answer = 1%Z).
Proof.
  intros Hamt. unfold authorize_spend. destruct mode; simpl; [| done].
  destruct (rpc _) as [answer |] eqn:Hrpc; simpl; [| done].
  intros Hresp. split; [done |]. eexists _, answer. split; [exact Hrpc |]. simpl.
  split; [by apply u64_as_i64_small |]. split; [done |]. split; [done |].
  destruct (authorized answer); injection Hresp as <-; simpl; split_and!;
    try done; try (by split); try (split; [eauto | done]); try (by split; [| intros []]).
  unfold map_decline_reason, SpendDeclineReason_try_from.
  destruct (sr_decline_reason answer) as [| [[[] | [] |] | [[] | [] |] |] |]; simpl; by intros [=].
Qed.

Example authorize_spend_fail_closed_witness :
  let json := {| json_to_string := fun _ => Ok "{}" |} in
  let req := SymphonyAuthorizeRequest.mk "h" (MkAccountRef AccountKind.WalletLiability "w")
               110 "h" (JObj []) in
  exists resp,
    @authorize_spend json Real (fun _ => Ok (MkSpendAuthorizeResponse false "" 1 "")) req =
      Ok resp /\
    SymphonyAuthorizeResponse.decline_reason resp = Some DeclineReason.InsufficientFunds /\
    Real = Real.
Proof.
  eexists. split; [reflexivity |]. split; [reflexivity |].
  refine (proj1 (@authorize_spend_fail_closed {| json_to_string := fun _ => Ok "{}" |} Real
    (fun _ => Ok (MkSpendAuthorizeResponse false "" 1 ""))
    (SymphonyAuthorizeRequest.mk "h" (MkAccountRef AccountKind.WalletLiability "w")
               110 "h" (JObj [])) _ _ _)); [split; vm_compute; discriminate | reflexivity].
Defined.
