(* ===== verification/Wallet.v ===== *)
(** The wallet-ownership gate (src/src/wallet/ownership.rs): the membership query
    against the router, its per-caller cache with expiry and pruning, and the check. *)
From S2P Require Import Prelude Primitives EsEntity Concrete.

Module CallerAuth.
Record t : Type := new { jwt : string; sub : string }.
Definition is_authenticated (c : t) : bool :=
  negb (String.eqb (jwt c) "") && negb (String.eqb (sub c) "").
End CallerAuth.

Definition default_cache_secs : Z := 60.
Definition CACHE_PRUNE_THRESHOLD : nat := 10000.

Module WalletOwnershipError.
Inductive t : Type :=
| NotOwned (w : WalletId.t)
| Unauthenticated
| Unreachable (s : string)
| QueryError (s : string).
#[export] Instance eq_dec : EqDecision t.
Proof. solve_decision. Defined.

Definition to_string `{UuidText} (e : t) : string :=
  match e with
  | NotOwned w => "wallet " +:+ WalletId.to_string w +:+ " is not owned by the caller"
  | Unauthenticated => "caller is not authenticated"
  | Unreachable s => "wallet-ownership router unreachable: " +:+ s
  | QueryError s => "wallet-ownership query returned an error: " +:+ s
  end.
End WalletOwnershipError.

(** * The membership query

    The decoded body of the router's answer, and the answer itself. *)

Record DefaultAccount : Type := MkDefaultAccount { wallets : list string }.
Record Me : Type := MkMe { default_account : option DefaultAccount }.
Record MeData : Type := MkMeData { me : option Me }.
Record Envelope : Type := MkEnvelope { data : option MeData; errors : option (list string) }.

Record HttpResponse : Type := MkHttpResponse {
  http_success : bool; http_status : string; body : result Envelope string }.

(** The [reqwest] client: whether a bearer value is a legal header, and the request. *)
Class Router := {
  header_from_str : string -> option string;
  post : string -> string -> result HttpResponse string
}.

Inductive OwnershipMode : Type := OwnReal (endpoint : string) | OwnBootStub.

(** [new]: [trim] is [str::trim], [http_builds] the outcome of building the client. *)
Definition checker_mode (trim : string -> string) (http_builds : bool)
    (router_endpoint : string) : OwnershipMode :=
  if String.eqb (trim router_endpoint) "" then OwnBootStub
  else if http_builds then OwnReal router_endpoint else OwnBootStub.

(** [Duration::from_secs], in nanoseconds. *)
Definition from_secs (s : Z) : Z := s * 1000000000.

(** The cache: caller [sub] to the owned set and the instant it was stored. *)
Notation cache := (gmap string (gset string * Z)).

Section Ownership.
Context `{Router}.

Definition fetch_owned_wallets (mode : OwnershipMode) (caller : CallerAuth.t) :
    result (gset string) WalletOwnershipError.t :=
  match mode with
  | OwnBootStub =>
      Err (WalletOwnershipError.Unreachable
             "wallet-ownership checker not configured (boot stub)")
  | OwnReal endpoint =>
      let? bearer := ok_or (WalletOwnershipError.QueryError "invalid bearer token")
                       (header_from_str ("Bearer " +:+ CallerAuth.jwt caller)) in
      let? resp := map_err WalletOwnershipError.Unreachable (post endpoint bearer) in
      if negb (http_success resp) then
        Err (WalletOwnershipError.QueryError ("router returned HTTP " +:+ http_status resp))
      else
        let? envelope :=
          map_err (fun e => WalletOwnershipError.QueryError ("decode: " +:+ e)) (body resp) in
        match errors envelope with
        | Some (first :: _) => Err (WalletOwnershipError.QueryError first)
        | _ =>
            let? ws :=
              ok_or (WalletOwnershipError.QueryError "me.defaultAccount missing")
                (d ← data envelope; m ← me d; a ← default_account m; Some (wallets a)) in
            Ok (list_to_set ws)
        end
  end.


(** [at.elapsed() < ttl], on instants in nanoseconds. *)
Definition fresh_entry (ttl now : Z) (e : gset string * Z) : bool := (now - e.2 <? ttl)%Z.

Definition cached (ttl now : Z) (sub : string) (c : cache) : option (gset string) :=
  match c !! sub with
  | Some e => if fresh_entry ttl now e then Some e.1 else None
  | None => None
  end.

Definition store (ttl now : Z) (sub : string) (ws : gset string) (c : cache) : cache :=
  let c := if CACHE_PRUNE_THRESHOLD <=? size c
           then filter (fun p => fresh_entry ttl now p.2 = true) c else c in
  <[ sub := (ws, now) ]> c.
End Ownership.

Section Check.
Context `{Router} `{UuidText}.

(** Whether the set [ws] of the caller's wallets has the one asked for. *)
Definition decision (wallet_id : WalletId.t) (ws : gset string) :
    result unit WalletOwnershipError.t :=
  if decide (WalletId.to_string wallet_id ∈ ws) then Ok tt
  else Err (WalletOwnershipError.NotOwned wallet_id).

(** The check on the answer [fetched] of the membership query, read at the instants
    [now] (lookup) and [now'] (store). *)
Definition check_with (fetched : result (gset string) WalletOwnershipError.t)
    (ttl now now' : Z) (caller : CallerAuth.t) (wallet_id : WalletId.t) (c : cache) :
    cache * result unit WalletOwnershipError.t :=
  if negb (CallerAuth.is_authenticated caller) then
    (c, Err WalletOwnershipError.Unauthenticated)
  else
    match cached ttl now (CallerAuth.sub caller) c with
    | Some ws => (c, decision wallet_id ws)
    | None =>
        match fetched with
        | Err e => (c, Err e)
        | Ok owned => (store ttl now' (CallerAuth.sub caller) owned c, decision wallet_id owned)
        end
    end.

Definition check (mode : OwnershipMode) (ttl now now' : Z) (caller : CallerAuth.t)
    (wallet_id : WalletId.t) (c : cache) : cache * result unit WalletOwnershipError.t :=
  check_with (fetch_owned_wallets mode caller) ttl now now' caller wallet_id c.

(** One call of the gate: who, which wallet, when, and what the router would answer. *)
Record call : Type := MkCall {
  c_caller : CallerAuth.t;
  c_wallet : WalletId.t;
  c_now : Z;
  c_now' : Z;
  c_fetched : result (gset string) WalletOwnershipError.t
}.

Definition step_check (ttl : Z) (c : cache) (k : call) :
    cache * result unit WalletOwnershipError.t :=
  check_with (c_fetched k) ttl (c_now k) (c_now' k) (c_caller k) (c_wallet k) c.

(** The calls of one process, in order, from the empty cache. *)
Definition run_checks (ttl : Z) (ks : list call) : cache :=
  fold_left (fun c k => (step_check ttl c k).1) ks ∅.

(** [ws] is the set the router gave for [sub] to one of [ks], stored at [at_]. *)
Definition answered (ks : list call) (sub : string) (ws : gset string) (at_ : Z) : Prop :=
  exists k, k ∈ ks /\ CallerAuth.is_authenticated (c_caller k) = true /\
            CallerAuth.sub (c_caller k) = sub /\ c_fetched k = Ok ws /\ c_now' k = at_.

Lemma answered_app ks ks' sub ws at_ :
  answered ks sub ws at_ -> answered (ks ++ ks') sub ws at_.
Proof. intros (k & Hk & ?). exists k. split; [apply elem_of_app; by left | done]. Qed.

Lemma store_lookup ttl now sub ws c sub' ws' at_ :
  store ttl now sub ws c !! sub' = Some (ws', at_) ->
  (sub' = sub /\ ws' = ws /\ at_ = now) \/ c !! sub' = Some (ws', at_).
Proof.
  unfold store. cbv zeta. rewrite lookup_insert_Some. intros [[<- [= <- <-]] | [_ Hl]]; [by left |].
  right. destruct (_ <=? _); [| done]. by apply map_lookup_filter_Some in Hl as [Hl _].
Qed.

Lemma run_checks_answered ttl ks sub ws at_ :
  run_checks ttl ks !! sub = Some (ws, at_) -> answered ks sub ws at_.
Proof.
  revert ws at_. induction ks as [| k ks IH] using rev_ind; intros ws at_; [done |].
  unfold run_checks. rewrite fold_left_app. simpl. unfold step_check, check_with.
  fold (run_checks ttl ks).
  destruct (negb _) eqn:Hauth; simpl; [by intros ?%IH; apply answered_app |].
  destruct (cached _ _ _ _); simpl; [by intros ?%IH; apply answered_app |].
  destruct (c_fetched k) as [owned |] eqn:Hf; simpl;
    [| by intros ?%IH; apply answered_app].
  intros [(-> & -> & ->) | Hl]%store_lookup; [| by apply answered_app, IH].
  exists k. split; [apply elem_of_app; right; by apply list_elem_of_singleton |].
  apply negb_false_iff in Hauth. done.
Qed.

(** The gate opens only for an authenticated caller and a wallet in the set
    the router gave for that very caller identity, either in answer to this check or to
    an earlier one stored less than the cache lifetime ago; every failure of the query
    denies, and denies without being cached. *)
Theorem ownership_fail_closed ttl ks k :
  (step_check ttl (run_checks ttl ks) k).2 = Ok tt ->
  CallerAuth.is_authenticated (c_caller k) = true /\
  exists ws, WalletId.to_string (c_wallet k) ∈ ws /\
    ((c_fetched k = Ok ws) \/
     exists at_, answered ks (CallerAuth.sub (c_caller k)) ws at_ /\ (c_now k - at_ < ttl)%Z).
Proof.
  unfold step_check, check_with, decision. destruct (negb _) eqn:Hauth; simpl; [done |].
  apply negb_false_iff in Hauth. split; [done |].
  unfold cached in *. destruct (run_checks ttl ks !! _) as [[ws at_] |] eqn:Hl.
  - unfold fresh_entry in *. simpl in *. destruct (Z.ltb_spec (c_now k - at_) ttl); simpl in *.
    + case_decide; [| done]. exists ws. split; [done |]. right. exists at_.
      split; [by apply (run_checks_answered ttl) | done].
    + destruct (c_fetched k) as [owned |]; simpl in *; [| done].
      case_decide; [| done]. exists owned. auto.
  - destruct (c_fetched k) as [owned |]; simpl in *; [| done].
    case_decide; [| done]. exists owned. auto.
Qed.

Lemma ownership_error_not_cached ttl c k e :
  c_fetched k = Err e -> (step_check ttl c k).1 = c.
Proof.
  intros Hf. unfold step_check, check_with. rewrite Hf. destruct (negb _); [done |].
  by destruct (cached _ _ _ _).
Qed.

(** At the pruning threshold an insert keeps only entries that can still be used, so the
    cache never holds more than the threshold plus the entries stored within one
    lifetime. *)
Lemma store_prunes ttl now sub ws c sub' e :
  CACHE_PRUNE_THRESHOLD <= size c -> sub' <> sub ->
  store ttl now sub ws c !! sub' = Some e -> fresh_entry ttl now e = true.
Proof.
  intros Hsz Hne. unfold store. cbv zeta. apply Nat.leb_le in Hsz. rewrite Hsz.
  rewrite lookup_insert_ne by done. by intros [_ Hf]%map_lookup_filter_Some.
Qed.
End Check.

Section Examples.
#[local] Existing Instance list_uuid.

Example ownership_fail_closed_witness :
  let alice := CallerAuth.new "jwt" "alice" in
  let w := wallet_of x02 in
  let ok := Ok {[ WalletId.to_string w ]} in
  let ks := [MkCall alice w 0 1 ok] in
  let k := MkCall alice w 30 31 (Err (WalletOwnershipError.Unreachable "down")) in
  (step_check 60 (run_checks 60 ks) k).2 = Ok tt /\
  CallerAuth.is_authenticated (c_caller k) = true.
Proof.
  intros alice w ok ks k.
  assert (Hok : (step_check 60 (run_checks 60 ks) k).2 = Ok tt) by (vm_compute; reflexivity).
  split; [exact Hok |]. exact (proj1 (ownership_fail_closed 60 ks k Hok)).
Defined.
End Examples.
