(* ===== verification/Effects.v ===== *)
(** Effectful code as programs over a shared database.

    The application's handlers are [async] functions that call external services, read
    the clock and run database transactions.  Here such a function is a program: a tree
    of effects, each with a continuation for every answer.  A [Call] is answered by the
    outside world; a [Tx] is one database transaction, atomic, which may also fail before
    or after it has committed (the connection is lost).  Handlers run concurrently: a
    configuration is a database with a pool of threads, and one step performs one effect
    of one thread.  [wp] is a rely/guarantee logic for one program, [adequacy] carries it
    to every interleaving of every pool, and [advance] evaluates a program on given
    answers. *)
From S2P Require Import Prelude Primitives EsEntity.

Section Programs.
Context {ext : Type} (ext_resp : ext -> Type) (Env Db : Type).

Inductive eff : Type :=
| Call (e : ext)
| Tx (A E : Type) (lost : SqlxError -> E) (body : Env -> Db -> result (A * Db) E).

Definition answer (x : eff) : Type :=
  match x with
  | Call e => ext_resp e
  | Tx A E _ _ => result A E
  end.

Inductive prog (A : Type) : Type :=
| Ret (a : A)
| Do (x : eff) (k : answer x -> prog A).
Arguments Ret {A} a.
Arguments Do {A} x k.

Fixpoint bind {A B} (p : prog A) (f : A -> prog B) : prog B :=
  match p with
  | Ret a => f a
  | Do x k => Do x (fun r => bind (k r) f)
  end.

Definition perform_call (e : ext) : prog (ext_resp e) := Do (Call e) Ret.
Definition perform_tx {A E} (lost : SqlxError -> E)
    (body : Env -> Db -> result (A * Db) E) : prog (result A E) :=
  Do (Tx A E lost body) Ret.

(** ** Semantics of one effect *)

Definition sem (x : eff) (db : Db) : answer x -> Db -> Prop :=
  match x return answer x -> Db -> Prop with
  | Call e => fun _ db' => db' = db
  | Tx A E lost body => fun r db' =>
      exists env,
        (exists a, body env db = Ok (a, db') /\ (r = Ok a \/ exists s, r = Err (lost s))) \/
        (db' = db /\ ((exists e, body env db = Err e /\ r = Err e) \/
                      exists s, r = Err (lost s)))
  end.

(** ** Traces *)

Inductive event : Type := Ev (x : eff) (r : answer x).
Definition trace : Type := list event.

(** ** Rely/guarantee logic

    Between two effects of a program the other threads may move the database along
    [future], keeping [Inv]; every effect must be [allowed] where it is performed, and
    its own step must keep [Inv] and [future]. *)
Section Logic.
Context (Inv : Db -> Prop) (future : Db -> Db -> Prop) `{!PreOrder future}.
Context (allowed : trace -> Db -> eff -> Prop).

Fixpoint wp {A} (p : prog A) (tr : trace) (db : Db) (Q : A -> trace -> Db -> Prop) : Prop :=
  match p with
  | Ret a => Q a tr db
  | Do x k =>
      forall db1, future db db1 -> Inv db1 ->
        allowed tr db1 x /\
        forall r db2, sem x db1 r db2 ->
          Inv db2 /\ future db1 db2 /\ wp (k r) (tr ++ [Ev x r]) db2 Q
  end.

Lemma wp_mono {A} (p : prog A) tr db (Q Q' : A -> trace -> Db -> Prop) :
  (forall a tr' db', Q a tr' db' -> Q' a tr' db') -> wp p tr db Q -> wp p tr db Q'.
Proof.
  intros HQ. revert tr db. induction p as [a | x k IH]; intros tr db; simpl; [by apply HQ |].
  intros Hwp db1 Hf Hi. destruct (Hwp db1 Hf Hi) as [Ha Hk]. split; [done |].
  intros r db2 Hs. destruct (Hk r db2 Hs) as (Hi2 & Hf2 & Hrest).
  split_and!; [done | done | by apply IH].
Qed.

Lemma wp_bind {A B} (p : prog A) (f : A -> prog B) tr db Q :
  wp p tr db (fun a tr' db' => wp (f a) tr' db' Q) -> wp (bind p f) tr db Q.
Proof.
  revert tr db. induction p as [a | x k IH]; intros tr db; simpl; [done |].
  intros Hwp db1 Hf Hi. destruct (Hwp db1 Hf Hi) as [Ha Hk]. split; [done |].
  intros r db2 Hs. destruct (Hk r db2 Hs) as (Hi2 & Hf2 & Hrest).
  split_and!; [done | done | by apply IH].
Qed.

Lemma wp_call {A} e (k : ext_resp e -> prog A) tr db Q :
  (forall db1, future db db1 -> Inv db1 ->
     allowed tr db1 (Call e) /\ forall r, wp (k r) (tr ++ [Ev (Call e) r]) db1 Q) ->
  wp (Do (Call e) k) tr db Q.
Proof.
  intros Hk db1 Hf Hi. destruct (Hk db1 Hf Hi) as [Ha Hr]. split; [done |].
  intros r db2 ->. split_and!; [done | reflexivity | apply Hr].
Qed.

(** A transaction: its outcome on every database it may meet, and both ways of losing
    the connection. *)
Lemma wp_tx {A T E} (lost : SqlxError -> E) (body : Env -> Db -> result (T * Db) E)
    (k : result T E -> prog A) tr db Q :
  let W r db' := wp (k r) (tr ++ [Ev (Tx T E lost body) r]) db' Q in
  (forall db1, future db db1 -> Inv db1 ->
     allowed tr db1 (Tx T E lost body) /\
     (forall s, W (Err (lost s)) db1) /\
     forall env,
       match body env db1 with
       | Ok (a, db2) =>
           Inv db2 /\ future db1 db2 /\ W (Ok a) db2 /\ forall s, W (Err (lost s)) db2
       | Err e => W (Err e) db1
       end) ->
  wp (Do (Tx T E lost body) k) tr db Q.
Proof.
  intros W Hk db1 Hf Hi. destruct (Hk db1 Hf Hi) as (Ha & Hlost & Hbody). split; [done |].
  intros r db2 (env & [(a & Heq & Hr) | (-> & [(e & Heq & ->) | (s & ->)])]).
  - specialize (Hbody env). rewrite Heq in Hbody. destruct Hbody as (Hi2 & Hf2 & Hok & Hafter).
    split_and!; [done | done |].
    destruct Hr as [-> | [s ->]]; [exact Hok | apply Hafter].
  - specialize (Hbody env). rewrite Heq in Hbody. split_and!; [done | reflexivity | done].
  - split_and!; [done | reflexivity | apply Hlost].
Qed.

(** ** Interleaving *)

Record thread : Type := Thread { th_prog : prog unit; th_trace : trace }.
Definition config : Type := Db * list thread.

Context (handlers : prog unit -> Prop).

(** A handler starts, or one thread performs its next effect. *)
Inductive step : config -> config -> Prop :=
| step_spawn db ts p :
    handlers p -> step (db, ts) (db, ts ++ [Thread p []])
| step_thread db db' ts i x k tr r :
    ts !! i = Some (Thread (Do x k) tr) ->
    sem x db r db' ->
    step (db, ts) (db', <[ i := Thread (k r) (tr ++ [Ev x r]) ]> ts).

Definition reachable (c0 c : config) : Prop := rtc step c0 c.

Definition thread_ok (db : Db) (t : thread) : Prop :=
  exists db0, future db0 db /\ wp (th_prog t) (th_trace t) db0 (fun _ _ _ => True).

Lemma thread_ok_mono db db' t : future db db' -> thread_ok db t -> thread_ok db' t.
Proof. intros Hf (db0 & Hf0 & Hwp). exists db0. split; [by etransitivity | done]. Qed.

(** The proof of every thread is still good on the current database. *)
Definition config_ok (db0 : Db) (c : config) : Prop :=
  Inv c.1 /\ future db0 c.1 /\ Forall (thread_ok c.1) c.2.

Lemma step_ok db0 c c' :
  (forall p, handlers p -> forall db, Inv db -> wp p [] db (fun _ _ _ => True)) ->
  step c c' -> config_ok db0 c -> config_ok db0 c'.
Proof.
  intros Hh Hstep (Hi1 & Hf1 & Hts).
  destruct Hstep as [db ts p Hp | db db' ts i x k tr r Hti Hs]; simpl in *.
  - split_and!; [done | done |]. apply Forall_app_2; [done |].
    constructor; [| constructor]. exists db. split; [reflexivity | by apply Hh].
  - pose proof (proj1 (Forall_lookup _ _) Hts i _ Hti) as (dbt & Hft & Hwp).
    simpl in Hwp. destruct (Hwp db Hft Hi1) as [_ Hk].
    destruct (Hk r db' Hs) as (Hi2 & Hf2 & Hrest).
    split_and!; [done | by etransitivity |].
    apply Forall_insert; [| by exists db'].
    eapply Forall_impl; [exact Hts |]. intros t. by apply thread_ok_mono.
Qed.

Lemma reach_ok db0 c c' :
  (forall p, handlers p -> forall db, Inv db -> wp p [] db (fun _ _ _ => True)) ->
  reachable c c' -> config_ok db0 c -> config_ok db0 c'.
Proof.
  intros Hh. induction 1 as [| c1 c2 c3 Hstep _ IH]; [done |]. intros Hc.
  by apply IH, (step_ok db0 c1).
Qed.

Lemma start_ok db0 : Inv db0 -> config_ok db0 (db0, []).
Proof. intros Hi. split_and!; [done | reflexivity | constructor]. Qed.

(** If every handler is proved against the rely/guarantee logic, then in every
    configuration every interleaving can reach the invariant holds, the database has
    only moved along [future], and whatever effect a thread is about to perform is
    allowed there. *)
Lemma adequacy db0 c :
  (forall p, handlers p -> forall db, Inv db -> wp p [] db (fun _ _ _ => True)) ->
  Inv db0 -> reachable (db0, []) c ->
  Inv c.1 /\ future db0 c.1 /\
  forall i x k tr, c.2 !! i = Some (Thread (Do x k) tr) -> allowed tr c.1 x.
Proof.
  intros Hh Hi Hreach.
  destruct (reach_ok db0 _ _ Hh Hreach (start_ok db0 Hi)) as (Hi1 & Hf1 & Hts).
  split_and!; [done | done |].
  intros i x k tr Hti. pose proof (proj1 (Forall_lookup _ _) Hts i _ Hti) as (dbt & Hft & Hwp).
  simpl in Hwp. by destruct (Hwp c.1 Hft Hi1) as [Ha _].
Qed.

(** Between two configurations of a run the database moves along [future]. *)
Lemma run_future db0 c c' :
  (forall p, handlers p -> forall db, Inv db -> wp p [] db (fun _ _ _ => True)) ->
  Inv db0 -> reachable (db0, []) c -> reachable c c' -> future c.1 c'.1.
Proof.
  intros Hh Hi Hreach Hrest.
  destruct (reach_ok db0 _ _ Hh Hreach (start_ok db0 Hi)) as (Hi1 & Hf1 & Hts).
  assert (Hc : config_ok c.1 c) by by split_and!.
  by destruct (reach_ok c.1 _ _ Hh Hrest Hc) as (_ & Hf & _).
Qed.
End Logic.

(** ** Evaluation

    One answer of the world: to the calls, to the transaction's environment, and whether
    the connection is lost. *)
Inductive fault : Type := NoFault | LostBefore (s : SqlxError) | LostAfter (s : SqlxError).

Record world : Type := World {
  w_call : forall e, option (ext_resp e);
  w_env : Env;
  w_fault : fault
}.

Definition perform (w : world) (x : eff) (db : Db) : option (answer x * Db) :=
  match x return option (answer x * Db) with
  | Call e => r ← w_call w e; Some (r, db)
  | Tx A E lost body =>
      match w_fault w, body (w_env w) db with
      | LostBefore s, _ => Some (Err (lost s), db)
      | LostAfter s, Ok (_, db') => Some (Err (lost s), db')
      | NoFault, Ok (a, db') => Some (Ok a, db')
      | _, Err e => Some (Err e, db)
      end
  end.

(** Performs the first effects of a program, one per world: what is left of it, the
    trace and the database. *)
Fixpoint advance {A} (ws : list world) (p : prog A) (db : Db) : option (prog A * trace * Db) :=
  match ws with
  | [] => Some (p, [], db)
  | w :: ws =>
      match p with
      | Ret _ => None
      | Do x k =>
          '(r, db1) ← perform w x db;
          '(q, tr, db2) ← advance ws (k r) db1;
          Some (q, Ev x r :: tr, db2)
      end
  end.

Lemma perform_sem w x db r db' : perform w x db = Some (r, db') -> sem x db r db'.
Proof.
  destruct x as [e | A E lost body]; simpl.
  - destruct (w_call w e); simpl; [| done]. by intros [= <- <-].
  - intros Hp. exists (w_env w). destruct (w_fault w), (body (w_env w) db) as [[a db2] | e];
      simplify_eq; naive_solver.
Qed.
Lemma advance_steps handlers ws p db q tr db' ts tr0 :
  advance ws p db = Some (q, tr, db') ->
  rtc (step handlers) (db, ts ++ [Thread p tr0]) (db', ts ++ [Thread q (tr0 ++ tr)]).
Proof.
  revert p db tr tr0. induction ws as [| w ws IH]; intros p db tr tr0; simpl.
  - intros [= -> <- ->]. by rewrite app_nil_r.
  - destruct p as [a | x k]; [done |].
    destruct (perform w x db) as [[r db1] |] eqn:Hp; simpl; [| done].
    destruct (advance ws (k r) db1) as [[[q' tr1] db2] |] eqn:Ha; simpl; [| done].
    intros [= -> <- ->]. eapply rtc_l; [| apply (IH _ _ _ (tr0 ++ [Ev x r])) in Ha;
      rewrite <- app_assoc in Ha; exact Ha].
    replace (ts ++ [Thread (k r) (tr0 ++ [Ev x r])])
      with (<[ length ts := Thread (k r) (tr0 ++ [Ev x r]) ]> (ts ++ [Thread (Do x k) tr0]))
      by (rewrite <- (Nat.add_0_r (length ts)), insert_app_r; done).
    eapply step_thread; [by apply list_lookup_middle | by eapply perform_sem].
Qed.

(** A handler may be started and advanced by any worlds. *)
Lemma advance_reachable (handlers : prog unit -> Prop) c0 ws p db q tr db' ts :
  handlers p -> reachable handlers c0 (db, ts) -> advance ws p db = Some (q, tr, db') ->
  reachable handlers c0 (db', ts ++ [Thread q tr]).
Proof.
  intros Hp Hr Ha. unfold reachable in *. etransitivity; [exact Hr |].
  eapply rtc_l; [by apply step_spawn |]. by apply (advance_steps handlers ws p db q tr db' ts []).
Qed.

(** The next effect of the [i]th thread, and a schedule: whose turn, in which world. *)
Definition effect_at (w : world) (i : nat) (c : config) : option config :=
  match c.2 !! i with
  | Some (Thread (Do x k) tr) =>
      '(r, db) ← perform w x c.1; Some (db, <[ i := Thread (k r) (tr ++ [Ev x r]) ]> c.2)
  | _ => None
  end.

Fixpoint interleave (ms : list (nat * world)) (c : config) : option config :=
  match ms with
  | [] => Some c
  | (i, w) :: ms => c ← effect_at w i c; interleave ms c
  end.

Lemma interleave_steps handlers ms c c' :
  interleave ms c = Some c' -> rtc (step handlers) c c'.
Proof.
  revert c. induction ms as [| [i w] ms IH]; intros c; cbn [interleave]; [by intros [= <-] |].
  destruct (effect_at w i c) as [c1 |] eqn:He; cbn [mbind option_bind]; [| done]. intros Hi.
  eapply rtc_l; [| by apply IH]. unfold effect_at in He. destruct c as [db ts]. cbn [fst snd] in He.
  destruct (ts !! i) as [[[| x k] tr] |] eqn:Hi'; try done.
  destruct (perform w x db) as [[r db'] |] eqn:Hp; cbn [mbind option_bind] in He; [| done].
  injection He as <-. eapply step_thread; [exact Hi' | by eapply perform_sem].
Qed.
End Programs.

Arguments Call {ext Env Db} e.
Arguments Tx {ext Env Db} A E lost body.
Arguments Ret {ext ext_resp Env Db A} a.
Arguments Do {ext ext_resp Env Db A} x k.
Arguments bind {ext ext_resp Env Db A B} p f.
Arguments perform_call {ext ext_resp Env Db} e.
Arguments perform_tx {ext ext_resp Env Db A E} lost body.
Arguments Ev {ext ext_resp Env Db} x r.
Arguments sem {ext} ext_resp {Env Db} x db _ _.
Arguments wp {ext ext_resp Env Db} Inv future allowed {A} p tr db Q.
Arguments Thread {ext ext_resp Env Db} _ _.
Arguments th_prog {ext ext_resp Env Db} _.
Arguments th_trace {ext ext_resp Env Db} _.
Arguments reachable {ext ext_resp Env Db} handlers c0 c.
Arguments step {ext ext_resp Env Db} handlers _ _.
Arguments NoFault.
Arguments World {ext ext_resp Env} _ _ _.
Arguments w_call {ext ext_resp Env} _ _.
Arguments w_env {ext ext_resp Env} _.
Arguments w_fault {ext ext_resp Env} _.
Arguments perform {ext ext_resp Env Db} w x db.
Arguments advance {ext ext_resp Env Db A} ws p db.
Arguments interleave {ext ext_resp Env Db} ms c.

Notation "'let!' x ':=' p 'in' k" := (bind p (fun x => k))
  (at level 10, x pattern, p at level 100, k at level 200,
   format "'[v' 'let!'  x  ':='  p  'in' '/' k ']'") : gateway_scope.
