(* ===== verification/Credits.v ===== *)
(** Time credits for programs of effects.

    [costs n p Q]: started with [n] credits, [p] pays one for every effect, never runs
    out, and ends with an answer and a rest that satisfy [Q].  The answers a credit is
    paid for are those the effect's semantics can give, so a bound may use what a
    transaction promises.  [only] says which effects occur in a program at all, [runs]
    which program is left after a trace; both meet the interleaved runs in
    [thread_runs]. *)
From S2P Require Import Prelude EsEntity Effects.

Section Credits.
Context {ext : Type} (ext_resp : ext -> Type) {Env Db : Type}.
Notation prog := (prog ext_resp Env Db).
Notation eff := (eff Env Db).
Notation trace := (trace ext_resp Env Db).

Fixpoint costs {A} (n : nat) (p : prog A) (Q : A -> nat -> Prop) {struct p} : Prop :=
  match p with
  | Ret a => Q a n
  | Do x k =>
      match n with
      | 0 => False
      | S n => forall db r db', sem ext_resp x db r db' -> costs n (k r) Q
      end
  end.

(** At most [n] effects. *)
Definition within {A} (n : nat) (p : prog A) : Prop := costs n p (fun _ _ => True).

Lemma costs_mono {A} n m (p : prog A) (Q Q' : A -> nat -> Prop) :
  costs n p Q -> (forall a r, Q a r -> Q' a (m + r)) -> costs (m + n) p Q'.
Proof.
  intros Hc HQ. revert n Hc. induction p as [a | x k IH]; intros n Hc; [by apply HQ |].
  destruct n as [| n]; [done |]. rewrite Nat.add_succ_r. simpl in *.
  intros db r db' Hs. by apply IH, (Hc db r db').
Qed.

Lemma costs_bind {A B} n (p : prog A) (f : A -> prog B) Q :
  costs n p (fun a m => costs m (f a) Q) -> costs n (bind p f) Q.
Proof.
  revert n. induction p as [a | x k IH]; intros n; [done |]. destruct n as [| n]; [done |].
  simpl. intros Hc db r db' Hs. by apply IH, (Hc db r db').
Qed.

Lemma costs_call n e (Q : ext_resp e -> nat -> Prop) :
  (forall r, Q r n) -> costs (S n) (perform_call e) Q.
Proof. intros HQ db r db' _. apply HQ. Qed.

Lemma costs_tx {A E} n (lost : SqlxError -> E) (body : Env -> Db -> result (A * Db) E) Q :
  (forall r, Q r n) -> costs (S n) (perform_tx lost body) Q.
Proof. intros HQ db r db' _. apply HQ. Qed.

Lemma within_le {A} n m (p : prog A) : within n p -> n <= m -> within m p.
Proof.
  intros Hp Hle. replace m with ((m - n) + n) by lia. by eapply costs_mono.
Qed.

Lemma within_post {A} n (p : prog A) (Q : A -> nat -> Prop) :
  within n p -> (forall a m, Q a m) -> costs n p Q.
Proof. intros Hp HQ. apply (costs_mono n 0 p _ _ Hp). intros. apply HQ. Qed.

Lemma within_bind {A B} n m (p : prog A) (f : A -> prog B) :
  within n p -> (forall a, within m (f a)) -> within (n + m) (bind p f).
Proof.
  intros Hp Hf. apply costs_bind. rewrite Nat.add_comm.
  eapply (costs_mono n m p _ _ Hp). intros a r _. apply (within_le m); [apply Hf | lia].
Qed.

(** ** The effects of a program *)

Fixpoint only {A} (P : eff -> Prop) (p : prog A) : Prop :=
  match p with
  | Ret _ => True
  | Do x k => P x /\ forall r, only P (k r)
  end.

Lemma only_bind {A B} P (p : prog A) (f : A -> prog B) :
  only P p -> (forall a, only P (f a)) -> only P (bind p f).
Proof.
  intros Hp Hf. induction p as [a | x k IH]; [apply Hf |]. destruct Hp as [Hx Hk].
  split; [done |]. intros r. by apply IH.
Qed.

(** On every path: effects of [P], and at the very end one of [L]. *)
Fixpoint once {A} (P L : eff -> Prop) (p : prog A) : Prop :=
  match p with
  | Ret _ => False
  | Do x k =>
      (L x /\ forall r, exists a, k r = Ret a) \/ (P x /\ forall r, once P L (k r))
  end.

Lemma once_bind {A B} P L (p : prog A) (f : A -> prog B) :
  only P p -> (forall a, once P L (f a)) -> once P L (bind p f).
Proof.
  intros Hp Hf. induction p as [a | x k IH]; [apply Hf |]. destruct Hp as [Hx Hk].
  right. split; [done |]. intros r. by apply IH.
Qed.

(** ** What is left of a program after a trace *)

Inductive runs {A} (p : prog A) : trace -> prog A -> Prop :=
| runs_start : runs p [] p
| runs_effect tr x k db r db' :
    runs p tr (Do x k) -> sem ext_resp x db r db' -> runs p (tr ++ [Ev x r]) (k r).

Lemma runs_nil {A} (p q : prog A) : runs p [] q -> q = p.
Proof. inversion 1 as [Heq | tr x k db r db' Hr Hs Htr]; [done | by destruct tr]. Qed.

Lemma runs_trans {A} (p q r : prog A) tr tr' :
  runs p tr q -> runs q tr' r -> runs p (tr ++ tr') r.
Proof.
  intros Hp. induction 1 as [| tr' x k db a db' _ IH Hs]; [by rewrite app_nil_r |].
  rewrite app_assoc. by eapply runs_effect.
Qed.

Definition effect_of (ev : event ext_resp Env Db) : eff := match ev with Ev x _ => x end.

Lemma runs_within {A} n (p q : prog A) tr :
  within n p -> runs p tr q -> length tr <= n /\ within (n - length tr) q.
Proof.
  intros Hp. induction 1 as [| tr x k db r db' _ [Hle Hq] Hs].
  { rewrite Nat.sub_0_r. split; [apply Nat.le_0_l | done]. }
  rewrite length_app. simpl.
  destruct (n - length tr) as [| m] eqn:Hm; [done |]. split; [lia |].
  replace (n - (length tr + 1)) with m by lia. by apply (Hq db r db').
Qed.

Lemma runs_only {A} P (p q : prog A) tr :
  only P p -> runs p tr q -> only P q /\ Forall (fun ev => P (effect_of ev)) tr.
Proof.
  intros Hp. induction 1 as [| tr x k db r db' _ [[Hx Hk] Htr] Hs]; [by split |].
  split; [apply Hk |]. apply Forall_app_2; [done |]. by apply Forall_singleton.
Qed.

(** Effects of [P] only, after the first. *)
Definition only_after {A} (P : eff -> Prop) (p : prog A) : Prop :=
  match p with Ret _ => True | Do _ k => forall r, only P (k r) end.

Lemma runs_after {A} P (p q : prog A) tr :
  only_after P p -> runs p tr q ->
  (tr = [] /\ only_after P q) \/ (only P q /\ Forall (fun ev => P (effect_of ev)) (tail tr)).
Proof.
  intros Hp. induction 1 as [| tr x k db r db' _ IH Hs]; [by left |]. right.
  destruct IH as [[-> Hk] | [[Hx Hk] Htr]]; [split; [apply Hk | constructor] |].
  split; [apply Hk |]. destruct tr as [| ev tr]; [constructor |].
  apply Forall_app_2; [done |]. by apply Forall_singleton.
Qed.

Lemma runs_once {A} P L (p q : prog A) tr :
  once P L p -> runs p tr q ->
  (once P L q /\ Forall (fun ev => P (effect_of ev)) tr) \/
  exists a tr' ev, q = Ret a /\ tr = tr' ++ [ev] /\ L (effect_of ev) /\
    Forall (fun ev => P (effect_of ev)) tr'.
Proof.
  intros Hp. induction 1 as [| tr x k db r db' _ IH _]; [left; by split |].
  destruct IH as [[Hq Htr] | (a & tr' & ev & Hq & _)]; [| done].
  destruct Hq as [[Hx Hk] | [Hx Hk]].
  - right. destruct (Hk r) as [a Ha]. by exists a, tr, (Ev x r).
  - left. split; [apply Hk |]. apply Forall_app_2; [done |]. by apply Forall_singleton.
Qed.

(** In any interleaving, what a thread has performed since is a run of its program. *)
Lemma thread_runs handlers (c c' : config ext_resp Env Db) i p tr0 :
  reachable handlers c c' -> c.2 !! i = Some (Thread p tr0) ->
  exists q tr, c'.2 !! i = Some (Thread q (tr0 ++ tr)) /\ runs p tr q.
Proof.
  intros Hr Hi. revert c' Hr. apply rtc_ind_r.
  { exists p, []. rewrite app_nil_r. split; [done | constructor]. }
  intros c1 c2 _ Hs (q & tr & Hq & Hrun). destruct Hs as [db ts p' Hp | db db' ts j x k trj r Hj Hsem];
    simpl in *.
  - exists q, tr. split; [by apply lookup_app_l_Some | done].
  - destruct (decide (j = i)) as [-> | Hne].
    + rewrite Hq in Hj. injection Hj as -> <-.
      exists (k r), (tr ++ [Ev x r]). rewrite app_assoc. split.
      * rewrite list_lookup_insert_eq; [done |]. by eapply lookup_lt_Some.
      * by apply (runs_effect p tr x k db r db').
    + exists q, tr. by rewrite list_lookup_insert_ne.
Qed.
End Credits.

Arguments costs {ext} ext_resp {Env Db A} n p Q.
Arguments within {ext} ext_resp {Env Db A} n p.
Arguments only {ext ext_resp Env Db A} P p.
Arguments only_after {ext ext_resp Env Db A} P p.
Arguments once {ext ext_resp Env Db A} P L p.
Arguments runs {ext} ext_resp {Env Db A} p _ _.
Arguments effect_of {ext ext_resp Env Db} ev.

(** Walks through a program for [only], an effect at a time. *)
Ltac track_step :=
  let rec head t := match t with ?f _ => head f | _ => t end in
  match goal with
  | |- only _ (bind _ _) => apply only_bind; [| intros ?]
  | |- only _ (perform_call _) => split; [exact I | intros ?; exact I]
  | |- only _ (perform_tx _ _) => split; [exact I | intros ?; exact I]
  | |- only _ (Do _ (fun r : Empty_set => _)) => split; [exact I | intros []]
  | |- only _ (Ret _) => exact I
  | |- forall _, only _ _ => intros ?
  | |- only _ (match ?x with _ => _ end) => destruct x
  | |- only _ ?p => let h := head p in unfold h
  end.
Ltac track := repeat (cbn beta; track_step).
