(* ===== verification/App.v ===== *)
(** The application coordinator (src/src/app.rs, src/src/app/): its error type, the
    effects its use cases perform, the database they share, the helpers, the BOLT11
    decoder, and the writers that commit a terminal state with its outbox row. *)
From S2P Require Import Prelude Primitives EsEntity Concrete.
From S2P Require Import GraphqlTypes Jwks.
From S2P Require Import PaymentEntity InvoiceEntity Outbox Lnd Symphony Wallet Effects.

(** * Errors and requests (app/error.rs, app.rs) *)

Module AppError.
Inductive t : Type :=
| Invoice (e : InvoiceError.t)
| Payment (e : PaymentError.t)
| Lnd (e : LndError.t)
| Outbox (e : OutboxError.t)
| Symphony (e : SymphonyError.t)
| Db (e : SqlxError)
| InvalidBoltInvoice (s : string)
| WalletOwnership (s : string).
End AppError.

Inductive Mode : Type := Live | DryRun.

Module NewInvoiceRequest.
Record t : Type := mk {
  caller_auth : CallerAuth.t;
  wallet_id : WalletId.t;
  amount_msat : MilliSatoshi.t;
  expiry_seconds : Z;
  memo : option string;
  external_id : option string
}.
End NewInvoiceRequest.

Module SendPaymentReq.
Record t : Type := mk {
  caller_auth : CallerAuth.t;
  wallet_id : WalletId.t;
  payment_request : string;
  memo : option string
}.
End SendPaymentReq.

Module FeeProbeRequest.
Record t : Type := mk {
  caller_auth : CallerAuth.t;
  wallet_id : WalletId.t;
  payment_request : string
}.
End FeeProbeRequest.

(** * The outside world

    The operations of the GraphQL API with their inputs, and what a client is answered: a
    payload, or the top-level error of a resolver. *)
Inductive GraphqlRequest : Type :=
| ReqCreate (input : LnInvoiceCreateInput.t)
| ReqPay (input : LnInvoicePaymentInput.t)
| ReqProbe (input : LnInvoiceFeeProbeInput.t).

Inductive GraphqlResponse : Type :=
| RespCreate (payload : LnInvoicePayload.t)
| RespPay (payload : PaymentSendPayload.t)
| RespProbe (payload : SatAmountPayload.t)
| RespError (message : string).

(** The calls a handler makes besides the database.  [LndLookupPayment] is the lookup
    under the sweep's deadline: [None] is an elapsed timeout.  [RecvPaymentUpdate] and
    [RecvInvoiceUpdate] receive from the channels that LND's subscriptions feed.
    [DecodeJwt] is the check of a caller's token, [Respond] the answer to a client.
    [Panic] is the [expect] of a [None]; it has no answer. *)

Inductive ext : Type :=
| Now
| FreshUuid
| FillBytes
| CheckOwnership (caller : CallerAuth.t) (wallet_id : WalletId.t)
| AuthorizeSpend (req : SymphonyAuthorizeRequest.t)
| LndSendPayment (params : SendPaymentParams.t)
| LndCancelInvoice (h : PaymentHash.t)
| LndSettleInvoice (preimage : Preimage.t)
| LndLookupInvoice (h : PaymentHash.t)
| LndLookupPayment (h : PaymentHash.t)
| LndAddHoldInvoice (params : AddHoldInvoiceParams.t)
| LndFeeProbe (params : FeeProbeParams)
| SpawnListener (h : PaymentHash.t)
| RecvPaymentUpdate
| RecvInvoiceUpdate
| DecodeJwt (token : string)
| Respond (request : GraphqlRequest) (response : GraphqlResponse)
| Panic (msg : string).

Definition ext_resp (e : ext) : Type :=
  match e with
  | Now => Timestamp.t
  | FreshUuid => Uuid
  | FillBytes => array 32
  | CheckOwnership _ _ => result unit WalletOwnershipError.t
  | AuthorizeSpend _ => result SymphonyAuthorizeResponse.t SymphonyError.t
  | LndSendPayment _ => result SendPaymentResponse.t LndError.t
  | LndCancelInvoice _ => result unit LndError.t
  | LndSettleInvoice _ => result unit LndError.t
  | LndLookupInvoice _ => result InvoiceUpdate.t LndError.t
  | LndLookupPayment _ => option (result SendPaymentResponse.t LndError.t)
  | LndAddHoldInvoice _ => result AddHoldInvoiceResponse LndError.t
  | LndFeeProbe _ => result FeeProbeResponse LndError.t
  | SpawnListener _ => unit
  | RecvPaymentUpdate => PaymentUpdate.t
  | RecvInvoiceUpdate => InvoiceUpdate.t
  | DecodeJwt _ => result JwtClaims string
  | Respond _ _ => unit
  | Panic _ => Empty_set
  end.

(** The committed state of the gateway's tables. *)
Record DbState : Type := MkDb {
  payments : payment_table;
  invoices : invoice_table;
  outbox : outbox_table
}.

(** What the database and the clock supply to one transaction: [NOW()] of the
    transaction, the reading of [Utc::now()] in it, the next [BIGSERIAL] value. *)
Record TxEnv : Type := MkEnv { db_now : Timestamp.t; utc_now : Timestamp.t; nextval : Z }.

Notation app A := (prog ext_resp TxEnv DbState A).
Notation call := (@perform_call ext ext_resp TxEnv DbState).

(** The [?] operator under effects. *)
Definition try_bind {A B E} (p : app (result A E)) (k : A -> app (result B E)) :
    app (result B E) :=
  bind p (fun r => match r with Ok a => k a | Err e => Ret (Err e) end).
Notation "'let?!' x ':=' p 'in' k" := (try_bind p (fun x => k))
  (at level 10, x pattern, p at level 100, k at level 200,
   format "'[v' 'let?!'  x  ':='  p  'in' '/' k ']'") : gateway_scope.

(** A pure fallible step, and the error conversions of [map_err] under effects. *)
Definition pure_ {A E} (r : result A E) : app (result A E) := Ret r.
Definition map_err_ {A E F} (f : E -> F) (p : app (result A E)) : app (result A F) :=
  bind p (fun r => Ret (map_err f r)).

(** * Transactions *)

(** The body of a transaction: its steps see the writes of the earlier ones, and any
    error rolls everything back. *)
Definition tx (A : Type) : Type := TxEnv -> DbState -> result (A * DbState) AppError.t.

Definition tx_bind {A B} (t : tx A) (k : A -> tx B) : tx B :=
  fun env db => match t env db with Ok (a, db') => k a env db' | Err e => Err e end.
Notation "'let#' x ':=' t 'in' k" := (tx_bind t (fun x => k))
  (at level 10, x pattern, t at level 100, k at level 200,
   format "'[v' 'let#'  x  ':='  t  'in' '/' k ']'") : gateway_scope.

Definition tx_ret {A} (a : A) : tx A := fun _ db => Ok (a, db).
Definition tx_result {A} (r : result A AppError.t) : tx A :=
  fun _ db => match r with Ok a => Ok (a, db) | Err e => Err e end.
Definition tx_utc_now : tx Timestamp.t := fun env db => Ok (utc_now env, db).

(** [pool.begin()], the body, [tx.commit()]. *)
Definition in_tx {A} (t : tx A) : app (result A AppError.t) := perform_tx AppError.Db t.

Section Tables.
Context `{EventStore} `{PR : !EsRepo Payments.desc} `{IR : !EsRepo Invoices.desc}.

Definition payments_create_in_op (n : NewPayment.t) : tx Payment.t := fun env db =>
  let? (p, tbl) :=
    map_err (fun e => AppError.Payment (PaymentError.from_create e))
      (create_in_op Payments.desc (db_now env) n (payments db)) in
  Ok (p, MkDb tbl (invoices db) (outbox db)).

Definition payments_update_in_op (p : Payment.t) : tx Payment.t := fun env db =>
  let? (p', tbl) :=
    map_err (fun e => AppError.Payment (PaymentError.PaymentModify e))
      (update_in_op Payments.desc p (payments db)) in
  Ok (p', MkDb tbl (invoices db) (outbox db)).

Definition invoices_create_in_op (n : NewInvoice.t) : tx Invoice.t := fun env db =>
  let? (i, tbl) :=
    map_err (fun e => AppError.Invoice (InvoiceError.from_create e))
      (create_in_op Invoices.desc (db_now env) n (invoices db)) in
  Ok (i, MkDb (payments db) tbl (outbox db)).

Definition invoices_update_in_op (i : Invoice.t) : tx Invoice.t := fun env db =>
  let? (i', tbl) :=
    map_err (fun e => AppError.Invoice (InvoiceError.InvoiceModify e))
      (update_in_op Invoices.desc i (invoices db)) in
  Ok (i', MkDb (payments db) tbl (outbox db)).

Definition outbox_publish_in_tx (e : NewOutboxEvent.t) : tx Z := fun env db =>
  let? (seq, tbl) :=
    map_err AppError.Outbox (EventPublisher.publish_in_tx (nextval env) e (outbox db)) in
  Ok (seq, MkDb (payments db) (invoices db) tbl).

(** The reads and single-statement writes, each its own transaction. *)
Definition read {A E} (lost : SqlxError -> E) (q : DbState -> result A E) :
    app (result A E) :=
  perform_tx lost (fun _ db => let? a := q db in Ok (a, db)).

Definition find_payment (h : PaymentHash.t) : app (result Payment.t FindError) :=
  read FindSqlx (fun db => find_by_payment_hash Payments.desc h (payments db)).

Definition find_invoice (h : PaymentHash.t) : app (result Invoice.t FindError) :=
  read FindSqlx (fun db => find_by_payment_hash Invoices.desc h (invoices db)).

Definition maybe_find_invoice (h : PaymentHash.t) :
    app (result (option Invoice.t) FindError) :=
  read FindSqlx (fun db =>
    match find_by_payment_hash Invoices.desc h (invoices db) with
    | Ok i => Ok (Some i)
    | Err NotFound => Ok None
    | Err e => Err e
    end).

Definition update_payment (p : Payment.t) : app (result Payment.t ModifyError) :=
  perform_tx ModifySqlx (fun _ db =>
    let? (p', tbl) := update_in_op Payments.desc p (payments db) in
    Ok (p', MkDb tbl (invoices db) (outbox db))).

Definition create_invoice_row (n : NewInvoice.t) :
    app (result Invoice.t (CreateError InvoiceColumn)) :=
  perform_tx CreateSqlx (fun env db =>
    let? (i, tbl) := create_in_op Invoices.desc (db_now env) n (invoices db) in
    Ok (i, MkDb (payments db) tbl (outbox db))).
End Tables.

(** * Helpers (app/helpers.rs) *)

Definition is_concurrent_modification (err : ModifyError) : bool :=
  match err with ConcurrentModification => true | _ => false end.
Definition is_payment_not_found (err : FindError) : bool :=
  match err with NotFound => true | _ => false end.
Definition is_invoice_not_found (err : FindError) : bool :=
  match err with NotFound => true | _ => false end.

Definition hops_to_json `{Hex} (route_hops : list Hop.t) : list json :=
  map (fun h => JObj [("pub_key", JStr (Pubkey.to_hex (Hop.pub_key h)));
                      ("channel_id", JNum (Hop.channel_id h));
                      ("fee_msat", JNum (MilliSatoshi.as_u64 (Hop.fee_msat h)));
                      ("amt_msat", JNum (MilliSatoshi.as_u64 (Hop.amt_msat h)))]) route_hops.

Definition lnd_error_to_failure_reason `{TonicText} (err : LndError.t) : FailureReason.t :=
  match err with
  | LndError.PaymentTimeout => FailureReason.Timeout
  | LndError.NoRoute => FailureReason.NoRoute
  | LndError.IncorrectPaymentDetails => FailureReason.IncorrectPaymentDetails
  | other => FailureReason.Other ("LND error: " +:+ LndError.to_string other)
  end.

Definition check_wallet_ownership `{UuidText} (caller : CallerAuth.t) (wallet_id : WalletId.t) :
    app (result unit AppError.t) :=
  map_err_ (fun e => AppError.WalletOwnership (WalletOwnershipError.to_string e))
    (call (CheckOwnership caller wallet_id)).

(** [x.whole_sat() as i64]. *)
Definition sat_i64 (m : MilliSatoshi.t) : Z := u64_as_i64 (MilliSatoshi.whole_sat m).

(** * BOLT11 decoding (app/decode.rs)

    The [lightning_invoice] crate: parsing, expiry and the fields the decoder reads. *)
Class Bolt11 := {
  Bolt11Invoice : Type;
  bolt11_from_str : string -> result Bolt11Invoice string;
  would_expire : Bolt11Invoice -> Z -> bool;
  bolt11_payment_hash : Bolt11Invoice -> list byte;
  payee_pub_key : Bolt11Invoice -> option (list byte);
  recover_payee_pub_key : Bolt11Invoice -> list byte;
  amount_milli_satoshis : Bolt11Invoice -> option Z
}.

Section Decode.
Context `{Hex} `{Bolt11}.

(** The decoder on the reading [unix_now] of the clock. *)
Definition decode_bolt11_at (payment_request : string) (unix_now : Timestamp.t) :
    result DecodedInvoice.t AppError.t :=
  let? invoice := map_err AppError.InvalidBoltInvoice (bolt11_from_str payment_request) in
  let now := Z.max 0 (Timestamp.as_nanos unix_now) in
  if would_expire invoice now then Err (AppError.Payment PaymentError.ExpiredBoltInvoice)
  else
    let? hash_bytes :=
      ok_or (AppError.InvalidBoltInvoice "payment hash not 32 bytes")
        (array_try_from (bolt11_payment_hash invoice)) in
    let destination :=
      match payee_pub_key invoice with
      | Some pk => hex_encode pk
      | None => hex_encode (recover_payee_pub_key invoice)
      end in
    let amount_msat :=
      MilliSatoshi.round_up_to_sat <$> (MilliSatoshi.new <$> amount_milli_satoshis invoice) in
    Ok {| DecodedInvoice.payment_hash := PaymentHash.new hash_bytes;
          DecodedInvoice.destination := destination;
          DecodedInvoice.amount_msat := amount_msat;
          DecodedInvoice.bolt_invoice := BoltInvoice.new payment_request |}.

Definition decode_bolt11 (payment_request : string) :
    app (result DecodedInvoice.t AppError.t) :=
  let! now := call Now in
  Ret (decode_bolt11_at payment_request now).
End Decode.

(** * Committing payment outcomes (app/commit_payment.rs) *)

Section CommitPayment.
Context `{Hex} `{EventStore} `{PR : !EsRepo Payments.desc}.

Definition completed_event (payment_hash : PaymentHash.t) (amount_sat : Z)
    (preimage : Preimage.t) (fees_paid_msat : MilliSatoshi.t) (route_hops : list Hop.t)
    (t : Timestamp.t) : NewOutboxEvent.t :=
  NewOutboxEvent.for_lightning_payment_completed
    (PaymentHash.to_hex payment_hash) (PaymentHash.to_hex payment_hash) amount_sat t
    (JObj [("payment_preimage", JStr (Preimage.to_hex preimage));
           ("fees_paid_msat", JNum (MilliSatoshi.as_u64 fees_paid_msat));
           ("route_hops", JArr (hops_to_json route_hops))]).

Definition commit_completed (payment : Payment.t) (payment_hash : PaymentHash.t)
    (amount_sat : Z) (preimage : Preimage.t) (fees_paid_msat : MilliSatoshi.t)
    (route_hops : list Hop.t) (now : Timestamp.t) : app (result Payment.t AppError.t) :=
  let (payment, r) := Payment.settle preimage fees_paid_msat route_hops now payment in
  match r with
  | Err e => Ret (Err (AppError.Payment e))
  | Ok AlreadyApplied => Ret (Ok payment)
  | Ok Executed =>
      in_tx (let# payment := payments_update_in_op payment in
             let# t := tx_utc_now in
             let# _ := outbox_publish_in_tx
                         (completed_event payment_hash amount_sat preimage fees_paid_msat
                            route_hops t) in
             tx_ret payment)
  end.

Definition failed_event (payment_hash : PaymentHash.t) (amount_sat : Z)
    (reason_detail : string) (t : Timestamp.t) : NewOutboxEvent.t :=
  NewOutboxEvent.for_lightning_payment_failed
    (PaymentHash.to_hex payment_hash) (PaymentHash.to_hex payment_hash) amount_sat t
    (JObj [("failure_reason", JStr reason_detail)]).

Definition commit_failed (payment : Payment.t) (payment_hash : PaymentHash.t)
    (amount_sat : Z) (failure_reason : FailureReason.t) (now : Timestamp.t) :
    app (result Payment.t AppError.t) :=
  let reason_detail := FailureReason.detail_str failure_reason in
  let (payment, r) := Payment.fail failure_reason now payment in
  match r with
  | Err e => Ret (Err (AppError.Payment e))
  | Ok AlreadyApplied => Ret (Ok payment)
  | Ok Executed =>
      in_tx (let# payment := payments_update_in_op payment in
             let# t := tx_utc_now in
             let# _ := outbox_publish_in_tx
                         (failed_event payment_hash amount_sat reason_detail t) in
             tx_ret payment)
  end.
End CommitPayment.

(** * Committing invoice outcomes (app/commit_invoice.rs) *)

Section CommitInvoice.
Context `{Hex} `{UuidText} `{EventStore} `{IR : !EsRepo Invoices.desc}.

Definition settled_event (payment_hash : PaymentHash.t) (amount_sat : Z)
    (wallet_id : WalletId.t) (amt_paid_msat : MilliSatoshi.t) (held_amount_msat : Z)
    (external_id : string) (t : Timestamp.t) : NewOutboxEvent.t :=
  NewOutboxEvent.for_lightning_invoice_settled
    (PaymentHash.to_hex payment_hash) (PaymentHash.to_hex payment_hash) amount_sat t
    (JObj [("wallet_id", JStr (WalletId.to_string wallet_id));
           ("amt_paid_msat", JNum (MilliSatoshi.as_u64 amt_paid_msat));
           ("held_amount_msat", JNum held_amount_msat);
           ("external_id", JStr external_id)]).

(** [x.expect(msg)]. *)
Definition expect {A B} (o : option A) (msg : string) (k : A -> app B) : app B :=
  match o with
  | Some a => k a
  | None => Do (Call (Panic msg)) (fun r : Empty_set => match r with end)
  end.

Definition commit_settle (invoice : Invoice.t) (payment_hash : PaymentHash.t)
    (amt_paid_msat : MilliSatoshi.t) : app (result unit AppError.t) :=
  let wallet_id := Invoice.wallet_id invoice in
  let external_id := Invoice.external_id invoice in
  let! now := call Now in
  let (invoice, r) := Invoice.settle now invoice in
  match r with
  | Err e => Ret (Err (AppError.Invoice e))
  | Ok AlreadyApplied => Ret (Ok tt)
  | Ok Executed =>
      expect (Invoice.held_amount_msat invoice)
        "settle requires Held; mark_held sets held_amount_msat"
        (fun held =>
           let held_amount_msat := MilliSatoshi.as_u64 held in
           let amount_sat := sat_i64 amt_paid_msat in
           in_tx (let# _ := invoices_update_in_op invoice in
                  let# t := tx_utc_now in
                  let# _ := outbox_publish_in_tx
                              (settled_event payment_hash amount_sat wallet_id amt_paid_msat
                                 held_amount_msat external_id t) in
                  tx_ret tt))
  end.

Definition canceled_event (payment_hash : PaymentHash.t) (amount_sat : Z)
    (reason : CancelReason.t) (wallet_id : WalletId.t) (amt_paid_msat : MilliSatoshi.t)
    (held_amount_msat : option Z) (t : Timestamp.t) : NewOutboxEvent.t :=
  NewOutboxEvent.for_lightning_invoice_canceled
    (PaymentHash.to_hex payment_hash) (PaymentHash.to_hex payment_hash) amount_sat t
    (JObj [("reason", JStr (CancelReason.as_str reason));
           ("wallet_id", JStr (WalletId.to_string wallet_id));
           ("amt_paid_msat", JNum (MilliSatoshi.as_u64 amt_paid_msat));
           ("held_amount_msat", json_opt_num held_amount_msat)]).

Definition commit_cancel (invoice : Invoice.t) (payment_hash : PaymentHash.t)
    (reason : CancelReason.t) (amt_paid_msat : MilliSatoshi.t) :
    app (result unit AppError.t) :=
  let wallet_id := Invoice.wallet_id invoice in
  let! now := call Now in
  let (invoice, r) := Invoice.cancel reason now invoice in
  match r with
  | Err e => Ret (Err (AppError.Invoice e))
  | Ok AlreadyApplied => Ret (Ok tt)
  | Ok Executed =>
      let held_amount_msat := MilliSatoshi.as_u64 <$> Invoice.held_amount_msat invoice in
      let amount_sat := sat_i64 amt_paid_msat in
      in_tx (let# _ := invoices_update_in_op invoice in
             let# t := tx_utc_now in
             let# _ := outbox_publish_in_tx
                         (canceled_event payment_hash amount_sat reason wallet_id
                            amt_paid_msat held_amount_msat t) in
             tx_ret tt)
  end.
End CommitInvoice.
