(* ===== verification/Grpc.v ===== *)
(** What an error looks like from outside: the texts of the error types ([Display], from
    the [#[error]] attributes of src/src/app/error.rs, invoice/error.rs,
    payment/error.rs, outbox/error.rs) and the gRPC status they map to
    (src/src/api/grpc/error.rs). *)
From S2P Require Import Prelude Primitives EsEntity Concrete.
From S2P Require Import PaymentEntity InvoiceEntity Outbox Lnd Symphony App.

(** The texts of the [es-entity] errors, and the quoting of [{:?}]. *)
Class ErrorText := {
  create_error_to_string : forall {Col}, CreateError Col -> string;
  modify_error_to_string : ModifyError -> string;
  find_error_to_string : FindError -> string;
  str_debug : string -> string
}.

Section Texts.
Context `{Hex} `{TonicText} `{ErrorText}.

Definition OutboxError_to_string (e : OutboxError.t) : string :=
  match e with
  | OutboxError.Db e => sqlx_detail e
  | OutboxError.UnknownEventType s => "unknown gateway domain-event type: " +:+ s
  | OutboxError.Metadata e => "outbox metadata serialization failed: " +:+ e
  | OutboxError.ListenDisconnected => "LISTEN connection lost"
  | OutboxError.Configuration s => "outbox listener configuration error: " +:+ s
  end.

Definition InvoiceError_to_string (e : InvoiceError.t) : string :=
  match e with
  | InvoiceError.InvalidAmount => "invoice amount must be > 0 msat"
  | InvoiceError.InvoiceNotFound h =>
      "invoice not found for payment_hash " +:+ PaymentHash.to_string h
  | InvoiceError.InvalidStateTransition from attempted =>
      "invalid state transition from " +:+ InvoiceState.as_str from +:+ " attempting " +:+
      attempted
  | InvoiceError.DuplicateExternalId _ =>
      "an invoice already exists for this external_id on the wallet"
  | InvoiceError.InvalidExternalId s =>
      "external_id " +:+ str_debug s +:+ " must match /^[a-z0-9_-]{1,100}$/"
  | InvoiceError.InvoiceCreate e => create_error_to_string e
  | InvoiceError.InvoiceModify e => modify_error_to_string e
  | InvoiceError.InvoiceFind e => find_error_to_string e
  | InvoiceError.InvoiceQuery e => query_detail e
  | InvoiceError.InvoiceSqlx e => sqlx_detail e
  end.

Definition PaymentError_to_string (e : PaymentError.t) : string :=
  match e with
  | PaymentError.InvalidAmount => "invalid amount — must be > 0"
  | PaymentError.AmountRequired =>
      "amount required — invoice is amountless and no amount was supplied"
  | PaymentError.AmountOverspecified =>
      "amount overspecified — invoice already commits an amount; supply none"
  | PaymentError.AmountMismatch =>
      "amount mismatch — the requested amount does not match the invoice's committed amount"
  | PaymentError.InvalidMaxFee => "invalid max_fee_msat — must be > 0"
  | PaymentError.EmptyBoltInvoice => "empty bolt invoice"
  | PaymentError.InvalidBoltInvoice s => "invalid bolt invoice: " +:+ s
  | PaymentError.ExpiredBoltInvoice => "bolt invoice expired"
  | PaymentError.AlreadyPaid h => "payment already exists for payment_hash " +:+ h
  | PaymentError.SelfPayment =>
      "cannot pay an invoice issued for your own wallet (intraledger self-payment)"
  | PaymentError.RecipientInvoiceCanceled =>
      "recipient invoice was canceled and is no longer payable"
  | PaymentError.RecipientInvoiceInProgress =>
      "recipient invoice has a payment in progress"
  | PaymentError.RecipientInvoiceExpired =>
      "recipient invoice has expired and is no longer payable"
  | PaymentError.InvalidStateTransition from attempted =>
      "invalid state transition from " +:+ PaymentState.as_str from +:+ " attempting " +:+
      attempted
  | PaymentError.CorruptEventLog => "corrupt payment event log"
  | PaymentError.PaymentCreate e => create_error_to_string e
  | PaymentError.PaymentModify e => modify_error_to_string e
  | PaymentError.PaymentFind e => find_error_to_string e
  | PaymentError.PaymentQuery e => query_detail e
  | PaymentError.PaymentSqlx e => sqlx_detail e
  end.

Definition AppError_to_string (e : AppError.t) : string :=
  match e with
  | AppError.Invoice e => InvoiceError_to_string e
  | AppError.Payment e => PaymentError_to_string e
  | AppError.Lnd e => LndError.to_string e
  | AppError.Outbox e => OutboxError_to_string e
  | AppError.Symphony e => SymphonyError.to_string str_debug e
  | AppError.Db e => sqlx_detail e
  | AppError.InvalidBoltInvoice s => "invalid bolt invoice: " +:+ s
  | AppError.WalletOwnership s => "wallet ownership check failed: " +:+ s
  end.

(** ** Status mapping *)

Definition status_of_outbox_error (err : OutboxError.t) : Status :=
  match err with
  | OutboxError.Configuration msg =>
      MkStatus Code_FailedPrecondition ("outbox listener misconfigured: " +:+ msg)
  | OutboxError.ListenDisconnected =>
      MkStatus Code_Unavailable "outbox LISTEN connection lost"
  | OutboxError.Db _ | OutboxError.Metadata _ | OutboxError.UnknownEventType _ =>
      MkStatus Code_Unavailable
        ("outbox subsystem unavailable: " +:+ OutboxError_to_string err)
  end.

Definition status_of_app_error (err : AppError.t) : Status :=
  match err with
  | AppError.WalletOwnership msg => MkStatus Code_PermissionDenied msg
  | AppError.Invoice inner =>
      match inner with
      | InvoiceError.InvoiceCreate _ | InvoiceError.InvoiceModify _
      | InvoiceError.InvoiceFind _ | InvoiceError.InvoiceQuery _
      | InvoiceError.InvoiceSqlx _ =>
          MkStatus Code_Unavailable (InvoiceError_to_string inner)
      | _ => MkStatus Code_InvalidArgument (InvoiceError_to_string inner)
      end
  | AppError.Payment inner =>
      match inner with
      | PaymentError.PaymentCreate _ | PaymentError.PaymentModify _
      | PaymentError.PaymentFind _ | PaymentError.PaymentQuery _
      | PaymentError.PaymentSqlx _ =>
          MkStatus Code_Unavailable (PaymentError_to_string inner)
      | _ => MkStatus Code_InvalidArgument (PaymentError_to_string inner)
      end
  | AppError.InvalidBoltInvoice msg =>
      MkStatus Code_InvalidArgument ("invalid bolt invoice: " +:+ msg)
  | AppError.Lnd inner => MkStatus Code_Unavailable (LndError.to_string inner)
  | AppError.Symphony inner =>
      MkStatus Code_Unavailable (SymphonyError.to_string str_debug inner)
  | AppError.Outbox inner => status_of_outbox_error inner
  | AppError.Db inner =>
      MkStatus Code_Unavailable ("database unavailable: " +:+ sqlx_detail inner)
  end.

(** Every error of LND is [Unavailable], and nothing maps to [Internal]. *)
Lemma lnd_error_unavailable err :
  code (status_of_app_error err) <> Code_Internal /\
  forall e, err = AppError.Lnd e -> code (status_of_app_error err) = Code_Unavailable.
Proof. split; [by destruct err as [[] | [] | | [] | | | |] | by intros e ->]. Qed.
End Texts.
