(* ===== verification/StatusStream.v ===== *)
(** The client-facing invoice status stream (src/src/api/graphql/subscription.rs): what is
    told on subscribing, how outbox events become statuses, and the streaming task as a
    machine whose steps are its awaited operations. *)
From S2P Require Import Prelude Primitives EsEntity Concrete GraphqlTypes.
From S2P Require Import InvoiceEntity Outbox Fanout Lnd App.
Import EventPublisher.

Module StatusStream.
Definition STREAM_CHANNEL_SIZE : nat := 16.

Notation Status := InvoicePaymentStatus.t.
Notation payload := LnInvoicePaymentStatusPayload.t.

(** ** Statuses *)

Definition is_terminal (status : Status) : bool :=
  match status with
  | InvoicePaymentStatus.Paid | InvoicePaymentStatus.Expired => true
  | InvoicePaymentStatus.Pending => false
  end.

Definition initial_status (state_and_expiry : option (InvoiceState.t * Timestamp.t))
    (now : Timestamp.t) : Status :=
  match state_and_expiry with
  | None => InvoicePaymentStatus.Expired
  | Some (InvoiceState.Settled, _) => InvoicePaymentStatus.Paid
  | Some (InvoiceState.Canceled, _) => InvoicePaymentStatus.Expired
  | Some (InvoiceState.Held, _) => InvoicePaymentStatus.Pending
  | Some (InvoiceState.Open, expiry_at) =>
      if decide (Timestamp.le expiry_at now) then InvoicePaymentStatus.Expired
      else InvoicePaymentStatus.Pending
  end.

Definition status_from_event (event : GatewayDomainEvent.t) : option Status :=
  match event with
  | GatewayDomainEvent.LightningHtlcHeld => Some InvoicePaymentStatus.Pending
  | GatewayDomainEvent.LightningInvoiceSettled => Some InvoicePaymentStatus.Paid
  | GatewayDomainEvent.LightningIntraledgerTransferCompleted => Some InvoicePaymentStatus.Paid
  | GatewayDomainEvent.LightningInvoiceCanceled => Some InvoicePaymentStatus.Expired
  | GatewayDomainEvent.LightningPaymentInitiated
  | GatewayDomainEvent.LightningPaymentCompleted
  | GatewayDomainEvent.LightningPaymentFailed
  | GatewayDomainEvent.LightningPaymentReversed => None
  end.

(** [StatusEmitter::next]: the new emitter and the status to emit. *)
Definition emitter_next (status : Status) (last : option Status) :
    option Status * option Status :=
  if decide (last = Some status) then (last, None) else (Some status, Some status).

Section Stream.
Context `{Hex} `{Bolt11} `{EventStore} `{IR : !EsRepo Invoices.desc}.

(** ** Payloads *)

Definition build_payload (status : Status) (payment_hash : PaymentHash.t)
    (invoice : option Invoice.t) : payload :=
  let (payment_preimage, payment_request) :=
    match status, invoice with
    | InvoicePaymentStatus.Paid, Some inv =>
        (Some (LnPaymentPreImage.mk (Preimage.to_hex (Invoice.payment_preimage inv))),
         Some (LnPaymentRequest.mk (BoltInvoice.as_str (Invoice.bolt_invoice inv))))
    | _, _ => (None, None)
    end in
  {| LnInvoicePaymentStatusPayload.errors := [];
     LnInvoicePaymentStatusPayload.payment_hash := Some (GqlPaymentHash.mk payment_hash);
     LnInvoicePaymentStatusPayload.payment_preimage := payment_preimage;
     LnInvoicePaymentStatusPayload.payment_request := payment_request;
     LnInvoicePaymentStatusPayload.status := Some status |}.

Definition error_payload (message : string) : payload :=
  {| LnInvoicePaymentStatusPayload.errors := [from_message message];
     LnInvoicePaymentStatusPayload.payment_hash := None;
     LnInvoicePaymentStatusPayload.payment_preimage := None;
     LnInvoicePaymentStatusPayload.payment_request := None;
     LnInvoicePaymentStatusPayload.status := None |}.

(** The hash of a payment request, expired or not. *)
Definition payment_hash_from_request (payment_request : string) : result PaymentHash.t string :=
  let? invoice :=
    map_err (fun e => "invalid lightning invoice: " +:+ e) (bolt11_from_str payment_request) in
  let? hash_bytes :=
    ok_or "payment hash not 32 bytes" (array_try_from (bolt11_payment_hash invoice)) in
  Ok (PaymentHash.new hash_bytes).

(** The stored invoice; a failed query reads as no invoice. *)
Definition lookup_invoice (fault : option SqlxError) (payment_hash : PaymentHash.t)
    (tbl : invoice_table) : option Invoice.t :=
  match fault with
  | Some _ => None
  | None =>
      match find_by_payment_hash Invoices.desc payment_hash tbl with
      | Ok invoice => Some invoice
      | Err _ => None
      end
  end.

(** ** The streaming task

    Where [run_status_stream] is: deriving the initial status, counting before a
    backfill, fetching a page, going through one, deriving again after a resume, in the
    [select!], or returned.  [live] tells the recovery from lag from the resume. *)
Inductive pc : Type :=
| Initial
| Counting (live : bool)
| Paging (live : bool)
| Scanning (live : bool) (rest : list OutboxEvent.t)
| Deriving
| Live
| Finished.

Record stream : Type := Stream {
  payment_hash : PaymentHash.t;
  at_ : pc;
  cursor : Z;
  last : option Status;
  sent : list payload
}.

(** How [tx.send(payload).await] ends: the client takes the payload, or is gone. *)
Inductive delivery : Type := Accepted | Gone.

(** [resume] is the client's last sequence, if it resumes. *)
Definition start (h : PaymentHash.t) (resume : option Z) : stream :=
  Stream h (match resume with None => Initial | Some _ => Counting false end)
    (default 0%Z resume) None [].

(** [build_status_stream]: the task is spawned when the request is good and the schema has
    its data; otherwise one error payload is all there is. *)
Definition build_status_stream (has_app has_fanout : bool) (resume : option Z)
    (hash_result : result PaymentHash.t string) : result stream payload :=
  match has_app, has_fanout, hash_result with
  | true, true, Ok h => Ok (start h resume)
  | _, _, Err message => Err (error_payload message)
  | _, _, _ => Err (error_payload "subscription backend not configured")
  end.

Definition ln_invoice_payment_status (has_app has_fanout : bool) (resume : option Z)
    (payment_request : string) : result stream payload :=
  build_status_stream has_app has_fanout resume (payment_hash_from_request payment_request).
Definition ln_invoice_payment_status_by_hash (has_app has_fanout : bool) (resume : option Z)
    (h : PaymentHash.t) : result stream payload :=
  build_status_stream has_app has_fanout resume (Ok h).

Definition goto (p : pc) (s : stream) : stream :=
  Stream (payment_hash s) p (cursor s) (last s) (sent s).

Definition advance_cursor (sequence : Z) (s : stream) : stream :=
  Stream (payment_hash s) (at_ s) sequence (last s) (sent s).

(** Emits a status unless it repeats the last one; [next] is where an emission that does
    not end the stream, or none, goes on. *)
Definition emit (status : Status) (invoice : option Invoice.t) (d : delivery) (next : pc)
    (s : stream) : stream :=
  match emitter_next status (last s) with
  | (last', Some status) =>
      match d with
      | Gone => Stream (payment_hash s) Finished (cursor s) last' (sent s)
      | Accepted =>
          Stream (payment_hash s) (if is_terminal status then Finished else next) (cursor s)
            last' (sent s ++ [build_payload status (payment_hash s) invoice])
      end
  | (last', None) => Stream (payment_hash s) next (cursor s) last' (sent s)
  end.

(** The status of the stored aggregate. *)
Definition derived_status (invoice : option Invoice.t) (now : Timestamp.t) : Status :=
  initial_status ((fun i => (Invoice.state i, Invoice.expiry_at i)) <$> invoice) now.

(** Subscribing afresh: the current status, which may already end the stream. *)
Definition on_initial (invoice : option Invoice.t) (now : Timestamp.t) (d : delivery)
    (s : stream) : stream :=
  let status := derived_status invoice now in
  emit status invoice d (if is_terminal status then Finished else Live) s.

(** After a resume: only a final status is told. *)
Definition on_derived (invoice : option Invoice.t) (now : Timestamp.t) (d : delivery)
    (s : stream) : stream :=
  let status := derived_status invoice now in
  if is_terminal status then emit status invoice d Finished s else goto Live s.

(** [drain_backfill]: the bound, the pages, the rows. *)
Definition on_count (live : bool) (count : result Z OutboxError.t) (d : delivery) (s : stream) :
    stream :=
  match count with
  | Ok count =>
      if (MAX_BACKFILL_EVENTS <? count)%Z then
        Stream (payment_hash s) Finished (cursor s) (last s)
          (match d with
           | Accepted => sent s ++ [error_payload
               ("too many events to backfill (" +:+ pretty count +:+
                "); reconnect from a more recent sequence")]
           | Gone => sent s
           end)
      else goto (Paging live) s
  | Err _ => goto Finished s
  end.

Definition after_backfill (live : bool) : pc := if live then Live else Deriving.

Definition on_page (live : bool) (page : result (list OutboxEvent.t) OutboxError.t)
    (s : stream) : stream :=
  match page with
  | Ok [] => goto (after_backfill live) s
  | Ok batch => goto (Scanning live batch) s
  | Err _ => goto Finished s
  end.

(** [emit_for_event]: only [PAID] looks the invoice up. *)
Definition emit_for_event (event : GatewayDomainEvent.t) (found : option Invoice.t)
    (d : delivery) (next : pc) (s : stream) : stream :=
  match status_from_event event with
  | None => goto next s
  | Some status =>
      emit status (if decide (status = InvoicePaymentStatus.Paid) then found else None) d next s
  end.

Definition about (event : OutboxEvent.t) (s : stream) : bool :=
  String.eqb (OutboxEvent.reference_id event) (PaymentHash.to_hex (payment_hash s)).

Definition on_row (live : bool) (event : OutboxEvent.t) (rest : list OutboxEvent.t)
    (found : option Invoice.t) (d : delivery) (s : stream) : stream :=
  let next := match rest with [] => Paging live | _ => Scanning live rest end in
  let s := advance_cursor (OutboxEvent.sequence event) s in
  if about event s then emit_for_event (OutboxEvent.domain_event event) found d next s
  else goto next s.

(** The [select!] on the broadcast. *)
Definition on_recv (r : OutboxFanout.recv) (found : option Invoice.t) (d : delivery)
    (s : stream) : stream :=
  match r with
  | OutboxFanout.Received event =>
      if (OutboxEvent.sequence event <=? cursor s)%Z then goto Live s
      else
        let s := advance_cursor (OutboxEvent.sequence event) s in
        if about event s then emit_for_event (OutboxEvent.domain_event event) found d Live s
        else goto Live s
  | OutboxFanout.Lagged _ => goto (Counting true) s
  | OutboxFanout.Closed => goto Finished s
  end.
End Stream.
End StatusStream.
