(* ===== verification/Subscription.v ===== *)
(** The gRPC event feed (src/src/api/grpc/service.rs): one subscriber of the outbox, with
    everything it talks to - the table other transactions append to, the LISTEN
    connection, the channel between them.  The subscriber's [await]s are the atomic steps;
    the other parties move between them. *)
From S2P Require Import Prelude Primitives Decimal EsEntity Concrete.
From S2P Require Import Outbox Listen Lnd App Grpc.
Import EventPublisher.

Definition CHANNEL_SIZE : nat := 1000.
Definition SEND_TIMEOUT_SECS : Z := 5.

Module LightningPaymentGatewayService.
Section Service.
Context `{SerdeJson} `{Hex} `{TonicText} `{ErrorText}.

(** ** The subscriber *)

(** How [timeout(SEND_TIMEOUT, tx.send(item))] ends. *)
Inductive send_outcome : Type := Sent | ReceiverGone | TimedOut.

(** Where [subscription_loop] is: at the top of the backfill loop, inside the [for] over
    a page, in the [select!], reading the row of a notification, counting before a
    re-backfill, or returned.  [again] tells the re-backfill from the first one. *)
Inductive pc : Type :=
| Backfill (again : bool)
| Sending (again : bool) (rest : list OutboxEvent.t)
| Live
| Reading (sequence : Z)
| Counting
| Done.

Record subscriber : Type := Subscriber {
  at_ : pc;
  last_sent_sequence : Z;
  sent : list (result ProtoPaymentEvent.t Status)
}.

Definition inject_trace_context (event : ProtoPaymentEvent.t) : ProtoPaymentEvent.t := event.

Definition goto (p : pc) (s : subscriber) : subscriber :=
  Subscriber p (last_sent_sequence s) (sent s).

(** [let _ = tx.send(Err(status)).await; return]. *)
Definition fail_with (status : Status) (o : send_outcome) (s : subscriber) : subscriber :=
  Subscriber Done (last_sent_sequence s)
    (match o with Sent => sent s ++ [Err status] | _ => sent s end).

(** Advances the cursor to the event, then sends it; anything but a delivery closes. *)
Definition deliver (event : OutboxEvent.t) (o : send_outcome) (next : pc) (s : subscriber) :
    subscriber :=
  let proto := inject_trace_context (to_proto event) in
  match o with
  | Sent => Subscriber next (OutboxEvent.sequence event) (sent s ++ [Ok proto])
  | ReceiverGone | TimedOut => Subscriber Done (OutboxEvent.sequence event) (sent s)
  end.

Definition too_many (prefix suffix : string) (count : Z) : Status :=
  MkStatus Code_ResourceExhausted
    (prefix +:+ " would require " +:+ pretty count +:+ " events, max is " +:+
     pretty MAX_BACKFILL_EVENTS +:+ suffix).

(** [subscribe]: the guard on the size of the backfill, then the spawned loop. *)
Definition subscribe (after_sequence : Z) (count : result Z OutboxError.t) :
    result subscriber Status :=
  let? count := map_err status_of_outbox_error count in
  if (MAX_BACKFILL_EVENTS <? count)%Z then
    Err (too_many "Backfill" ". Consider subscribing from a more recent sequence." count)
  else Ok (Subscriber (Backfill false) (u64_as_i64 after_sequence) []).

(** The RPC: the request's cursor, and the stream over the channel. *)
Definition subscribe_events (request_after_sequence : Z) (count : result Z OutboxError.t) :
    result subscriber Status :=
  subscribe request_after_sequence count.

(** A page of the backfill: an empty one ends it. *)
Definition on_page (again : bool) (page : result (list OutboxEvent.t) OutboxError.t)
    (o : send_outcome) (s : subscriber) : subscriber :=
  match page with
  | Ok [] => goto Live s
  | Ok events => goto (Sending again events) s
  | Err e => fail_with (status_of_outbox_error e) o s
  end.

Definition on_notification (n : option (result Z OutboxError.t)) (s : subscriber) : subscriber :=
  match n with
  | Some (Ok sequence) =>
      if (sequence <=? last_sent_sequence s)%Z then goto Live s else goto (Reading sequence) s
  | Some (Err OutboxError.ListenDisconnected) => goto Counting s
  | Some (Err _) => goto Live s
  | None => goto Done s
  end.

Definition on_row (sequence : Z) (row : result (option OutboxEvent.t) OutboxError.t)
    (o : send_outcome) (s : subscriber) : subscriber :=
  match row with
  | Ok (Some event) =>
      let proto := inject_trace_context (to_proto event) in
      match o with
      | Sent => Subscriber Live sequence (sent s ++ [Ok proto])
      | ReceiverGone | TimedOut => Subscriber Done sequence (sent s)
      end
  | Ok None => goto Live s
  | Err _ => goto Live s
  end.

Definition on_count (count : result Z OutboxError.t) (o : send_outcome) (s : subscriber) :
    subscriber :=
  match count with
  | Ok count =>
      if (MAX_BACKFILL_EVENTS <? count)%Z then fail_with (too_many "Re-backfill" "" count) o s
      else goto (Backfill true) s
  | Err e => fail_with (status_of_outbox_error e) o s
  end.

(** ** The feed around it *)

Record feed : Type := Feed {
  committed : outbox_table;
  conn : ListenConnection.t;
  (** Notified by Postgres, not yet read off the session. *)
  wire : list string;
  (** The unbounded channel from the connection task. *)
  queue : list (result Z OutboxError.t);
  sub : subscriber
}.

Inductive action : Type :=
(** Some transaction that published the event commits; the trigger notifies. *)
| Publish (nextval : Z) (event : NewOutboxEvent.t)
| Connection (i : ListenConnection.input)
(** The subscriber's steps; [fault] is a failed query. *)
| Cancel
| FetchPage (fault : option SqlxError) (o : send_outcome)
| SendNext (o : send_outcome)
| Receive
| ChannelClosed
| ReadRow (fault : option SqlxError) (o : send_outcome)
| CountAgain (fault : option SqlxError) (o : send_outcome).

Definition is_bigint (z : Z) : bool := ((i64_min <=? z) && (z <=? i64_max))%Z.

Definition query {A} (fault : option SqlxError) (r : result A OutboxError.t) :
    result A OutboxError.t :=
  match fault with Some e => Err (OutboxError.Db e) | None => r end.

Definition set_sub (f : feed) (s : subscriber) : feed :=
  Feed (committed f) (conn f) (wire f) (queue f) s.

Definition listens (c : ListenConnection.t) : bool :=
  bool_decide (ListenConnection.at_ c = ListenConnection.Listening).

(** Postgres notifies the sessions that listen; a session that ends takes what it has not
    delivered with it. *)
Definition do_connection (i : ListenConnection.input) (f : feed) : option feed :=
  let receiver := match at_ (sub f) with Done => false | _ => true end in
  let step wire :=
    let (c, out) := ListenConnection.connection_step receiver i (conn f) in
    Some (Feed (committed f) c
            (if listens c then wire else [])
            (queue f ++ out) (sub f)) in
  match i with
  | ListenConnection.Notification payload =>
      match wire f with
      | p :: wire => if String.eqb p payload then step wire else None
      | [] => None
      end
  | _ => step (wire f)
  end.

Definition do_action (a : action) (f : feed) : option feed :=
  let s := sub f in
  match a, at_ s with
  | Publish nextval event, _ =>
      if is_bigint nextval then
        match publish_in_tx nextval event (committed f) with
        | Ok (sequence, tbl) =>
            Some (Feed tbl (conn f)
              (if listens (conn f) then wire f ++ [pretty sequence] else wire f) (queue f) s)
        | Err _ => None
        end
      else None
  | Connection i, _ => do_connection i f
  | Cancel, (Backfill _ | Live) => Some (set_sub f (goto Done s))
  | FetchPage fault o, Backfill again =>
      Some (set_sub f (on_page again
        (query fault (fetch_after_batch (last_sent_sequence s) (committed f))) o s))
  | SendNext o, Sending again (event :: rest) =>
      let next := match rest with [] => Backfill again | _ => Sending again rest end in
      Some (set_sub f (deliver event o next s))
  | Receive, Live =>
      match queue f with
      | n :: queue =>
          Some (Feed (committed f) (conn f) (wire f) queue (on_notification (Some n) s))
      | [] => None
      end
  | ChannelClosed, Live => Some (set_sub f (on_notification None s))
  | ReadRow fault o, Reading sequence =>
      Some (set_sub f
        (on_row sequence (query fault (find_by_sequence sequence (committed f))) o s))
  | CountAgain fault o, Counting =>
      Some (set_sub f (on_count
        (query fault (Ok (count_after (last_sent_sequence s) (committed f)))) o s))
  | _, _ => None
  end.

Definition feed_step (f f' : feed) : Prop := exists a, do_action a f = Some f'.

(** The subscription the RPC starts: an empty channel, a connection task that has not
    connected yet. *)
Definition opened (tbl : outbox_table) (s : subscriber) : feed :=
  Feed tbl ListenConnection.start [] [] s.

Fixpoint run (actions : list action) (f : feed) : option feed :=
  match actions with
  | [] => Some f
  | a :: actions => f' ← do_action a f; run actions f'
  end.
End Service.
End LightningPaymentGatewayService.
