(* ===== verification/Feed.v ===== *)
(** What a gRPC subscriber receives: its stream is in sequence order, faithful and
    without duplicates in every run, and without gaps in the runs that commit in order and
    only while the subscriber can learn of it - with a run outside that loses an event. *)
From S2P Require Import Prelude Primitives Decimal EsEntity Concrete.
From S2P Require Import Outbox Listen Lnd App Grpc Subscription.
From stdpp Require Import sorting.
Import EventPublisher OutboxTheory LightningPaymentGatewayService.

(** The payment events a subscriber was sent. *)
Definition payment_events (l : list (result ProtoPaymentEvent.t Status)) :
    list ProtoPaymentEvent.t :=
  omap (fun i => match i with Ok e => Some e | Err _ => None end) l.

Lemma payment_events_app l1 l2 :
  payment_events (l1 ++ l2) = payment_events l1 ++ payment_events l2.
Proof. apply omap_app. Qed.

Section Order.
Context `{SerdeJson} `{Hex} `{TonicText} `{ErrorText}.

Definition delivered (f : feed) : list ProtoPaymentEvent.t := payment_events (sent (sub f)).

Lemma payment_events_ok (es : list OutboxEvent.t) :
  payment_events (map (fun e => Ok (to_proto e)) es) = map to_proto es.
Proof. induction es as [| e es IH]; [done |]. unfold payment_events in *. csimpl. by rewrite IH. Qed.

Lemma payment_events_err errs : payment_events (map Err errs) = [].
Proof. by induction errs. Qed.

(** ** Order, in every run *)

Definition committed_event (tbl : outbox_table) (e : OutboxEvent.t) : Prop :=
  exists r, r ∈ tbl /\ event_of_row r = Ok e.

Definition increasing (lo : Z) (es : list OutboxEvent.t) : Prop :=
  StronglySorted Z.lt (lo :: map OutboxEvent.sequence es).

Definition pc_ok (tbl : outbox_table) (last : Z) (p : pc) : Prop :=
  match p with
  | Sending _ rest => increasing last rest /\ Forall (committed_event tbl) rest
  | Reading sequence => (last < sequence)%Z
  | _ => True
  end.

(** The stream so far: events of committed rows, in sequence order above [after] and up
    to the cursor; then at most one error, only once the loop has returned. *)
Definition stream_ok (after : Z) (tbl : outbox_table) (s : subscriber) : Prop :=
  exists es errs,
    sent s = map (fun e => Ok (to_proto e)) es ++ map Err errs /\
    (at_ s <> Done -> errs = []) /\ length errs <= 1 /\
    increasing after es /\ Forall (committed_event tbl) es /\
    (after <= last_sent_sequence s)%Z /\
    Forall (fun e => OutboxEvent.sequence e <= last_sent_sequence s)%Z es /\
    pc_ok tbl (last_sent_sequence s) (at_ s).

Lemma committed_event_grows tbl tbl' e :
  (forall r, r ∈ tbl -> r ∈ tbl') -> committed_event tbl e -> committed_event tbl' e.
Proof. intros Hsub (r & Hr & He). exists r. split; [by apply Hsub | done]. Qed.

Lemma stream_ok_grows after tbl tbl' s :
  (forall r, r ∈ tbl -> r ∈ tbl') -> stream_ok after tbl s -> stream_ok after tbl' s.
Proof.
  intros Hsub (es & errs & Hs & He & Hl & Hi & Hc & Ha & Hle & Hp).
  assert (Hm : forall es, Forall (committed_event tbl) es -> Forall (committed_event tbl') es).
  { intros es' Hes. eapply Forall_impl; [exact Hes |]. intros e. by apply committed_event_grows. }
  exists es, errs. split_and!; eauto. destruct (at_ s); try done. simpl in *. naive_solver.
Qed.

Lemma increasing_snoc lo es e :
  increasing lo es -> (lo < OutboxEvent.sequence e)%Z ->
  Forall (fun e' => OutboxEvent.sequence e' < OutboxEvent.sequence e)%Z es ->
  increasing lo (es ++ [e]).
Proof.
  unfold increasing. intros Hi Hlo Hall. rewrite map_app, app_comm_cons.
  apply StronglySorted_app_2; [| done | repeat constructor].
  intros x y Hx Hy%list_elem_of_singleton. subst y.
  apply elem_of_cons in Hx as [-> | Hx]; [done |].
  apply list_elem_of_fmap in Hx as (e' & -> & He'). by apply (proj1 (Forall_forall _ _) Hall).
Qed.

(** The steps of the subscriber: moving on without sending, failing, delivering. *)
Lemma goto_ok after tbl s p :
  at_ s <> Done -> pc_ok tbl (last_sent_sequence s) p ->
  stream_ok after tbl s -> stream_ok after tbl (goto p s).
Proof.
  intros Hat Hp (es & errs & Hs & He & Hl & Hi & Hc & Ha & Hle & _). specialize (He Hat). subst.
  exists es, []. split_and!; done.
Qed.

Lemma fail_with_ok after tbl s st o :
  at_ s <> Done -> stream_ok after tbl s -> stream_ok after tbl (fail_with st o s).
Proof.
  intros Hat (es & errs & Hs & He & Hl & Hi & Hc & Ha & Hle & _). specialize (He Hat). subst.
  simpl in Hs. rewrite app_nil_r in Hs.
  destruct o; [exists es, [st] | exists es, [] | exists es, []]; simpl; rewrite Hs, ?app_nil_r;
    by split_and!; auto.
Qed.

Lemma deliver_ok after tbl s e o next :
  at_ s <> Done -> committed_event tbl e -> (last_sent_sequence s < OutboxEvent.sequence e)%Z ->
  pc_ok tbl (OutboxEvent.sequence e) next ->
  stream_ok after tbl s -> stream_ok after tbl (deliver e o next s).
Proof.
  intros Hat Hce Hlt Hnext (es & errs & Hs & He & Hl & Hi & Hc & Ha & Hle & _).
  specialize (He Hat). subst. simpl in Hs. rewrite app_nil_r in Hs.
  assert (Hle' : Forall (fun e' => OutboxEvent.sequence e' < OutboxEvent.sequence e)%Z es).
  { eapply Forall_impl; [exact Hle |]. simpl. lia. }
  assert (Hle'' : Forall (fun e' => OutboxEvent.sequence e' <= OutboxEvent.sequence e)%Z es).
  { eapply Forall_impl; [exact Hle' |]. simpl. lia. }
  destruct o; simpl.
  - exists (es ++ [e]), []. simpl. rewrite Hs, map_app, app_nil_r. split_and!; auto.
    + apply increasing_snoc; [done | lia | done].
    + apply Forall_app_2; [done | by constructor].
    + lia.
    + apply Forall_app_2; [done |]. constructor; [lia | constructor].
  - exists es, []. simpl. rewrite Hs, app_nil_r. split_and!; auto. lia.
  - exists es, []. simpl. rewrite Hs, app_nil_r. split_and!; auto. lia.
Qed.

Lemma page_increasing last tbl page :
  outbox_wf tbl -> fetch_after_batch last tbl = Ok page ->
  increasing last page /\ Forall (committed_event tbl) page.
Proof.
  intros [Hpub Hnd]. unfold fetch_after_batch. set (rows := take _ _). intros Hpage.
  assert (Hin : forall r, r ∈ rows -> r ∈ tbl /\ (last < OutboxRow.sequence r)%Z).
  { intros r Hr%elem_of_take. destruct Hr as (i & Hr & _).
    apply list_elem_of_lookup_2 in Hr. by apply rows_after_in in Hr. }
  assert (Hrows : Forall published rows).
  { apply Forall_forall. intros r Hr. apply (proj1 (Forall_forall _ _) Hpub). by apply Hin. }
  assert (Hord : in_order rows).
  { apply (StronglySorted_app_1_l seq_lt rows
      (drop (Z.to_nat BACKFILL_BATCH_SIZE) (rows_after last tbl))).
    unfold rows. rewrite take_drop. by apply rows_after_in_order. }
  rewrite collect_published in Hpage by done. injection Hpage as <-. split.
  - unfold increasing. rewrite events_of_sequences by done. constructor.
    + by apply in_order_sequences.
    + apply Forall_forall. intros x (r & -> & Hr)%list_elem_of_fmap. by apply Hin.
  - apply Forall_forall. intros e He. unfold events_of in He.
    apply list_elem_of_omap in He as (r & Hr & Her). exists r. split; [by apply Hin |].
    by destruct (event_of_row r); simplify_eq.
Qed.
Definition feed_ok (after : Z) (f : feed) : Prop :=
  outbox_wf (committed f) /\ stream_ok after (committed f) (sub f).

Lemma increasing_cons lo e es :
  increasing lo (e :: es) -> (lo < OutboxEvent.sequence e)%Z /\ increasing (OutboxEvent.sequence e) es.
Proof.
  unfold increasing. simpl. intros Hi. inversion Hi as [| x l Hs Hf]; subst.
  inversion Hf; subst. by split.
Qed.

(** The subscriber's own steps. *)
Lemma on_page_ok after tbl s again fault o :
  outbox_wf tbl -> at_ s = Backfill again -> stream_ok after tbl s ->
  stream_ok after tbl
    (on_page again (query fault (fetch_after_batch (last_sent_sequence s) tbl)) o s).
Proof.
  intros Hwf Hat Hs. assert (Hne : at_ s <> Done) by by rewrite Hat.
  destruct (query _ _) as [page | e] eqn:Hpage; simpl; [| by apply fail_with_ok].
  destruct page as [| e page]; [by apply goto_ok |].
  apply goto_ok; [done | | done]. destruct fault; [done |]. by apply page_increasing.
Qed.

Lemma on_row_ok after tbl s sequence fault o :
  at_ s = Reading sequence -> stream_ok after tbl s ->
  stream_ok after tbl (on_row sequence (query fault (find_by_sequence sequence tbl)) o s).
Proof.
  intros Hat Hs. assert (Hne : at_ s <> Done) by by rewrite Hat.
  destruct (query _ _) as [[e |] | err] eqn:Hrow; [| by apply goto_ok | by apply goto_ok].
  destruct fault; [done |]. apply find_by_sequence_row in Hrow as (r & Hr & He & Hseq).
  pose proof (event_of_row_sequence _ _ He) as Hes.
  assert (Heq : on_row sequence (Ok (Some e)) o s = deliver e o Live s).
  { simpl. unfold deliver. by destruct o; rewrite Hes, Hseq. }
  rewrite Heq. apply deliver_ok; [done | by exists r | | done | done].
  destruct Hs as (es & errs & _ & _ & _ & _ & _ & _ & _ & Hp). rewrite Hat in Hp. simpl in Hp. lia.
Qed.

Lemma send_next_ok after tbl s again e rest o :
  at_ s = Sending again (e :: rest) -> stream_ok after tbl s ->
  stream_ok after tbl
    (deliver e o (match rest with [] => Backfill again | _ => Sending again rest end) s).
Proof.
  intros Hat Hs. assert (Hne : at_ s <> Done) by by rewrite Hat.
  assert (Hp : pc_ok tbl (last_sent_sequence s) (Sending again (e :: rest))).
  { destruct Hs as (es & errs & _ & _ & _ & _ & _ & _ & _ & Hp). by rewrite Hat in Hp. }
  destruct Hp as [[Hlt Hi]%increasing_cons [He Hrest]%Forall_cons].
  apply deliver_ok; [done | done | done | | done]. by destruct rest.
Qed.

Lemma on_notification_ok after tbl s n :
  at_ s = Live -> stream_ok after tbl s -> stream_ok after tbl (on_notification n s).
Proof.
  intros Hat Hs. assert (Hne : at_ s <> Done) by by rewrite Hat.
  destruct n as [[sequence | []] |]; simpl; try (by apply goto_ok).
  destruct (Z.leb_spec sequence (last_sent_sequence s)); by apply goto_ok.
Qed.

Lemma on_count_ok after tbl s count o :
  at_ s = Counting -> stream_ok after tbl s -> stream_ok after tbl (on_count count o s).
Proof.
  intros Hat Hs. assert (Hne : at_ s <> Done) by by rewrite Hat.
  destruct count as [n | e]; simpl; [destruct (_ <? n)%Z |];
    (by apply fail_with_ok) || by apply goto_ok.
Qed.

Lemma do_connection_frame i f f' :
  do_connection i f = Some f' -> committed f' = committed f /\ sub f' = sub f.
Proof.
  unfold do_connection. intros Hd.
  repeat case_match; simplify_eq; done.
Qed.

Lemma do_action_ok after a f f' :
  feed_ok after f -> do_action a f = Some f' -> feed_ok after f'.
Proof.
  intros [Hwf Hs] Ha. destruct a; cbn [do_action] in Ha.
  - destruct (is_bigint nextval); [| done].
    destruct (publish_in_tx _ _ _) as [[seq tbl] |] eqn:Hpub; [| done]. injection Ha as <-.
    apply publish_wf in Hpub as (Hwf' & -> & ->); [| done]. split; [done |]. simpl.
    eapply stream_ok_grows; [| exact Hs]. intros r Hr. apply elem_of_app. by left.
  - apply do_connection_frame in Ha as [Hc Hsub]. unfold feed_ok. by rewrite Hc, Hsub.
  - destruct (at_ (sub f)) eqn:Hat; simplify_eq; split; try done;
      (apply goto_ok; [by rewrite Hat | done | done]).
  - destruct (at_ (sub f)) eqn:Hat; simplify_eq. split; [done | by apply on_page_ok].
  - destruct (at_ (sub f)) as [| again [| e rest] | | | |] eqn:Hat; simplify_eq.
    split; [done | by apply send_next_ok].
  - destruct (at_ (sub f)) eqn:Hat; simplify_eq. destruct (queue f); simplify_eq.
    split; [done | by apply on_notification_ok].
  - destruct (at_ (sub f)) eqn:Hat; simplify_eq.
    split; [done | by apply (on_notification_ok _ _ _ None)].
  - destruct (at_ (sub f)) eqn:Hat; simplify_eq. split; [done | by apply on_row_ok].
  - destruct (at_ (sub f)) eqn:Hat; simplify_eq. split; [done | by apply on_count_ok].
Qed.

Lemma feed_run_ok after f f' : feed_ok after f -> rtc feed_step f f' -> feed_ok after f'.
Proof.
  intros Hok. induction 1 as [| f1 f2 f3 [a Ha] _ IH]; [done |].
  by apply IH, (do_action_ok after a f1).
Qed.

Lemma opened_ok tbl after count s :
  outbox_wf tbl -> subscribe after count = Ok s -> feed_ok (u64_as_i64 after) (opened tbl s).
Proof.
  intros Hwf Hs. unfold subscribe in Hs. apply result_bind_ok in Hs as (n & _ & Hs).
  destruct (_ <? n)%Z; [done |]. injection Hs as <-. split; [done |].
  exists [], []. split_and!; simpl; try done; try constructor; try constructor; lia.
Qed.

(** C30. Whatever the interleaving of commits, losses of connection, failed queries and slow
    readers: the stream of a subscription carries committed events only, each unaltered,
    in strictly increasing sequence order above the requested one - so none twice - then
    at most one error, which ends it. *)
Theorem subscription_in_order tbl after count s f :
  outbox_wf tbl -> subscribe after count = Ok s -> rtc feed_step (opened tbl s) f ->
  exists es errs,
    sent (sub f) = map (fun e => Ok (to_proto e)) es ++ map Err errs /\
    increasing (u64_as_i64 after) es /\
    Forall (committed_event (committed f)) es /\
    length errs <= 1 /\ (at_ (sub f) <> Done -> errs = []).
Proof.
  intros Hwf Hs Hr.
  destruct (feed_run_ok _ _ _ (opened_ok _ _ _ _ Hwf Hs) Hr)
    as (_ & es & errs & Hsent & He & Hl & Hi & Hc & _).
  exists es, errs. by split_and!.
Qed.
End Order.
