(* ===== verification/Delivery.v ===== *)
(** Completeness of the gRPC feed: in a run that commits in sequence order, whose row
    reads succeed, and that never commits while the subscriber neither listens nor has a
    re-backfill ahead of it, the stream is at every time a gap-free prefix of the outbox,
    and all of it once the subscriber is idle.  The last condition is one the code does
    not establish: between the end of a re-backfill and the next LISTEN a commit is lost
    to the subscriber for ever. *)
From S2P Require Import Prelude Primitives Decimal EsEntity Concrete.
From S2P Require Import Outbox Listen Lnd App Grpc Subscription Feed.
From stdpp Require Import sorting.
Import EventPublisher OutboxTheory LightningPaymentGatewayService.

(** ** Specification *)

(** What a subscriber from [after] has to see, in order. *)
Definition outbox_from (after : Z) (tbl : outbox_table) : list OutboxEvent.t :=
  events_of (List.filter (fun r => after <? OutboxRow.sequence r)%Z tbl).

(** The sequences in the channel ahead of the first loss marker, and whether there is
    one. *)
Fixpoint before_loss (q : list (result Z OutboxError.t)) : list Z * bool :=
  match q with
  | [] => ([], false)
  | Ok s :: q => let (p, m) := before_loss q in (s :: p, m)
  | Err OutboxError.ListenDisconnected :: _ => ([], true)
  | Err _ :: q => before_loss q
  end.

Section Gaps.
Context `{SerdeJson} `{Hex} `{TonicText} `{ErrorText}.

(** A commit the subscriber will learn of: its session listens, or a loss is still to be
    handled, or it is paging through the table. *)
Definition noticed (f : feed) : bool :=
  listens (conn f) || (before_loss (queue f)).2 ||
  match at_ (sub f) with Live | Reading _ => false | _ => true end.

(** What the database is asked to do: commit in sequence order, answer the reads of
    notified rows; and the process is not shutting down. *)
Definition in_turn (a : action) (f : feed) : bool :=
  match a with
  | Publish nextval _ => forallb (fun r => OutboxRow.sequence r <? nextval)%Z (committed f)
  | ReadRow (Some _) _ => false
  | Connection ListenConnection.Cancelled => false
  | _ => true
  end.

Definition orderly (a : action) (f : feed) : bool :=
  in_turn a f && match a with Publish _ _ => noticed f | _ => true end.

(** The steps a condition allows, and its runs. *)
Definition step_if (ok : action -> feed -> bool) (f f' : feed) : Prop :=
  exists a, ok a f = true /\ do_action a f = Some f'.

Fixpoint run_if (ok : action -> feed -> bool) (actions : list action) (f : feed) : option feed :=
  match actions with
  | [] => Some f
  | a :: actions => if ok a f then f' ← do_action a f; run_if ok actions f' else None
  end.

Lemma run_if_steps ok actions f f' : run_if ok actions f = Some f' -> rtc (step_if ok) f f'.
Proof.
  revert f. induction actions as [| a actions IH]; intros f; simpl; [by intros [= ->] |].
  destruct (ok a f) eqn:Hok; [| done].
  destruct (do_action a f) as [f1 |] eqn:Ha; simpl; [| done].
  intros Hr. eapply rtc_l; [by exists a | by apply IH].
Qed.

Lemma step_if_feed ok f f' : rtc (step_if ok) f f' -> rtc feed_step f f'.
Proof. apply rtc_subrel. intros x y (a & _ & Ha). by exists a. Qed.

(** ** The notifications cover the table *)

(** The sequences above the cursor the subscriber is going to be told of: those in the
    channel and, unless a loss comes first, those in flight. *)
Definition pending (last : Z) (q : list (result Z OutboxError.t)) (ws : list Z) : list Z :=
  List.filter (fun s => last <? s)%Z
    ((before_loss q).1 ++ if (before_loss q).2 then [] else ws).

(** They are the next ones of the table, and all of them without a loss. *)
Definition cover (last : Z) (q : list (result Z OutboxError.t)) (ws : list Z)
    (rows : outbox_table) : Prop :=
  pending last q ws `prefix_of` map OutboxRow.sequence rows /\
  ((before_loss q).2 = false -> pending last q ws = map OutboxRow.sequence rows).

Lemma before_loss_app q q' :
  before_loss (q ++ q') =
  if (before_loss q).2 then before_loss q
  else ((before_loss q).1 ++ (before_loss q').1, (before_loss q').2).
Proof.
  induction q as [| [s | []] q IH]; simpl; try done; [by destruct (before_loss q') |].
  rewrite IH. destruct (before_loss q) as [p []]; done.
Qed.

Lemma filter_above_app last (l1 l2 : list Z) :
  List.filter (fun s => last <? s)%Z (l1 ++ l2) =
  List.filter (fun s => last <? s)%Z l1 ++ List.filter (fun s => last <? s)%Z l2.
Proof. apply List.filter_app. Qed.

Lemma filter_none last (l : list Z) :
  Forall (fun s => s <= last)%Z l -> List.filter (fun s => last <? s)%Z l = [].
Proof.
  induction 1 as [| s l Hs _ IH]; [done |]. simpl.
  by destruct (Z.ltb_spec last s); [lia |].
Qed.

Lemma pending_publish last q ws n :
  pending last q (ws ++ [n]) =
  pending last q ws ++
  (if (before_loss q).2 then [] else if (last <? n)%Z then [n] else []).
Proof.
  unfold pending. destruct (before_loss q).2.
  - by rewrite !app_nil_r.
  - rewrite app_assoc, filter_above_app. simpl. by destruct (last <? n)%Z.
Qed.

(** A notification moves from the wire to the channel. *)
Lemma pending_arrive last q w ws : pending last (q ++ [Ok w]) ws = pending last q (w :: ws).
Proof.
  unfold pending. rewrite before_loss_app. simpl.
  destruct (before_loss q) as [p []]; simpl; [done |]. by rewrite <- app_assoc.
Qed.

Lemma cover_arrive last q w ws rows :
  cover last q (w :: ws) rows -> cover last (q ++ [Ok w]) ws rows.
Proof.
  unfold cover. rewrite pending_arrive, before_loss_app. simpl.
  by destruct (before_loss q) as [p []].
Qed.

(** The connection is lost: what was in flight may be gone. *)
Lemma cover_loss last q ws rows :
  cover last q ws rows -> cover last (q ++ [Err OutboxError.ListenDisconnected]) [] rows.
Proof.
  unfold cover, pending. rewrite before_loss_app. simpl.
  destruct (before_loss q) as [p []]; simpl; [done |]. intros [Hpre _].
  split; [| done]. rewrite !app_nil_r. rewrite filter_above_app in Hpre.
  etrans; [| exact Hpre]. by apply prefix_app_r.
Qed.

(** A commit is notified. *)
Lemma cover_publish last q ws rows r :
  cover last q ws rows -> (last < OutboxRow.sequence r)%Z ->
  cover last q (ws ++ [OutboxRow.sequence r]) (rows ++ [r]).
Proof.
  unfold cover. intros [Hpre Heq] Hlt. rewrite pending_publish, map_app. simpl.
  destruct (before_loss q) as [p []]; simpl in *.
  - rewrite app_nil_r. split; [by apply prefix_app_r | done].
  - destruct (Z.ltb_spec last (OutboxRow.sequence r)); [| lia]. rewrite Heq by done. done.
Qed.

(** A commit nobody hears of, with a loss still to be handled. *)
Lemma cover_publish_unheard last q ws rows r :
  (before_loss q).2 = true -> cover last q ws rows -> cover last q ws (rows ++ [r]).
Proof.
  unfold cover. intros Hm [Hpre _]. rewrite map_app. split; [by apply prefix_app_r |].
  by rewrite Hm.
Qed.

(** A stale notification is dropped. *)
Lemma cover_stale last q s ws rows :
  (s <= last)%Z -> cover last (Ok s :: q) ws rows -> cover last q ws rows.
Proof.
  unfold cover, pending. simpl. intros Hs. destruct (before_loss q) as [p m]. simpl.
  by destruct (Z.ltb_spec last s); [lia |].
Qed.

(** The next notification is for the next row; reading it moves the cursor. *)
Lemma cover_next last q s ws rows :
  (last < s)%Z -> Forall (fun r => last < OutboxRow.sequence r)%Z rows -> in_order rows ->
  cover last (Ok s :: q) ws rows ->
  exists r rest, rows = r :: rest /\ OutboxRow.sequence r = s /\ cover s q ws rest.
Proof.
  intros Hs Hrows Ho. unfold cover.
  assert (Hp : pending last (Ok s :: q) ws = s :: pending last q ws).
  { unfold pending. simpl. destruct (before_loss q). simpl.
    by destruct (Z.ltb_spec last s); [| lia]. }
  assert (Hm : (before_loss (Ok s :: q)).2 = (before_loss q).2).
  { simpl. by destruct (before_loss q). }
  rewrite Hp, Hm. intros [Hpre Heq]. destruct rows as [| r rest].
  { by apply prefix_nil_inv in Hpre. }
  simpl in Hpre. apply prefix_cons_inv_1 in Hpre as Hsr. apply prefix_cons_inv_2 in Hpre.
  exists r, rest. split; [done |]. split; [done |].
  assert (Habove : Forall (fun x => s < x)%Z (map OutboxRow.sequence rest)).
  { inversion Ho as [| ? ? _ Hf]; subst. apply Forall_map. eapply Forall_impl; [exact Hf |].
    unfold seq_lt. intros x. simpl. lia. }
  assert (Hsame : pending s q ws = pending last q ws).
  { assert (Hall : Forall (fun x => s < x)%Z (pending last q ws)).
    { destruct Hpre as [k Hk]. rewrite Hk in Habove. by apply Forall_app in Habove as [? _]. }
    clear -Hall Hs. unfold pending in *. induction (_ ++ _) as [| x l IH]; [done |].
    simpl in *. destruct (Z.ltb_spec last x) as [Hx | Hx], (Z.ltb_spec s x) as [Hx' | Hx'].
    - apply Forall_cons in Hall as [_ Hall]. by rewrite IH.
    - apply Forall_cons in Hall as [Hall _]. lia.
    - lia.
    - by apply IH. }
  rewrite Hsame. split; [done |]. intros Hf. specialize (Heq Hf). simpl in Heq.
  by injection Heq as _ ->.
Qed.

Lemma cover_publish_old last q ws rows n :
  (n <= last)%Z -> cover last q ws rows -> cover last q (ws ++ [n]) rows.
Proof.
  unfold cover. intros Hn. rewrite pending_publish. destruct (before_loss q) as [p []]; simpl.
  - by rewrite app_nil_r.
  - destruct (Z.ltb_spec last n); [lia |]. by rewrite app_nil_r.
Qed.

Lemma before_loss_cons s q : (before_loss (Ok s :: q)).2 = (before_loss q).2.
Proof. simpl. by destruct (before_loss q). Qed.

(** A commit, on a session that listens or not. *)
Lemma cover_commit last q ws rows r (listening : bool) :
  listening = true \/ (before_loss q).2 = true -> (last < OutboxRow.sequence r)%Z ->
  cover last q ws rows ->
  cover last q (if listening then ws ++ [OutboxRow.sequence r] else ws) (rows ++ [r]).
Proof.
  intros Hl Hlt Hc. destruct listening; [by apply cover_publish |].
  apply cover_publish_unheard; [naive_solver | done].
Qed.

(** ** The invariant *)

Definition queue_seqs (q : list (result Z OutboxError.t)) : list Z :=
  omap (fun m => match m with Ok s => Some s | Err _ => None end) q.

Lemma before_loss_incl q s : s ∈ (before_loss q).1 -> s ∈ queue_seqs q.
Proof.
  induction q as [| [x | []] q IH]; unfold queue_seqs in *; csimpl; try set_solver.
  destruct (before_loss q) as [p m]. simpl in *. set_solver.
Qed.

(** The cursor splits the table; what lies before it has been sent. *)
Definition position (after : Z) (tbl : outbox_table) (s : subscriber)
    (l1 l2 : outbox_table) : Prop :=
  tbl = l1 ++ l2 /\
  Forall (fun r => OutboxRow.sequence r <= last_sent_sequence s)%Z l1 /\
  Forall (fun r => last_sent_sequence s < OutboxRow.sequence r)%Z l2 /\
  (after <= last_sent_sequence s)%Z /\
  (last_sent_sequence s = after \/ last_sent_sequence s ∈ map OutboxRow.sequence l1) /\
  sent s = map (fun e => Ok (to_proto e)) (outbox_from after l1).

Definition channel_ok (f : feed) (ws : list Z) : Prop :=
  wire f = map pretty ws /\ Forall is_i64 ws /\
  (ws <> [] -> ListenConnection.at_ (conn f) = ListenConnection.Listening) /\
  Forall (fun s => s ∈ map OutboxRow.sequence (committed f)) (queue_seqs (queue f) ++ ws).

Definition pc_covered (f : feed) (l2 : outbox_table) (ws : list Z) : Prop :=
  let last := last_sent_sequence (sub f) in
  match at_ (sub f) with
  | Sending _ rest => rest <> [] /\ rest `prefix_of` events_of l2
  | Live => cover last (queue f) ws l2
  | Reading s => (last < s)%Z /\ cover last (Ok s :: queue f) ws l2
  | _ => True
  end.

Definition gapless (after : Z) (f : feed) : Prop :=
  in_order (committed f) /\ Forall published (committed f) /\
  (at_ (sub f) = Done /\
     delivered f `prefix_of` map to_proto (outbox_from after (committed f)) \/
   at_ (sub f) <> Done /\ exists l1 l2 ws,
     position after (committed f) (sub f) l1 l2 /\ channel_ok f ws /\ pc_covered f l2 ws).

Lemma outbox_from_app after l1 l2 :
  outbox_from after (l1 ++ l2) = outbox_from after l1 ++ outbox_from after l2.
Proof. unfold outbox_from. by rewrite List.filter_app, events_of_app. Qed.

Lemma outbox_from_prefix after l1 l2 :
  map to_proto (outbox_from after l1) `prefix_of` map to_proto (outbox_from after (l1 ++ l2)).
Proof. rewrite outbox_from_app, map_app. by apply prefix_app_r. Qed.

Lemma position_delivered after f l1 l2 :
  position after (committed f) (sub f) l1 l2 ->
  delivered f = map to_proto (outbox_from after l1) /\
  delivered f `prefix_of` map to_proto (outbox_from after (committed f)).
Proof.
  intros (Htbl & _ & _ & _ & _ & Hsent).
  assert (Hd : delivered f = map to_proto (outbox_from after l1))
    by (unfold delivered; rewrite Hsent; apply payment_events_ok).
  split; [done |]. rewrite Hd, Htbl. apply outbox_from_prefix.
Qed.

(** Past the cursor by one row. *)
Lemma position_advance after tbl s l1 r l2 e next :
  in_order tbl -> event_of_row r = Ok e ->
  position after tbl s l1 (r :: l2) ->
  position after tbl
    (Subscriber next (OutboxRow.sequence r) (sent s ++ [Ok (to_proto e)])) (l1 ++ [r]) l2.
Proof.
  intros Ho He (Htbl & Hl1 & Hl2 & Hle & _ & Hsent).
  apply Forall_cons in Hl2 as [Hr Hl2]. subst tbl.
  assert (Hrest : Forall (fun x => OutboxRow.sequence r < OutboxRow.sequence x)%Z l2).
  { apply StronglySorted_app_1_r in Ho. by inversion Ho. }
  unfold position. simpl. split_and!.
  - by rewrite <- app_assoc.
  - apply Forall_app_2; [| constructor; [lia | constructor]].
    eapply Forall_impl; [exact Hl1 |]. simpl. lia.
  - done.
  - lia.
  - right. rewrite map_app. apply elem_of_app. right. by left.
  - rewrite outbox_from_app, map_app, Hsent. f_equal. unfold outbox_from. simpl.
    destruct (Z.ltb_spec after (OutboxRow.sequence r)); [| lia].
    by rewrite (events_of_cons _ _ e).
Qed.

(** ** The steps keep it *)

Lemma in_order_snoc tbl r :
  in_order tbl -> (forall r', r' ∈ tbl -> seq_lt r' r) -> in_order (tbl ++ [r]).
Proof.
  intros Ho Hall. apply StronglySorted_app_2; [| done | repeat constructor].
  intros r1 r2 Hr1 ->%list_elem_of_singleton. by apply Hall.
Qed.

Lemma position_commit after tbl s l1 l2 r :
  (forall r', r' ∈ tbl -> seq_lt r' r) ->
  position after tbl s l1 l2 ->
  if decide (last_sent_sequence s < OutboxRow.sequence r)%Z
  then position after (tbl ++ [r]) s l1 (l2 ++ [r])
  else l2 = [] /\ position after (tbl ++ [r]) s (l1 ++ [r]) [].
Proof.
  intros Hnew (-> & Hl1 & Hl2 & Hle & Hlast & Hsent). case_decide as Hlt.
  - unfold position. rewrite app_assoc. split_and!; try done.
    apply Forall_app_2; [done |]. by constructor.
  - assert (l2 = []) as ->.
    { destruct l2 as [| r2 l2]; [done |]. apply Forall_cons in Hl2 as [Hr2 _].
      assert (Hr2' : seq_lt r2 r) by (apply Hnew, elem_of_app; right; by left).
      unfold seq_lt in Hr2'. lia. }
    split; [done |]. rewrite !app_nil_r in *. unfold position. rewrite app_nil_r.
    assert (Hafter : last_sent_sequence s = after).
    { destruct Hlast as [Hlast | (r' & Hr' & Hin)%list_elem_of_fmap]; [done |].
      specialize (Hnew r' Hin). unfold seq_lt in Hnew. lia. }
    split_and!; try done.
    + apply Forall_app_2; [done |]. constructor; [lia | constructor].
    + by left.
    + rewrite outbox_from_app. unfold outbox_from at 2. simpl.
      destruct (Z.ltb_spec after (OutboxRow.sequence r)); [lia |]. by rewrite app_nil_r.
Qed.

Lemma channel_commit f ws n e (listening : bool) :
  is_bigint n = true ->
  (listening = true <-> ListenConnection.at_ (conn f) = ListenConnection.Listening) ->
  channel_ok f ws ->
  channel_ok (Feed (committed f ++ [row_of n e]) (conn f)
                (if listening then wire f ++ [pretty n] else wire f) (queue f) (sub f))
    (if listening then ws ++ [n] else ws).
Proof.
  intros Hn Hl (Hwire & Hi64 & Hlist & Htold). unfold channel_ok. simpl.
  assert (Hgrow : Forall (fun s => s ∈ map OutboxRow.sequence (committed f ++ [row_of n e]))
                    (queue_seqs (queue f) ++ ws)).
  { eapply Forall_impl; [exact Htold |]. intros x Hx. rewrite map_app. apply elem_of_app. by left. }
  destruct listening; [| by split_and!]. split_and!.
  - by rewrite map_app, Hwire.
  - apply Forall_app_2; [done |]. constructor; [| constructor].
    unfold is_bigint in Hn. apply andb_true_iff in Hn. unfold is_i64. lia.
  - intros _. by apply Hl.
  - rewrite app_assoc. apply Forall_app_2; [done |]. constructor; [| constructor].
    rewrite map_app. apply elem_of_app. right. by left.
Qed.

Lemma publish_gapless after f n e :
  is_bigint n = true -> orderly (Publish n e) f = true -> gapless after f ->
  gapless after
    (Feed (committed f ++ [row_of n e]) (conn f)
       (if listens (conn f) then wire f ++ [pretty n] else wire f) (queue f) (sub f)).
Proof.
  intros Hn [Hnew Hnoticed]%andb_true_iff (Ho & Hpub & Hst).
  assert (Hnew' : forall r', r' ∈ committed f -> seq_lt r' (row_of n e)).
  { intros r' Hr'. simpl in Hnew. rewrite forallb_forall in Hnew.
    apply Z.ltb_lt, Hnew. by apply list_elem_of_In. }
  split; [by apply in_order_snoc |].
  split. { apply Forall_app_2; [done |]. constructor; [by exists n, e | constructor]. }
  destruct Hst as [[Hat Hpre] | (Hat & l1 & l2 & ws & Hpos & Hch & Hpc)].
  { left. split; [done |]. unfold delivered in *. simpl. etrans; [exact Hpre |].
    apply outbox_from_prefix. }
  right. split; [done |].
  assert (Hch' := channel_commit f ws n e (listens (conn f)) Hn (bool_decide_eq_true _) Hch).
  pose proof (position_commit _ _ _ _ _ _ Hnew' Hpos) as Hpos'.
  assert (Hheard : match at_ (sub f) with
                   | Live | Reading _ => listens (conn f) = true \/ (before_loss (queue f)).2 = true
                   | _ => True end).
  { unfold noticed in Hnoticed. destruct (at_ (sub f)); try done;
      rewrite orb_false_r in Hnoticed; by apply orb_true_iff in Hnoticed. }
  case_decide as Hlt; [| destruct Hpos' as [-> Hpos']]; simpl in Hlt.
  - exists l1, (l2 ++ [row_of n e]), (if listens (conn f) then ws ++ [n] else ws).
    split_and!; [done | done |]. unfold pc_covered in *. simpl.
    destruct (at_ (sub f)); try done.
    + destruct Hpc as [Hne Hpre]. split; [done |]. rewrite events_of_app.
      by apply prefix_app_r.
    + by apply (cover_commit _ _ _ _ (row_of n e)).
    + destruct Hpc as [Hs Hc]. split; [done |].
      apply (cover_commit _ _ _ _ (row_of n e)); [by rewrite before_loss_cons | done | done].
  - exists (l1 ++ [row_of n e]), [], (if listens (conn f) then ws ++ [n] else ws).
    split_and!; [done | done |]. unfold pc_covered in *. simpl.
    destruct (at_ (sub f)); try done; destruct (listens (conn f)); try done.
    + apply cover_publish_old; [lia | done].
    + destruct Hpc as [Hs Hc]. split; [done |]. apply cover_publish_old; [lia | done].
Qed.

Lemma connection_step_cases i c c' out :
  i <> ListenConnection.Cancelled ->
  ListenConnection.connection_step true i c = (c', out) ->
  (out = [] /\
     (ListenConnection.at_ c = ListenConnection.Listening ->
      ListenConnection.at_ c' = ListenConnection.Listening)) \/
  (out = [Err OutboxError.ListenDisconnected] /\ listens c' = false) \/
  (exists p s, i = ListenConnection.Notification p /\ parse_i64 p = Ok s /\
     out = [Ok s] /\ c' = c).
Proof.
  unfold ListenConnection.connection_step, ListenConnection.lost. intros Hi.
  destruct c as [b []], i; simpl; try done; try (intros [= <- <-]; by naive_solver).
  destruct (parse_i64 payload) eqn:Hp; intros [= <- <-]; [| naive_solver].
  right. right. by exists payload, a.
Qed.

(** A move of the channel that keeps what the subscriber will be told. *)
Lemma pc_covered_channel f f' l2 ws ws' :
  sub f' = sub f ->
  (forall q0, cover (last_sent_sequence (sub f)) (q0 ++ queue f) ws l2 ->
              cover (last_sent_sequence (sub f)) (q0 ++ queue f') ws' l2) ->
  pc_covered f l2 ws -> pc_covered f' l2 ws'.
Proof.
  intros Hsub Hq. unfold pc_covered. rewrite Hsub. destruct (at_ (sub f)); try done.
  - apply (Hq []).
  - intros [Hs Hc]. split; [done |]. by apply (Hq [Ok _]).
Qed.

Lemma queue_seqs_app q q' : queue_seqs (q ++ q') = queue_seqs q ++ queue_seqs q'.
Proof. apply omap_app. Qed.

(** Reading one notification off the session. *)
Lemma notification_channel f p wire' ws s :
  wire f = p :: wire' -> channel_ok f ws -> parse_i64 p = Ok s ->
  exists ws', ws = s :: ws' /\
    channel_ok (Feed (committed f) (conn f) wire' (queue f ++ [Ok s]) (sub f)) ws'.
Proof.
  intros Hw (Hwire & Hi64 & Hlist & Htold) Hp. rewrite Hw in Hwire.
  destruct ws as [| w ws']; [done |]. injection Hwire as -> ->.
  apply Forall_cons in Hi64 as [Hi Hi64]. rewrite parse_i64_pretty in Hp by done.
  injection Hp as ->. exists ws'. split; [done |]. unfold channel_ok. simpl. split_and!; try done.
  - intros _. by apply Hlist.
  - rewrite queue_seqs_app. simpl. by rewrite <- app_assoc.
Qed.

(** The three moves of the connection. *)
Lemma connection_silent f c' ws l2 :
  (ListenConnection.at_ (conn f) = ListenConnection.Listening ->
   ListenConnection.at_ c' = ListenConnection.Listening) ->
  channel_ok f ws -> pc_covered f l2 ws ->
  let f' := Feed (committed f) c' (if listens c' then wire f else []) (queue f ++ []) (sub f) in
  channel_ok f' ws /\ pc_covered f' l2 ws.
Proof.
  intros Hkeep (Hwire & Hi64 & Hlist & Htold) Hpc f'. unfold f'. rewrite app_nil_r. split.
  - unfold channel_ok. simpl. split_and!; [| done | auto | done].
    unfold listens. case_bool_decide; [done |]. destruct ws as [| w ws]; [done |].
    naive_solver.
  - by apply (pc_covered_channel f _ l2 ws ws).
Qed.

Lemma connection_lost f c' ws l2 :
  listens c' = false -> channel_ok f ws -> pc_covered f l2 ws ->
  let f' := Feed (committed f) c' [] (queue f ++ [Err OutboxError.ListenDisconnected]) (sub f) in
  channel_ok f' [] /\ pc_covered f' l2 [].
Proof.
  intros Hno (Hwire & Hi64 & Hlist & Htold) Hpc f'. split.
  - unfold channel_ok. simpl. split_and!; try done; try constructor.
    rewrite queue_seqs_app, app_nil_r. simpl. rewrite app_nil_r.
    by apply Forall_app in Htold as [? _].
  - apply (pc_covered_channel f f' l2 ws []); [done | | done].
    intros q0 Hc. simpl. rewrite app_assoc. by apply (cover_loss _ _ ws).
Qed.

Lemma connection_gapless after i f f' :
  i <> ListenConnection.Cancelled -> do_connection i f = Some f' ->
  gapless after f -> gapless after f'.
Proof.
  intros Hi Hd (Ho & Hpub & Hst). pose proof (do_connection_frame _ _ _ Hd) as [Hc Hsub].
  unfold gapless, delivered in *. rewrite Hc, Hsub.
  split; [done |]. split; [done |].
  destruct Hst as [? | (Hat & l1 & l2 & ws & Hpos & Hch & Hpc)]; [by left |].
  right. split; [done |]. exists l1, l2.
  enough (Hex : exists ws', channel_ok f' ws' /\ pc_covered f' l2 ws') by naive_solver.
  unfold do_connection in Hd.
  replace (match at_ (sub f) with Done => false | _ => true end) with true in Hd
    by by destruct (at_ (sub f)).
  destruct (ListenConnection.connection_step true i (conn f)) as [c' out] eqn:Hstep.
  assert (Hnot : (exists p, i = ListenConnection.Notification p) \/
    Some (Feed (committed f) c' (if listens c' then wire f else []) (queue f ++ out) (sub f))
      = Some f') by (destruct i; eauto).
  destruct (connection_step_cases _ _ _ _ Hi Hstep)
    as [[-> Hkeep] | [[-> Hno] | (p & s & -> & Hp & -> & ->)]].
  - destruct Hnot as [[p ->] | [= <-]]; [| exists ws; by apply connection_silent].
    destruct (wire f) as [| p' wire'] eqn:Hw; [done |].
    destruct (String.eqb_spec p' p) as [-> |]; [| done].
    destruct Hch as (Hwire & Hi64 & Hlist & Htold). exfalso.
    rewrite Hw in Hwire. destruct ws as [| w ws']; [done |]. injection Hwire as -> _.
    apply Forall_cons in Hi64 as [Hi' _]. specialize (Hlist ltac:(done)).
    unfold ListenConnection.connection_step in Hstep. rewrite Hlist in Hstep.
    rewrite parse_i64_pretty in Hstep by done. done.
  - destruct Hnot as [[p ->] | [= <-]].
    + unfold ListenConnection.connection_step in Hstep.
      repeat case_match; simplify_eq.
    + rewrite Hno. exists []. by apply (connection_lost f c' ws l2).
  - destruct (wire f) as [| p' wire'] eqn:Hw; [done |].
    destruct (String.eqb_spec p' p) as [-> |]; [| done].
    destruct (notification_channel f p wire' ws s Hw Hch Hp) as (ws' & -> & Hch').
    assert (Hl : listens (conn f) = true).
    { destruct Hch as (_ & _ & Hlist & _). unfold listens. rewrite Hlist by done. done. }
    rewrite Hl in Hd. injection Hd as <-. exists ws'. split; [done |].
    apply (pc_covered_channel f _ l2 (s :: ws') ws'); [done | | done].
    intros q0 Hcov. simpl. rewrite app_assoc. by apply cover_arrive.
Qed.

(** The subscriber moves on without sending, or returns. *)
Lemma move_gapless after f l1 l2 ws queue' p :
  in_order (committed f) -> Forall published (committed f) ->
  position after (committed f) (sub f) l1 l2 -> channel_ok f ws ->
  (queue_seqs queue' ⊆ queue_seqs (queue f)) ->
  (p <> Done -> pc_covered (Feed (committed f) (conn f) (wire f) queue' (goto p (sub f))) l2 ws) ->
  gapless after (Feed (committed f) (conn f) (wire f) queue' (goto p (sub f))).
Proof.
  intros Ho Hpub Hpos (Hwire & Hi64 & Hlist & Htold) Hq Hpc. split; [done |]. split; [done |].
  assert (Hdec : p = Done \/ p <> Done) by (destruct p; (by left) || by right).
  destruct Hdec as [-> | Hne].
  - left. split; [done |]. exact (proj2 (position_delivered _ _ _ _ Hpos)).
  - right. split; [done |]. exists l1, l2, ws. split_and!; [exact Hpos | | by apply Hpc].
    unfold channel_ok. simpl. split_and!; try done.
    apply Forall_app in Htold as [Ht1 Ht2]. apply Forall_app_2; [| done].
    apply Forall_forall. intros x Hx. apply (proj1 (Forall_forall _ _) Ht1). by apply Hq.
Qed.

(** It returns with an error, or with an event the reader did not take. *)
Lemma stop_gapless after f l1 l2 s' :
  in_order (committed f) -> Forall published (committed f) ->
  position after (committed f) (sub f) l1 l2 ->
  at_ s' = Done -> payment_events (sent s') = delivered f ->
  gapless after (set_sub f s').
Proof.
  intros Ho Hpub Hpos Hat Hd. split; [done |]. split; [done |]. left. split; [done |].
  unfold delivered at 1. simpl. rewrite Hd. exact (proj2 (position_delivered _ _ _ _ Hpos)).
Qed.

Lemma fail_with_gapless after f l1 l2 st o :
  in_order (committed f) -> Forall published (committed f) ->
  position after (committed f) (sub f) l1 l2 ->
  gapless after (set_sub f (fail_with st o (sub f))).
Proof.
  intros Ho Hpub Hpos. eapply stop_gapless; try done. unfold delivered. destruct o; simpl; try done.
  rewrite payment_events_app. by rewrite app_nil_r.
Qed.

(** It delivers the next row of the table. *)
Lemma deliver_gapless after f l1 r l2 ws e o next :
  in_order (committed f) -> Forall published (committed f) -> event_of_row r = Ok e ->
  position after (committed f) (sub f) l1 (r :: l2) -> channel_ok f ws -> next <> Done ->
  pc_covered (set_sub f (Subscriber next (OutboxRow.sequence r)
                           (sent (sub f) ++ [Ok (to_proto e)]))) l2 ws ->
  gapless after (set_sub f (deliver e o next (sub f))).
Proof.
  intros Ho Hpub He Hpos Hch Hne Hpc. pose proof (event_of_row_sequence _ _ He) as Hseq.
  unfold deliver. destruct o; try (by eapply stop_gapless).
  rewrite Hseq. split; [done |]. split; [done |]. right. split; [done |].
  exists (l1 ++ [r]), l2, ws. split_and!; [| done | done].
  by apply position_advance.
Qed.

Lemma published_tail l1 r l2 :
  Forall published (l1 ++ r :: l2) -> exists e, event_of_row r = Ok e.
Proof. intros [_ [Hr _]%Forall_cons]%Forall_app. by apply event_of_row_published. Qed.

Lemma page_gapless after f again fault o :
  at_ (sub f) = Backfill again -> gapless after f ->
  gapless after (set_sub f (on_page again
    (query fault (fetch_after_batch (last_sent_sequence (sub f)) (committed f))) o (sub f))).
Proof.
  intros Hat (Ho & Hpub & [[Hd _] | (_ & l1 & l2 & ws & Hpos & Hch & _)]);
    [by rewrite Hat in Hd |].
  destruct fault as [err |]; [by eapply fail_with_gapless |]. simpl query.
  pose proof Hpos as (Htbl & Hl1 & Hl2 & _).
  unfold fetch_after_batch. rewrite Htbl in *.
  rewrite (rows_after_split l1 l2) by done. apply Forall_app in Hpub as Hpub'.
  destruct Hpub' as [_ Hpub2].
  rewrite collect_published by by apply Forall_take.
  set (k := Z.to_nat BACKFILL_BATCH_SIZE).
  assert (Hpre : events_of (take k l2) `prefix_of` events_of l2).
  { exists (events_of (drop k l2)). by rewrite <- events_of_app, take_drop. }
  rewrite <- Htbl in *.
  destruct (events_of (take k l2)) as [| e es] eqn:Hpage; simpl.
  - apply (move_gapless after f l1 l2 ws (queue f) Live); try done. intros _.
    assert (l2 = []) as ->.
    { apply events_of_nil in Hpage; [| by apply Forall_take]. by destruct l2. }
    unfold pc_covered. simpl.
    assert (Hnone : pending (last_sent_sequence (sub f)) (queue f) ws = []).
    { destruct Hch as (_ & _ & _ & Htold). apply filter_none. apply Forall_forall.
      intros x Hx. rewrite app_nil_r in Htbl.
      assert (Hin : x ∈ map OutboxRow.sequence l1).
      { rewrite <- Htbl. apply (proj1 (Forall_forall _ _) Htold).
        apply elem_of_app in Hx as [Hx | Hx]; apply elem_of_app;
          [left; by apply before_loss_incl |].
        destruct (before_loss (queue f)).2; [by apply not_elem_of_nil in Hx | by right]. }
      apply list_elem_of_fmap in Hin as (r & -> & Hr). by apply (proj1 (Forall_forall _ _) Hl1). }
    unfold cover. by rewrite Hnone.
  - apply (move_gapless after f l1 l2 ws (queue f) (Sending again (e :: es))); try done.
Qed.

Lemma send_gapless after f again e rest o :
  at_ (sub f) = Sending again (e :: rest) -> gapless after f ->
  gapless after (set_sub f (deliver e o
    (match rest with [] => Backfill again | _ => Sending again rest end) (sub f))).
Proof.
  intros Hat (Ho & Hpub & [[Hd _] | (_ & l1 & l2 & ws & Hpos & Hch & Hpc)]);
    [by rewrite Hat in Hd |].
  unfold pc_covered in Hpc. rewrite Hat in Hpc. destruct Hpc as [_ Hpre].
  destruct l2 as [| r l2]; [by apply prefix_nil_inv in Hpre |].
  assert (Hr : exists e, event_of_row r = Ok e).
  { destruct Hpos as (Htbl & _). rewrite Htbl in Hpub. by apply published_tail in Hpub. }
  destruct Hr as [e' He']. rewrite (events_of_cons _ _ e') in Hpre by done.
  pose proof (prefix_cons_inv_1 _ _ _ _ Hpre) as ->. apply prefix_cons_inv_2 in Hpre.
  apply (deliver_gapless after f l1 r l2 ws); try done.
  - by destruct rest.
  - unfold pc_covered. by destruct rest.
Qed.

Lemma read_gapless after f sequence o :
  at_ (sub f) = Reading sequence -> gapless after f ->
  gapless after (set_sub f
    (on_row sequence (find_by_sequence sequence (committed f)) o (sub f))).
Proof.
  intros Hat (Ho & Hpub & [[Hd _] | (_ & l1 & l2 & ws & Hpos & Hch & Hpc)]);
    [by rewrite Hat in Hd |].
  unfold pc_covered in Hpc. rewrite Hat in Hpc. destruct Hpc as [Hlt Hcov].
  pose proof Hpos as (Htbl & Hl1 & Hl2 & _).
  assert (Ho2 : in_order l2) by (rewrite Htbl in Ho; by apply StronglySorted_app_1_r in Ho).
  destruct (cover_next _ _ _ _ _ Hlt Hl2 Ho2 Hcov) as (r & rest & -> & Hseq & Hcov').
  assert (Hr : exists e, event_of_row r = Ok e).
  { rewrite Htbl in Hpub. by apply published_tail in Hpub. }
  destruct Hr as [e He]. pose proof (event_of_row_sequence _ _ He) as Hes.
  assert (Hrow : find_by_sequence sequence (committed f) = Ok (Some e)).
  { rewrite Htbl, <- Hseq. apply find_by_sequence_in_order; [by rewrite <- Htbl | done]. }
  rewrite Hrow. replace (on_row sequence (Ok (Some e)) o (sub f)) with (deliver e o Live (sub f))
    by (simpl; unfold deliver; by destruct o; rewrite Hes, Hseq).
  apply (deliver_gapless after f l1 r rest ws); try done.
  unfold pc_covered. simpl. by rewrite Hseq.
Qed.

Lemma receive_gapless after f n queue' :
  at_ (sub f) = Live -> queue f = n :: queue' -> gapless after f ->
  gapless after
    (Feed (committed f) (conn f) (wire f) queue' (on_notification (Some n) (sub f))).
Proof.
  intros Hat Hq (Ho & Hpub & [[Hd _] | (_ & l1 & l2 & ws & Hpos & Hch & Hpc)]);
    [by rewrite Hat in Hd |].
  unfold pc_covered in Hpc. rewrite Hat, Hq in Hpc.
  assert (Hincl : queue_seqs queue' ⊆ queue_seqs (queue f)).
  { rewrite Hq. unfold queue_seqs. csimpl. destruct n; set_solver. }
  destruct n as [s | []]; simpl.
  - destruct (Z.leb_spec s (last_sent_sequence (sub f))) as [Hle | Hgt];
      apply (move_gapless after f l1 l2 ws); try done; intros _; unfold pc_covered; simpl.
    by apply (cover_stale _ _ s).
  - by apply (move_gapless after f l1 l2 ws).
  - by apply (move_gapless after f l1 l2 ws).
  - by apply (move_gapless after f l1 l2 ws).
  - by apply (move_gapless after f l1 l2 ws).
  - by apply (move_gapless after f l1 l2 ws).
Qed.

Lemma count_gapless after f fault o :
  at_ (sub f) = Counting -> gapless after f ->
  gapless after (set_sub f (on_count
    (query fault (Ok (count_after (last_sent_sequence (sub f)) (committed f)))) o (sub f))).
Proof.
  intros Hat (Ho & Hpub & [[Hd _] | (_ & l1 & l2 & ws & Hpos & Hch & _)]);
    [by rewrite Hat in Hd |].
  destruct fault as [err |]; simpl; [by eapply fail_with_gapless |].
  destruct (_ <? _)%Z; [by eapply fail_with_gapless |].
  by apply (move_gapless after f l1 l2 ws (queue f) (Backfill true)).
Qed.

Lemma close_gapless after f :
  at_ (sub f) <> Done -> gapless after f -> gapless after (set_sub f (goto Done (sub f))).
Proof.
  intros Hat (Ho & Hpub & [[Hd _] | (_ & l1 & l2 & ws & Hpos & Hch & _)]); [done |].
  by apply (move_gapless after f l1 l2 ws (queue f) Done).
Qed.

Lemma gapless_wf after f : gapless after f -> outbox_wf (committed f).
Proof.
  intros (Ho & Hpub & _). split; [done |]. clear Hpub.
  induction Ho as [| r l Hs IH Hr]; simpl; constructor; [| done].
  intros (r' & Heq & Hr')%list_elem_of_fmap.
  pose proof (proj1 (Forall_forall _ _) Hr r' Hr') as Hlt. unfold seq_lt in Hlt. lia.
Qed.

Lemma orderly_step_gapless after f f' : step_if orderly f f' -> gapless after f -> gapless after f'.
Proof.
  intros (a & Hord & Ha) Hg. destruct a; cbn [do_action] in Ha.
  - destruct (is_bigint nextval) eqn:Hn; [| done].
    destruct (publish_in_tx _ _ _) as [[seq tbl] |] eqn:Hpub; [| done]. injection Ha as <-.
    apply publish_wf in Hpub as (_ & -> & ->); [| by apply (gapless_wf after)].
    by apply publish_gapless.
  - apply (connection_gapless after i f f'); [| done | done]. by intros ->.
  - destruct (at_ (sub f)) eqn:Hat; simplify_eq; apply close_gapless; by rewrite ?Hat.
  - destruct (at_ (sub f)) eqn:Hat; simplify_eq. by apply page_gapless.
  - destruct (at_ (sub f)) as [| again [| e rest] | | | |] eqn:Hat; simplify_eq.
    by apply send_gapless.
  - destruct (at_ (sub f)) eqn:Hat; simplify_eq. destruct (queue f) eqn:Hq; simplify_eq.
    by apply receive_gapless.
  - destruct (at_ (sub f)) eqn:Hat; simplify_eq. apply close_gapless; by rewrite ?Hat.
  - destruct (at_ (sub f)) eqn:Hat; simplify_eq.
    destruct fault; [done | by apply read_gapless].
  - destruct (at_ (sub f)) eqn:Hat; simplify_eq. by apply count_gapless.
Qed.

Lemma opened_gapless tbl after count s :
  in_order tbl -> Forall published tbl -> subscribe after count = Ok s ->
  gapless (u64_as_i64 after) (opened tbl s).
Proof.
  intros Ho Hpub Hs. unfold subscribe in Hs. apply result_bind_ok in Hs as (n & _ & Hs).
  destruct (_ <? n)%Z; [done |]. injection Hs as <-. split; [done |]. split; [done |].
  right. split; [done |]. destruct (in_order_split tbl (u64_as_i64 after) Ho) as (l1 & l2 & -> & Hl1 & Hl2).
  exists l1, l2, []. split_and!.
  - unfold position. simpl. split_and!; try done; [by left |]. unfold outbox_from.
    replace (List.filter _ l1) with (@nil OutboxRow.t); [done |].
    clear -Hl1. induction Hl1 as [| r l Hr _ IH]; [done |]. simpl.
    by destruct (Z.ltb_spec (u64_as_i64 after) (OutboxRow.sequence r)); [lia |].
  - unfold channel_ok. simpl. split_and!; try done; constructor.
  - done.
Qed.

(** ** Theorems *)

(** C29. No gaps: in an orderly run the stream is at every moment a prefix of the outbox from
    the requested sequence on, and once the subscriber has nothing left to read or to be
    told it is all of it - through any number of lost connections and re-backfills. *)
Theorem subscription_complete tbl after count s f :
  in_order tbl -> Forall published tbl -> subscribe after count = Ok s ->
  rtc (step_if orderly) (opened tbl s) f ->
  let expected := map to_proto (outbox_from (u64_as_i64 after) (committed f)) in
  delivered f `prefix_of` expected /\
  (at_ (sub f) = Live -> queue f = [] -> wire f = [] -> delivered f = expected).
Proof.
  intros Ho Hpub Hs Hr expected.
  assert (Hg : gapless (u64_as_i64 after) f).
  { pose proof (opened_gapless _ _ _ _ Ho Hpub Hs) as Hg. clear Hs.
    induction Hr as [| f1 f2 f3 Hstep _ IH]; [done |].
    by apply IH, (orderly_step_gapless _ f1). }
  destruct Hg as (Hof & Hpf & [[Hd Hpre] | (Hat & l1 & l2 & ws & Hpos & Hch & Hpc)]).
  { split; [done |]. by rewrite Hd. }
  destruct (position_delivered _ _ _ _ Hpos) as [Hdel Hpre]. split; [done |].
  intros Hlive Hq Hw. unfold pc_covered in Hpc. rewrite Hlive, Hq in Hpc.
  destruct Hch as (Hwire & _). rewrite Hw in Hwire. symmetry in Hwire.
  apply map_eq_nil in Hwire as ->. destruct Hpc as [_ Hall]. specialize (Hall eq_refl).
  destruct l2; [| done]. destruct Hpos as (Htbl & _). rewrite app_nil_r in Htbl.
  unfold expected. by rewrite Hdel, Htbl.
Qed.

(** ** Later deliveries *)

(** What the subscriber may have become: its cursor has not gone back, and what it was
    sent since lies above the old one. *)
Definition above (f : feed) (s : subscriber) : Prop :=
  (last_sent_sequence (sub f) <= last_sent_sequence s)%Z /\
  exists es, payment_events (sent s) = delivered f ++ map to_proto es /\
    Forall (fun e => last_sent_sequence (sub f) < OutboxEvent.sequence e)%Z es.

Lemma goto_above f p : above f (goto p (sub f)).
Proof. split; [simpl; lia |]. exists []. by rewrite app_nil_r. Qed.

Lemma fail_with_above f st o : above f (fail_with st o (sub f)).
Proof.
  split; [simpl; lia |]. exists []. unfold delivered.
  destruct o; simpl; by rewrite ?payment_events_app, ?app_nil_r.
Qed.

Lemma deliver_above f e o next :
  (last_sent_sequence (sub f) < OutboxEvent.sequence e)%Z ->
  above f (deliver e o next (sub f)).
Proof.
  intros Hlt. unfold above, deliver.
  destruct o; simpl; (split; [lia |]).
  - exists [e]. rewrite payment_events_app. split; [done | by constructor].
  - exists []. by rewrite app_nil_r.
  - exists []. by rewrite app_nil_r.
Qed.

#[local] Hint Resolve goto_above fail_with_above deliver_above : core.

Lemma on_row_above f sequence fault o :
  (last_sent_sequence (sub f) < sequence)%Z ->
  above f (on_row sequence (query fault (find_by_sequence sequence (committed f))) o (sub f)).
Proof.
  intros Hlt. unfold on_row. destruct (query _ _) as [[e |] | err] eqn:Hrow; auto.
  destruct fault; [done |]. apply find_by_sequence_row in Hrow as (r & Hr & He & Hseq).
  pose proof (event_of_row_sequence _ _ He) as Hes.
  pose proof (deliver_above f e o Live ltac:(lia)) as Ha.
  unfold deliver in Ha. by rewrite Hes, Hseq in Ha.
Qed.

Lemma step_above after a f f' :
  feed_ok after f -> do_action a f = Some f' -> above f (sub f').
Proof.
  intros [Hwf (es0 & errs0 & _ & _ & _ & _ & _ & _ & _ & Hp)] Ha.
  destruct a; cbn [do_action] in Ha.
  - destruct (is_bigint nextval); [| done].
    destruct (publish_in_tx _ _ _) as [[seq tbl] |]; [| done]. injection Ha as <-.
    apply (goto_above f (at_ (sub f))).
  - apply do_connection_frame in Ha as [_ ->]. apply (goto_above f (at_ (sub f))).
  - destruct (at_ (sub f)); simplify_eq; apply goto_above.
  - destruct (at_ (sub f)); simplify_eq. cbn [sub set_sub]. unfold on_page.
    destruct (query _ _) as [[| e page] | err]; auto.
  - destruct (at_ (sub f)) as [| again' [| e rest'] | | | |] eqn:Hat; simplify_eq.
    destruct Hp as [[Hlt _]%increasing_cons _]. by apply deliver_above.
  - destruct (at_ (sub f)); simplify_eq. destruct (queue f) as [| n q]; simplify_eq.
    cbn [sub]. unfold on_notification.
    destruct n as [s | []]; [destruct (_ <=? _)%Z | ..]; auto.
  - destruct (at_ (sub f)); simplify_eq. apply goto_above.
  - destruct (at_ (sub f)) eqn:Hat; simplify_eq. by apply on_row_above.
  - destruct (at_ (sub f)); simplify_eq. cbn [sub set_sub]. unfold on_count.
    destruct (query _ _) as [n | err]; [destruct (_ <? n)%Z |]; auto.
Qed.

Lemma step_commits a f f' r : do_action a f = Some f' -> r ∈ committed f -> r ∈ committed f'.
Proof.
  intros Ha Hr. destruct a; cbn [do_action] in Ha;
    [| apply do_connection_frame in Ha as [-> _]; done | repeat case_match; simplify_eq; done ..].
  destruct (is_bigint nextval); [| done]. unfold publish_in_tx in Ha.
  destruct (existsb _ _); [done |]. injection Ha as <-. simpl. apply elem_of_app. by left.
Qed.

Lemma run_commits f f' r : rtc feed_step f f' -> r ∈ committed f -> r ∈ committed f'.
Proof. induction 1 as [| f1 f2 f3 [a Ha] _ IH]; [done |]. intros Hr. by eapply IH, step_commits. Qed.

Lemma run_above after f f' :
  feed_ok after f -> rtc feed_step f f' ->
  (last_sent_sequence (sub f) <= last_sent_sequence (sub f'))%Z /\
  exists es, delivered f' = delivered f ++ map to_proto es /\
    Forall (fun e => last_sent_sequence (sub f) < OutboxEvent.sequence e)%Z es.
Proof.
  intros Hok Hr. induction Hr as [f | f1 f2 f3 [a Ha] _ IH].
  - split; [lia |]. exists []. by rewrite app_nil_r.
  - destruct (step_above _ _ _ _ Hok Ha) as (Hle & es & Hd & Hes).
    destruct (IH (do_action_ok _ _ _ _ Hok Ha)) as (Hle' & es' & Hd' & Hes').
    split; [lia |]. exists (es ++ es'). unfold delivered at 1 in Hd'.
    fold (delivered f3) in Hd'. rewrite Hd'. unfold delivered at 1. rewrite Hd.
    rewrite map_app, app_assoc. split; [done |]. apply Forall_app_2; [done |].
    eapply Forall_impl; [exact Hes' |]. simpl. lia.
Qed.

(** ** The window of the reconnection *)

Definition some_event : NewOutboxEvent.t :=
  NewOutboxEvent.for_lightning_payment_completed "h" "h" 5 (Timestamp.new 0) JNull.

Definition fresh_subscriber : subscriber := Subscriber (Backfill false) 0 [].

(** The session is lost, the loss handled with a re-backfill that finds nothing; event 1
    commits while the connection task sleeps, event 2 after it listens again. *)
Definition reconnection : list action :=
  [Connection ListenConnection.Connected; Connection ListenConnection.ListenRegistered;
   FetchPage None Sent; Connection ListenConnection.NotificationsClosed;
   Receive; CountAgain None Sent; FetchPage None Sent;
   Publish 1 some_event;
   Connection ListenConnection.Slept; Connection ListenConnection.Connected;
   Connection ListenConnection.ListenRegistered;
   Publish 2 some_event; Connection (ListenConnection.Notification "2");
   Receive; ReadRow None Sent].

Definition after_reconnection : feed :=
  Feed [row_of 1 some_event; row_of 2 some_event]
    (ListenConnection.mk 1000 ListenConnection.Listening) [] []
    (Subscriber Live 2 [Ok (to_proto (event_of 2 some_event))]).

Lemma reconnection_run :
  run_if in_turn reconnection (opened [] fresh_subscriber) = Some after_reconnection.
Proof. vm_compute. reflexivity. Qed.

(** The window is real: with commits in order, every query answered and every send
    accepted, a run loses an event - it is committed, its subscriber is live and has
    moved past it, and no continuation of the run ever delivers it. *)
Theorem reconnection_loses_event :
  subscribe 0 (Ok 0%Z) = Ok fresh_subscriber /\
  exists f, rtc (step_if in_turn) (opened [] fresh_subscriber) f /\
    at_ (sub f) = Live /\ queue f = [] /\ wire f = [] /\
    row_of 1 some_event ∈ committed f /\
    forall f', rtc feed_step f f' ->
      row_of 1 some_event ∈ committed f' /\
      exists es, delivered f' = map to_proto es /\
        Forall (fun e => 1 < OutboxEvent.sequence e)%Z es.
Proof.
  split; [done |].
  exists after_reconnection.
  pose proof (run_if_steps _ _ _ _ reconnection_run) as Hsteps. split; [done |].
  assert (Hok : feed_ok 0 after_reconnection).
  { apply (feed_run_ok 0 (opened [] fresh_subscriber)); [| by apply (step_if_feed in_turn)].
    apply (opened_ok [] 0 (Ok 0%Z)); [| done]. split; constructor. }
  split_and!; [done | done | done | by left |].
  intros f' Hf'. split; [eapply run_commits; [exact Hf' | by left] |].
  destruct (run_above 0 _ f' Hok Hf') as (_ & es & Hd & Hes).
  exists (event_of 2 some_event :: es). split; [exact Hd |].
  constructor; [done |]. eapply Forall_impl; [exact Hes |]. simpl. lia.
Qed.

(** The same loss, seen as a run without it: had event 1 been committed before the
    re-backfill read the table, it would have been delivered. *)
Definition prompt : list action :=
  [Connection ListenConnection.Connected; Connection ListenConnection.ListenRegistered;
   FetchPage None Sent; Connection ListenConnection.NotificationsClosed;
   Publish 1 some_event; Receive; CountAgain None Sent; FetchPage None Sent; SendNext Sent;
   FetchPage None Sent].

Definition after_prompt : feed :=
  Feed [row_of 1 some_event]
    (ListenConnection.mk 1000 ListenConnection.Sleeping) [] []
    (Subscriber Live 1 [Ok (to_proto (event_of 1 some_event))]).

Lemma prompt_run : run_if orderly prompt (opened [] fresh_subscriber) = Some after_prompt.
Proof. vm_compute. reflexivity. Qed.

Lemma fresh_subscribed : subscribe 0 (Ok 0%Z) = Ok fresh_subscriber.
Proof. done. Qed.
End Gaps.

Section Runs.
#[local] Instance plain_json : SerdeJson := {| json_to_string := fun _ => Ok "{}" |}.
#[local] Instance plain_hex : Hex := list_hex.
#[local] Instance plain_tonic : TonicText := {| status_to_string := message |}.
#[local] Instance plain_text : ErrorText :=
  {| create_error_to_string _ _ := ""; modify_error_to_string _ := "";
     find_error_to_string _ := ""; str_debug s := s |}.

Example subscription_in_order_witness :
  rtc feed_step (opened [] fresh_subscriber) after_reconnection /\
  exists es errs, sent (sub after_reconnection) = map (fun e => Ok (to_proto e)) es ++ map Err errs /\
    increasing 0 es.
Proof.
  assert (Hr : rtc feed_step (opened [] fresh_subscriber) after_reconnection)
    by exact (step_if_feed in_turn _ _ (run_if_steps _ _ _ _ reconnection_run)).
  split; [exact Hr |].
  destruct (subscription_in_order [] 0 (Ok 0%Z) fresh_subscriber after_reconnection
              (conj (Forall_nil_2 _) (NoDup_nil_2)) fresh_subscribed Hr)
    as (es & errs & Hs & Hi & _).
  exists es, errs. exact (conj Hs Hi).
Defined.

Example subscription_complete_witness :
  delivered after_prompt = map to_proto (outbox_from 0 (committed after_prompt)) /\
  length (delivered after_prompt) = 1.
Proof.
  split; [| reflexivity].
  exact (proj2 (subscription_complete [] 0 (Ok 0%Z) fresh_subscriber after_prompt
                  (SSorted_nil _) (Forall_nil_2 _) fresh_subscribed
                  (run_if_steps _ _ _ _ prompt_run)) eq_refl eq_refl eq_refl).
Defined.
End Runs.
