(* ===== verification/AppPayment.v ===== *)
(** The outbound use cases (src/src/app/send_payment.rs, send_intraledger_payment.rs,
    handle_payment_update.rs, sweep_orphan_holds.rs, fee_probe.rs). *)
From S2P Require Import Prelude Primitives Fees EsEntity Concrete.
From S2P Require Import PaymentEntity InvoiceEntity Outbox Lnd Symphony Wallet Effects App.

Section AppPayment.
Context `{Hex} `{UuidText} `{TonicText} `{Bolt11} `{EventStore}.
Context `{PR : !EsRepo Payments.desc} `{IR : !EsRepo Invoices.desc} `{RowOrder}.
(** The quoting of [{:?}] on strings. *)
Context (str_debug : string -> string).

(** ** send_payment.rs *)

Definition transition_to_pending (payment : Payment.t) (payment_hash : PaymentHash.t)
    (now : Timestamp.t) : app (result Payment.t AppError.t) :=
  let (payment, r) := Payment.mark_pending now payment in
  match r with
  | Err e => Ret (Err (AppError.Payment e))
  | Ok AlreadyApplied => Ret (Ok payment)
  | Ok Executed =>
      let! res := update_payment payment in
      match res with
      | Ok payment => Ret (Ok payment)
      | Err e =>
          if is_concurrent_modification e then
            let?! reloaded :=
              map_err_ (fun e => AppError.Payment (PaymentError.PaymentFind e))
                (find_payment payment_hash) in
            Ret (Ok reloaded)
          else Ret (Err (AppError.Payment (PaymentError.PaymentModify e)))
      end
  end.

Definition settle_inline (payment : Payment.t) (payment_hash : PaymentHash.t)
    (amount_sat : Z) (preimage : Preimage.t) (fees_paid_msat : MilliSatoshi.t)
    (route_hops : list Hop.t) (now : Timestamp.t) : app (result Payment.t AppError.t) :=
  let (payment, r) := Payment.mark_pending now payment in
  match r with
  | Err e => Ret (Err (AppError.Payment e))
  | Ok _ =>
      commit_completed payment payment_hash amount_sat preimage fees_paid_msat route_hops now
  end.

Definition fail_inline (payment : Payment.t) (payment_hash : PaymentHash.t)
    (amount_sat : Z) (failure_reason : FailureReason.t) (now : Timestamp.t) :
    app (result Payment.t AppError.t) :=
  let (payment, r) := Payment.mark_pending now payment in
  match r with
  | Err e => Ret (Err (AppError.Payment e))
  | Ok _ => commit_failed payment payment_hash amount_sat failure_reason now
  end.

Definition build_initiated_outbox (payment_hash : PaymentHash.t) (wallet_id : WalletId.t)
    (amount_sat : Z) (max_fee_msat : MilliSatoshi.t) (destination : string)
    (bolt_invoice : BoltInvoice.t) (t : Timestamp.t) : NewOutboxEvent.t :=
  NewOutboxEvent.for_lightning_payment_initiated
    (PaymentHash.to_hex payment_hash) (PaymentHash.to_hex payment_hash) amount_sat t
    (JObj [("max_fee_msat", JNum (MilliSatoshi.as_u64 max_fee_msat));
           ("destination", JStr destination);
           ("wallet_id", JStr (WalletId.to_string wallet_id));
           ("bolt_invoice", JStr (BoltInvoice.as_str bolt_invoice))]).

(** The intent row with its [OutgoingPaymentInitiated] event, in one transaction. *)
Definition persist_intent (new_payment : NewPayment.t) (payment_hash : PaymentHash.t)
    (wallet_id : WalletId.t) (amount_sat : Z) (max_fee_msat : MilliSatoshi.t)
    (destination : string) (bolt_invoice : BoltInvoice.t) :
    app (result Payment.t AppError.t) :=
  in_tx (let# payment := payments_create_in_op new_payment in
         let# t := tx_utc_now in
         let# _ := outbox_publish_in_tx
                     (build_initiated_outbox payment_hash wallet_id amount_sat max_fee_msat
                        destination bolt_invoice t) in
         tx_ret payment).

(** The hold of the worst case: amount plus fee limit, in whole satoshis. *)
Definition hold_sat (amount_msat max_fee_msat : MilliSatoshi.t) : Z :=
  MilliSatoshi.whole_sat (MilliSatoshi.round_up_to_sat
    (MilliSatoshi.new (wrap_u64 (MilliSatoshi.as_u64 amount_msat +
                                 MilliSatoshi.as_u64 max_fee_msat)))).

Definition ln_authorize_request (payment_hash : PaymentHash.t) (wallet_id : WalletId.t)
    (hold : Z) : SymphonyAuthorizeRequest.t :=
  {| SymphonyAuthorizeRequest.correlation_id := PaymentHash.to_hex payment_hash;
     SymphonyAuthorizeRequest.account :=
       MkAccountRef AccountKind.WalletLiability (WalletId.to_string wallet_id);
     SymphonyAuthorizeRequest.sat_amount := hold;
     SymphonyAuthorizeRequest.idempotency_key := PaymentHash.to_hex payment_hash;
     SymphonyAuthorizeRequest.gateway_metadata := JObj [] |}.

Definition authorize_error_reason (e : SymphonyError.t) : FailureReason.t :=
  if is_authorize_unavailable e then
    FailureReason.Other ("Symphony service unavailable: " +:+
                         SymphonyError.to_string str_debug e)
  else FailureReason.Other ("Symphony error: " +:+ SymphonyError.to_string str_debug e).

Definition declined_reason (r : option DeclineReason.t) : FailureReason.t :=
  match r with
  | Some DeclineReason.InsufficientFunds => FailureReason.InsufficientBalance
  | Some other =>
      FailureReason.Other ("Symphony declined: " +:+ DeclineReason.debug str_debug other)
  | None => FailureReason.Other "Symphony declined: no reason"
  end.

(** Steps 7 and 8: verify the echoed hash, dispatch on LND's status. *)
Definition dispatch_lnd_response (payment : Payment.t) (payment_hash : PaymentHash.t)
    (amount_sat : Z) (now : Timestamp.t) (lnd_resp : SendPaymentResponse.t) :
    app (result Payment.t AppError.t) :=
  if decide (SendPaymentResponse.payment_hash lnd_resp <> payment_hash) then
    fail_inline payment payment_hash amount_sat
      (FailureReason.Other
         ("LND payment_hash mismatch: expected " +:+ PaymentHash.to_hex payment_hash +:+
          ", got " +:+ PaymentHash.to_hex (SendPaymentResponse.payment_hash lnd_resp))) now
  else
    match SendPaymentResponse.status lnd_resp with
    | SendPaymentStatus.InFlight => transition_to_pending payment payment_hash now
    | SendPaymentStatus.Succeeded =>
        match SendPaymentResponse.payment_preimage lnd_resp with
        | None =>
            Ret (Err (AppError.Lnd (LndError.InvalidResponse
              "Succeeded status but payment_preimage missing/malformed")))
        | Some preimage =>
            settle_inline payment payment_hash amount_sat preimage
              (SendPaymentResponse.fees_paid_msat lnd_resp)
              (SendPaymentResponse.route_hops lnd_resp) now
        end
    | SendPaymentStatus.Failed =>
        let reason := default (FailureReason.Other "LND returned Failed with no reason")
                        (SendPaymentResponse.failure_reason lnd_resp) in
        fail_inline payment payment_hash amount_sat reason now
    end.

(** ** send_intraledger_payment.rs *)

Definition intraledger_authorize_request (payment_hash : PaymentHash.t)
    (sender recipient : WalletId.t) (amount_msat : MilliSatoshi.t) :
    SymphonyAuthorizeRequest.t :=
  {| SymphonyAuthorizeRequest.correlation_id := PaymentHash.to_hex payment_hash;
     SymphonyAuthorizeRequest.account :=
       MkAccountRef AccountKind.WalletLiability (WalletId.to_string sender);
     SymphonyAuthorizeRequest.sat_amount := MilliSatoshi.whole_sat amount_msat;
     SymphonyAuthorizeRequest.idempotency_key := PaymentHash.to_hex payment_hash;
     SymphonyAuthorizeRequest.gateway_metadata :=
       JObj [("intraledger", JBool true);
             ("recipient_wallet_id", JStr (WalletId.to_string recipient))] |}.

Definition intraledger_event (payment_hash : PaymentHash.t) (amount_sat : Z)
    (sender recipient : WalletId.t) (amount_msat : MilliSatoshi.t) (t : Timestamp.t) :
    NewOutboxEvent.t :=
  NewOutboxEvent.for_lightning_intraledger_transfer_completed
    (PaymentHash.to_hex payment_hash) (PaymentHash.to_hex payment_hash) amount_sat t
    (JObj [("intraledger", JBool true);
           ("sender_wallet_id", JStr (WalletId.to_string sender));
           ("recipient_wallet_id", JStr (WalletId.to_string recipient));
           ("amount_msat", JNum (MilliSatoshi.as_u64 amount_msat))]).

(** The recipient-state guard. *)
Definition recipient_guard (payment_hash : PaymentHash.t) (now : Timestamp.t)
    (recipient_invoice : Invoice.t) : result unit AppError.t :=
  match Invoice.state recipient_invoice with
  | InvoiceState.Open =>
      if decide (Timestamp.le (Invoice.expiry_at recipient_invoice) now)
      then Err (AppError.Payment PaymentError.RecipientInvoiceExpired) else Ok tt
  | InvoiceState.Settled =>
      Err (AppError.Payment (PaymentError.AlreadyPaid (PaymentHash.to_hex payment_hash)))
  | InvoiceState.Canceled => Err (AppError.Payment PaymentError.RecipientInvoiceCanceled)
  | InvoiceState.Held => Err (AppError.Payment PaymentError.RecipientInvoiceInProgress)
  end.

(** The local transaction: the payment straight to completed, the recipient invoice
    settled, the reporting event. *)
Definition intraledger_tx (new_payment : NewPayment.t) (recipient_invoice : Invoice.t)
    (payment_hash : PaymentHash.t) (amount_sat : Z) (sender recipient : WalletId.t)
    (amount_msat : MilliSatoshi.t) (now : Timestamp.t) : tx Payment.t :=
  let# payment := payments_create_in_op new_payment in
  let (payment, r) :=
    Payment.settle (Invoice.payment_preimage recipient_invoice) MilliSatoshi.ZERO [] now
      payment in
  let# _ := tx_result (map_err AppError.Payment r) in
  let# payment := payments_update_in_op payment in
  let (recipient_invoice, r) := Invoice.settle_intraledger now recipient_invoice in
  let# _ := tx_result (map_err AppError.Invoice r) in
  let# _ := invoices_update_in_op recipient_invoice in
  let# t := tx_utc_now in
  let# _ := outbox_publish_in_tx
              (intraledger_event payment_hash amount_sat sender recipient amount_msat t) in
  tx_ret payment.

Definition send_intraledger_payment (request : SendPaymentReq.t)
    (decoded : DecodedInvoice.t) (recipient_invoice : Invoice.t) (now : Timestamp.t) :
    app (result Payment.t AppError.t) :=
  let payment_hash := DecodedInvoice.payment_hash decoded in
  let sender_wallet_id := SendPaymentReq.wallet_id request in
  let recipient_wallet_id := Invoice.wallet_id recipient_invoice in
  let?! _ := check_wallet_ownership (SendPaymentReq.caller_auth request) sender_wallet_id in
  if decide (recipient_wallet_id = sender_wallet_id) then
    Ret (Err (AppError.Payment PaymentError.SelfPayment))
  else
  let?! _ := pure_ (recipient_guard payment_hash now recipient_invoice) in
  let! uuid := call FreshUuid in
  let?! new_payment :=
    pure_ (map_err AppError.Payment
      (NewPayment.try_new_intraledger uuid decoded
         (MilliSatoshi.round_up_to_sat <$> Invoice.amount_msat recipient_invoice)
         sender_wallet_id now)) in
  let amount_msat := NewPayment.amount_msat new_payment in
  let amount_sat := sat_i64 amount_msat in
  let! auth := call (AuthorizeSpend
    (intraledger_authorize_request payment_hash sender_wallet_id recipient_wallet_id
       amount_msat)) in
  match auth with
  | Err e => Ret (Err (AppError.Symphony e))
  | Ok symphony_resp =>
      match SymphonyAuthorizeResponse.status symphony_resp with
      | SymphonyAuthorizeStatus.Declined =>
          Ret (Err (AppError.Symphony (SymphonyError.Declined
            (default (DeclineReason.Other "no reason")
               (SymphonyAuthorizeResponse.decline_reason symphony_resp)))))
      | SymphonyAuthorizeStatus.Approved =>
          let?! _ := map_err_ AppError.Lnd (call (LndCancelInvoice payment_hash)) in
          in_tx (intraledger_tx new_payment recipient_invoice payment_hash amount_sat
                   sender_wallet_id recipient_wallet_id amount_msat now)
      end
  end.

(** ** The send use case *)

Definition send_payment (request : SendPaymentReq.t) : app (result Payment.t AppError.t) :=
  let! now := call Now in
  let?! _ := check_wallet_ownership (SendPaymentReq.caller_auth request)
               (SendPaymentReq.wallet_id request) in
  let?! decoded := decode_bolt11 (SendPaymentReq.payment_request request) in
  let?! local :=
    map_err_ (fun e => AppError.Invoice (InvoiceError.InvoiceFind e))
      (maybe_find_invoice (DecodedInvoice.payment_hash decoded)) in
  match local with
  | Some recipient_invoice => send_intraledger_payment request decoded recipient_invoice now
  | None =>
      let?! amount_msat :=
        pure_ (ok_or (AppError.Payment PaymentError.AmountRequired)
                 (DecodedInvoice.amount_msat decoded)) in
      let max_fee_msat := LnFees.max_for amount_msat in
      let payment_hash := DecodedInvoice.payment_hash decoded in
      let destination := DecodedInvoice.destination decoded in
      let bolt_invoice := DecodedInvoice.bolt_invoice decoded in
      let amount_sat := sat_i64 amount_msat in
      let! uuid := call FreshUuid in
      let?! new_payment :=
        pure_ (map_err AppError.Payment
          (NewPayment.try_new uuid decoded (SendPaymentReq.wallet_id request) None
             max_fee_msat now)) in
      let?! payment :=
        persist_intent new_payment payment_hash (SendPaymentReq.wallet_id request) amount_sat
          max_fee_msat destination bolt_invoice in
      let! auth := call (AuthorizeSpend
        (ln_authorize_request payment_hash (SendPaymentReq.wallet_id request)
           (hold_sat amount_msat max_fee_msat))) in
      match auth with
      | Err e =>
          fail_inline payment payment_hash amount_sat (authorize_error_reason e) now
      | Ok symphony_resp =>
          match SymphonyAuthorizeResponse.status symphony_resp with
          | SymphonyAuthorizeStatus.Declined =>
              fail_inline payment payment_hash amount_sat
                (declined_reason (SymphonyAuthorizeResponse.decline_reason symphony_resp)) now
          | SymphonyAuthorizeStatus.Approved =>
              let! sent := call (LndSendPayment
                (SendPaymentParams.mk bolt_invoice max_fee_msat 60)) in
              match sent with
              | Err lnd_err =>
                  fail_inline payment payment_hash amount_sat
                    (lnd_error_to_failure_reason lnd_err) now
              | Ok lnd_resp =>
                  dispatch_lnd_response payment payment_hash amount_sat now lnd_resp
              end
          end
      end
  end.

(** ** handle_payment_update.rs *)

Definition handle_payment_update (update : PaymentUpdate.t) : app (result unit AppError.t) :=
  let! found := find_payment (PaymentUpdate.payment_hash update) in
  match found with
  | Err e =>
      if is_payment_not_found e then Ret (Ok tt)
      else Ret (Err (AppError.Payment (PaymentError.PaymentFind e)))
  | Ok payment =>
      let! now := call Now in
      let amount_sat := sat_i64 (Payment.amount_msat payment) in
      let payment_hash := Payment.payment_hash payment in
      match PaymentUpdate.status update with
      | SendPaymentStatus.InFlight => Ret (Ok tt)
      | SendPaymentStatus.Succeeded =>
          match PaymentUpdate.payment_preimage update with
          | None =>
              Ret (Err (AppError.Lnd (LndError.InvalidResponse
                "Succeeded status but payment_preimage missing/malformed")))
          | Some preimage =>
              let?! _ := commit_completed payment payment_hash amount_sat preimage
                           (PaymentUpdate.fees_paid_msat update)
                           (PaymentUpdate.route_hops update) now in
              Ret (Ok tt)
          end
      | SendPaymentStatus.Failed =>
          let reason := default
            (FailureReason.Other "LND TrackPayments emitted Failed with no reason")
            (PaymentUpdate.failure_reason update) in
          let?! _ := commit_failed payment payment_hash amount_sat reason now in
          Ret (Ok tt)
      end
  end.

(** ** sweep_orphan_holds.rs *)

Definition reconcile_orphan_hold (payment_hash : PaymentHash.t) :
    app (result bool AppError.t) :=
  let?! payment :=
    map_err_ (fun e => AppError.Payment (PaymentError.PaymentFind e))
      (find_payment payment_hash) in
  if decide (Payment.state payment <> PaymentState.Initiated) then Ret (Ok false)
  else
    let amount_sat := sat_i64 (Payment.amount_msat payment) in
    let! now := call Now in
    let! looked := call (LndLookupPayment payment_hash) in
    match looked with
    | Some (Err LndError.PaymentNotFound) => Ret (Ok false)
    | Some (Err e) => Ret (Err (AppError.Lnd e))
    | None => Ret (Ok false)
    | Some (Ok lookup) =>
        match SendPaymentResponse.status lookup with
        | SendPaymentStatus.InFlight => Ret (Ok false)
        | SendPaymentStatus.Succeeded =>
            match SendPaymentResponse.payment_preimage lookup with
            | None =>
                Ret (Err (AppError.Lnd (LndError.InvalidResponse
                  "lookup_payment: Succeeded but payment_preimage missing")))
            | Some preimage =>
                let?! _ := commit_completed payment payment_hash amount_sat preimage
                             (SendPaymentResponse.fees_paid_msat lookup)
                             (SendPaymentResponse.route_hops lookup) now in
                Ret (Ok true)
            end
        | SendPaymentStatus.Failed =>
            let reason := default (FailureReason.Other "LND reported Failed with no reason")
                            (SendPaymentResponse.failure_reason lookup) in
            let?! _ := commit_failed payment payment_hash amount_sat reason now in
            Ret (Ok true)
        end
    end.

Fixpoint reconcile_all (stranded : list PaymentHash.t) (reconciled : nat) : app nat :=
  match stranded with
  | [] => Ret reconciled
  | h :: stranded =>
      let! r := reconcile_orphan_hold h in
      match r with
      | Ok true => reconcile_all stranded (S reconciled)
      | Ok false | Err _ => reconcile_all stranded reconciled
      end
  end.

(** [idle] in nanoseconds; [None] when it does not fit a [chrono::Duration], for which
    ten minutes are taken. *)
Definition sweep_orphan_holds (idle : option Z) (limit : Z) : app (result nat AppError.t) :=
  let! utc_now := call Now in
  let cutoff := Timestamp.new
    (Timestamp.as_nanos utc_now - default (600 * nanos_per_sec)%Z idle) in
  let?! stranded :=
    map_err_ AppError.Payment
      (read PaymentError.PaymentSqlx
         (fun db => Payments.list_stranded_initiated cutoff limit (payments db))) in
  let! n := reconcile_all stranded 0 in
  Ret (Ok n).

(** ** fee_probe.rs *)

Definition fee_probe_use_case (request : FeeProbeRequest.t) :
    app (result MilliSatoshi.t AppError.t) :=
  let?! _ := check_wallet_ownership (FeeProbeRequest.caller_auth request)
               (FeeProbeRequest.wallet_id request) in
  let?! decoded := decode_bolt11 (FeeProbeRequest.payment_request request) in
  let?! resp := map_err_ AppError.Lnd
    (call (LndFeeProbe (MkFeeProbeParams (DecodedInvoice.bolt_invoice decoded)))) in
  Ret (Ok (fp_fee_msat resp)).
End AppPayment.
