(* ===== verification/AppInvoice.v ===== *)
(** The inbound use cases (src/src/app/create_invoice.rs, handle_invoice_update.rs,
    settle_hold_invoice.rs, reconcile_held_invoice.rs) and the dispatcher of per-hash
    invoice listeners. *)
From S2P Require Import Prelude Primitives EsEntity Concrete.
From S2P Require Import PaymentEntity InvoiceEntity Outbox Lnd Symphony Wallet Effects App.

(** * External ids (create_invoice.rs) *)

Definition is_external_id_char (c : Ascii.ascii) : bool :=
  let n := Ascii.nat_of_ascii c in
  ((97 <=? n) && (n <=? 122)) || ((48 <=? n) && (n <=? 57)) || (n =? 45) || (n =? 95).

Fixpoint all_chars (p : Ascii.ascii -> bool) (s : string) : bool :=
  match s with
  | EmptyString => true
  | String c s => p c && all_chars p s
  end.

Definition is_valid_external_id (s : string) : bool :=
  (1 <=? String.length s) && (String.length s <=? 100) && all_chars is_external_id_char s.

Definition resolve_external_id `{Hex} (supplied : option string) (payment_hash : PaymentHash.t) :
    result string InvoiceError.t :=
  let external_id := default (PaymentHash.to_hex payment_hash) supplied in
  if is_valid_external_id external_id then Ok external_id
  else Err (InvoiceError.InvalidExternalId external_id).

Section AppInvoice.
Context `{Hex} `{Sha256} `{UuidText} `{EventStore}.
Context `{IR : !EsRepo Invoices.desc} `{RowOrder}.
(** [self.mode]. *)
Context (mode : Mode).

Definition create_invoice (request : NewInvoiceRequest.t) :
    app (result Invoice.t AppError.t) :=
  let! now := call Now in
  let?! _ := check_wallet_ownership (NewInvoiceRequest.caller_auth request)
               (NewInvoiceRequest.wallet_id request) in
  let! random := call FillBytes in
  let payment_preimage := Preimage.generate (fun _ => random) in
  let payment_hash := Preimage.payment_hash payment_preimage in
  let?! external_id :=
    pure_ (map_err AppError.Invoice
      (resolve_external_id (NewInvoiceRequest.external_id request) payment_hash)) in
  let?! lnd_resp :=
    map_err_ AppError.Lnd (call (LndAddHoldInvoice
      (AddHoldInvoiceParams.mk payment_hash (Some (NewInvoiceRequest.amount_msat request))
         (NewInvoiceRequest.memo request) (NewInvoiceRequest.expiry_seconds request)))) in
  let! uuid := call FreshUuid in
  let?! new_invoice :=
    pure_ (map_err AppError.Invoice
      (NewInvoice.try_new uuid payment_hash payment_preimage
         (NewInvoiceRequest.wallet_id request) (Some (NewInvoiceRequest.amount_msat request))
         (NewInvoiceRequest.expiry_seconds request) (ah_bolt_invoice lnd_resp) external_id
         now)) in
  match mode with
  | DryRun => Ret (Err (AppError.WalletOwnership "DryRun mode not yet wired in slice 1a"))
  | Live =>
      let?! invoice :=
        map_err_ (fun e => AppError.Invoice (InvoiceError.from_create e))
          (create_invoice_row new_invoice) in
      let! _ := call (SpawnListener (Invoice.payment_hash invoice)) in
      Ret (Ok invoice)
  end.

(** ** settle_hold_invoice.rs *)

Definition settle_hold_invoice (payment_hash : PaymentHash.t) :
    app (result unit AppError.t) :=
  let! found := find_invoice payment_hash in
  match found with
  | Err e =>
      if is_invoice_not_found e then Ret (Ok tt)
      else Ret (Err (AppError.Invoice (InvoiceError.InvoiceFind e)))
  | Ok invoice =>
      if decide (Invoice.state invoice <> InvoiceState.Held) then Ret (Ok tt)
      else
        let?! lnd_state := map_err_ AppError.Lnd (call (LndLookupInvoice payment_hash)) in
        match InvoiceUpdate.state lnd_state with
        | LndInvoiceState.Accepted =>
            let?! _ := map_err_ AppError.Lnd
                         (call (LndSettleInvoice (Invoice.payment_preimage invoice))) in
            commit_settle invoice payment_hash (InvoiceUpdate.amt_paid_msat lnd_state)
        | LndInvoiceState.Settled =>
            commit_settle invoice payment_hash (InvoiceUpdate.amt_paid_msat lnd_state)
        | LndInvoiceState.Canceled =>
            commit_cancel invoice payment_hash CancelReason.Expired
              (InvoiceUpdate.amt_paid_msat lnd_state)
        | LndInvoiceState.Open => Ret (Ok tt)
        end
  end.

(** ** reconcile_held_invoice.rs *)

Definition reconcile_held_invoice (payment_hash : PaymentHash.t) :
    app (result unit AppError.t) :=
  let! found := find_invoice payment_hash in
  match found with
  | Err e =>
      if is_invoice_not_found e then Ret (Ok tt)
      else Ret (Err (AppError.Invoice (InvoiceError.InvoiceFind e)))
  | Ok invoice =>
      if decide (Invoice.state invoice <> InvoiceState.Held) then Ret (Ok tt)
      else
        let?! lnd_state := map_err_ AppError.Lnd (call (LndLookupInvoice payment_hash)) in
        match InvoiceUpdate.state lnd_state with
        | LndInvoiceState.Settled =>
            commit_settle invoice payment_hash (InvoiceUpdate.amt_paid_msat lnd_state)
        | LndInvoiceState.Canceled =>
            commit_cancel invoice payment_hash CancelReason.Expired
              (InvoiceUpdate.amt_paid_msat lnd_state)
        | LndInvoiceState.Accepted =>
            let?! _ := map_err_ AppError.Lnd
                         (call (LndSettleInvoice (Invoice.payment_preimage invoice))) in
            commit_settle invoice payment_hash (InvoiceUpdate.amt_paid_msat lnd_state)
        | LndInvoiceState.Open => Ret (Ok tt)
        end
  end.

(** ** handle_invoice_update.rs *)

Definition held_event (payment_hash : PaymentHash.t) (amount_sat : Z)
    (amt_paid_msat : MilliSatoshi.t) (wallet_id : WalletId.t) (t : Timestamp.t) :
    NewOutboxEvent.t :=
  NewOutboxEvent.for_lightning_htlc_held
    (PaymentHash.to_hex payment_hash) (PaymentHash.to_hex payment_hash) amount_sat t
    (JObj [("amt_paid_msat", JNum (MilliSatoshi.as_u64 amt_paid_msat));
           ("wallet_id", JStr (WalletId.to_string wallet_id))]).

Definition transition_to_held (invoice : Invoice.t) (payment_hash : PaymentHash.t)
    (amt_paid_msat : MilliSatoshi.t) (now : Timestamp.t) : app (result unit AppError.t) :=
  let wallet_id := Invoice.wallet_id invoice in
  let (invoice, r) := Invoice.mark_held amt_paid_msat now invoice in
  match r with
  | Err e => Ret (Err (AppError.Invoice e))
  | Ok AlreadyApplied => Ret (Ok tt)
  | Ok Executed =>
      in_tx (let# _ := invoices_update_in_op invoice in
             let# t := tx_utc_now in
             let# _ := outbox_publish_in_tx
                         (held_event payment_hash (sat_i64 amt_paid_msat) amt_paid_msat
                            wallet_id t) in
             tx_ret tt)
  end.

Definition handle_invoice_update (update : InvoiceUpdate.t) : app (result unit AppError.t) :=
  let! found := find_invoice (InvoiceUpdate.payment_hash update) in
  match found with
  | Err e =>
      if is_invoice_not_found e then Ret (Ok tt)
      else Ret (Err (AppError.Invoice (InvoiceError.InvoiceFind e)))
  | Ok invoice =>
      let! now := call Now in
      let payment_hash := Invoice.payment_hash invoice in
      match InvoiceUpdate.state update with
      | LndInvoiceState.Open => Ret (Ok tt)
      | LndInvoiceState.Accepted =>
          let?! _ := transition_to_held invoice payment_hash
                       (InvoiceUpdate.amt_paid_msat update) now in
          let! _ := settle_hold_invoice payment_hash in
          Ret (Ok tt)
      | LndInvoiceState.Settled => Ret (Ok tt)
      | LndInvoiceState.Canceled =>
          commit_cancel invoice payment_hash CancelReason.Expired
            (InvoiceUpdate.amt_paid_msat update)
      end
  end.

End AppInvoice.

(** * The listener dispatcher (handle_invoice_update.rs)

    The mode of the dispatcher with the state it shares: the set of hashes that have a
    live listener, or the recorded hashes. *)

Module InvoiceUpdateDispatcher.
Inductive t : Type :=
| Live (active : gset PaymentHash.t)
| NoOp
| Recording (hashes : list PaymentHash.t).

Definition new : t := Live ∅.
Definition for_test : t := NoOp.
Definition recording_for_test : t := Recording [].

Definition recorded (d : t) : list PaymentHash.t :=
  match d with Recording hashes => hashes | _ => [] end.

(** The dispatcher it leaves, and whether a listener task was spawned. *)
Definition spawn_listener_for (payment_hash : PaymentHash.t) (d : t) : t * bool :=
  match d with
  | NoOp => (NoOp, false)
  | Recording hashes => (Recording (hashes ++ [payment_hash]), false)
  | Live active =>
      if decide (payment_hash ∈ active) then (Live active, false)
      else (Live ({[ payment_hash ]} ∪ active), true)
  end.

(** The end of the spawned task: its slot is released. *)
Definition listener_exits (payment_hash : PaymentHash.t) (d : t) : t :=
  match d with
  | Live active => Live (active ∖ {[ payment_hash ]})
  | d => d
  end.

(** The live tasks of a live dispatcher: spawns add one, a task of the list may exit. *)
Inductive dispatcher_step : t * list PaymentHash.t -> t * list PaymentHash.t -> Prop :=
| ds_spawn h d ts :
    dispatcher_step (d, ts)
      ((spawn_listener_for h d).1,
       if (spawn_listener_for h d).2 then h :: ts else ts)
| ds_exit h d ts1 ts2 :
    dispatcher_step (d, ts1 ++ h :: ts2) (listener_exits h d, ts1 ++ ts2).

(** At any time the listener tasks that run are for distinct hashes, and the
    shared set holds exactly those hashes: no hash ever has two listeners, and a hash
    whose listener has exited can be listened to again. *)
Theorem one_listener_per_hash d ts :
  rtc dispatcher_step (new, []) (d, ts) ->
  NoDup ts /\ exists active, d = Live active /\ forall h, h ∈ active <-> h ∈ ts.
Proof.
  assert (Hinv : forall c c', rtc dispatcher_step c c' ->
    (NoDup c.2 /\ exists active, c.1 = Live active /\ forall h, h ∈ active <-> h ∈ c.2) ->
    NoDup c'.2 /\ exists active, c'.1 = Live active /\ forall h, h ∈ active <-> h ∈ c'.2).
  { induction 1 as [| c1 c2 c3 Hstep _ IH]; [done |].
    intros (Hnd & active & Hd & Hin). apply IH. clear IH.
    destruct Hstep as [h d0 ts0 | h d0 ts1 ts2]; simpl in *; subst d0.
    - simpl. case_decide as Hh; simpl.
      + split; [done |]. by exists active.
      + split; [constructor; [by rewrite <- Hin | done] |]. eexists. split; [done |].
        intros h'. rewrite elem_of_union, elem_of_singleton, elem_of_cons, Hin. done.
    - simpl. apply NoDup_app in Hnd as (Hnd1 & Hdis & Hnd2).
      apply NoDup_cons in Hnd2 as [Hh Hnd2]. split.
      + apply NoDup_app. split_and!; [done | | done]. intros x Hx Hx2.
        apply (Hdis x Hx). by right.
      + eexists. split; [done |]. intros h'.
        rewrite elem_of_difference, elem_of_singleton, Hin, !elem_of_app, elem_of_cons.
        split; [naive_solver |]. intros Hor. split; [naive_solver |]. intros ->.
        destruct Hor as [H1 | H2]; [apply (Hdis h H1); by left | done]. }
  intros Hr. apply (Hinv _ _ Hr). split; [constructor |]. exists ∅. split; [done |].
  set_solver.
Qed.

Example one_listener_per_hash_witness :
  exists d, rtc dispatcher_step (new, []) (d, [hash_of x01]) /\ NoDup [hash_of x01].
Proof.
  assert (Hr : rtc dispatcher_step (new, [])
            (Live ({[ hash_of x01 ]} ∪ ∅), [hash_of x01])).
  { apply rtc_once. exact (ds_spawn (hash_of x01) new []). }
  eexists. split; [exact Hr |]. exact (proj1 (one_listener_per_hash _ _ Hr)).
Defined.
End InvoiceUpdateDispatcher.
