(* ===== verification/Adapters.v ===== *)
(** The application's collaborators, put together (src/src/app.rs with src/src/wallet/,
    src/src/symphony/, src/src/lnd/, src/src/server/jwks.rs): what they remember, and how each
    call a handler makes is answered from what the systems outside say.

    [serve] is one step of one collaborator on behalf of one handler.  The ownership gate
    takes two: its cache is unlocked while the router is asked, so other handlers run
    between the miss and the answer. *)
From S2P Require Import Prelude Primitives EsEntity Concrete PaymentEntity Outbox.
From S2P Require Import Jwks Lnd LndClient Symphony Wallet Effects App AppInvoice.

(** What the systems outside answer at one moment: the router, Symphony, LND, the clocks,
    the random generators, and whether the sweep's deadline for one lookup passes first. *)
Record Outside : Type := MkOutside {
  out_router : Router;
  out_symphony : SpendAuthorizeRequest -> result SpendAuthorizeResponse Status;
  out_lnd : LndRpcs;
  out_now : Timestamp.t;
  out_unix : Z;
  out_uuid : Uuid;
  out_random : array 32;
  out_deadline : bool
}.

(** The handles of an [App]. *)
Record AppHandles {Channel : Type} : Type := MkHandles {
  lnd : LndClient.t Channel;
  symphony : ClientMode;
  ownership : OwnershipMode;
  ownership_ttl : Z;
  mode : Mode
}.
Arguments AppHandles : clear implicits.

Module Handles.
(** [App::new] always starts live. *)
Definition new {Channel} (lnd : LndClient.t Channel) (symphony : ClientMode)
    (ownership : OwnershipMode) (ownership_ttl : Z) : AppHandles Channel :=
  MkHandles Channel lnd symphony ownership ownership_ttl Live.

Definition with_mode {Channel} (mode : Mode) (a : AppHandles Channel) : AppHandles Channel :=
  MkHandles Channel (lnd a) (symphony a) (ownership a) (ownership_ttl a) mode.

(** The application of the schema printer, of which no resolver runs. *)
Definition write_sdl {Channel} : AppHandles Channel :=
  new (LndClient.boot_stub LndConfig.stub) Symphony.boot_stub OwnBootStub
    (from_secs default_cache_secs).
End Handles.

Section Adapters.
Context {Channel : Type} `{Hex} `{UuidText} `{LndProto} `{SerdeJson} `{JsonWebToken}.
Context (app : AppHandles Channel).

(** What the collaborators remember: the signing keys, the ownership cache and the handlers
    waiting for the router, the invoice listeners, the two channels LND's updates travel
    in, and the instant. *)
Record Adapters : Type := MkAdapters {
  signing_keys : RemoteJwksDecoder.keys_cache;
  owned : cache;
  fetching : gset nat;
  dispatcher : InvoiceUpdateDispatcher.t;
  listeners : list PaymentHash.t;
  payment_updates : list PaymentUpdate.t;
  invoice_updates : list InvoiceUpdate.t;
  instant : Z
}.

Definition fresh_adapters : Adapters :=
  MkAdapters RemoteJwksDecoder.new ∅ ∅ InvoiceUpdateDispatcher.new [] [] [] 0.

Definition set_owned (c : cache) (f : gset nat) (a : Adapters) : Adapters :=
  MkAdapters (signing_keys a) c f (dispatcher a) (listeners a) (payment_updates a)
    (invoice_updates a) (instant a).
Definition set_listeners (d : InvoiceUpdateDispatcher.t) (l : list PaymentHash.t)
    (a : Adapters) : Adapters :=
  MkAdapters (signing_keys a) (owned a) (fetching a) d l (payment_updates a)
    (invoice_updates a) (instant a).
Definition set_payment_updates (us : list PaymentUpdate.t) (a : Adapters) : Adapters :=
  MkAdapters (signing_keys a) (owned a) (fetching a) (dispatcher a) (listeners a) us
    (invoice_updates a) (instant a).
Definition set_invoice_updates (us : list InvoiceUpdate.t) (a : Adapters) : Adapters :=
  MkAdapters (signing_keys a) (owned a) (fetching a) (dispatcher a) (listeners a)
    (payment_updates a) us (instant a).
Definition set_signing_keys (ks : RemoteJwksDecoder.keys_cache) (a : Adapters) : Adapters :=
  MkAdapters ks (owned a) (fetching a) (dispatcher a) (listeners a) (payment_updates a)
    (invoice_updates a) (instant a).
Definition set_instant (t : Z) (a : Adapters) : Adapters :=
  MkAdapters (signing_keys a) (owned a) (fetching a) (dispatcher a) (listeners a)
    (payment_updates a) (invoice_updates a) t.

(** ** The ownership gate *)

(** The lookup: an answer, or [None] on a miss. *)
Definition gate_lookup (caller : CallerAuth.t) (wallet_id : WalletId.t) (a : Adapters) :
    option (result unit WalletOwnershipError.t) :=
  if negb (CallerAuth.is_authenticated caller) then
    Some (Err WalletOwnershipError.Unauthenticated)
  else decision wallet_id <$> cached (ownership_ttl app) (instant a) (CallerAuth.sub caller)
                                (owned a).

(** The router's answer to the handler [i]. *)
Definition gate_fetched (o : Outside) (i : nat) (caller : CallerAuth.t)
    (wallet_id : WalletId.t) (a : Adapters) : Adapters * result unit WalletOwnershipError.t :=
  let waiting := fetching a ∖ {[ i ]} in
  match @fetch_owned_wallets (out_router o) (ownership app) caller with
  | Err e => (set_owned (owned a) waiting a, Err e)
  | Ok ws =>
      (set_owned (store (ownership_ttl app) (instant a) (CallerAuth.sub caller) ws (owned a))
         waiting a, decision wallet_id ws)
  end.

(** ** One step of a call

    [None]: it cannot answer now.  Otherwise the collaborators it leaves, whether the
    outside was asked, and the answer - or none yet. *)
Definition step_of (e : ext) : Type := option (Adapters * bool * option (ext_resp e)).

(** An answer of the outside, and one from memory. *)
Definition asked {e} (a : Adapters) (r : ext_resp e) : step_of e := Some (a, true, Some r).
Definition known {e} (a : Adapters) (r : ext_resp e) : step_of e := Some (a, false, Some r).

Definition serve_ownership (o : Outside) (i : nat) (caller : CallerAuth.t)
    (wallet_id : WalletId.t) (a : Adapters) : step_of (CheckOwnership caller wallet_id) :=
  if decide (i ∈ fetching a) then
    let (a, r) := gate_fetched o i caller wallet_id a in
    asked (e := CheckOwnership caller wallet_id) a r
  else
    match gate_lookup caller wallet_id a with
    | Some r => known (e := CheckOwnership caller wallet_id) a r
    | None => Some (set_owned (owned a) ({[ i ]} ∪ fetching a) a, false, None)
    end.

Definition serve_spawn (h : PaymentHash.t) (a : Adapters) : step_of (SpawnListener h) :=
  let (d, spawned) := InvoiceUpdateDispatcher.spawn_listener_for h (dispatcher a) in
  known (e := SpawnListener h)
    (set_listeners d (if spawned then h :: listeners a else listeners a) a) tt.

Definition serve (o : Outside) (i : nat) (e : ext) (a : Adapters) : step_of e :=
  let api := LndClient.api (H1 := out_lnd o) (lnd app) in
  match e return step_of e with
  | Now => asked (e := Now) a (out_now o)
  | FreshUuid => asked (e := FreshUuid) a (out_uuid o)
  | FillBytes => asked (e := FillBytes) a (out_random o)
  | CheckOwnership caller w => serve_ownership o i caller w a
  | AuthorizeSpend req =>
      asked (e := AuthorizeSpend req) a (authorize_spend (symphony app) (out_symphony o) req)
  | LndSendPayment p => asked (e := LndSendPayment p) a (api_send_payment p)
  | LndCancelInvoice h => asked (e := LndCancelInvoice h) a (api_cancel_invoice h)
  | LndSettleInvoice p => asked (e := LndSettleInvoice p) a (api_settle_invoice p)
  | LndLookupInvoice h => asked (e := LndLookupInvoice h) a (api_lookup_invoice h)
  | LndLookupPayment h =>
      asked (e := LndLookupPayment h) a
        (if out_deadline o then None else Some (api_lookup_payment h))
  | LndAddHoldInvoice p => asked (e := LndAddHoldInvoice p) a (api_add_hold_invoice p)
  | LndFeeProbe p => asked (e := LndFeeProbe p) a (api_fee_probe p)
  | SpawnListener h => serve_spawn h a
  | RecvPaymentUpdate =>
      match payment_updates a with
      | u :: us => known (e := RecvPaymentUpdate) (set_payment_updates us a) u
      | [] => None
      end
  | RecvInvoiceUpdate =>
      match invoice_updates a with
      | u :: us => known (e := RecvInvoiceUpdate) (set_invoice_updates us a) u
      | [] => None
      end
  | DecodeJwt token =>
      known (e := DecodeJwt token) a
        (map_err JwksError.to_string
           (RemoteJwksDecoder.decode (out_unix o) (signing_keys a) token))
  | Respond req resp => known (e := Respond req resp) a tt
  | Panic _ => None
  end.

(** ** What happens by itself

    Time passes; a round of the key refresh ends; LND sends a message on one of its
    streams, which the stream's pump forwards or drops; a listener task ends.  A full
    channel only holds the pump back until a message is taken, so the queues need no
    bound here: the pump's step is the moment the message goes in. *)
Inductive signal : Type :=
| Elapsed (d : Z)
| KeysServed (attempts : nat -> RemoteJwksDecoder.attempt)
| PaymentStreamed (m : lnrpc.Payment)
| InvoiceStreamed (h : PaymentHash.t) (m : lnrpc.Invoice)
| ListenerEnded (h : PaymentHash.t).

Definition end_listener (h : PaymentHash.t) (a : Adapters) : Adapters :=
  set_listeners (InvoiceUpdateDispatcher.listener_exits h (dispatcher a))
    (filter (fun h' => h' <> h) (listeners a)) a.

Definition on_signal (s : signal) (a : Adapters) : option Adapters :=
  match s with
  | Elapsed d => if (0 <=? d)%Z then Some (set_instant (instant a + d) a) else None
  | KeysServed attempts =>
      Some (set_signing_keys (RemoteJwksDecoder.refresh_keys attempts (signing_keys a)).1 a)
  | PaymentStreamed m =>
      if LndClient.is_connected (lnd app) then
        Some (set_payment_updates
                (payment_updates a ++ (drive_payment_stream [Message m Sent]).1) a)
      else None
  | InvoiceStreamed h m =>
      if LndClient.is_connected (lnd app) && bool_decide (h ∈ listeners a) then
        let (sent, ended) := drive_invoice_stream h [Message m Sent] in
        let a := set_invoice_updates (invoice_updates a ++ sent) a in
        Some (if ended then end_listener h a else a)
      else None
  | ListenerEnded h =>
      if bool_decide (h ∈ listeners a) then Some (end_listener h a) else None
  end.

(** With nothing between its two steps the gate is the check of [Wallet]. *)
Lemma gate_is_check o i caller w a a1 a2 r :
  i ∉ fetching a ->
  serve o i (CheckOwnership caller w) a = Some (a1, false, None) ->
  serve o i (CheckOwnership caller w) a1 = Some (a2, true, Some r) ->
  (owned a2, r) =
    @check (out_router o) _ (ownership app) (ownership_ttl app) (instant a) (instant a1)
      caller w (owned a) /\ fetching a2 = fetching a.
Proof.
  intros Hi. simpl. unfold serve_ownership. rewrite decide_False by done.
  unfold gate_lookup, check, check_with. destruct (negb _); [done |].
  destruct (cached _ _ _ _); [done |]. simpl. intros [= <-]. simpl.
  rewrite decide_True by set_solver. unfold gate_fetched. simpl.
  destruct (fetch_owned_wallets _ _) as [ws | e]; simpl; intros [= <- <-]; simpl;
    (split; [done |]); set_solver.
Qed.

Lemma gate_hit_is_check o i caller w a r :
  i ∉ fetching a ->
  serve o i (CheckOwnership caller w) a = Some (a, false, Some r) ->
  forall fetched now',
    check_with fetched (ownership_ttl app) (instant a) now' caller w (owned a) = (owned a, r).
Proof.
  intros Hi. simpl. unfold serve_ownership. rewrite decide_False by done.
  unfold gate_lookup, check_with. destruct (negb _); [by intros [= <-] |].
  destruct (cached _ _ _ _); [by intros [= <-] | done].
Qed.
End Adapters.
Arguments Adapters : clear implicits.
Arguments Adapters {_}.
