(* ===== verification/Mutation.v ===== *)
(** The GraphQL mutations (src/src/api/graphql/mutation.rs) and the POST handler that runs
    them under the caller's verified identity (src/src/server/graphql.rs). *)
From S2P Require Import Prelude Primitives EsEntity Concrete GraphqlTypes Jwks.
From S2P Require Import PaymentEntity InvoiceEntity Outbox Lnd Symphony Wallet Effects App.
From S2P Require Import Grpc AppPayment AppInvoice.

Section Mutation.
Context `{Hex} `{Sha256} `{UuidText} `{TonicText} `{ErrorText} `{Bolt11} `{EventStore}.
Context `{PR : !EsRepo Payments.desc} `{IR : !EsRepo Invoices.desc} `{RowOrder}.
Context (mode : Mode).

(** The data of the schema and of the request a resolver reads: whether the coordinator
    was injected, and the caller. *)
Record request_data : Type := RequestData {
  app_configured : bool;
  ctx_caller : option CallerAuth.t
}.

(** [ctx.data_opt().unwrap_or_default()]. *)
Definition caller_auth (ctx : request_data) : CallerAuth.t :=
  default (CallerAuth.new "" "") (ctx_caller ctx).

Definition not_configured : string := "App coordinator not configured".

Definition DEFAULT_EXPIRY_MINUTES : Z := 1440.

Definition new_invoice_request (ctx : request_data) (input : LnInvoiceCreateInput.t) :
    NewInvoiceRequest.t :=
  let expiry_minutes :=
    default DEFAULT_EXPIRY_MINUTES (Minutes.minutes <$> LnInvoiceCreateInput.expires_in input) in
  {| NewInvoiceRequest.caller_auth := caller_auth ctx;
     NewInvoiceRequest.wallet_id := GqlWalletId.wallet (LnInvoiceCreateInput.wallet_id input);
     NewInvoiceRequest.amount_msat := SatAmount.to_msat (LnInvoiceCreateInput.amount input);
     NewInvoiceRequest.expiry_seconds := u32_saturating_mul expiry_minutes 60;
     NewInvoiceRequest.memo := Memo.text <$> LnInvoiceCreateInput.memo input;
     NewInvoiceRequest.external_id :=
       TxExternalId.text <$> LnInvoiceCreateInput.external_id input |}.

(** The payload of a created invoice of the given amount. *)
Definition invoice_payload (invoice : Invoice.t) (amount : MilliSatoshi.t) :
    LnInvoicePayload.t :=
  LnInvoicePayload.mk []
    (Some (LnInvoice.mk (GqlPaymentHash.mk (Invoice.payment_hash invoice))
             (LnPaymentRequest.mk (BoltInvoice.as_str (Invoice.bolt_invoice invoice)))
             (LnPaymentSecret.mk "")
             (SatAmount.mk (MilliSatoshi.as_u64 amount / 1000)))).

Definition ln_invoice_create (ctx : request_data) (input : LnInvoiceCreateInput.t) :
    app GraphqlResponse :=
  if negb (app_configured ctx) then Ret (RespError not_configured)
  else
    let! created := create_invoice mode (new_invoice_request ctx input) in
    match created with
    | Ok invoice =>
        expect (Invoice.amount_msat invoice)
          "lnInvoiceCreate always supplies Some(amount_msat)"
          (fun amount => Ret (RespCreate (invoice_payload invoice amount)))
    | Err e =>
        Ret (RespCreate (LnInvoicePayload.mk [from_message (AppError_to_string e)] None))
    end.

Definition send_payment_request (ctx : request_data) (input : LnInvoicePaymentInput.t) :
    SendPaymentReq.t :=
  {| SendPaymentReq.caller_auth := caller_auth ctx;
     SendPaymentReq.wallet_id := GqlWalletId.wallet (LnInvoicePaymentInput.wallet_id input);
     SendPaymentReq.payment_request :=
       LnPaymentRequest.text (LnInvoicePaymentInput.payment_request input);
     SendPaymentReq.memo := Memo.text <$> LnInvoicePaymentInput.memo input |}.

(** The status a stored payment is reported with. *)
Definition send_result (s : PaymentState.t) : PaymentSendResult.t :=
  match s with
  | PaymentState.Pending | PaymentState.Initiated => PaymentSendResult.Pending
  | PaymentState.Completed => PaymentSendResult.Success
  | PaymentState.Failed | PaymentState.Reversed => PaymentSendResult.Failure
  end.

Definition send_payload (sent : result Payment.t AppError.t) : PaymentSendPayload.t :=
  match sent with
  | Ok payment =>
      PaymentSendPayload.mk [] (Some (send_result (Payment.state payment))) None
  | Err (AppError.Payment (PaymentError.AlreadyPaid _)) =>
      PaymentSendPayload.mk [] (Some PaymentSendResult.AlreadyPaid) None
  | Err e =>
      PaymentSendPayload.mk [from_message (AppError_to_string e)]
        (Some PaymentSendResult.Failure) None
  end.

Definition ln_invoice_payment_send (ctx : request_data) (input : LnInvoicePaymentInput.t) :
    app GraphqlResponse :=
  if negb (app_configured ctx) then Ret (RespError not_configured)
  else
    let! sent := send_payment str_debug (send_payment_request ctx input) in
    Ret (RespPay (send_payload sent)).

Definition ln_invoice_fee_probe (ctx : request_data) (input : LnInvoiceFeeProbeInput.t) :
    app GraphqlResponse :=
  if negb (app_configured ctx) then Ret (RespError not_configured)
  else
    let request :=
      FeeProbeRequest.mk (caller_auth ctx)
        (GqlWalletId.wallet (LnInvoiceFeeProbeInput.wallet_id input))
        (LnPaymentRequest.text (LnInvoiceFeeProbeInput.payment_request input)) in
    let! probed := fee_probe_use_case request in
    Ret (RespProbe
      match probed with
      | Ok fee_msat =>
          SatAmountPayload.mk (Some (SatAmount.mk (MilliSatoshi.as_u64 fee_msat / 1000))) []
      | Err e => SatAmountPayload.mk None [from_message (AppError_to_string e)]
      end).

(** ** server/graphql.rs

    The authorization header: absent, not text, or text. *)
Definition bearer_prefix : string := "Bearer ".

Definition bearer_token (authorization : option (option string)) : option string :=
  v ← authorization; v ← v;
  if String.prefix bearer_prefix v
  then Some (String.substring (String.length bearer_prefix)
               (String.length v - String.length bearer_prefix) v)
  else None.

Definition execute (ctx : request_data) (request : GraphqlRequest) : app GraphqlResponse :=
  match request with
  | ReqCreate input => ln_invoice_create ctx input
  | ReqPay input => ln_invoice_payment_send ctx input
  | ReqProbe input => ln_invoice_fee_probe ctx input
  end.

(** An invalid token leaves the request without a caller. *)
Definition authenticate (authorization : option (option string)) :
    app (option CallerAuth.t) :=
  match bearer_token authorization with
  | Some token =>
      let! decoded := call (DecodeJwt token) in
      Ret (match decoded with
           | Ok claims => Some (CallerAuth.new token (claims_sub claims))
           | Err _ => None
           end)
  | None => Ret None
  end.

Definition graphql_handler (app_configured : bool) (authorization : option (option string))
    (request : GraphqlRequest) : app unit :=
  let! caller := authenticate authorization in
  let! response := execute (RequestData app_configured caller) request in
  call (Respond request response).
End Mutation.
