(* ===== verification/Schema.v ===== *)
(** The GraphQL schema (src/src/api/graphql/schema.rs, query.rs, the roots of mutation.rs
    and subscription.rs): the data its resolvers find, the three inputs of the status
    subscriptions, and what an operation of a request starts. *)
From S2P Require Import Prelude Primitives EsEntity Concrete GraphqlTypes Jwks.
From S2P Require Import PaymentEntity InvoiceEntity Outbox Lnd Symphony Wallet Effects App.
From S2P Require Import Grpc AppPayment AppInvoice StatusStream Mutation.

(** ** Inputs of the subscriptions *)

Module LnInvoicePaymentStatusInput.
Record t : Type := mk { payment_request : LnPaymentRequest.t }.
End LnInvoicePaymentStatusInput.

Module LnInvoicePaymentStatusByHashInput.
Record t : Type := mk { payment_hash : PaymentHash.t }.
End LnInvoicePaymentStatusByHashInput.

Module LnInvoicePaymentStatusByPaymentRequestInput.
Record t : Type := mk { payment_request : LnPaymentRequest.t }.
End LnInvoicePaymentStatusByPaymentRequestInput.

Module GatewaySchema.
(** The data of the schema: whether the application, and the fan-out, were injected. *)
Record t : Type := mk { app : bool; fanout : bool }.
End GatewaySchema.

Definition schema_builder : GatewaySchema.t := GatewaySchema.mk true false.
Definition build_schema : GatewaySchema.t := schema_builder.
Definition build_schema_with_fanout : GatewaySchema.t :=
  GatewaySchema.mk (GatewaySchema.app schema_builder) true.

(** [Query]. *)
Definition ping : string := "ok".

Section Schema.
Context `{Hex} `{Sha256} `{UuidText} `{TonicText} `{ErrorText} `{Bolt11} `{EventStore}.
Context `{PR : !EsRepo Payments.desc} `{IR : !EsRepo Invoices.desc} `{RowOrder}.
Context (mode : Mode).

Definition ln_invoice_payment_status_by_payment_request (has_app has_fanout : bool)
    (resume : option Z) (input : LnInvoicePaymentStatusByPaymentRequestInput.t) :
    result StatusStream.stream StatusStream.payload :=
  StatusStream.build_status_stream has_app has_fanout resume
    (StatusStream.payment_hash_from_request (LnPaymentRequest.text
       (LnInvoicePaymentStatusByPaymentRequestInput.payment_request input))).

(** The roots' operations. *)
Inductive operation : Type :=
| Ping
| Mutate (request : GraphqlRequest)
| PaymentStatus (input : LnInvoicePaymentStatusInput.t)
| PaymentStatusByHash (input : LnInvoicePaymentStatusByHashInput.t)
| PaymentStatusByPaymentRequest (input : LnInvoicePaymentStatusByPaymentRequestInput.t).

(** What a resolver starts: an answer, a program that ends in one, or a stream - of one
    error payload, or of what the task sends. *)
Inductive started : Type :=
| Pong (text : string)
| Running (program : App.app GraphqlResponse)
| Streaming (stream : result StatusStream.stream StatusStream.payload).

Definition resolve (schema : GatewaySchema.t) (caller : option CallerAuth.t)
    (resume : option Z) (op : operation) : started :=
  let has_app := GatewaySchema.app schema in
  let has_fanout := GatewaySchema.fanout schema in
  match op with
  | Ping => Pong ping
  | Mutate request => Running (execute mode (RequestData has_app caller) request)
  | PaymentStatus input =>
      Streaming (StatusStream.ln_invoice_payment_status has_app has_fanout resume
                   (LnPaymentRequest.text (LnInvoicePaymentStatusInput.payment_request input)))
  | PaymentStatusByHash input =>
      Streaming (StatusStream.ln_invoice_payment_status_by_hash has_app has_fanout resume
                   (LnInvoicePaymentStatusByHashInput.payment_hash input))
  | PaymentStatusByPaymentRequest input =>
      Streaming (ln_invoice_payment_status_by_payment_request has_app has_fanout resume input)
  end.

(** The payment request of an operation that names its payment by one. *)
Definition named_by (op : operation) : option string :=
  match op with
  | PaymentStatus input =>
      Some (LnPaymentRequest.text (LnInvoicePaymentStatusInput.payment_request input))
  | PaymentStatusByPaymentRequest input =>
      Some (LnPaymentRequest.text
              (LnInvoicePaymentStatusByPaymentRequestInput.payment_request input))
  | _ => None
  end.

(** On the schema the server serves, a status subscription opens a stream for its payment
    unless its payment request does not parse; a resumed one starts from its cursor. *)
Lemma served_subscription caller resume op out :
  resolve build_schema_with_fanout caller resume op = Streaming out ->
  match out with
  | Ok s =>
      s = StatusStream.start (StatusStream.payment_hash s) resume /\
      (forall text, named_by op = Some text ->
         StatusStream.payment_hash_from_request text = Ok (StatusStream.payment_hash s))
  | Err _ => exists text message, named_by op = Some text /\
      StatusStream.payment_hash_from_request text = Err message /\
      out = Err (StatusStream.error_payload message)
  end.
Proof.
  destruct op as [| | i | i | i]; cbn; try done; intros [= <-].
  1, 3: unfold ln_invoice_payment_status_by_payment_request, StatusStream.ln_invoice_payment_status;
    cbn; destruct (StatusStream.payment_hash_from_request _) as [h | message] eqn:Hh; cbn;
    [split; [done |]; by intros ? [= <-] | by eexists _, message].
  by split.
Qed.

(** The deprecated subscription is its replacement. *)
Lemma deprecated_status_same schema caller resume text :
  resolve schema caller resume (PaymentStatus (LnInvoicePaymentStatusInput.mk text)) =
  resolve schema caller resume
    (PaymentStatusByPaymentRequest (LnInvoicePaymentStatusByPaymentRequestInput.mk text)).
Proof. done. Qed.

(** Without the fan-out, as in the schema printer, every subscription is one error. *)
Lemma printed_schema_refuses caller resume op out :
  resolve build_schema caller resume op = Streaming out -> exists p, out = Err p.
Proof.
  destruct op as [| | i | i | i]; cbn; try done; intros [= <-]; try by eexists.
  all: unfold ln_invoice_payment_status_by_payment_request, StatusStream.ln_invoice_payment_status;
    cbn; by destruct (StatusStream.payment_hash_from_request _); eexists.
Qed.
End Schema.
