(* ===== verification/Jobs.v ===== *)
(** The background jobs (src/src/job/): the reconciliation sweep over held invoices, the
    orphan-hold sweep over stranded payment intents, and the boot-time recovery of the
    invoice listeners. *)
From S2P Require Import Prelude Primitives EsEntity Concrete.
From S2P Require Import PaymentEntity InvoiceEntity Outbox Lnd Symphony Wallet Effects App.
From S2P Require Import AppPayment AppInvoice.

(** [JobCompletion] of the [job] crate at the two answers the runners give; durations in
    seconds. *)
Inductive JobCompletion : Type := Complete | RescheduleIn (seconds : Z).

Definition RECONCILIATION_SWEEP_INTERVAL : Z := 300.
Definition RECONCILIATION_SWEEP_LIMIT : Z := 1000.
Definition ORPHAN_HOLD_SWEEP_INTERVAL : Z := 12 * 60 * 60.
Definition ORPHAN_HOLD_IDLE_THRESHOLD : Z := 600.
Definition ORPHAN_HOLD_SWEEP_LIMIT : Z := 1000.

Section Jobs.
Context `{Hex} `{UuidText} `{EventStore}.
Context `{PR : !EsRepo Payments.desc} `{IR : !EsRepo Invoices.desc} `{RowOrder}.

(** ** invoice_reconciliation_sweep.rs

    Errors of single invoices are logged and skipped. *)
Fixpoint reconcile_each (held : list PaymentHash.t) : app unit :=
  match held with
  | [] => Ret tt
  | h :: held => let! _ := reconcile_held_invoice h in reconcile_each held
  end.

Definition invoice_reconciliation_run : app (result JobCompletion InvoiceError.t) :=
  let?! held :=
    read InvoiceError.InvoiceSqlx
      (fun db => Invoices.list_held RECONCILIATION_SWEEP_LIMIT (invoices db)) in
  let! _ := reconcile_each held in
  Ret (Ok (RescheduleIn RECONCILIATION_SWEEP_INTERVAL)).

(** ** orphan_hold_sweep.rs *)
Definition orphan_hold_run : app (result JobCompletion AppError.t) :=
  let?! _ := sweep_orphan_holds (Some (ORPHAN_HOLD_IDLE_THRESHOLD * nanos_per_sec)%Z)
               ORPHAN_HOLD_SWEEP_LIMIT in
  Ret (Ok (RescheduleIn ORPHAN_HOLD_SWEEP_INTERVAL)).

(** ** invoice_subscription_recovery_sweep.rs, with [list_open_invoices] of
    invoice/repo.rs: a row that fails to load is skipped. *)
Fixpoint load_each (rows : list PaymentHash.t) : app (list Invoice.t) :=
  match rows with
  | [] => Ret []
  | h :: rows =>
      let! found := find_invoice h in
      let! rest := load_each rows in
      Ret (match found with Ok i => i :: rest | Err _ => rest end)
  end.

Definition list_open_invoices : app (result (list Invoice.t) InvoiceError.t) :=
  let?! rows := read InvoiceError.InvoiceSqlx (fun db => Ok (Invoices.open_rows (invoices db))) in
  let! out := load_each rows in
  Ret (Ok out).

Fixpoint spawn_each (open : list Invoice.t) : app unit :=
  match open with
  | [] => Ret tt
  | i :: open => let! _ := call (SpawnListener (Invoice.payment_hash i)) in spawn_each open
  end.

Definition run_invoice_subscription_recovery_sweep : app (result unit InvoiceError.t) :=
  let?! open := list_open_invoices in
  let! _ := spawn_each open in
  Ret (Ok tt).

Definition invoice_subscription_recovery_run : app (result JobCompletion InvoiceError.t) :=
  let?! _ := run_invoice_subscription_recovery_sweep in
  Ret (Ok Complete).

(** ** The consumers of LND's subscriptions (cli.rs)

    One turn of each loop: an update is received and handled, an error is logged. *)
Definition payment_update_turn : app (result unit AppError.t) :=
  let! update := call RecvPaymentUpdate in handle_payment_update update.

Definition invoice_update_turn : app (result unit AppError.t) :=
  let! update := call RecvInvoiceUpdate in handle_invoice_update update.
End Jobs.
