(* ===== verification/Ledger.v ===== *)
(** The invariant of the gateway's database.

    The abstract specification of the transactional outbox: what the event log of a
    payment or of an invoice announces to the subscribers, as a function of the log
    alone.  The invariant says that the projection rows are what hydration computes from
    the logs and that, for every payment hash, the rows of [outbox_events] are exactly
    these announcements, in order.  [future] is how other handlers may move the
    database meanwhile, [knows_payment] and [knows_invoice] what a handler knows of an
    aggregate it has loaded, and the lemmas below say that every write of a known,
    well-formed aggregate together with its announcement keeps the invariant. *)
From S2P Require Import Prelude Primitives Fees EsEntity Concrete.
From S2P Require Import PaymentEntity InvoiceEntity Outbox Lnd Symphony Wallet Effects App.

(** * Announcements *)

(** What one payment event after the first announces; an intraledger payment is
    recognised by its zero fee limit. *)
Definition payment_announcement (intraledger : bool) (e : PaymentEvent.t) :
    option GatewayDomainEvent.t :=
  match e with
  | PaymentEvent.Initiated _ _ _ _ _ _ _ | PaymentEvent.Pending _ => None
  | PaymentEvent.Completed _ _ _ _ =>
      Some (if intraledger then GatewayDomainEvent.LightningIntraledgerTransferCompleted
            else GatewayDomainEvent.LightningPaymentCompleted)
  | PaymentEvent.Failed _ _ => Some GatewayDomainEvent.LightningPaymentFailed
  | PaymentEvent.Reversed _ _ => Some GatewayDomainEvent.LightningPaymentReversed
  end.

Definition is_intraledger (max_fee : MilliSatoshi.t) : bool :=
  bool_decide (max_fee = MilliSatoshi.ZERO).

(** The announcements of a payment's log, each with the payment's amount in satoshis. *)
Definition payment_announcements (l : list PaymentEvent.t) : list (GatewayDomainEvent.t * Z) :=
  match l with
  | PaymentEvent.Initiated _ _ amount max_fee _ _ _ :: l =>
      map (fun k => (k, sat_i64 amount))
        ((if is_intraledger max_fee then []
          else [GatewayDomainEvent.LightningPaymentInitiated]) ++
         omap (payment_announcement (is_intraledger max_fee)) l)
  | _ => []
  end.

Definition invoice_announcement (e : InvoiceEvent.t) : option GatewayDomainEvent.t :=
  match e with
  | InvoiceEvent.Created _ _ _ _ _ _ _ _ | InvoiceEvent.SettledIntraledger _ => None
  | InvoiceEvent.HtlcHeld _ _ => Some GatewayDomainEvent.LightningHtlcHeld
  | InvoiceEvent.Settled _ => Some GatewayDomainEvent.LightningInvoiceSettled
  | InvoiceEvent.Canceled _ _ => Some GatewayDomainEvent.LightningInvoiceCanceled
  end.

(** The two classes of domain events. *)
Definition payment_class (k : GatewayDomainEvent.t) : bool :=
  match k with
  | GatewayDomainEvent.LightningPaymentInitiated
  | GatewayDomainEvent.LightningPaymentCompleted
  | GatewayDomainEvent.LightningPaymentFailed
  | GatewayDomainEvent.LightningPaymentReversed
  | GatewayDomainEvent.LightningIntraledgerTransferCompleted => true
  | _ => false
  end.

(** The events of a class the outbox holds for a reference, in commit order. *)
Definition announced (cls : GatewayDomainEvent.t -> bool) (ref : string)
    (tbl : outbox_table) : list (GatewayDomainEvent.t * Z) :=
  omap (fun r =>
    if String.eqb (OutboxRow.reference_id r) ref then
      match GatewayDomainEvent.from_str (OutboxRow.domain_event_type r) with
      | Ok k => if cls k then Some (k, OutboxRow.amount_sat r) else None
      | Err _ => None
      end
    else None) tbl.

Definition invoice_class (k : GatewayDomainEvent.t) : bool := negb (payment_class k).

Lemma announced_snoc cls ref tbl seq e :
  announced cls ref (tbl ++ [EventPublisher.row_of seq e]) =
  announced cls ref tbl ++
  (if String.eqb (NewOutboxEvent.reference_id e) ref && cls (NewOutboxEvent.domain_event e)
   then [(NewOutboxEvent.domain_event e, NewOutboxEvent.amount_sat e)] else []).
Proof.
  unfold announced. rewrite omap_app. f_equal. csimpl. case_string; simpl; [| done].
  assert (Hk : GatewayDomainEvent.from_str
            (GatewayDomainEvent.as_str (NewOutboxEvent.domain_event e)) =
          Ok (NewOutboxEvent.domain_event e)) by by destruct (NewOutboxEvent.domain_event e).
  rewrite Hk. by destruct (cls (NewOutboxEvent.domain_event e)).
Qed.

(** A log grows by events that are not initial, and its announcements with it. *)
Lemma payment_announcements_app l es n :
  payment_announcements ((NewPayment.initial_event n :: l) ++ es) =
  payment_announcements (NewPayment.initial_event n :: l) ++
  map (fun k => (k, sat_i64 (NewPayment.amount_msat n)))
    (omap (payment_announcement (is_intraledger (NewPayment.max_fee_msat n))) es).
Proof. simpl. by rewrite omap_app, !app_assoc, map_app. Qed.

(** The announcements after the first event are determined by the state reached. *)
Lemma payment_log_announces (il : bool) n es s :
  payment_log (NewPayment.initial_event n :: es) s ->
  let completed := if il then GatewayDomainEvent.LightningIntraledgerTransferCompleted
                   else GatewayDomainEvent.LightningPaymentCompleted in
  omap (payment_announcement il) es =
  match s with
  | PaymentState.Initiated | PaymentState.Pending => []
  | PaymentState.Completed => [completed]
  | PaymentState.Failed => [GatewayDomainEvent.LightningPaymentFailed]
  | PaymentState.Reversed => [completed; GatewayDomainEvent.LightningPaymentReversed]
  end.
Proof.
  intros Hlog. remember (NewPayment.initial_event n :: es) as l eqn:Hl. revert es Hl.
  induction Hlog as [n' | l s e s' Hlog IH Hstep]; intros es Hl; [by injection Hl as _ _ _ _ _ _ _ <- |].
  destruct (payment_log_head _ _ Hlog) as (n' & es' & -> & _).
  injection Hl as E1 E2 E3 E4 E5 E6 E7 <-. specialize (IH es'). simpl in IH. rewrite omap_app.
  rewrite IH by (destruct n, n'; simpl in *; by subst).
  by destruct Hstep as [| ? ? ? ? ? [-> | ->] | ? ? ? [-> | ->] |].
Qed.

(** * The invariant *)

Section Invariant.
Context `{HexLaws} `{Sha256} `{EventStoreLaws}.

(** One row of [payments] with its log, against the payment it hydrates to. *)
Definition payment_row_ok (h : PaymentHash.t)
    (st : stored PaymentRow.t PaymentId.t PaymentEvent.t) : Prop :=
  exists p,
    Payment.try_from_events (ev_load (st_id st) (st_events st)) = Ok p /\
    PaymentTheory.wf p /\
    Payment.payment_hash p = h /\
    PaymentRow.wallet_id (st_row st) = Payment.wallet_id p /\
    PaymentRow.amount_msat (st_row st) = MilliSatoshi.as_u64 (Payment.amount_msat p) /\
    PaymentRow.max_fee_msat (st_row st) = MilliSatoshi.as_u64 (Payment.max_fee_msat p) /\
    PaymentRow.state (st_row st) = PaymentState.as_str (Payment.state p) /\
    (MilliSatoshi.as_u64 (Payment.amount_msat p) <= i64_max)%Z.

(** One row of [invoices] with its log, against the invoice it hydrates to. *)
Definition invoice_row_ok (h : PaymentHash.t)
    (st : stored InvoiceRow.t InvoiceId.t InvoiceEvent.t) : Prop :=
  exists i,
    Invoice.try_from_events (ev_load (st_id st) (st_events st)) = Ok i /\
    InvoiceTheory.wf i /\
    Invoice.payment_hash i = h /\
    Preimage.payment_hash (Invoice.payment_preimage i) = h /\
    InvoiceRow.wallet_id (st_row st) = Invoice.wallet_id i /\
    InvoiceRow.external_id (st_row st) = Invoice.external_id i /\
    InvoiceRow.state (st_row st) = InvoiceState.as_str (Invoice.state i).

Definition payments_ok (tbl : payment_table) (ob : outbox_table) : Prop :=
  forall h, match tbl !! h with
    | Some st =>
        payment_row_ok h st /\
        announced payment_class (PaymentHash.to_hex h) ob = payment_announcements (st_events st)
    | None => announced payment_class (PaymentHash.to_hex h) ob = []
    end.

Definition invoices_ok (tbl : invoice_table) (ob : outbox_table) : Prop :=
  forall h, match tbl !! h with
    | Some st =>
        invoice_row_ok h st /\
        map fst (announced invoice_class (PaymentHash.to_hex h) ob) =
          omap invoice_announcement (st_events st)
    | None => announced invoice_class (PaymentHash.to_hex h) ob = []
    end.

(** A stored intraledger payment has completed: no other transaction ever sees it
    initiated. *)
Definition intraledger_done (tbl : payment_table) : Prop :=
  forall h st n es,
    tbl !! h = Some st -> st_events st = NewPayment.initial_event n :: es ->
    is_intraledger (NewPayment.max_fee_msat n) = true ->
    existsb PaymentEvent.is_Completed es = true.

(** The two halves of an intraledger transfer: a stored payment with a zero fee limit, an
    invoice settled without LND.  The tables never disagree on them. *)
Definition intraledger_log (l : list PaymentEvent.t) : bool :=
  match l with
  | PaymentEvent.Initiated _ _ _ max_fee _ _ _ :: _ => is_intraledger max_fee
  | _ => false
  end.

Definition transfer_sent (tbl : payment_table) (h : PaymentHash.t) : bool :=
  match tbl !! h with Some st => intraledger_log (st_events st) | None => false end.

Definition transfer_received (tbl : invoice_table) (h : PaymentHash.t) : bool :=
  match tbl !! h with
  | Some st => existsb InvoiceEvent.is_SettledIntraledger (st_events st)
  | None => false
  end.

Definition transfers_match (ptbl : payment_table) (itbl : invoice_table) : Prop :=
  forall h, transfer_sent ptbl h = transfer_received itbl h.

(** The composite unique index of the invoices table. *)
Definition external_ids_unique (tbl : invoice_table) : Prop :=
  forall h1 h2 st1 st2,
    tbl !! h1 = Some st1 -> tbl !! h2 = Some st2 ->
    InvoiceRow.wallet_id (st_row st1) = InvoiceRow.wallet_id (st_row st2) ->
    InvoiceRow.external_id (st_row st1) = InvoiceRow.external_id (st_row st2) ->
    h1 = h2.

Definition db_ok (db : DbState) : Prop :=
  payments_ok (payments db) (outbox db) /\
  (intraledger_done (payments db) /\ transfers_match (payments db) (invoices db)) /\
  invoices_ok (invoices db) (outbox db) /\
  external_ids_unique (invoices db) /\
  OutboxTheory.outbox_wf (outbox db).

Definition empty_db : DbState := MkDb ∅ ∅ [].

Lemma empty_db_ok : db_ok empty_db.
Proof.
  split; [| split; [| split; [| split]]].
  - intros h. simpl. by rewrite lookup_empty.
  - split; [| by intros h; unfold transfer_sent, transfer_received; simpl; rewrite !lookup_empty].
    intros h st n es Hl. simpl in Hl. by rewrite lookup_empty in Hl.
  - intros h. simpl. by rewrite lookup_empty.
  - intros h1 h2 st1 st2 Hl. simpl in Hl. by rewrite lookup_empty in Hl.
  - split; [constructor | apply NoDup_nil_2].
Qed.
End Invariant.

(** * Futures

    No row is ever deleted, logs and outbox only grow. *)

Definition log_grows {Row Id Ev} (t1 t2 : table Row Id Ev) : Prop :=
  forall h st, t1 !! h = Some st ->
    exists st', t2 !! h = Some st' /\ st_id st' = st_id st /\
                st_events st `prefix_of` st_events st'.

Definition future (db1 db2 : DbState) : Prop :=
  log_grows (payments db1) (payments db2) /\
  log_grows (invoices db1) (invoices db2) /\
  outbox db1 `prefix_of` outbox db2.

#[export] Instance log_grows_preorder {Row Id Ev} : PreOrder (@log_grows Row Id Ev).
Proof.
  split.
  - intros t h st Hst. by exists st.
  - intros t1 t2 t3 H12 H23 h st Hst.
    destruct (H12 h st Hst) as (st2 & Hst2 & Hid2 & Hp2).
    destruct (H23 h st2 Hst2) as (st3 & Hst3 & Hid3 & Hp3).
    exists st3. split_and!; [done | congruence | by etransitivity].
Qed.

#[export] Instance future_preorder : PreOrder future.
Proof.
  split.
  - intros db. split_and!; reflexivity.
  - intros db1 db2 db3 (Hp1 & Hi1 & Ho1) (Hp2 & Hi2 & Ho2).
    split_and!; by etransitivity.
Qed.

Lemma log_grows_insert {Row Id Ev} (tbl : table Row Id Ev) h st :
  (forall old, tbl !! h = Some old ->
     st_id st = st_id old /\ st_events old `prefix_of` st_events st) ->
  log_grows tbl (<[ h := st ]> tbl).
Proof.
  intros Hnew h' st' Hst'. destruct (decide (h = h')) as [<- | Hne].
  - rewrite lookup_insert_eq. exists st. by destruct (Hnew _ Hst').
  - rewrite lookup_insert_ne by done. by exists st'.
Qed.

(** * Knowledge of an aggregate

    What a handler may rely on, across interleavings, about an aggregate it has loaded or
    created and possibly changed in memory. *)

Section Knowledge.
Context `{EventStoreLaws}.

Definition knows_payment (p : Payment.t) (db : DbState) : Prop :=
  PaymentTheory.wf p /\
  exists st, payments db !! Payment.payment_hash p = Some st /\
    st_id st = ev_id (Payment.events p) /\
    iter_persisted (Payment.events p) `prefix_of` st_events st.

Definition knows_invoice (i : Invoice.t) (db : DbState) : Prop :=
  InvoiceTheory.wf i /\
  exists st, invoices db !! Invoice.payment_hash i = Some st /\
    st_id st = ev_id (Invoice.events i) /\
    iter_persisted (Invoice.events i) <> [] /\
    iter_persisted (Invoice.events i) `prefix_of` st_events st.

Lemma knows_payment_future p db1 db2 :
  future db1 db2 -> knows_payment p db1 -> knows_payment p db2.
Proof.
  intros (Hf & _) (Hwf & st & Hst & Hid & Hpre). split; [done |].
  destruct (Hf _ _ Hst) as (st' & Hst' & Hid' & Hpre').
  exists st'. split_and!; [done | congruence | by etransitivity].
Qed.

Lemma knows_invoice_future i db1 db2 :
  future db1 db2 -> knows_invoice i db1 -> knows_invoice i db2.
Proof.
  intros (_ & Hf & _) (Hwf & st & Hst & Hid & Hne & Hpre). split; [done |].
  destruct (Hf _ _ Hst) as (st' & Hst' & Hid' & Hpre').
  exists st'. split_and!; [done | congruence | done | by etransitivity].
Qed.

(** A command of the lifecycle keeps what is known. *)
Lemma knows_payment_command c p db :
  knows_payment p db -> knows_payment (run_command c p).1 db.
Proof.
  intros (Hwf & st & Hst & Hid & Hpre). split; [by apply run_command_wf |].
  pose proof (run_command_identity c p Hwf) as (_ & Hh & _). rewrite <- Hh.
  rewrite run_command_answer by done. simpl. exists st.
  destruct (lifecycle c (Payment.state p)) as [[|] |]; [| done | done].
  by destruct c; simpl; autorewrite with events.
Qed.

Lemma knows_invoice_command c i db :
  knows_invoice i db -> knows_invoice (run_invoice_command c i).1 db.
Proof.
  intros ([ph Hwf] & st & Hst & Hid & Hne & Hpre).
  split; [eexists; by apply run_invoice_command_wf |].
  rewrite (run_invoice_command_answer c ph) by done. simpl. exists st.
  destruct (invoice_lifecycle c ph) as [[|] |]; [| done | done].
  by destruct c; simpl; autorewrite with events.
Qed.
End Knowledge.

(** * Writes *)

Section Writes.
Context `{HexLaws} `{Sha256} `{EventStoreLaws}.
Context `{PR : !EsRepo Payments.desc} `{PRL : !EsRepoLaws (d := Payments.desc)}.
Context `{IR : !EsRepo Invoices.desc} `{IRL : !EsRepoLaws (d := Invoices.desc)}.

(** What the new events of an aggregate will announce. *)
Definition new_payment_announcements (p : Payment.t) : list (GatewayDomainEvent.t * Z) :=
  map (fun k => (k, sat_i64 (Payment.amount_msat p)))
    (omap (payment_announcement (is_intraledger (Payment.max_fee_msat p)))
       (iter_new (Payment.events p))).

Definition new_invoice_announcements (i : Invoice.t) : list GatewayDomainEvent.t :=
  omap invoice_announcement (iter_new (Invoice.events i)).

(** The outbox gained exactly [news] for a class and a hash, or nothing for a class. *)
Definition announced_more (cls : GatewayDomainEvent.t -> bool) (h : PaymentHash.t)
    (news : list (GatewayDomainEvent.t * Z)) (ob ob' : outbox_table) : Prop :=
  announced cls (PaymentHash.to_hex h) ob' = announced cls (PaymentHash.to_hex h) ob ++ news /\
  forall h', h' <> h ->
    announced cls (PaymentHash.to_hex h') ob' = announced cls (PaymentHash.to_hex h') ob.

Definition announced_same (cls : GatewayDomainEvent.t -> bool) (ob ob' : outbox_table) : Prop :=
  forall ref, announced cls ref ob' = announced cls ref ob.

Lemma announced_more_nil cls h ob : announced_more cls h [] ob ob.
Proof. split; [by rewrite app_nil_r | done]. Qed.

Lemma announced_more_publish cls h ob seq e :
  cls (NewOutboxEvent.domain_event e) = true ->
  NewOutboxEvent.reference_id e = PaymentHash.to_hex h ->
  announced_more cls h [(NewOutboxEvent.domain_event e, NewOutboxEvent.amount_sat e)]
    ob (ob ++ [EventPublisher.row_of seq e]).
Proof.
  intros Hc Hr. split.
  - by rewrite announced_snoc, Hc, Hr, String.eqb_refl.
  - intros h' Hne. rewrite announced_snoc, Hr.
    destruct (String.eqb_spec (PaymentHash.to_hex h) (PaymentHash.to_hex h')) as [Heq |]; simpl.
    + by apply PaymentHash.to_hex_inj in Heq.
    + by rewrite app_nil_r.
Qed.

Lemma announced_same_publish cls ob seq e :
  cls (NewOutboxEvent.domain_event e) = false ->
  announced_same cls ob (ob ++ [EventPublisher.row_of seq e]).
Proof. intros Hc ref. by rewrite announced_snoc, Hc, andb_false_r, app_nil_r. Qed.

Lemma announced_more_same cls h ob ob' :
  announced_same cls ob ob' -> announced_more cls h [] ob ob'.
Proof. intros Hs. split; [by rewrite Hs, app_nil_r | intros; apply Hs]. Qed.

Lemma payments_ok_same tbl ob ob' :
  announced_same payment_class ob ob' -> payments_ok tbl ob -> payments_ok tbl ob'.
Proof. intros Hsame Hok h. specialize (Hok h). by rewrite Hsame. Qed.

Lemma invoices_ok_same tbl ob ob' :
  announced_same invoice_class ob ob' -> invoices_ok tbl ob -> invoices_ok tbl ob'.
Proof. intros Hsame Hok h. specialize (Hok h). by rewrite Hsame. Qed.

(** *** Finding *)

Lemma find_payment_knows db h p :
  payments_ok (payments db) (outbox db) -> intraledger_done (payments db) ->
  find_by_payment_hash Payments.desc h (payments db) = Ok p ->
  knows_payment p db /\ Payment.payment_hash p = h /\ iter_new (Payment.events p) = [] /\
  (is_intraledger (Payment.max_fee_msat p) = true ->
   Payment.state p = PaymentState.Completed \/ Payment.state p = PaymentState.Reversed).
Proof.
  intros Hok Hdone. rewrite find_by_payment_hash_spec. specialize (Hok h).
  destruct (payments db !! h) as [st |] eqn:Hst; [| done].
  destruct Hok as ((p' & Hp & Hwf & Hh & _) & _).
  simpl. rewrite Hp. intros [= <-].
  pose proof (PaymentTheory.try_from_events_events _ _ Hp) as He.
  split_and!; [split; [done |] | done | by rewrite He, iter_new_load |].
  - exists st. rewrite He, ev_id_load, iter_persisted_load. by rewrite Hh.
  - intros Hil. destruct Hwf as [_ Hlog]. rewrite He, iter_all_load in Hlog.
    destruct (payment_log_head _ _ Hlog) as (n & es & Hn & Hes).
    destruct (PaymentTheory.hydrate_identity _ _ n es Hp) as (_ & _ & _ & Hfee);
      [by rewrite iter_all_load | done |].
    rewrite Hfee in Hil. specialize (Hdone h st n es Hst Hn Hil).
    apply payment_log_marks in Hlog as (Hc & _). rewrite Hn in Hc. simpl in Hc.
    rewrite Hdone in Hc. by apply eq_sym, bool_decide_eq_true_1 in Hc.
Qed.

Lemma find_invoice_knows db h i :
  invoices_ok (invoices db) (outbox db) ->
  find_by_payment_hash Invoices.desc h (invoices db) = Ok i ->
  knows_invoice i db /\ Invoice.payment_hash i = h /\ iter_new (Invoice.events i) = [] /\
  Preimage.payment_hash (Invoice.payment_preimage i) = h.
Proof.
  intros Hok. rewrite find_by_payment_hash_spec. specialize (Hok h).
  destruct (invoices db !! h) as [st |] eqn:Hst; [| done].
  destruct Hok as ((i' & Hi & Hwf & Hh & Hpre & _) & _).
  simpl. rewrite Hi. intros [= <-].
  pose proof (InvoiceTheory.invoice_try_from_events_events _ _ Hi) as He.
  split_and!; [split; [done |] | done | by rewrite He, iter_new_load | done].
  exists st. rewrite He, ev_id_load, iter_persisted_load. rewrite Hh. split_and!; try done.
  destruct Hwf as (ph & _ & Hlog & _). rewrite He, iter_all_load in Hlog.
  by eapply invoice_log_nonempty.
Qed.

(** The halves of transfers, on the loaded aggregates. *)
Lemma transfer_sent_found tbl ob h :
  payments_ok tbl ob ->
  (exists p, find_by_payment_hash Payments.desc h tbl = Ok p /\
     Payment.max_fee_msat p = MilliSatoshi.ZERO) <-> transfer_sent tbl h = true.
Proof.
  intros Hok. rewrite find_by_payment_hash_spec. specialize (Hok h). unfold transfer_sent.
  destruct (tbl !! h) as [st |]; [| split; [by intros (p & ? & _) | by intros]].
  destruct Hok as ((p & Hp & [_ Hlog] & _) & _). simpl. rewrite Hp. simpl.
  rewrite (PaymentTheory.try_from_events_events _ _ Hp), iter_all_load in Hlog.
  destruct (payment_log_head _ _ Hlog) as (n & es & Hn & Hes).
  destruct (PaymentTheory.hydrate_identity _ _ n es Hp) as (_ & _ & _ & Hf);
    [by rewrite iter_all_load | done |].
  rewrite Hn. simpl. unfold is_intraledger. rewrite <- Hf, bool_decide_eq_true.
  split; [by intros (p' & [= <-] & ?) | by exists p].
Qed.

Lemma transfer_received_found tbl ob h :
  invoices_ok tbl ob ->
  (exists i, find_by_payment_hash Invoices.desc h tbl = Ok i /\
     Invoice.state i = InvoiceState.Settled /\
     existsb InvoiceEvent.is_SettledIntraledger (iter_all (Invoice.events i)) = true) <->
  transfer_received tbl h = true.
Proof.
  intros Hok. rewrite find_by_payment_hash_spec. specialize (Hok h). unfold transfer_received.
  destruct (tbl !! h) as [st |]; [| split; [by intros (i & ? & _) | by intros]].
  destruct Hok as ((i & Hi & [ph (_ & Hlog & Hs & _)] & _) & _). simpl. rewrite Hi. simpl.
  pose proof (InvoiceTheory.invoice_try_from_events_events _ _ Hi) as He.
  rewrite He, iter_all_load in Hlog. apply invoice_log_marks in Hlog as (_ & _ & Hmark & _).
  split.
  - intros (i' & [= <-] & _ & Hex). by rewrite He, iter_all_load in Hex.
  - intros Hex. exists i. split; [done |]. rewrite He, iter_all_load. split; [| done].
    rewrite Hex in Hmark. symmetry in Hmark. apply bool_decide_eq_true_1 in Hmark.
    by rewrite Hs, Hmark.
Qed.

(** *** Updating *)

(** A successful update of a known aggregate found the stored log unchanged since. *)
Lemma payment_update_outcome db p p' tbl' :
  knows_payment p db -> iter_new (Payment.events p) <> [] ->
  update_in_op Payments.desc p (payments db) = Ok (p', tbl') ->
  exists st,
    payments db !! Payment.payment_hash p = Some st /\
    st_id st = ev_id (Payment.events p) /\
    st_events st = iter_persisted (Payment.events p) /\
    p' = Payment.set_events (ev_mark_persisted (Payment.events p)) p /\
    tbl' = <[ Payment.payment_hash p :=
                Stored (st_id st) (Payments.update_row p (st_row st))
                  (st_events st ++ iter_new (Payment.events p)) ]> (payments db).
Proof.
  intros (Hwf & st & Hst & Hid & Hpre) Hnew. rewrite (update_in_op_spec p (payments db) st) by done.
  case_decide as Hlen; [| done]. intros [= <- <-]. exists st. split_and!; try done.
  symmetry. apply (prefix_length_eq _ _ Hpre). simpl in Hlen. lia.
Qed.

Lemma invoice_update_outcome db i i' tbl' :
  knows_invoice i db -> iter_new (Invoice.events i) <> [] ->
  update_in_op Invoices.desc i (invoices db) = Ok (i', tbl') ->
  exists st,
    invoices db !! Invoice.payment_hash i = Some st /\
    st_id st = ev_id (Invoice.events i) /\
    st_events st = iter_persisted (Invoice.events i) /\
    i' = Invoice.set_events (ev_mark_persisted (Invoice.events i)) i /\
    tbl' = <[ Invoice.payment_hash i :=
                Stored (st_id st) (Invoices.update_row i (st_row st))
                  (st_events st ++ iter_new (Invoice.events i)) ]> (invoices db).
Proof.
  intros (Hwf & st & Hst & Hid & _ & Hpre) Hnew. rewrite (update_in_op_spec i (invoices db) st) by done.
  case_decide as Hlen; [| done]. intros [= <- <-]. exists st. split_and!; try done.
  symmetry. apply (prefix_length_eq _ _ Hpre). simpl in Hlen. lia.
Qed.

(** The head of a stored log and of its well-formed extension agree. *)
Lemma payment_extension p p0 (st : stored PaymentRow.t PaymentId.t PaymentEvent.t) :
  Payment.try_from_events (ev_load (st_id st) (st_events st)) = Ok p0 ->
  PaymentTheory.wf p0 -> PaymentTheory.wf p ->
  st_events st = iter_persisted (Payment.events p) ->
  exists n es,
    st_events st = NewPayment.initial_event n :: es /\
    Payment.payment_hash p = Payment.payment_hash p0 /\
    Payment.wallet_id p = Payment.wallet_id p0 /\
    Payment.amount_msat p = Payment.amount_msat p0 /\
    Payment.max_fee_msat p = Payment.max_fee_msat p0 /\
    Payment.amount_msat p = NewPayment.amount_msat n /\
    Payment.max_fee_msat p = NewPayment.max_fee_msat n.
Proof.
  intros Hp0 [_ Hlog0] [Hco Hlog] Hst.
  rewrite (PaymentTheory.try_from_events_events _ _ Hp0), iter_all_load in Hlog0.
  destruct (payment_log_head _ _ Hlog0) as (n & es & Hn & Hes).
  destruct (payment_log_head _ _ Hlog) as (n' & es' & Hn' & Hes').
  assert (Hsame : NewPayment.initial_event n = NewPayment.initial_event n').
  { rewrite iter_all_split, <- Hst, Hn in Hn'. simpl in Hn'. congruence. }
  destruct (PaymentTheory.hydrate_identity _ _ n es Hp0) as (A1 & A2 & A3 & A4);
    [by rewrite iter_all_load | done |].
  destruct (PaymentTheory.hydrate_identity _ _ n' es' Hco Hn' Hes') as (B1 & B2 & B3 & B4).
  injection Hsame as Ehash Ewallet Eamount Efee _ _ _.
  exists n, es. split_and!; congruence.
Qed.

Lemma payments_ok_update tbl ob ob' p st :
  payments_ok tbl ob ->
  tbl !! Payment.payment_hash p = Some st ->
  st_id st = ev_id (Payment.events p) ->
  st_events st = iter_persisted (Payment.events p) ->
  PaymentTheory.wf p ->
  announced_more payment_class (Payment.payment_hash p) (new_payment_announcements p) ob ob' ->
  payments_ok
    (<[ Payment.payment_hash p :=
          Stored (st_id st) (Payments.update_row p (st_row st))
            (st_events st ++ iter_new (Payment.events p)) ]> tbl) ob'.
Proof.
  intros Hok Hst Hid Hev Hwf [Hmore Hother] h.
  destruct (decide (Payment.payment_hash p = h)) as [<- | Hne].
  - rewrite lookup_insert_eq. specialize (Hok (Payment.payment_hash p)). rewrite Hst in Hok.
    destruct Hok as ((p0 & Hp0 & Hwf0 & Hh0 & Hw & Ha & Hf & Hs & Hb) & Hann).
    destruct (payment_extension p p0 st Hp0 Hwf0 Hwf Hev)
      as (n & es & Hn & Eh & Ew & Ea & Ef & Ea' & Ef').
    split.
    + eexists. split.
      { destruct Hwf as [Hco _].
        apply (PaymentTheory.try_from_events_set (Payment.events p)); [| | exact Hco].
        - by rewrite iter_all_load, iter_all_split, Hev.
        - by rewrite ev_id_load. }
      simpl. rewrite <- Ew, <- Ea, <- Ef in *. split_and!; try done.
      split; simpl.
      * destruct Hwf as [Hco _].
        apply (PaymentTheory.try_from_events_set (Payment.events p)); [| | exact Hco].
        { by rewrite iter_all_load, iter_all_split, Hev. }
        { by rewrite ev_id_load. }
      * simpl. rewrite iter_all_load, Hev, <- iter_all_split. by destruct Hwf.
    + simpl. rewrite Hmore, Hann, Hn, payment_announcements_app.
      unfold new_payment_announcements. by rewrite Ea', Ef'.
  - rewrite lookup_insert_ne by done. specialize (Hok h). by rewrite Hother.
Qed.

Lemma intraledger_done_update tbl h st st' es :
  intraledger_done tbl -> tbl !! h = Some st -> st_events st <> [] ->
  st_events st' = st_events st ++ es -> intraledger_done (<[ h := st' ]> tbl).
Proof.
  intros Hdone Hst Hne Hev h' st2 n es' Hl Hn Hil. destruct (decide (h = h')) as [<- | Hd].
  - rewrite lookup_insert_eq in Hl. injection Hl as <-. rewrite Hev in Hn.
    destruct (st_events st) as [| e0 l] eqn:Hl; [done |]. injection Hn as -> <-.
    rewrite existsb_app. by rewrite (Hdone _ _ _ _ Hst Hl Hil).
  - rewrite lookup_insert_ne in Hl by done. by eapply Hdone.
Qed.

(** The writes and the two halves of transfers. *)
Lemma transfers_match_payment_write ptbl itbl h st' :
  transfers_match ptbl itbl -> transfer_sent ptbl h = intraledger_log (st_events st') ->
  transfers_match (<[ h := st' ]> ptbl) itbl.
Proof.
  intros Hm Hsent h'. rewrite <- Hm. unfold transfer_sent at 1.
  destruct (decide (h = h')) as [<- | Hne]; [by rewrite lookup_insert_eq, Hsent |].
  by rewrite lookup_insert_ne by done.
Qed.

Lemma transfer_sent_update ptbl h st es :
  ptbl !! h = Some st -> st_events st <> [] ->
  transfer_sent ptbl h = intraledger_log (st_events st ++ es).
Proof. unfold transfer_sent. intros ->. by destruct (st_events st). Qed.

Lemma transfers_match_invoice_write ptbl itbl h st' :
  transfers_match ptbl itbl ->
  transfer_received itbl h = existsb InvoiceEvent.is_SettledIntraledger (st_events st') ->
  transfers_match ptbl (<[ h := st' ]> itbl).
Proof.
  intros Hm Hreceived h'. rewrite Hm. unfold transfer_received at 2.
  destruct (decide (h = h')) as [<- | Hne]; [by rewrite lookup_insert_eq, Hreceived |].
  by rewrite lookup_insert_ne by done.
Qed.

Lemma transfer_received_update itbl h st es :
  itbl !! h = Some st -> existsb InvoiceEvent.is_SettledIntraledger es = false ->
  transfer_received itbl h =
    existsb InvoiceEvent.is_SettledIntraledger (st_events st ++ es).
Proof. unfold transfer_received. intros -> Hes. by rewrite existsb_app, Hes, orb_false_r. Qed.

(** Both halves of one transfer. *)
Lemma transfers_match_both ptbl itbl h pst ist :
  transfers_match ptbl itbl -> intraledger_log (st_events pst) = true ->
  existsb InvoiceEvent.is_SettledIntraledger (st_events ist) = true ->
  transfers_match (<[ h := pst ]> ptbl) (<[ h := ist ]> itbl).
Proof.
  intros Hm Hs Hr h'. unfold transfer_sent, transfer_received.
  destruct (decide (h = h')) as [<- | Hne]; [by rewrite !lookup_insert_eq, Hs, Hr |].
  rewrite !lookup_insert_ne by done. apply Hm.
Qed.

(** *** Creating *)

Lemma payment_create_outcome now n tbl p tbl' :
  create_in_op Payments.desc now n tbl = Ok (p, tbl') ->
  let evs := ev_mark_persisted (NewPayment.into_events n) in
  exists row,
    Payments.insert_row now n = Ok row /\ tbl !! NewPayment.payment_hash n = None /\
    p = fresh n evs /\
    tbl' = <[ NewPayment.payment_hash n :=
                Stored (NewPayment.id n) row [NewPayment.initial_event n] ]> tbl.
Proof.
  intros Hc. pose proof (create_in_op_spec (d := Payments.desc) now n tbl) as Hspec.
  simpl in Hspec. unfold Payments.conflict in Hspec.
  destruct (Payments.insert_row now n) as [row |]; [| congruence].
  destruct (tbl !! NewPayment.payment_hash n) eqn:Hno;
    [destruct Hspec as [v Hspec]; congruence |].
  rewrite Hspec, (hydrate_new n) in Hc; unfold NewPayment.into_events in *;
    [| by autorewrite with events ..].
  autorewrite with events in Hc. injection Hc as <- <-. by exists row.
Qed.

Lemma insert_row_columns now n row :
  Payments.insert_row now n = Ok row ->
  row = PaymentRow.mk (NewPayment.wallet_id n) (MilliSatoshi.as_u64 (NewPayment.amount_msat n))
          (MilliSatoshi.as_u64 (NewPayment.max_fee_msat n)) "initiated" now /\
  (MilliSatoshi.as_u64 (NewPayment.amount_msat n) <= i64_max)%Z /\
  (MilliSatoshi.as_u64 (NewPayment.max_fee_msat n) <= i64_max)%Z.
Proof.
  unfold Payments.insert_row, Payments.encode_msat, MilliSatoshi.encode, i64_try_from_u64.
  destruct (Z.leb_spec (MilliSatoshi.as_u64 (NewPayment.amount_msat n)) i64_max),
    (Z.leb_spec (MilliSatoshi.as_u64 (NewPayment.max_fee_msat n)) i64_max); simpl; try done.
  intros [= <-]. done.
Qed.

Lemma payments_ok_create tbl ob ob' n now row :
  payments_ok tbl ob ->
  tbl !! NewPayment.payment_hash n = None ->
  Payments.insert_row now n = Ok row ->
  announced_more payment_class (NewPayment.payment_hash n)
    (payment_announcements [NewPayment.initial_event n]) ob ob' ->
  payments_ok (<[ NewPayment.payment_hash n :=
                    Stored (NewPayment.id n) row [NewPayment.initial_event n] ]> tbl) ob'.
Proof.
  intros Hok Hno Hrow [Hmore Hother] h.
  destruct (insert_row_columns _ _ _ Hrow) as (-> & Ha & Hf).
  destruct (decide (NewPayment.payment_hash n = h)) as [<- | Hne].
  - rewrite lookup_insert_eq. specialize (Hok (NewPayment.payment_hash n)). rewrite Hno in Hok.
    split; [| by rewrite Hmore, Hok].
    eexists. simpl. split; [apply hydrate_new; by autorewrite with events |].
    split_and!; try done. apply fresh_wf; by autorewrite with events.
  - rewrite lookup_insert_ne by done. specialize (Hok h). by rewrite Hother.
Qed.

(** *** Invoices *)

Lemma invoice_extension i i0 (st : stored InvoiceRow.t InvoiceId.t InvoiceEvent.t) :
  Invoice.try_from_events (ev_load (st_id st) (st_events st)) = Ok i0 ->
  InvoiceTheory.wf i0 -> InvoiceTheory.wf i ->
  st_events st = iter_persisted (Invoice.events i) ->
  Invoice.payment_hash i = Invoice.payment_hash i0 /\
  Invoice.payment_preimage i = Invoice.payment_preimage i0 /\
  Invoice.wallet_id i = Invoice.wallet_id i0 /\
  Invoice.external_id i = Invoice.external_id i0.
Proof.
  intros Hi0 (ph0 & _ & Hlog0 & _) (ph & Hco & Hlog & _) Hst.
  rewrite (InvoiceTheory.invoice_try_from_events_events _ _ Hi0), iter_all_load in Hlog0.
  destruct (invoice_log_head _ _ Hlog0) as (n & es & Hn & Hes).
  destruct (invoice_log_head _ _ Hlog) as (n' & es' & Hn' & Hes').
  assert (Hsame : NewInvoice.initial_event n = NewInvoice.initial_event n').
  { rewrite iter_all_split, <- Hst, Hn in Hn'. simpl in Hn'. congruence. }
  destruct (InvoiceTheory.invoice_hydrate_identity _ _ n es Hi0) as (A1 & A2 & A3 & A4);
    [by rewrite iter_all_load | done |].
  destruct (InvoiceTheory.invoice_hydrate_identity _ _ n' es' Hco Hn' Hes') as (B1 & B2 & B3 & B4).
  injection Hsame as E1 E2 E3 _ _ _ E4 _.
  split_and!; congruence.
Qed.

(** Replacing the event log of a well-formed invoice by an equal one. *)
Lemma invoice_wf_reload i evs :
  InvoiceTheory.wf i -> iter_all evs = iter_all (Invoice.events i) ->
  ev_id evs = ev_id (Invoice.events i) ->
  Invoice.try_from_events evs = Ok (Invoice.set_events evs i) /\
  InvoiceTheory.wf (Invoice.set_events evs i).
Proof.
  intros (ph & Hco & Hlog & Hrest) Hall Hid.
  assert (Hre : Invoice.try_from_events evs = Ok (Invoice.set_events evs i))
    by by apply (InvoiceTheory.invoice_try_from_events_set (Invoice.events i)).
  split; [done |]. exists ph. split; [exact Hre |]. split; [| exact Hrest].
  simpl. by rewrite Hall.
Qed.

Lemma invoices_ok_update tbl ob ob' i st news :
  invoices_ok tbl ob ->
  tbl !! Invoice.payment_hash i = Some st ->
  st_id st = ev_id (Invoice.events i) ->
  st_events st = iter_persisted (Invoice.events i) ->
  InvoiceTheory.wf i ->
  announced_more invoice_class (Invoice.payment_hash i) news ob ob' ->
  map fst news = new_invoice_announcements i ->
  invoices_ok
    (<[ Invoice.payment_hash i :=
          Stored (st_id st) (Invoices.update_row i (st_row st))
            (st_events st ++ iter_new (Invoice.events i)) ]> tbl) ob'.
Proof.
  intros Hok Hst Hid Hev Hwf [Hmore Hother] Hnews h.
  destruct (decide (Invoice.payment_hash i = h)) as [<- | Hne].
  - rewrite lookup_insert_eq. specialize (Hok (Invoice.payment_hash i)). rewrite Hst in Hok.
    destruct Hok as ((i0 & Hi0 & Hwf0 & Hh0 & Hp0 & Hw & Hx & Hs) & Hann).
    destruct (invoice_extension i i0 st Hi0 Hwf0 Hwf Hev) as (Eh & Ep & Ew & Ex).
    destruct (invoice_wf_reload i
      (ev_load (st_id st) (st_events st ++ iter_new (Invoice.events i))) Hwf) as [Hre Hwf'].
    { by rewrite iter_all_load, Hev, iter_all_split. }
    { by rewrite ev_id_load. }
    split.
    + eexists. split; [exact Hre |]. split; [exact Hwf' |]. simpl.
      rewrite <- Ep, <- Ew, <- Ex in *. by split_and!.
    + simpl. by rewrite Hmore, map_app, Hann, Hnews, omap_app.
  - rewrite lookup_insert_ne by done. specialize (Hok h). by rewrite Hother.
Qed.

Lemma external_ids_unique_update tbl h st st' :
  external_ids_unique tbl -> tbl !! h = Some st ->
  InvoiceRow.wallet_id (st_row st') = InvoiceRow.wallet_id (st_row st) ->
  InvoiceRow.external_id (st_row st') = InvoiceRow.external_id (st_row st) ->
  external_ids_unique (<[ h := st' ]> tbl).
Proof.
  intros Hu Hst Hw Hx h1 h2 st1 st2 H1' H2' Ew Ex.
  assert (Hlook : forall h0 st0, <[ h := st' ]> tbl !! h0 = Some st0 ->
    exists old, tbl !! h0 = Some old /\
      InvoiceRow.wallet_id (st_row st0) = InvoiceRow.wallet_id (st_row old) /\
      InvoiceRow.external_id (st_row st0) = InvoiceRow.external_id (st_row old)).
  { intros h0 st0. destruct (decide (h = h0)) as [<- | Hne].
    - rewrite lookup_insert_eq. intros [= <-]. by exists st.
    - rewrite lookup_insert_ne by done. intros ?. by exists st0. }
  destruct (Hlook _ _ H1') as (o1 & Ho1 & Hw1 & Hx1).
  destruct (Hlook _ _ H2') as (o2 & Ho2 & Hw2 & Hx2).
  apply (Hu h1 h2 o1 o2); congruence.
Qed.

Lemma invoice_create_outcome now n tbl i tbl' :
  create_in_op Invoices.desc now n tbl = Ok (i, tbl') ->
  let evs := ev_mark_persisted (NewInvoice.into_events n) in
  exists row,
    Invoices.insert_row now n = Ok row /\ Invoices.conflict n tbl = None /\
    i = fresh_invoice n evs /\
    tbl' = <[ NewInvoice.payment_hash n :=
                Stored (NewInvoice.id n) row [NewInvoice.initial_event n] ]> tbl.
Proof.
  intros Hc. pose proof (create_in_op_spec (d := Invoices.desc) now n tbl) as Hspec.
  simpl in Hspec. destruct (Invoices.insert_row now n) as [row |]; [| congruence].
  destruct (Invoices.conflict n tbl); [destruct Hspec as [v Hspec]; congruence |].
  rewrite Hspec, (hydrate_new_invoice n) in Hc; unfold NewInvoice.into_events in *;
    [| by autorewrite with events ..].
  autorewrite with events in Hc. injection Hc as <- <-. by exists row.
Qed.

Lemma conflict_none n tbl :
  Invoices.conflict n tbl = None ->
  tbl !! NewInvoice.payment_hash n = None /\
  forall h st, tbl !! h = Some st ->
    InvoiceRow.wallet_id (st_row st) = NewInvoice.wallet_id n ->
    InvoiceRow.external_id (st_row st) <> NewInvoice.external_id n.
Proof.
  unfold Invoices.conflict. destruct (tbl !! NewInvoice.payment_hash n); [done |].
  destruct (existsb _ _) eqn:Hex; [done |]. intros _. split; [done |].
  intros h st Hst Hw Hx. apply not_true_iff_false in Hex. apply Hex, existsb_exists.
  exists (h, st). split; [by apply list_elem_of_In, elem_of_map_to_list |].
  unfold Invoices.same_external_id. simpl. rewrite Hx, String.eqb_refl, andb_true_r.
  by apply bool_decide_eq_true_2.
Qed.

Lemma invoices_create_ok tbl ob n now row :
  invoices_ok tbl ob -> external_ids_unique tbl ->
  Invoices.conflict n tbl = None ->
  Invoices.insert_row now n = Ok row ->
  Preimage.payment_hash (NewInvoice.payment_preimage n) = NewInvoice.payment_hash n ->
  let tbl' := <[ NewInvoice.payment_hash n :=
                   Stored (NewInvoice.id n) row [NewInvoice.initial_event n] ]> tbl in
  invoices_ok tbl' ob /\ external_ids_unique tbl'.
Proof.
  intros Hok Hu [Hno Hext]%conflict_none Hrow Hpre tbl'.
  assert (Hcols : InvoiceRow.wallet_id row = NewInvoice.wallet_id n /\
    InvoiceRow.external_id row = NewInvoice.external_id n /\ InvoiceRow.state row = "open").
  { unfold Invoices.insert_row in Hrow.
    destruct (Invoices.encode_msat_opt _); [| done]. by injection Hrow as <-. }
  destruct Hcols as (Hw & Hx & Hs). split.
  - intros h. unfold tbl'. destruct (decide (NewInvoice.payment_hash n = h)) as [<- | Hne].
    + rewrite lookup_insert_eq. specialize (Hok (NewInvoice.payment_hash n)).
      rewrite Hno in Hok. split; [| by rewrite Hok].
      eexists. simpl. split; [apply hydrate_new_invoice; by autorewrite with events |].
      split_and!; try done. exists PhOpen. apply fresh_invoice_wf; by autorewrite with events.
    + rewrite lookup_insert_ne by done. apply Hok.
  - intros h1 h2 st1 st2. unfold tbl'. rewrite !lookup_insert_Some.
    intros [[<- <-] | [Hn1 L1]] [[<- <-] | [Hn2 L2]]; simpl; try done.
    + intros Ew Ex. destruct (Hext _ _ L2); congruence.
    + intros Ew Ex. destruct (Hext _ _ L1); congruence.
    + intros Ew Ex. by eapply Hu.
Qed.
End Writes.
