(* ===== verification/Evidence.v ===== *)
(** What the outside world must have said for an event to be stored.

    The log of a handler's effects is its evidence.  [payment_evidence] and
    [invoice_evidence] say, for each event of the two aggregates, what the handler that
    writes it must have been told by the ownership gate, by Symphony or by LND;
    [justified] says of a transaction that every event it appends has its evidence. *)
From S2P Require Import Prelude Primitives Fees EsEntity Concrete GraphqlTypes Jwks.
From S2P Require Import PaymentEntity InvoiceEntity Outbox Lnd Symphony Wallet Effects App.
From S2P Require Import AppPayment AppInvoice Ledger.

Notation gw_event := (event ext_resp TxEnv DbState).
Notation gw_trace := (list gw_event).
Notation gw_eff := (eff TxEnv DbState).

Section Evidence.
Context `{Hex} `{Sha256} `{UuidText} `{Bolt11} `{EventStore}.
Implicit Types (tr : gw_trace) (h : PaymentHash.t) (w : WalletId.t).

Definition ownership_checked tr w : Prop :=
  exists caller, Ev (Call (CheckOwnership caller w)) (Ok tt) ∈ tr.

Definition spend_approved tr (req : SymphonyAuthorizeRequest.t) : Prop :=
  exists resp, Ev (Call (AuthorizeSpend req)) (Ok resp) ∈ tr /\
    SymphonyAuthorizeResponse.status resp = SymphonyAuthorizeStatus.Approved.

(** A spend of wallet [w] under the payment hash [h]. *)
Definition spend_of w h (req : SymphonyAuthorizeRequest.t) : Prop :=
  SymphonyAuthorizeRequest.account req =
    MkAccountRef AccountKind.WalletLiability (WalletId.to_string w) /\
  SymphonyAuthorizeRequest.idempotency_key req = PaymentHash.to_hex h /\
  SymphonyAuthorizeRequest.correlation_id req = PaymentHash.to_hex h.

(** The payment hash of a payment request. *)
Definition request_hash (text : string) h : Prop :=
  exists now d, decode_bolt11_at text now = Ok d /\ DecodedInvoice.payment_hash d = h.

(** ** Payments *)

(** A transfer of [amount] from [w], which Symphony has posted, and whose invoice LND has
    given up. *)
Definition transfer_approved tr h w (amount : MilliSatoshi.t) : Prop :=
  exists req, spend_approved tr req /\ spend_of w h req /\
    SymphonyAuthorizeRequest.sat_amount req = MilliSatoshi.whole_sat amount /\
    Ev (Call (LndCancelInvoice h)) (Ok tt) ∈ tr.

(** An update of LND's subscription, as the response it carries. *)
Definition update_response (u : PaymentUpdate.t) : SendPaymentResponse.t :=
  SendPaymentResponse.mk (PaymentUpdate.payment_hash u) (PaymentUpdate.payment_preimage u)
    (PaymentUpdate.status u) (PaymentUpdate.fees_paid_msat u) (PaymentUpdate.route_hops u)
    (PaymentUpdate.failure_reason u).

(** What LND has said of the payment [h]: in answer to the send of a request with this
    hash, in answer to a lookup of it, or on the subscription. *)
Inductive lnd_reported tr h : SendPaymentResponse.t -> Prop :=
| said_on_send params resp :
    request_hash (BoltInvoice.as_str (SendPaymentParams.bolt_invoice params)) h ->
    (Ev (Call (LndSendPayment params)) (Ok resp) : gw_event) ∈ tr ->
    SendPaymentResponse.payment_hash resp = h ->
    lnd_reported tr h resp
| said_on_lookup resp :
    (Ev (Call (LndLookupPayment h)) (Some (Ok resp)) : gw_event) ∈ tr -> lnd_reported tr h resp
| said_on_update u :
    (Ev (Call RecvPaymentUpdate) u : gw_event) ∈ tr -> PaymentUpdate.payment_hash u = h ->
    lnd_reported tr h (update_response u).

(** LND did not carry the send of [h] out as asked: an error, or another hash. *)
Definition lnd_refused tr h : Prop :=
  exists params r,
    request_hash (BoltInvoice.as_str (SendPaymentParams.bolt_invoice params)) h /\
    Ev (Call (LndSendPayment params)) r ∈ tr /\
    match r with Ok resp => SendPaymentResponse.payment_hash resp <> h | Err _ => True end.

(** Symphony was asked for the spend of [h], and whether it refused. *)
Definition spend_requested tr h : Prop :=
  exists w req r, Ev (Call (AuthorizeSpend req)) r ∈ tr /\ spend_of w h req.

Definition spend_refused tr h : Prop :=
  exists w req r, Ev (Call (AuthorizeSpend req)) r ∈ tr /\ spend_of w h req /\
    match r with
    | Ok resp => SymphonyAuthorizeResponse.status resp = SymphonyAuthorizeStatus.Declined
    | Err _ => True
    end.

Definition payment_evidence tr h (e : PaymentEvent.t) : Prop :=
  match e with
  | PaymentEvent.Initiated h' w amount max_fee bolt _ _ =>
      h' = h /\ ownership_checked tr w /\ request_hash (BoltInvoice.as_str bolt) h /\
      (is_intraledger max_fee = true -> transfer_approved tr h w amount)
  | PaymentEvent.Pending _ => spend_requested tr h
  | PaymentEvent.Completed _ pre fees hops =>
      (exists resp, lnd_reported tr h resp /\
         SendPaymentResponse.status resp = SendPaymentStatus.Succeeded /\
         SendPaymentResponse.payment_preimage resp = Some pre /\
         SendPaymentResponse.fees_paid_msat resp = fees /\
         SendPaymentResponse.route_hops resp = hops) \/
      (fees = MilliSatoshi.ZERO /\ hops = [] /\ Preimage.payment_hash pre = h /\
       exists w amount, transfer_approved tr h w amount)
  | PaymentEvent.Failed _ reason =>
      (exists resp, lnd_reported tr h resp /\
         SendPaymentResponse.status resp = SendPaymentStatus.Failed /\
         forall r, SendPaymentResponse.failure_reason resp = Some r -> reason = r) \/
      lnd_refused tr h \/ spend_refused tr h
  | PaymentEvent.Reversed _ _ => False
  end.

(** ** Invoices *)

Definition invoice_evidence tr h (e : InvoiceEvent.t) : Prop :=
  match e with
  | InvoiceEvent.Created h' pre w amount _ bolt _ _ =>
      h' = h /\ ownership_checked tr w /\
      exists (random : array 32) params resp,
        Ev (Call FillBytes) random ∈ tr /\ pre = Preimage.new random /\
        Preimage.payment_hash pre = h /\
        Ev (Call (LndAddHoldInvoice params)) (Ok resp) ∈ tr /\
        AddHoldInvoiceParams.payment_hash params = h /\
        AddHoldInvoiceParams.amount_msat params = amount /\ ah_bolt_invoice resp = bolt
  | InvoiceEvent.HtlcHeld _ amount =>
      exists u, Ev (Call RecvInvoiceUpdate) u ∈ tr /\ InvoiceUpdate.payment_hash u = h /\
        InvoiceUpdate.state u = LndInvoiceState.Accepted /\ InvoiceUpdate.amt_paid_msat u = amount
  | InvoiceEvent.Settled _ =>
      (exists pre, Preimage.payment_hash pre = h /\
         Ev (Call (LndSettleInvoice pre)) (Ok tt) ∈ tr) \/
      exists u, Ev (Call (LndLookupInvoice h)) (Ok u) ∈ tr /\
        InvoiceUpdate.state u = LndInvoiceState.Settled
  | InvoiceEvent.SettledIntraledger _ => exists w amount, transfer_approved tr h w amount
  | InvoiceEvent.Canceled _ reason =>
      reason = CancelReason.Expired /\
      ((exists u, Ev (Call (LndLookupInvoice h)) (Ok u) ∈ tr /\
          InvoiceUpdate.state u = LndInvoiceState.Canceled) \/
       exists u, Ev (Call RecvInvoiceUpdate) u ∈ tr /\ InvoiceUpdate.payment_hash u = h /\
          InvoiceUpdate.state u = LndInvoiceState.Canceled)
  end.

(** Evidence is kept. *)
Lemma ownership_checked_mono tr tr' w :
  tr ⊆ tr' -> ownership_checked tr w -> ownership_checked tr' w.
Proof. intros Hs (c & Hc). exists c. set_solver. Qed.

Lemma spend_approved_mono tr tr' req :
  tr ⊆ tr' -> spend_approved tr req -> spend_approved tr' req.
Proof. intros Hs (r & Hr & Ha). exists r. split; [set_solver | done]. Qed.

Lemma transfer_approved_mono tr tr' h w amount :
  tr ⊆ tr' -> transfer_approved tr h w amount -> transfer_approved tr' h w amount.
Proof.
  intros Hs (req & Ha & Hr & Hsat & Hc). exists req.
  split; [by apply (spend_approved_mono tr) |]. split; [done |]. split; [done | set_solver].
Qed.

Lemma lnd_reported_mono tr tr' h resp :
  tr ⊆ tr' -> lnd_reported tr h resp -> lnd_reported tr' h resp.
Proof.
  intros Hs []; [eapply said_on_send | eapply said_on_lookup | eapply said_on_update];
    try done; set_solver.
Qed.

Lemma payment_evidence_mono tr tr' h e :
  tr ⊆ tr' -> payment_evidence tr h e -> payment_evidence tr' h e.
Proof.
  intros Hs. destruct e; simpl; [| | | | done].
  - intros (Hh & Ho & Hr & Ht). split; [done |]. split; [by apply (ownership_checked_mono tr) |].
    split; [done |]. intros Hi. by apply (transfer_approved_mono tr), Ht.
  - intros (w & req & r & Hr & Hreq). exists w, req, r. split; [set_solver | done].
  - intros [(resp & Hr & Hrest) | (Hf & Hh & Hp & w & amount & Ht)].
    + left. exists resp. split; [by apply (lnd_reported_mono tr) | done].
    + right. split; [done |]. split; [done |]. split; [done |]. exists w, amount.
      by apply (transfer_approved_mono tr).
  - intros [(resp & Hr & Hrest) | [(params & r & Hq & Hr & Hrest) | (w & req & r & Hr & Hrest)]].
    + left. exists resp. split; [by apply (lnd_reported_mono tr) | done].
    + right. left. exists params, r. split; [done |]. split; [set_solver | done].
    + right. right. exists w, req, r. split; [set_solver | done].
Qed.

Lemma invoice_evidence_mono tr tr' h e :
  tr ⊆ tr' -> invoice_evidence tr h e -> invoice_evidence tr' h e.
Proof.
  intros Hs. destruct e; simpl.
  - intros (Hh & Ho & random & params & resp & Hr & Hp & Hd & Hadd & Hrest).
    split; [done |]. split; [by apply (ownership_checked_mono tr) |].
    exists random, params, resp. split; [set_solver |]. split; [done |]. split; [done |].
    split; [set_solver | done].
  - intros (u & Hu & Hrest). exists u. split; [set_solver | done].
  - intros [(pre & Hp & Hs') | (u & Hu & Hrest)]; [left; exists pre | right; exists u];
      (split; [by done || set_solver | by done || set_solver]).
  - intros (w & amount & Ht). exists w, amount. by apply (transfer_approved_mono tr).
  - intros (Hr & [(u & Hu & Hrest) | (u & Hu & Hrest)]); (split; [done |]); [left | right];
      exists u; (split; [set_solver | done]).
Qed.

(** ** Transactions *)

(** The stored log of a payment hash, empty when there is no row. *)
Definition log_of {Row Id Ev} (tbl : table Row Id Ev) h : list Ev :=
  match tbl !! h with Some st => st_events st | None => [] end.

(** From [tbl] to [tbl'] logs have only grown, and what they grew by has its evidence. *)
Definition grown_with {Row Id Ev} (evidence : PaymentHash.t -> Ev -> Prop)
    (tbl tbl' : table Row Id Ev) : Prop :=
  forall h, exists es, log_of tbl' h = log_of tbl h ++ es /\ Forall (evidence h) es.

Definition justified tr (db db' : DbState) : Prop :=
  grown_with (payment_evidence tr) (payments db) (payments db') /\
  grown_with (invoice_evidence tr) (invoices db) (invoices db').

Lemma grown_with_refl {Row Id Ev} (evidence : PaymentHash.t -> Ev -> Prop)
    (tbl : table Row Id Ev) : grown_with evidence tbl tbl.
Proof. intros h. exists []. split; [by rewrite app_nil_r | constructor]. Qed.

Lemma justified_refl tr db : justified tr db db.
Proof. split; apply grown_with_refl. Qed.

(** One row written. *)
Lemma grown_with_insert {Row Id Ev} (evidence : PaymentHash.t -> Ev -> Prop)
    (tbl : table Row Id Ev) h st es :
  st_events st = log_of tbl h ++ es -> Forall (evidence h) es ->
  grown_with evidence tbl (<[ h := st ]> tbl).
Proof.
  intros Hst Hes h'. unfold log_of in *. destruct (decide (h = h')) as [<- | Hne].
  - rewrite lookup_insert_eq. by exists es.
  - rewrite lookup_insert_ne by done. exists []. split; [by rewrite app_nil_r | constructor].
Qed.

Lemma justified_payment_write tr db h st es ob :
  st_events st = log_of (payments db) h ++ es -> Forall (payment_evidence tr h) es ->
  justified tr db (MkDb (<[ h := st ]> (payments db)) (invoices db) ob).
Proof. intros Hst Hes. split; [by eapply grown_with_insert | apply grown_with_refl]. Qed.

Lemma justified_invoice_write tr db h st es ob :
  st_events st = log_of (invoices db) h ++ es -> Forall (invoice_evidence tr h) es ->
  justified tr db (MkDb (payments db) (<[ h := st ]> (invoices db)) ob).
Proof. intros Hst Hes. split; [apply grown_with_refl | by eapply grown_with_insert]. Qed.
End Evidence.
