(* ===== verification/Announced.v ===== *)
(** What the announced events say of the stored invoices: the meaning of a status event of
    the outbox on the event log under its reference, and the log a found invoice was
    hydrated from.  These are the facts a status stream relies on. *)
From S2P Require Import Prelude Primitives Fees EsEntity Concrete GraphqlTypes.
From S2P Require Import PaymentEntity InvoiceEntity Outbox Fanout Lnd App StatusStream Ledger.
Import EventPublisher OutboxTheory StatusStream.

Section Announced.
Context `{HexLaws} `{Sha256} `{Bolt11} `{EventStoreLaws}.
Context `{IR : !EsRepo Invoices.desc} `{IRL : !EsRepoLaws (d := Invoices.desc)}.

(** The event log stored under a hash. *)
Definition invoice_events (db : DbState) (h : PaymentHash.t) : list InvoiceEvent.t :=
  match invoices db !! h with Some st => st_events st | None => [] end.

Definition was_paid (l : list InvoiceEvent.t) : bool :=
  existsb InvoiceEvent.is_Settled l || existsb InvoiceEvent.is_SettledIntraledger l.

(** The meaning of the status a domain event is told as. *)
Definition status_holds (status : Status) (l : list InvoiceEvent.t) : bool :=
  match status with
  | InvoicePaymentStatus.Paid => was_paid l
  | InvoicePaymentStatus.Expired => existsb InvoiceEvent.is_Canceled l
  | InvoicePaymentStatus.Pending => existsb InvoiceEvent.is_HtlcHeld l
  end.

(** A row that reads back as [event] is among the announcements of its class. *)
Lemma event_announced tbl event cls :
  Forall published tbl -> event ∈ events_of tbl -> cls (OutboxEvent.domain_event event) = true ->
  (OutboxEvent.domain_event event, OutboxEvent.amount_sat event)
    ∈ announced cls (OutboxEvent.reference_id event) tbl.
Proof.
  intros Hpub Hin Hcls. apply list_elem_of_omap in Hin as (r & Hr & He).
  destruct (proj1 (Forall_forall _ _) Hpub r Hr) as (seq & e & ->).
  rewrite event_of_row_of in He. injection He as <-. simpl in *.
  apply list_elem_of_omap. exists (row_of seq e). split; [done |]. simpl.
  rewrite String.eqb_refl.
  assert (Hk : GatewayDomainEvent.from_str
            (GatewayDomainEvent.as_str (NewOutboxEvent.domain_event e)) =
          Ok (NewOutboxEvent.domain_event e)) by by destruct (NewOutboxEvent.domain_event e).
  by rewrite Hk, Hcls.
Qed.

(** Only an intraledger payment announces the completion of a transfer. *)
Lemma transfer_completed_sent n es a :
  (GatewayDomainEvent.LightningIntraledgerTransferCompleted, a)
    ∈ payment_announcements (NewPayment.initial_event n :: es) ->
  is_intraledger (NewPayment.max_fee_msat n) = true.
Proof.
  simpl. intros (k & Hk & Hin)%list_elem_of_fmap. injection Hk as <- _.
  destruct (is_intraledger (NewPayment.max_fee_msat n)); [done |]. exfalso. simpl in Hin.
  apply elem_of_cons in Hin as [? | (e & _ & He)%list_elem_of_omap]; [done |]. by destruct e.
Qed.

Lemma invoice_announcement_status k l :
  k ∈ omap invoice_announcement l ->
  exists status, status_from_event k = Some status /\ status_holds status l = true.
Proof.
  intros (e & He & Hk)%list_elem_of_omap. apply list_elem_of_In in He.
  destruct e; simplify_eq/=; eexists; (split; [reflexivity |]); simpl; unfold was_paid;
    rewrite ?orb_true_iff; first [left | idtac]; apply existsb_exists; eauto.
Qed.

(** The outbox only says of an invoice what its stored log records. *)
Lemma event_status_holds db event h status :
  db_ok db -> event ∈ events_of (outbox db) ->
  OutboxEvent.reference_id event = PaymentHash.to_hex h ->
  status_from_event (OutboxEvent.domain_event event) = Some status ->
  status_holds status (invoice_events db h) = true.
Proof.
  intros (Hp & [_ Ht] & Hi & _ & [Hpub _]) Hin Href Hstatus. unfold invoice_events.
  destruct (payment_class (OutboxEvent.domain_event event)) eqn:Hcls.
  - assert (Hk : OutboxEvent.domain_event event =
              GatewayDomainEvent.LightningIntraledgerTransferCompleted /\
              status = InvoicePaymentStatus.Paid)
      by (destruct (OutboxEvent.domain_event event); try done; by injection Hstatus).
    destruct Hk as [Hk ->].
    pose proof (event_announced _ _ payment_class Hpub Hin Hcls) as Hann.
    rewrite Href, Hk in Hann. specialize (Hp h). specialize (Ht h).
    unfold transfer_sent, transfer_received in Ht.
    destruct (payments db !! h) as [st |];
      [destruct Hp as [(p & Hp & [_ Hlog] & _) Heq] | by rewrite Hp in Hann; apply not_elem_of_nil in Hann].
    rewrite Heq in Hann.
    rewrite (PaymentTheory.try_from_events_events _ _ Hp), iter_all_load in Hlog.
    destruct (payment_log_head _ _ Hlog) as (n & es & Hn & _). rewrite Hn in *.
    apply transfer_completed_sent in Hann. simpl in Ht. rewrite Hann in Ht.
    destruct (invoices db !! h); [| done]. simpl. unfold was_paid. by rewrite <- Ht, orb_true_r.
  - pose proof (event_announced _ _ invoice_class Hpub Hin) as Hann.
    unfold invoice_class in Hann at 1. rewrite Hcls in Hann. specialize (Hann eq_refl).
    rewrite Href in Hann. specialize (Hi h).
    destruct (invoices db !! h) as [st |];
      [| by rewrite Hi in Hann; apply not_elem_of_nil in Hann].
    destruct Hi as [_ Heq].
    assert (Hk : OutboxEvent.domain_event event ∈
              map fst (announced invoice_class (PaymentHash.to_hex h) (outbox db)))
      by (apply list_elem_of_fmap; eexists; split; [| exact Hann]; done).
    rewrite Heq in Hk. apply invoice_announcement_status in Hk as (status' & Hs & Hholds).
    congruence.
Qed.

(** An invoice that is found reflects the log stored under its hash. *)
Lemma found_reflects db h :
  invoices_ok (invoices db) (outbox db) ->
  match find_by_payment_hash Invoices.desc h (invoices db) with
  | Ok i =>
      exists ph, invoice_log (invoice_events db h) ph /\
        Invoice.state i = phase_state ph /\
        Preimage.payment_hash (Invoice.payment_preimage i) = h
  | Err _ => invoices db !! h = None
  end.
Proof.
  intros Hok. rewrite find_by_payment_hash_spec. specialize (Hok h). unfold invoice_events.
  destruct (invoices db !! h) as [st |]; [| done].
  destruct Hok as ((i & Hi & [ph (_ & Hlog & Hs & _)] & _ & Hpre & _) & _). simpl. rewrite Hi. simpl.
  exists ph. rewrite (InvoiceTheory.invoice_try_from_events_events _ _ Hi), iter_all_load in Hlog.
  done.
Qed.

Lemma found_if_recorded db h :
  invoices_ok (invoices db) (outbox db) -> invoice_events db h <> [] ->
  exists i, find_by_payment_hash Invoices.desc h (invoices db) = Ok i.
Proof.
  intros Hok Hne. pose proof (found_reflects db h Hok) as Hf.
  destruct (find_by_payment_hash _ _ _) as [i |]; [by exists i |].
  unfold invoice_events in Hne. by rewrite Hf in Hne.
Qed.

(** The phase of a log, from what it records. *)
Lemma log_status l ph status :
  invoice_log l ph -> status_holds status l = true ->
  match status with
  | InvoicePaymentStatus.Paid => phase_state ph = InvoiceState.Settled
  | InvoicePaymentStatus.Expired => phase_state ph = InvoiceState.Canceled
  | InvoicePaymentStatus.Pending => phase_held ph = true
  end.
Proof.
  intros (Hh & Hs & Hi & Hc)%invoice_log_marks. destruct status; simpl; unfold was_paid.
  - rewrite Hc. apply bool_decide_eq_true_1.
  - rewrite Hs, Hi. intros [Hp | Hp]%orb_true_iff; apply bool_decide_eq_true_1 in Hp; by subst.
  - congruence.
Qed.
End Announced.
