(* ===== verification/Safety.v ===== *)
(** What the gateway does to the outside world and to its database, under every
    interleaving of its handlers.

    [allowed] is the safety specification of the external effects: what must already have
    happened, in the run of the handler and in the database, when the handler calls LND or
    Symphony.  Every handler of the application is proved against the rely/guarantee logic
    with the invariant [db_ok]; [gateway_ok] then holds in every reachable configuration
    of any number of concurrent handlers. *)
From S2P Require Import Prelude Primitives Fees EsEntity Concrete GraphqlTypes Jwks.
From S2P Require Import PaymentEntity InvoiceEntity Outbox Lnd Symphony Wallet Effects App.
From S2P Require Import AppPayment AppInvoice Jobs Ledger Evidence.

(** * The safety specification of effects *)

Section Allowed.
Context `{Hex} `{Sha256} `{UuidText} `{Bolt11} `{EventStore}.

(** The hold covers amount and fee, exceeds them by less than one satoshi, and fits the
    signed field it travels in. *)
Definition hold_covers (req : SymphonyAuthorizeRequest.t) (amount fee : MilliSatoshi.t) : Prop :=
  (MilliSatoshi.as_u64 amount + MilliSatoshi.as_u64 fee <=
     SymphonyAuthorizeRequest.sat_amount req * 1000 <
     MilliSatoshi.as_u64 amount + MilliSatoshi.as_u64 fee + 1000)%Z /\
  (0 <= SymphonyAuthorizeRequest.sat_amount req <= i64_max)%Z.

(** Who a request acts for: nobody, or the verified claims of its bearer token. *)
Definition identity_verified (tr : gw_trace) (caller : CallerAuth.t) : Prop :=
  caller = CallerAuth.new "" "" \/
  Ev (Call (DecodeJwt (CallerAuth.jwt caller))) (Ok (MkJwtClaims (CallerAuth.sub caller))) ∈ tr.

(** The stored payment of a request, and what its log holds after the first event. *)
Definition payment_for (text : string) (w : WalletId.t) (log : list PaymentEvent.t -> bool)
    (db : DbState) : Prop :=
  exists n st es,
    request_hash text (NewPayment.payment_hash n) /\
    NewPayment.bolt_invoice n = BoltInvoice.new text /\ NewPayment.wallet_id n = w /\
    payments db !! NewPayment.payment_hash n = Some st /\
    st_events st = NewPayment.initial_event n :: es /\ log es = true.

Definition paid_log (es : list InvoiceEvent.t) : bool :=
  existsb InvoiceEvent.is_Settled es || existsb InvoiceEvent.is_SettledIntraledger es.

(** A payment, or a settlement of one's own invoice, under the hash of a request. *)
Definition already_paid (text : string) (db : DbState) : Prop :=
  exists h, request_hash text h /\
    (is_Some (payments db !! h) \/
     exists st, invoices db !! h = Some st /\ paid_log (st_events st) = true).

(** What the gateway tells a client is so. *)
Definition truthful (tr : gw_trace) (db : DbState) (req : GraphqlRequest)
    (resp : GraphqlResponse) : Prop :=
  match req, resp with
  | ReqCreate input, RespCreate (LnInvoicePayload.mk _ (Some inv)) =>
      let w := GqlWalletId.wallet (LnInvoiceCreateInput.wallet_id input) in
      let amount := SatAmount.to_msat (LnInvoiceCreateInput.amount input) in
      exists n st es,
        invoices db !! NewInvoice.payment_hash n = Some st /\
        st_events st = NewInvoice.initial_event n :: es /\
        NewInvoice.wallet_id n = w /\ NewInvoice.amount_msat n = Some amount /\
        inv = LnInvoice.mk (GqlPaymentHash.mk (NewInvoice.payment_hash n))
                (LnPaymentRequest.mk (BoltInvoice.as_str (NewInvoice.bolt_invoice n)))
                (LnPaymentSecret.mk "") (SatAmount.mk (MilliSatoshi.as_u64 amount / 1000)) /\
        ownership_checked tr w /\
        Ev (Call (SpawnListener (NewInvoice.payment_hash n))) tt ∈ tr
  | ReqPay input, RespPay payload =>
      let text := LnPaymentRequest.text (LnInvoicePaymentInput.payment_request input) in
      let w := GqlWalletId.wallet (LnInvoicePaymentInput.wallet_id input) in
      match PaymentSendPayload.errors payload, PaymentSendPayload.status payload with
      | [], Some PaymentSendResult.Success =>
          payment_for text w (existsb PaymentEvent.is_Completed) db
      | [], Some PaymentSendResult.Failure =>
          payment_for text w (fun es => existsb PaymentEvent.is_Failed es ||
                                        existsb PaymentEvent.is_Reversed es) db
      | [], Some PaymentSendResult.Pending => payment_for text w (fun _ => true) db
      | [], Some PaymentSendResult.AlreadyPaid => already_paid text db
      | [], None => False
      | _, _ => True
      end
  | ReqCreate _, RespPay _ | ReqCreate _, RespProbe _ | ReqPay _, RespCreate _
  | ReqPay _, RespProbe _ | ReqProbe _, RespCreate _ | ReqProbe _, RespPay _ => False
  | _, _ => True
  end.

Definition allowed (tr : gw_trace) (db : DbState) (x : gw_eff) : Prop :=
  match x with
  | Call (LndSendPayment params) =>
      exists n req st es,
        params = SendPaymentParams.mk (NewPayment.bolt_invoice n) (NewPayment.max_fee_msat n) 60 /\
        payments db !! NewPayment.payment_hash n = Some st /\
        st_events st = NewPayment.initial_event n :: es /\
        ownership_checked tr (NewPayment.wallet_id n) /\
        spend_approved tr req /\
        spend_of (NewPayment.wallet_id n) (NewPayment.payment_hash n) req /\
        hold_covers req (NewPayment.amount_msat n) (NewPayment.max_fee_msat n)
  | Call (LndCancelInvoice h) =>
      exists st sender req,
        invoices db !! h = Some st /\
        ownership_checked tr sender /\ sender <> InvoiceRow.wallet_id (st_row st) /\
        spend_approved tr req /\ spend_of sender h req
  | Call (LndSettleInvoice pre) =>
      exists h st upd,
        Preimage.payment_hash pre = h /\ invoices db !! h = Some st /\
        existsb InvoiceEvent.is_HtlcHeld (st_events st) = true /\
        Ev (Call (LndLookupInvoice h)) (Ok upd) ∈ tr /\
        InvoiceUpdate.state upd = LndInvoiceState.Accepted
  | Call (LndAddHoldInvoice params) =>
      (exists w, ownership_checked tr w) /\
      exists random : array 32,
        Ev (Call FillBytes) random ∈ tr /\
        AddHoldInvoiceParams.payment_hash params = Preimage.payment_hash (Preimage.new random)
  | Call (AuthorizeSpend req) =>
      exists w h, ownership_checked tr w /\ spend_of w h req
  | Call (LndFeeProbe _) => exists w, ownership_checked tr w
  | Call (CheckOwnership caller _) => identity_verified tr caller
  | Call (Respond req resp) => truthful tr db req resp
  | Call (SpawnListener h) => is_Some (invoices db !! h)
  | Call (Panic _) => False
  | Call _ => True
  | Tx _ _ _ body => forall env a db', body env db = Ok (a, db') -> justified tr db db'
  end.
End Allowed.

(** * Proof rules of the application

    The rules of the logic at this invariant, with the trace known only to have grown. *)

Section Rules.
Context `{HexLaws} `{Sha256} `{UuidText} `{Bolt11} `{EventStoreLaws}.

Definition wpa {A} (p : app A) (tr : gw_trace) (db : DbState)
    (Q : A -> gw_trace -> DbState -> Prop) : Prop := wp db_ok future allowed p tr db Q.

Lemma wpa_ret {A} (a : A) tr db (Q : A -> gw_trace -> DbState -> Prop) :
  Q a tr db -> wpa (Ret a) tr db Q.
Proof. done. Qed.

Lemma wpa_bind {A B} (p : app A) (f : A -> app B) tr db Q :
  wpa p tr db (fun a tr' db' => wpa (f a) tr' db' Q) -> wpa (bind p f) tr db Q.
Proof. apply wp_bind. Qed.

Lemma wpa_mono {A} (p : app A) tr db (Q Q' : A -> gw_trace -> DbState -> Prop) :
  wpa p tr db Q -> (forall a tr' db', Q a tr' db' -> Q' a tr' db') -> wpa p tr db Q'.
Proof. intros Hp HQ. revert Hp. by apply wp_mono. Qed.

(** A program ends in a future of the moment it started in. *)
Lemma wpa_past {A} (p : app A) tr db (Q : A -> gw_trace -> DbState -> Prop) :
  wpa p tr db Q -> wpa p tr db (fun a tr' db' => future db db' /\ Q a tr' db').
Proof.
  unfold wpa. assert (Hgen : forall db0, future db0 db -> wp db_ok future allowed p tr db Q ->
    wp db_ok future allowed p tr db (fun a tr' db' => future db0 db' /\ Q a tr' db')).
  { intros db0. revert tr db. induction p as [a | x k IH]; intros tr db Hf Hwp; [by split |].
    intros db1 Hf1 Hi. destruct (Hwp db1 Hf1 Hi) as [Ha Hk]. split; [done |].
    intros r db2 Hs. destruct (Hk r db2 Hs) as (Hi2 & Hf2 & Hrest).
    split; [done |]. split; [done |]. apply IH; [| done]. etransitivity; [| exact Hf2].
    by etransitivity. }
  by apply Hgen.
Qed.

Lemma wpa_call e tr db (Q : ext_resp e -> gw_trace -> DbState -> Prop) :
  (forall db1, future db db1 -> db_ok db1 -> allowed tr db1 (Call e)) ->
  (forall db1 r tr', future db db1 -> db_ok db1 -> tr ⊆ tr' -> Ev (Call e) r ∈ tr' ->
     Q r tr' db1) ->
  wpa (call e) tr db Q.
Proof.
  intros Ha HQ. apply wp_call; [apply _ |]. intros db1 Hf Hi. split; [by apply Ha |].
  intros r. apply HQ; [done | done | set_solver | set_solver].
Qed.

Lemma wpa_tx {T E} (lost : SqlxError -> E) (body : TxEnv -> DbState -> result (T * DbState) E)
    tr db (Q : result T E -> gw_trace -> DbState -> Prop) :
  (forall db1 tr', future db db1 -> db_ok db1 -> tr ⊆ tr' ->
     (forall s, Q (Err (lost s)) tr' db1) /\
     forall env,
       match body env db1 with
       | Ok (a, db2) =>
           justified tr db1 db2 /\
           db_ok db2 /\ future db1 db2 /\ Q (Ok a) tr' db2 /\
           forall s, Q (Err (lost s)) tr' db2
       | Err e => Q (Err e) tr' db1
       end) ->
  wpa (perform_tx lost body) tr db Q.
Proof.
  intros Hk. apply wp_tx; [apply _ |]. intros db1 Hf Hi. split.
  { intros env a db2 Hr. destruct (Hk db1 tr Hf Hi ltac:(done)) as [_ Hb].
    specialize (Hb env). rewrite Hr in Hb. by destruct Hb as [Hj _]. }
  split.
  - intros s. apply (Hk db1 _ Hf Hi). set_solver.
  - intros env. set (r := body env db1).
    assert (Hr : body env db1 = r) by done. destruct r as [[a db2] | e].
    + destruct (Hk db1 (tr ++ [Ev (Tx T E lost body) (Ok a)]) Hf Hi ltac:(set_solver)) as [_ H1'].
      specialize (H1' env). rewrite Hr in H1'. destruct H1' as (_ & Hok & Hfut & HQ & _).
      split; [done |]. split; [done |]. split; [exact HQ |]. intros s.
      destruct (Hk db1 (tr ++ [Ev (Tx T E lost body) (Err (lost s))]) Hf Hi ltac:(set_solver))
        as [_ H2'].
      specialize (H2' env). rewrite Hr in H2'. destruct H2' as (_ & _ & _ & _ & HQ'). exact (HQ' s).
    + destruct (Hk db1 (tr ++ [Ev (Tx T E lost body) (Err e)]) Hf Hi ltac:(set_solver)) as [_ H1'].
      specialize (H1' env). by rewrite Hr in H1'.
Qed.

Lemma wpa_read {A E} (lost : SqlxError -> E) (q : DbState -> result A E) tr db
    (Q : result A E -> gw_trace -> DbState -> Prop) :
  (forall db1 tr', future db db1 -> db_ok db1 -> tr ⊆ tr' ->
     (forall s, Q (Err (lost s)) tr' db1) /\ Q (q db1) tr' db1) ->
  wpa (read lost q) tr db Q.
Proof.
  intros Hk. apply wpa_tx. intros db1 tr' Hf Hi Htr.
  destruct (Hk db1 tr' Hf Hi Htr) as [Hlost Hq]. split; [done |]. intros _.
  destruct (q db1) as [a | e]; simpl; [| done].
  split; [apply justified_refl |]. split; [done |]. split; [reflexivity |]. by split.
Qed.
End Rules.
#[global] Arguments wpa : simpl never.
#[global] Arguments bind : simpl never.
#[global] Arguments perform_call : simpl never.
#[global] Arguments perform_tx : simpl never.

(** * Transactions that write an aggregate with its announcement *)

Section Commits.
Context `{HexLaws} `{Sha256} `{UuidText} `{Bolt11} `{EventStoreLaws}.
Context `{PR : !EsRepo Payments.desc} `{PRL : !EsRepoLaws (d := Payments.desc)}.
Context `{IR : !EsRepo Invoices.desc} `{IRL : !EsRepoLaws (d := Invoices.desc)}.

Lemma publish_outcome e env db seq db' :
  OutboxTheory.outbox_wf (outbox db) ->
  outbox_publish_in_tx e env db = Ok (seq, db') ->
  db' = MkDb (payments db) (invoices db) (outbox db ++ [EventPublisher.row_of seq e]) /\
  OutboxTheory.outbox_wf (outbox db ++ [EventPublisher.row_of seq e]).
Proof.
  intros Hwf. unfold outbox_publish_in_tx.
  destruct (EventPublisher.publish_in_tx _ _ _) as [[seq' tbl] |] eqn:Hp; [| done].
  destruct (OutboxTheory.publish_wf _ _ _ _ _ Hwf Hp) as (Hwf' & -> & ->).
  intros [= <- <-]. done.
Qed.

Lemma stored_payment_log db h st :
  payments_ok (payments db) (outbox db) -> payments db !! h = Some st -> st_events st <> [].
Proof.
  intros Hok Hst. specialize (Hok h). rewrite Hst in Hok.
  destruct Hok as ((p & Hp & [_ Hlog] & _) & _).
  rewrite (PaymentTheory.try_from_events_events _ _ Hp), iter_all_load in Hlog.
  destruct (payment_log_head _ _ Hlog) as (n & es & -> & _). done.
Qed.

(** The state after an update of a known payment, whatever the outbox gained. *)
Lemma payment_update_db_ok p db p' tbl' ob' :
  db_ok db -> knows_payment p db -> iter_new (Payment.events p) <> [] ->
  update_in_op Payments.desc p (payments db) = Ok (p', tbl') ->
  announced_more payment_class (Payment.payment_hash p) (new_payment_announcements p)
    (outbox db) ob' ->
  announced_same invoice_class (outbox db) ob' ->
  OutboxTheory.outbox_wf ob' -> outbox db `prefix_of` ob' ->
  db_ok (MkDb tbl' (invoices db) ob') /\ future db (MkDb tbl' (invoices db) ob').
Proof.
  intros (Hp & [Hd Ht] & Hi & Hx & Ho) Hk Hnew Hup Hmore Hsame Hwf Hpre.
  destruct (payment_update_outcome _ _ _ _ Hk Hnew Hup) as (st & Hst & Hid & Hev & _ & ->).
  pose proof (stored_payment_log _ _ _ Hp Hst) as Hne.
  split; [split; [| split; [| split; [| split]]] | split; [| split]]; simpl; try done.
  - apply payments_ok_update with (ob := outbox db); try done. by destruct Hk.
  - split; [by apply (intraledger_done_update _ _ st _ (iter_new (Payment.events p))) |].
    apply transfers_match_payment_write; [done | by apply transfer_sent_update].
  - by apply invoices_ok_same with (ob := outbox db).
  - apply log_grows_insert. intros old Hold. simplify_eq. split; [done | by apply prefix_app_r].
Qed.

(** What an update returns is known in the new database, with nothing left to persist. *)
Lemma payment_update_known p db p' tbl' ob' :
  knows_payment p db -> iter_new (Payment.events p) <> [] ->
  update_in_op Payments.desc p (payments db) = Ok (p', tbl') ->
  knows_payment p' (MkDb tbl' (invoices db) ob') /\ iter_new (Payment.events p') = [] /\
  Payment.payment_hash p' = Payment.payment_hash p /\ Payment.state p' = Payment.state p.
Proof.
  intros Hk Hnew Hup. pose proof Hk as [[Hco Hlog] _].
  destruct (payment_update_outcome _ _ _ _ Hk Hnew Hup) as (st & Hst & Hid & Hev & -> & ->).
  simpl. autorewrite with events. split_and!; [| done | done | done]. split.
  - split; simpl; [| by autorewrite with events].
    apply (PaymentTheory.try_from_events_set (Payment.events p)); [| | exact Hco];
      by autorewrite with events.
  - simpl. rewrite lookup_insert_eq. eexists. split; [done |]. autorewrite with events.
    split; [done |]. simpl. by rewrite Hev.
Qed.

(** The rows an update writes are those of its new events. *)
Lemma payment_update_justified tr p db p' tbl' ob' :
  knows_payment p db -> iter_new (Payment.events p) <> [] ->
  update_in_op Payments.desc p (payments db) = Ok (p', tbl') ->
  Forall (payment_evidence tr (Payment.payment_hash p)) (iter_new (Payment.events p)) ->
  justified tr db (MkDb tbl' (invoices db) ob').
Proof.
  intros Hk Hnew Hup Hev.
  destruct (payment_update_outcome _ _ _ _ Hk Hnew Hup) as (st & Hst & _ & _ & _ & ->).
  eapply justified_payment_write; [| exact Hev]. unfold log_of. by rewrite Hst.
Qed.

Lemma invoice_update_justified tr i db i' tbl' ob' :
  knows_invoice i db -> iter_new (Invoice.events i) <> [] ->
  update_in_op Invoices.desc i (invoices db) = Ok (i', tbl') ->
  Forall (invoice_evidence tr (Invoice.payment_hash i)) (iter_new (Invoice.events i)) ->
  justified tr db (MkDb (payments db) tbl' ob').
Proof.
  intros Hk Hnew Hup Hev.
  destruct (invoice_update_outcome _ _ _ _ Hk Hnew Hup) as (st & Hst & _ & _ & _ & ->).
  eapply justified_invoice_write; [| exact Hev]. unfold log_of. by rewrite Hst.
Qed.

Lemma payment_commit_tx_ok {A} p (mk : Timestamp.t -> NewOutboxEvent.t)
    (ret : Payment.t -> A) env db a db' :
  db_ok db -> knows_payment p db -> iter_new (Payment.events p) <> [] ->
  (forall t,
     NewOutboxEvent.reference_id (mk t) = PaymentHash.to_hex (Payment.payment_hash p) /\
     payment_class (NewOutboxEvent.domain_event (mk t)) = true /\
     new_payment_announcements p =
       [(NewOutboxEvent.domain_event (mk t), NewOutboxEvent.amount_sat (mk t))]) ->
  (let# p' := payments_update_in_op p in
   let# t := tx_utc_now in
   let# _ := outbox_publish_in_tx (mk t) in
   tx_ret (ret p')) env db = Ok (a, db') ->
  (forall tr, Forall (payment_evidence tr (Payment.payment_hash p))
                (iter_new (Payment.events p)) -> justified tr db db') /\
  db_ok db' /\ future db db' /\
  exists p', a = ret p' /\ knows_payment p' db' /\ iter_new (Payment.events p') = [] /\
    Payment.payment_hash p' = Payment.payment_hash p.
Proof.
  intros Hok Hk Hnew Hmk. unfold tx_bind, payments_update_in_op.
  destruct (update_in_op Payments.desc p (payments db)) as [[p' tbl'] |] eqn:Hup; [| done].
  simpl. destruct (outbox_publish_in_tx _ _ _) as [[seq db2] |] eqn:Hpub; [| done].
  intros [= <- <-]. destruct (Hmk (utc_now env)) as (Hr & Hc & Hann).
  assert (Hob : OutboxTheory.outbox_wf (outbox db)) by apply Hok.
  apply publish_outcome in Hpub as [-> Hwf]; [| done]. simpl in *.
  split; [intros tr; by eapply payment_update_justified |]. apply and_assoc. split.
  - apply payment_update_db_ok with (p := p) (p' := p'); try done.
    + rewrite Hann. by apply announced_more_publish.
    + apply announced_same_publish. unfold invoice_class. by rewrite Hc.
    + by apply prefix_app_r.
  - exists p'. split; [done |].
    by destruct (payment_update_known p db p' tbl'
      (outbox db ++ [EventPublisher.row_of seq (mk (utc_now env))]) Hk Hnew Hup) as (? & ? & ? & _).
Qed.

Lemma invoice_update_db_ok i db i' tbl' ob' news :
  db_ok db -> knows_invoice i db -> iter_new (Invoice.events i) <> [] ->
  update_in_op Invoices.desc i (invoices db) = Ok (i', tbl') ->
  announced_more invoice_class (Invoice.payment_hash i) news (outbox db) ob' ->
  map fst news = new_invoice_announcements i ->
  existsb InvoiceEvent.is_SettledIntraledger (iter_new (Invoice.events i)) = false ->
  announced_same payment_class (outbox db) ob' ->
  OutboxTheory.outbox_wf ob' -> outbox db `prefix_of` ob' ->
  db_ok (MkDb (payments db) tbl' ob') /\ future db (MkDb (payments db) tbl' ob').
Proof.
  intros (Hp & [Hd Ht] & Hi & Hx & Ho) Hk Hnew Hup Hmore Hnews Hnil Hsame Hwf Hpre.
  destruct (invoice_update_outcome _ _ _ _ Hk Hnew Hup) as (st & Hst & Hid & Hev & _ & ->).
  split; [split; [| split; [| split; [| split]]] | split; [| split]]; simpl; try done.
  - by apply payments_ok_same with (ob := outbox db).
  - split; [done |]. apply transfers_match_invoice_write; [done | by apply transfer_received_update].
  - apply invoices_ok_update with (ob := outbox db) (news := news); try done. by destruct Hk.
  - by apply external_ids_unique_update with (st := st).
  - apply log_grows_insert. intros old Hold. simplify_eq. split; [done | by apply prefix_app_r].
Qed.

Lemma invoice_commit_tx_ok {A} i (mk : Timestamp.t -> NewOutboxEvent.t) (x : A) env db a db' :
  db_ok db -> knows_invoice i db -> iter_new (Invoice.events i) <> [] ->
  (forall t,
     NewOutboxEvent.reference_id (mk t) = PaymentHash.to_hex (Invoice.payment_hash i) /\
     payment_class (NewOutboxEvent.domain_event (mk t)) = false /\
     new_invoice_announcements i = [NewOutboxEvent.domain_event (mk t)]) ->
  existsb InvoiceEvent.is_SettledIntraledger (iter_new (Invoice.events i)) = false ->
  (let# _ := invoices_update_in_op i in
   let# t := tx_utc_now in
   let# _ := outbox_publish_in_tx (mk t) in
   tx_ret x) env db = Ok (a, db') ->
  (forall tr, Forall (invoice_evidence tr (Invoice.payment_hash i))
                (iter_new (Invoice.events i)) -> justified tr db db') /\
  db_ok db' /\ future db db'.
Proof.
  intros Hok Hk Hnew Hmk Hnil. unfold tx_bind, invoices_update_in_op.
  destruct (update_in_op Invoices.desc i (invoices db)) as [[i' tbl'] |] eqn:Hup; [| done].
  simpl. destruct (outbox_publish_in_tx _ _ _) as [[seq db2] |] eqn:Hpub; [| done].
  intros [= <- <-]. destruct (Hmk (utc_now env)) as (Hr & Hc & Hann).
  assert (Hob : OutboxTheory.outbox_wf (outbox db)) by apply Hok.
  apply publish_outcome in Hpub as [-> Hwf]; [| done]. simpl in *.
  split; [intros tr; by eapply invoice_update_justified |].
  eapply invoice_update_db_ok with (i := i) (i' := i'); try done.
  - apply announced_more_publish; [| done]. unfold invoice_class. by rewrite Hc.
  - by rewrite Hann.
  - by apply announced_same_publish.
  - by apply prefix_app_r.
Qed.
End Commits.

(** * The writers of outcomes *)

Section Outcomes.
Context `{HexLaws} `{Sha256} `{UuidText} `{Bolt11} `{EventStoreLaws}.
Context `{PR : !EsRepo Payments.desc} `{PRL : !EsRepoLaws (d := Payments.desc)}.
Context `{IR : !EsRepo Invoices.desc} `{IRL : !EsRepoLaws (d := Invoices.desc)}.

(** A continuation that any later moment satisfies. *)
Definition anytime {A} (tr : gw_trace) (db : DbState)
    (Q : A -> gw_trace -> DbState -> Prop) : Prop :=
  forall a tr' db', tr ⊆ tr' -> future db db' -> Q a tr' db'.

(** A payment a use case hands back: known, with nothing unannounced. *)
Definition reported (h : PaymentHash.t) (p : Payment.t) (db : DbState) : Prop :=
  Payment.payment_hash p = h /\ knows_payment p db /\ new_payment_announcements p = [].

(** A continuation that takes any error, and a payment that is reported. *)
Definition answers (h : PaymentHash.t) (tr : gw_trace) (db : DbState)
    (Q : result Payment.t AppError.t -> gw_trace -> DbState -> Prop) : Prop :=
  forall r tr' db', tr ⊆ tr' -> future db db' ->
    (forall p, r = Ok p -> reported h p db') -> Q r tr' db'.

Lemma anytime_answers h tr db Q : anytime tr db Q -> answers h tr db Q.
Proof. intros HQ r tr' db' Htr Hf _. by apply HQ. Qed.

Lemma nothing_new_unannounced p :
  iter_new (Payment.events p) = [] -> new_payment_announcements p = [].
Proof. unfold new_payment_announcements. by intros ->. Qed.

(** What the state of a reported payment says of the stored log. *)
Lemma reported_log h p db :
  reported h p db ->
  exists st, payments db !! h = Some st /\
    (Payment.state p = PaymentState.Completed ->
       existsb PaymentEvent.is_Completed (st_events st) = true) /\
    (Payment.state p = PaymentState.Failed \/ Payment.state p = PaymentState.Reversed ->
       existsb PaymentEvent.is_Failed (st_events st) ||
       existsb PaymentEvent.is_Reversed (st_events st) = true).
Proof.
  intros (<- & ([_ Hlog] & st & Hst & _ & es & Hpre) & Hnone). exists st. split; [done |].
  apply payment_log_marks in Hlog as (Hc & Hf & Hr & _).
  rewrite iter_all_split, existsb_app in Hc, Hf, Hr. rewrite Hpre, !existsb_app.
  assert (Hsilent : existsb PaymentEvent.is_Completed (iter_new (Payment.events p)) = false /\
    existsb PaymentEvent.is_Failed (iter_new (Payment.events p)) = false /\
    existsb PaymentEvent.is_Reversed (iter_new (Payment.events p)) = false).
  { unfold new_payment_announcements in Hnone. apply map_eq_nil in Hnone. revert Hnone.
    generalize (is_intraledger (Payment.max_fee_msat p)). intros il.
    induction (iter_new (Payment.events p)) as [| e l IH]; [done |]. csimpl.
    by destruct e; simpl; intros Hn; apply IH || done. }
  destruct Hsilent as (E1 & E2 & E3). rewrite E1, orb_false_r in Hc. rewrite E2, orb_false_r in Hf.
  rewrite E3, orb_false_r in Hr. rewrite Hc, Hf, Hr. split.
  - by intros ->.
  - by intros [-> | ->]; rewrite ?orb_true_r.
Qed.

(** A payment held in memory: known, with nothing unannounced, and intraledger only if
    it has completed. *)
Definition payment_in_hand (p : Payment.t) (db : DbState) : Prop :=
  knows_payment p db /\ new_payment_announcements p = [] /\
  (is_intraledger (Payment.max_fee_msat p) = true ->
   Payment.state p = PaymentState.Completed \/ Payment.state p = PaymentState.Reversed).

Lemma payment_in_hand_future p db1 db2 :
  future db1 db2 -> payment_in_hand p db1 -> payment_in_hand p db2.
Proof. intros Hf (Hk & Hrest). split; [by apply (knows_payment_future _ db1) | done]. Qed.

Lemma find_payment_in_hand db h p :
  db_ok db -> find_by_payment_hash Payments.desc h (payments db) = Ok p ->
  payment_in_hand p db /\ Payment.payment_hash p = h.
Proof.
  intros (Hp & [Hd _] & _) Hfind.
  destruct (find_payment_knows _ _ _ Hp Hd Hfind) as (Hk & Hh & Hnew & Hil).
  split; [| done]. split; [done |]. split; [| done].
  unfold new_payment_announcements. by rewrite Hnew.
Qed.

(** A loaded payment has nothing to persist. *)
Lemma found_clean tbl h p :
  find_by_payment_hash Payments.desc h tbl = Ok p -> iter_new (Payment.events p) = [].
Proof.
  rewrite find_by_payment_hash_spec. destruct (tbl !! h) as [st |]; [| done]. simpl.
  destruct (Payment.try_from_events _) as [p' |] eqn:Hp; intros [= <-].
  by rewrite (PaymentTheory.try_from_events_events _ _ Hp), iter_new_load.
Qed.

(** The evidence a handler holds for what it is about to write of a payment: for the
    events pushed so far and for the next one. *)
Definition payment_grounds (tr : gw_trace) (p : Payment.t) (e : PaymentEvent.t) : Prop :=
  Forall (payment_evidence tr (Payment.payment_hash p)) (iter_new (Payment.events p)) /\
  payment_evidence tr (Payment.payment_hash p) e.

Lemma clean_grounds tr p e :
  iter_new (Payment.events p) = [] -> payment_evidence tr (Payment.payment_hash p) e ->
  payment_grounds tr p e.
Proof. intros Hnew He. split; [rewrite Hnew; constructor | done]. Qed.

Lemma in_hand_reported p db : payment_in_hand p db -> reported (Payment.payment_hash p) p db.
Proof. by intros (Hk & Hn & _). Qed.

Lemma run_command_executed c p :
  PaymentTheory.wf p -> lifecycle c (Payment.state p) = Ok Executed ->
  iter_new (Payment.events (run_command c p).1) =
    iter_new (Payment.events p) ++ [command_event c] /\
  Payment.payment_hash (run_command c p).1 = Payment.payment_hash p.
Proof.
  intros Hwf Hl. rewrite run_command_answer by done. simpl. rewrite Hl.
  destruct c; simpl; by autorewrite with events.
Qed.

(** An executed command on a payment in hand leaves exactly its announcement to make. *)
Lemma command_announces c p db k :
  payment_in_hand p db -> lifecycle c (Payment.state p) = Ok Executed ->
  (is_intraledger (Payment.max_fee_msat p) = false ->
   payment_announcement false (command_event c) = k) ->
  Payment.state p = PaymentState.Initiated \/ Payment.state p = PaymentState.Pending ->
  let p' := (run_command c p).1 in
  iter_new (Payment.events p') <> [] /\
  Payment.payment_hash p' = Payment.payment_hash p /\
  Payment.amount_msat p' = Payment.amount_msat p /\
  Payment.max_fee_msat p' = Payment.max_fee_msat p /\
  new_payment_announcements p' =
    match k with Some k => [(k, sat_i64 (Payment.amount_msat p))] | None => [] end.
Proof.
  intros ([Hwf Hk] & Hnone & Hil) Hl Hkind Hopen p'.
  assert (Hf : is_intraledger (Payment.max_fee_msat p) = false).
  { destruct (is_intraledger _) eqn:E; [| done].
    destruct (Hil eq_refl) as [Hs | Hs], Hopen; congruence. }
  pose proof (run_command_identity c p Hwf) as (_ & Hh & _ & Ha & Hm & _).
  unfold p'. rewrite run_command_answer in * by done. rewrite Hl in *. simpl in *.
  assert (Hev : iter_new (Payment.events
      (PaymentTheory.project (command_event c) (Payment.push (command_event c) p))) =
      iter_new (Payment.events p) ++ [command_event c]).
  { destruct c; simpl; by autorewrite with events. }
  split_and!; [| done | done | done |].
  - rewrite Hev. by destruct (iter_new (Payment.events p)).
  - unfold new_payment_announcements in *. rewrite <- Hm, <- Ha, Hf in *.
    rewrite Hev, omap_app, map_app, Hnone. simpl. csimpl. rewrite (Hkind eq_refl).
    by destruct k.
Qed.

(** The transaction of an executed command with its announcement. *)
Lemma wpa_commit_command c p mk k tr db Q :
  payment_in_hand p db -> lifecycle c (Payment.state p) = Ok Executed ->
  Payment.state p = PaymentState.Initiated \/ Payment.state p = PaymentState.Pending ->
  payment_announcement false (command_event c) = Some k -> payment_class k = true ->
  (forall t,
     NewOutboxEvent.domain_event (mk t) = k /\
     NewOutboxEvent.reference_id (mk t) = PaymentHash.to_hex (Payment.payment_hash p) /\
     NewOutboxEvent.amount_sat (mk t) = sat_i64 (Payment.amount_msat p)) ->
  payment_grounds tr p (command_event c) ->
  answers (Payment.payment_hash p) tr db Q ->
  wpa (in_tx (let# p' := payments_update_in_op (run_command c p).1 in
              let# t := tx_utc_now in
              let# _ := outbox_publish_in_tx (mk t) in
              tx_ret p')) tr db Q.
Proof.
  intros Hp Hl Hopen Hk Hclass Hmk [Hold He] HQ. apply wpa_tx. intros db1 tr' Hf Hok Htr.
  split; [intros s; by apply HQ |]. intros env.
  destruct ((tx_bind _ _) env db1) as [[a db2] | e] eqn:Htx; [| by apply HQ].
  assert (Hp1 : payment_in_hand p db1) by by apply (payment_in_hand_future _ db).
  destruct (command_announces c p db1 (Some k) Hp1 Hl ltac:(done) Hopen)
    as (Hnew & Hhash & _ & _ & Hnews).
  apply payment_commit_tx_ok with (ret := fun p => p) in Htx
    as (Hj & Hok2 & Hf2 & p2 & -> & Hk2 & Hnew2 & Hh2); try done.
  - split.
    { apply Hj. destruct (run_command_executed c p (proj1 (proj1 Hp)) Hl) as [-> ->].
      apply Forall_app_2; [done | by apply Forall_singleton]. }
    split; [done |]. split; [done |].
    split; [| intros s]; (apply HQ; [done | by etransitivity |]); [| done].
    intros p3 [= <-]. split; [by rewrite Hh2, Hhash |].
    split; [done | by apply nothing_new_unannounced].
  - apply knows_payment_command. apply Hp1.
  - intros t. destruct (Hmk t) as (Hd & Hr & Ha). rewrite Hhash, Hnews, Hd, Hr, Ha. done.
Qed.

Lemma wpa_commit_completed p h sat pre fees hops now tr db Q :
  payment_in_hand p db -> Payment.payment_hash p = h ->
  sat = sat_i64 (Payment.amount_msat p) ->
  payment_grounds tr p (PaymentEvent.Completed now pre fees hops) -> answers h tr db Q ->
  wpa (commit_completed p h sat pre fees hops now) tr db Q.
Proof.
  intros Hp <- -> Hg HQ. unfold commit_completed.
  pose proof (wpa_commit_command (Settle pre fees hops now) p) as Hcommit. simpl in Hcommit.
  pose proof Hp as [[Hwf _] _].
  pose proof (run_command_answer (Settle pre fees hops now) p Hwf) as Hrun. simpl in Hrun.
  destruct (Payment.settle pre fees hops now p) as [p' r]. simpl in *.
  injection Hrun as -> ->.
  destruct (Payment.state p) eqn:Hs; simpl in *;
    try (apply wpa_ret, HQ; [set_solver | reflexivity | by intros ? [= <-]; apply in_hand_reported]).
  all: apply (Hcommit _ GatewayDomainEvent.LightningPaymentCompleted); auto.
Qed.

Lemma wpa_commit_failed p h sat reason now tr db Q :
  payment_in_hand p db -> Payment.payment_hash p = h ->
  sat = sat_i64 (Payment.amount_msat p) ->
  payment_grounds tr p (PaymentEvent.Failed now reason) -> answers h tr db Q ->
  wpa (commit_failed p h sat reason now) tr db Q.
Proof.
  intros Hp <- -> Hg HQ. unfold commit_failed.
  pose proof (wpa_commit_command (Fail_ reason now) p) as Hcommit. simpl in Hcommit.
  pose proof Hp as [[Hwf _] _].
  pose proof (run_command_answer (Fail_ reason now) p Hwf) as Hrun. simpl in Hrun.
  destruct (Payment.fail reason now p) as [p' r]. simpl in *.
  injection Hrun as -> ->.
  destruct (Payment.state p) eqn:Hs; simpl in *;
    try (apply wpa_ret, HQ; [set_solver | reflexivity | by intros ? [= <-]; apply in_hand_reported]).
  all: apply (Hcommit _ GatewayDomainEvent.LightningPaymentFailed); auto.
Qed.

(** *** Invoices *)

Definition invoice_in_hand (i : Invoice.t) (db : DbState) : Prop :=
  knows_invoice i db /\ iter_new (Invoice.events i) = [].

Lemma invoice_in_hand_future i db1 db2 :
  future db1 db2 -> invoice_in_hand i db1 -> invoice_in_hand i db2.
Proof. intros Hf (Hk & Hrest). split; [by apply (knows_invoice_future _ db1) | done]. Qed.

Lemma find_invoice_in_hand db h i :
  db_ok db -> find_by_payment_hash Invoices.desc h (invoices db) = Ok i ->
  invoice_in_hand i db /\ Invoice.payment_hash i = h /\
  Preimage.payment_hash (Invoice.payment_preimage i) = h.
Proof.
  intros (_ & _ & Hi & _) Hfind.
  destruct (find_invoice_knows _ _ _ Hi Hfind) as (Hk & Hh & Hnew & Hpre).
  by split_and!; [split | |].
Qed.

Lemma run_invoice_command_executed c ph i :
  InvoiceTheory.wf_in ph i -> invoice_lifecycle c ph = Ok Executed ->
  iter_new (Invoice.events (run_invoice_command c i).1) =
    iter_new (Invoice.events i) ++ [invoice_command_event c] /\
  Invoice.payment_hash (run_invoice_command c i).1 = Invoice.payment_hash i.
Proof.
  intros Hwf Hl. rewrite (run_invoice_command_answer c ph) by done. simpl. rewrite Hl.
  destruct c; simpl; by autorewrite with events.
Qed.

Lemma wpa_commit_invoice {A} c ph i mk (x : A) tr db Q :
  invoice_in_hand i db -> InvoiceTheory.wf_in ph i -> invoice_lifecycle c ph = Ok Executed ->
  (forall t,
     invoice_announcement (invoice_command_event c) =
       Some (NewOutboxEvent.domain_event (mk t)) /\
     payment_class (NewOutboxEvent.domain_event (mk t)) = false /\
     NewOutboxEvent.reference_id (mk t) = PaymentHash.to_hex (Invoice.payment_hash i)) ->
  invoice_evidence tr (Invoice.payment_hash i) (invoice_command_event c) ->
  anytime tr db Q ->
  wpa (in_tx (let# _ := invoices_update_in_op (run_invoice_command c i).1 in
              let# t := tx_utc_now in
              let# _ := outbox_publish_in_tx (mk t) in
              tx_ret x)) tr db Q.
Proof.
  intros [Hk Hnone] Hwf Hl Hmk Hev HQ. apply wpa_tx. intros db1 tr' Hf Hok Htr.
  split; [intros s; by apply HQ |]. intros env.
  destruct ((tx_bind _ _) env db1) as [[a db2] | e] eqn:Htx; [| by apply HQ].
  destruct (run_invoice_command_executed c ph i Hwf Hl) as (Hnew & Hhash).
  apply invoice_commit_tx_ok in Htx as (Hj & Hok2 & Hf2); try done.
  - split.
    { apply Hj. rewrite Hnew, Hnone, Hhash. by apply Forall_singleton. }
    split; [done |]. split; [done |].
    split; [| intros s]; (apply HQ; [done | by etransitivity]).
  - apply knows_invoice_command. by apply (knows_invoice_future _ db).
  - by rewrite Hnew, Hnone.
  - intros t. destruct (Hmk t) as (Ha & Hc & Hr). rewrite Hhash, Hr, Hc.
    unfold new_invoice_announcements in *. rewrite Hnew, Hnone. csimpl. by rewrite Ha.
  - rewrite Hnew, Hnone. destruct (Hmk (Timestamp.new 0)) as (Ha & _).
    by destruct c.
Qed.

Lemma wpa_now {B} (f : Timestamp.t -> app B) tr db Q :
  (forall now db1 tr', future db db1 -> tr ⊆ tr' -> wpa (f now) tr' db1 Q) ->
  wpa (bind (call Now) f) tr db Q.
Proof.
  intros Hf. apply wpa_bind, wpa_call; [done |]. intros db1 r tr' Hfut _ Htr _. by apply Hf.
Qed.

Lemma wpa_commit_settle i h amt tr db Q :
  invoice_in_hand i db -> Invoice.payment_hash i = h ->
  (forall t, invoice_evidence tr h (InvoiceEvent.Settled t)) -> anytime tr db Q ->
  wpa (commit_settle i h amt) tr db Q.
Proof.
  intros Hi <- Hev HQ. unfold commit_settle. apply wpa_now. intros now db1 tr1 Hf1 Htr1.
  assert (HQ1 : anytime tr1 db1 Q).
  { intros a tr' db' Htr Hf. apply HQ; [set_solver | by etransitivity]. }
  apply (invoice_in_hand_future _ _ _ Hf1) in Hi. pose proof Hi as [[[ph Hwf] _] _].
  pose proof (wpa_commit_invoice (A := unit) (SettleHold now) ph i) as Hcommit.
  simpl in Hcommit.
  pose proof (run_invoice_command_wf (SettleHold now) ph i Hwf) as Hwf'.
  pose proof (run_invoice_command_answer (SettleHold now) ph i Hwf) as Hrun.
  simpl in Hrun, Hwf'. destruct (Invoice.settle now i) as [i' r]. simpl in Hcommit, Hwf'.
  injection Hrun as Hi' ->.
  destruct ph as [| | | | b]; simpl in *; try (apply wpa_ret, HQ1; [set_solver | reflexivity]).
  pose proof (invoice_evidence_mono tr tr1 _ (InvoiceEvent.Settled now) Htr1 (Hev now)) as Hev1.
  destruct Hwf' as (_ & _ & _ & [_ Hheld] & _). destruct (Hheld eq_refl) as [m Hm].
  unfold expect. rewrite Hm. apply Hcommit; try done.
Qed.

Lemma wpa_commit_cancel i h reason amt tr db Q :
  invoice_in_hand i db -> Invoice.payment_hash i = h ->
  (forall t, invoice_evidence tr h (InvoiceEvent.Canceled t reason)) -> anytime tr db Q ->
  wpa (commit_cancel i h reason amt) tr db Q.
Proof.
  intros Hi <- Hev HQ. unfold commit_cancel. apply wpa_now. intros now db1 tr1 Hf1 Htr1.
  assert (HQ1 : anytime tr1 db1 Q).
  { intros a tr' db' Htr Hf. apply HQ; [set_solver | by etransitivity]. }
  apply (invoice_in_hand_future _ _ _ Hf1) in Hi. pose proof Hi as [[[ph Hwf] _] _].
  pose proof (wpa_commit_invoice (A := unit) (Cancel reason now) ph i) as Hcommit.
  simpl in Hcommit.
  pose proof (run_invoice_command_answer (Cancel reason now) ph i Hwf) as Hrun.
  simpl in Hrun. destruct (Invoice.cancel reason now i) as [i' r]. simpl in Hcommit.
  injection Hrun as Hi' ->.
  pose proof (invoice_evidence_mono tr tr1 _ (InvoiceEvent.Canceled now reason) Htr1 (Hev now))
    as Hev1.
  destruct ph as [| | | | b]; simpl in *; try (apply wpa_ret, HQ1; [set_solver | reflexivity]).
  all: by apply Hcommit.
Qed.

Lemma wpa_transition_to_held i h amt now tr db Q :
  invoice_in_hand i db -> Invoice.payment_hash i = h ->
  invoice_evidence tr h (InvoiceEvent.HtlcHeld now amt) -> anytime tr db Q ->
  wpa (transition_to_held i h amt now) tr db Q.
Proof.
  intros Hi <- Hev HQ. unfold transition_to_held. pose proof Hi as [[[ph Hwf] _] _].
  pose proof (wpa_commit_invoice (A := unit) (MarkHeld amt now) ph i) as Hcommit.
  simpl in Hcommit.
  pose proof (run_invoice_command_answer (MarkHeld amt now) ph i Hwf) as Hrun.
  simpl in Hrun. destruct (Invoice.mark_held amt now i) as [i' r]. simpl in Hcommit.
  injection Hrun as Hi' ->.
  destruct ph as [| | | | []]; simpl in *; try (apply wpa_ret, HQ; [set_solver | reflexivity]).
  all: by apply Hcommit.
Qed.
End Outcomes.

(** * Every handler is safe *)

(** Safe to run from any moment of any run. *)
Definition safe `{Hex} `{Sha256} `{UuidText} `{Bolt11} `{EventStore} {A} (p : app A) : Prop :=
  forall tr db, wpa p tr db (fun _ _ _ => True).

(** Closes the paths on which a handler performs no further effect. *)
Ltac finish_safe :=
  repeat (cbn [map_err ok_or]; match goal with
  | |- wpa (Ret _) _ _ _ => apply wpa_ret
  | |- wpa (match ?x with _ => _ end) _ _ _ => destruct x
  | |- safe (match ?x with _ => _ end) => destruct x
  | |- safe (Ret _) => intros ? ?; apply wpa_ret
  end); try exact I.

Section Handlers.
Context `{HexLaws} `{Sha256} `{UuidText} `{TonicText} `{Bolt11} `{EventStoreLaws}.
Context `{PR : !EsRepo Payments.desc} `{PRL : !EsRepoLaws (d := Payments.desc)}.
Context `{IR : !EsRepo Invoices.desc} `{IRL : !EsRepoLaws (d := Invoices.desc)}.
Context `{RowOrder} (str_debug : string -> string).

Lemma safe_ret {A} (a : A) : safe (Ret a).
Proof. by intros tr db. Qed.

Lemma safe_bind {A B} (p : app A) (f : A -> app B) :
  safe p -> (forall a, safe (f a)) -> safe (bind p f).
Proof.
  intros Hp Hf tr db. apply wpa_bind. eapply wpa_mono; [apply Hp |].
  intros a tr' db' _. apply Hf.
Qed.

Lemma anytime_safe {A B} (f : A -> app B) tr db :
  (forall a, safe (f a)) -> anytime tr db (fun a tr' db' => wpa (f a) tr' db' (fun _ _ _ => True)).
Proof. intros Hf a tr' db' _ _. apply Hf. Qed.

Lemma anytime_true {A} tr db : anytime (A := A) tr db (fun _ _ _ => True).
Proof. by intros a tr' db' _ _. Qed.

Lemma safe_now {B} (f : Timestamp.t -> app B) :
  (forall now, safe (f now)) -> safe (bind (call Now) f).
Proof. intros Hf tr db. apply wpa_now. intros now db1 tr' _ _. apply Hf. Qed.

(** Loading a payment: the continuation on it, on an error, on a missing row. *)
Lemma wpa_find_payment h tr db Q :
  (forall e tr' db', tr ⊆ tr' -> future db db' -> Q (Err e) tr' db') ->
  (forall p tr' db', tr ⊆ tr' -> future db db' -> payment_in_hand p db' ->
     Payment.payment_hash p = h -> iter_new (Payment.events p) = [] -> Q (Ok p) tr' db') ->
  wpa (find_payment h) tr db Q.
Proof.
  intros Herr Hok. apply wpa_read. intros db1 tr' Hf Hdb Htr. split; [intros s; by apply Herr |].
  destruct (find_by_payment_hash _ _ _) as [p | e] eqn:Hfind; [| by apply Herr].
  destruct (find_payment_in_hand _ _ _ Hdb Hfind) as [Hp Hh]. apply found_clean in Hfind.
  by apply Hok.
Qed.

Lemma wpa_find_invoice h tr db Q :
  (forall e tr' db', tr ⊆ tr' -> future db db' -> Q (Err e) tr' db') ->
  (forall i tr' db', tr ⊆ tr' -> future db db' -> invoice_in_hand i db' ->
     Invoice.payment_hash i = h ->
     Preimage.payment_hash (Invoice.payment_preimage i) = h -> Q (Ok i) tr' db') ->
  wpa (find_invoice h) tr db Q.
Proof.
  intros Herr Hok. apply wpa_read. intros db1 tr' Hf Hdb Htr. split; [intros s; by apply Herr |].
  destruct (find_by_payment_hash _ _ _) as [i | e] eqn:Hfind; [| by apply Herr].
  destruct (find_invoice_in_hand _ _ _ Hdb Hfind) as (Hi & Hh & Hpre). by apply Hok.
Qed.

Lemma wpa_handle_payment_update u tr db :
  Ev (Call RecvPaymentUpdate) u ∈ tr ->
  wpa (handle_payment_update u) tr db (fun _ _ _ => True).
Proof.
  intros Hu. unfold handle_payment_update. apply wpa_bind, wpa_find_payment.
  { intros e tr' db' _ _. finish_safe. }
  intros p tr' db' Htr' _ Hp Hh Hnew. apply wpa_now. intros now db1 tr1 Hf1 Htr1.
  apply (payment_in_hand_future _ _ _ Hf1) in Hp.
  assert (Hsaid : lnd_reported tr1 (Payment.payment_hash p) (update_response u))
    by (apply said_on_update; [set_solver | done]).
  destruct (PaymentUpdate.status u) eqn:Hs; [finish_safe | |].
  - destruct (PaymentUpdate.payment_preimage u) eqn:Hpre; [| finish_safe].
    apply wpa_bind, wpa_commit_completed; try done.
    + apply clean_grounds; [done |]. left. by exists (update_response u).
    + apply anytime_answers, anytime_safe. intros [] ; finish_safe.
  - apply wpa_bind, wpa_commit_failed; try done.
    + apply clean_grounds; [done |]. left. exists (update_response u). split; [done |].
      split; [done |]. by intros r [= ->].
    + apply anytime_answers, anytime_safe. intros []; finish_safe.
Qed.

Lemma payment_update_turn_safe : safe payment_update_turn.
Proof.
  intros tr db. apply wpa_bind, wpa_call; [done |]. intros db1 u tr1 _ _ _ Hu.
  by apply wpa_handle_payment_update.
Qed.

Lemma reconcile_orphan_hold_safe h : safe (reconcile_orphan_hold h).
Proof.
  intros tr db. unfold reconcile_orphan_hold, try_bind, map_err_.
  apply wpa_bind, wpa_bind, wpa_find_payment; [intros; finish_safe |].
  intros p tr' db' _ _ Hp Hh Hnew. apply wpa_ret. cbn [map_err].
  case_decide; [finish_safe |]. apply wpa_now. intros now db1 tr1 Hf1 _.
  apply (payment_in_hand_future _ _ _ Hf1) in Hp.
  apply wpa_bind, wpa_call; [done |]. intros db2 r tr2 Hf2 _ _ Hr.
  apply (payment_in_hand_future _ _ _ Hf2) in Hp.
  destruct r as [[resp | []] |]; try by finish_safe.
  assert (Hsaid : lnd_reported tr2 (Payment.payment_hash p) resp)
    by (rewrite Hh; by apply said_on_lookup).
  destruct (SendPaymentResponse.status resp) eqn:Hs; [finish_safe | |].
  - destruct (SendPaymentResponse.payment_preimage resp) eqn:Hpre; [| finish_safe].
    apply wpa_bind, wpa_commit_completed; try done.
    + apply clean_grounds; [done |]. left. by exists resp.
    + apply anytime_answers, anytime_safe. intros []; finish_safe.
  - apply wpa_bind, wpa_commit_failed; try done.
    + apply clean_grounds; [done |]. left. exists resp. split; [done |]. split; [done |].
      by intros r ->.
    + apply anytime_answers, anytime_safe. intros []; finish_safe.
Qed.

Lemma sweep_orphan_holds_safe idle limit : safe (sweep_orphan_holds idle limit).
Proof.
  unfold sweep_orphan_holds, try_bind, map_err_. apply safe_now. intros now.
  apply safe_bind.
  - apply safe_bind; [| intros; apply safe_ret].
    intros tr db. apply wpa_read. by intros.
  - intros [hs | e]; [| apply safe_ret]. apply safe_bind; [| intros; apply safe_ret].
    generalize 0. induction hs as [| h hs IH]; intros k; cbn [reconcile_all]; [apply safe_ret |].
    apply safe_bind; [apply reconcile_orphan_hold_safe |].
    intros [[] |]; apply IH.
Qed.

Lemma wpa_transition_to_pending p h now tr db Q :
  payment_in_hand p db -> Payment.payment_hash p = h ->
  payment_grounds tr p (PaymentEvent.Pending now) -> answers h tr db Q ->
  wpa (transition_to_pending p h now) tr db Q.
Proof.
  intros Hp <- [Hold He] HQ. unfold transition_to_pending. pose proof Hp as [[Hwf _] _].
  pose proof (run_command_answer (MarkPending now) p Hwf) as Hrun. simpl in Hrun.
  pose proof (command_announces (MarkPending now) p) as Hann. simpl in Hann.
  pose proof (fun db => knows_payment_command (MarkPending now) p db) as Hknow.
  pose proof (run_command_executed (MarkPending now) p Hwf) as Hexec.
  simpl in Hknow, Hexec.
  destruct (Payment.mark_pending now p) as [p' r]. simpl in *. injection Hrun as Hp' ->.
  destruct (Payment.state p) eqn:Hs; simpl in *;
    try (apply wpa_ret, HQ; [set_solver | reflexivity |
           intros ? [= <-]; rewrite Hp'; by apply in_hand_reported]).
  apply wpa_bind, wpa_tx. intros db1 tr' Hf1 Hok1 Htr1.
  apply (payment_in_hand_future _ _ _ Hf1) in Hp. split.
  - intros s. simpl. by apply wpa_ret, HQ.
  - intros env. destruct (update_in_op Payments.desc p' (payments db1)) as [[p2 tbl] | e] eqn:Hup.
    + simpl. destruct (Hann db1 None Hp eq_refl) as (Hnew & Hh & _ & _ & Hnews);
        [done | by left |].
      destruct (payment_update_db_ok p' db1 p2 tbl (outbox db1)) as [Hok2 Hf2]; try done.
      * by apply Hknow, Hp.
      * rewrite Hnews. apply announced_more_nil.
      * apply Hok1.
      * destruct (payment_update_known p' db1 p2 tbl (outbox db1)) as (Hk2 & Hnew2 & Hh2 & _);
          [by apply Hknow, Hp | done | done |].
        split.
        { apply payment_update_justified with (p := p') (p' := p2); try done.
          - by apply Hknow, Hp.
          - destruct (Hexec eq_refl) as [-> ->].
            apply Forall_app_2; [done | by apply Forall_singleton]. }
        split; [done |]. split; [done |].
        split; [| intros s]; apply wpa_ret, HQ; try done; try by etransitivity.
        intros ? [= <-]. split; [by rewrite Hh2, Hh |].
        split; [done | by apply nothing_new_unannounced].
    + simpl. destruct e; simpl; [| by apply wpa_ret, HQ].
      apply wpa_bind, wpa_bind, wpa_find_payment.
      * intros e tr2 db2 Htr2 Hf2. apply wpa_ret. cbn [map_err]. apply wpa_ret, HQ; [set_solver | by etransitivity | done].
      * intros p3 tr2 db2 Htr2 Hf2 Hp3 Hh3 _. apply wpa_ret. cbn [map_err].
        apply wpa_ret, HQ; [set_solver | by etransitivity |].
        intros ? [= <-]. rewrite <- Hh3. by apply in_hand_reported.
Qed.
End Handlers.
