(* ===== verification/SendSafety.v ===== *)
(** The outbound handlers are safe: [send_payment] with its intraledger branch, and the
    fee probe.  What the main theorem says of them follows from [allowed]: LND is asked to
    pay only for a persisted and announced intent of a wallet the caller owns, under an
    approved hold that covers the amount and the fee limit. *)
From S2P Require Import Prelude Primitives Fees EsEntity Concrete.
From S2P Require Import PaymentEntity InvoiceEntity Outbox Lnd Symphony Wallet Effects App.
From S2P Require Import AppPayment AppInvoice Ledger Evidence Safety.

(** * Arithmetic of the hold *)

Lemma hold_sat_covers amount fee :
  MilliSatoshi.wf amount -> MilliSatoshi.wf fee ->
  (MilliSatoshi.as_u64 amount + MilliSatoshi.as_u64 fee <= 18446744073709551000)%Z ->
  (MilliSatoshi.as_u64 amount + MilliSatoshi.as_u64 fee <= hold_sat amount fee * 1000 <
   MilliSatoshi.as_u64 amount + MilliSatoshi.as_u64 fee + 1000)%Z /\
  (0 <= hold_sat amount fee <= i64_max)%Z.
Proof.
  intros Ha Hf Hsum. unfold hold_sat.
  set (m := MilliSatoshi.new (wrap_u64 (MilliSatoshi.as_u64 amount + MilliSatoshi.as_u64 fee))).
  assert (Hm : MilliSatoshi.as_u64 m = (MilliSatoshi.as_u64 amount + MilliSatoshi.as_u64 fee)%Z).
  { apply wrap_u64_small. unfold MilliSatoshi.wf in *. unfold_width. lia. }
  assert (Hwf : MilliSatoshi.wf m) by apply wrap_u64_range.
  unfold MilliSatoshi.whole_sat. rewrite round_up_to_sat_exact by (done || lia).
  rewrite Z.div_mul by lia. rewrite Hm.
  assert (Hpos : (0 <= MilliSatoshi.as_u64 amount + MilliSatoshi.as_u64 fee)%Z)
    by (unfold MilliSatoshi.wf in *; unfold_width; lia).
  pose proof (div_ceil_spec _ 1000 Hpos ltac:(lia)) as Hceil.
  split; [exact Hceil |]. unfold_width. lia.
Qed.

(** * Decoding and construction *)

Section Decoding.
Context `{Hex} `{Bolt11}.

(** A decoded amount is a [u64]. *)
Lemma decode_amount_wf pr now d a :
  decode_bolt11_at pr now = Ok d -> DecodedInvoice.amount_msat d = Some a -> MilliSatoshi.wf a.
Proof.
  unfold decode_bolt11_at. destruct (bolt11_from_str pr) as [inv |]; [| done]. simpl.
  destruct (would_expire _ _); [done |].
  destruct (array_try_from _); [| done]. simpl. intros [= <-]. simpl.
  destruct (amount_milli_satoshis inv); [| done]. intros [= <-]. apply wrap_u64_range.
Qed.
End Decoding.

Lemma try_new_fields uuid d w fee at_ a n :
  DecodedInvoice.amount_msat d = Some a ->
  NewPayment.try_new uuid d w None fee at_ = Ok n ->
  NewPayment.payment_hash n = DecodedInvoice.payment_hash d /\ NewPayment.wallet_id n = w /\
  NewPayment.amount_msat n = a /\ NewPayment.max_fee_msat n = fee /\
  NewPayment.bolt_invoice n = DecodedInvoice.bolt_invoice d /\ fee <> MilliSatoshi.ZERO.
Proof.
  intros Ha. unfold NewPayment.try_new. rewrite Ha. simpl.
  destruct (_ =? 0)%Z; [done |]. destruct (Z.eqb_spec (MilliSatoshi.as_u64 fee) 0) as [| Hf]; [done |].
  destruct (String.eqb _ _); [done |]. intros [= <-]. split_and!; try done. by intros ->.
Qed.

(** * The send use case *)

Section Send.
Context `{HexLaws} `{Sha256} `{UuidText} `{TonicText} `{Bolt11} `{EventStoreLaws}.
Context `{PR : !EsRepo Payments.desc} `{PRL : !EsRepoLaws (d := Payments.desc)}.
Context `{IR : !EsRepo Invoices.desc} `{IRL : !EsRepoLaws (d := Invoices.desc)}.
Context (str_debug : string -> string).

Lemma identity_verified_mono (tr tr' : gw_trace) caller :
  tr ⊆ tr' -> identity_verified tr caller -> identity_verified tr' caller.
Proof. intros Hs [-> | Hin]; [by left | right; set_solver]. Qed.

(** The ownership check: the handler goes on only when it succeeded. *)
Lemma wpa_ownership caller w tr db Q :
  identity_verified tr caller ->
  (forall s tr' db', tr ⊆ tr' -> future db db' -> Q (Err (AppError.WalletOwnership s)) tr' db') ->
  (forall tr' db', tr ⊆ tr' -> future db db' -> ownership_checked tr' w -> Q (Ok tt) tr' db') ->
  wpa (check_wallet_ownership caller w) tr db Q.
Proof.
  intros Hid Herr Hok. unfold check_wallet_ownership, map_err_.
  apply wpa_bind, wpa_call; [done |]. intros db1 [[] | e] tr' Hf _ Htr Hin; apply wpa_ret.
  - apply Hok; [done | done | by exists caller].
  - by apply Herr.
Qed.

(** An error of the send use case: [AlreadyPaid] only when there is something stored under
    the hash. *)
Definition conflict_found (h : PaymentHash.t) (e : AppError.t) (db : DbState) : Prop :=
  match e with
  | AppError.Payment (PaymentError.AlreadyPaid _) => is_Some (payments db !! h)
  | _ => True
  end.

Definition refused (text : string) (e : AppError.t) (db : DbState) : Prop :=
  match e with
  | AppError.Payment (PaymentError.AlreadyPaid _) => already_paid text db
  | _ => True
  end.

Lemma conflict_refused text h e db :
  request_hash text h -> conflict_found h e db -> refused text e db.
Proof. intros Hr. destruct e as [| [] | | | | | |]; try done. simpl. exists h. auto. Qed.

(** A use case error that is not [AlreadyPaid]. *)
Lemma create_conflict now n tbl e :
  create_in_op Payments.desc now n tbl = Err e ->
  match PaymentError.from_create e with
  | PaymentError.AlreadyPaid _ => is_Some (tbl !! NewPayment.payment_hash n)
  | _ => True
  end.
Proof.
  intros Hc. pose proof (create_in_op_spec (d := Payments.desc) now n tbl) as Hspec.
  simpl in Hspec. unfold Payments.conflict in Hspec.
  destruct (Payments.insert_row now n); [| rewrite Hspec in Hc; by injection Hc as <-].
  destruct (tbl !! NewPayment.payment_hash n) eqn:Hl; [by destruct (PaymentError.from_create e) |].
  rewrite Hspec in Hc. destruct (map_err CreateHydration _) as [ent | e'] eqn:Hm; [done |].
  simpl in Hc. injection Hc as <-. by destruct (Payment.try_from_events _); simplify_eq/=.
Qed.

(** The stored log of an intent starts with its initial event, for ever. *)
Definition intent_stored (n : NewPayment.t) (db : DbState) : Prop :=
  exists st es, payments db !! NewPayment.payment_hash n = Some st /\
                st_events st = NewPayment.initial_event n :: es.

Lemma intent_stored_future n db1 db2 :
  future db1 db2 -> intent_stored n db1 -> intent_stored n db2.
Proof.
  intros (Hf & _) (st & es & Hst & Hev).
  destruct (Hf _ _ Hst) as (st' & Hst' & _ & [es' Hpre]).
  exists st', (es ++ es'). split; [done |]. by rewrite Hpre, Hev.
Qed.

Lemma publish_error e env db err :
  outbox_publish_in_tx e env db = Err err -> exists o, err = AppError.Outbox o.
Proof.
  unfold outbox_publish_in_tx.
  destruct (EventPublisher.publish_in_tx _ _ _) as [[] | o]; [done |]. intros [= <-]. by exists o.
Qed.

(** The database after the intent and its announcement. *)
Lemma intent_written n db row now seq e :
  db_ok db -> is_intraledger (NewPayment.max_fee_msat n) = false ->
  Payments.insert_row now n = Ok row -> payments db !! NewPayment.payment_hash n = None ->
  NewOutboxEvent.domain_event e = GatewayDomainEvent.LightningPaymentInitiated ->
  NewOutboxEvent.reference_id e = PaymentHash.to_hex (NewPayment.payment_hash n) ->
  NewOutboxEvent.amount_sat e = sat_i64 (NewPayment.amount_msat n) ->
  OutboxTheory.outbox_wf (outbox db ++ [EventPublisher.row_of seq e]) ->
  let db' := MkDb (<[ NewPayment.payment_hash n :=
                        Stored (NewPayment.id n) row [NewPayment.initial_event n] ]> (payments db))
                  (invoices db) (outbox db ++ [EventPublisher.row_of seq e]) in
  db_ok db' /\ future db db'.
Proof.
  intros (Hp & [Hd Ht] & Hi & Hx & Ho) Hil Hrow Hno Ek Er Ea Hwf db'. split.
  - split; [| split; [split |]]; simpl.
    + apply payments_ok_create with (ob := outbox db) (now := now); try done.
      unfold payment_announcements. simpl. rewrite Hil. simpl. rewrite <- Ea, <- Ek.
      apply announced_more_publish; [by rewrite Ek | done].
    + intros h st n' es Hl. apply lookup_insert_Some in Hl as [[<- <-] | [_ Hl]].
      * simpl. intros Hev Hil'. injection Hev as E1 E2 E3 E4 E5 E6 E7 E8. congruence.
      * by eapply Hd.
    + apply transfers_match_payment_write; [done |]. unfold transfer_sent. rewrite Hno. simpl.
      by rewrite Hil.
    + split; [| done]. apply invoices_ok_same with (ob := outbox db); [| done].
      apply announced_same_publish. by rewrite Ek.
  - split; [| split]; simpl; [| done | by apply prefix_app_r].
    apply log_grows_insert. intros old Hold. congruence.
Qed.

(** The payment just created is in hand. *)
Lemma intent_in_hand n row (db : DbState) :
  is_intraledger (NewPayment.max_fee_msat n) = false ->
  payments db !! NewPayment.payment_hash n =
    Some (Stored (NewPayment.id n) row [NewPayment.initial_event n]) ->
  payment_in_hand (fresh n (ev_mark_persisted (NewPayment.into_events n))) db.
Proof.
  intros Hil Hst. split; [split |].
  - apply fresh_wf; unfold NewPayment.into_events; by autorewrite with events.
  - simpl. eexists. split; [exact Hst |]. simpl. unfold NewPayment.into_events.
    by autorewrite with events.
  - simpl. rewrite Hil. split; [| done]. unfold new_payment_announcements, NewPayment.into_events.
    simpl. by autorewrite with events.
Qed.

Lemma wpa_persist_intent n dest bolt tr db Q :
  is_intraledger (NewPayment.max_fee_msat n) = false ->
  payment_evidence tr (NewPayment.payment_hash n) (NewPayment.initial_event n) ->
  (forall e tr' db', tr ⊆ tr' -> future db db' ->
     conflict_found (NewPayment.payment_hash n) e db' -> Q (Err e) tr' db') ->
  (forall p tr' db', tr ⊆ tr' -> future db db' -> payment_in_hand p db' ->
     Payment.payment_hash p = NewPayment.payment_hash n ->
     Payment.amount_msat p = NewPayment.amount_msat n ->
     Payment.max_fee_msat p = NewPayment.max_fee_msat n ->
     intent_stored n db' -> iter_new (Payment.events p) = [] ->
     (MilliSatoshi.as_u64 (NewPayment.amount_msat n) <= i64_max)%Z -> Q (Ok p) tr' db') ->
  wpa (persist_intent n (NewPayment.payment_hash n) (NewPayment.wallet_id n)
         (sat_i64 (NewPayment.amount_msat n)) (NewPayment.max_fee_msat n) dest bolt) tr db Q.
Proof.
  intros Hil Hev Herr HQ. apply wpa_tx. intros db1 tr' Hf Hok Htr.
  split; [intros s; by apply Herr |]. intros env. unfold tx_bind, payments_create_in_op.
  destruct (create_in_op Payments.desc (db_now env) n (payments db1)) as [[p tbl] | ce] eqn:Hc;
    [| apply Herr; [done | done | by apply create_conflict in Hc]].
  apply payment_create_outcome in Hc as (row & Hrow & Hno & -> & ->). simpl.
  destruct (outbox_publish_in_tx _ _ _) as [[seq db2] | pe] eqn:Hpub;
    [| destruct (publish_error _ _ _ _ Hpub) as [o ->]; by apply Herr].
  apply publish_outcome in Hpub as [-> Hwf]; [| by apply Hok]. simpl in *.
  destruct (insert_row_columns _ _ _ Hrow) as (_ & Hamt & _).
  edestruct (intent_written n db1 row (db_now env)) as [Hdb Hfut]; try exact Hwf; try done.
  split.
  { apply justified_payment_write with (es := [NewPayment.initial_event n]).
    - unfold log_of. by rewrite Hno.
    - by apply Forall_singleton. }
  split; [done |]. split; [done |].
  split; [| intros s; apply Herr; [done | by etransitivity | done]].
  apply HQ; try done; [by etransitivity | | |].
  - eapply intent_in_hand; [done |]. simpl. apply lookup_insert_eq.
  - eexists _, []. simpl. by rewrite lookup_insert_eq.
  - unfold NewPayment.into_events. simpl. by autorewrite with events.
Qed.

(** Marking a payment pending in memory announces nothing and keeps it in hand. *)
Lemma mark_pending_in_hand now p db :
  payment_in_hand p db -> is_intraledger (Payment.max_fee_msat p) = false ->
  let p' := (Payment.mark_pending now p).1 in
  payment_in_hand p' db /\ Payment.payment_hash p' = Payment.payment_hash p /\
  Payment.amount_msat p' = Payment.amount_msat p.
Proof.
  intros Hp Hil p'. pose proof Hp as [[Hwf Hk] [Hnone _]].
  pose proof (run_command_identity (MarkPending now) p Hwf) as (_ & Hh & _ & Ha & Hm & _).
  simpl in *. fold p' in Hh, Ha, Hm. split_and!; [| done | done].
  split; [by apply (knows_payment_command (MarkPending now)) |].
  rewrite <- Hm. split; [| by rewrite Hil].
  pose proof (run_command_answer (MarkPending now) p Hwf) as Hrun. simpl in Hrun.
  unfold p'. rewrite Hrun. simpl.
  destruct (Payment.state p); simpl; try done.
  unfold new_payment_announcements in *. simpl. autorewrite with events.
  by rewrite omap_app, map_app, Hnone.
Qed.

(** Symphony has been asked for the spend of a payment, and what is pushed of it so far
    has its evidence. *)
Definition spend_underway (tr : gw_trace) (p : Payment.t) : Prop :=
  Forall (payment_evidence tr (Payment.payment_hash p)) (iter_new (Payment.events p)) /\
  spend_requested tr (Payment.payment_hash p).

Lemma mark_pending_grounds tr now p e :
  PaymentTheory.wf p -> spend_underway tr p ->
  payment_evidence tr (Payment.payment_hash p) e ->
  payment_grounds tr (Payment.mark_pending now p).1 e.
Proof.
  intros Hwf [Hold Hasked] He.
  pose proof (run_command_answer (MarkPending now) p Hwf) as Hrun. simpl in Hrun. rewrite Hrun.
  unfold payment_grounds. destruct (Payment.state p); simpl; try done.
  autorewrite with events. split; [| done]. apply Forall_app_2; [done | by apply Forall_singleton].
Qed.

Lemma wpa_settle_inline p h sat pre fees hops now tr db Q :
  payment_in_hand p db -> is_intraledger (Payment.max_fee_msat p) = false ->
  Payment.payment_hash p = h -> sat = sat_i64 (Payment.amount_msat p) ->
  spend_underway tr p -> payment_evidence tr h (PaymentEvent.Completed now pre fees hops) ->
  answers h tr db Q ->
  wpa (settle_inline p h sat pre fees hops now) tr db Q.
Proof.
  intros Hp Hil <- -> Hu He HQ. unfold settle_inline.
  destruct (mark_pending_in_hand now p db Hp Hil) as (Hp' & Hh & Ha).
  pose proof (mark_pending_grounds tr now p _ (proj1 (proj1 Hp)) Hu He) as Hg.
  destruct (Payment.mark_pending now p) as [p' [a | e]]; simpl in *;
    [| by apply wpa_ret, HQ].
  apply wpa_commit_completed; try done. by rewrite Ha.
Qed.

Lemma wpa_fail_inline p h sat reason now tr db Q :
  payment_in_hand p db -> is_intraledger (Payment.max_fee_msat p) = false ->
  Payment.payment_hash p = h -> sat = sat_i64 (Payment.amount_msat p) ->
  spend_underway tr p -> payment_evidence tr h (PaymentEvent.Failed now reason) ->
  answers h tr db Q ->
  wpa (fail_inline p h sat reason now) tr db Q.
Proof.
  intros Hp Hil <- -> Hu He HQ. unfold fail_inline.
  destruct (mark_pending_in_hand now p db Hp Hil) as (Hp' & Hh & Ha).
  pose proof (mark_pending_grounds tr now p _ (proj1 (proj1 Hp)) Hu He) as Hg.
  destruct (Payment.mark_pending now p) as [p' [a | e]]; simpl in *;
    [| by apply wpa_ret, HQ].
  apply wpa_commit_failed; try done. by rewrite Ha.
Qed.

Lemma wpa_dispatch p h sat now params resp tr db Q :
  payment_in_hand p db -> is_intraledger (Payment.max_fee_msat p) = false ->
  Payment.payment_hash p = h -> sat = sat_i64 (Payment.amount_msat p) ->
  spend_underway tr p ->
  request_hash (BoltInvoice.as_str (SendPaymentParams.bolt_invoice params)) h ->
  Ev (Call (LndSendPayment params)) (Ok resp) ∈ tr -> answers h tr db Q ->
  wpa (dispatch_lnd_response p h sat now resp) tr db Q.
Proof.
  intros Hp Hil Hh Hs Hu Hreq Hsent HQ. unfold dispatch_lnd_response.
  case_decide as Hother.
  { apply wpa_fail_inline; try done. right. left. by exists params, (Ok resp). }
  assert (Hsaid : lnd_reported tr h resp) by by eapply said_on_send.
  destruct (SendPaymentResponse.status resp) eqn:Hst.
  - apply wpa_transition_to_pending; try done.
  - destruct (SendPaymentResponse.payment_preimage resp) eqn:Hpre; [| by apply wpa_ret, HQ].
    apply wpa_settle_inline; try done. left. by exists resp.
  - apply wpa_fail_inline; try done. left. exists resp. split; [done |]. split; [done |].
    by intros r ->.
Qed.

Lemma max_fee_not_intraledger m :
  MilliSatoshi.wf m -> is_intraledger (LnFees.max_for m) = false /\ MilliSatoshi.wf (LnFees.max_for m).
Proof.
  intros Hwf. pose proof (max_for_range m Hwf) as Hr. split.
  - apply bool_decide_eq_false_2. intros Hz. rewrite Hz in Hr. simpl in Hr. lia.
  - unfold MilliSatoshi.wf in *. width_lia.
Qed.

(** After the intent is stored every answer of the send is accounted for. *)
Lemma intent_answers n tr db :
  intent_stored n db ->
  answers (NewPayment.payment_hash n) tr db (fun r _ db' =>
    match r with
    | Ok p => intent_stored n db' /\ reported (NewPayment.payment_hash n) p db'
    | Err e => conflict_found (NewPayment.payment_hash n) e db'
    end).
Proof.
  intros Hint r tr' db' _ Hf Hok. apply (intent_stored_future _ _ _ Hf) in Hint.
  destruct r as [p | e]; [split; [done | by apply Hok] |].
  destruct e as [| [] | | | | | |]; try done.
  destruct Hint as (st & es & Hst & _). by exists st.
Qed.

(** The over-the-wire path, from a decoded invoice with an amount. *)
Lemma wpa_send_over_wire d a w uuid now n tr db :
  DecodedInvoice.amount_msat d = Some a -> MilliSatoshi.wf a ->
  NewPayment.try_new uuid d w None (LnFees.max_for a) now = Ok n ->
  ownership_checked tr w ->
  request_hash (BoltInvoice.as_str (DecodedInvoice.bolt_invoice d))
    (DecodedInvoice.payment_hash d) ->
  let h := DecodedInvoice.payment_hash d in
  wpa (let?! payment :=
         persist_intent n h w (sat_i64 a) (LnFees.max_for a) (DecodedInvoice.destination d)
           (DecodedInvoice.bolt_invoice d) in
       let! auth := call (AuthorizeSpend
         (ln_authorize_request h w (hold_sat a (LnFees.max_for a)))) in
       match auth with
       | Err e => fail_inline payment h (sat_i64 a) (authorize_error_reason str_debug e) now
       | Ok symphony_resp =>
           match SymphonyAuthorizeResponse.status symphony_resp with
           | SymphonyAuthorizeStatus.Declined =>
               fail_inline payment h (sat_i64 a)
                 (declined_reason str_debug
                    (SymphonyAuthorizeResponse.decline_reason symphony_resp)) now
           | SymphonyAuthorizeStatus.Approved =>
               let! sent := call (LndSendPayment
                 (SendPaymentParams.mk (DecodedInvoice.bolt_invoice d) (LnFees.max_for a) 60)) in
               match sent with
               | Err lnd_err =>
                   fail_inline payment h (sat_i64 a) (lnd_error_to_failure_reason lnd_err) now
               | Ok lnd_resp => dispatch_lnd_response payment h (sat_i64 a) now lnd_resp
               end
           end
       end) tr db (fun r _ db' =>
    match r with
    | Ok p => intent_stored n db' /\ reported h p db'
    | Err e => conflict_found h e db'
    end).
Proof.
  intros Ha Hwf Hn Hown Hreq h.
  destruct (try_new_fields _ _ _ _ _ _ _ Ha Hn) as (Eh & Ew & Ea & Ef & Eb & _).
  destruct (max_fee_not_intraledger a Hwf) as [Hil Hfwf].
  unfold h, try_bind. rewrite <- Eh, <- Ew, <- Ef, <- Eb, <- Ea in *.
  apply wpa_bind, wpa_persist_intent;
    [done | by split_and!; [| | | rewrite Hil] | intros e tr1 db1 _ _ He; by apply wpa_ret |].
  intros p tr1 db1 Htr1 _ Hp Hph Hpa Hpf Hint Hclean Hamt. apply wpa_bind, wpa_call.
  { intros db2 _ _. exists (NewPayment.wallet_id n), (NewPayment.payment_hash n).
    split; [by apply (ownership_checked_mono tr) | done]. }
  intros db2 auth tr2 Hf2 _ Htr2 Hauth.
  apply (payment_in_hand_future _ _ _ Hf2) in Hp. apply (intent_stored_future _ _ _ Hf2) in Hint.
  set (req := ln_authorize_request (NewPayment.payment_hash n) (NewPayment.wallet_id n) _) in *.
  assert (Hu : forall tr', tr2 ⊆ tr' -> spend_underway tr' p).
  { intros tr' Htr'. split; [rewrite Hclean; constructor |]. rewrite Hph.
    exists (NewPayment.wallet_id n), req, auth. split; [set_solver | done]. }
  assert (Hrefused : forall r, auth = r ->
    match r with
    | Ok resp => SymphonyAuthorizeResponse.status resp = SymphonyAuthorizeStatus.Declined
    | Err _ => True
    end -> spend_refused tr2 (NewPayment.payment_hash n)).
  { intros r <- Hr. by exists (NewPayment.wallet_id n), req, auth. }
  destruct auth as [resp | e].
  2: { apply wpa_fail_inline; [congruence .. | by apply Hu | |]; [| by apply intent_answers].
    right. right. by apply (Hrefused _ eq_refl). }
  destruct (SymphonyAuthorizeResponse.status resp) eqn:Hst.
  2: { apply wpa_fail_inline; [congruence .. | by apply Hu | |]; [| by apply intent_answers].
    right. right. by apply (Hrefused _ eq_refl). }
  apply wpa_bind, wpa_call.
  { intros db3 Hf3 _. apply (intent_stored_future _ _ _ Hf3) in Hint as (st & es & Hs & Hev).
    eexists n, _, st, es. split; [done |]. split; [exact Hs |]. split; [exact Hev |].
    split; [apply (ownership_checked_mono tr); [set_solver | done] |].
    split; [exists resp; by split; [exact Hauth |] |]. split; [done |].
    unfold hold_covers. simpl. apply hold_sat_covers; [done | done |].
    rewrite Ef. pose proof (max_for_range _ Hwf). unfold MilliSatoshi.wf in *. width_lia. }
  intros db3 sent tr3 Hf3 _ Htr3 Hsent. apply (payment_in_hand_future _ _ _ Hf3) in Hp.
  apply (intent_stored_future _ _ _ Hf3) in Hint.
  destruct sent as [resp' | e]; [eapply wpa_dispatch; try exact Hsent | apply wpa_fail_inline];
    try congruence; try (by apply Hu); try (by apply intent_answers); [done |].
  right. left. eexists _, (Err e). split; [| split; [exact Hsent | done]]. done.
Qed.

(** ** The intraledger branch *)

(** The fresh payment of the transaction settles at once. *)
Lemma settle_fresh n evs pre now :
  iter_all evs = [NewPayment.initial_event n] -> ev_id evs = NewPayment.id n ->
  let e := PaymentEvent.Completed now pre MilliSatoshi.ZERO [] in
  Payment.settle pre MilliSatoshi.ZERO [] now (fresh n evs) =
    (PaymentTheory.project e (Payment.push e (fresh n evs)), Ok Executed) /\
  PaymentTheory.wf (PaymentTheory.project e (Payment.push e (fresh n evs))).
Proof.
  intros Hall Hid e. pose proof (fresh_wf n evs Hall Hid) as Hwf.
  pose proof (run_command_answer (Settle pre MilliSatoshi.ZERO [] now) _ Hwf) as Hrun.
  pose proof (run_command_wf (Settle pre MilliSatoshi.ZERO [] now) _ Hwf) as Hwf'.
  simpl in *. split; [exact Hrun |]. by rewrite Hrun in Hwf'.
Qed.

(** An open recipient invoice settles intraledger. *)
Lemma settle_intraledger_open i now :
  InvoiceTheory.wf i -> Invoice.state i = InvoiceState.Open ->
  (Invoice.settle_intraledger now i).2 = Ok Executed /\
  iter_new (Invoice.events (Invoice.settle_intraledger now i).1) =
    iter_new (Invoice.events i) ++ [InvoiceEvent.SettledIntraledger now] /\
  Invoice.payment_hash (Invoice.settle_intraledger now i).1 = Invoice.payment_hash i.
Proof.
  intros [ph Hwf] Hst. assert (ph = PhOpen) as ->.
  { destruct Hwf as (_ & _ & Hs & _). rewrite Hst in Hs. by destruct ph. }
  pose proof (run_invoice_command_answer (SettleIntraledger now) PhOpen i Hwf) as Hrun.
  destruct (run_invoice_command_executed (SettleIntraledger now) PhOpen i Hwf eq_refl).
  simpl in *. split; [by rewrite Hrun | by split].
Qed.

(** The payment half of the transaction: the fresh payment is inserted, settled and updated,
    which leaves one row with both events. *)
Lemma create_and_settle n db now env pre p tbl :
  payments_ok (payments db) (outbox db) -> is_intraledger (NewPayment.max_fee_msat n) = true ->
  create_in_op Payments.desc (db_now env) n (payments db) = Ok (p, tbl) ->
  let settled := Payment.settle pre MilliSatoshi.ZERO [] now p in
  settled.2 = Ok Executed /\ payments db !! NewPayment.payment_hash n = None /\
  forall p2 tbl2, update_in_op Payments.desc settled.1 tbl = Ok (p2, tbl2) ->
  exists row,
    tbl2 = <[ NewPayment.payment_hash n :=
                Stored (NewPayment.id n) row
                  [NewPayment.initial_event n;
                   PaymentEvent.Completed now pre MilliSatoshi.ZERO []] ]> (payments db) /\
    (forall ob', announced_more payment_class (NewPayment.payment_hash n)
        [(GatewayDomainEvent.LightningIntraledgerTransferCompleted,
          sat_i64 (NewPayment.amount_msat n))] (outbox db) ob' ->
      payments_ok tbl2 ob') /\
    Payment.state p2 = PaymentState.Completed /\ iter_new (Payment.events p2) = [] /\
    forall db', payments db' = tbl2 -> reported (NewPayment.payment_hash n) p2 db'.
Proof.
  intros Hp Hil Hc. apply payment_create_outcome in Hc as (row & Hrow & Hno & -> & ->).
  set (evs := ev_mark_persisted (NewPayment.into_events n)).
  assert (Hevs : iter_persisted evs = [NewPayment.initial_event n] /\ iter_new evs = [] /\
                 iter_all evs = [NewPayment.initial_event n] /\ ev_id evs = NewPayment.id n)
    by (unfold evs, NewPayment.into_events; by autorewrite with events).
  destruct Hevs as (Hper & Hnew & Hall & Hid).
  destruct (settle_fresh n evs pre now Hall Hid) as [-> Hwfp]. cbn [fst snd].
  split; [done |]. split; [done |]. set (p1 := PaymentTheory.project _ _) in *.
  set (tbl1 := <[ NewPayment.payment_hash n := _ ]> (payments db)). intros p2 tbl2 Hup.
  assert (Hst1 : tbl1 !! NewPayment.payment_hash n =
            Some (Stored (NewPayment.id n) row [NewPayment.initial_event n]))
    by by apply lookup_insert_eq.
  assert (Hnewp : iter_new (Payment.events p1) =
            [PaymentEvent.Completed now pre MilliSatoshi.ZERO []]).
  { unfold p1. simpl. autorewrite with events. by rewrite Hnew. }
  set (db1 := MkDb tbl1 (invoices db) (outbox db)).
  assert (Hk1 : knows_payment p1 db1).
  { split; [done |]. eexists. split; [exact Hst1 |]. unfold p1. simpl.
    autorewrite with events. by rewrite Hper, Hid. }
  destruct (payment_update_outcome db1 p1 p2 tbl2 Hk1)
    as (st & Hst & Hid1 & Hev & _ & Etbl2); [by rewrite Hnewp | done |].
  destruct (payment_update_known p1 db1 p2 tbl2 (outbox db) Hk1) as (Hk2 & Hnew2 & Hh2 & Hs2);
    [by rewrite Hnewp | done |].
  cbn [payments db1] in Hst, Etbl2. eexists. split_and!.
  - rewrite Etbl2, Hnewp. change (Payment.payment_hash p1) with (NewPayment.payment_hash n) in *.
    unfold tbl1. rewrite insert_insert_eq. rewrite Hst1 in Hst. by injection Hst as <-.
  - rewrite Etbl2. intros ob' Hmore.
    apply payments_ok_update with (ob := outbox db) (p := p1); try done.
    + apply payments_ok_create with (ob := outbox db) (now := db_now env); try done.
      simpl. rewrite Hil. apply announced_more_nil.
    + unfold new_payment_announcements. rewrite Hnewp. csimpl. by rewrite Hil.
  - by rewrite Hs2.
  - done.
  - intros db' Hdb'. split; [done |]. split; [| by apply nothing_new_unannounced].
    destruct Hk2 as [Hwf2 Hst2]. split; [done |]. by rewrite Hdb'.
Qed.

(** The invoice half. *)
Lemma settle_and_update i db now :
  knows_invoice i db -> iter_new (Invoice.events i) = [] ->
  Invoice.state i = InvoiceState.Open -> invoices_ok (invoices db) (outbox db) ->
  external_ids_unique (invoices db) ->
  let settled := Invoice.settle_intraledger now i in
  settled.2 = Ok Executed /\
  (forall i2 itbl, update_in_op Invoices.desc settled.1 (invoices db) = Ok (i2, itbl) ->
   exists st st',
     invoices db !! Invoice.payment_hash i = Some st /\
     itbl = <[ Invoice.payment_hash i := st' ]> (invoices db) /\ st_id st' = st_id st /\
     st_events st' = st_events st ++ [InvoiceEvent.SettledIntraledger now] /\
     external_ids_unique itbl /\
     forall ob', announced_same invoice_class (outbox db) ob' -> invoices_ok itbl ob').
Proof.
  intros Hk Hnone Hopen Hi Hx settled.
  destruct (settle_intraledger_open i now (proj1 Hk) Hopen) as (Hr & Hnewi & Hhi).
  pose proof (knows_invoice_command (SettleIntraledger now) i db Hk) as Hk1.
  simpl in Hk1. fold settled in Hr, Hnewi, Hhi, Hk1. split; [done |]. rewrite Hnone in Hnewi.
  intros i2 itbl Hup. destruct (invoice_update_outcome db settled.1 i2 itbl Hk1) as
    (st & Hst & Hid & Hev & _ & ->); [by rewrite Hnewi | done |].
  rewrite Hnewi, Hhi in *. eexists st, _. split; [done |]. split; [reflexivity |].
  split; [done |]. split; [done |]. split.
  - by apply external_ids_unique_update with (st := st).
  - intros ob' Hsame. rewrite <- Hhi, <- Hnewi in *.
    apply invoices_ok_update with (ob := outbox db) (news := []); try done.
    + by destruct Hk1.
    + by apply announced_more_same.
    + unfold new_invoice_announcements. by rewrite Hnewi.
Qed.

(** The whole transaction, taken apart. *)
Lemma intraledger_tx_outcome n i h sat w1 w2 amt now env db p' db' :
  let settled p := Payment.settle (Invoice.payment_preimage i) MilliSatoshi.ZERO [] now p in
  let received := Invoice.settle_intraledger now i in
  (forall p tbl, create_in_op Payments.desc (db_now env) n (payments db) = Ok (p, tbl) ->
     (settled p).2 = Ok Executed) ->
  received.2 = Ok Executed -> OutboxTheory.outbox_wf (outbox db) ->
  intraledger_tx n i h sat w1 w2 amt now env db = Ok (p', db') ->
  exists p tbl tbl2 i2 itbl seq e,
    create_in_op Payments.desc (db_now env) n (payments db) = Ok (p, tbl) /\
    update_in_op Payments.desc (settled p).1 tbl = Ok (p', tbl2) /\
    update_in_op Invoices.desc received.1 (invoices db) = Ok (i2, itbl) /\
    NewOutboxEvent.domain_event e = GatewayDomainEvent.LightningIntraledgerTransferCompleted /\
    NewOutboxEvent.reference_id e = PaymentHash.to_hex h /\
    NewOutboxEvent.amount_sat e = sat /\
    db' = MkDb tbl2 itbl (outbox db ++ [EventPublisher.row_of seq e]) /\
    OutboxTheory.outbox_wf (outbox db ++ [EventPublisher.row_of seq e]).
Proof.
  intros settled received Hs Hr Hwf. unfold intraledger_tx, tx_bind at 1.
  unfold payments_create_in_op.
  destruct (create_in_op Payments.desc (db_now env) n (payments db)) as [[p tbl] |] eqn:Hc; [| done].
  specialize (Hs _ _ eq_refl). cbn [map_err result_bind]. subst settled received. cbn beta in *.
  destruct (Payment.settle _ _ _ _ p) as [p1 r1] eqn:Hse. cbn [snd] in Hs. subst r1.
  unfold tx_bind at 1. cbn [tx_result map_err]. unfold tx_bind at 1, payments_update_in_op.
  cbn [payments invoices outbox].
  destruct (update_in_op Payments.desc p1 tbl) as [[p2 tbl2] |] eqn:Hup; [| done].
  cbn [map_err result_bind].
  destruct (Invoice.settle_intraledger now i) as [i1 r2]. cbn [fst snd] in *. subst r2.
  unfold tx_bind at 1. cbn [tx_result map_err]. unfold tx_bind at 1, invoices_update_in_op.
  cbn [payments invoices outbox].
  destruct (update_in_op Invoices.desc i1 (invoices db)) as [[i2 itbl] |] eqn:Hupi; [| done].
  cbn [map_err result_bind]. unfold tx_bind at 1, tx_utc_now. unfold tx_bind at 1.
  destruct (outbox_publish_in_tx _ _ _) as [[seq db3] |] eqn:Hpub; [| done].
  apply publish_outcome in Hpub as [-> Hwf']; [| done]. intros [= <- <-].
  eexists p, tbl, tbl2, i2, itbl, seq, _. rewrite Hse. split_and!; try done; reflexivity.
Qed.

Lemma intraledger_tx_ok n i h sat w1 w2 amt now env db p' db' :
  db_ok db -> invoice_in_hand i db -> Invoice.state i = InvoiceState.Open ->
  Invoice.payment_hash i = h -> NewPayment.payment_hash n = h ->
  is_intraledger (NewPayment.max_fee_msat n) = true ->
  sat = sat_i64 (NewPayment.amount_msat n) ->
  intraledger_tx n i h sat w1 w2 amt now env db = Ok (p', db') ->
  (forall tr, payment_evidence tr h (NewPayment.initial_event n) ->
     payment_evidence tr h
       (PaymentEvent.Completed now (Invoice.payment_preimage i) MilliSatoshi.ZERO []) ->
     invoice_evidence tr h (InvoiceEvent.SettledIntraledger now) -> justified tr db db') /\
  db_ok db' /\ future db db' /\ intent_stored n db' /\ reported h p' db' /\
  Payment.state p' = PaymentState.Completed /\ iter_new (Payment.events p') = [].
Proof.
  intros (Hp & [Hd Ht] & Hi & Hx & Ho) [Hki Hnone] Hopen Hih Hnh Hil Hsat.
  destruct (settle_and_update i db now Hki Hnone Hopen Hi Hx) as [Hreceived Hinv].
  intros Htx. apply intraledger_tx_outcome in Htx as
    (p & tbl & tbl2 & i2 & itbl & seq & e & Hc & Hup & Hupi & Ek & Er & Ea & -> & Hwf); [| | | done].
  2: { intros p tbl Hc. by destruct (create_and_settle n db now env (Invoice.payment_preimage i) p tbl). }
  2: { exact Hreceived. }
  destruct (create_and_settle n db now env (Invoice.payment_preimage i) p tbl) as (_ & Hno & Hpay);
    [done .. |].
  destruct (Hpay _ _ Hup) as (row & -> & Hpok & Hs2 & Hn2 & Hrep).
  destruct (Hinv _ _ Hupi) as (st & st' & Hst & -> & Hid & Hev & Hx' & Hiok).
  rewrite Hih, Hnh in *. split.
  { intros tr He1 He2 He3. split; cbn [payments invoices].
    - eapply (grown_with_insert _ _ _ _ [_; _]); [unfold log_of; by rewrite Hno |].
      by apply Forall_cons_2, Forall_singleton.
    - eapply (grown_with_insert _ _ _ _ [_]); [unfold log_of; rewrite Hst; exact Hev |].
      by apply Forall_singleton. }
  split; [split; [| split; [split |]] | split; [split; [| split] | split]];
    cbn [payments invoices outbox].
  - apply Hpok. rewrite <- Hsat, <- Ea, <- Ek. apply announced_more_publish; [by rewrite Ek | done].
  - intros h' st2 n' es Hl Hev' Hil'. apply lookup_insert_Some in Hl as [[<- <-] | [_ Hl]].
    + by injection Hev' as _ _ _ _ _ _ _ <-.
    + by eapply Hd.
  - apply transfers_match_both; [done | done | rewrite Hev, existsb_app; apply orb_true_r].
  - split; [| done]. apply Hiok, announced_same_publish. by rewrite Ek.
  - apply log_grows_insert. intros old Hold. congruence.
  - apply log_grows_insert. intros old Hold. simplify_eq. rewrite Hev.
    split; [done | by apply prefix_app_r].
  - by apply prefix_app_r.
  - eexists _, _. simpl. rewrite Hnh, lookup_insert_eq. by split.
  - split; [by apply Hrep | by split].
Qed.

(** Its errors: a conflict only when a payment is stored under the hash. *)
Lemma intraledger_tx_error n i h sat w1 w2 amt now env db e :
  db_ok db -> invoice_in_hand i db -> Invoice.state i = InvoiceState.Open ->
  NewPayment.payment_hash n = h -> is_intraledger (NewPayment.max_fee_msat n) = true ->
  intraledger_tx n i h sat w1 w2 amt now env db = Err e -> conflict_found h e db.
Proof.
  intros (Hp & _ & Hi & Hx & _) [Hki Hnone] Hopen <- Hil.
  destruct (settle_and_update i db now Hki Hnone Hopen Hi Hx) as [Hreceived _].
  unfold intraledger_tx, tx_bind at 1, payments_create_in_op.
  destruct (create_in_op Payments.desc (db_now env) n (payments db)) as [[p tbl] | ce] eqn:Hc.
  2: { intros [= <-]. by apply create_conflict in Hc. }
  destruct (create_and_settle n db now env (Invoice.payment_preimage i) p tbl Hp Hil Hc)
    as (Hs & _). cbn [map_err result_bind].
  destruct (Payment.settle _ _ _ _ p) as [p1 r1]. cbn [snd] in Hs. subst r1.
  unfold tx_bind at 1. cbn [tx_result map_err]. unfold tx_bind at 1, payments_update_in_op.
  cbn [payments invoices outbox].
  destruct (update_in_op Payments.desc p1 tbl) as [[p2 tbl2] |]; [| by intros [= <-]].
  cbn [map_err result_bind].
  destruct (Invoice.settle_intraledger now i) as [i1 r2]. cbn [fst snd] in Hreceived. subst r2.
  unfold tx_bind at 1. cbn [tx_result map_err]. unfold tx_bind at 1, invoices_update_in_op.
  cbn [payments invoices outbox].
  destruct (update_in_op Invoices.desc i1 (invoices db)) as [[i2 itbl] |]; [| by intros [= <-]].
  cbn [map_err result_bind]. unfold tx_bind at 1, tx_utc_now. unfold tx_bind at 1.
  destruct (outbox_publish_in_tx _ _ _) as [[seq db3] | pe] eqn:Hpub; [done |].
  intros [= <-]. by destruct (publish_error _ _ _ _ Hpub) as [o ->].
Qed.

Lemma wpa_find_maybe_invoice h tr db Q :
  (forall e tr' db', tr ⊆ tr' -> future db db' -> Q (Err e) tr' db') ->
  (forall tr' db', tr ⊆ tr' -> future db db' -> Q (Ok None) tr' db') ->
  (forall i tr' db', tr ⊆ tr' -> future db db' -> invoice_in_hand i db' ->
     Invoice.payment_hash i = h ->
     Preimage.payment_hash (Invoice.payment_preimage i) = h -> Q (Ok (Some i)) tr' db') ->
  wpa (maybe_find_invoice h) tr db Q.
Proof.
  intros Herr Hnone Hok. apply wpa_read. intros db1 tr' Hf Hdb Htr.
  split; [intros s; by apply Herr |].
  destruct (find_by_payment_hash _ _ _) as [i | e] eqn:Hfind.
  - destruct (find_invoice_in_hand _ _ _ Hdb Hfind) as (Hi & Hh & Hpre). by apply Hok.
  - destruct e; [by apply Hnone | by apply Herr ..].
Qed.

Lemma try_new_intraledger_fields uuid d inv w at_ n :
  NewPayment.try_new_intraledger uuid d inv w at_ = Ok n ->
  NewPayment.payment_hash n = DecodedInvoice.payment_hash d /\ NewPayment.wallet_id n = w /\
  NewPayment.bolt_invoice n = DecodedInvoice.bolt_invoice d /\
  NewPayment.max_fee_msat n = MilliSatoshi.ZERO.
Proof.
  unfold NewPayment.try_new_intraledger. intros (a & _ & Hn)%result_bind_ok.
  destruct (_ =? 0)%Z; [done |]. destruct (String.eqb _ _); [done |]. by injection Hn as <-.
Qed.

(** The stored row of a known invoice carries its wallet. *)
Lemma known_invoice_row i db :
  db_ok db -> knows_invoice i db ->
  exists st, invoices db !! Invoice.payment_hash i = Some st /\
    InvoiceRow.wallet_id (st_row st) = Invoice.wallet_id i.
Proof.
  intros (_ & _ & Hi & _) ([ph Hwf] & st & Hst & Hid & Hne & [es Hpre]).
  exists st. split; [done |]. specialize (Hi (Invoice.payment_hash i)). rewrite Hst in Hi.
  destruct Hi as ((i0 & Hi0 & Hwf0 & _ & _ & Hw & _) & _). rewrite Hw.
  destruct Hwf as (Hco & Hlog & _), Hwf0 as (ph0 & _ & Hlog0 & _).
  destruct (invoice_log_head _ _ Hlog) as (n & l & Hn & Hl).
  rewrite (InvoiceTheory.invoice_try_from_events_events _ _ Hi0), iter_all_load in Hlog0.
  destruct (invoice_log_head _ _ Hlog0) as (n0 & l0 & Hn0 & Hl0).
  destruct (InvoiceTheory.invoice_hydrate_identity _ _ n l Hco Hn Hl) as (_ & _ & -> & _).
  destruct (InvoiceTheory.invoice_hydrate_identity _ _ n0 l0 Hi0) as (_ & _ & -> & _);
    [by rewrite iter_all_load | done |].
  rewrite iter_all_split in Hn. rewrite Hpre in Hn0.
  destruct (iter_persisted (Invoice.events i)) as [| e0 l1]; [done |].
  simpl in *. assert (E : NewInvoice.initial_event n = NewInvoice.initial_event n0) by congruence.
  by injection E.
Qed.

(** What the two constructors refuse is never reported as already paid. *)
Lemma try_new_error uuid d w req fee at_ e h db :
  NewPayment.try_new uuid d w req fee at_ = Err e -> conflict_found h (AppError.Payment e) db.
Proof.
  intros Hn. unfold NewPayment.try_new in Hn.
  destruct (DecodedInvoice.amount_msat d), req; simpl in Hn; repeat case_match;
    simpl in Hn; repeat case_match; simplify_eq; exact I.
Qed.

Lemma try_new_intraledger_error uuid d inv w at_ e h db :
  NewPayment.try_new_intraledger uuid d inv w at_ = Err e ->
  conflict_found h (AppError.Payment e) db.
Proof.
  intros Hn. unfold NewPayment.try_new_intraledger in Hn.
  destruct (DecodedInvoice.amount_msat d), inv; simpl in Hn; repeat case_match;
    simpl in Hn; repeat case_match; simplify_eq; exact I.
Qed.

(** A loaded settled invoice is recorded as paid. *)
Lemma settled_recorded i db :
  invoice_in_hand i db -> Invoice.state i = InvoiceState.Settled ->
  exists st, invoices db !! Invoice.payment_hash i = Some st /\ paid_log (st_events st) = true.
Proof.
  intros [([ph Hwf] & st & Hst & _ & _ & [es Hpre]) Hnew] Hset.
  exists st. split; [done |]. destruct Hwf as (_ & Hlog & Hs & _).
  apply invoice_log_marks in Hlog as (_ & H1' & H2' & _).
  rewrite iter_all_split, Hnew, app_nil_r in H1', H2'.
  unfold paid_log. rewrite Hpre, !existsb_app, H1', H2'.
  rewrite Hset in Hs. destruct ph; simpl in *; try done; by rewrite ?orb_true_r.
Qed.

(** What the send use case answers, of the payment under [h]. *)
Definition intraledger_outcome (d : DecodedInvoice.t) (w : WalletId.t)
    (r : result Payment.t AppError.t) (db : DbState) : Prop :=
  match r with
  | Ok p =>
      exists n, NewPayment.payment_hash n = DecodedInvoice.payment_hash d /\
        NewPayment.wallet_id n = w /\
        NewPayment.bolt_invoice n = DecodedInvoice.bolt_invoice d /\ intent_stored n db /\
        reported (DecodedInvoice.payment_hash d) p db
  | Err e =>
      conflict_found (DecodedInvoice.payment_hash d) e db \/
      exists st, invoices db !! DecodedInvoice.payment_hash d = Some st /\
        paid_log (st_events st) = true
  end.

(** An approved transfer is carried out. *)
Lemma wpa_transfer n d i w req now tr db :
  invoice_in_hand i db -> Invoice.payment_hash i = DecodedInvoice.payment_hash d ->
  Preimage.payment_hash (Invoice.payment_preimage i) = DecodedInvoice.payment_hash d ->
  request_hash (BoltInvoice.as_str (DecodedInvoice.bolt_invoice d))
    (DecodedInvoice.payment_hash d) ->
  Invoice.state i = InvoiceState.Open ->
  NewPayment.payment_hash n = DecodedInvoice.payment_hash d -> NewPayment.wallet_id n = w ->
  NewPayment.bolt_invoice n = DecodedInvoice.bolt_invoice d ->
  NewPayment.max_fee_msat n = MilliSatoshi.ZERO ->
  ownership_checked tr w -> Invoice.wallet_id i <> w ->
  spend_approved tr req -> spend_of w (DecodedInvoice.payment_hash d) req ->
  SymphonyAuthorizeRequest.sat_amount req =
    MilliSatoshi.whole_sat (NewPayment.amount_msat n) ->
  wpa (let?! _ := map_err_ AppError.Lnd (call (LndCancelInvoice (DecodedInvoice.payment_hash d))) in
       in_tx (intraledger_tx n i (DecodedInvoice.payment_hash d)
                (sat_i64 (NewPayment.amount_msat n)) w (Invoice.wallet_id i)
                (NewPayment.amount_msat n) now)) tr db
    (fun r _ db' => intraledger_outcome d w r db').
Proof.
  intros Hi Hh Hpre Hreq Hopen Hnh Hnw Hnb Hfee Hown Hself Happ Hspend Hsat.
  unfold try_bind, map_err_.
  apply wpa_bind, wpa_bind, wpa_call.
  { intros db4 Hf4 Hok4. apply (invoice_in_hand_future _ _ _ Hf4) in Hi.
    destruct (known_invoice_row _ _ Hok4 (proj1 Hi)) as (st & Hst4 & Hw).
    rewrite Hh in Hst4. exists st, w, req. split; [exact Hst4 |].
    split; [done |]. split; [rewrite Hw; congruence | done]. }
  intros db4 r tr4 Hf4 _ Htr4 Hgone. apply wpa_ret.
  destruct r as [[] | e]; [| by apply wpa_ret; left].
  assert (Happr : transfer_approved tr4 (DecodedInvoice.payment_hash d) w
                    (NewPayment.amount_msat n)).
  { exists req. split; [by apply (spend_approved_mono tr) |]. by split_and!. }
  cbn [map_err]. apply (invoice_in_hand_future _ _ _ Hf4) in Hi.
  assert (Hil : is_intraledger (NewPayment.max_fee_msat n) = true) by by rewrite Hfee.
  apply wpa_tx. intros db5 tr5 Hf5 Hok5 _. split; [intros s; by left |]. intros env.
  apply (invoice_in_hand_future _ _ _ Hf5) in Hi.
  destruct (intraledger_tx _ _ _ _ _ _ _ _ env db5) as [[p db6] | e] eqn:Htx.
  - apply intraledger_tx_ok in Htx as (Hj & Hok6 & Hf6 & Hint & Hrep & _); try done.
    split.
    { apply Hj.
      - rewrite <- Hnh, <- Hnw, <- Hnb in *. split_and!; try done.
        by apply (ownership_checked_mono tr).
      - right. split_and!; try done. by exists w, (NewPayment.amount_msat n).
      - by exists w, (NewPayment.amount_msat n). }
    split; [done |]. split; [done |]. split; [by exists n | intros s; by left].
  - left. by eapply intraledger_tx_error.
Qed.

Lemma wpa_send_intraledger req d i now tr db :
  identity_verified tr (SendPaymentReq.caller_auth req) ->
  invoice_in_hand i db -> Invoice.payment_hash i = DecodedInvoice.payment_hash d ->
  Preimage.payment_hash (Invoice.payment_preimage i) = DecodedInvoice.payment_hash d ->
  request_hash (BoltInvoice.as_str (DecodedInvoice.bolt_invoice d))
    (DecodedInvoice.payment_hash d) ->
  wpa (send_intraledger_payment req d i now) tr db
    (fun r _ db' => intraledger_outcome d (SendPaymentReq.wallet_id req) r db').
Proof.
  intros Hid Hi Hh Hpre Hreq. unfold send_intraledger_payment, try_bind at 1.
  apply wpa_bind, wpa_ownership; [done | intros; by apply wpa_ret; left |].
  intros tr1 db1 Htr1 Hf1 Hown. apply (invoice_in_hand_future _ _ _ Hf1) in Hi.
  case_decide as Hself; [by apply wpa_ret; left |]. unfold try_bind at 1, pure_ at 1.
  apply wpa_bind, wpa_ret. destruct (recipient_guard _ _ _) as [[] | e] eqn:Hguard.
  2: { apply wpa_ret. unfold recipient_guard in Hguard.
    destruct (Invoice.state i) eqn:Hs; [case_decide | | |]; simplify_eq; try by left.
    right. rewrite <- Hh. by apply settled_recorded. }
  assert (Hopen : Invoice.state i = InvoiceState.Open).
  { unfold recipient_guard in Hguard. by destruct (Invoice.state i). }
  apply wpa_bind, wpa_call; [done |]. intros db2 uuid tr2 Hf2 _ Htr2 _. unfold try_bind at 1.
  apply wpa_bind, wpa_ret.
  destruct (NewPayment.try_new_intraledger _ _ _ _ _) as [n | e] eqn:Hn; cbn [map_err].
  2: { apply wpa_ret. left. by eapply try_new_intraledger_error. }
  destruct (try_new_intraledger_fields _ _ _ _ _ _ Hn) as (Hnh & Hnw & Hnb & Hfee).
  apply wpa_bind, wpa_call.
  { intros db3 _ _. eexists _, _. split; [by apply (ownership_checked_mono tr1) | done]. }
  intros db3 auth tr3 Hf3 _ Htr3 Hauth. destruct auth as [resp | e]; [| by apply wpa_ret; left].
  destruct (SymphonyAuthorizeResponse.status resp) eqn:Hst; [| by apply wpa_ret; left].
  assert (Hf13 : future db1 db3) by by etransitivity.
  apply (invoice_in_hand_future _ _ _ Hf13) in Hi.
  eapply wpa_transfer; try done.
  - apply (ownership_checked_mono tr1); [set_solver | exact Hown].
  - exists resp. by split; [exact Hauth |].
  - done.
  - done.
Qed.

(** A decoded invoice carries its text, and the hash of the request. *)
Lemma decode_text pr now d :
  decode_bolt11_at pr now = Ok d -> DecodedInvoice.bolt_invoice d = BoltInvoice.new pr.
Proof.
  unfold decode_bolt11_at. destruct (bolt11_from_str pr) as [inv |]; [| done]. simpl.
  destruct (would_expire _ _); [done |]. destruct (array_try_from _); [| done]. simpl.
  by intros [= <-].
Qed.

Lemma decode_error pr now e db : decode_bolt11_at pr now = Err e -> refused pr e db.
Proof.
  unfold decode_bolt11_at. destruct (bolt11_from_str pr) as [inv |]; [| by intros [= <-]]. simpl.
  destruct (would_expire _ _); [by intros [= <-] |].
  destruct (array_try_from _); [done |]. by intros [= <-].
Qed.

(** What the caller of [send_payment] learns is so. *)
Definition send_outcome (text : string) (w : WalletId.t) (r : result Payment.t AppError.t)
    (db : DbState) : Prop :=
  match r with
  | Ok p =>
      exists n, request_hash text (NewPayment.payment_hash n) /\
        NewPayment.bolt_invoice n = BoltInvoice.new text /\ NewPayment.wallet_id n = w /\
        intent_stored n db /\ reported (NewPayment.payment_hash n) p db
  | Err e => refused text e db
  end.

Lemma intraledger_send_outcome text now d w r db :
  decode_bolt11_at text now = Ok d -> intraledger_outcome d w r db -> send_outcome text w r db.
Proof.
  intros Hd. assert (Hr : request_hash text (DecodedInvoice.payment_hash d)) by by exists now, d.
  destruct r as [p | e]; simpl.
  - intros (n & Hh & Hw & Hb & Hint & Hrep). exists n. rewrite Hh.
    split_and!; [done | by rewrite Hb; apply decode_text in Hd | done | done | done].
  - intros [Hc | Hpaid]; [by eapply conflict_refused |].
    destruct e as [| [] | | | | | |]; try done. simpl.
    exists (DecodedInvoice.payment_hash d). auto.
Qed.

Lemma wpa_send_payment req tr db :
  identity_verified tr (SendPaymentReq.caller_auth req) ->
  wpa (send_payment str_debug req) tr db (fun r _ db' =>
    send_outcome (SendPaymentReq.payment_request req) (SendPaymentReq.wallet_id req) r db').
Proof.
  intros Hid. unfold send_payment. apply wpa_now. intros now db1 tr1 _ Htr1.
  apply (identity_verified_mono _ _ _ Htr1) in Hid. unfold try_bind at 1.
  apply wpa_bind, wpa_ownership; [done | intros; by apply wpa_ret |].
  intros tr2 db2 Htr2 _ Hown. apply (identity_verified_mono _ _ _ Htr2) in Hid.
  unfold try_bind at 1, decode_bolt11.
  apply wpa_bind, wpa_now. intros now' db3 tr3 _ Htr3. apply wpa_ret.
  apply (identity_verified_mono _ _ _ Htr3) in Hid.
  destruct (decode_bolt11_at _ _) as [d | e] eqn:Hd.
  2: { apply wpa_ret. by eapply decode_error. }
  assert (Hreq : request_hash (SendPaymentReq.payment_request req) (DecodedInvoice.payment_hash d))
    by by exists now', d.
  pose proof (decode_text _ _ _ Hd) as Htext.
  assert (Hbolt : request_hash (BoltInvoice.as_str (DecodedInvoice.bolt_invoice d))
                    (DecodedInvoice.payment_hash d)) by by rewrite Htext.
  unfold try_bind at 1, map_err_ at 1.
  apply wpa_bind, wpa_bind, wpa_find_maybe_invoice.
  - intros e tr4 db4 _ _. by apply wpa_ret, wpa_ret.
  - intros tr4 db4 Htr4 _. apply wpa_ret. cbn [map_err]. unfold try_bind at 1.
    apply wpa_bind, wpa_ret.
    destruct (DecodedInvoice.amount_msat d) as [a |] eqn:Ha; cbn [ok_or]; [| by apply wpa_ret].
    apply wpa_bind, wpa_call; [done |]. intros db5 uuid tr5 _ _ Htr5 _. unfold try_bind at 1.
    apply wpa_bind, wpa_ret.
    destruct (NewPayment.try_new _ _ _ _ _ _) as [n | e] eqn:Hn; cbn [map_err].
    2: { apply wpa_ret. eapply conflict_refused; [exact Hreq | by eapply try_new_error]. }
    destruct (try_new_fields _ _ _ _ _ _ _ Ha Hn) as (Eh & Ew & _ & _ & Eb & _).
    eapply wpa_mono; [eapply wpa_send_over_wire; [done | by eapply decode_amount_wf | done | | done] |].
    { apply (ownership_checked_mono tr2); [set_solver | done]. }
    intros [p | e] tr6 db6 Hr; simpl; [| by eapply conflict_refused].
    exists n. rewrite Eh. destruct Hr as [Hint Hrep].
    split_and!; [done | by rewrite Eb; apply decode_text in Hd | done | done | done].
  - intros i tr4 db4 Htr4 _ Hi Hh Hpre. apply wpa_ret. cbn [map_err].
    eapply wpa_mono; [apply wpa_send_intraledger; [| done ..] |].
    + by apply (identity_verified_mono tr3).
    + intros r tr6 db6 Hr. by eapply intraledger_send_outcome.
Qed.

Lemma wpa_fee_probe req tr db :
  identity_verified tr (FeeProbeRequest.caller_auth req) ->
  wpa (fee_probe_use_case req) tr db (fun _ _ _ => True).
Proof.
  intros Hid. unfold fee_probe_use_case, try_bind, map_err_, decode_bolt11.
  apply wpa_bind, wpa_ownership; [done | intros; finish_safe |]. intros tr1 db1 _ _ Hown.
  apply wpa_bind, wpa_now. intros now db2 tr2 _ Htr2. apply wpa_ret.
  destruct (decode_bolt11_at _ _) as [d | e]; [| finish_safe].
  apply wpa_bind, wpa_bind, wpa_call.
  { intros db3 _ _. eexists. by apply (ownership_checked_mono tr1). }
  intros; finish_safe.
Qed.
End Send.
