(* ===== verification/InvoiceSafety.v ===== *)
(** The inbound handlers are safe: invoice creation, the hold-invoice settlement and its
    reconciliation, the reaction to LND's invoice updates, and the boot-time recovery of
    listeners.  What the main theorem says of them follows from [allowed]: LND learns a
    preimage only for an invoice the gateway has recorded as held and LND has just
    reported accepted, and a hold invoice is registered under the digest of a freshly
    drawn preimage. *)
From S2P Require Import Prelude Primitives Fees EsEntity Concrete.
From S2P Require Import PaymentEntity InvoiceEntity Outbox Lnd Symphony Wallet Effects App.
From S2P Require Import AppPayment AppInvoice Jobs Ledger Evidence Safety SendSafety.

Section Inbound.
Context `{HexLaws} `{Sha256} `{UuidText} `{Bolt11} `{EventStoreLaws}.
Context `{PR : !EsRepo Payments.desc} `{PRL : !EsRepoLaws (d := Payments.desc)}.
Context `{IR : !EsRepo Invoices.desc} `{IRL : !EsRepoLaws (d := Invoices.desc)}.
Context `{RowOrder} (mode : Mode).

(** A loaded held invoice stays recorded as held. *)
Lemma held_recorded i db :
  invoice_in_hand i db ->
  Invoice.state i = InvoiceState.Held ->
  exists st, invoices db !! Invoice.payment_hash i = Some st /\
    existsb InvoiceEvent.is_HtlcHeld (st_events st) = true.
Proof.
  intros [([ph Hwf] & st & Hst & _ & _ & [es Hpre]) Hnew] Hheld.
  exists st. split; [done |]. destruct Hwf as (_ & Hlog & Hs & _).
  assert (ph = PhHeld) as -> by (rewrite Hheld in Hs; by destruct ph).
  apply invoice_log_marks in Hlog as (Hmark & _).
  rewrite iter_all_split, Hnew, app_nil_r in Hmark.
  rewrite Hpre, existsb_app, Hmark. done.
Qed.

(** Settling on LND and committing it, the accepted branch of both handlers. *)
Lemma wpa_settle_accepted i h upd amt tr db :
  invoice_in_hand i db ->
  Invoice.state i = InvoiceState.Held -> Invoice.payment_hash i = h ->
  Preimage.payment_hash (Invoice.payment_preimage i) = h ->
  Ev (Call (LndLookupInvoice h)) (Ok upd) ∈ tr ->
  InvoiceUpdate.state upd = LndInvoiceState.Accepted ->
  wpa (let?! _ := map_err_ AppError.Lnd
                    (call (LndSettleInvoice (Invoice.payment_preimage i))) in
       commit_settle i h amt) tr db (fun _ _ _ => True).
Proof.
  intros Hi Hheld Hh Hpre Hup Hacc. unfold try_bind, map_err_.
  apply wpa_bind, wpa_bind, wpa_call.
  { intros db1 Hf1 _. apply (invoice_in_hand_future _ _ _ Hf1) in Hi.
    destruct (held_recorded _ _ Hi Hheld) as (st & Hst & Hm).
    rewrite Hh in Hst. exists h, st, upd. by split_and!. }
  intros db1 r tr1 Hf1 _ _ Hdone. apply wpa_ret. destruct r as [[] | e]; [| finish_safe].
  cbn [map_err]. apply (invoice_in_hand_future _ _ _ Hf1) in Hi.
  apply wpa_commit_settle; try done. intros t. left. by exists (Invoice.payment_preimage i).
Qed.

Lemma settle_hold_invoice_safe h : safe (settle_hold_invoice h).
Proof.
  intros tr db. unfold settle_hold_invoice.
  apply wpa_bind, wpa_find_invoice; [intros; finish_safe |].
  intros i tr1 db1 _ _ Hi Hh Hpre. case_decide as Hst; [finish_safe |].
  apply wpa_bind, wpa_bind, wpa_call; [done |]. intros db2 r tr2 Hf2 _ _ Hup. apply wpa_ret.
  destruct r as [upd | e]; [| finish_safe]. cbn [map_err].
  apply (invoice_in_hand_future _ _ _ Hf2) in Hi.
  destruct (InvoiceUpdate.state upd) eqn:Hus; [finish_safe | | |].
  - by eapply wpa_settle_accepted.
  - apply wpa_commit_settle; try done. intros t. right. by exists upd.
  - apply wpa_commit_cancel; try done. intros t. split; [done |]. left. by exists upd.
Qed.

Lemma reconcile_held_invoice_safe h : safe (reconcile_held_invoice h).
Proof.
  intros tr db. unfold reconcile_held_invoice.
  apply wpa_bind, wpa_find_invoice; [intros; finish_safe |].
  intros i tr1 db1 _ _ Hi Hh Hpre. case_decide as Hst; [finish_safe |].
  apply wpa_bind, wpa_bind, wpa_call; [done |]. intros db2 r tr2 Hf2 _ _ Hup. apply wpa_ret.
  destruct r as [upd | e]; [| finish_safe]. cbn [map_err].
  apply (invoice_in_hand_future _ _ _ Hf2) in Hi.
  destruct (InvoiceUpdate.state upd) eqn:Hus; [finish_safe | | |].
  - by eapply wpa_settle_accepted.
  - apply wpa_commit_settle; try done. intros t. right. by exists upd.
  - apply wpa_commit_cancel; try done. intros t. split; [done |]. left. by exists upd.
Qed.

Lemma wpa_handle_invoice_update u tr db :
  Ev (Call RecvInvoiceUpdate) u ∈ tr ->
  wpa (handle_invoice_update u) tr db (fun _ _ _ => True).
Proof.
  intros Hu. unfold handle_invoice_update.
  apply wpa_bind, wpa_find_invoice; [intros; finish_safe |].
  intros i tr1 db1 Htr1 _ Hi Hh _. apply wpa_now. intros now db2 tr2 Hf2 Htr2.
  assert (Hu2 : Ev (Call RecvInvoiceUpdate) u ∈ tr2) by set_solver.
  apply (invoice_in_hand_future _ _ _ Hf2) in Hi.
  destruct (InvoiceUpdate.state u) eqn:Hus; [finish_safe | | finish_safe |].
  - apply wpa_bind, wpa_transition_to_held; [done | done | by exists u |]. apply anytime_safe.
    intros [[] | e]; [| finish_safe]. apply safe_bind; [apply settle_hold_invoice_safe |].
    intros; finish_safe.
  - apply wpa_commit_cancel; try done. intros t. split; [done |]. right. by exists u.
Qed.

Lemma invoice_update_turn_safe : safe invoice_update_turn.
Proof.
  intros tr db. apply wpa_bind, wpa_call; [done |]. intros db1 u tr1 _ _ _ Hu.
  by apply wpa_handle_invoice_update.
Qed.

(** ** Creation *)

Lemma new_invoice_fields uuid h pre w amt exp bolt ext now n :
  NewInvoice.try_new uuid h pre w amt exp bolt ext now = Ok n ->
  NewInvoice.payment_hash n = h /\ NewInvoice.payment_preimage n = pre /\
  NewInvoice.wallet_id n = w /\ NewInvoice.amount_msat n = amt /\
  NewInvoice.bolt_invoice n = bolt.
Proof. unfold NewInvoice.try_new. case_match; [case_match |]; try done; by intros [= <-]. Qed.

(** The stored log of an invoice starts with its initial event, for ever. *)
Definition invoice_stored (n : NewInvoice.t) (db : DbState) : Prop :=
  exists st es, invoices db !! NewInvoice.payment_hash n = Some st /\
                st_events st = NewInvoice.initial_event n :: es.

Lemma invoice_stored_future n db1 db2 :
  future db1 db2 -> invoice_stored n db1 -> invoice_stored n db2.
Proof.
  intros (_ & Hf & _) (st & es & Hst & Hev).
  destruct (Hf _ _ Hst) as (st' & Hst' & _ & [es' Hpre]).
  exists st', (es ++ es'). split; [done |]. by rewrite Hpre, Hev.
Qed.

Lemma wpa_create_invoice_row n tr db Q :
  Preimage.payment_hash (NewInvoice.payment_preimage n) = NewInvoice.payment_hash n ->
  invoice_evidence tr (NewInvoice.payment_hash n) (NewInvoice.initial_event n) ->
  (forall e tr' db', tr ⊆ tr' -> future db db' -> Q (Err e) tr' db') ->
  (forall tr' db', tr ⊆ tr' -> future db db' -> invoice_stored n db' ->
     Q (Ok (fresh_invoice n (ev_mark_persisted (NewInvoice.into_events n)))) tr' db') ->
  wpa (create_invoice_row n) tr db Q.
Proof.
  intros Hpre Hev Herr HQ. apply wpa_tx. intros db1 tr' Hf Hok Htr.
  split; [intros s; by apply Herr |]. intros env.
  destruct (create_in_op Invoices.desc (db_now env) n (invoices db1)) as [[i tbl] |] eqn:Hc;
    [| by apply Herr].
  apply invoice_create_outcome in Hc as (row & Hrow & Hconf & -> & ->). cbn [result_bind].
  destruct Hok as (Hp & [Hd Ht] & Hi & Hx & Ho).
  destruct (invoices_create_ok _ _ _ _ _ Hi Hx Hconf Hrow Hpre) as [Hi' Hx'].
  destruct (conflict_none _ _ Hconf) as [Hno _].
  assert (Hfut : future db1 (MkDb (payments db1)
            (<[ NewInvoice.payment_hash n :=
                 Stored (NewInvoice.id n) row [NewInvoice.initial_event n] ]> (invoices db1))
            (outbox db1))).
  { split; [done |]. split; [| done]. apply log_grows_insert. intros old Hold. congruence. }
  assert (Ht' : transfers_match (payments db1)
            (<[ NewInvoice.payment_hash n :=
                 Stored (NewInvoice.id n) row [NewInvoice.initial_event n] ]> (invoices db1))).
  { apply transfers_match_invoice_write; [done |]. unfold transfer_received. by rewrite Hno. }
  split.
  { apply justified_invoice_write with (es := [NewInvoice.initial_event n]).
    - unfold log_of. by rewrite Hno.
    - by apply Forall_singleton. }
  split; [by split_and! |]. split; [done |].
  split; [| intros s; apply Herr; [done | by etransitivity]].
  apply HQ; [done | by etransitivity |]. eexists _, []. simpl. by rewrite lookup_insert_eq.
Qed.

(** What the caller of [create_invoice] learns is so. *)
Definition created_outcome (req : NewInvoiceRequest.t) (tr : gw_trace)
    (r : result Invoice.t AppError.t) (db : DbState) : Prop :=
  match r with
  | Ok i =>
      exists n, invoice_stored n db /\
        NewInvoice.wallet_id n = NewInvoiceRequest.wallet_id req /\
        NewInvoice.amount_msat n = Some (NewInvoiceRequest.amount_msat req) /\
        Invoice.payment_hash i = NewInvoice.payment_hash n /\
        Invoice.bolt_invoice i = NewInvoice.bolt_invoice n /\
        Invoice.amount_msat i = NewInvoice.amount_msat n /\
        ownership_checked tr (NewInvoiceRequest.wallet_id req) /\
        Ev (Call (SpawnListener (NewInvoice.payment_hash n))) tt ∈ tr
  | Err _ => True
  end.

Lemma wpa_create_invoice req tr db :
  identity_verified tr (NewInvoiceRequest.caller_auth req) ->
  wpa (create_invoice mode req) tr db (fun r tr' db' => created_outcome req tr' r db').
Proof.
  intros Hid. unfold create_invoice, try_bind, map_err_, pure_.
  apply wpa_now. intros now db1 tr1 _ Htr1. apply (identity_verified_mono _ _ _ Htr1) in Hid.
  apply wpa_bind, wpa_ownership; [done | intros; finish_safe |]. intros tr2 db2 _ _ Hown.
  apply wpa_bind, wpa_call; [done |]. intros db3 random tr3 _ _ Htr3 Hrand.
  apply wpa_bind, wpa_ret. destruct (resolve_external_id _ _) as [ext | e]; [| finish_safe].
  cbn [map_err]. apply wpa_bind, wpa_bind, wpa_call.
  { intros db4 _ _. split.
    - eexists. by apply (ownership_checked_mono tr2).
    - exists random. by split. }
  intros db4 r tr4 _ _ Htr4 Hadd. apply wpa_ret. destruct r as [resp | e]; [| finish_safe].
  cbn [map_err]. apply wpa_bind, wpa_call; [done |]. intros db5 uuid tr5 _ _ Htr5 _.
  apply wpa_bind, wpa_ret. destruct (NewInvoice.try_new _ _ _ _ _ _ _ _ _) as [n | e] eqn:Hn;
    [| finish_safe].
  destruct (new_invoice_fields _ _ _ _ _ _ _ _ _ _ Hn) as (Hh & Hp & Hw & Ha & Hb). cbn [map_err].
  destruct mode; [| finish_safe].
  apply wpa_bind, wpa_bind, wpa_create_invoice_row;
    [by rewrite Hh, Hp | | intros; finish_safe |].
  { simpl. split; [done |]. rewrite Hh, Hp, Hw, Ha, Hb. split.
    - apply (ownership_checked_mono tr2); [set_solver | done].
    - eexists random, _, resp. split; [set_solver |]. split; [done |]. split; [done |].
      split; [apply Htr5, Hadd | done]. }
  intros tr6 db6 Htr6 _ Hrow. apply wpa_ret. cbn [map_err]. apply wpa_bind, wpa_call.
  - intros db7 Hf7 _. destruct (invoice_stored_future _ _ _ Hf7 Hrow) as (st & es & Hst & _).
    by exists st.
  - intros db7 r7 tr7 Hf7 Hok7 Htr7 Hspawn. destruct r7. apply wpa_ret. exists n.
    split; [by apply (invoice_stored_future _ db6) |]. split_and!; try done.
    apply (ownership_checked_mono tr2); [set_solver | done].
Qed.

(** ** The jobs *)

Lemma reconcile_each_safe hs : safe (reconcile_each hs).
Proof.
  induction hs as [| h hs IH]; cbn [reconcile_each]; [intros tr db; finish_safe |].
  apply safe_bind; [apply reconcile_held_invoice_safe | done].
Qed.

Lemma safe_read {A E} (lost : SqlxError -> E) q : safe (read (A := A) lost q).
Proof. intros tr db. by apply wpa_read. Qed.

Lemma invoice_reconciliation_run_safe : safe invoice_reconciliation_run.
Proof.
  unfold invoice_reconciliation_run, try_bind. apply safe_bind; [apply safe_read |].
  intros [held | e]; [| finish_safe].
  apply safe_bind; [apply reconcile_each_safe | intros; finish_safe].
Qed.

(** Every invoice the recovery loads has a stored row. *)
Definition all_stored (l : list Invoice.t) (db : DbState) : Prop :=
  Forall (fun i => is_Some (invoices db !! Invoice.payment_hash i)) l.

Lemma all_stored_future l db1 db2 : future db1 db2 -> all_stored l db1 -> all_stored l db2.
Proof.
  intros (_ & Hf & _) Hl. eapply Forall_impl; [exact Hl |]. intros i [st Hst].
  destruct (Hf _ _ Hst) as (st' & Hst' & _). by exists st'.
Qed.

Lemma wpa_load_each rows tr db :
  wpa (load_each rows) tr db (fun l _ db' => all_stored l db').
Proof.
  revert tr db. induction rows as [| h rows IH]; intros tr db; cbn [load_each].
  - apply wpa_ret. constructor.
  - apply wpa_bind, wpa_find_invoice.
    + intros e tr' db' _ _. apply wpa_bind. eapply wpa_mono; [apply IH |].
      intros l tr2 db2 Hl. by apply wpa_ret.
    + intros i tr' db' _ _ Hi Hh _. apply wpa_bind. eapply wpa_mono; [apply wpa_past, IH |].
      intros l tr2 db2 [Hf Hl]. apply wpa_ret. constructor; [| done].
      destruct Hi as [(_ & st & Hst & _) _]. destruct Hf as (_ & Hf & _).
      destruct (Hf _ _ Hst) as (st' & Hst' & _). by exists st'.
Qed.

Lemma spawn_each_safe l tr db :
  all_stored l db -> wpa (spawn_each l) tr db (fun _ _ _ => True).
Proof.
  revert tr db. induction l as [| i l IH]; intros tr db Hl; cbn [spawn_each]; [finish_safe |].
  apply wpa_bind, wpa_call.
  - intros db1 Hf _. apply (all_stored_future _ _ _ Hf) in Hl. by apply Forall_cons in Hl as [? _].
  - intros db1 [] tr' Hf _ _ _. apply IH. apply (all_stored_future _ _ _ Hf) in Hl.
    by apply Forall_cons in Hl as [_ ?].
Qed.

Lemma invoice_subscription_recovery_run_safe : safe invoice_subscription_recovery_run.
Proof.
  intros tr db. unfold invoice_subscription_recovery_run, run_invoice_subscription_recovery_sweep,
    list_open_invoices, try_bind.
  apply wpa_bind, wpa_bind, wpa_bind, wpa_read. intros db1 tr1 _ _ _.
  split; [intros; finish_safe |]. apply wpa_bind. eapply wpa_mono; [apply wpa_load_each |].
  intros l tr2 db2 Hl. apply wpa_ret, wpa_bind. eapply wpa_mono; [by apply spawn_each_safe |].
  intros; finish_safe.
Qed.
End Inbound.
