(* ===== verification/MutationSafety.v ===== *)
(** The GraphQL mutations are safe: a client is told only what the database records.  The
    outcome of each use case, carried through the resolver, is what [truthful] asks of the
    payload the handler sends. *)
From S2P Require Import Prelude Primitives Fees EsEntity Concrete GraphqlTypes Jwks.
From S2P Require Import PaymentEntity InvoiceEntity Outbox Lnd Symphony Wallet Effects App.
From S2P Require Import Grpc AppPayment AppInvoice Mutation.
From S2P Require Import Ledger Evidence Safety SendSafety InvoiceSafety.

Section Mutations.
Context `{HexLaws} `{Sha256} `{UuidText} `{TonicText} `{ErrorText} `{Bolt11} `{EventStoreLaws}.
Context `{PR : !EsRepo Payments.desc} `{PRL : !EsRepoLaws (d := Payments.desc)}.
Context `{IR : !EsRepo Invoices.desc} `{IRL : !EsRepoLaws (d := Invoices.desc)}.
Context `{RowOrder} (mode : Mode).

(** What is true of an answer stays true. *)
Lemma payment_for_future text w log db1 db2 :
  (forall es es', log es = true -> log (es ++ es') = true) -> future db1 db2 ->
  payment_for text w log db1 -> payment_for text w log db2.
Proof.
  intros Hlog (Hf & _) (n & st & es & Hr & Hb & Hw & Hst & Hev & Hl).
  destruct (Hf _ _ Hst) as (st' & Hst' & _ & es' & Hpre).
  exists n, st', (es ++ es'). split_and!; try done; [| by apply Hlog].
  by rewrite Hpre, Hev.
Qed.

Lemma already_paid_future text db1 db2 :
  future db1 db2 -> already_paid text db1 -> already_paid text db2.
Proof.
  intros (Hp & Hi & _) (h & Hr & Hex). exists h. split; [done |].
  destruct Hex as [[st Hst] | (st & Hst & Hpaid)].
  - destruct (Hp _ _ Hst) as (st' & Hst' & _). left. by exists st'.
  - destruct (Hi _ _ Hst) as (st' & Hst' & _ & es & Hpre). right. exists st'. split; [done |].
    unfold paid_log in *. rewrite Hpre, !existsb_app.
    apply orb_true_iff in Hpaid as [-> | ->]; simpl; by rewrite ?orb_true_r.
Qed.

Lemma truthful_future tr db1 db2 req resp :
  future db1 db2 -> truthful tr db1 req resp -> truthful tr db2 req resp.
Proof.
  intros Hf. destruct req as [input | input | input], resp as [[errs [inv |]] | [errs st t] | p | m];
    try done; simpl.
  - intros (n & st & es & Hst & Hev & Hrest). destruct (proj1 (proj2 Hf) _ _ Hst)
      as (st' & Hst' & _ & es' & Hpre).
    exists n, st', (es ++ es'). split; [done |]. split; [by rewrite Hpre, Hev | done].
  - destruct errs; [| done]. destruct st as [[] |]; try done.
    + by apply already_paid_future.
    + apply payment_for_future; [| done]. intros es es'. rewrite !existsb_app.
      intros [-> | ->]%orb_true_iff; simpl; by rewrite ?orb_true_r.
    + by apply payment_for_future.
    + apply payment_for_future; [| done]. intros es es'. rewrite existsb_app. by intros ->.
Qed.

(** The payload of a send reports its outcome. *)
Lemma send_payload_truthful tr db input r :
  send_outcome (LnPaymentRequest.text (LnInvoicePaymentInput.payment_request input))
    (GqlWalletId.wallet (LnInvoicePaymentInput.wallet_id input)) r db ->
  truthful tr db (ReqPay input) (RespPay (send_payload r)).
Proof.
  destruct r as [p | e]; simpl.
  - intros (n & Hr & Hb & Hw & (st & es & Hst & Hev) & Hrep).
    destruct (reported_log _ _ _ Hrep) as (st' & Hst' & Hc & Hf).
    rewrite Hst in Hst'. injection Hst' as <-. rewrite Hev in Hc, Hf. simpl in Hc, Hf.
    destruct (Payment.state p); simpl; exists n, st, es; split_and!; auto.
  - destruct e as [| [] | | | | | |]; simpl; done.
Qed.

Lemma wpa_ln_invoice_create ctx input tr db :
  identity_verified tr (caller_auth ctx) ->
  wpa (ln_invoice_create mode ctx input) tr db
    (fun resp tr' db' => truthful tr' db' (ReqCreate input) resp).
Proof.
  intros Hid. unfold ln_invoice_create. destruct (negb _); [by apply wpa_ret |].
  apply wpa_bind. eapply wpa_mono; [by apply wpa_create_invoice |].
  intros [i | e] tr' db'; [| by intros _; apply wpa_ret].
  intros (n & (st & es & Hst & Hev) & Hw & Ha & Hh & Hb & Hamt & Hown & Hspawn).
  unfold expect. rewrite Hamt, Ha. apply wpa_ret. exists n, st, es.
  unfold new_invoice_request in *. simpl in *.
  split_and!; try done. by rewrite Hh, Hb.
Qed.

Lemma wpa_ln_invoice_payment_send ctx input tr db :
  identity_verified tr (caller_auth ctx) ->
  wpa (ln_invoice_payment_send ctx input) tr db
    (fun resp tr' db' => truthful tr' db' (ReqPay input) resp).
Proof.
  intros Hid. unfold ln_invoice_payment_send. destruct (negb _); [by apply wpa_ret |].
  apply wpa_bind. eapply wpa_mono; [by apply wpa_send_payment |].
  intros r tr' db' Hr. apply wpa_ret. by apply send_payload_truthful.
Qed.

Lemma wpa_ln_invoice_fee_probe ctx input tr db :
  identity_verified tr (caller_auth ctx) ->
  wpa (ln_invoice_fee_probe ctx input) tr db
    (fun resp tr' db' => truthful tr' db' (ReqProbe input) resp).
Proof.
  intros Hid. unfold ln_invoice_fee_probe. destruct (negb _); [by apply wpa_ret |].
  apply wpa_bind. eapply wpa_mono; [by apply wpa_fee_probe |].
  intros [a | e] tr' db' _; by apply wpa_ret.
Qed.

(** The identity of a request is verified, or empty. *)
Lemma wpa_authenticate authorization tr db Q :
  (forall caller tr' db', tr ⊆ tr' -> future db db' ->
     identity_verified tr' (caller_auth (RequestData true caller)) -> Q caller tr' db') ->
  wpa (authenticate authorization) tr db Q.
Proof.
  intros HQ. unfold authenticate. destruct (bearer_token authorization) as [token |].
  - apply wpa_bind, wpa_call; [done |]. intros db1 r tr1 Hf _ Htr Hev. apply wpa_ret.
    destruct r as [[sub] | e]; apply HQ; try done; [| by left].
    right. exact Hev.
  - apply wpa_ret, HQ; [set_solver | reflexivity | by left].
Qed.

Lemma graphql_handler_safe configured authorization request :
  safe (graphql_handler mode configured authorization request).
Proof.
  intros tr db. unfold graphql_handler. apply wpa_bind, wpa_authenticate.
  intros caller tr1 db1 _ _ Hid. apply wpa_bind.
  assert (Hexec : wpa (execute mode (RequestData configured caller) request) tr1 db1
    (fun resp tr' db' => truthful tr' db' request resp)).
  { destruct request; simpl.
    - by apply wpa_ln_invoice_create.
    - by apply wpa_ln_invoice_payment_send.
    - by apply wpa_ln_invoice_fee_probe. }
  eapply wpa_mono; [exact Hexec |]. intros resp tr2 db2 Ht. apply wpa_call; [| done].
  intros db3 Hf _. by apply (truthful_future _ db2).
Qed.
End Mutations.
