(* ===== verification/Gateway.v ===== *)
(** The main theorems: the gateway as the set of its handlers, run concurrently in any
    number and any interleaving, with transactions that may be lost before or after their
    commit and a world that answers anything.  Each theorem reads one consequence of the
    invariant and of the safety specification off the adequacy of the logic. *)
From S2P Require Import Prelude Primitives Fees EsEntity Concrete GraphqlTypes Jwks.
From S2P Require Import PaymentEntity InvoiceEntity Outbox Lnd Symphony Wallet Effects App.
From S2P Require Import Grpc AppPayment AppInvoice Mutation Jobs.
From S2P Require Import Ledger Evidence Safety SendSafety InvoiceSafety MutationSafety.

Section Gateway.
Context `{HexLaws} `{Sha256} `{UuidText} `{TonicText} `{ErrorText} `{Bolt11} `{EventStoreLaws}.
Context `{PR : !EsRepo Payments.desc} `{PRL : !EsRepoLaws (d := Payments.desc)}.
Context `{IR : !EsRepo Invoices.desc} `{IRL : !EsRepoLaws (d := Invoices.desc)}.
Context `{RowOrder} (mode : Mode).

Definition discard {A} (p : app A) : app unit := let! _ := p in Ret tt.

(** What may be started at any time: a GraphQL request, the two LND subscriptions'
    handlers, the jobs. *)
Inductive gateway_handler : app unit -> Prop :=
| gh_graphql configured authorization request :
    gateway_handler (graphql_handler mode configured authorization request)
| gh_payment_update : gateway_handler (discard payment_update_turn)
| gh_invoice_update : gateway_handler (discard invoice_update_turn)
| gh_settle_hold h : gateway_handler (discard (settle_hold_invoice h))
| gh_reconcile h : gateway_handler (discard (reconcile_held_invoice h))
| gh_reconciliation_run : gateway_handler (discard invoice_reconciliation_run)
| gh_orphan_hold_run : gateway_handler (discard orphan_hold_run)
| gh_recovery_run : gateway_handler (discard invoice_subscription_recovery_run).

Lemma discard_safe {A} (p : app A) : safe p -> safe (discard p).
Proof. intros Hp. apply safe_bind; [done | intros; apply safe_ret]. Qed.

Lemma handler_safe p : gateway_handler p -> safe p.
Proof.
  destruct 1; [apply graphql_handler_safe | ..]; apply discard_safe.
  - apply payment_update_turn_safe.
  - apply invoice_update_turn_safe.
  - apply settle_hold_invoice_safe.
  - apply reconcile_held_invoice_safe.
  - apply invoice_reconciliation_run_safe.
  - unfold orphan_hold_run, try_bind. apply safe_bind; [apply sweep_orphan_holds_safe |].
    intros; finish_safe.
  - apply invoice_subscription_recovery_run_safe.
Qed.

Notation gateway_reaches := (reachable gateway_handler).

(** Everything the logic says of a reachable configuration. *)
Lemma gateway_adequacy db0 c :
  db_ok db0 -> gateway_reaches (db0, []) c ->
  db_ok c.1 /\ future db0 c.1 /\
  forall i x k tr, c.2 !! i = Some (Thread (Do x k) tr) -> allowed tr c.1 x.
Proof.
  intros Hok Hr. apply (adequacy ext_resp TxEnv DbState db_ok future allowed gateway_handler);
    [| done | done]. intros p Hp db _. by apply handler_safe.
Qed.

Lemma gateway_ok c : gateway_reaches (empty_db, []) c -> db_ok c.1.
Proof. intros Hr. apply (gateway_adequacy empty_db c empty_db_ok Hr). Qed.

(** Along a run the storage only grows. *)
Lemma gateway_future c c' :
  gateway_reaches (empty_db, []) c -> gateway_reaches c c' -> future c.1 c'.1.
Proof.
  intros Hr Hr'. apply (run_future ext_resp TxEnv DbState db_ok future allowed gateway_handler
    empty_db c c'); [| apply empty_db_ok | done | done].
  intros p Hp db _. by apply handler_safe.
Qed.

(** C1. The transactional outbox, for payments: whatever the interleaving, the lost
    connections and the answers of LND and Symphony, the rows of the outbox that concern
    a payment hash are, in order, exactly what the event log of that payment announces -
    no event is missing, duplicated or out of order, and there is none for a hash without
    a payment. *)
Theorem outbox_mirrors_payments c h :
  gateway_reaches (empty_db, []) c ->
  announced payment_class (PaymentHash.to_hex h) (outbox c.1) =
  match payments c.1 !! h with
  | Some st => payment_announcements (st_events st)
  | None => []
  end.
Proof.
  intros (Hp & _)%gateway_ok. specialize (Hp h). destruct (payments c.1 !! h); [| done].
  by destruct Hp.
Qed.

(** C12. The transactional outbox, for invoices. *)
Theorem outbox_mirrors_invoices c h :
  gateway_reaches (empty_db, []) c ->
  map fst (announced invoice_class (PaymentHash.to_hex h) (outbox c.1)) =
  match invoices c.1 !! h with
  | Some st => omap invoice_announcement (st_events st)
  | None => []
  end.
Proof.
  intros (_ & _ & Hi & _)%gateway_ok. specialize (Hi h). destruct (invoices c.1 !! h).
  - by destruct Hi.
  - by rewrite Hi.
Qed.

(** C11. The projection agrees with the event logs: every stored log hydrates, to an aggregate
    whose log is a path of the lifecycle, and the columns of its row - state included -
    are that aggregate's; a stored invoice's preimage hashes to its key; no two invoices
    of a wallet share an external id. *)
Theorem rows_match_logs c :
  gateway_reaches (empty_db, []) c ->
  (forall h st, payments c.1 !! h = Some st -> payment_row_ok h st) /\
  (forall h st, invoices c.1 !! h = Some st -> invoice_row_ok h st) /\
  external_ids_unique (invoices c.1).
Proof.
  intros (Hp & _ & Hi & Hx & _)%gateway_ok. split; [| split; [| exact Hx]].
  - intros h st Hst. specialize (Hp h). rewrite Hst in Hp. by destruct Hp.
  - intros h st Hst. specialize (Hi h). rewrite Hst in Hi. by destruct Hi.
Qed.

(** What the stored state of a payment has announced. *)
Definition notifications (p : Payment.t) : list GatewayDomainEvent.t :=
  let il := is_intraledger (Payment.max_fee_msat p) in
  let completed := if il then GatewayDomainEvent.LightningIntraledgerTransferCompleted
                   else GatewayDomainEvent.LightningPaymentCompleted in
  (if il then [] else [GatewayDomainEvent.LightningPaymentInitiated]) ++
  match Payment.state p with
  | PaymentState.Initiated | PaymentState.Pending => []
  | PaymentState.Completed => [completed]
  | PaymentState.Failed => [GatewayDomainEvent.LightningPaymentFailed]
  | PaymentState.Reversed => [completed; GatewayDomainEvent.LightningPaymentReversed]
  end.

(** C10. The subscribers' view of a payment is a function of its current state: one
    [Initiated] for an over-the-wire payment, none for an intraledger one, then one
    outcome exactly when the payment has one.  So no consumer ever sees a payment both
    completed and failed, or two outcomes, whatever was retried or raced. *)
Theorem notifications_follow_state c h p :
  gateway_reaches (empty_db, []) c ->
  find_by_payment_hash Payments.desc h (payments c.1) = Ok p ->
  announced payment_class (PaymentHash.to_hex h) (outbox c.1) =
    map (fun k => (k, sat_i64 (Payment.amount_msat p))) (notifications p).
Proof.
  intros Hr Hfind. pose proof (gateway_ok c Hr) as (Hp & _). specialize (Hp h).
  rewrite find_by_payment_hash_spec in Hfind.
  destruct (payments c.1 !! h) as [st |]; [| done].
  destruct Hp as ((p' & Hp' & [_ Hlog] & _) & ->). simpl in Hfind. rewrite Hp' in Hfind.
  injection Hfind as ->. rewrite (PaymentTheory.try_from_events_events _ _ Hp'), iter_all_load in Hlog.
  destruct (payment_log_head _ _ Hlog) as (n & es & Hn & Hes).
  destruct (PaymentTheory.hydrate_identity _ _ n es Hp') as (_ & _ & Ha & Hf);
    [by rewrite iter_all_load | done |].
  rewrite Hn. unfold notifications, payment_announcements. simpl. rewrite Ha, Hf.
  rewrite Hn in Hlog. f_equal. f_equal.
  by apply (payment_log_announces _ n).
Qed.

(** Nothing is ever lost or rewritten: along any run, rows are never deleted, event logs
    and the outbox only grow at their end, and an entity keeps its id. *)
Theorem storage_append_only c c' :
  gateway_reaches (empty_db, []) c -> gateway_reaches c c' ->
  log_grows (payments c.1) (payments c'.1) /\ log_grows (invoices c.1) (invoices c'.1) /\
  outbox c.1 `prefix_of` outbox c'.1.
Proof. apply gateway_future. Qed.

(** Money only leaves under an approved hold: whenever a handler is about to ask LND to
    pay, the payment's intent is in the database under its hash with exactly this
    invoice and fee limit (so it is announced, by the outbox theorem), this run has
    checked that the caller owns the paying wallet, and Symphony has approved a spend of
    that wallet under this hash, for at least amount plus fee limit and less than one
    satoshi above it. *)
Theorem lnd_send_is_authorized c i params k tr :
  gateway_reaches (empty_db, []) c ->
  c.2 !! i = Some (Thread (Do (Call (LndSendPayment params)) k) tr) ->
  exists n req st es,
    params = SendPaymentParams.mk (NewPayment.bolt_invoice n) (NewPayment.max_fee_msat n) 60 /\
    payments c.1 !! NewPayment.payment_hash n = Some st /\
    st_events st = NewPayment.initial_event n :: es /\
    ownership_checked tr (NewPayment.wallet_id n) /\
    spend_approved tr req /\
    spend_of (NewPayment.wallet_id n) (NewPayment.payment_hash n) req /\
    hold_covers req (NewPayment.amount_msat n) (NewPayment.max_fee_msat n).
Proof.
  intros Hr Hi. destruct (gateway_adequacy _ _ empty_db_ok Hr) as (_ & _ & Hall).
  exact (Hall _ _ _ _ Hi).
Qed.

(** A preimage is revealed to LND only for an invoice the gateway has recorded as held,
    whose hash this preimage has, and which LND reported accepted in this very run. *)
Theorem preimage_released_only_if_accepted c i pre k tr :
  gateway_reaches (empty_db, []) c ->
  c.2 !! i = Some (Thread (Do (Call (LndSettleInvoice pre)) k) tr) ->
  exists h st upd,
    Preimage.payment_hash pre = h /\ invoices c.1 !! h = Some st /\
    existsb InvoiceEvent.is_HtlcHeld (st_events st) = true /\
    Ev (Call (LndLookupInvoice h)) (Ok upd) ∈ tr /\
    InvoiceUpdate.state upd = LndInvoiceState.Accepted.
Proof.
  intros Hr Hi. destruct (gateway_adequacy _ _ empty_db_ok Hr) as (_ & _ & Hall).
  exact (Hall _ _ _ _ Hi).
Qed.

(** C18. The gateway cancels an invoice on LND only to complete an intraledger transfer to it:
    the invoice is its own, the caller owns the sending wallet, which is not the
    recipient's, and Symphony has approved (and so posted) the transfer under this
    hash. *)
Theorem cancel_only_after_approved_transfer c i h k tr :
  gateway_reaches (empty_db, []) c ->
  c.2 !! i = Some (Thread (Do (Call (LndCancelInvoice h)) k) tr) ->
  exists st sender req,
    invoices c.1 !! h = Some st /\
    ownership_checked tr sender /\ sender <> InvoiceRow.wallet_id (st_row st) /\
    spend_approved tr req /\ spend_of sender h req.
Proof.
  intros Hr Hi. destruct (gateway_adequacy _ _ empty_db_ok Hr) as (_ & _ & Hall).
  exact (Hall _ _ _ _ Hi).
Qed.

(** No handler ever reaches its [expect]: the held amount is always there when a held
    invoice settles. *)
Theorem handlers_never_panic c i msg k tr :
  gateway_reaches (empty_db, []) c ->
  c.2 !! i <> Some (Thread (Do (Call (Panic msg)) k) tr).
Proof.
  intros Hr Hi. destruct (gateway_adequacy _ _ empty_db_ok Hr) as (_ & _ & Hall).
  exact (Hall _ _ _ _ Hi).
Qed.

(** C17. No one acts for a wallet it does not own: every spend asked of Symphony, every hold
    invoice registered on LND and every fee probe is preceded, in its run, by a
    successful ownership check - for a spend, of the very wallet it debits; and a hold
    invoice is registered under the hash of a preimage drawn in this run. *)
Theorem effects_need_ownership c i x k tr :
  gateway_reaches (empty_db, []) c ->
  c.2 !! i = Some (Thread (Do (Call x) k) tr) ->
  match x with
  | AuthorizeSpend req =>
      exists w h, ownership_checked tr w /\ spend_of w h req
  | LndAddHoldInvoice params =>
      (exists w, ownership_checked tr w) /\
      exists random : array 32,
        Ev (Call FillBytes) random ∈ tr /\
        AddHoldInvoiceParams.payment_hash params = Preimage.payment_hash (Preimage.new random)
  | LndFeeProbe _ => exists w, ownership_checked tr w
  | _ => True
  end.
Proof.
  intros Hr Hi. destruct (gateway_adequacy _ _ empty_db_ok Hr) as (_ & _ & Hall).
  specialize (Hall _ _ _ _ Hi). by destruct x.
Qed.

(** C19. Intraledger transfers are atomic: no transaction ever sees the payment of one before
    it has completed. *)
Theorem intraledger_never_seen_initiated c h p :
  gateway_reaches (empty_db, []) c ->
  find_by_payment_hash Payments.desc h (payments c.1) = Ok p ->
  Payment.max_fee_msat p = MilliSatoshi.ZERO ->
  Payment.state p = PaymentState.Completed \/ Payment.state p = PaymentState.Reversed.
Proof.
  intros Hr Hfind Hz. destruct (gateway_ok c Hr) as (Hp & [Hd _] & _).
  destruct (find_payment_knows _ _ _ Hp Hd Hfind) as (_ & _ & _ & Hil).
  apply Hil. by apply bool_decide_eq_true_2.
Qed.

(** C16. Nobody borrows an identity: the caller of every ownership check is the subject that a
    verified bearer token of this very request names, with that token, or the empty
    identity, which owns nothing. *)
Theorem identity_is_verified c i caller w k tr :
  gateway_reaches (empty_db, []) c ->
  c.2 !! i = Some (Thread (Do (Call (CheckOwnership caller w)) k) tr) ->
  identity_verified tr caller.
Proof.
  intros Hr Hi. destruct (gateway_adequacy _ _ empty_db_ok Hr) as (_ & _ & Hall).
  exact (Hall _ _ _ _ Hi).
Qed.

(** C15. An intraledger transfer settles both aggregates or none: a payment with the zero fee
    limit is stored under a hash exactly when the invoice of that hash is stored and was
    settled without LND - on every database any transaction can see. *)
Theorem intraledger_settles_both c h :
  gateway_reaches (empty_db, []) c ->
  (exists p, find_by_payment_hash Payments.desc h (payments c.1) = Ok p /\
     Payment.max_fee_msat p = MilliSatoshi.ZERO) <->
  (exists i, find_by_payment_hash Invoices.desc h (invoices c.1) = Ok i /\
     Invoice.state i = InvoiceState.Settled /\
     existsb InvoiceEvent.is_SettledIntraledger (iter_all (Invoice.events i)) = true).
Proof.
  intros Hr. destruct (gateway_ok c Hr) as (Hp & [_ Ht] & Hi & _).
  rewrite (transfer_sent_found _ _ _ Hp), (transfer_received_found _ _ _ Hi). by rewrite Ht.
Qed.
End Gateway.

(** * Runs

    Closed runs of the handlers over the concrete instances: an over-the-wire payment, an
    incoming payment held and settled, and an intraledger transfer. *)

Section Runs.
#[local] Existing Instance list_hex.
#[local] Existing Instance list_hex_laws.
#[local] Existing Instance list_sha.
#[local] Existing Instance list_uuid.
#[local] Existing Instance list_store.
#[local] Existing Instance list_store_laws.
#[local] Existing Instance map_row_order.
#[local] Instance plain_tonic : TonicText := {| status_to_string s := message s |}.
#[local] Instance plain_errors : ErrorText :=
  {| create_error_to_string _ _ := "create failed"; modify_error_to_string _ := "update failed";
     find_error_to_string _ := "find failed"; str_debug s := s |}.
#[local] Instance plain_bolt11 : Bolt11 :=
  {| Bolt11Invoice := byte;
     bolt11_from_str s := Ok (if String.eqb s "lnbc-local" then x09 else x01);
     would_expire _ _ := false;
     bolt11_payment_hash b := repeat b 32;
     payee_pub_key _ := None;
     recover_payee_pub_key b := [b];
     amount_milli_satoshis _ := Some 5000000%Z |}.
#[local] Instance payments_repo : EsRepo Payments.desc := table_repo Payments.desc.
#[local] Instance payments_repo_laws : EsRepoLaws (d := Payments.desc) :=
  table_repo_laws Payments.desc.
#[local] Instance invoices_repo : EsRepo Invoices.desc := table_repo Invoices.desc.
#[local] Instance invoices_repo_laws : EsRepoLaws (d := Invoices.desc) :=
  table_repo_laws Invoices.desc.

Let handler : app unit -> Prop := gateway_handler Live.

(** The world's answers: everything is granted, LND pays and holds. *)
Definition kind_answer (e : ext) : option (ext_resp e) :=
  match e return option (ext_resp e) with
  | Now => Some (Timestamp.new 5)
  | FreshUuid => Some (bytes_of x07 16)
  | FillBytes => Some (bytes_of x09 32)
  | CheckOwnership _ _ => Some (Ok tt)
  | AuthorizeSpend _ =>
      Some (Ok (SymphonyAuthorizeResponse.mk SymphonyAuthorizeStatus.Approved None None))
  | LndSendPayment _ =>
      Some (Ok (SendPaymentResponse.mk (hash_of x01) (Some (preimage_of x01))
                  SendPaymentStatus.Succeeded (MilliSatoshi.new 1000) [] None))
  | LndCancelInvoice _ => Some (Ok tt)
  | LndSettleInvoice _ => Some (Ok tt)
  | LndLookupInvoice h =>
      Some (Ok (InvoiceUpdate.mk h LndInvoiceState.Accepted (MilliSatoshi.new 5000000) None))
  | LndLookupPayment h => None
  | LndAddHoldInvoice _ => Some (Ok (MkAddHoldInvoiceResponse (BoltInvoice.new "lnbc-local")))
  | LndFeeProbe _ => None
  | SpawnListener _ => Some tt
  | DecodeJwt _ => Some (Ok (MkJwtClaims "sub"))
  | Respond _ _ => Some tt
  | RecvPaymentUpdate => None
  | RecvInvoiceUpdate =>
      Some (InvoiceUpdate.mk (hash_of x09) LndInvoiceState.Accepted (MilliSatoshi.new 5000000)
              None)
  | Panic _ => None
  end.

Definition kind_world (nextval : Z) : world ext_resp TxEnv :=
  World kind_answer (MkEnv (Timestamp.new 5) (Timestamp.new 6) nextval) NoFault.

Definition kind_worlds (from : Z) (n : nat) : list (world ext_resp TxEnv) :=
  map (fun i => kind_world (from + Z.of_nat i)) (seq 0 n).

Definition request (r : GraphqlRequest) : app unit :=
  graphql_handler Live true (Some (Some "Bearer jwt")) r.

Definition pay_input (text : string) : LnInvoicePaymentInput.t :=
  LnInvoicePaymentInput.mk None (LnPaymentRequest.mk text) (GqlWalletId.mk (wallet_of x02)).

Definition pay : app unit := request (ReqPay (pay_input "lnbc-remote")).
Definition pay_local : app unit := request (ReqPay (pay_input "lnbc-local")).
Definition receive : app unit :=
  request (ReqCreate (LnInvoiceCreateInput.mk (SatAmount.mk 5000) (Some (Minutes.mk 60)) None
                        None (GqlWalletId.mk (wallet_of x03)))).
Definition accepted : app unit := discard invoice_update_turn.

(** A property of the database a handler leaves after [n] effects, by evaluation. *)
Definition after {A} (from : Z) (n : nat) (p : app A) (db : DbState)
    (check : app A -> DbState -> bool) : bool :=
  match advance (kind_worlds from n) p db with
  | Some (q, _, db') => check q db'
  | None => false
  end.

Lemma after_reachable from n p db (check : app unit -> DbState -> bool) c0 ts :
  handler p -> reachable handler c0 (db, ts) -> after from n p db check = true ->
  exists q tr db', check q db' = true /\ reachable handler c0 (db', ts ++ [Thread q tr]).
Proof.
  intros Hp Hr. unfold after. destruct (advance _ p db) as [[[q tr] db'] |] eqn:Ha; [| done].
  intros Hc. exists q, tr, db'. split; [done |]. by eapply advance_reachable.
Qed.

Definition kinds_are (cls : GatewayDomainEvent.t -> bool) (h : PaymentHash.t)
    (ks : list GatewayDomainEvent.t) (db : DbState) : bool :=
  bool_decide (map fst (announced cls (PaymentHash.to_hex h) (outbox db)) = ks).

(** The over-the-wire payment: nine effects from the clock to the committed outcome. *)
Lemma paid_reachable :
  exists c p, reachable handler (empty_db, []) c /\
    find_by_payment_hash Payments.desc (hash_of x01) (payments c.1) = Ok p /\
    map fst (announced payment_class (PaymentHash.to_hex (hash_of x01)) (outbox c.1)) =
      [GatewayDomainEvent.LightningPaymentInitiated;
       GatewayDomainEvent.LightningPaymentCompleted].
Proof.
  destruct (after_reachable 1 10 pay empty_db
    (fun _ db =>
       is_ok (find_by_payment_hash Payments.desc (hash_of x01) (payments db)) &&
       kinds_are payment_class (hash_of x01)
         [GatewayDomainEvent.LightningPaymentInitiated;
          GatewayDomainEvent.LightningPaymentCompleted] db) (empty_db, []) [])
    as (q & tr & db' & Hc & Hr); [apply gh_graphql | apply rtc_refl | by vm_compute |].
  apply andb_true_iff in Hc as [Hf Hk]. apply bool_decide_eq_true_1 in Hk.
  destruct (find_by_payment_hash Payments.desc (hash_of x01) (payments db')) as [p |] eqn:Hp;
    [| done].
  by exists (db', [Thread q tr]), p.
Qed.

Example outbox_mirrors_payments_witness :
  exists c, reachable handler (empty_db, []) c /\
    match payments c.1 !! hash_of x01 with
    | Some st => payment_announcements (st_events st) <> []
    | None => False
    end.
Proof.
  destruct paid_reachable as (c & p & Hr & Hp & Hk). exists c. split; [exact Hr |].
  pose proof (outbox_mirrors_payments Live c (hash_of x01) Hr) as Heq.
  destruct (payments c.1 !! hash_of x01); rewrite Heq in Hk; [| done].
  intros Hnil. by rewrite Hnil in Hk.
Defined.

Example notifications_follow_state_witness :
  exists c p, reachable handler (empty_db, []) c /\
    map fst (announced payment_class (PaymentHash.to_hex (hash_of x01)) (outbox c.1)) =
      notifications p.
Proof.
  destruct paid_reachable as (c & p & Hr & Hp & _). exists c, p. split; [exact Hr |].
  rewrite (notifications_follow_state Live c _ p Hr Hp), map_map. apply map_id.
Defined.

Example rows_match_logs_witness :
  exists c st, reachable handler (empty_db, []) c /\
    payments c.1 !! hash_of x01 = Some st /\ payment_row_ok (hash_of x01) st.
Proof.
  destruct paid_reachable as (c & p & Hr & Hp & _).
  rewrite find_by_payment_hash_spec in Hp.
  destruct (payments c.1 !! hash_of x01) as [st |] eqn:Hst; [| done].
  exists c, st. split; [exact Hr |]. split; [exact Hst |].
  exact (proj1 (rows_match_logs Live c Hr) _ _ Hst).
Defined.

Example storage_append_only_witness :
  exists c, reachable handler (empty_db, []) c /\ outbox c.1 <> [] /\
    outbox (empty_db) `prefix_of` outbox c.1.
Proof.
  destruct paid_reachable as (c & p & Hr & _ & Hk). exists c. split; [exact Hr |].
  split; [intros Hnil; by rewrite Hnil in Hk |].
  exact (proj2 (proj2 (storage_append_only Live (empty_db, []) c
           (rtc_refl _ _) Hr))).
Defined.

(** The same payment just before its seventh effect's continuation calls LND. *)
Lemma sending_reachable :
  exists c params k tr, reachable handler (empty_db, []) c /\
    c.2 !! 0 = Some (Thread (Do (Call (LndSendPayment params)) k) tr).
Proof.
  destruct (after_reachable 1 8 pay empty_db
    (fun q _ => match q with Do (Call (LndSendPayment _)) _ => true | _ => false end)
    (empty_db, []) []) as (q & tr & db' & Hc & Hr);
    [apply gh_graphql | apply rtc_refl | by vm_compute |].
  destruct q as [| [[] |] k]; try done. by eexists (db', [Thread _ _]), _, _, _.
Qed.

Example lnd_send_is_authorized_witness :
  exists (tr : gw_trace) req, spend_approved tr req.
Proof.
  destruct sending_reachable as (c & params & k & tr & Hr & Hi).
  destruct (lnd_send_is_authorized Live c 0 params k tr Hr Hi)
    as (n & req & st & es & _ & _ & _ & _ & Ha & _).
  by exists tr, req.
Defined.

Example effects_need_ownership_witness :
  exists c x k (tr : gw_trace), reachable handler (empty_db, []) c /\
    c.2 !! 0 = Some (Thread (Do (Call (AuthorizeSpend x)) k) tr) /\
    exists w, ownership_checked tr w.
Proof.
  destruct (after_reachable 1 7 pay empty_db
    (fun q _ => match q with Do (Call (AuthorizeSpend _)) _ => true | _ => false end)
    (empty_db, []) []) as (q & tr & db' & Hc & Hr);
    [apply gh_graphql | apply rtc_refl | by vm_compute |].
  destruct q as [| [[] |] k]; try done.
  eexists (db', [Thread _ _]), _, _, _. split; [exact Hr |]. split; [reflexivity |].
  destruct (effects_need_ownership Live _ 0 (AuthorizeSpend _) _ _ Hr eq_refl)
    as (w & _ & Hw & _).
  by exists w.
Defined.

Example handlers_never_panic_witness :
  exists c k (tr : gw_trace), reachable handler (empty_db, []) c /\
    c.2 !! 0 <> Some (Thread (Do (Call (Panic "settle")) k) tr).
Proof.
  destruct paid_reachable as (c & _ & Hr & _).
  exists c, (fun r : Empty_set => match r with end), []. split; [exact Hr |].
  apply (handlers_never_panic Live). exact Hr.
Defined.

(** An invoice is created by one handler, then a second handler runs. *)
Lemma after_receive n p (check : app unit -> DbState -> bool) :
  handler p ->
  after 10 8 receive empty_db (fun _ db => after 20 n p db check) = true ->
  exists t q tr db', check q db' = true /\
    reachable handler (empty_db, []) (db', [t; Thread q tr]).
Proof.
  intros Hp Hrun.
  destruct (after_reachable 10 8 receive empty_db _ (empty_db, []) []
              (gh_graphql _ _ _ _) (rtc_refl _ _) Hrun) as (q1 & tr1 & db1 & H2 & Hr1).
  destruct (after_reachable 20 n p db1 check _ _ Hp Hr1 H2) as (q & tr & db' & Hc & Hr).
  by exists (Thread q1 tr1), q, tr, db'.
Qed.

Example preimage_released_only_if_accepted_witness :
  exists c pre k (tr : gw_trace), reachable handler (empty_db, []) c /\
    c.2 !! 1 = Some (Thread (Do (Call (LndSettleInvoice pre)) k) tr) /\
    is_Some (invoices c.1 !! Preimage.payment_hash pre).
Proof.
  destruct (after_receive 6 accepted
    (fun q _ => match q with Do (Call (LndSettleInvoice _)) _ => true | _ => false end))
    as (t & q & tr & db' & Hc & Hr); [apply gh_invoice_update | by vm_compute |].
  destruct q as [| [[] |] k]; try done.
  eexists (db', [_; Thread _ _]), _, _, _. split; [exact Hr |]. split; [reflexivity |].
  destruct (preimage_released_only_if_accepted Live _ 1 _ _ _ Hr eq_refl)
    as (h & st & upd & <- & Hst & _).
  by exists st.
Defined.

Example outbox_mirrors_invoices_witness :
  exists c, reachable handler (empty_db, []) c /\
    match invoices c.1 !! hash_of x09 with
    | Some st => omap invoice_announcement (st_events st) =
        [GatewayDomainEvent.LightningHtlcHeld; GatewayDomainEvent.LightningInvoiceSettled]
    | None => False
    end.
Proof.
  destruct (after_receive 9 accepted
    (fun _ db => bool_decide (is_Some (invoices db !! hash_of x09)) &&
       kinds_are invoice_class (hash_of x09)
         [GatewayDomainEvent.LightningHtlcHeld; GatewayDomainEvent.LightningInvoiceSettled] db))
    as (t & q & tr & db' & Hc & Hr); [apply gh_invoice_update | by vm_compute |].
  apply andb_true_iff in Hc as [Hs%bool_decide_eq_true_1 Hk%bool_decide_eq_true_1].
  exists (db', [t; Thread q tr]). split; [exact Hr |].
  pose proof (outbox_mirrors_invoices Live _ (hash_of x09) Hr) as Heq.
  simpl in *. rewrite Hk in Heq. destruct Hs as [st Hst]. by rewrite Hst in *.
Defined.

Example cancel_only_after_approved_transfer_witness :
  exists c h k (tr : gw_trace), reachable handler (empty_db, []) c /\
    c.2 !! 1 = Some (Thread (Do (Call (LndCancelInvoice h)) k) tr) /\
    exists req, spend_approved tr req.
Proof.
  destruct (after_receive 8 pay_local
    (fun q _ => match q with Do (Call (LndCancelInvoice _)) _ => true | _ => false end))
    as (t & q & tr & db' & Hc & Hr); [apply gh_graphql | by vm_compute |].
  destruct q as [| [[] |] k]; try done.
  eexists (db', [_; Thread _ _]), _, _, _. split; [exact Hr |]. split; [reflexivity |].
  destruct (cancel_only_after_approved_transfer Live _ 1 _ _ _ Hr eq_refl)
    as (st & sender & req & _ & _ & _ & Ha & _).
  by exists req.
Defined.

Example intraledger_never_seen_initiated_witness :
  exists c p, reachable handler (empty_db, []) c /\
    find_by_payment_hash Payments.desc (hash_of x09) (payments c.1) = Ok p /\
    (Payment.state p = PaymentState.Completed \/ Payment.state p = PaymentState.Reversed).
Proof.
  destruct (after_receive 10 pay_local
    (fun _ db =>
       match find_by_payment_hash Payments.desc (hash_of x09) (payments db) with
       | Ok p => bool_decide (Payment.max_fee_msat p = MilliSatoshi.ZERO)
       | Err _ => false
       end)) as (t & q & tr & db' & Hc & Hr); [apply gh_graphql | by vm_compute |].
  destruct (find_by_payment_hash Payments.desc (hash_of x09) (payments db')) as [p |] eqn:Hp;
    [| done].
  apply bool_decide_eq_true_1 in Hc.
  exists (db', [t; Thread q tr]), p. split; [exact Hr |]. split; [exact Hp |].
  exact (intraledger_never_seen_initiated Live _ _ p Hr Hp Hc).
Defined.

Example identity_is_verified_witness :
  exists c caller w k (tr : gw_trace), reachable handler (empty_db, []) c /\
    c.2 !! 0 = Some (Thread (Do (Call (CheckOwnership caller w)) k) tr) /\
    identity_verified tr caller.
Proof.
  destruct (after_reachable 1 2 pay empty_db
    (fun q _ => match q with Do (Call (CheckOwnership _ _)) _ => true | _ => false end)
    (empty_db, []) []) as (q & tr & db' & Hc & Hr);
    [apply gh_graphql | apply rtc_refl | by vm_compute |].
  destruct q as [| [[] |] k]; try done.
  eexists (db', [Thread _ _]), _, _, _, _. split; [exact Hr |]. split; [reflexivity |].
  exact (identity_is_verified Live _ 0 _ _ _ _ Hr eq_refl).
Defined.

Example intraledger_settles_both_witness :
  exists c i, reachable handler (empty_db, []) c /\
    find_by_payment_hash Invoices.desc (hash_of x09) (invoices c.1) = Ok i /\
    Invoice.state i = InvoiceState.Settled.
Proof.
  destruct (after_receive 10 pay_local
    (fun _ db =>
       match find_by_payment_hash Payments.desc (hash_of x09) (payments db) with
       | Ok p => bool_decide (Payment.max_fee_msat p = MilliSatoshi.ZERO)
       | Err _ => false
       end)) as (t & q & tr & db' & Hc & Hr); [apply gh_graphql | by vm_compute |].
  destruct (find_by_payment_hash Payments.desc (hash_of x09) (payments db')) as [p |] eqn:Hp;
    [| done].
  apply bool_decide_eq_true_1 in Hc.
  destruct (proj1 (intraledger_settles_both Live _ (hash_of x09) Hr)) as (i & Hi & Hs & _);
    [by exists p |].
  by exists (db', [t; Thread q tr]), i.
Defined.
End Runs.
