(* ===== verification/Reload.v ===== *)
(** What is saved is what is loaded.

    A repository stores an aggregate as its event log and rebuilds it by hydration.
    [Hydrates] is what the two entities promise of hydration; from it and the laws of the
    repository, for any entity: what [create_in_op] and [update_in_op] hand back is what
    [find_by_payment_hash] gives from then on, and no other row is touched.  The theorem
    puts the handlers' pattern on top - load, run commands in memory, save while others
    have written - for payments and invoices. *)
From S2P Require Import Prelude Primitives Fees EsEntity Concrete.
From S2P Require Import PaymentEntity InvoiceEntity Outbox Lnd Symphony Wallet Effects App Ledger.
From S2P Require Import Gateway.

(** Hydration reads the log and the id only, and [set_events] replaces nothing else. *)
Class Hydrates `{EventStore} {Ent New Ev Id Row Col} (d : repo_desc Ent New Ev Id Row Col) :
    Prop := {
  hydrate_events evs ent : d_try_from_events d evs = Ok ent -> d_events d ent = evs;
  hydrate_set evs evs' ent :
    iter_all evs' = iter_all evs -> ev_id evs' = ev_id evs ->
    d_try_from_events d evs = Ok ent ->
    d_try_from_events d evs' = Ok (d_set_events d evs' ent);
  events_set evs ent : d_events d (d_set_events d evs ent) = evs;
  set_set evs evs' ent : d_set_events d evs (d_set_events d evs' ent) = d_set_events d evs ent
}.

Section Reload.
Context `{EventStoreLaws} {Ent New Ev Id Row Col} (d : repo_desc Ent New Ev Id Row Col).
Context `{R : !EsRepo d} `{RL : !EsRepoLaws (d := d)} `{!Hydrates d}.
Implicit Types (ent : Ent) (tbl : table Row Id Ev) (h : PaymentHash.t).

(** The row of [h] gives back [ent] - every field, and the same events, none of them
    pending - and the other rows are those of [old]. *)
Definition reloads h ent tbl (old : table Row Id Ev) : Prop :=
  (exists r, find_by_payment_hash d h tbl = Ok r /\
     r = d_set_events d (d_events d r) ent /\
     iter_persisted (d_events d r) = iter_persisted (d_events d ent) /\
     iter_new (d_events d r) = [] /\ iter_new (d_events d ent) = []) /\
  forall h', h' <> h -> tbl !! h' = old !! h'.

Lemma created_reloads now n tbl ent tbl' :
  create_in_op d now n tbl = Ok (ent, tbl') -> reloads (d_new_key d n) ent tbl' tbl.
Proof.
  intros Hc. pose proof (create_in_op_spec (d := d) now n tbl) as Hspec.
  destruct (d_insert_row d now n) as [row |]; [| congruence].
  destruct (d_conflict d n tbl) as [col |]; [destruct Hspec as [v Hv]; congruence |].
  rewrite Hspec in Hc. set (evs := ev_mark_persisted (d_into_events d n)) in *.
  cbv zeta in Hc. destruct (d_try_from_events d evs) as [e |] eqn:Hh; cbn in Hc; [| done].
  injection Hc as -> <-.
  pose proof (hydrate_events _ _ Hh) as He.
  split; [| intros h' Hne; apply lookup_insert_ne; congruence].
  set (loaded := ev_load (ev_id evs) (iter_persisted evs)).
  exists (d_set_events d loaded ent).
  rewrite find_by_payment_hash_spec, lookup_insert_eq. cbn. fold loaded.
  rewrite (hydrate_set evs loaded ent); [| | by apply ev_id_load | done].
  - rewrite events_set, He. unfold loaded, evs. by autorewrite with events.
  - unfold loaded. rewrite iter_all_load, iter_all_split. unfold evs.
    by rewrite iter_new_mark, app_nil_r.
Qed.

Lemma updated_reloads ent tbl st ent' tbl' :
  d_try_from_events d (d_events d ent) = Ok ent ->
  iter_new (d_events d ent) <> [] ->
  tbl !! d_key d ent = Some st -> st_id st = ev_id (d_events d ent) ->
  iter_persisted (d_events d ent) `prefix_of` st_events st ->
  update_in_op d ent tbl = Ok (ent', tbl') -> reloads (d_key d ent) ent' tbl' tbl.
Proof.
  intros Hco Hnew Hst Hid Hpre. rewrite (update_in_op_spec (d := d) ent tbl st) by done.
  case_decide as Hlen; [| done]. intros [= <- <-].
  assert (Hev : st_events st = iter_persisted (d_events d ent)).
  { symmetry. apply (prefix_length_eq _ _ Hpre). lia. }
  split; [| intros h' Hne; apply lookup_insert_ne; congruence].
  set (loaded := ev_load (st_id st) (st_events st ++ iter_new (d_events d ent))).
  exists (d_set_events d loaded ent).
  rewrite find_by_payment_hash_spec, lookup_insert_eq. cbn. fold loaded.
  rewrite (hydrate_set (d_events d ent) loaded ent); [| | by unfold loaded; rewrite ev_id_load | done].
  - rewrite !events_set, set_set. unfold loaded. rewrite Hev. by autorewrite with events.
  - unfold loaded. by rewrite iter_all_load, iter_all_split, Hev.
Qed.
End Reload.
Arguments reloads {_ Ent New Ev Id Row Col} d {_} h ent tbl old.

Section Aggregates.
Context `{HexLaws} `{Sha256} `{UuidText} `{EventStoreLaws}.
Context `{PR : !EsRepo Payments.desc} `{PRL : !EsRepoLaws (d := Payments.desc)}.
Context `{IR : !EsRepo Invoices.desc} `{IRL : !EsRepoLaws (d := Invoices.desc)}.

#[export] Instance payments_hydrate : Hydrates Payments.desc.
Proof.
  split; [apply PaymentTheory.try_from_events_events | apply PaymentTheory.try_from_events_set | |];
    done.
Qed.

#[export] Instance invoices_hydrate : Hydrates Invoices.desc.
Proof.
  split; [apply InvoiceTheory.invoice_try_from_events_events
         | apply InvoiceTheory.invoice_try_from_events_set | |]; done.
Qed.

(** Commands in memory keep what is known of the stored log. *)
Lemma knows_payment_commands cs p db : knows_payment p db -> knows_payment (run_commands cs p) db.
Proof.
  intros Hk. apply (run_commands_inv (fun q => knows_payment q db));
    [| apply Hk | done].
  intros c q _ Hq. by apply knows_payment_command.
Qed.

Lemma knows_invoice_commands cs i db :
  knows_invoice i db -> knows_invoice (run_invoice_commands cs i) db.
Proof.
  intros Hk. apply (run_invoice_commands_inv (fun j => knows_invoice j db));
    [| apply Hk | done].
  intros c j _ Hj. by apply knows_invoice_command.
Qed.

Lemma payment_commands_key cs p :
  PaymentTheory.wf p -> Payment.payment_hash (run_commands cs p) = Payment.payment_hash p.
Proof.
  intros Hwf. apply (run_commands_inv (fun q => Payment.payment_hash q = Payment.payment_hash p));
    [| done | done].
  intros c q Hq <-. by destruct (run_command_identity c q Hq) as (_ & <- & _).
Qed.

Lemma invoice_commands_key cs i :
  InvoiceTheory.wf i ->
  Invoice.payment_hash (run_invoice_commands cs i) = Invoice.payment_hash i.
Proof.
  intros Hwf.
  apply (run_invoice_commands_inv (fun j => Invoice.payment_hash j = Invoice.payment_hash i));
    [| done | done].
  intros c j Hj <-. by destruct (run_invoice_command_identity c j Hj) as (_ & <- & _).
Qed.

(** Saving what is known gives it back. *)
Lemma payment_save_reloads q db q' tbl :
  knows_payment q db -> iter_new (Payment.events q) <> [] ->
  update_in_op Payments.desc q (payments db) = Ok (q', tbl) ->
  reloads Payments.desc (Payment.payment_hash q) q' tbl (payments db).
Proof.
  intros ([Hco _] & st & Hst & Hid & Hpre) Hnew.
  by apply (updated_reloads Payments.desc q (payments db) st).
Qed.

Lemma invoice_save_reloads j db j' tbl :
  knows_invoice j db -> iter_new (Invoice.events j) <> [] ->
  update_in_op Invoices.desc j (invoices db) = Ok (j', tbl) ->
  reloads Invoices.desc (Invoice.payment_hash j) j' tbl (invoices db).
Proof.
  intros ((ph & Hco & _) & st & Hst & Hid & _ & Hpre) Hnew.
  by apply (updated_reloads Invoices.desc j (invoices db) st).
Qed.

(** C28. The round trip through the event store.  What a creation hands back, and what a
    save of an aggregate - loaded earlier, taken through any commands in memory that left
    something to write, other handlers having written since - hands back, is what loading
    the hash then gives: every field of the aggregate and every event of its log, for
    payments and for invoices; and the rows of the other hashes are untouched. *)
Theorem saved_aggregates_reload db1 db2 :
  db_ok db1 -> future db1 db2 ->
  (forall now n p tbl, create_in_op Payments.desc now n (payments db2) = Ok (p, tbl) ->
     reloads Payments.desc (NewPayment.payment_hash n) p tbl (payments db2)) /\
  (forall h p cs q tbl, find_by_payment_hash Payments.desc h (payments db1) = Ok p ->
     iter_new (Payment.events (run_commands cs p)) <> [] ->
     update_in_op Payments.desc (run_commands cs p) (payments db2) = Ok (q, tbl) ->
     reloads Payments.desc h q tbl (payments db2)) /\
  (forall now n i tbl, create_in_op Invoices.desc now n (invoices db2) = Ok (i, tbl) ->
     reloads Invoices.desc (NewInvoice.payment_hash n) i tbl (invoices db2)) /\
  (forall h i cs j tbl, find_by_payment_hash Invoices.desc h (invoices db1) = Ok i ->
     iter_new (Invoice.events (run_invoice_commands cs i)) <> [] ->
     update_in_op Invoices.desc (run_invoice_commands cs i) (invoices db2) = Ok (j, tbl) ->
     reloads Invoices.desc h j tbl (invoices db2)).
Proof.
  intros Hok Hf. pose proof Hok as (Hp & [Hd _] & Hi & _). split_and!.
  - intros now n p tbl. apply (created_reloads Payments.desc).
  - intros h p cs q tbl Hfind Hnew Hup.
    destruct (find_payment_knows _ _ _ Hp Hd Hfind) as (Hk & <- & _).
    rewrite <- (payment_commands_key cs p) by apply Hk.
    apply payment_save_reloads; [| done | done].
    by apply knows_payment_commands, (knows_payment_future _ _ _ Hf).
  - intros now n i tbl. apply (created_reloads Invoices.desc).
  - intros h i cs j tbl Hfind Hnew Hup.
    destruct (find_invoice_knows _ _ _ Hi Hfind) as (Hk & <- & _).
    rewrite <- (invoice_commands_key cs i) by apply Hk.
    apply invoice_save_reloads; [| done | done].
    by apply knows_invoice_commands, (knows_invoice_future _ _ _ Hf).
Qed.
End Aggregates.

Section Examples.
#[local] Existing Instance list_hex.
#[local] Existing Instance list_hex_laws.
#[local] Existing Instance list_sha.
#[local] Existing Instance list_uuid.
#[local] Existing Instance list_store.
#[local] Existing Instance list_store_laws.
#[local] Existing Instance map_row_order.
#[local] Existing Instance plain_tonic.
#[local] Existing Instance plain_errors.
#[local] Existing Instance plain_bolt11.
#[local] Existing Instance payments_repo.
#[local] Existing Instance payments_repo_laws.
#[local] Existing Instance invoices_repo.
#[local] Existing Instance invoices_repo_laws.

Definition pend_and_settle : list payment_command :=
  [MarkPending (Timestamp.new 7);
   Settle (preimage_of x01) (MilliSatoshi.new 1000) [] (Timestamp.new 8)].

(** An intent that is loaded, settled in memory and saved. *)
Example saved_aggregates_reload_witness :
  exists c q tbl, reachable (gateway_handler Live) (empty_db, []) c /\
    Payment.state q = PaymentState.Completed /\
    reloads Payments.desc (hash_of x01) q tbl (payments c.1).
Proof.
  destruct (after_reachable 1 7 pay empty_db
    (fun _ db =>
       match find_by_payment_hash Payments.desc (hash_of x01) (payments db) with
       | Ok p =>
           let q := run_commands pend_and_settle p in
           match iter_new (Payment.events q), update_in_op Payments.desc q (payments db) with
           | [], _ => false
           | _, Ok (q', _) => bool_decide (Payment.state q' = PaymentState.Completed)
           | _, Err _ => false
           end
       | Err _ => false
       end) (empty_db, []) [])
    as (th & tr & db & Hc & Hr); [apply gh_graphql | apply rtc_refl | by vm_compute |].
  destruct (find_by_payment_hash _ _ _) as [p |] eqn:Hp; [| done]. cbv zeta in Hc.
  destruct (iter_new _) as [| e es] eqn:Hnew; [done |].
  destruct (update_in_op _ _ _) as [[q tbl] |] eqn:Hup; [| done].
  apply bool_decide_eq_true_1 in Hc.
  exists (db, [Thread th tr]), q, tbl. split; [exact Hr |]. split; [exact Hc |].
  destruct (saved_aggregates_reload db db (gateway_ok Live _ Hr) (PreOrder_Reflexive db))
    as (_ & Hall & _).
  apply (Hall (hash_of x01) p pend_and_settle q tbl Hp); [by rewrite Hnew | exact Hup].
Defined.
End Examples.
