(* ===== verification/Provenance.v ===== *)
(** Nothing is recorded that the outside world did not say: in every configuration the
    gateway reaches, each event stored of a payment or of an invoice has its evidence, in
    the run of one handler.  The safety specification lets a transaction append only what
    the run that performs it can justify ([Evidence]); here that is carried to every
    stored log, by induction on the interleaving. *)
From S2P Require Import Prelude Primitives Fees EsEntity Concrete GraphqlTypes Jwks.
From S2P Require Import PaymentEntity InvoiceEntity Outbox Lnd Symphony Wallet Effects App.
From S2P Require Import Grpc AppPayment AppInvoice Mutation Jobs.
From S2P Require Import Ledger Evidence Safety SendSafety InvoiceSafety MutationSafety Gateway.

Section Provenance.
Context `{HexLaws} `{Sha256} `{UuidText} `{TonicText} `{ErrorText} `{Bolt11} `{EventStoreLaws}.
Context `{PR : !EsRepo Payments.desc} `{PRL : !EsRepoLaws (d := Payments.desc)}.
Context `{IR : !EsRepo Invoices.desc} `{IRL : !EsRepoLaws (d := Invoices.desc)}.
Context `{RowOrder} (mode : Mode).

Notation gw_thread := (thread ext_resp TxEnv DbState).
Notation gw_step := (Effects.step (gateway_handler mode)).
Notation gateway_reaches := (reachable (gateway_handler mode)).

(** The runs [ts] hold, each event for itself, the evidence of a stored log. *)
Definition witnessed {Row Id E} (evidence : gw_trace -> PaymentHash.t -> E -> Prop)
    (ts : list gw_thread) (tbl : table Row Id E) : Prop :=
  forall h e, e ∈ log_of tbl h -> exists t, t ∈ ts /\ evidence (th_trace t) h e.

(** Every run of [ts] goes on in one of [ts']. *)
Definition runs_kept (ts ts' : list gw_thread) : Prop :=
  forall t, t ∈ ts -> exists t', t' ∈ ts' /\ th_trace t ⊆ th_trace t'.

Section Witnessed.
Context {Row Id E : Type} (evidence : gw_trace -> PaymentHash.t -> E -> Prop).
Hypothesis evidence_mono : forall tr tr' h e, tr ⊆ tr' -> evidence tr h e -> evidence tr' h e.

Lemma witnessed_kept ts ts' (tbl : table Row Id E) :
  runs_kept ts ts' -> witnessed evidence ts tbl -> witnessed evidence ts' tbl.
Proof.
  intros Hk Hw h e (t & Ht & He)%Hw. destruct (Hk t Ht) as (t' & Ht' & Hs).
  exists t'. split; [done | by eapply evidence_mono].
Qed.

Lemma witnessed_grown ts t (tbl tbl' : table Row Id E) :
  t ∈ ts -> grown_with (evidence (th_trace t)) tbl tbl' ->
  witnessed evidence ts tbl -> witnessed evidence ts tbl'.
Proof.
  intros Ht Hg Hw h e He. destruct (Hg h) as (es & Hlog & Hes).
  rewrite Hlog in He. apply elem_of_app in He as [He | He]; [by apply Hw |].
  exists t. split; [done |]. by eapply Forall_forall in Hes.
Qed.
End Witnessed.

Definition all_witnessed (c : DbState * list gw_thread) : Prop :=
  witnessed payment_evidence c.2 (payments c.1) /\
  witnessed invoice_evidence c.2 (invoices c.1).

Lemma all_witnessed_grown ts ts' t db db' :
  runs_kept ts ts' -> t ∈ ts' -> justified (th_trace t) db db' ->
  all_witnessed (db, ts) -> all_witnessed (db', ts').
Proof.
  intros Hk Ht [Hjp Hji] [Hp Hi].
  split; (eapply witnessed_grown; [exact Ht | eassumption |]);
    (eapply witnessed_kept; [| exact Hk | done]).
  - intros *. apply payment_evidence_mono.
  - intros *. apply invoice_evidence_mono.
Qed.

Lemma runs_kept_spawn ts t : runs_kept ts (ts ++ [t]).
Proof. intros t' Ht'. exists t'. split; [set_solver | done]. Qed.

Lemma runs_kept_thread ts i p tr q ev :
  ts !! i = Some (Thread p tr) -> runs_kept ts (<[ i := Thread q (tr ++ ev) ]> ts).
Proof.
  intros Hi t [j Hj]%list_elem_of_lookup. destruct (decide (i = j)) as [<- | Hne].
  - simplify_eq. exists (Thread q (tr ++ ev)). split; [| simpl; set_solver].
    apply list_elem_of_lookup. exists i. apply list_lookup_insert_eq. by eapply lookup_lt_Some.
  - exists t. split; [| done]. apply list_elem_of_lookup. exists j.
    by rewrite list_lookup_insert_ne.
Qed.

(** What one effect that is allowed does to the storage is justified by its run. *)
Lemma allowed_justified tr db x r db' :
  allowed tr db x -> sem ext_resp x db r db' -> justified tr db db'.
Proof.
  destruct x as [e | A E lost body]; simpl.
  - intros _ ->. apply justified_refl.
  - intros Ha (env & [(a & Hb & _) | [-> _]]); [by eapply Ha | apply justified_refl].
Qed.

Lemma justified_mono tr tr' db db' : tr ⊆ tr' -> justified tr db db' -> justified tr' db db'.
Proof.
  intros Hs [Hp Hi]. split; intros h; [destruct (Hp h) as (es & Hl & He) |
    destruct (Hi h) as (es & Hl & He)]; exists es; (split; [done |]);
    (eapply Forall_impl; [exact He |]); intros e.
  - by apply payment_evidence_mono.
  - by apply invoice_evidence_mono.
Qed.

Lemma step_witnessed c c' :
  gateway_reaches (empty_db, []) c -> gw_step c c' -> all_witnessed c -> all_witnessed c'.
Proof.
  intros Hr Hs Hw. destruct Hs as [db ts p Hp | db db' ts i x k tr r Hi Hsem].
  - eapply all_witnessed_grown with (t := Thread p []); [apply runs_kept_spawn | set_solver | |
      exact Hw]. apply justified_refl.
  - destruct (gateway_adequacy mode _ _ empty_db_ok Hr) as (_ & _ & Hall).
    specialize (Hall _ _ _ _ Hi).
    eapply all_witnessed_grown; [by eapply runs_kept_thread | | | exact Hw].
    + apply list_elem_of_lookup. exists i. apply list_lookup_insert_eq. by eapply lookup_lt_Some.
    + simpl. eapply justified_mono; [| by eapply allowed_justified]. set_solver.
Qed.

Lemma reachable_witnessed c : gateway_reaches (empty_db, []) c -> all_witnessed c.
Proof.
  intros Hr. pattern c. eapply (rtc_ind_r _ (empty_db, [])); [| | exact Hr].
  - split; intros h e; unfold log_of; simpl; rewrite lookup_empty; by intros ?%elem_of_nil.
  - intros c1 c2 Hr1 Hs. by apply step_witnessed.
Qed.

(** C3. Nothing is recorded of a payment that was not said: for every event stored under a
    hash, some handler's run holds its evidence.  An intent names a wallet whose ownership
    was checked and the hash of its own payment request; a payment is completed only with
    the preimage, the fees and the route of a success LND reported for this very hash -
    in answer to its send, to a lookup, or on the subscription - or, for a transfer, with
    a preimage of the hash after Symphony approved the amount; it fails only on LND's
    failure, a refusal of LND, or a refusal of Symphony; and nothing is ever reversed. *)
Theorem payment_events_justified c h st e :
  gateway_reaches (empty_db, []) c ->
  payments c.1 !! h = Some st -> e ∈ st_events st ->
  exists t, t ∈ c.2 /\ payment_evidence (th_trace t) h e.
Proof.
  intros [Hw _]%reachable_witnessed Hst He. apply Hw. unfold log_of. by rewrite Hst.
Qed.

(** C5. Nothing is recorded of an invoice that was not said: an invoice is stored only for a
    wallet whose ownership was checked, under the hash of a preimage drawn in that run and
    registered on LND, with the payment request LND answered; it is held only with the
    amount of an accepted update of LND for this hash; it is settled only when LND took
    its preimage or reported it settled; it is canceled, always as expired, only when LND
    reported it so; and settled without LND only under an approved transfer. *)
Theorem invoice_events_justified c h st e :
  gateway_reaches (empty_db, []) c ->
  invoices c.1 !! h = Some st -> e ∈ st_events st ->
  exists t, t ∈ c.2 /\ invoice_evidence (th_trace t) h e.
Proof.
  intros [_ Hw]%reachable_witnessed Hst He. apply Hw. unfold log_of. by rewrite Hst.
Qed.
End Provenance.

(** The paid request and the settled invoice of the runs of [Gateway]. *)
Section Runs.
#[local] Existing Instance list_hex.
#[local] Existing Instance list_hex_laws.
#[local] Existing Instance list_sha.
#[local] Existing Instance list_uuid.
#[local] Existing Instance list_store.
#[local] Existing Instance list_store_laws.
#[local] Existing Instance map_row_order.
#[local] Existing Instance plain_tonic.
#[local] Existing Instance plain_errors.
#[local] Existing Instance plain_bolt11.
#[local] Existing Instance payments_repo.
#[local] Existing Instance payments_repo_laws.
#[local] Existing Instance invoices_repo.
#[local] Existing Instance invoices_repo_laws.

Example payment_events_justified_witness :
  exists c t e, reachable (gateway_handler App.Live) (empty_db, []) c /\ t ∈ c.2 /\
    PaymentEvent.is_Completed e = true /\
    payment_evidence (th_trace t) (hash_of x01) e.
Proof.
  destruct (after_reachable 1 10 pay empty_db
    (fun _ db => existsb PaymentEvent.is_Completed (log_of (payments db) (hash_of x01)))
    (empty_db, []) []) as (q & tr & db & Hc & Hr);
    [apply gh_graphql | apply rtc_refl | by vm_compute |].
  apply existsb_exists in Hc as (e & He & Hcomp). unfold log_of in He.
  destruct (payments db !! hash_of x01) as [st |] eqn:Hst; [| done].
  destruct (payment_events_justified App.Live _ (hash_of x01) st e Hr Hst)
    as (t & Ht & Hev); [by apply list_elem_of_In |].
  eexists _, t, e. split; [exact Hr |]. split; [exact Ht |]. split; [exact Hcomp | exact Hev].
Defined.

Example invoice_events_justified_witness :
  exists c t e, reachable (gateway_handler App.Live) (empty_db, []) c /\ t ∈ c.2 /\
    InvoiceEvent.is_Settled e = true /\
    invoice_evidence (th_trace t) (hash_of x09) e.
Proof.
  destruct (after_receive 9 accepted
    (fun _ db => existsb InvoiceEvent.is_Settled (log_of (invoices db) (hash_of x09))))
    as (t0 & q & tr & db & Hc & Hr); [apply gh_invoice_update | by vm_compute |].
  apply existsb_exists in Hc as (e & He & Hset). unfold log_of in He.
  destruct (invoices db !! hash_of x09) as [st |] eqn:Hst; [| done].
  destruct (invoice_events_justified App.Live _ (hash_of x09) st e Hr Hst)
    as (t & Ht & Hev); [by apply list_elem_of_In |].
  eexists _, t, e. split; [exact Hr |]. split; [exact Ht |]. split; [exact Hset | exact Hev].
Defined.
End Runs.
