(* ===== verification/Finality.v ===== *)
(** What has been decided stays decided.

    Along any run of the gateway a stored aggregate only goes on: what is loaded later is
    what was loaded earlier with some more events of its lifecycle applied, and with none
    once the payment is completed or failed, the invoice settled or canceled.  The tables
    of the reversal exist, but nothing in the gateway reverses. *)
From S2P Require Import Prelude Primitives Fees EsEntity Concrete GraphqlTypes Jwks.
From S2P Require Import PaymentEntity InvoiceEntity Outbox Lnd Symphony Wallet Effects App.
From S2P Require Import Grpc AppPayment AppInvoice Mutation Jobs.
From S2P Require Import Ledger Evidence Safety SendSafety InvoiceSafety MutationSafety Gateway.
From S2P Require Import Provenance.

(** * Paths of a lifecycle *)

Inductive path {S E : Type} (step : S -> E -> S -> Prop) (s : S) : list E -> S -> Prop :=
| path_nil : path step s [] s
| path_snoc es s1 e s2 : path step s es s1 -> step s1 e s2 -> path step s (es ++ [e]) s2.

Lemma path_first {S E} (step : S -> E -> S -> Prop) s e es s' :
  path step s (e :: es) s' -> exists s1, step s e s1.
Proof.
  remember (e :: es) as l eqn:Hl. intros Hp. revert e es Hl.
  induction Hp as [| es0 s1 e0 s2 Hp IH Hs]; intros e es Hl; [done |].
  destruct es0 as [| x es0].
  - injection Hl as -> _. inversion Hp as [Hx | ? ? ? ? ? ? Hx]; subst; [by exists s2 |].
    by destruct (app_cons_not_nil _ _ _ (eq_sym Hx)).
  - injection Hl as -> _. by apply (IH e es0).
Qed.

Lemma payment_log_path l s es s' :
  payment_log l s -> payment_log (l ++ es) s' -> path payment_step s es s'.
Proof.
  intros Hl. revert s'. induction es as [| e es IH] using rev_ind; intros s' Hl'.
  - rewrite app_nil_r in Hl'. rewrite (payment_log_functional _ _ _ Hl' Hl). constructor.
  - rewrite app_assoc in Hl'. inversion Hl' as [n Heq | l0 s0 e0 s0' Hl0 Hs Heq].
    + destruct (payment_log_head _ _ Hl) as (n' & es' & -> & _).
      by destruct es', es.
    + apply app_inj_tail in Heq as [-> ->]. eapply path_snoc; [by apply IH | done].
Qed.

Lemma invoice_log_path l ph es ph' :
  invoice_log l ph -> invoice_log (l ++ es) ph' -> path invoice_step ph es ph'.
Proof.
  intros Hl. revert ph'. induction es as [| e es IH] using rev_ind; intros ph' Hl'.
  - rewrite app_nil_r in Hl'. rewrite (invoice_log_functional _ _ _ Hl' Hl). constructor.
  - rewrite app_assoc in Hl'. inversion Hl' as [n Heq | l0 s0 e0 s0' Hl0 Hs Heq].
    + destruct (invoice_log_head _ _ Hl) as (n' & es' & -> & _).
      by destruct es', es.
    + apply app_inj_tail in Heq as [-> ->]. eapply path_snoc; [by apply IH | done].
Qed.

Section Replay.
Context `{EventStoreLaws}.

(** An aggregate with more events applied. *)
Definition replay (es : list PaymentEvent.t) (p : Payment.t) : Payment.t :=
  fold_left (fun p e => PaymentTheory.project e p) es p.
Definition replay_invoice (es : list InvoiceEvent.t) (i : Invoice.t) : Invoice.t :=
  fold_left (fun i e => InvoiceTheory.project e i) es i.

Lemma replayed evs evs' es p :
  Forall (fun e => is_Initiated e = false) es ->
  iter_all evs' = iter_all evs ++ es -> ev_id evs' = ev_id evs ->
  Payment.try_from_events evs = Ok p ->
  Payment.try_from_events evs' = Ok (Payment.set_events evs' (replay es p)).
Proof.
  intros Hes. revert evs'. induction es as [| e es IH] using rev_ind; intros evs' Hall Hid Hp.
  - rewrite app_nil_r in Hall. by apply (PaymentTheory.try_from_events_set evs).
  - apply Forall_app in Hes as [Hes He]. apply Forall_inv in He.
    set (evs0 := ev_load (ev_id evs) (iter_all evs ++ es)).
    assert (Hgo : Payment.try_from_events evs0 = Ok (Payment.set_events evs0 (replay es p)))
      by (apply IH; unfold evs0; by autorewrite with events).
    apply (PaymentTheory.try_from_events_push _ _ e He) in Hgo.
    apply (PaymentTheory.try_from_events_set _ evs') in Hgo.
    + rewrite Hgo. unfold replay. rewrite fold_left_app. by destruct e.
    + rewrite Hall, app_assoc. unfold evs0. by autorewrite with events.
    + rewrite Hid. unfold evs0. by autorewrite with events.
Qed.

Lemma replayed_invoice evs evs' es i :
  Forall (fun e => is_Created e = false) es ->
  iter_all evs' = iter_all evs ++ es -> ev_id evs' = ev_id evs ->
  Invoice.try_from_events evs = Ok i ->
  Invoice.try_from_events evs' = Ok (Invoice.set_events evs' (replay_invoice es i)).
Proof.
  intros Hes. revert evs'. induction es as [| e es IH] using rev_ind; intros evs' Hall Hid Hi.
  - rewrite app_nil_r in Hall. by apply (InvoiceTheory.invoice_try_from_events_set evs).
  - apply Forall_app in Hes as [Hes He]. apply Forall_inv in He.
    set (evs0 := ev_load (ev_id evs) (iter_all evs ++ es)).
    assert (Hgo : Invoice.try_from_events evs0 =
        Ok (Invoice.set_events evs0 (replay_invoice es i)))
      by (apply IH; unfold evs0; by autorewrite with events).
    apply (InvoiceTheory.invoice_try_from_events_push _ _ e He) in Hgo.
    apply (InvoiceTheory.invoice_try_from_events_set _ evs') in Hgo.
    + rewrite Hgo. unfold replay_invoice. rewrite fold_left_app. by destruct e.
    + rewrite Hall, app_assoc. unfold evs0. by autorewrite with events.
    + rewrite Hid. unfold evs0. by autorewrite with events.
Qed.
End Replay.

Section Finality.
Context `{HexLaws} `{Sha256} `{UuidText} `{TonicText} `{ErrorText} `{Bolt11} `{EventStoreLaws}.
Context `{PR : !EsRepo Payments.desc} `{PRL : !EsRepoLaws (d := Payments.desc)}.
Context `{IR : !EsRepo Invoices.desc} `{IRL : !EsRepoLaws (d := Invoices.desc)}.
Context `{RowOrder} (mode : Mode).
Notation gateway_reaches := (reachable (gateway_handler mode)).

(** The later aggregate is the earlier one, gone on along its lifecycle. *)
Definition payment_continues (p p' : Payment.t) : Prop :=
  exists es,
    p' = Payment.set_events (Payment.events p') (replay es p) /\
    iter_all (Payment.events p') = iter_all (Payment.events p) ++ es /\
    path payment_step (Payment.state p) es (Payment.state p').

Definition invoice_continues (i i' : Invoice.t) : Prop :=
  exists es ph ph',
    i' = Invoice.set_events (Invoice.events i') (replay_invoice es i) /\
    iter_all (Invoice.events i') = iter_all (Invoice.events i) ++ es /\
    phase_state ph = Invoice.state i /\ phase_state ph' = Invoice.state i' /\
    path invoice_step ph es ph'.

Definition payment_decided (p : Payment.t) : Prop :=
  Payment.state p = PaymentState.Completed \/ Payment.state p = PaymentState.Failed.
Definition invoice_decided (i : Invoice.t) : Prop :=
  Invoice.state i = InvoiceState.Settled \/ Invoice.state i = InvoiceState.Canceled.

Lemma stored_payment db h p :
  db_ok db -> find_by_payment_hash Payments.desc h (payments db) = Ok p ->
  exists st, payments db !! h = Some st /\
    Payment.try_from_events (ev_load (st_id st) (st_events st)) = Ok p /\
    Payment.events p = ev_load (st_id st) (st_events st) /\
    payment_log (st_events st) (Payment.state p).
Proof.
  intros [Hok _]. specialize (Hok h). rewrite find_by_payment_hash_spec.
  destruct (payments db !! h) as [st |] eqn:Hst; [| done].
  destruct Hok as ((p' & Hp & [_ Hlog] & _) & _). cbn. rewrite Hp. intros [= <-].
  pose proof (PaymentTheory.try_from_events_events _ _ Hp) as He. exists st.
  split_and!; try done. by rewrite He, iter_all_load in Hlog.
Qed.

Lemma stored_invoice db h i :
  db_ok db -> find_by_payment_hash Invoices.desc h (invoices db) = Ok i ->
  exists st ph, invoices db !! h = Some st /\
    Invoice.try_from_events (ev_load (st_id st) (st_events st)) = Ok i /\
    Invoice.events i = ev_load (st_id st) (st_events st) /\
    invoice_log (st_events st) ph /\ phase_state ph = Invoice.state i.
Proof.
  intros (_ & _ & Hok & _). specialize (Hok h). rewrite find_by_payment_hash_spec.
  destruct (invoices db !! h) as [st |] eqn:Hst; [| done].
  destruct Hok as ((i' & Hi & (ph & _ & Hlog & Hs & _) & _) & _). cbn. rewrite Hi. intros [= <-].
  pose proof (InvoiceTheory.invoice_try_from_events_events _ _ Hi) as He. exists st, ph.
  split_and!; try done. by rewrite He, iter_all_load in Hlog.
Qed.

(** Nothing in the gateway reverses. *)
Lemma never_reversed c h st e :
  gateway_reaches (empty_db, []) c -> payments c.1 !! h = Some st -> e ∈ st_events st ->
  PaymentEvent.is_Reversed e = false.
Proof.
  intros [Hw _]%reachable_witnessed Hst He.
  destruct (Hw h e) as (t & _ & Hev); [unfold log_of; by rewrite Hst |]. by destruct e.
Qed.

Lemma payment_goes_on c c' h p :
  gateway_reaches (empty_db, []) c -> gateway_reaches c c' ->
  find_by_payment_hash Payments.desc h (payments c.1) = Ok p ->
  exists p', find_by_payment_hash Payments.desc h (payments c'.1) = Ok p' /\
    payment_continues p p' /\ (payment_decided p -> p' = p).
Proof.
  intros Hr Hr' Hfind. assert (Hr2 : gateway_reaches (empty_db, []) c')
    by by (unfold reachable in *; etransitivity).
  destruct (stored_payment _ _ _ (gateway_ok mode c Hr) Hfind) as (st & Hst & Hp & He & Hlog).
  destruct (gateway_future mode _ _ Hr Hr') as [Hf _].
  destruct (Hf h st Hst) as (st' & Hst' & Hid & es & Hes).
  pose proof (proj1 (gateway_ok mode c' Hr2) h) as Hok'. rewrite Hst' in Hok'.
  destruct Hok' as ((p' & Hp' & [_ Hlog'] & _) & _).
  pose proof (PaymentTheory.try_from_events_events _ _ Hp') as He'.
  rewrite He', iter_all_load, Hes in Hlog'. exists p'.
  rewrite find_by_payment_hash_spec, Hst'. cbn. rewrite Hp'. split; [done |].
  pose proof (payment_log_path _ _ _ _ Hlog Hlog') as Hpath.
  assert (Hnew : Forall (fun e => is_Initiated e = false) es).
  { destruct (payment_log_head _ _ Hlog) as (n & es0 & Hn & _).
    destruct (payment_log_head _ _ Hlog') as (n' & es' & Hn' & Hall). rewrite Hn in Hn'.
    apply (f_equal tail) in Hn'. cbn in Hn'. subst es'. by apply Forall_app in Hall as [_ ?]. }
  split.
  - exists es. split; [| split; [| exact Hpath]].
    + rewrite He'. rewrite (replayed (ev_load (st_id st) (st_events st))
        (ev_load (st_id st') (st_events st')) es p) in Hp'; [| done | | | done].
      * by injection Hp' as <-.
      * by autorewrite with events.
      * by rewrite !ev_id_load.
    + by rewrite He', He, !iter_all_load.
  - intros Hd. destruct es as [| e es].
    + rewrite Hes, app_nil_r, Hid in Hp'. congruence.
    + exfalso. destruct (path_first _ _ _ _ _ Hpath) as [s1 Hs1].
      assert (Hin : e ∈ st_events st') by (rewrite Hes; set_solver).
      pose proof (never_reversed c' h st' e Hr2 Hst' Hin) as Hrev.
      destruct Hd as [Hd | Hd]; rewrite Hd in Hs1; inversion Hs1; subst; naive_solver.
Qed.

Lemma invoice_goes_on c c' h i :
  gateway_reaches (empty_db, []) c -> gateway_reaches c c' ->
  find_by_payment_hash Invoices.desc h (invoices c.1) = Ok i ->
  exists i', find_by_payment_hash Invoices.desc h (invoices c'.1) = Ok i' /\
    invoice_continues i i' /\ (invoice_decided i -> i' = i).
Proof.
  intros Hr Hr' Hfind. assert (Hr2 : gateway_reaches (empty_db, []) c')
    by by (unfold reachable in *; etransitivity).
  destruct (stored_invoice _ _ _ (gateway_ok mode c Hr) Hfind)
    as (st & ph & Hst & Hi & He & Hlog & Hph).
  destruct (gateway_future mode _ _ Hr Hr') as (_ & Hf & _).
  destruct (Hf h st Hst) as (st' & Hst' & Hid & es & Hes).
  assert (Hfind' : exists i', find_by_payment_hash Invoices.desc h (invoices c'.1) = Ok i').
  { destruct (gateway_ok mode c' Hr2) as (_ & _ & Hok & _). specialize (Hok h).
    rewrite Hst' in Hok. destruct Hok as ((i' & Hi' & _) & _). exists i'.
    rewrite find_by_payment_hash_spec, Hst'. cbn. by rewrite Hi'. }
  destruct Hfind' as [i' Hfind']. exists i'. split; [done |].
  destruct (stored_invoice _ _ _ (gateway_ok mode c' Hr2) Hfind')
    as (st2 & ph' & Hst2 & Hi' & He' & Hlog' & Hph'). rewrite Hst' in Hst2.
  injection Hst2 as <-. rewrite Hes in Hlog'.
  pose proof (invoice_log_path _ _ _ _ Hlog Hlog') as Hpath.
  assert (Hnew : Forall (fun e => is_Created e = false) es).
  { destruct (invoice_log_head _ _ Hlog) as (n & es0 & Hn & _).
    destruct (invoice_log_head _ _ Hlog') as (n' & es' & Hn' & Hall). rewrite Hn in Hn'.
    apply (f_equal tail) in Hn'. cbn in Hn'. subst es'. by apply Forall_app in Hall as [_ ?]. }
  split.
  - exists es, ph, ph'. split; [| split; [| by split]].
    + rewrite He'. rewrite (replayed_invoice (ev_load (st_id st) (st_events st))
        (ev_load (st_id st') (st_events st')) es i) in Hi'; [| done | | | done].
      * by injection Hi' as <-.
      * by autorewrite with events.
      * by rewrite !ev_id_load.
    + by rewrite He', He, !iter_all_load.
  - intros Hd. destruct es as [| e es].
    + rewrite Hes, app_nil_r, Hid in Hi'. congruence.
    + exfalso. destruct (path_first _ _ _ _ _ Hpath) as [ph1 Hs1].
      unfold invoice_decided in Hd. rewrite <- Hph in Hd.
      inversion Hs1; subst; naive_solver.
Qed.

(** C7. What is decided stays decided.  Whatever runs after a moment of a run of the
    gateway, nothing stored is lost, and what a hash then loads is what it loaded, gone on
    along its lifecycle: the same aggregate with some more events applied.  A completed or
    failed payment and a settled or canceled invoice load unchanged for ever - state,
    preimage, fees, times and all - so no later answer of LND, replay of its streams,
    retry or sweep turns an outcome; and no payment is ever reversed. *)
Theorem outcomes_final c c' :
  gateway_reaches (empty_db, []) c -> gateway_reaches c c' ->
  (forall h p, find_by_payment_hash Payments.desc h (payments c.1) = Ok p ->
     Payment.state p <> PaymentState.Reversed /\
     exists p', find_by_payment_hash Payments.desc h (payments c'.1) = Ok p' /\
       payment_continues p p' /\ (payment_decided p -> p' = p)) /\
  (forall h i, find_by_payment_hash Invoices.desc h (invoices c.1) = Ok i ->
     exists i', find_by_payment_hash Invoices.desc h (invoices c'.1) = Ok i' /\
       invoice_continues i i' /\ (invoice_decided i -> i' = i)) /\
  outbox c.1 `prefix_of` outbox c'.1.
Proof.
  intros Hr Hr'. split; [| split].
  - intros h p Hfind. split; [| by apply (payment_goes_on c c' h)].
    destruct (stored_payment _ _ _ (gateway_ok mode c Hr) Hfind) as (st & Hst & _ & _ & Hlog).
    destruct (payment_log_marks _ _ Hlog) as (_ & _ & Hrev & _). intros Hs.
    rewrite Hs, bool_decide_eq_true_2 in Hrev by done.
    apply existsb_exists in Hrev as (e & Hin%list_elem_of_In & He).
    by rewrite (never_reversed c h st e Hr Hst Hin) in He.
  - intros h i. by apply (invoice_goes_on c c' h).
  - by apply (gateway_future mode).
Qed.
End Finality.

Section Examples.
#[local] Existing Instance list_hex.
#[local] Existing Instance list_hex_laws.
#[local] Existing Instance list_sha.
#[local] Existing Instance list_uuid.
#[local] Existing Instance list_store.
#[local] Existing Instance list_store_laws.
#[local] Existing Instance map_row_order.
#[local] Existing Instance plain_tonic.
#[local] Existing Instance plain_errors.
#[local] Existing Instance plain_bolt11.
#[local] Existing Instance payments_repo.
#[local] Existing Instance payments_repo_laws.
#[local] Existing Instance invoices_repo.
#[local] Existing Instance invoices_repo_laws.

(** A payment is completed; then its request is sent again. *)
Example outcomes_final_witness :
  exists c c' p, reachable (gateway_handler App.Live) (empty_db, []) c /\
    reachable (gateway_handler App.Live) c c' /\
    Payment.state p = PaymentState.Completed /\
    find_by_payment_hash Payments.desc (hash_of x01) (payments c'.1) = Ok p.
Proof.
  destruct (after_reachable 1 10 pay empty_db
    (fun _ db =>
       match find_by_payment_hash Payments.desc (hash_of x01) (payments db) with
       | Ok p => bool_decide (Payment.state p = PaymentState.Completed) &&
                 after 30 7 pay db (fun _ _ => true)
       | Err _ => false
       end) (empty_db, []) [])
    as (q & tr & db & Hc & Hr); [apply gh_graphql | apply rtc_refl | by vm_compute |].
  destruct (find_by_payment_hash _ _ _) as [p |] eqn:Hp; [| done].
  apply andb_true_iff in Hc as [Hs%bool_decide_eq_true_1 Hagain].
  destruct (after_reachable 30 7 pay db (fun _ _ => true) (db, [Thread q tr]) [Thread q tr])
    as (q' & tr' & db' & _ & Hr'); [apply gh_graphql | apply rtc_refl | exact Hagain |].
  destruct (outcomes_final App.Live _ _ Hr Hr') as (Hpay & _).
  destruct (Hpay (hash_of x01) p Hp) as (_ & p' & Hp' & _ & Hsame).
  rewrite (Hsame (or_introl Hs)) in Hp'.
  exists (db, [Thread q tr]), (db', [Thread q tr; Thread q' tr']), p.
  split; [exact Hr |]. split; [exact Hr' |]. split; [exact Hs | exact Hp'].
Defined.
End Examples.
