(* ===== verification/Wired.v ===== *)
(** The gateway wired to its collaborators: every call of every handler is answered by
    [Adapters.serve], from what the systems outside say at that moment; nothing is left to
    an arbitrary answer but what really comes from outside.

    The machine keeps a log of what was asked of whom.  It refines the gateway of
    [Gateway] - so everything proved there holds of it - and every answer in a handler's
    trace is [genuine]: it is what the code of an adapter made of something in the log. *)
From S2P Require Import Prelude Primitives Fees EsEntity Concrete GraphqlTypes Jwks.
From S2P Require Import PaymentEntity InvoiceEntity Outbox Lnd LndClient Symphony Wallet Effects.
From S2P Require Import App Adapters Grpc AppPayment AppInvoice Mutation Jobs.
From S2P Require Import Ledger Evidence Safety SendSafety InvoiceSafety MutationSafety Gateway.

(** What happened between the gateway and the outside: a call of handler [i] was answered
    at the instant [at_], from outside or from memory; or something came by itself. *)
Inductive exchange `{JsonWebToken} : Type :=
| Answered (at_ : Z) (i : nat) (e : ext) (o : Outside) (outside : bool)
| Came (s : signal).

Section Wired.
Context {Channel : Type}.
Context `{HexLaws} `{Sha256} `{UuidText} `{TonicText} `{ErrorText} `{Bolt11} `{EventStoreLaws}.
Context `{PR : !EsRepo Payments.desc} `{PRL : !EsRepoLaws (d := Payments.desc)}.
Context `{IR : !EsRepo Invoices.desc} `{IRL : !EsRepoLaws (d := Invoices.desc)}.
Context `{RowOrder} `{LndProto} `{SerdeJson} `{JsonWebToken}.
Context (app : AppHandles Channel).

Notation gw_thread := (thread ext_resp TxEnv DbState).
Notation gw_config := (DbState * list gw_thread)%type.
Notation gateway_reaches := (reachable (gateway_handler (mode app))).

Record wired : Type := MkWired {
  adapters : Adapters;
  config : gw_config;
  log : list exchange
}.

Definition start : wired := MkWired fresh_adapters (empty_db, []) [].

(** A handler starts; one performs a transaction; one takes a step of a call, to its answer
    or to a wait; something comes from outside. *)
Inductive wired_step : wired -> wired -> Prop :=
| wired_spawn a db ts l p :
    gateway_handler (mode app) p ->
    wired_step (MkWired a (db, ts) l) (MkWired a (db, ts ++ [Thread p []]) l)
| wired_tx a db db' ts l i A E lost body k tr r :
    ts !! i = Some (Thread (Do (Tx A E lost body) k) tr) ->
    sem ext_resp (Tx A E lost body) db r db' ->
    wired_step (MkWired a (db, ts) l)
      (MkWired a (db', <[ i := Thread (k r) (tr ++ [Ev (Tx A E lost body) r]) ]> ts) l)
| wired_call o a a' outside db ts l i e k tr r :
    ts !! i = Some (Thread (Do (Call e) k) tr) ->
    serve app o i e a = Some (a', outside, Some r) ->
    wired_step (MkWired a (db, ts) l)
      (MkWired a' (db, <[ i := Thread (k r) (tr ++ [Ev (Call e) r]) ]> ts)
         (l ++ [Answered (instant a) i e o outside]))
| wired_wait o a a' outside db ts l i e k tr :
    ts !! i = Some (Thread (Do (Call e) k) tr) ->
    serve app o i e a = Some (a', outside, None) ->
    wired_step (MkWired a (db, ts) l) (MkWired a' (db, ts) l)
| wired_signal s a a' c l :
    on_signal app s a = Some a' -> wired_step (MkWired a c l) (MkWired a' c (l ++ [Came s])).

Notation wired_reaches := (rtc wired_step start).

(** The wired gateway is a gateway: the collaborators only choose its answers. *)
Lemma wired_refines_from w w' :
  rtc wired_step w w' -> gateway_reaches (config w) (config w').
Proof.
  apply (rtc_ind_r (fun w' => gateway_reaches (config w) (config w'))); [apply rtc_refl |].
  intros w1 w2 _ Hs Hr. destruct Hs; simpl in *; try done.
  - eapply rtc_r; [exact Hr | by apply step_spawn].
  - eapply rtc_r; [exact Hr | by eapply step_thread].
  - eapply rtc_r; [exact Hr |]. by eapply (step_thread _ _ _ _ _ _ _ i (Call e)).
Qed.

Lemma wired_refines w : wired_reaches w -> gateway_reaches (empty_db, []) (config w).
Proof. exact (wired_refines_from start w). Qed.

(** ** Genuine answers *)

(** A key some key set served has. *)
Definition key_served (l : list exchange) (key : DecodingKey) : Prop :=
  exists attempts k jwks kid,
    Came (KeysServed attempts) ∈ l /\ attempts k = Ok (Ok jwks) /\
    (kid, key) ∈ RemoteJwksDecoder.usable_keys jwks.

(** [caller] is who a served key says its token is. *)
Definition verified (l : list exchange) (caller : CallerAuth.t) : Prop :=
  exists now key, key_served l key /\
    verify now (CallerAuth.jwt caller) key = Ok (MkJwtClaims (CallerAuth.sub caller)).

(** The router listed the wallets [ws] at the instant [at_] for the subject [sub], to a
    caller with a verified token of this subject. *)
Definition listed (l : list exchange) (sub : string) (ws : gset string) (at_ : Z) : Prop :=
  exists i caller w o,
    Answered at_ i (CheckOwnership caller w) o true ∈ l /\
    CallerAuth.sub caller = sub /\ verified l caller /\
    @fetch_owned_wallets (out_router o) (ownership app) caller = Ok ws.

(** Handler [i] made the call [e], and the outside was [o] when it was answered. *)
Definition consulted (l : list exchange) (i : nat) (e : ext) (o : Outside) : Prop :=
  exists at_, Answered at_ i e o true ∈ l.

Definition lnd_api (o : Outside) : LndApi := LndClient.api (H1 := out_lnd o) (lnd app).

Definition genuine_call (l : list exchange) (i : nat) (e : ext) : ext_resp e -> Prop :=
  match e return ext_resp e -> Prop with
  | CheckOwnership caller w => fun r => r = Ok tt ->
      verified l caller /\
      exists ws at_ checked o b,
        Answered checked i (CheckOwnership caller w) o b ∈ l /\
        WalletId.to_string w ∈ ws /\ listed l (CallerAuth.sub caller) ws at_ /\
        (at_ = checked \/ checked - at_ < ownership_ttl app)%Z
  | AuthorizeSpend req => fun r =>
      exists o, consulted l i (AuthorizeSpend req) o /\
        r = authorize_spend (symphony app) (out_symphony o) req
  | LndSendPayment p => fun r =>
      exists o, consulted l i (LndSendPayment p) o /\ r = @api_send_payment (lnd_api o) p
  | LndCancelInvoice h => fun r =>
      exists o, consulted l i (LndCancelInvoice h) o /\ r = @api_cancel_invoice (lnd_api o) h
  | LndSettleInvoice p => fun r =>
      exists o, consulted l i (LndSettleInvoice p) o /\ r = @api_settle_invoice (lnd_api o) p
  | LndLookupInvoice h => fun r =>
      exists o, consulted l i (LndLookupInvoice h) o /\ r = @api_lookup_invoice (lnd_api o) h
  | LndLookupPayment h => fun r => forall r', r = Some r' ->
      exists o, consulted l i (LndLookupPayment h) o /\ r' = @api_lookup_payment (lnd_api o) h
  | LndAddHoldInvoice p => fun r =>
      exists o, consulted l i (LndAddHoldInvoice p) o /\ r = @api_add_hold_invoice (lnd_api o) p
  | RecvPaymentUpdate => fun u =>
      exists m, Came (PaymentStreamed m) ∈ l /\ payment_to_update m = Ok u
  | RecvInvoiceUpdate => fun u =>
      exists m, Came (InvoiceStreamed (InvoiceUpdate.payment_hash u) m) ∈ l /\
        lnd_invoice_to_update m = Ok u
  | DecodeJwt token => fun r => forall claims, r = Ok claims ->
      exists now key, key_served l key /\ verify now token key = Ok claims
  | _ => fun _ => True
  end.

Definition genuine (l : list exchange) (i : nat) (ev : gw_event) : Prop :=
  match ev with
  | Ev x r =>
      match x return answer ext_resp TxEnv DbState x -> Prop with
      | Call e => fun r => genuine_call l i e r
      | Tx _ _ _ _ => fun _ => True
      end r
  end.

(** What the collaborators remember is genuine too. *)
Record remembered (l : list exchange) (a : Adapters) : Prop := {
  rem_keys : forall kid key, (kid, key) ∈ signing_keys a -> key_served l key;
  rem_owned : forall sub ws at_, owned a !! sub = Some (ws, at_) -> listed l sub ws at_;
  rem_payments : forall u, u ∈ payment_updates a -> genuine_call l 0 RecvPaymentUpdate u;
  rem_invoices : forall u, u ∈ invoice_updates a -> genuine_call l 0 RecvInvoiceUpdate u
}.

(** *** More is said, nothing is unsaid *)

Lemma key_served_mono l l' key : l ⊆ l' -> key_served l key -> key_served l' key.
Proof. intros Hs (at_ & k & jwks & kid & Hin & Hr). exists at_, k, jwks, kid. by split; [apply Hs |]. Qed.

Lemma verified_mono l l' c : l ⊆ l' -> verified l c -> verified l' c.
Proof. intros Hs (now & key & Hk & Hv). exists now, key. by split; [apply (key_served_mono l) |]. Qed.

Lemma listed_mono l l' sub ws at_ : l ⊆ l' -> listed l sub ws at_ -> listed l' sub ws at_.
Proof.
  intros Hs (i & c & w & o & Hin & Hc & Hv & Hf). exists i, c, w, o.
  split_and!; [by apply Hs | done | by apply (verified_mono l) | done].
Qed.

Lemma consulted_mono l l' i e o : l ⊆ l' -> consulted l i e o -> consulted l' i e o.
Proof. intros Hs (at_ & Hin). exists at_. by apply Hs. Qed.

Lemma genuine_call_mono l l' i e r : l ⊆ l' -> genuine_call l i e r -> genuine_call l' i e r.
Proof.
  intros Hs. destruct e; simpl; try done;
    try (intros (o & Hc & Hr); exists o; split; [by apply (consulted_mono l) | exact Hr]);
    try (intros (m & Hm & Hr); exists m; by split; [apply Hs |]).
  - intros Hg Hr. destruct (Hg Hr) as (Ha & ws & at_ & t & o & b & Hin & Hw & Hl & Ht).
    split; [by apply (verified_mono l) |]. exists ws, at_, t, o, b.
    split_and!; [by apply Hs | done | by apply (listed_mono l) | done].
  - intros Hg r' Hr. destruct (Hg r' Hr) as (o & Hc & Heq). exists o.
    by split; [apply (consulted_mono l) |].
  - intros Hg claims Hr. destruct (Hg claims Hr) as (now & key & Hk & Hv). exists now, key.
    by split; [apply (key_served_mono l) |].
Qed.

Lemma genuine_mono l l' i ev : l ⊆ l' -> genuine l i ev -> genuine l' i ev.
Proof. destruct ev as [[] r]; simpl; [apply genuine_call_mono | done]. Qed.

Lemma remembered_mono l l' a : l ⊆ l' -> remembered l a -> remembered l' a.
Proof.
  intros Hs [Hk Ho Hp Hi]. split.
  - intros kid key Hin. by eapply key_served_mono, Hk.
  - intros sub ws at_ Hl. by apply (listed_mono l), Ho.
  - intros u Hu. by apply (genuine_call_mono l), Hp.
  - intros u Hu. by apply (genuine_call_mono l), Hi.
Qed.

(** *** Every step keeps what is genuine *)

Lemma refreshed_keys_served l attempts keys :
  (forall kid key, (kid, key) ∈ keys -> key_served l key) ->
  forall kid key, (kid, key) ∈ (RemoteJwksDecoder.refresh_keys attempts keys).1 ->
    key_served (l ++ [Came (KeysServed attempts)]) key.
Proof.
  intros Hk kid key. unfold RemoteJwksDecoder.refresh_keys, RemoteJwksDecoder.fetch_jwks.
  destruct (fetch_from_spec attempts FETCH_RETRY_COUNT 1 None)
    as [[_ [msg ->]] | (j & body & _ & Hj & _ & ->)];
    [| destruct body as [jwks |]]; simpl; intros Hin;
    try (by eapply key_served_mono, Hk; [set_solver | exact Hin]).
  exists attempts, j, jwks, kid. split; [set_solver | done].
Qed.

Lemma on_signal_remembered s a a' l :
  on_signal app s a = Some a' -> remembered l a -> remembered (l ++ [Came s]) a'.
Proof.
  intros Hs Hrem. apply (remembered_mono l (l ++ [Came s])) in Hrem as Hrem'; [| set_solver].
  destruct Hrem' as [Hk Ho Hp Hi]. destruct s as [d | attempts | m | h m | h]; simpl in Hs.
  - destruct (0 <=? d)%Z; simplify_eq. by split.
  - simplify_eq. split; [| done ..]. intros kid key Hin.
    eapply refreshed_keys_served; [by apply Hrem | exact Hin].
  - destruct (LndClient.is_connected _); simplify_eq. split; try done.
    intros u Hu. simpl in Hu. apply elem_of_app in Hu as [Hu | Hu]; [by apply Hp |].
    destruct (payment_to_update m) as [u' |] eqn:Hm; simpl in Hu; [| by apply elem_of_nil in Hu].
    apply list_elem_of_singleton in Hu as ->. exists m. split; [set_solver | done].
  - destruct (_ && _); [| done].
    destruct (lnd_invoice_to_update m) as [u |] eqn:Hm; simpl in Hs;
      [case_decide as Hh |]; simplify_eq; try by split.
    + split; try done. by intros u' [Hu | []%elem_of_nil]%elem_of_app; apply Hi.
    + set (l' := l ++ _) in *.
      assert (Hnew : forall u', u' ∈ invoice_updates a ++ [u] ->
                genuine_call l' 0 RecvInvoiceUpdate u').
      { intros u' [Hu | ->%list_elem_of_singleton]%elem_of_app; [by apply Hi |].
        exists m. split; [set_solver | done]. }
      destruct (is_terminal_state _); simplify_eq; by split.
    + split; try done. by intros u' [Hu | []%elem_of_nil]%elem_of_app; apply Hi.
  - case_bool_decide; simplify_eq. by split.
Qed.

(** A stored answer of the router is one it gave. *)
Lemma store_listed l sub ws at_ c :
  listed l sub ws at_ ->
  (forall sub' ws' at', c !! sub' = Some (ws', at') -> listed l sub' ws' at') ->
  forall sub' ws' at',
    store (ownership_ttl app) at_ sub ws c !! sub' = Some (ws', at') -> listed l sub' ws' at'.
Proof.
  intros Hl Hc sub' ws' at' Hs. apply store_lookup in Hs as [(-> & -> & ->) | Hs]; [done |].
  by apply Hc.
Qed.

Lemma decision_ok w ws : decision w ws = Ok tt -> WalletId.to_string w ∈ ws.
Proof. unfold decision. by case_decide. Qed.

Lemma serve_ownership_genuine o i caller w a a' b r l :
  (CallerAuth.is_authenticated caller = true -> verified l caller) ->
  (i ∈ fetching a -> CallerAuth.is_authenticated caller = true) -> remembered l a ->
  serve_ownership app o i caller w a = Some (a', b, Some r) ->
  let l' := l ++ [Answered (instant a) i (CheckOwnership caller w) o b] in
  genuine_call l' i (CheckOwnership caller w) r /\ remembered l' a'.
Proof.
  intros Hver Hwait Hrem Hs l'. assert (Hsub : l ⊆ l') by set_solver.
  assert (Hin : Answered (instant a) i (CheckOwnership caller w) o b ∈ l') by set_solver.
  apply (remembered_mono l l') in Hrem as Hrem'; [| done].
  unfold serve_ownership in Hs. case_decide as Hf.
  - specialize (Hver (Hwait Hf)). apply (verified_mono l l') in Hver; [| done].
    unfold gate_fetched in Hs.
    destruct (fetch_owned_wallets _ _) as [ws | e] eqn:Hfetch; unfold asked in Hs;
      injection Hs as <- <- <-.
    + assert (Hl : listed l' (CallerAuth.sub caller) ws (instant a))
        by by exists i, caller, w, o.
      split.
      * intros Hd%decision_ok. split; [done |].
        exists ws, (instant a), (instant a), o, true. split_and!; try done. by left.
      * destruct Hrem' as [Hk Ho Hp Hi]. split; try done. simpl. by apply store_listed.
    + split; [by intros |]. destruct Hrem' as [Hk Ho Hp Hi]. by split.
  - destruct (gate_lookup _ _ _ _) as [r' |] eqn:Hg; [| done]. unfold known in Hs.
    injection Hs as <- <- ->. split; [| done]. intros ->. unfold gate_lookup in Hg.
    destruct (CallerAuth.is_authenticated caller); simpl in Hg; [| done].
    split; [by apply (verified_mono l), Hver |].
    unfold cached in Hg. destruct (owned a !! _) as [[ws at_] |] eqn:Hc; [| done].
    unfold fresh_entry in Hg. simpl in Hg.
    destruct (Z.ltb_spec (instant a - at_) (ownership_ttl app)); [| done].
    injection Hg as Hd%decision_ok. exists ws, at_, (instant a), o, false.
    split_and!; try done; [by apply Hrem' | by right].
Qed.

Lemma serve_genuine o i e a a' b r l :
  (forall caller w, e = CheckOwnership caller w ->
     (CallerAuth.is_authenticated caller = true -> verified l caller) /\
     (i ∈ fetching a -> CallerAuth.is_authenticated caller = true)) ->
  remembered l a -> serve app o i e a = Some (a', b, Some r) ->
  let l' := l ++ [Answered (instant a) i e o b] in
  genuine_call l' i e r /\ remembered l' a'.
Proof.
  intros Hown Hrem Hs l'. assert (Hsub : l ⊆ l') by set_solver.
  assert (Hc : b = true -> consulted l' i e o) by (intros ->; exists (instant a); set_solver).
  apply (remembered_mono l l') in Hrem as Hrem'; [| done].
  destruct e; simpl in Hs; unfold asked, known in Hs.
  4: { destruct (Hown _ _ eq_refl). by eapply serve_ownership_genuine. }
  all: try (simplify_eq; split; [by (simpl; eauto) | done]).
  - simplify_eq. split; [| done]. intros r' Hr. exists o. split; [by apply Hc |].
    destruct (out_deadline o); [done | by injection Hr].
  - unfold serve_spawn, known in Hs. destruct (InvoiceUpdateDispatcher.spawn_listener_for _ _).
    simplify_eq. split; [done |]. destruct Hrem' as [Hk Ho Hp Hi]. by split.
  - destruct (payment_updates a) as [| u us] eqn:Hus; simplify_eq.
    destruct Hrem' as [Hk Ho Hp Hi]. rewrite Hus in Hp. split; [apply Hp; by left |].
    split; try done. intros u Hu. apply Hp. by right.
  - destruct (invoice_updates a) as [| u us] eqn:Hus; simplify_eq.
    destruct Hrem' as [Hk Ho Hp Hi]. rewrite Hus in Hi. split; [apply Hi; by left |].
    split; try done. intros u Hu. apply Hi. by right.
  - simplify_eq. split; [| done]. intros claims Hr%map_err_ok.
    apply decode_verified in Hr as (kid & key & Hin & Hv). exists (out_unix o), key.
    split; [by eapply (rem_keys _ _ Hrem') | done].
  - done.
Qed.

(** ** The invariant of the machine *)

(** A handler that waits for the router is at the check of an authenticated caller. *)
Definition waiting_ok (w : wired) : Prop :=
  forall i, i ∈ fetching (adapters w) ->
    exists caller wallet k tr,
      (config w).2 !! i = Some (Thread (Do (Call (CheckOwnership caller wallet)) k) tr) /\
      CallerAuth.is_authenticated caller = true.

(** The traces hold genuine answers, and so does every memory. *)
Record wired_ok (w : wired) : Prop := {
  ok_traces : forall i t, (config w).2 !! i = Some t -> Forall (genuine (log w) i) (th_trace t);
  ok_memory : remembered (log w) (adapters w);
  ok_waiting : waiting_ok w
}.

Definition is_check (e : ext) : bool :=
  match e with CheckOwnership _ _ => true | _ => false end.

Lemma on_signal_fetching s a a' : on_signal app s a = Some a' -> fetching a' = fetching a.
Proof.
  destruct s; simpl; repeat case_match; intros; simplify_eq; try done; by destruct b.
Qed.

Lemma serve_fetching o i e a a' b r :
  serve app o i e a = Some (a', b, Some r) ->
  forall j, j ∈ fetching a' -> j ∈ fetching a /\ (is_check e = true -> j <> i).
Proof.
  intros Hs j. destruct e; simpl in *; unfold asked, known, serve_spawn, known in Hs;
    try (by simplify_eq).
  - unfold serve_ownership in Hs. case_decide as Hi.
    + unfold gate_fetched, asked in Hs. destruct (fetch_owned_wallets _ _); simplify_eq; simpl;
        set_solver.
    + destruct (gate_lookup _ _ _ _); [| done]. unfold known in Hs. simplify_eq. set_solver.
  - destruct (InvoiceUpdateDispatcher.spawn_listener_for _ _). by simplify_eq.
  - by destruct (payment_updates a); simplify_eq.
  - by destruct (invoice_updates a); simplify_eq.
Qed.

Lemma serve_wait o i e a a' b :
  serve app o i e a = Some (a', b, None) ->
  exists caller w, e = CheckOwnership caller w /\
    CallerAuth.is_authenticated caller = true /\ a' = set_owned (owned a) ({[ i ]} ∪ fetching a) a.
Proof.
  intros Hs. destruct e; simpl in *; unfold asked, known, serve_spawn, known in Hs; try done.
  - unfold serve_ownership in Hs. case_decide.
    { unfold gate_fetched in Hs. by destruct (fetch_owned_wallets _ _). }
    unfold gate_lookup in Hs.
    destruct (CallerAuth.is_authenticated caller) eqn:Ha; simpl in Hs; [| done].
    destruct (cached _ _ _ _); [done |]. injection Hs as <- <-. by exists caller, wallet_id.
  - by destruct (InvoiceUpdateDispatcher.spawn_listener_for _ _).
  - by destruct (payment_updates a).
  - by destruct (invoice_updates a).
Qed.

(** Whoever is authenticated at the gate has a token a served key verified. *)
Lemma caller_verified w i caller wallet k tr :
  wired_reaches w -> wired_ok w ->
  (config w).2 !! i = Some (Thread (Do (Call (CheckOwnership caller wallet)) k) tr) ->
  CallerAuth.is_authenticated caller = true -> verified (log w) caller.
Proof.
  intros Hr Hok Hi Ha. apply wired_refines in Hr.
  destruct (gateway_adequacy (mode app) _ _ empty_db_ok Hr) as (_ & _ & Hall).
  destruct (Hall _ _ _ _ Hi) as [-> | Hin]; [done |].
  pose proof (ok_traces _ Hok _ _ Hi) as Htr. rewrite Forall_forall in Htr.
  destruct (Htr _ Hin _ eq_refl) as (now & key & Hk & Hv). by exists now, key.
Qed.

(** One handler has gone on, the others are where they were. *)
Lemma traces_step l l' (ts : list gw_thread) i p p' tr ev :
  l ⊆ l' -> ts !! i = Some (Thread p tr) -> genuine l' i ev ->
  (forall j t, ts !! j = Some t -> Forall (genuine l j) (th_trace t)) ->
  forall j t, <[ i := Thread p' (tr ++ [ev]) ]> ts !! j = Some t ->
    Forall (genuine l' j) (th_trace t).
Proof.
  intros Hs Hi Hev Hall j t Hj.
  assert (Hmono : forall j t, ts !! j = Some t -> Forall (genuine l' j) (th_trace t)).
  { intros j' t' Hj'. eapply Forall_impl; [by apply Hall | intros; by eapply genuine_mono]. }
  apply list_lookup_insert_Some in Hj as [(<- & <- & _) | [_ Hj]]; [| by apply Hmono].
  apply Forall_app_2; [apply (Hmono _ _ Hi) | by apply Forall_singleton].
Qed.

Lemma wired_step_ok w w' : wired_reaches w -> wired_step w w' -> wired_ok w -> wired_ok w'.
Proof.
  intros Hr Hs Hok. pose proof Hok as [Htr Hmem Hwait].
  destruct Hs as [a db ts l p Hp | a db db' ts l i A E lost body k tr r Hi Hsem
    | o a a' b db ts l i e k tr r Hi Hserve | o a a' b db ts l i e k tr Hi Hserve
    | s a a' c l Hsig]; unfold waiting_ok in *; simpl in *.
  - split; [| done |]; simpl.
    + intros i t [Ht | [_ Ht]]%lookup_app_Some; [by eapply Htr |].
      apply list_lookup_singleton_Some in Ht as [_ <-]. constructor.
    + intros i (caller & w & k & tr & Ht & Ha)%Hwait. exists caller, w, k, tr.
      split; [by apply lookup_app_l_Some | done].
  - split; [by eapply traces_step | done |]. intros j Hj.
    destruct (Hwait j Hj) as (caller & w & k' & tr' & Ht & Ha). exists caller, w, k', tr'.
    split; [| done]. simpl. rewrite list_lookup_insert_ne; [done |]. intros <-. congruence.
  - destruct (serve_genuine o i e a a' b r l) as [Hg Hmem']; [| done | done |].
    { intros caller w ->. split; [exact (caller_verified _ _ _ _ _ _ Hr Hok Hi) |].
      intros (caller' & w' & k' & tr' & Ht & Ha)%Hwait. by simplify_eq. }
    split; [| done |]; simpl.
    + eapply traces_step; [| exact Hi | exact Hg | exact Htr]. set_solver.
    + intros j Hj. destruct (serve_fetching _ _ _ _ _ _ _ Hserve j Hj) as [Hj' Hne].
      destruct (Hwait j Hj') as (caller & w & k' & tr' & Ht & Ha). exists caller, w, k', tr'.
      split; [| done]. simpl. rewrite list_lookup_insert_ne; [done |]. intros <-. simplify_eq.
      by apply Hne.
  - destruct (serve_wait _ _ _ _ _ _ Hserve) as (caller & w & -> & Ha & ->).
    split; [done | |]; simpl.
    + destruct Hmem as [Hk Ho Hp Hq]. by split.
    + intros j Hj. simpl in Hj.
      apply elem_of_union in Hj as [->%elem_of_singleton | Hj]; [| by apply Hwait].
      by exists caller, w, k, tr.
  - split; simpl.
    + intros i t Ht. eapply Forall_impl; [by apply Htr |]. intros ev.
      apply genuine_mono. set_solver.
    + by apply (on_signal_remembered s a).
    + intros i Hf. simpl in Hf. apply Hwait. by rewrite (on_signal_fetching _ _ _ Hsig) in Hf.
Qed.

Lemma wired_reaches_ok w : wired_reaches w -> wired_ok w.
Proof.
  intros Hr. pattern w. eapply (rtc_ind_r _ start); [| | exact Hr].
  - split; simpl; [by intros i t | | by intros i ?%not_elem_of_empty].
    split; simpl; [by intros kid key ?%not_elem_of_nil | |
      by intros u ?%not_elem_of_nil | by intros u ?%not_elem_of_nil].
    intros sub ws at_. by rewrite lookup_empty.
  - intros w1 w2 Hr1 Hs. by apply wired_step_ok.
Qed.

(** Every answer in a run is genuine. *)
Lemma answer_genuine w i t e r :
  wired_reaches w -> (config w).2 !! i = Some t ->
  Ev (Call e) r ∈ th_trace t -> genuine_call (log w) i e r.
Proof.
  intros Hr Hi Hin. pose proof (ok_traces _ (wired_reaches_ok _ Hr) _ _ Hi) as Hall.
  rewrite Forall_forall in Hall. exact (Hall _ Hin).
Qed.

(** ** Evaluation

    A run as a list of moves: a request arrives, an update is waited for, a handler goes on
    in a given outside, something comes by itself. *)
Inductive move : Type :=
| Request (authorization : option (option string)) (r : GraphqlRequest)
| AwaitInvoiceUpdate
| Turn (i : nat) (o : Outside) (env : TxEnv)
| Signal (s : signal).

Definition spawned (w : wired) (p : App.app unit) : wired :=
  MkWired (adapters w) ((config w).1, (config w).2 ++ [Thread p []]) (log w).

Definition turn_with (f : fault) (i : nat) (o : Outside) (env : TxEnv) (w : wired) :
    option wired :=
  let (db, ts) := config w in
  match ts !! i with
  | Some (Thread (Do x k) tr) =>
      match x return (answer ext_resp TxEnv DbState x -> App.app unit) -> option wired with
      | Call e => fun k =>
          '(a, outside, r) ← serve app o i e (adapters w);
          match r with
          | Some r =>
              Some (MkWired a (db, <[ i := Thread (k r) (tr ++ [Ev (Call e) r]) ]> ts)
                      (log w ++ [Answered (instant (adapters w)) i e o outside]))
          | None => Some (MkWired a (db, ts) (log w))
          end
      | Tx A E lost body => fun k =>
          '(r, db) ← perform (World (fun _ => None) env f) (Tx A E lost body) db;
          Some (MkWired (adapters w)
                  (db, <[ i := Thread (k r) (tr ++ [Ev (Tx A E lost body) r]) ]> ts) (log w))
      end k
  | _ => None
  end.

Definition turn : nat -> Outside -> TxEnv -> wired -> option wired := turn_with NoFault.

Definition make (m : move) (w : wired) : option wired :=
  match m with
  | Request authorization r =>
      Some (spawned w (graphql_handler (mode app) true authorization r))
  | AwaitInvoiceUpdate => Some (spawned w (discard invoice_update_turn))
  | Turn i o env => turn i o env w
  | Signal s =>
      a ← on_signal app s (adapters w); Some (MkWired a (config w) (log w ++ [Came s]))
  end.

Fixpoint play (ms : list move) (w : wired) : option wired :=
  match ms with
  | [] => Some w
  | m :: ms => w ← make m w; play ms w
  end.

Lemma turn_with_step f i o env w w' : turn_with f i o env w = Some w' -> wired_step w w'.
Proof.
  unfold turn_with. destruct w as [a [db ts] l]. cbn [adapters config log].
  destruct (ts !! i) as [[[| x k] tr] |] eqn:Hi; try done. destruct x as [e | A E lost body].
  - destruct (serve app o i e a) as [[[a' b] r] |] eqn:Hs; cbn [mbind option_bind]; [| done].
    destruct r as [r |]; intros [= <-]; [by eapply wired_call | by eapply wired_wait].
  - destruct (perform _ (Tx A E lost body) db) as [[r db'] |] eqn:Hp;
      cbn [mbind option_bind]; [| done]. intros [= <-].
    eapply wired_tx; [exact Hi | by eapply perform_sem].
Qed.

Lemma make_step m w w' : make m w = Some w' -> wired_step w w'.
Proof.
  destruct w as [a [db ts] l]. destruct m as [authorization r | | i o env | s].
  - intros [= <-]. apply wired_spawn, gh_graphql.
  - intros [= <-]. apply wired_spawn, gh_invoice_update.
  - apply turn_with_step.
  - simpl. destruct (on_signal app s a) as [a' |] eqn:Hs; simpl; [| done]. intros [= <-].
    by apply wired_signal.
Qed.

Lemma play_steps ms w w' : play ms w = Some w' -> rtc wired_step w w'.
Proof.
  revert w. induction ms as [| m ms IH]; intros w; simpl; [by intros [= <-] |].
  destruct (make m w) as [w1 |] eqn:Hm; simpl; [| done]. intros Hp.
  eapply rtc_l; [by eapply make_step | by apply IH].
Qed.
End Wired.
