(* ===== verification/EndToEnd.v ===== *)
(** What the gateway does, in terms of what was said on its wires: the theorems of
    [Gateway] and [Provenance] on the machine of [Wired], with every intermediate answer
    replaced by the raw message of the router, of Symphony, of LND or of the key server. *)
From S2P Require Import Prelude Primitives Fees EsEntity Concrete GraphqlTypes Jwks.
From S2P Require Import PaymentEntity InvoiceEntity Outbox Lnd LndClient Symphony Wallet Effects.
From S2P Require Import App Adapters Grpc AppPayment AppInvoice Mutation Jobs.
From S2P Require Import Ledger Evidence Safety SendSafety InvoiceSafety MutationSafety Gateway.
From S2P Require Import Provenance Wired.

(** * What an accepted answer was made of *)

Section Messages.
Context `{HexLaws} `{LndProto}.

(** The fields of a decoded payment message. *)
Lemma response_of_message m resp :
  lnd_payment_to_send_response m = Ok resp ->
  hex_decode (lnrpc.payment_hash m) =
    Ok (array_bytes (PaymentHash.as_bytes (SendPaymentResponse.payment_hash resp))) /\
  map_payment_status (lnrpc.status m) = Ok (SendPaymentResponse.status resp) /\
  (forall p, SendPaymentResponse.payment_preimage resp = Some p ->
     hex_decode (lnrpc.payment_preimage m) = Ok (array_bytes (Preimage.as_bytes p))) /\
  SendPaymentResponse.fees_paid_msat resp = msat_or_zero (lnrpc.fee_msat_ m) /\
  SendPaymentResponse.route_hops resp = first_route_hops (lnrpc.htlcs m).
Proof.
  unfold lnd_payment_to_send_response.
  intros (h & Hh & (s & Hs & [= <-])%result_bind_ok)%result_bind_ok. simpl.
  split_and!; try done.
  - apply map_err_ok in Hh. unfold PaymentHash.from_str in Hh.
    destruct (array_from_str _ _ _ _) as [a |] eqn:Ha; simpl in Hh; [| done].
    injection Hh as <-. by apply array_from_str_Ok in Ha.
  - intros p. unfold parse_preimage. case_string; [done |]. destruct (negb _); [done |].
    unfold Preimage.from_str. destruct (array_from_str _ _ _ _) as [a |] eqn:Ha; simpl; [| done].
    intros [= <-]. by apply array_from_str_Ok in Ha.
Qed.

Lemma succeeded_message v :
  map_payment_status v = Ok SendPaymentStatus.Succeeded ->
  PaymentStatus_try_from v = Some lnrpc.PS_Succeeded.
Proof. unfold map_payment_status. by destruct (PaymentStatus_try_from v) as [[] |]. Qed.

Lemma send_payment_message connected rpc p resp :
  Lnd.send_payment connected rpc p = Ok resp ->
  exists req m, rpc req = Ok (Ok (Some m)) /\
    payment_request req = BoltInvoice.as_str (SendPaymentParams.bolt_invoice p) /\
    lnd_payment_to_send_response m = Ok resp.
Proof.
  unfold Lnd.send_payment. intros (u & _ & (fee & _ & (s & Hs & (m & Hm & (p' & Hp &
    Hr)%result_bind_ok)%result_bind_ok)%result_bind_ok)%result_bind_ok)%result_bind_ok.
  apply map_err_ok in Hs, Hm. subst s. destruct m as [m |]; [| done]. injection Hp as <-.
  by eexists _, m.
Qed.

Lemma lookup_payment_message connected rpc h resp :
  lookup_payment connected rpc h = Ok resp ->
  exists m, rpc (array_bytes (PaymentHash.as_bytes h)) = Ok (Ok (Some m)) /\
    lnd_payment_to_send_response m = Ok resp /\ SendPaymentResponse.payment_hash resp = h.
Proof.
  unfold lookup_payment. intros (u & _ & (s & Hs & (m & Hm & (p' & Hp & (r & Hr &
    Hd)%result_bind_ok)%result_bind_ok)%result_bind_ok)%result_bind_ok)%result_bind_ok.
  apply map_err_ok in Hs, Hm. subst s. destruct m as [m |]; [| done]. injection Hp as <-.
  case_decide as Hne; [done |]. injection Hd as <-. by exists m.
Qed.

Lemma lookup_invoice_message connected rpc h u :
  lookup_invoice connected rpc h = Ok u ->
  exists m, rpc (array_bytes (PaymentHash.as_bytes h)) = Ok m /\
    lnd_invoice_to_update m = Ok u /\ InvoiceUpdate.payment_hash u = h.
Proof.
  unfold lookup_invoice. intros (t & _ & (m & Hm & (u' & Hu & Hd)%result_bind_ok)
    %result_bind_ok)%result_bind_ok.
  apply map_err_ok in Hm. case_decide as Hne; [done |]. injection Hd as <-. by exists m.
Qed.

(** An accepted invoice message. *)
Lemma accepted_message m u :
  lnd_invoice_to_update m = Ok u -> InvoiceUpdate.state u = LndInvoiceState.Accepted ->
  lnrpc.r_hash m = array_bytes (PaymentHash.as_bytes (InvoiceUpdate.payment_hash u)) /\
  InvoiceState_try_from (lnrpc.state m) = Some lnrpc.IS_Accepted.
Proof.
  unfold lnd_invoice_to_update.
  intros (a & Ha & (s & Hs & (amt & _ & [= <-])%result_bind_ok)%result_bind_ok)%result_bind_ok.
  simpl. intros ->. split.
  - unfold array_try_from in Ha. destruct (decide _); [| done]. by injection Ha as <-.
  - unfold map_invoice_state in Hs. by destruct (InvoiceState_try_from _) as [[] |].
Qed.
End Messages.

Lemma approved_answer `{SerdeJson} mode rpc req resp :
  authorize_spend mode rpc req = Ok resp ->
  SymphonyAuthorizeResponse.status resp = SymphonyAuthorizeStatus.Approved ->
  mode = Real /\ exists answer, rpc (proto_req req) = Ok answer /\ authorized answer = true.
Proof.
  unfold authorize_spend. destruct mode; simpl; [| done].
  destruct (rpc (proto_req req)) as [answer |]; simpl; [| done].
  destruct (authorized answer) eqn:Ha; intros [= <-]; [| done].
  intros _. split; [done |]. by exists answer.
Qed.

(** The router's answer from which the set of wallets was read. *)
Definition router_answered `{Router} (mode : OwnershipMode) (caller : CallerAuth.t)
    (ws : gset string) : Prop :=
  exists endpoint bearer resp envelope data_ me_ account,
    mode = OwnReal endpoint /\
    header_from_str ("Bearer " +:+ CallerAuth.jwt caller) = Some bearer /\
    post endpoint bearer = Ok resp /\ http_success resp = true /\ body resp = Ok envelope /\
    data envelope = Some data_ /\ me data_ = Some me_ /\ default_account me_ = Some account /\
    ws = list_to_set (wallets account).

Lemma fetched_answer `{Router} mode caller ws :
  fetch_owned_wallets mode caller = Ok ws -> router_answered mode caller ws.
Proof.
  unfold fetch_owned_wallets. destruct mode as [endpoint |]; [| done].
  intros (bearer & Hb & (resp & Hr & Hrest)%result_bind_ok)%result_bind_ok.
  destruct (http_success resp) eqn:Hs; simpl in Hrest; [| done].
  apply result_bind_ok in Hrest as (env & He & Hrest). apply map_err_ok in Hr, He.
  destruct (header_from_str _) as [bearer' |] eqn:Hh; simpl in Hb; [| done].
  injection Hb as ->.
  assert (Hws : result_bind (ok_or (WalletOwnershipError.QueryError "me.defaultAccount missing")
    (d ← data env; m ← me d; a ← default_account m; Some (wallets a)))
    (fun l => Ok (list_to_set l)) = Ok ws).
  { destruct (errors env) as [[| first rest] |]; done. }
  clear Hrest. apply result_bind_ok in Hws as (l & Hl & [= <-]).
  destruct (data env) as [d |] eqn:Hd; simpl in Hl; [| done].
  destruct (me d) as [m |] eqn:Hm; simpl in Hl; [| done].
  destruct (default_account m) as [acc |] eqn:Hacc; simpl in Hl; [| done].
  injection Hl as <-. by exists endpoint, bearer, resp, env, d, m, acc.
Qed.

(** * End to end *)

Section EndToEnd.
Context {Channel : Type}.
Context `{HexLaws} `{Sha256} `{UuidText} `{TonicText} `{ErrorText} `{Bolt11} `{EventStoreLaws}.
Context `{PR : !EsRepo Payments.desc} `{PRL : !EsRepoLaws (d := Payments.desc)}.
Context `{IR : !EsRepo Invoices.desc} `{IRL : !EsRepoLaws (d := Invoices.desc)}.
Context `{RowOrder} `{LndProto} `{SerdeJson} `{JsonWebToken}.
Context (app : AppHandles Channel).

Notation wired_reaches := (rtc (wired_step app) start).

(** The caller of handler [i] has a token a served key verified, and the router listed
    [w] among the wallets of the subject of this token, to a caller with such a token,
    when the handler asked or within the cache's lifetime before. *)
Definition wallet_owned (l : list exchange) (i : nat) (w : WalletId.t) : Prop :=
  exists caller checked o b,
    Answered checked i (CheckOwnership caller w) o b ∈ l /\ verified l caller /\
    exists j caller' w' o' at_ ws,
      Answered at_ j (CheckOwnership caller' w') o' true ∈ l /\ verified l caller' /\
      CallerAuth.sub caller' = CallerAuth.sub caller /\
      @router_answered (out_router o') (ownership app) caller' ws /\
      WalletId.to_string w ∈ ws /\
      (at_ = checked \/ checked - at_ < ownership_ttl app)%Z.

(** Symphony answered [authorized] to handler [i] for [sat] satoshis of the wallet [w] under
    the key [h]. *)
Definition spend_authorized (l : list exchange) (i : nat) (w : WalletId.t)
    (h : PaymentHash.t) (sat : Z) : Prop :=
  symphony app = Real /\
  exists req o answer,
    consulted l i (AuthorizeSpend req) o /\ out_symphony o (proto_req req) = Ok answer /\
    authorized answer = true /\ sa_sat_amount (proto_req req) = sat /\
    sa_account_kind (proto_req req) = AccountKind.to_proto AccountKind.WalletLiability /\
    sa_account_id (proto_req req) = WalletId.to_string w /\
    sa_idempotency_key (proto_req req) = PaymentHash.to_hex h /\
    sa_correlation_id (proto_req req) = PaymentHash.to_hex h.

(** LND sent the message [m] about the payment [h]: as the first answer to the send of a
    request of this hash, to a lookup of it, or on the subscription. *)
Inductive lnd_sent (l : list exchange) (h : PaymentHash.t) (m : lnrpc.Payment) : Prop :=
| sent_on_send i params o req :
    consulted l i (LndSendPayment params) o ->
    request_hash (BoltInvoice.as_str (SendPaymentParams.bolt_invoice params)) h ->
    payment_request req = BoltInvoice.as_str (SendPaymentParams.bolt_invoice params) ->
    @send_payment_v2_rpc (out_lnd o) req = Ok (Ok (Some m)) -> lnd_sent l h m
| sent_on_lookup i o :
    consulted l i (LndLookupPayment h) o ->
    @track_payment_v2_rpc (out_lnd o) (array_bytes (PaymentHash.as_bytes h)) =
      Ok (Ok (Some m)) -> lnd_sent l h m
| sent_on_stream : Came (PaymentStreamed m) ∈ l -> lnd_sent l h m.

(** *** The parts *)

Lemma checked_owned w i t wallet :
  wired_reaches w -> (config w).2 !! i = Some t ->
  ownership_checked (th_trace t) wallet -> wallet_owned (log w) i wallet.
Proof.
  intros Hr Hi (caller & Hin).
  destruct (answer_genuine app w i t _ _ Hr Hi Hin eq_refl)
    as (Hv & ws & at_ & checked & o & b & Hc & Hw & (j & c' & w' & o' & Ha & Hs & Hv' & Hf) & Ht).
  exists caller, checked, o, b. split; [done |]. split; [done |].
  exists j, c', w', o', at_, ws. split_and!; try done. by apply fetched_answer.
Qed.

Lemma approved_authorized w i t wallet h req :
  wired_reaches w -> (config w).2 !! i = Some t ->
  spend_approved (th_trace t) req -> spend_of wallet h req ->
  (0 <= SymphonyAuthorizeRequest.sat_amount req <= i64_max)%Z ->
  spend_authorized (log w) i wallet h (SymphonyAuthorizeRequest.sat_amount req).
Proof.
  intros Hr Hi (resp & Hin & Happ) (Hacc & Hkey & Hcorr) Hamt.
  destruct (answer_genuine app w i t _ _ Hr Hi Hin) as (o & Hc & Heq).
  destruct (approved_answer _ _ _ _ (eq_sym Heq) Happ) as (Hmode & answer & Hrpc & Hauth).
  split; [done |]. exists req, o, answer. split; [done |]. split; [done |]. split; [done |].
  simpl. rewrite Hacc. split; [by apply u64_as_i64_small |]. by split_and!.
Qed.

Lemma reported_sent w i t h resp :
  wired_reaches w -> (config w).2 !! i = Some t -> lnd_reported (th_trace t) h resp ->
  exists m, lnd_sent (log w) h m /\ lnd_payment_to_send_response m = Ok resp /\
    SendPaymentResponse.payment_hash resp = h.
Proof.
  intros Hr Hi Hsaid. destruct Hsaid as [params resp Hreq Hin Hh | resp Hin | u Hin Hh].
  - destruct (answer_genuine app w i t _ _ Hr Hi Hin) as (o & Hc & Heq).
    destruct (send_payment_message _ _ _ _ (eq_sym Heq)) as (req & m & Hrpc & Htext & Hm).
    exists m. split; [by eapply sent_on_send | done].
  - destruct (answer_genuine app w i t _ _ Hr Hi Hin _ eq_refl) as (o & Hc & Heq).
    destruct (lookup_payment_message _ _ _ _ (eq_sym Heq)) as (m & Hrpc & Hm & Hh).
    exists m. split; [by eapply sent_on_lookup | done].
  - destruct (answer_genuine app w i t _ _ Hr Hi Hin) as (m & Hc & Hu).
    exists m. split; [by apply sent_on_stream |]. unfold payment_to_update in Hu.
    apply result_bind_ok in Hu as (resp & Hm & [= <-]). unfold update_response. simpl in *.
    by destruct resp.
Qed.

(** C2. Authorization, end to end: when a handler of the wired gateway is about to ask LND to
    pay, the payment's intent is stored with exactly this request and fee limit; some key
    the key server had served verified the caller's bearer token; the router's own answer
    - to this subject, when asked or within the cache's lifetime - listed the paying
    wallet; and Symphony's own answer was [authorized], to a wire request for that wallet
    under this payment hash, whose amount covers amount and fee limit and exceeds them by
    less than a satoshi.  Nothing of this is assumed of the collaborators: they are the
    modelled code, run on arbitrary messages. *)
Theorem send_end_to_end w i params k tr :
  wired_reaches w ->
  (config w).2 !! i = Some (Thread (Do (Call (LndSendPayment params)) k) tr) ->
  exists n st es sat,
    params = SendPaymentParams.mk (NewPayment.bolt_invoice n) (NewPayment.max_fee_msat n) 60 /\
    payments (config w).1 !! NewPayment.payment_hash n = Some st /\
    st_events st = NewPayment.initial_event n :: es /\
    wallet_owned (log w) i (NewPayment.wallet_id n) /\
    spend_authorized (log w) i (NewPayment.wallet_id n) (NewPayment.payment_hash n) sat /\
    (MilliSatoshi.as_u64 (NewPayment.amount_msat n) +
       MilliSatoshi.as_u64 (NewPayment.max_fee_msat n) <= sat * 1000 <
     MilliSatoshi.as_u64 (NewPayment.amount_msat n) +
       MilliSatoshi.as_u64 (NewPayment.max_fee_msat n) + 1000)%Z.
Proof.
  intros Hr Hi. pose proof (wired_refines app w Hr) as Hg.
  destruct (gateway_adequacy (mode app) _ _ empty_db_ok Hg) as (_ & _ & Hall).
  destruct (Hall _ _ _ _ Hi) as (n & req & st & es & Hp & Hst & Hev & Hown & Happ & Hof & Hcov & Hamt).
  exists n, st, es, (SymphonyAuthorizeRequest.sat_amount req).
  split_and!; try done; try apply Hcov.
  - by apply (checked_owned w i _ _ Hr Hi).
  - by apply (approved_authorized w i _ _ _ _ Hr Hi Happ Hof).
Qed.

(** C4. Outcomes, end to end: a payment the wired gateway has stored as completed was
    reported by LND in a message whose own fields say so - its hash field is the hex of the
    stored hash, its status [SUCCEEDED], its preimage field the hex of the stored
    preimage, its fee rounded up the stored one, its first route the stored hops - in
    answer to the send, to a lookup or on the subscription; or it is a transfer, at no
    fee, with a preimage of the hash, for which Symphony's own answer was [authorized]
    and LND took the cancellation of the invoice. *)
Theorem paid_end_to_end w h st t pre fees hops :
  wired_reaches w -> payments (config w).1 !! h = Some st ->
  PaymentEvent.Completed t pre fees hops ∈ st_events st ->
  (exists m, lnd_sent (log w) h m /\
     hex_decode (lnrpc.payment_hash m) = Ok (array_bytes (PaymentHash.as_bytes h)) /\
     PaymentStatus_try_from (lnrpc.status m) = Some lnrpc.PS_Succeeded /\
     hex_decode (lnrpc.payment_preimage m) = Ok (array_bytes (Preimage.as_bytes pre)) /\
     fees = msat_or_zero (lnrpc.fee_msat_ m) /\ hops = first_route_hops (lnrpc.htlcs m)) \/
  (fees = MilliSatoshi.ZERO /\ hops = [] /\ Preimage.payment_hash pre = h /\
   exists i sender req o answer o',
     symphony app = Real /\ spend_of sender h req /\
     consulted (log w) i (AuthorizeSpend req) o /\
     out_symphony o (proto_req req) = Ok answer /\ authorized answer = true /\
     consulted (log w) i (LndCancelInvoice h) o' /\
     @cancel_invoice_rpc (out_lnd o') (array_bytes (PaymentHash.as_bytes h)) = Ok tt).
Proof.
  intros Hr Hst He. pose proof (wired_refines app w Hr) as Hg.
  destruct (reachable_witnessed (mode app) _ Hg) as [Hw _].
  destruct (Hw h (PaymentEvent.Completed t pre fees hops)) as (th & Hth & Hev);
    [unfold log_of; by rewrite Hst |].
  apply list_elem_of_lookup in Hth as [i Hi]. destruct Hev as
    [(resp & Hsaid & Hs & Hpre & <- & <-) | (Hf & Hh & Hp & sender & amount & req & Happ & Hof & _ & Hcan)].
  - left. destruct (reported_sent w i th h resp Hr Hi Hsaid) as (m & Hsent & Hm & Hhash).
    destruct (response_of_message m resp Hm) as (Hx & Hstat & Hpx & Hfee & Hhops).
    exists m. split; [done |]. rewrite Hhash in Hx. rewrite Hs in Hstat.
    split_and!; try done; [by apply succeeded_message | by apply Hpx].
  - right. split; [done |]. split; [done |]. split; [done |].
    destruct Happ as (r & Hin & Hap).
    destruct (answer_genuine app w i th _ _ Hr Hi Hin) as (o & Hc & Heq).
    destruct (approved_answer _ _ _ _ (eq_sym Heq) Hap) as (Hmode & answer & Hrpc & Hauth).
    destruct (answer_genuine app w i th _ _ Hr Hi Hcan) as (o' & Hc' & Heq').
    exists i, sender, req, o, answer, o'. split_and!; try done; try apply Hof.
    simpl in Heq'. unfold Lnd.cancel_invoice in Heq'. symmetry in Heq'.
    apply result_bind_ok in Heq' as (_ & _ & Hrpc'). by apply map_err_ok in Hrpc'.
Qed.

(** C6. Preimages, end to end: when a handler of the wired gateway is about to give LND a
    preimage, the gateway holds the invoice of its hash as held, and LND's own message,
    in answer to the lookup this handler made, carries this hash and the state
    [ACCEPTED]. *)
Theorem preimage_end_to_end w i pre k tr :
  wired_reaches w ->
  (config w).2 !! i = Some (Thread (Do (Call (LndSettleInvoice pre)) k) tr) ->
  let h := Preimage.payment_hash pre in
  exists st o m,
    invoices (config w).1 !! h = Some st /\
    existsb InvoiceEvent.is_HtlcHeld (st_events st) = true /\
    consulted (log w) i (LndLookupInvoice h) o /\
    @lookup_invoice_rpc (out_lnd o) (array_bytes (PaymentHash.as_bytes h)) = Ok m /\
    lnrpc.r_hash m = array_bytes (PaymentHash.as_bytes h) /\
    InvoiceState_try_from (lnrpc.state m) = Some lnrpc.IS_Accepted.
Proof.
  intros Hr Hi h. pose proof (wired_refines app w Hr) as Hg.
  destruct (gateway_adequacy (mode app) _ _ empty_db_ok Hg) as (_ & _ & Hall).
  destruct (Hall _ _ _ _ Hi) as (h' & st & u & <- & Hst & Hheld & Hin & Hacc).
  destruct (answer_genuine app w i _ _ _ Hr Hi Hin) as (o & Hc & Heq).
  destruct (lookup_invoice_message _ _ _ _ (eq_sym Heq)) as (m & Hrpc & Hm & Hh).
  destruct (accepted_message m u Hm Hacc) as [Hx Hs]. rewrite Hh in Hx.
  by exists st, o, m.
Qed.
End EndToEnd.

(** * Runs

    A served key, a router that lists both wallets, Symphony that authorizes, LND that pays
    and holds: the handlers of [Gateway]'s runs, on these wires. *)
Section Runs.
#[local] Existing Instance list_hex.
#[local] Existing Instance list_hex_laws.
#[local] Existing Instance list_sha.
#[local] Existing Instance list_uuid.
#[local] Existing Instance list_store.
#[local] Existing Instance list_store_laws.
#[local] Existing Instance map_row_order.
#[local] Existing Instance plain_tonic.
#[local] Existing Instance plain_errors.
#[local] Existing Instance plain_bolt11.
#[local] Existing Instance payments_repo.
#[local] Existing Instance payments_repo_laws.
#[local] Existing Instance invoices_repo.
#[local] Existing Instance invoices_repo_laws.
#[local] Existing Instance lnd_tags.
#[local] Instance empty_json : SerdeJson := {| json_to_string := fun _ => Ok "{}" |}.
#[local] Instance one_key_jwt : JsonWebToken := {|
  JwtError := unit; JwtError_to_string _ := "bad token"; DecodingKey := string;
  decode_header _ := Ok None;
  verify _ token key :=
    if String.eqb key "n" && String.eqb token "jwt" then Ok (MkJwtClaims "sub") else Err tt;
  from_rsa_components n _ := Ok n |}.

Definition paid_message : lnrpc.Payment :=
  lnrpc.MkPayment (PaymentHash.to_hex (hash_of x01)) (Preimage.to_hex (preimage_of x01)) 2
    1500 [] 0.
Definition held_message : lnrpc.Invoice :=
  lnrpc.MkInvoice (array_bytes (PaymentHash.as_bytes (hash_of x09))) [] 3 5000000.

Definition wires : Outside := {|
  out_router := {|
    header_from_str s := Some s;
    post _ _ := Ok (MkHttpResponse true "200"
      (Ok (MkEnvelope (Some (MkMeData (Some (MkMe (Some (MkDefaultAccount
        [WalletId.to_string (wallet_of x02); WalletId.to_string (wallet_of x03)])))))) None))) |};
  out_symphony _ := Ok (MkSpendAuthorizeResponse true "" 0 "");
  out_lnd := {|
    add_hold_invoice_rpc _ := Ok "lnbc-local"; settle_invoice_rpc _ := Ok tt;
    cancel_invoice_rpc _ := Ok tt; lookup_invoice_rpc _ := Ok held_message;
    track_payment_v2_rpc _ := Ok (Ok (Some paid_message));
    send_payment_v2_rpc _ := Ok (Ok (Some paid_message));
    estimate_route_fee_rpc _ := Err (MkStatus Code_Unavailable "");
    track_payments_rpc _ := Ok []; subscribe_single_invoice_rpc _ := Ok [] |};
  out_now := Timestamp.new 5; out_unix := 5; out_uuid := bytes_of x07 16;
  out_random := bytes_of x09 32; out_deadline := false |}.

Definition gateway : AppHandles unit :=
  Handles.new (LndClient.mk LndConfig.stub (Some tt)) Real (OwnReal "router") 60.

Definition turns (i : nat) (from : Z) (n : nat) : list move :=
  map (fun k => Turn i wires (MkEnv (Timestamp.new 5) (Timestamp.new 6) (from + Z.of_nat k)))
    (seq 0 n).

Definition key_round : move := Signal (KeysServed (fun _ => Ok (Ok [Jwk.mk None "n" "e"]))).

Definition paying (n : nat) : list move :=
  [key_round; Request (Some (Some "Bearer jwt")) (ReqPay (pay_input "lnbc-remote"))] ++
  turns 0 1 n.

Definition receiving (n : nat) : list move :=
  [key_round; Request (Some (Some "Bearer jwt"))
     (ReqCreate (LnInvoiceCreateInput.mk (SatAmount.mk 5000) (Some (Minutes.mk 60)) None None
        (GqlWalletId.mk (wallet_of x03))))] ++
  turns 0 1 9 ++
  [Signal (InvoiceStreamed (hash_of x09) held_message); AwaitInvoiceUpdate] ++
  turns 1 20 n.

(** A run, and what holds of the state it ends in, by evaluation. *)
Lemma played ms (check : wired -> bool) :
  match play gateway ms start with Some w => check w | None => false end = true ->
  exists w, rtc (wired_step gateway) start w /\ check w = true.
Proof.
  destruct (play gateway ms start) as [w |] eqn:Hp; [| done]. intros Hc. exists w.
  split; [by eapply play_steps | done].
Qed.

Definition program_at (i : nat) (w : wired) : option (App.app unit) :=
  th_prog <$> ((config w).2 !! i).

Example send_end_to_end_witness :
  exists (w : wired) n sat, rtc (wired_step gateway) start w /\
    spend_authorized gateway (log w) 0 (NewPayment.wallet_id n) (NewPayment.payment_hash n) sat.
Proof.
  destruct (played (paying 9) (fun w =>
    match program_at 0 w with Some (Do (Call (LndSendPayment _)) _) => true | _ => false end))
    as (w & Hr & Hc); [by vm_compute |].
  unfold program_at in Hc. destruct ((config w).2 !! 0) as [[q tr] |] eqn:Hi; [| done].
  simpl in Hc. destruct q as [| [[] |] k]; try done.
  destruct (send_end_to_end gateway w 0 params k tr Hr Hi)
    as (n & st & es & sat & _ & _ & _ & _ & Hs & _).
  exists w, n, sat. split; [exact Hr | exact Hs].
Defined.

Example paid_end_to_end_witness :
  exists (w : wired) e, rtc (wired_step gateway) start w /\ PaymentEvent.is_Completed e = true /\
    match e with
    | PaymentEvent.Completed t pre fees hops =>
        exists m, lnd_sent (log w) (hash_of x01) m \/ Preimage.payment_hash pre = hash_of x01
    | _ => False
    end.
Proof.
  destruct (played (paying 11) (fun w =>
    existsb PaymentEvent.is_Completed (log_of (payments (config w).1) (hash_of x01))))
    as (w & Hr & Hc); [by vm_compute |].
  apply existsb_exists in Hc as (e & He & Hcomp). unfold log_of in He.
  destruct (payments (config w).1 !! hash_of x01) as [st |] eqn:Hst; [| done].
  exists w, e. split; [exact Hr |]. split; [exact Hcomp |]. destruct e; try done.
  apply list_elem_of_In in He.
  destruct (paid_end_to_end gateway w (hash_of x01) st _ _ _ _ Hr Hst He)
    as [(m & Hm & _) | (_ & _ & Hp & _)].
  - exists m. left. exact Hm.
  - exists paid_message. right. exact Hp.
Defined.

Example preimage_end_to_end_witness :
  exists (w : wired) o m, rtc (wired_step gateway) start w /\
    consulted (log w) 1 (LndLookupInvoice (hash_of x09)) o /\
    InvoiceState_try_from (lnrpc.state m) = Some lnrpc.IS_Accepted.
Proof.
  destruct (played (receiving 6) (fun w =>
    match program_at 1 w with
    | Some (Do (Call (LndSettleInvoice pre)) _) =>
        bool_decide (Preimage.payment_hash pre = hash_of x09)
    | _ => false end)) as (w & Hr & Hc); [by vm_compute |].
  unfold program_at in Hc. destruct ((config w).2 !! 1) as [[q tr] |] eqn:Hi; [| done].
  simpl in Hc. destruct q as [| [[] |] k]; try done. apply bool_decide_eq_true_1 in Hc.
  destruct (preimage_end_to_end gateway w 1 preimage k tr Hr Hi)
    as (st & o & m & _ & _ & Hcon & _ & _ & Hs).
  exists w, o, m. rewrite Hc in Hcon. split; [exact Hr |]. split; [exact Hcon | exact Hs].
Defined.
End Runs.
