(* ===== verification/Responsive.v ===== *)
(** Every request is answered, whatever else runs.

    The handlers of GraphQL requests are wait-free: each performs a bounded number of
    effects, on every answer of the outside, and no step of it waits for another handler.
    So from any point of any run, turns of the handler alone - in any outside, with any
    lost connection - bring it to its end, where it has answered its client once.  The
    other handlers but the boot-time recovery are bounded too: an update of LND, and the
    two sweeps through the limits of their queries. *)
From S2P Require Import Prelude Primitives Fees EsEntity Concrete GraphqlTypes Jwks.
From S2P Require Import PaymentEntity InvoiceEntity Outbox Lnd LndClient Symphony Wallet Effects.
From S2P Require Import App Adapters Grpc AppPayment AppInvoice Mutation Jobs.
From S2P Require Import Ledger Evidence Safety SendSafety InvoiceSafety MutationSafety Gateway.
From S2P Require Import Provenance Wired EndToEnd Credits.

(** Runs a program on its credits, an effect at a time. *)
Ltac pay_step :=
  let rec head t := match t with ?f _ => head f | _ => t end in
  match goal with
  | |- within _ _ _ => unfold within
  | |- costs _ _ (bind _ _) _ => apply costs_bind
  | |- costs _ ?n (perform_call ?e) ?Q =>
      let m := eval cbv in (Nat.pred n) in refine (costs_call ext_resp m e Q _); intros ?
  | |- costs _ _ (perform_tx _ _) _ => apply costs_tx; intros ?
  | |- costs _ _ (Do (Call (Panic _)) _) _ => intros ? []
  | |- costs _ _ (Ret _) _ => cbn [costs]
  | |- costs _ _ (match ?x with _ => _ end) _ => destruct x
  | |- costs _ _ ?p _ => let h := head p in unfold h
  | |- True => exact I
  end.
Ltac pay := repeat (cbn beta; pay_step).

Section Bounds.
Context `{Hex} `{Sha256} `{UuidText} `{TonicText} `{ErrorText} `{Bolt11} `{EventStore}.
Context `{PR : !EsRepo Payments.desc} `{IR : !EsRepo Invoices.desc} `{RowOrder}.
Context (mode : Mode).

(** ** The bound of each handler *)

Lemma graphql_handler_within configured authorization request :
  within ext_resp 12 (graphql_handler mode configured authorization request).
Proof. destruct request; pay. Qed.

Lemma payment_update_turn_within : within ext_resp 4 payment_update_turn.
Proof. pay. Qed.

Lemma settle_hold_invoice_within h : within ext_resp 5 (settle_hold_invoice h).
Proof. pay. Qed.

Lemma reconcile_held_invoice_within h : within ext_resp 5 (reconcile_held_invoice h).
Proof. pay. Qed.

Lemma invoice_update_turn_within : within ext_resp 9 invoice_update_turn.
Proof. pay. Qed.

Lemma reconcile_orphan_hold_within h : within ext_resp 4 (reconcile_orphan_hold h).
Proof. pay. Qed.
(** *** The sweeps, through the limits of their queries *)

Lemma costs_read {A E} n (lost : SqlxError -> E) (q : DbState -> result A E) Q :
  (forall s, Q (Err (lost s)) n) -> (forall db, Q (q db) n) ->
  costs ext_resp (S n) (read lost q) Q.
Proof.
  intros Hlost Hq db r db' (env & [(a & Hb & Hr) | (-> & [(e & Hb & ->) | (s & ->)])]);
    [| | apply Hlost].
  - destruct (q db) as [a' | e] eqn:Hqdb; simplify_eq/=.
    destruct Hr as [-> | [s ->]]; [rewrite <- Hqdb; apply Hq | apply Hlost].
  - destruct (q db) as [a' | e'] eqn:Hqdb; simplify_eq/=. rewrite <- Hqdb. apply Hq.
Qed.

Lemma reconcile_all_within hs k : within ext_resp (4 * length hs) (reconcile_all hs k).
Proof.
  revert k. induction hs as [| h hs IH]; intros k; [done |].
  apply (within_le _ (4 + 4 * length hs)); [| simpl; lia]. cbn [reconcile_all].
  apply within_bind; [apply reconcile_orphan_hold_within |]. intros [[] |]; apply IH.
Qed.

Lemma reconcile_each_within hs : within ext_resp (5 * length hs) (reconcile_each hs).
Proof.
  induction hs as [| h hs IH]; [done |].
  apply (within_le _ (5 + 5 * length hs)); [| simpl; lia]. cbn [reconcile_each].
  apply within_bind; [apply reconcile_held_invoice_within | done].
Qed.

Lemma limited_rows {Row Id Ev} sel (limit : nat) (tbl : table Row Id Ev) rows :
  select_limit sel (Z.of_nat limit) tbl = Ok rows -> length (map fst rows) <= limit.
Proof. intros Hs%select_limit_length. rewrite length_map. lia. Qed.

Lemma orphan_hold_run_within : within ext_resp (2 + 4 * 1000) orphan_hold_run.
Proof.
  unfold orphan_hold_run, try_bind, sweep_orphan_holds, map_err_. rewrite <- (Nat.add_0_r (2 + _)).
  apply within_bind; [| by intros []].
  apply costs_bind, (costs_call ext_resp (1 + 4 * 1000) Now). intros now.
  apply costs_bind, costs_bind, costs_read; [done |]. intros db.
  destruct (Payments.list_stranded_initiated _ _ _) as [hs |] eqn:Hl; [| done].
  cbn [costs map_err]. apply result_bind_ok in Hl as (rows & Hrows%map_err_ok & [= <-]).
  apply (limited_rows _ 1000) in Hrows. apply costs_bind.
  eapply within_post; [| done]. apply (within_le _ (4 * length (map fst rows))); [| lia].
  apply reconcile_all_within.
Qed.

Lemma invoice_reconciliation_run_within :
  within ext_resp (1 + 5 * 1000) invoice_reconciliation_run.
Proof.
  unfold invoice_reconciliation_run, try_bind. apply costs_bind, costs_read; [done |]. intros db.
  destruct (Invoices.list_held _ _) as [hs |] eqn:Hl; [| done].
  apply result_bind_ok in Hl as (rows & Hrows%map_err_ok & [= <-]).
  apply (limited_rows _ 1000) in Hrows.
  apply costs_bind. eapply within_post; [| done].
  apply (within_le _ (5 * length (map fst rows))); [| lia]. apply reconcile_each_within.
Qed.

Lemma discard_within {A} n (p : app A) : within ext_resp n p -> within ext_resp n (discard p).
Proof. intros Hp. rewrite <- (Nat.add_0_r n). by apply within_bind. Qed.

(** Every handler but the recovery, which goes through all open invoices, is bounded: twelve
    effects for a request, nine for an update or one hold, the limits of their queries for
    the sweeps. *)
Theorem handler_bounded p :
  gateway_handler mode p ->
  p = discard invoice_subscription_recovery_run \/
  within ext_resp 12 p \/
  (within ext_resp (2 + 4 * 1000) p /\ p = discard orphan_hold_run) \/
  (within ext_resp (1 + 5 * 1000) p /\ p = discard invoice_reconciliation_run).
Proof.
  destruct 1; [| | | | | | | by left]; right.
  - left. apply graphql_handler_within.
  - left. apply discard_within, (within_le _ 4); [apply payment_update_turn_within | lia].
  - left. apply discard_within, (within_le _ 9); [apply invoice_update_turn_within | lia].
  - left. apply discard_within, (within_le _ 5); [apply settle_hold_invoice_within | lia].
  - left. apply discard_within, (within_le _ 5); [apply reconcile_held_invoice_within | lia].
  - right. right. split; [| done]. apply discard_within, invoice_reconciliation_run_within.
  - right. left. split; [| done]. apply discard_within, orphan_hold_run_within.
Qed.

(** ** What a request handler does on the way to its answer *)

(** It waits for no stream of LND, and answers nobody. *)
Definition on_the_way (x : gw_eff) : Prop :=
  match x with
  | Call RecvPaymentUpdate | Call RecvInvoiceUpdate | Call (Respond _ _) => False
  | _ => True
  end.

Definition responds (req : GraphqlRequest) (x : gw_eff) : Prop :=
  exists resp, x = Call (Respond req resp).

Lemma graphql_handler_once configured authorization req :
  once on_the_way (responds req) (graphql_handler mode configured authorization req).
Proof.
  unfold graphql_handler. apply once_bind.
  - unfold authenticate. destruct (bearer_token authorization); [| done].
    split; [done |]. by intros [].
  - intros caller. apply once_bind.
    + destruct req; track.
    + intros resp. left. split; [by exists resp |]. intros []. by exists tt.
Qed.
End Bounds.

(** * Turns of one handler *)

Section Alone.
Context {Channel : Type}.
Context `{HexLaws} `{Sha256} `{UuidText} `{TonicText} `{ErrorText} `{Bolt11} `{EventStoreLaws}.
Context `{PR : !EsRepo Payments.desc} `{PRL : !EsRepoLaws (d := Payments.desc)}.
Context `{IR : !EsRepo Invoices.desc} `{IRL : !EsRepoLaws (d := Invoices.desc)}.
Context `{RowOrder} `{LndProto} `{SerdeJson} `{JsonWebToken}.
Context (app : AppHandles Channel).
Notation wired_reaches := (rtc (wired_step app) start).

(** Only the handler [i] goes on, until it has ended: a turn in each of the given
    outsides, every transaction with its environment and its fault. *)
Fixpoint alone (i : nat) (os : list (Outside * TxEnv * fault)) (w : wired) : option wired :=
  match os, (config w).2 !! i with
  | [], _ | _, Some (Thread (Ret _) _) => Some w
  | (o, env, f) :: os, _ => w ← turn_with app f i o env w; alone i os w
  end.

(** A transaction ends, whatever fails. *)
Lemma transaction_ends f env A E (lost : SqlxError -> E) body (db : DbState) :
  exists r (db' : DbState),
    perform (World (ext_resp := ext_resp) (Env := TxEnv) (fun _ => None) env f)
      (Tx A E lost body) db = Some (r, db').
Proof. cbn. destruct f, (body env db) as [[] |]; by eexists _, _. Qed.

(** A handler that is not at a stream and does not panic can take its turn in every
    outside: an effect, or the first step of an ownership check. *)
Lemma turn_total f i o env w x k tr :
  wired_ok app w -> (config w).2 !! i = Some (Thread (Do x k) tr) ->
  on_the_way x \/ (exists req, responds req x) -> (forall msg, x <> Call (Panic msg)) ->
  exists w', turn_with app f i o env w = Some w' /\
    (forall j, j <> i -> (config w').2 !! j = (config w).2 !! j) /\
    ((exists r db db', sem ext_resp x db r db' /\ i ∉ fetching (adapters w') /\
        (config w').2 !! i = Some (Thread (k r) (tr ++ [Ev x r]))) \/
     (i ∉ fetching (adapters w) /\ i ∈ fetching (adapters w') /\
        (config w').2 !! i = (config w).2 !! i)).
Proof.
  intros Hok Hi Hway Hpanic. unfold turn_with. destruct w as [a [db ts] l].
  cbn [adapters config log snd fst] in *. rewrite Hi.
  assert (Hlt : i < length ts) by by eapply lookup_lt_Some.
  destruct x as [e | A E lost body].
  - destruct (serve app o i e a) as [[[a' b] [r |]] |] eqn:Hs; cbn [mbind option_bind].
    + eexists. split; [done |]. cbn [config snd adapters]. split.
      { intros j Hj. by rewrite list_lookup_insert_ne. }
      left. exists r, db, db. split; [done |]. split; [| by rewrite list_lookup_insert_eq].
      intros Hf. destruct (serve_fetching _ _ _ _ _ _ _ _ Hs i Hf) as [Hf' Hne].
      destruct (ok_waiting _ _ Hok i Hf') as (caller & wl & k' & tr' & Ht & _).
      cbn [config snd] in Ht. simplify_eq. by apply Hne.
    + eexists. split; [done |]. cbn [config snd adapters]. split; [done |]. right.
      destruct (serve_wait _ _ _ _ _ _ _ Hs) as (caller & wl & -> & _ & ->).
      split; [| split; [cbn; set_solver | done]]. intros Hf. cbn in Hs.
      unfold serve_ownership in Hs. rewrite decide_True in Hs by done.
      by destruct (gate_fetched _ _ _ _ _ _).
    + exfalso. destruct e; try discriminate Hs.
      * cbn in Hs. unfold serve_ownership in Hs. case_decide;
          [by destruct (gate_fetched _ _ _ _ _ _) | by destruct (gate_lookup _ _ _ _)].
      * cbn in Hs. unfold serve_spawn in Hs.
        by destruct (InvoiceUpdateDispatcher.spawn_listener_for _ _).
      * by destruct Hway as [[] | (req & resp & [=])].
      * by destruct Hway as [[] | (req & resp & [=])].
      * by apply (Hpanic msg).
  - destruct (transaction_ends f env A E lost body db) as (r & db' & Hp). rewrite Hp.
    cbn [mbind option_bind].
    eexists. split; [done |]. cbn [config snd adapters]. split.
    { intros j Hj. by rewrite list_lookup_insert_ne. }
    left. exists r, db, db'. split; [by eapply perform_sem |].
    split; [| by rewrite list_lookup_insert_eq]. intros Hf.
    destruct (ok_waiting _ _ Hok i Hf) as (caller & wl & k' & tr' & Ht & _).
    cbn [config snd] in Ht. by simplify_eq.
Qed.
Lemma no_panic w i msg k tr :
  wired_reaches w -> (config w).2 !! i <> Some (Thread (Do (Call (Panic msg)) k) tr).
Proof.
  intros Hr Hi. apply wired_refines in Hr.
  destruct (gateway_adequacy _ _ _ empty_db_ok Hr) as (_ & _ & Hall). exact (Hall _ _ _ _ Hi).
Qed.

(** Two turns for an effect are enough. *)
Lemma alone_ends req i os n w p tr :
  wired_reaches w -> (config w).2 !! i = Some (Thread p tr) -> within ext_resp n p ->
  once on_the_way (responds req) p \/ p = Ret tt ->
  2 * n <= length os + (if decide (i ∈ fetching (adapters w)) then 1 else 0) ->
  exists w' tr', alone i os w = Some w' /\ rtc (wired_step app) w w' /\
    (forall j, j <> i -> (config w').2 !! j = (config w).2 !! j) /\
    (config w').2 !! i = Some (Thread (Ret tt) tr').
Proof.
  revert n w p tr. induction os as [| [[o env] f] os IH]; intros n w p tr Hr Hi Hn Honce Hlen;
    cbn [alone length] in *; rewrite ?Hi.
  - assert (n = 0) as -> by (destruct (decide _); lia).
    destruct p as [[] | x k]; [by exists w, tr | done].
  - destruct p as [[] | x k]; [by exists w, tr |]. destruct Honce as [Honce |]; [| done].
    destruct n as [| n]; [done |].
    destruct (turn_total f i o env w x k tr) as (w1 & Ht & Hoth & Hstep); [| done | | |].
    { by apply wired_reaches_ok. }
    { destruct Honce as [[Hx _] | [Hx _]]; [right; by exists req | by left]. }
    { intros msg ->. by eapply no_panic. }
    rewrite Ht. cbn [mbind option_bind]. apply turn_with_step in Ht.
    assert (Hnext : exists m p1 tr1, (config w1).2 !! i = Some (Thread p1 tr1) /\
      within ext_resp m p1 /\ (once on_the_way (responds req) p1 \/ p1 = Ret tt) /\
      2 * m <= length os + (if decide (i ∈ fetching (adapters w1)) then 1 else 0)).
    { destruct Hstep as [(r & db & db' & Hs & Hf & Hi1) | (Hf & Hf1 & Hi1)].
      - exists n, (k r), (tr ++ [Ev x r]). split; [done |]. split; [by apply (Hn db r db') |].
        split; [| rewrite decide_False by done; destruct (decide _); lia].
        destruct Honce as [[_ Hk] | [_ Hk]]; [right | left; apply Hk].
        destruct (Hk r) as [[] ->]. done.
      - exists (S n), (Do x k), tr. split; [by rewrite Hi1 |]. split; [done |].
        split; [by left |]. rewrite decide_True by done. rewrite decide_False in Hlen by done.
        lia. }
    destruct Hnext as (m & p1 & tr1 & Hi1 & Hm & Honce1 & Hlen1).
    destruct (IH m w1 p1 tr1) as (w' & tr' & Ha & Hr' & Hoth' & Hi'); try done.
    { by eapply rtc_r. }
    exists w', tr'. split; [done |]. split; [by eapply rtc_l |].
    split; [| done]. intros j Hj. by rewrite Hoth', Hoth.
Qed.

(** C9. Every request is answered, and no other handler can prevent it.  From any
    configuration a run has reached after the request came in - whatever other handlers
    were started, are in the middle of, or wait for - turns of its handler alone bring it
    to its end: two for an effect, in any state of the systems outside, with any
    connection lost.  It has then made at most eleven effects and answered its client,
    once, as its last act; the other handlers are where they were. *)
Theorem request_answered w0 configured authorization req w os :
  wired_reaches w0 ->
  rtc (wired_step app)
    (spawned w0 (graphql_handler (mode app) configured authorization req)) w ->
  24 <= length os ->
  let i := length (config w0).2 in
  exists w' tr resp,
    alone i os w = Some w' /\ rtc (wired_step app) w w' /\
    (forall j, j <> i -> (config w').2 !! j = (config w).2 !! j) /\
    (config w').2 !! i = Some (Thread (Ret tt) (tr ++ [Ev (Call (Respond req resp)) tt])) /\
    length tr <= 11 /\ Forall (fun ev => on_the_way (effect_of ev)) tr.
Proof.
  intros Hr0 Hr Hlen i. set (p := graphql_handler _ _ _ _) in *.
  assert (Hr1 : wired_reaches (spawned w0 p)).
  { eapply rtc_r; [exact Hr0 |]. destruct w0 as [a [db ts] l].
    apply wired_spawn, gh_graphql. }
  assert (Hi1 : (config (spawned w0 p)).2 !! i = Some (Thread p [])).
  { cbn. by rewrite lookup_app_r, Nat.sub_diag by done. }
  assert (Hrun : forall w, rtc (wired_step app) (spawned w0 p) w ->
    exists q tr, (config w).2 !! i = Some (Thread q tr) /\ runs ext_resp p tr q).
  { intros w2 Hw2%wired_refines_from. exact (thread_runs _ _ _ _ _ _ _ Hw2 Hi1). }
  pose proof (graphql_handler_within (mode app) configured authorization req) as Hwithin.
  pose proof (graphql_handler_once (mode app) configured authorization req) as Honce.
  destruct (Hrun w Hr) as (q & tr & Hi & Hq).
  destruct (runs_within _ _ _ _ _ Hwithin Hq) as [_ Hw].
  destruct (alone_ends req i os (12 - length tr) w q tr) as (w' & tr' & Ha & Hr' & Hoth & Hi').
  { by etransitivity. }
  { done. }
  { done. }
  { destruct (runs_once _ _ _ _ _ _ Honce Hq) as [[Ho _] | ([] & _ & _ & Ho & _)];
      [by left | by right]. }
  { lia. }
  assert (Hr2 : rtc (wired_step app) (spawned w0 p) w') by by etransitivity.
  destruct (Hrun w' Hr2) as (q' & tr2 & Hi2 & Hq'). rewrite Hi' in Hi2. injection Hi2 as <- <-.
  destruct (runs_once _ _ _ _ _ _ Honce Hq') as [[[] _] | (u & t & ev & _ & -> & Hev & Hway)].
  destruct (runs_within _ _ _ _ _ Hwithin Hq') as [Hle _]. rewrite length_app in Hle.
  destruct ev as [x r]. cbn in Hev. destruct Hev as [resp ->]. destruct r. exists w', t, resp.
  split_and!; try done. cbn in Hle. lia.
Qed.
End Alone.

Section Run.
#[local] Existing Instance list_hex.
#[local] Existing Instance list_hex_laws.
#[local] Existing Instance list_sha.
#[local] Existing Instance list_uuid.
#[local] Existing Instance list_store.
#[local] Existing Instance list_store_laws.
#[local] Existing Instance map_row_order.
#[local] Existing Instance plain_tonic.
#[local] Existing Instance plain_errors.
#[local] Existing Instance plain_bolt11.
#[local] Existing Instance payments_repo.
#[local] Existing Instance payments_repo_laws.
#[local] Existing Instance invoices_repo.
#[local] Existing Instance invoices_repo_laws.
#[local] Existing Instance lnd_tags.
#[local] Existing Instance empty_json.
#[local] Existing Instance one_key_jwt.

(** A payment stopped right before LND is asked to send; then every connection is lost
    after its commit. *)
Example request_answered_witness :
  exists (w : wired) tr resp,
    rtc (wired_step gateway) start w /\
    (config w).2 !! 0 = Some (Thread (Ret tt)
      (tr ++ [Ev (Call (Respond (ReqPay (pay_input "lnbc-remote")) resp)) tt])) /\
    length tr <= 11.
Proof.
  set (token := Some (Some "Bearer jwt")). set (req := ReqPay (pay_input "lnbc-remote")).
  assert (Hc : match play gateway [key_round] start with
    | Some w0 =>
        (length (config w0).2 =? 0) && bool_decide (is_Some (play gateway (turns 0 1 9)
           (spawned w0 (graphql_handler (mode gateway) true token req))))
    | None => false end = true) by (vm_compute; reflexivity).
  destruct (play gateway [key_round] start) as [w0 |] eqn:H0; [| discriminate Hc].
  apply andb_true_iff in Hc as [Hlen%Nat.eqb_eq Hw%bool_decide_eq_true_1].
  destruct Hw as [w H1].
  apply play_steps in H0, H1.
  destruct (request_answered gateway w0 true token req w
    (replicate 24 (wires, MkEnv (Timestamp.new 5) (Timestamp.new 6) 40,
       LostAfter (Sqlx "reset"))) H0 H1 (le_n 24))
    as (w' & tr & resp & _ & Hr & _ & Hi & Hle & _).
  rewrite Hlen in Hi. exists w', tr, resp. split; [| done].
  etransitivity; [exact H0 |]. apply (rtc_l _ _ _ _ (make_step gateway (Request token req) w0 _ eq_refl)).
  by etransitivity.
Defined.
End Run.
