(* ===== verification/Verdict.v ===== *)
(** LND's verdict on a payment is never lost to a race.

    Handlers run on the same payment at once - the client's request, the subscription, the
    orphan-hold sweep - and an optimistic update may fail because another handler was
    faster.  Here that failure is shown harmless for the state the sweep looks for: a
    handler that has heard LND's verdict on a stored payment, and whose transactions the
    database served, ends with the payment moved on from [Initiated], by itself or by the
    handler that was faster.

    [assures] is a triple for one program among others.  It leaves the guarantees to
    [Gateway] - the invariant, and that the storage only grows - and takes them as given at
    every step, so it need only say what the handler itself comes to know. *)
From S2P Require Import Prelude Primitives Fees EsEntity Concrete GraphqlTypes Jwks.
From S2P Require Import PaymentEntity InvoiceEntity Outbox Lnd Symphony Wallet Effects Credits.
From S2P Require Import App Grpc AppPayment AppInvoice Mutation Jobs.
From S2P Require Import Ledger Evidence Safety SendSafety InvoiceSafety MutationSafety Gateway.

(** * Programs among others *)

Section Assures.
Context {ext : Type} (ext_resp : ext -> Type) {Env Db : Type}.
Context (Inv : Db -> Prop) (future : Db -> Db -> Prop).
Notation prog := (prog ext_resp Env Db).
Notation trace := (trace ext_resp Env Db).

Fixpoint assures {A} (p : prog A) (tr : trace) (db : Db) (Q : A -> trace -> Db -> Prop) {struct p} :
    Prop :=
  match p with
  | Ret a => Q a tr db
  | Do x k =>
      forall db1 r db2, future db db1 -> Inv db1 -> sem ext_resp x db1 r db2 ->
        future db1 db2 -> Inv db2 -> assures (k r) (tr ++ [Ev x r]) db2 Q
  end.

Lemma assures_mono {A} (p : prog A) tr db (Q Q' : A -> trace -> Db -> Prop) :
  assures p tr db Q -> (forall a tr' db', Q a tr' db' -> Q' a tr' db') -> assures p tr db Q'.
Proof.
  intros Hp HQ. revert tr db Hp. induction p as [a | x k IH]; intros tr db; [apply HQ |].
  intros Hp db1 r db2 Hf Hi Hs Hf2 Hi2. by apply IH, (Hp db1 r db2).
Qed.

Lemma assures_bind {A B} (p : prog A) (f : A -> prog B) tr db Q :
  assures p tr db (fun a tr' db' => assures (f a) tr' db' Q) -> assures (bind p f) tr db Q.
Proof.
  revert tr db. induction p as [a | x k IH]; intros tr db; [done |].
  intros Hp db1 r db2 Hf Hi Hs Hf2 Hi2. by apply (IH r), (Hp db1 r db2).
Qed.

Lemma assures_call e tr db (Q : ext_resp e -> trace -> Db -> Prop) :
  (forall db1 r, future db db1 -> Inv db1 -> Q r (tr ++ [Ev (Call e) r]) db1) ->
  assures (perform_call e) tr db Q.
Proof. intros HQ db1 r db2 Hf Hi -> _ _. by apply HQ. Qed.

Context `{!PreOrder future}.

(** What holds is kept by a program whose effects, and whose waiting, cannot break it. *)
Lemma assures_kept {A} P (G : trace -> Db -> Prop) (p : prog A) tr db :
  (forall tr db db', G tr db -> future db db' -> G tr db') ->
  (forall tr db x r, P x -> G tr db -> G (tr ++ [Ev x r]) db) ->
  only P p -> G tr db -> assures p tr db (fun _ => G).
Proof.
  intros Hfut Hev. revert tr db. induction p as [a | x k IH]; intros tr db Hp HG; [done |].
  destruct Hp as [Hx Hk]. intros db1 r db2 Hf Hi Hs Hf2 Hi2. apply IH; [done |].
  apply Hev; [done |]. eapply Hfut; [exact HG |]. by etransitivity.
Qed.

(** What a thread assures from some point on holds when it has ended. *)
Lemma thread_assures handlers (c0 c c' : config ext_resp Env Db) i p tr (G : trace -> Db -> Prop) :
  (forall c, reachable handlers c0 c -> Inv c.1) ->
  (forall c c', reachable handlers c0 c -> reachable handlers c c' -> future c.1 c'.1) ->
  (forall tr db db', G tr db -> future db db' -> G tr db') ->
  reachable handlers c0 c -> reachable handlers c c' ->
  c.2 !! i = Some (Thread p tr) -> assures p tr c.1 (fun _ => G) ->
  exists q tr', c'.2 !! i = Some (Thread q tr') /\ assures q tr' c'.1 (fun _ => G).
Proof.
  intros Hinv Hfut HG Hc Hr Hi Hp. revert c' Hr. apply rtc_ind_r; [by exists p, tr |].
  intros c1 c2 Hr Hs (q & tr1 & Hq & Hpost).
  assert (Hc1 : reachable handlers c0 c1) by by (unfold reachable in *; etransitivity).
  assert (Hs' : reachable handlers c1 c2) by by apply rtc_once.
  assert (Hf : future c1.1 c2.1) by by apply Hfut.
  assert (Hi2 : Inv c2.1) by by eapply Hinv, rtc_r.
  pose proof (Hinv _ Hc1) as Hi1.
  assert (Hlater : assures q tr1 c2.1 (fun _ => G)).
  { destruct q as [a | x k]; [by eapply HG |]. intros db1 r db2 Hf1. apply Hpost.
    by etransitivity. }
  destruct Hs as [db ts p' Hp' | db db' ts j x k trj r Hj Hsem]; simpl in *.
  - exists q, tr1. split; [by apply lookup_app_l_Some | done].
  - destruct (decide (j = i)) as [-> | Hne].
    + rewrite Hq in Hj. injection Hj as -> <-. exists (k r), (tr1 ++ [Ev x r]).
      split; [rewrite list_lookup_insert_eq; [done | by eapply lookup_lt_Some] |].
      by apply (Hpost db r db').
    + exists q, tr1. by rewrite list_lookup_insert_ne.
Qed.
End Assures.

Arguments assures {ext} ext_resp {Env Db} Inv future {A} p tr db Q.

(** * Verdicts *)

Section Verdicts.
Context `{HexLaws} `{Bolt11}.
Implicit Types (h : PaymentHash.t) (tr : gw_trace).

(** LND has an outcome, one the gateway can record. *)
Definition conclusive (resp : SendPaymentResponse.t) : bool :=
  match SendPaymentResponse.status resp with
  | SendPaymentStatus.InFlight => false
  | SendPaymentStatus.Succeeded =>
      match SendPaymentResponse.payment_preimage resp with Some _ => true | None => false end
  | SendPaymentStatus.Failed => true
  end.

(** An answer to the send of [h] that says what to do with its row: any, but a success
    without its preimage. *)
Definition send_concludes h (r : result SendPaymentResponse.t LndError.t) : Prop :=
  match r with
  | Ok resp =>
      SendPaymentResponse.payment_hash resp = h ->
      SendPaymentResponse.status resp = SendPaymentStatus.Succeeded ->
      is_Some (SendPaymentResponse.payment_preimage resp)
  | Err _ => True
  end.

(** With this event a handler has heard a verdict on [h]. *)
Definition concludes h (ev : gw_event) : Prop :=
  match ev with
  | Ev x r =>
      match x return answer ext_resp TxEnv DbState x -> Prop with
      | Call e =>
          match e return ext_resp e -> Prop with
          | LndLookupPayment h' => fun r =>
              h' = h /\ exists resp, r = Some (Ok resp) /\ conclusive resp = true
          | RecvPaymentUpdate => fun u =>
              PaymentUpdate.payment_hash u = h /\ conclusive (update_response u) = true
          | LndSendPayment params => fun r =>
              request_hash (BoltInvoice.as_str (SendPaymentParams.bolt_invoice params)) h /\
              send_concludes h r
          | _ => fun _ => False
          end
      | Tx _ _ _ _ => fun _ => False
      end r
  end.

(** The database served the transaction: it committed, or what it met there refused it,
    whatever the clock and the sequence supply. *)
Definition served (ev : gw_event) : Prop :=
  match ev with
  | Ev x r =>
      match x return answer ext_resp TxEnv DbState x -> Prop with
      | Call _ => fun _ => True
      | Tx A E lost body => fun r =>
          (exists a, r = Ok a) \/
          exists e, r = Err e /\ (forall s, e <> lost s) /\
            exists db, forall env, body env db = Err e
      end r
  end.

(** The log of [h] has more than its first event. *)
Definition moved h (db : DbState) : Prop :=
  exists st, payments db !! h = Some st /\ 2 <= length (st_events st).

(** What a handler owes: a verdict it heard is in the log. *)
Definition recorded h tr (db : DbState) : Prop :=
  Exists (concludes h) tr -> Forall served tr -> moved h db.

(** An effect that is no verdict on any payment. *)
Definition verdictless (x : gw_eff) : Prop :=
  match x with
  | Call (LndSendPayment _) | Call (LndLookupPayment _) | Call RecvPaymentUpdate => False
  | _ => True
  end.

Lemma verdictless_event x r h : verdictless x -> ~ concludes h (Ev x r).
Proof. destruct x as [[] |]; simpl; tauto. Qed.

Lemma moved_future h db db' : moved h db -> future db db' -> moved h db'.
Proof.
  intros (st & Hst & Hlen) [Hf _]. destruct (Hf _ _ Hst) as (st' & Hst' & _ & Hpre).
  exists st'. split; [done |]. apply prefix_length in Hpre. lia.
Qed.

Lemma recorded_future h tr db db' : recorded h tr db -> future db db' -> recorded h tr db'.
Proof. intros Hr Hf Hc Hs. by eapply moved_future, Hf; apply Hr. Qed.

Lemma recorded_event h tr db ev :
  ~ concludes h ev -> recorded h tr db -> recorded h (tr ++ [ev]) db.
Proof.
  intros Hev Hr [Hc | Hc]%Exists_app Hs; apply Forall_app in Hs as [Hs _]; [by apply Hr |].
  inversion Hc as [? ? Hx | ? ? Hx]; subst; [done | inversion Hx].
Qed.

Lemma recorded_nil h db : recorded h [] db.
Proof. intros Hc. inversion Hc. Qed.

(** Once it has moved nothing is owed any more. *)
Definition settled h tr (db : DbState) : Prop := Forall served tr -> moved h db.

Lemma settled_future h tr db db' : settled h tr db -> future db db' -> settled h tr db'.
Proof. intros Hr Hf Hs. by eapply moved_future, Hf; apply Hr. Qed.

Lemma settled_event h tr db ev : settled h tr db -> settled h (tr ++ [ev]) db.
Proof. intros Hr Hs. apply Hr. by apply Forall_app in Hs as [Hs _]. Qed.

Lemma settled_is_recorded h tr db : settled h tr db -> recorded h tr db.
Proof. intros Hr _. exact Hr. Qed.
End Verdicts.

Lemma only_all {ext} {ext_resp : ext -> Type} {Env Db A} (p : prog ext_resp Env Db A) :
  only (fun _ => True) p.
Proof. induction p as [a | x k IH]; [done |]. by split. Qed.

Section Handlers.
Context `{HexLaws} `{Sha256} `{UuidText} `{TonicText} `{ErrorText} `{Bolt11} `{EventStoreLaws}.
Context `{PR : !EsRepo Payments.desc} `{PRL : !EsRepoLaws (d := Payments.desc)}.
Context `{IR : !EsRepo Invoices.desc} `{IRL : !EsRepoLaws (d := Invoices.desc)}.
Context `{RowOrder} (h : PaymentHash.t).

Notation assured p tr db Q := (assures ext_resp db_ok future p tr db Q).
(** A program after which nothing is owed. *)
Notation keeps p tr db := (assured p tr db (fun _ => recorded h)).

Lemma keeps_silent {A} (p : app A) tr db :
  only verdictless p -> recorded h tr db -> keeps p tr db.
Proof.
  apply assures_kept; [apply _ | apply recorded_future |].
  intros tr' db' x r Hx. by apply recorded_event, verdictless_event.
Qed.

Lemma settled_rest {A} (p : app A) tr db :
  settled h tr db -> assured p tr db (fun _ => settled h).
Proof.
  apply (assures_kept ext_resp db_ok future (fun _ => True)); [apply settled_future | | apply only_all].
  intros tr' db' x r _. apply settled_event.
Qed.

Lemma keeps_settled {A} (p : app A) tr db :
  assured p tr db (fun _ => settled h) -> keeps p tr db.
Proof. intros Hp. eapply assures_mono; [exact Hp |]. intros a. by apply settled_is_recorded. Qed.

Lemma settled_bind {A B} (p : app A) (f : A -> app B) tr db :
  assured p tr db (fun _ => settled h) -> assured (bind p f) tr db (fun _ => settled h).
Proof.
  intros Hp. apply assures_bind. eapply assures_mono; [exact Hp |]. intros. by apply settled_rest.
Qed.

Lemma assured_tx {T E} (lost : SqlxError -> E) (body : TxEnv -> DbState -> result (T * DbState) E)
    tr db (Q : result T E -> gw_trace -> DbState -> Prop) :
  (forall db1 r db2, future db db1 -> db_ok db1 -> sem ext_resp (Tx T E lost body) db1 r db2 ->
     future db1 db2 -> Q r (tr ++ [Ev (Tx T E lost body) r]) db2) ->
  assured (perform_tx lost body) tr db Q.
Proof. intros HQ db1 r db2 Hf Hi Hs Hf2 _. by apply (HQ db1). Qed.

(** ** A payment in memory that can still move *)

Definition movable (p : Payment.t) (db : DbState) : Prop :=
  Payment.payment_hash p = h /\ knows_payment p db /\
  iter_persisted (Payment.events p) <> [] /\
  (Payment.state p = PaymentState.Initiated \/ Payment.state p = PaymentState.Pending).

Lemma movable_future p db db' : future db db' -> movable p db -> movable p db'.
Proof. intros Hf (Hh & Hk & Hne & Hs). split_and!; try done. by apply (knows_payment_future p db). Qed.

(** An executed command leaves a payment with something to write. *)
Definition to_write (p : Payment.t) (db : DbState) : Prop :=
  Payment.payment_hash p = h /\ knows_payment p db /\
  iter_persisted (Payment.events p) <> [] /\ iter_new (Payment.events p) <> [].

Lemma to_write_future p db db' : future db db' -> to_write p db -> to_write p db'.
Proof. intros Hf (Hh & Hk & Hne & Hs). split_and!; try done. by apply (knows_payment_future p db). Qed.

Lemma command_to_write c p db :
  movable p db -> lifecycle c (Payment.state p) = Ok Executed -> to_write (run_command c p).1 db.
Proof.
  intros (Hh & Hk & Hne & _) Hl. pose proof Hk as [Hwf _].
  destruct (run_command_executed c p Hwf Hl) as [Hnew Hh'].
  split; [by rewrite Hh' |]. split; [by apply knows_payment_command |].
  split; [| rewrite Hnew; by destruct (iter_new (Payment.events p))].
  rewrite run_command_answer by done. simpl. rewrite Hl.
  destruct c; simpl; by autorewrite with events.
Qed.

(** Writing it moves the log; and when it cannot be written, another handler has. *)
Lemma write_moves p p' tbl db :
  to_write p db -> update_in_op Payments.desc p (payments db) = Ok (p', tbl) ->
  forall inv ob, moved h (MkDb tbl inv ob).
Proof.
  intros (Hh & Hk & Hne & Hnew) Hup inv ob.
  destruct (payment_update_outcome _ _ _ _ Hk Hnew Hup) as (st & Hst & _ & Hev & _ & ->).
  exists (Stored (st_id st) (Payments.update_row p (st_row st))
            (st_events st ++ iter_new (Payment.events p))).
  split; [cbn; rewrite Hh; apply lookup_insert_eq |]. cbn. rewrite Hev, length_app.
  destruct (iter_persisted _), (iter_new _); try done. cbn. lia.
Qed.

Lemma refused_moved p e db :
  to_write p db -> update_in_op Payments.desc p (payments db) = Err e ->
  e = ConcurrentModification /\ moved h db.
Proof.
  intros (Hh & (Hwf & st & Hst & Hid & Hpre) & Hne & Hnew).
  rewrite (update_in_op_spec p (payments db) st) by done. case_decide as Hlen; intros [= <-].
  split; [done |]. exists st. rewrite <- Hh. split; [done |].
  apply prefix_length in Hpre. destruct (iter_persisted _); [done |]. cbn in *. lia.
Qed.

(** Some value of the sequence is not used yet. *)
Lemma publish_possible db :
  exists v, forall e env, nextval env = v -> exists r, outbox_publish_in_tx e env db = Ok r.
Proof.
  set (seqs := map OutboxRow.sequence (outbox db)). exists (base.fresh seqs). intros e env Hv.
  unfold outbox_publish_in_tx, EventPublisher.publish_in_tx. rewrite Hv.
  destruct (existsb _ _) eqn:Hx; [| by eexists].
  apply existsb_exists in Hx as (r & Hr & Heq%Z.eqb_eq).
  destruct (infinite_is_fresh seqs). rewrite <- Heq. apply list_elem_of_fmap.
  exists r. by apply list_elem_of_In in Hr.
Qed.

(** ** The writes *)

Lemma settled_last tr ev db : (served ev -> moved h db) -> settled h (tr ++ [ev]) db.
Proof. intros Hev Hs. apply Hev. apply Forall_app in Hs as [_ Hs]. by inversion Hs. Qed.

Lemma commit_settles p mk tr db :
  to_write p db ->
  assured (in_tx (let# p' := payments_update_in_op p in
                  let# t := tx_utc_now in
                  let# _ := outbox_publish_in_tx (mk t) in
                  tx_ret p')) tr db (fun _ => settled h).
Proof.
  intros Hp. apply assured_tx. intros db1 r db2 Hf Hi Hs _.
  apply (to_write_future _ _ _ Hf) in Hp. apply settled_last. intros Hserved.
  destruct Hs as (env & [(a & Hb & _) | (-> & Hr)]).
  - unfold tx_bind, payments_update_in_op in Hb.
    destruct (update_in_op Payments.desc p (payments db1)) as [[p' tbl] |] eqn:Hup; [| done].
    cbn in Hb. destruct (outbox_publish_in_tx _ _ _) as [[seq db3] |] eqn:Hpub; [| done].
    apply publish_outcome in Hpub as [-> _]; [| apply Hi]. injection Hb as <- <-.
    by eapply write_moves.
  - destruct (update_in_op Payments.desc p (payments db1)) as [[p' tbl] | e] eqn:Hup;
      [| by apply (refused_moved p e)].
    exfalso. destruct Hserved as [[a ->] | (e & -> & Hlost & db0 & Hall)].
    { destruct Hr as [(e & _ & [=]) | (s & [=])]. }
    destruct Hr as [(e' & Hb & [= <-]) | (s & [= ->])]; [| by apply (Hlost s)].
    assert (He : exists o, e = AppError.Outbox o).
    { unfold tx_bind, payments_update_in_op in Hb. rewrite Hup in Hb. cbn in Hb.
      destruct (outbox_publish_in_tx _ _ _) as [[] | oe] eqn:Hpub; [done |].
      injection Hb as <-. by eapply publish_error. }
    destruct He as [o ->]. unfold tx_bind, payments_update_in_op in Hall.
    destruct (update_in_op Payments.desc p (payments db0)) as [[p0 tbl0] | e0]; [| by specialize (Hall env)].
    destruct (publish_possible (MkDb tbl0 (invoices db0) (outbox db0))) as (v & Hv).
    destruct (Hv (mk (Timestamp.new 0)) (MkEnv (Timestamp.new 0) (Timestamp.new 0) v) eq_refl)
      as ([seq db3] & Hpub).
    specialize (Hall (MkEnv (Timestamp.new 0) (Timestamp.new 0) v)). cbn in Hall.
    unfold tx_bind in Hall. cbn in Hall. cbn in Hpub. by rewrite Hpub in Hall.
Qed.

Lemma update_settles p tr db :
  to_write p db -> assured (update_payment p) tr db (fun _ => settled h).
Proof.
  intros Hp. apply assured_tx. intros db1 r db2 Hf Hi Hs _.
  apply (to_write_future _ _ _ Hf) in Hp. apply settled_last. intros Hserved.
  destruct Hs as (env & [(a & Hb & _) | (-> & Hr)]).
  - destruct (update_in_op Payments.desc p (payments db1)) as [[p' tbl] |] eqn:Hup; [| done].
    injection Hb as <- <-. by eapply write_moves.
  - destruct (update_in_op Payments.desc p (payments db1)) as [[p' tbl] | e] eqn:Hup;
      [| by apply (refused_moved p e)].
    exfalso. destruct Hserved as [[a ->] | (e & -> & Hlost & _)].
    { destruct Hr as [(e & _ & [=]) | (s & [=])]. }
    destruct Hr as [(e' & Hb & [= <-]) | (s & [= ->])]; [done | by apply (Hlost s)].
Qed.

(** ** The commands of the handlers *)

Lemma commit_completed_settles p amt pre fees hops now tr db :
  movable p db ->
  assured (commit_completed p h amt pre fees hops now) tr db (fun _ => settled h).
Proof.
  intros Hp. pose proof Hp as (_ & [Hwf _] & _ & Hs). unfold commit_completed.
  pose proof (run_command_answer (Settle pre fees hops now) p Hwf) as Hrun.
  pose proof (command_to_write (Settle pre fees hops now) p db Hp) as Hw. cbn in Hrun, Hw.
  destruct (Payment.settle pre fees hops now p) as [p' r]. cbn in Hw.
  destruct Hs as [Hs | Hs]; rewrite Hs in *; injection Hrun as -> ->;
    apply commit_settles, Hw; done.
Qed.

Lemma commit_failed_settles p amt reason now tr db :
  movable p db -> assured (commit_failed p h amt reason now) tr db (fun _ => settled h).
Proof.
  intros Hp. pose proof Hp as (_ & [Hwf _] & _ & Hs). unfold commit_failed.
  pose proof (run_command_answer (Fail_ reason now) p Hwf) as Hrun.
  pose proof (command_to_write (Fail_ reason now) p db Hp) as Hw. cbn in Hrun, Hw.
  destruct (Payment.fail reason now p) as [p' r]. cbn in Hw.
  destruct Hs as [Hs | Hs]; rewrite Hs in *; injection Hrun as -> ->;
    apply commit_settles, Hw; done.
Qed.

(** Marking an initiated payment pending, in memory. *)
Lemma mark_pending_movable now p db :
  movable p db -> Payment.state p = PaymentState.Initiated ->
  exists p', Payment.mark_pending now p = (p', Ok Executed) /\ movable p' db /\ to_write p' db.
Proof.
  intros Hp Hs. pose proof Hp as (Hh & Hk & Hne & _). pose proof Hk as [Hwf _].
  pose proof (run_command_answer (MarkPending now) p Hwf) as Hrun. rewrite Hs in Hrun.
  pose proof (command_to_write (MarkPending now) p db Hp) as Hw. rewrite Hs in Hw. cbn in Hrun, Hw.
  rewrite Hrun in Hw |- *. eexists. split; [done |]. specialize (Hw eq_refl).
  split; [| exact Hw]. destruct Hw as (Hh' & Hk' & Hne' & _). split_and!; try done. by right.
Qed.

Lemma settle_inline_settles p amt pre fees hops now tr db :
  movable p db -> Payment.state p = PaymentState.Initiated ->
  assured (settle_inline p h amt pre fees hops now) tr db (fun _ => settled h).
Proof.
  intros Hp Hs. destruct (mark_pending_movable now p db Hp Hs) as (p' & Hm & Hp' & _).
  unfold settle_inline. rewrite Hm. by apply commit_completed_settles.
Qed.

Lemma fail_inline_settles p amt reason now tr db :
  movable p db -> Payment.state p = PaymentState.Initiated ->
  assured (fail_inline p h amt reason now) tr db (fun _ => settled h).
Proof.
  intros Hp Hs. destruct (mark_pending_movable now p db Hp Hs) as (p' & Hm & Hp' & _).
  unfold fail_inline. rewrite Hm. by apply commit_failed_settles.
Qed.

Lemma transition_settles p now tr db :
  movable p db -> Payment.state p = PaymentState.Initiated ->
  assured (transition_to_pending p h now) tr db (fun _ => settled h).
Proof.
  intros Hp Hs. destruct (mark_pending_movable now p db Hp Hs) as (p' & Hm & _ & Hw).
  unfold transition_to_pending. rewrite Hm. by apply settled_bind, update_settles.
Qed.

Lemma dispatch_settles p amt now resp tr db :
  movable p db -> Payment.state p = PaymentState.Initiated -> send_concludes h (Ok resp) ->
  assured (dispatch_lnd_response p h amt now resp) tr db (fun _ => settled h).
Proof.
  intros Hp Hs Hc. unfold dispatch_lnd_response. case_decide as Hh; [by apply fail_inline_settles |].
  specialize (Hc Hh).
  destruct (SendPaymentResponse.status resp).
  - by apply transition_settles.
  - destruct (Hc eq_refl) as [pre ->]. by apply settle_inline_settles.
  - by apply fail_inline_settles.
Qed.

(** ** The handlers that hear verdicts *)

(** The state of a loaded payment, and its log. *)
Lemma found_movable p db :
  db_ok db -> find_by_payment_hash Payments.desc h (payments db) = Ok p ->
  movable p db \/ moved h db.
Proof.
  intros Hdb Hfind. destruct (find_payment_in_hand _ _ _ Hdb Hfind) as [[Hk _] Hh].
  pose proof (found_clean _ _ _ Hfind) as Hnew. pose proof Hk as [[_ Hlog] (st & Hst & _ & Hpre)].
  rewrite iter_all_split, Hnew, app_nil_r in Hlog. rewrite Hh in Hst.
  assert (Hne : iter_persisted (Payment.events p) <> []).
  { intros Hnil. rewrite Hnil in Hlog. by destruct (payment_log_head _ _ Hlog) as (? & ? & [=] & _). }
  assert (Hcase : Payment.state p = PaymentState.Initiated \/
                  2 <= length (iter_persisted (Payment.events p))).
  { inversion Hlog as [n Hl Hs | l s e s' Hl Hstep Heq Hs]; subst; [by left | right].
    rewrite length_app. destruct (payment_log_head _ _ Hl) as (? & ? & -> & _). cbn. lia. }
  destruct Hcase as [Hs | Hlen]; [left; split_and!; auto |]. right. exists st. split; [done |].
  apply prefix_length in Hpre. lia.
Qed.

(** A read answers what is stored, or is not served. *)
Lemma assured_read {A E} (lost : SqlxError -> E) (q : DbState -> result A E) tr db
    (Q : result A E -> gw_trace -> DbState -> Prop) :
  (forall db1 r ev, future db db1 -> db_ok db1 -> ~ concludes h ev ->
     r = q db1 \/ ~ served ev -> Q r (tr ++ [ev]) db1) ->
  assured (read lost q) tr db Q.
Proof.
  intros HQ. apply assured_tx. intros db1 r db2 Hf Hi Hs _.
  assert (Hl : forall s, r = Err (lost s) -> ~ served (Ev (Tx A E lost
    (fun (_ : TxEnv) db => let? a := q db in Ok (a, db))) r)).
  { intros s -> [[a [=]] | (e & [= <-] & Hne & _)]. by apply (Hne s). }
  destruct Hs as (env & [(a & Hb & Hr) | (-> & Hr)]).
  - destruct (q db1) as [a' |] eqn:Hq; [| done]. cbn in Hb. injection Hb as -> <-.
    apply HQ; [done | done | by intros [] |]. rewrite Hq. destruct Hr as [Hr | [s Hr]]; [by left | right; by eapply Hl].
  - apply HQ; [done | done | by intros [] |]. destruct Hr as [(e & Hb & ->) | [s Hr]]; [left | right; by eapply Hl].
    destruct (q db1); [done |]. by injection Hb as ->.
Qed.

(** Unserved, a handler owes nothing. *)
Lemma unserved_settled tr ev db : ~ served ev -> settled h (tr ++ [ev]) db.
Proof. intros Hno. by apply settled_last. Qed.

Lemma movable_or_settled p tr db :
  db_ok db -> find_by_payment_hash Payments.desc h (payments db) = Ok p ->
  movable p db \/ settled h tr db.
Proof. intros Hdb [Hm | Hm]%found_movable; [by left | right | done]. by intros _. Qed.

Lemma keeps_from_settled {A} (p : app A) tr db : settled h tr db -> keeps p tr db.
Proof. intros Hs. by apply keeps_settled, settled_rest. Qed.

(** A program that ends the sweep's or the update's branch on [h]: it moves the payment,
    which is in hand unless nothing is owed. *)
Lemma keeps_commit {A} (p : Payment.t) (q : app (result Payment.t AppError.t))
    (k : result Payment.t AppError.t -> app A) tr db :
  movable p db \/ settled h tr db ->
  (movable p db -> assured q tr db (fun _ => settled h)) -> keeps (bind q k) tr db.
Proof.
  intros [Hm | Hs] Hq; [| by apply keeps_from_settled]. by apply keeps_settled, settled_bind, Hq.
Qed.

Lemma reconcile_orphan_hold_keeps h' tr db :
  recorded h tr db -> keeps (reconcile_orphan_hold h') tr db.
Proof.
  intros Hrec. unfold reconcile_orphan_hold, try_bind, map_err_.
  apply assures_bind, assures_bind, assured_read. intros db1 r ev Hf1 Hi1 Hev Hr.
  assert (Hrec1 : recorded h (tr ++ [ev]) db1)
    by by apply recorded_event, (recorded_future _ _ db).
  assert (Hp : forall p, h' = h -> r = Ok p -> movable p db1 \/ settled h (tr ++ [ev]) db1).
  { intros p -> ->. destruct Hr as [Hr | Hr]; [by apply movable_or_settled |].
    right. by apply unserved_settled. }
  clear Hr. generalize dependent (tr ++ [ev]). intros tr1 Hrec1 Hp. cbn [assures map_err].
  destruct r as [p | e]; [| done]. cbn [map_err]. case_decide; [done |].
  apply assures_bind, assures_call. intros db2 now Hf2 Hi2.
  apply assures_bind, assures_call. intros db3 looked Hf3 Hi3. set (tr3 := _ ++ [_]).
  assert (Hf13 : future db1 db3) by by etransitivity.
  assert (Hrec2 : recorded h (tr1 ++ [Ev (Call Now) now]) db3)
    by (apply recorded_event; [by intros [] | by eapply recorded_future]).
  destruct looked as [[resp | e] |]; [| destruct e |];
    try (apply keeps_silent; [done |]; apply recorded_event; [| done];
         by intros (_ & ? & [=] & _)).
  destruct (conclusive resp) eqn:Hcon.
  2: { assert (Hrec3 : recorded h tr3 db3).
       { apply recorded_event; [| done]. intros (_ & ? & [= <-] & Hc). congruence. }
       unfold conclusive in Hcon.
       destruct (SendPaymentResponse.status resp); [done | | done].
       by destruct (SendPaymentResponse.payment_preimage resp). }
  destruct (decide (h' = h)) as [-> | Hne].
  - assert (Hp3 : movable p db3 \/ settled h tr3 db3).
    { destruct (Hp p eq_refl eq_refl) as [Hm | Hs]; [left; by eapply movable_future |].
      right. do 2 apply settled_event. by eapply settled_future. }
    unfold conclusive in Hcon. destruct (SendPaymentResponse.status resp); [done | |].
    + destruct (SendPaymentResponse.payment_preimage resp); [| done].
      apply (keeps_commit p); [done |]. by apply commit_completed_settles.
    + apply (keeps_commit p); [done |]. by apply commit_failed_settles.
  - assert (Hrec3 : recorded h tr3 db3).
    { apply recorded_event; [| done]. by intros (? & _). }
    apply keeps_silent; [| done]. destruct (SendPaymentResponse.status resp); track.
Qed.

Lemma keeps_bind {A B} (p : app A) (f : A -> app B) tr db :
  keeps p tr db -> (forall a tr' db', recorded h tr' db' -> keeps (f a) tr' db') ->
  keeps (bind p f) tr db.
Proof. intros Hp Hf. apply assures_bind. eapply assures_mono; [exact Hp | exact Hf]. Qed.

Lemma reconcile_all_keeps hs k tr db : recorded h tr db -> keeps (reconcile_all hs k) tr db.
Proof.
  revert k tr db. induction hs as [| h' hs IH]; intros k tr db Hr; [done |]. cbn [reconcile_all].
  apply keeps_bind; [by apply reconcile_orphan_hold_keeps |].
  intros [[] |] tr' db' Hr'; by apply IH.
Qed.

Lemma orphan_hold_run_keeps tr db :
  recorded h tr db -> keeps (discard orphan_hold_run) tr db.
Proof.
  intros Hr. unfold discard, orphan_hold_run, sweep_orphan_holds, try_bind, map_err_.
  apply keeps_bind; [| done]. apply keeps_bind; [| by intros []].
  apply keeps_bind; [by apply keeps_silent; [track |] |]. intros now tr1 db1 Hr1.
  apply keeps_bind; [by apply keeps_silent; [track |] |]. intros [hs | e] tr2 db2 Hr2; [| done].
  apply keeps_bind; [by apply reconcile_all_keeps | done].
Qed.

Lemma payment_update_turn_keeps tr db :
  recorded h tr db -> is_Some (payments db !! h) -> keeps (discard payment_update_turn) tr db.
Proof.
  intros Hrec [st Hst]. unfold discard, payment_update_turn.
  apply keeps_bind; [| done]. apply assures_bind, assures_call. intros db0 u Hf0 Hi0.
  destruct (decide (PaymentUpdate.payment_hash u = h)) as [Hh |].
  2: { apply keeps_silent; [track |]. apply recorded_event; [by intros [] |].
       by eapply recorded_future. }
  unfold handle_payment_update. set (tr0 := tr ++ _).
  destruct (conclusive (update_response u)) eqn:Hcon.
  2: { assert (Hr0 : recorded h tr0 db0).
       { apply recorded_event; [| by eapply recorded_future]. intros [_ Hc]. congruence. }
       unfold conclusive in Hcon. cbn in Hcon.
       apply keeps_silent; [| done]. apply only_bind; [track |]. intros [p | e]; [| track].
       destruct (PaymentUpdate.status u); [track | | done].
       destruct (PaymentUpdate.payment_preimage u); [done | track]. }
  apply assures_bind, assured_read. intros db1 r ev Hf1 Hi1 Hev Hr.
  assert (Hp : forall p, r = Ok p -> movable p db1 \/ settled h (tr0 ++ [ev]) db1).
  { intros p ->. destruct Hr as [Hr | Hr]; [| right; by apply unserved_settled].
    rewrite Hh in Hr. by apply movable_or_settled. }
  destruct r as [p | e].
  2: { destruct Hr as [Hr | Hr]; [| by apply keeps_from_settled, unserved_settled]. exfalso.
       assert (Hst1 : exists st', payments db1 !! h = Some st').
       { destruct Hf0 as [Hf0 _], Hf1 as [Hf1 _]. destruct (Hf0 _ _ Hst) as (st0 & Hst0 & _).
         destruct (Hf1 _ _ Hst0) as (st1 & Hst1 & _). by exists st1. }
       destruct Hst1 as [st1 Hst1]. destruct Hi1 as [Hok _]. specialize (Hok h).
       rewrite Hst1 in Hok. destruct Hok as ((q & Hq & _) & _).
       rewrite Hh, find_by_payment_hash_spec, Hst1 in Hr. cbn in Hr. by rewrite Hq in Hr. }
  assert (Hhash : movable p db1 -> Payment.payment_hash p = h) by by intros [].
  apply assures_bind, assures_call. intros db2 now Hf2 Hi2.
  assert (Hp2 : movable p db2 \/ settled h ((tr0 ++ [ev]) ++ [Ev (Call Now) now]) db2).
  { destruct (Hp p eq_refl) as [Hm | Hs]; [left; by eapply movable_future |].
    right. apply settled_event. by eapply settled_future. }
  destruct Hp2 as [Hm | Hs]; [| by apply keeps_from_settled].
  pose proof Hm as [Hhp _]. rewrite Hhp.
  unfold conclusive in Hcon. cbn in Hcon. destruct (PaymentUpdate.status u); [done | |].
  - destruct (PaymentUpdate.payment_preimage u); [| done].
    apply (keeps_commit p); [by left |]. by apply commit_completed_settles.
  - apply (keeps_commit p); [by left |]. by apply commit_failed_settles.
Qed.

(** *** The send *)

Lemma request_hash_unique text h1 h2 : request_hash text h1 -> request_hash text h2 -> h1 = h2.
Proof.
  intros (now1 & d1 & Hd1 & <-) (now2 & d2 & Hd2 & <-). unfold decode_bolt11_at in *.
  destruct (bolt11_from_str text); [| done]. cbn in *.
  destruct (would_expire _ _); [done |]. destruct (would_expire _ _); [done |].
  destruct (array_try_from _); [| done]. cbn in *. by simplify_eq/=.
Qed.

(** The intent just stored is in hand. *)
Lemma persist_intent_keeps {A} n w amt fee dest bolt (k : result Payment.t AppError.t -> app A)
    tr db :
  recorded h tr db -> is_intraledger (NewPayment.max_fee_msat n) = false ->
  (forall p tr' db', recorded h tr' db' ->
     (NewPayment.payment_hash n = h -> movable p db' /\ Payment.state p = PaymentState.Initiated) ->
     keeps (k (Ok p)) tr' db') ->
  (forall e tr' db', recorded h tr' db' -> keeps (k (Err e)) tr' db') ->
  keeps (bind (persist_intent n (NewPayment.payment_hash n) w amt fee dest bolt) k) tr db.
Proof.
  intros Hrec Hil Hok Herr. apply assures_bind, assured_tx. intros db1 r db2 Hf Hi Hs Hf2.
  set (ev := Ev _ r). assert (Hrec2 : recorded h (tr ++ [ev]) db2).
  { apply recorded_event; [by intros [] |]. eapply recorded_future; [done |]. by etransitivity. }
  destruct r as [p | e]; [| by apply Herr]. apply Hok; [done |]. intros Hh.
  destruct Hs as (env & [(a & Hb & Hr) | (_ & [(e & _ & [=]) | (s & [=])])]).
  assert (p = a) as -> by (destruct Hr as [[= Hr] | [s [=]]]; done).
  unfold tx_bind, payments_create_in_op in Hb.
  destruct (create_in_op Payments.desc (db_now env) n (payments db1)) as [[q tbl] |] eqn:Hc; [| done].
  apply payment_create_outcome in Hc as (row & _ & _ & -> & ->). cbn in Hb.
  destruct (outbox_publish_in_tx _ _ _) as [[seq db3] |] eqn:Hpub; [| done].
  apply publish_outcome in Hpub as [-> _]; [| apply Hi]. injection Hb as <- <-.
  split; [| done]. split; [done |].
  split; [eapply intent_in_hand; [done |]; apply lookup_insert_eq |].
  split; [| by left]. cbn. unfold NewPayment.into_events. by autorewrite with events.
Qed.

Lemma send_silent_or_concludes resp :
  (SendPaymentResponse.payment_hash resp = h /\
   SendPaymentResponse.status resp = SendPaymentStatus.Succeeded /\
   SendPaymentResponse.payment_preimage resp = None) \/ send_concludes h (Ok resp).
Proof.
  destruct (SendPaymentResponse.payment_preimage resp) as [pre |] eqn:Hpre.
  { right. intros _ _. by exists pre. }
  destruct (decide (SendPaymentResponse.payment_hash resp = h)) as [Hh | Hne];
    [| by right; intros Hh].
  destruct (SendPaymentResponse.status resp) eqn:Hs; [right | by left | right];
    intros _ Hx; congruence.
Qed.

Lemma send_payment_keeps str_debug req tr db :
  recorded h tr db -> keeps (send_payment str_debug req) tr db.
Proof.
  intros Hrec. unfold send_payment, try_bind.
  apply keeps_bind; [by apply keeps_silent; [track |] |]. intros now tr1 db1 Hr1.
  apply keeps_bind; [by apply keeps_silent; [track |] |]. intros [[] | e] tr2 db2 Hr2; [| done].
  unfold decode_bolt11 at 1.
  set (text := SendPaymentReq.payment_request req).
  apply assures_bind, assures_bind, assures_call. intros db3 now' Hf3 Hi3. cbn [assures].
  set (tr3 := tr2 ++ _). assert (Hr3 : recorded h tr3 db3).
  { apply recorded_event; [by intros [] |]. by eapply recorded_future. }
  destruct (decode_bolt11_at text now') as [d | e] eqn:Hd; [| done].
  pose proof (decode_text _ _ _ Hd) as Hbolt.
  assert (Hhash : request_hash text (DecodedInvoice.payment_hash d)) by by exists now', d.
  apply keeps_bind; [by apply keeps_silent; [track |] |]. intros [[i |] | e] tr4 db4 Hr4; [| | done].
  { apply keeps_silent; [track | done]. }
  apply assures_bind. cbn [assures pure_]. destruct (DecodedInvoice.amount_msat d) as [amt |] eqn:Ha;
    [| done]. cbn [ok_or].
  apply keeps_bind; [by apply keeps_silent; [track |] |]. intros uuid tr5 db5 Hr5.
  apply assures_bind. cbn [assures pure_].
  destruct (NewPayment.try_new _ _ _ _ _ _) as [n | e] eqn:Hn; [| done]. cbn [map_err].
  destruct (try_new_fields _ _ _ _ _ _ _ Ha Hn) as (Hnh & _ & _ & Hnf & _ & Hne).
  rewrite <- Hnh. apply persist_intent_keeps; [done | | | done].
  { rewrite Hnf. unfold is_intraledger. by apply bool_decide_eq_false_2. }
  intros p tr6 db6 Hr6 Hp.
  apply assures_bind, assures_call. intros db7 auth Hf7 Hi7. set (tr7 := tr6 ++ _).
  assert (Hr7 : recorded h tr7 db7)
    by (apply recorded_event; [by intros [] |]; by eapply recorded_future).
  assert (Hp7 : NewPayment.payment_hash n = h ->
    movable p db7 /\ Payment.state p = PaymentState.Initiated).
  { intros Hh. destruct (Hp Hh) as [Hm Hs]. split; [by eapply movable_future | done]. }
  destruct auth as [resp | e]; [| apply keeps_silent; [track | done]].
  destruct (SymphonyAuthorizeResponse.status resp); [| apply keeps_silent; [track | done]].
  apply assures_bind, assures_call. intros db8 sent Hf8 Hi8. set (tr8 := tr7 ++ _).
  destruct (decide (NewPayment.payment_hash n = h)) as [Hh | Hne'].
  - destruct (Hp7 Hh) as [Hm Hs]. apply (movable_future _ _ _ Hf8) in Hm. rewrite Hh.
    destruct sent as [resp' | e]; [| by apply keeps_settled, fail_inline_settles].
    destruct (send_silent_or_concludes resp') as [(Hrh & Hst & Hpre) | Hc];
      [| by apply keeps_settled, dispatch_settles].
    unfold dispatch_lnd_response. rewrite decide_False by tauto.
    rewrite Hst, Hpre. apply recorded_event; [| by eapply recorded_future].
    intros [_ Hc]. destruct (Hc Hrh Hst) as [pre Hx]. congruence.
  - apply keeps_silent; [destruct sent; track |].
    apply recorded_event; [| by eapply recorded_future]. intros [Hx _]. apply Hne'.
    rewrite Hnh. apply (request_hash_unique text); [done |]. cbn in Hx. by rewrite Hbolt in Hx.
Qed.

Lemma graphql_handler_keeps mode configured authorization req tr db :
  recorded h tr db -> keeps (graphql_handler mode configured authorization req) tr db.
Proof.
  intros Hr. unfold graphql_handler. apply keeps_bind; [by apply keeps_silent; [track |] |].
  intros caller tr1 db1 Hr1. apply keeps_bind.
  - destruct req; [apply keeps_silent; [track | done] | | apply keeps_silent; [track | done]].
    cbn [execute]. unfold ln_invoice_payment_send. destruct (negb _); [done |].
    apply keeps_bind; [by apply send_payment_keeps | done].
  - intros resp tr2 db2 Hr2. by apply keeps_silent; [track |].
Qed.

(** ** Every handler *)

Lemma reconcile_each_only hs : only verdictless (reconcile_each hs).
Proof. induction hs; cbn [reconcile_each]; track. done. Qed.

Lemma recovery_only : only verdictless invoice_subscription_recovery_run.
Proof.
  unfold invoice_subscription_recovery_run, run_invoice_subscription_recovery_sweep,
    list_open_invoices, try_bind. apply only_bind; [| intros []; track].
  apply only_bind.
  - apply only_bind; [track |]. intros [rows | e]; [| track]. apply only_bind; [| track].
    induction rows as [| h' rows IH]; cbn [load_each]; [done |].
    apply only_bind; [track |]. intros found. by apply only_bind.
  - intros [open | e]; [| track]. apply only_bind; [| track].
    induction open as [| i open IH]; cbn [spawn_each]; [done |].
    by apply only_bind; [track |].
Qed.

Lemma handler_keeps mode p db :
  gateway_handler mode p -> p = discard payment_update_turn \/ keeps p [] db.
Proof.
  destruct 1 as [configured authorization req | | | h' | h' | | |]; [| by left | ..]; right.
  - apply graphql_handler_keeps, recorded_nil.
  - apply keeps_silent; [track | apply recorded_nil].
  - apply keeps_silent; [track | apply recorded_nil].
  - apply keeps_silent; [track | apply recorded_nil].
  - apply keeps_silent; [| apply recorded_nil]. unfold discard, invoice_reconciliation_run, try_bind.
    apply only_bind; [| track]. apply only_bind; [track |]. intros [hs | e]; [| track].
    apply only_bind; [apply reconcile_each_only | track].
  - apply orphan_hold_run_keeps, recorded_nil.
  - apply keeps_silent; [| apply recorded_nil]. apply only_bind; [apply recovery_only | track].
Qed.
End Handlers.

(** * The theorem *)

Section Recorded.
Context `{HexLaws} `{Sha256} `{UuidText} `{TonicText} `{ErrorText} `{Bolt11} `{EventStoreLaws}.
Context `{PR : !EsRepo Payments.desc} `{PRL : !EsRepoLaws (d := Payments.desc)}.
Context `{IR : !EsRepo Invoices.desc} `{IRL : !EsRepoLaws (d := Invoices.desc)}.
Context `{RowOrder} (mode : Mode).
Notation gateway_reaches := (reachable (gateway_handler mode)).

(** Every thread is a handler on its way, and owes what [handler_keeps] says. *)
Lemma threads_keep h c i q tr :
  gateway_reaches (empty_db, []) c -> c.2 !! i = Some (Thread q tr) ->
  (exists p, runs ext_resp p tr q /\ p = discard payment_update_turn) \/
  assures ext_resp db_ok future q tr c.1 (fun _ => recorded h).
Proof.
  intros Hr. revert i q tr. revert c Hr.
  apply (rtc_ind_r (fun c => forall i q tr, c.2 !! i = Some (Thread q tr) -> _)).
  { by intros i q tr. }
  intros c1 c2 Hr Hs IH i q tr Hi.
  assert (Hcase : c1.2 !! i = None \/ exists t, c1.2 !! i = Some t)
    by (destruct (c1.2 !! i); eauto).
  destruct Hcase as [Hnone | [[q1 tr1] Hi1]].
  - destruct Hs as [db ts p Hp | db db' ts j x k trj r Hj Hsem]; cbn in *.
    + apply lookup_app_Some in Hi as [Hi | [_ Hi]]; [congruence |].
      apply list_lookup_singleton_Some in Hi as [_ [= <- <-]].
      destruct (handler_keeps h mode p db Hp) as [-> | Hk]; [left | by right].
      exists (discard payment_update_turn). split; [constructor | done].
    + apply list_lookup_insert_Some in Hi as [(<- & _ & _) | [_ Hi]]; congruence.
  - assert (Hs' : reachable (gateway_handler mode) c1 c2) by by apply rtc_once.
    destruct (IH _ _ _ Hi1) as [(p & Hrun & ->) | Hk].
    + left. destruct (thread_runs _ _ _ _ _ _ _ Hs' Hi1) as (q2 & tr2 & Hi2 & Hrun2).
      rewrite Hi in Hi2. injection Hi2 as <- ->. eexists. split; [| done]. by eapply runs_trans.
    + right. destruct (thread_assures ext_resp db_ok future (gateway_handler mode) (empty_db, [])
        c1 c2 i q1 tr1 (recorded h)) as (q2 & tr2 & Hi2 & Hk2); try done.
      * intros c. apply gateway_ok.
      * intros c c'. by apply gateway_future.
      * intros t d d'. apply recorded_future.
      * rewrite Hi in Hi2. by injection Hi2 as <- <-.
Qed.

Lemma moved_state h db :
  db_ok db -> moved h db ->
  exists p, find_by_payment_hash Payments.desc h (payments db) = Ok p /\
    Payment.state p <> PaymentState.Initiated.
Proof.
  intros [Hok _] (st & Hst & Hlen). specialize (Hok h). rewrite Hst in Hok.
  destruct Hok as ((p & Hp & [_ Hlog] & _) & _). exists p.
  rewrite find_by_payment_hash_spec, Hst. cbn. rewrite Hp. split; [done |]. intros Hs.
  rewrite Hs, (PaymentTheory.try_from_events_events _ _ Hp), iter_all_load in Hlog.
  inversion Hlog as [n Hl | l s e s' Hl Hstep Heq]; [by rewrite <- Hl in Hlen; cbn in Hlen; lia |].
  by inversion Hstep.
Qed.

Lemma update_turn_after : only_after verdictless (discard payment_update_turn).
Proof.
  intros u. change (only verdictless (bind (handle_payment_update u) (fun _ => Ret tt : app unit))).
  track.
Qed.

Lemma no_verdict h tr : Forall (fun ev => verdictless (effect_of ev)) tr -> ~ Exists (concludes h) tr.
Proof.
  intros Hall (ev & Hin & Hc)%Exists_exists. rewrite Forall_forall in Hall.
  destruct ev as [x r]. by apply (verdictless_event x r h), Hc; apply (Hall _ Hin).
Qed.

(** C8. No verdict of LND is lost to a race on a payment the sweep looks for.  From any
    moment at which the payment [h] is stored: a handler that then hears LND's verdict on
    it - the answer to its send, to a lookup, or an update of the subscription - and whose
    transactions the database serves, leaves a payment that is no longer [Initiated],
    whatever the other handlers of the same payment did in between and however its own
    optimistic update fared. *)
Theorem verdict_recorded c0 c h i p tr0 tr :
  gateway_reaches (empty_db, []) c0 -> is_Some (payments c0.1 !! h) ->
  c0.2 !! i = Some (Thread p tr0) -> gateway_reaches c0 c ->
  c.2 !! i = Some (Thread (Ret tt) (tr0 ++ tr)) ->
  Exists (concludes h) tr -> Forall served (tr0 ++ tr) ->
  exists payment, find_by_payment_hash Payments.desc h (payments c.1) = Ok payment /\
    Payment.state payment <> PaymentState.Initiated.
Proof.
  intros Hr0 Hst Hi0 Hr Hi Hc Hs.
  assert (Hr' : gateway_reaches (empty_db, []) c) by by (unfold reachable in *; etransitivity).
  apply moved_state; [by apply (gateway_ok mode) |].
  assert (Hkeep : forall t, assures ext_resp db_ok future p t c0.1 (fun _ => recorded h) ->
    c0.2 !! i = Some (Thread p t) -> recorded h (tr0 ++ tr) c.1).
  { intros t Hk Ht. destruct (thread_assures ext_resp db_ok future (gateway_handler mode)
      (empty_db, []) c0 c i p t (recorded h)) as (q & tr' & Hi' & Hrec); try done.
    - intros c'. apply gateway_ok.
    - intros c1 c2. by apply gateway_future.
    - intros t' d d'. apply recorded_future.
    - rewrite Hi in Hi'. by injection Hi' as <- <-. }
  assert (Hc' : Exists (concludes h) (tr0 ++ tr)) by by apply Exists_app; right.
  destruct (threads_keep h c0 i p tr0 Hr0 Hi0) as [(p0 & Hrun0 & ->) | Hk];
    [| by apply (Hkeep tr0)].
  destruct (runs_after _ _ _ _ _ update_turn_after Hrun0) as [[-> _] | [Hp _]].
  - apply runs_nil in Hrun0 as ->. apply (Hkeep []); try done.
    by apply payment_update_turn_keeps; [apply recorded_nil |].
  - exfalso. destruct (thread_runs _ _ _ _ _ _ _ Hr Hi0) as (q & tr' & Hi' & Hrun).
    rewrite Hi in Hi'. injection Hi' as <- Htr%app_inv_head. subst tr'.
    destruct (runs_only _ _ _ _ _ Hp Hrun) as [_ Hall]. by apply (no_verdict h tr Hall).
Qed.
End Recorded.

(** * Runs *)

Section Examples.
#[local] Existing Instance list_hex.
#[local] Existing Instance list_hex_laws.
#[local] Existing Instance list_sha.
#[local] Existing Instance list_uuid.
#[local] Existing Instance list_store.
#[local] Existing Instance list_store_laws.
#[local] Existing Instance map_row_order.
#[local] Existing Instance plain_tonic.
#[local] Existing Instance plain_errors.
#[local] Existing Instance plain_bolt11.
#[local] Existing Instance payments_repo.
#[local] Existing Instance payments_repo_laws.
#[local] Existing Instance invoices_repo.
#[local] Existing Instance invoices_repo_laws.

(** A transaction of the event committed, as far as its answer says. *)
Definition answered_ok (ev : gw_event) : bool :=
  match ev with
  | Ev x r =>
      match x return answer ext_resp TxEnv DbState x -> bool with
      | Call _ => fun _ => true
      | Tx _ _ _ _ => is_ok
      end r
  end.

Lemma all_served tr : forallb answered_ok tr = true -> Forall served tr.
Proof.
  rewrite forallb_forall, Forall_forall. intros Hall ev Hin%list_elem_of_In.
  specialize (Hall ev Hin). destruct ev as [[e | A E lost body] r]; [done |].
  left. destruct r as [a |]; [by exists a | done].
Qed.

Definition concludes_send (ev : gw_event) : bool :=
  match ev with
  | Ev (Call (LndSendPayment params)) r =>
      String.eqb (BoltInvoice.as_str (SendPaymentParams.bolt_invoice params)) "lnbc-remote" &&
      match r with
      | Ok resp => match SendPaymentResponse.payment_preimage resp with Some _ => true | _ => false end
      | Err _ => true
      end
  | _ => false
  end.

Lemma concludes_send_spec tr :
  existsb concludes_send tr = true -> Exists (concludes (hash_of x01)) tr.
Proof.
  intros (ev & Hin & Hc)%existsb_exists. apply Exists_exists. exists ev.
  split; [by apply list_elem_of_In |]. destruct ev as [[[] |] r]; try done. cbn in Hc |- *.
  apply andb_true_iff in Hc as [->%String.eqb_eq Hr]. split.
  - exists (Timestamp.new 5). eexists. split; [reflexivity |]. cbn. unfold hash_of. f_equal. by apply array_ext.
  - destruct r as [resp |]; [| done]. intros _ _.
    by destruct (SendPaymentResponse.payment_preimage _); [eexists |].
Qed.

Lemma interleave_reaches ms p c :
  gateway_handler App.Live p -> interleave ms (empty_db, [Thread p []]) = Some c ->
  reachable (gateway_handler App.Live) (empty_db, []) c.
Proof.
  intros Hp Hi. eapply rtc_l; [exact (step_spawn _ _ _ _ empty_db [] p Hp) |].
  by eapply interleave_steps.
Qed.

(** The whole payment; the moment before is the one right after the intent. *)
Example verdict_recorded_witness :
  exists c payment, reachable (gateway_handler App.Live) (empty_db, []) c /\
    find_by_payment_hash Payments.desc (hash_of x01) (payments c.1) = Ok payment /\
    Payment.state payment <> PaymentState.Initiated.
Proof.
  set (c1 := (empty_db, [Thread pay []]) : config ext_resp TxEnv DbState).
  set (schedule := fun from n => map (pair 0) (kind_worlds from n)).
  assert (Hc : match interleave (schedule 1%Z 7) c1 with
    | Some c0 =>
        match c0.2 !! 0, payments c0.1 !! hash_of x01, interleave (schedule 10%Z 4) c0 with
        | Some (Thread _ tr0), Some _, Some c =>
            match c.2 !! 0 with
            | Some (Thread (Ret _) tr) =>
                (length tr0 =? 7) && forallb answered_ok tr &&
                existsb concludes_send (drop 7 tr)
            | _ => false
            end
        | _, _, _ => false
        end
    | None => false end = true) by (vm_compute; reflexivity).
  destruct (interleave (schedule 1%Z 7) c1) as [c0 |] eqn:H0; [| discriminate Hc].
  destruct (c0.2 !! 0) as [[p tr0] |] eqn:Hi0; [| discriminate Hc].
  destruct (payments c0.1 !! hash_of x01) as [st |] eqn:Hst; [| discriminate Hc].
  destruct (interleave (schedule 10%Z 4) c0) as [c |] eqn:H1; [| discriminate Hc].
  destruct (c.2 !! 0) as [[[[] |] tr] |] eqn:Hi; try discriminate Hc.
  apply andb_true_iff in Hc as [[Hlen%Nat.eqb_eq Hok]%andb_true_iff Hs].
  assert (Hr0 : reachable (gateway_handler App.Live) (empty_db, []) c0)
    by (eapply interleave_reaches; [apply gh_graphql | exact H0]).
  apply (interleave_steps _ _ _ (gateway_handler App.Live)) in H1.
  destruct (thread_runs _ _ _ _ _ _ _ H1 Hi0) as (q & tr' & Hi' & _). rewrite Hi in Hi'.
  injection Hi' as <- ->. rewrite <- Hlen, drop_app_length in Hs.
  destruct (verdict_recorded App.Live c0 c (hash_of x01) 0 p tr0 tr' Hr0
    (mk_is_Some _ _ Hst) Hi0 H1 Hi (concludes_send_spec _ Hs) (all_served _ Hok))
    as (payment & Hf & Hp).
  exists c, payment. split; [unfold reachable in *; by etransitivity |]. by split.
Defined.

(** LND answers the send while it is still under way, and sends its outcome on the
    subscription. *)
Definition race_answer (e : ext) : option (ext_resp e) :=
  match e return option (ext_resp e) with
  | LndSendPayment _ =>
      Some (Ok (SendPaymentResponse.mk (hash_of x01) None SendPaymentStatus.InFlight
                  MilliSatoshi.ZERO [] None))
  | RecvPaymentUpdate =>
      Some (PaymentUpdate.mk (hash_of x01) SendPaymentStatus.Succeeded
              (Some (preimage_of x01)) (MilliSatoshi.new 1000) [] None)
  | e => kind_answer e
  end.

Definition race (turns : list nat) : list (nat * world ext_resp TxEnv) :=
  imap (fun k i => (i, World race_answer
    (MkEnv (Timestamp.new 5) (Timestamp.new 6) (1 + Z.of_nat k)) NoFault)) turns.

(** The request is about to mark its payment pending when the update's handler loads it;
    then the request writes first. *)
Definition lost_update : list nat := repeat 0 9 ++ [1; 1; 0; 1; 1; 0].

Definition said_succeeded (ev : gw_event) : bool :=
  match ev with
  | Ev (Call RecvPaymentUpdate) u =>
      bool_decide (PaymentUpdate.payment_hash u = hash_of x01) &&
      bool_decide (PaymentUpdate.status u = SendPaymentStatus.Succeeded) &&
      conclusive (update_response u)
  | _ => false
  end.

(** A race [verdict_recorded] leaves room for: both handlers have ended, LND's final word
    was received and is not recorded - the payment is [Pending] - and the sweep, which
    selects initiated payments, will not ask again. *)
Theorem update_lost_to_race :
  exists c tr0 tr1 u p,
    reachable (gateway_handler App.Live) (empty_db, []) c /\
    c.2 = [Thread (Ret tt) tr0; Thread (Ret tt) tr1] /\
    Ev (Call RecvPaymentUpdate) u ∈ tr1 /\ PaymentUpdate.payment_hash u = hash_of x01 /\
    PaymentUpdate.status u = SendPaymentStatus.Succeeded /\
    conclusive (update_response u) = true /\
    find_by_payment_hash Payments.desc (hash_of x01) (payments c.1) = Ok p /\
    Payment.state p = PaymentState.Pending.
Proof.
  set (c2 := (empty_db, [Thread pay []; Thread (discard payment_update_turn) []])
    : config ext_resp TxEnv DbState).
  assert (Hc : match interleave (race lost_update) c2 with
    | Some c =>
        match c.2, find_by_payment_hash Payments.desc (hash_of x01) (payments c.1) with
        | [Thread (Ret _) _; Thread (Ret _) tr1], Ok p =>
            existsb said_succeeded tr1 && bool_decide (Payment.state p = PaymentState.Pending)
        | _, _ => false
        end
    | None => false end = true) by (vm_compute; reflexivity).
  destruct (interleave (race lost_update) c2) as [c |] eqn:Hi; [| discriminate Hc].
  apply (interleave_steps _ _ _ (gateway_handler App.Live)) in Hi.
  destruct (c.2) as [| [[[] |] tr0] [| [[[] |] tr1] []]] eqn:Hts; try discriminate Hc.
  destruct (find_by_payment_hash _ _ _) as [p |] eqn:Hp; [| discriminate Hc].
  apply andb_true_iff in Hc as [(ev & Hin%list_elem_of_In & Hev)%existsb_exists
    Hs%bool_decide_eq_true_1].
  destruct ev as [[[] |] u]; try discriminate Hev. cbn in Hev.
  apply andb_true_iff in Hev as [[Hh%bool_decide_eq_true_1 Hu%bool_decide_eq_true_1]%andb_true_iff
    Hcon].
  exists c, tr0, tr1, u, p. split_and!; try done.
  eapply rtc_l; [exact (step_spawn _ _ _ _ empty_db [] pay (gh_graphql _ _ _ _)) |].
  eapply rtc_l; [exact (step_spawn _ _ _ _ empty_db _ _ (gh_payment_update _)) |]. exact Hi.
Qed.
End Examples.
