(* ===== verification/Answers.v ===== *)
(** What a client is told, against what its request did.

    [Gateway] shows that an answer never claims more than the database holds when it leaves.
    Here the answer is tied to the request itself, through its exact trace: the status of a
    send is the state its payment had when the request last looked, [ALREADY_PAID] is only
    said by a request that paid and wrote nothing, and an answer with errors never hides a
    payment or a write that went through. *)
From S2P Require Import Prelude Primitives Fees EsEntity Concrete GraphqlTypes Jwks.
From S2P Require Import PaymentEntity InvoiceEntity Outbox Lnd Symphony Wallet Effects Credits.
From S2P Require Import App Grpc AppPayment AppInvoice Mutation Jobs.
From S2P Require Import Ledger Evidence Safety SendSafety InvoiceSafety MutationSafety Gateway.
From S2P Require Import Provenance Wired EndToEnd Responsive Verdict.

(** * What an answer owes *)

Section Told.
Context `{Hex} `{Sha256} `{UuidText} `{Bolt11} `{EventStore}.
Implicit Types (tr : gw_trace) (db : DbState).

Definition read_only {A E} (body : TxEnv -> DbState -> result (A * DbState) E) : Prop :=
  forall env db a db', body env db = Ok (a, db') -> db' = db.

(** Neither LND is asked to pay, nor is anything written: a transaction that could write was
    refused, and its connection was not lost. *)
Definition uninvolved (ev : gw_event) : Prop :=
  match ev with
  | Ev x r =>
      match x return answer ext_resp TxEnv DbState x -> Prop with
      | Call e => fun _ => match e with LndSendPayment _ => False | _ => True end
      | Tx _ _ lost body => fun r =>
          read_only body \/ exists e, r = Err e /\ forall s, e <> lost s
      end r
  end.

(** LND is not asked to pay, and no write is acknowledged: a transaction that could write
    answered an error, which may be that of a lost connection. *)
Definition unacknowledged (ev : gw_event) : Prop :=
  match ev with
  | Ev x r =>
      match x return answer ext_resp TxEnv DbState x -> Prop with
      | Call e => fun _ => match e with LndSendPayment _ => False | _ => True end
      | Tx _ _ _ body => fun r => read_only body \/ exists e, r = Err e
      end r
  end.

(** The state of the payment of a request when the request last looked: the last thing it
    did was a transaction that answered the payment, in this state; what it then saw of the
    log, which gives the state, is the beginning of what is stored now. *)
Definition last_seen tr db (text : string) (s : PaymentState.t) : Prop :=
  exists E (lost : SqlxError -> E) body p st,
    last tr = Some (Ev (Tx Payment.t E lost body) (Ok p)) /\
    request_hash text (Payment.payment_hash p) /\ Payment.state p = s /\
    payments db !! Payment.payment_hash p = Some st /\
    iter_all (Payment.events p) `prefix_of` st_events st /\
    payment_log (iter_all (Payment.events p)) s.

(** LND has taken this request's own payment, and not reported an outcome. *)
Definition lnd_took tr (text : string) : Prop :=
  exists params resp,
    Ev (Call (LndSendPayment params)) (Ok resp) ∈ tr /\
    BoltInvoice.as_str (SendPaymentParams.bolt_invoice params) = text /\
    request_hash text (SendPaymentResponse.payment_hash resp) /\
    SendPaymentResponse.status resp = SendPaymentStatus.InFlight.

(** A status of a send without errors. *)
Definition candid tr db (text : string) (status : PaymentSendResult.t) : Prop :=
  match status with
  | PaymentSendResult.Success => last_seen tr db text PaymentState.Completed
  | PaymentSendResult.Pending =>
      last_seen tr db text PaymentState.Pending /\ lnd_took tr text
  | PaymentSendResult.Failure =>
      last_seen tr db text PaymentState.Failed \/ last_seen tr db text PaymentState.Reversed
  | PaymentSendResult.AlreadyPaid => Forall uninvolved tr
  end.

(** An answer with errors. *)
Definition has_errors (resp : GraphqlResponse) : bool :=
  match resp with
  | RespCreate p => match LnInvoicePayload.errors p with [] => false | _ => true end
  | RespPay p => match PaymentSendPayload.errors p with [] => false | _ => true end
  | RespProbe p => match SatAmountPayload.errors p with [] => false | _ => true end
  | RespError _ => true
  end.

(** Nothing was paid and no write acknowledged; or, for a send, its payment is on record
    under its hash and wallet. *)
Definition accounted tr db (req : GraphqlRequest) : Prop :=
  Forall unacknowledged tr \/
  match req with
  | ReqPay input =>
      payment_for (LnPaymentRequest.text (LnInvoicePaymentInput.payment_request input))
        (GqlWalletId.wallet (LnInvoicePaymentInput.wallet_id input)) (fun _ => true) db
  | _ => False
  end.

Definition sincere tr db (req : GraphqlRequest) (resp : GraphqlResponse) : Prop :=
  match req, resp with
  | ReqPay input, RespPay (PaymentSendPayload.mk [] (Some status) _) =>
      candid tr db (LnPaymentRequest.text (LnInvoicePaymentInput.payment_request input)) status
  | _, _ => has_errors resp = true -> accounted tr db req
  end.

(** ** The terms *)

(** A transaction of an uninvolved event leaves the database as it is. *)
Lemma uninvolved_frame x r db db' :
  uninvolved (Ev x r) -> sem ext_resp x db r db' -> db' = db.
Proof.
  destruct x as [e | A E lost body]; [done |]. intros Hu (env & [(a & Hb & Hr) | [-> _]]); [| done].
  destruct Hu as [Hro | (e & -> & Hlost)]; [by eapply Hro |].
  destruct Hr as [[=] | (s & [= ->])]. by destruct (Hlost s).
Qed.

Lemma uninvolved_unacknowledged tr : Forall uninvolved tr -> Forall unacknowledged tr.
Proof.
  intros Htr. eapply Forall_impl; [exact Htr |]. intros [[e | A E lost body] r]; [done |].
  intros [Hro | (e & -> & _)]; [by left | right; by exists e].
Qed.

Lemma read_only_read {A E} (q : DbState -> result A E) :
  read_only (fun (_ : TxEnv) db => let? a := q db in Ok (a, db)).
Proof. intros env db a db'. destruct (q db); [| done]. by intros [= _ <-]. Qed.

Lemma last_seen_future tr db db' text s :
  future db db' -> last_seen tr db text s -> last_seen tr db' text s.
Proof.
  intros [Hf _] (E & lost & body & p & st & Hl & Hr & Hs & Hst & Hpre & Hlog).
  destruct (Hf _ _ Hst) as (st' & Hst' & _ & Hgrow). exists E, lost, body, p, st'.
  split_and!; try done. by etransitivity.
Qed.

Lemma candid_future tr db db' text status :
  future db db' -> candid tr db text status -> candid tr db' text status.
Proof.
  intros Hf. destruct status; simpl; [done | ..].
  - intros [Hs | Hs]; [left | right]; by eapply last_seen_future.
  - intros [Hs Ht]. split; [by eapply last_seen_future | done].
  - by apply last_seen_future.
Qed.
End Told.

(** * The handlers of requests *)

Section Requests.
Context `{HexLaws} `{Sha256} `{UuidText} `{TonicText} `{ErrorText} `{Bolt11} `{EventStoreLaws}.
Context `{PR : !EsRepo Payments.desc} `{PRL : !EsRepoLaws (d := Payments.desc)}.
Context `{IR : !EsRepo Invoices.desc} `{IRL : !EsRepoLaws (d := Invoices.desc)}.
Context `{RowOrder} (mode : Mode).
Implicit Types (h : PaymentHash.t) (tr : gw_trace) (db : DbState).

Notation assured p tr db Q := (assures ext_resp db_ok future p tr db Q).

(** ** Without involvement *)

(** Calls that ask LND for no payment. *)
Definition harmless (x : gw_eff) : Prop :=
  match x with Call (LndSendPayment _) => False | Call _ => True | Tx _ _ _ _ => False end.

Lemma harmless_bind {A B} (p : app A) (f : A -> app B) tr db Q :
  only harmless p -> Forall uninvolved tr ->
  (forall a tr' db', Forall uninvolved tr' -> future db db' -> assured (f a) tr' db' Q) ->
  assured (bind p f) tr db Q.
Proof.
  intros Hp Htr Hf. apply assures_bind. eapply assures_mono.
  - apply (assures_kept ext_resp db_ok future harmless
      (fun tr' db' => Forall uninvolved tr' /\ future db db')); [| | exact Hp | by split].
    + intros tr1 db1 db2 [Hu Hf1] Hf2. split; [done | by etransitivity].
    + intros tr1 db1 [[] |] r Hx [Hu Hf1]; try done;
        (split; [by apply Forall_app_2, Forall_singleton | done]).
  - intros a tr' db' [Hu Hf']. by apply Hf.
Qed.

(** What a read answers, with its event. *)
Lemma read_answers {A E} (lost : SqlxError -> E) (q : DbState -> result A E) tr db
    (Q : result A E -> gw_trace -> DbState -> Prop) :
  (forall r db', future db db' -> db_ok db' -> r = q db' \/ (exists s, r = Err (lost s)) ->
     Q r (tr ++ [Ev (Tx A E lost (fun (_ : TxEnv) db => let? a := q db in Ok (a, db))) r]) db') ->
  assured (read lost q) tr db Q.
Proof.
  intros HQ. apply assured_tx. intros db1 r db2 Hf Hi Hs _.
  assert (db2 = db1 /\ (r = q db1 \/ exists s, r = Err (lost s))) as [-> Hr]; [| by apply HQ].
  destruct Hs as (env & [(a & Hb & Hr) | (-> & Hr)]); (split; [| ]); try done.
  - by apply read_only_read in Hb.
  - destruct (q db1) as [a' |]; [| done]. injection Hb as -> _.
    destruct Hr as [-> | [s ->]]; [by left | right; by exists s].
  - destruct Hr as [(e & Hb & ->) | [s ->]]; [left | right; by exists s].
    destruct (q db1); [done |]. by injection Hb as ->.
Qed.

(** ** The outcome of a send *)

Definition not_paid (e : AppError.t) : Prop :=
  match e with AppError.Payment (PaymentError.AlreadyPaid _) => False | _ => True end.

(** The last event answered the payment, known and with nothing left to write. *)
Definition answered tr db (p : Payment.t) : Prop :=
  (exists E (lost : SqlxError -> E) body,
     last tr = Some (Ev (Tx Payment.t E lost body) (Ok p))) /\
  knows_payment p db /\ iter_new (Payment.events p) = [].

Lemma answered_last tr E (lost : SqlxError -> E) body p db :
  knows_payment p db -> iter_new (Payment.events p) = [] ->
  answered (tr ++ [Ev (Tx Payment.t E lost body) (Ok p)]) db p.
Proof. intros Hk Hn. split; [| done]. exists E, lost, body. apply last_snoc. Qed.

Lemma answered_last_seen tr db p text :
  answered tr db p -> request_hash text (Payment.payment_hash p) ->
  last_seen tr db text (Payment.state p).
Proof.
  intros ((E & lost & body & Hl) & ([_ Hlog] & st & Hst & _ & Hpre) & Hnew) Hr.
  exists E, lost, body, p, st. split_and!; try done.
  by rewrite iter_all_split, Hnew, app_nil_r.
Qed.

(** An answer about the payment under [h]: its state is one of [S], or the error is not
    that of a payment made before. *)
Definition about h (S : PaymentState.t -> Prop) (r : result Payment.t AppError.t) tr db : Prop :=
  match r with
  | Ok p => answered tr db p /\ Payment.payment_hash p = h /\ S (Payment.state p)
  | Err e => not_paid e
  end.

(** A program that only answers about it. *)
Definition speaks h S (p : app (result Payment.t AppError.t)) tr db : Prop :=
  assured p tr db (fun r tr' db' => tr ⊆ tr' /\ future db db' /\ about h S r tr' db').

Lemma speaks_err h S e tr db : not_paid e -> speaks h S (Ret (Err e)) tr db.
Proof. intros He. split; [done |]. by split. Qed.

Lemma speaks_mono h (S S' : PaymentState.t -> Prop) p tr db :
  (forall s, S s -> S' s) -> speaks h S p tr db -> speaks h S' p tr db.
Proof.
  intros HS Hp. eapply assures_mono; [exact Hp |]. intros [q | e] tr' db' (Htr & Hf & Ha); [| done].
  destruct Ha as (Ha & Hh & Hs). split; [done |]. split; [done |].
  split; [done |]. split; [done |]. by apply HS.
Qed.

(** Writing a payment with its announcement. *)
Lemma commit_speaks h p mk tr db :
  to_write h p db ->
  speaks h (eq (Payment.state p))
    (in_tx (let# p' := payments_update_in_op p in
            let# t := tx_utc_now in
            let# _ := outbox_publish_in_tx (mk t) in
            tx_ret p')) tr db.
Proof.
  intros Hp. apply assured_tx. intros db1 r db2 Hf Hi Hs Hf2.
  split; [set_solver |]. split; [by etransitivity |].
  destruct (to_write_future h p db db1 Hf Hp) as (Hh & Hk & _ & Hnew).
  destruct Hs as (env & Hs). unfold tx_bind, payments_update_in_op in Hs.
  destruct Hs as [(a & Hb & Hr) | (-> & Hr)].
  - destruct Hr as [-> | [s ->]]; [| done].
    destruct (update_in_op Payments.desc p (payments db1)) as [[p' tbl] |] eqn:Hup; [| done].
    cbn in Hb. destruct (outbox_publish_in_tx _ _ _) as [[seq db3] |] eqn:Hpub; [| done].
    apply publish_outcome in Hpub as [-> _]; [| apply Hi]. injection Hb as <- <-.
    edestruct (payment_update_known p db1) as (Hk' & Hn' & Hh' & Hs'); [done | done | exact Hup |].
    split; [by apply answered_last |]. split; [congruence | done].
  - destruct Hr as [(e & Hb & ->) | (s & ->)]; [| done]. cbn.
    destruct (update_in_op Payments.desc p (payments db1)) as [[p' tbl] |] eqn:Hup;
      [| by injection Hb as <-].
    cbn in Hb. destruct (outbox_publish_in_tx _ _ _) as [[seq db3] |] eqn:Hpub; [done |].
    injection Hb as <-. by destruct (publish_error _ _ _ _ Hpub) as [o ->].
Qed.

(** The commands of the send, on the payment it has just stored. *)
Lemma settle_inline_speaks h p amt pre fees hops now tr db :
  movable h p db -> Payment.state p = PaymentState.Initiated ->
  speaks h (eq PaymentState.Completed) (settle_inline p h amt pre fees hops now) tr db.
Proof.
  intros Hp Hs. destruct (mark_pending_movable h now p db Hp Hs) as (p' & Hm & Hp' & _).
  unfold settle_inline. rewrite Hm. unfold commit_completed.
  pose proof Hp' as (_ & [Hwf _] & _ & Hs').
  pose proof (run_command_answer (Settle pre fees hops now) p' Hwf) as Hrun.
  pose proof (command_to_write h (Settle pre fees hops now) p' db Hp') as Hw. cbn in Hrun, Hw.
  assert (Hst : Payment.state (Payment.settle pre fees hops now p').1 = PaymentState.Completed)
    by (rewrite Hrun; by destruct Hs' as [-> | ->]).
  destruct (Payment.settle pre fees hops now p') as [q r]. cbn in Hw, Hst.
  destruct Hs' as [Hs' | Hs']; rewrite Hs' in *; injection Hrun as _ ->;
    rewrite <- Hst; apply commit_speaks, Hw; done.
Qed.

Lemma fail_inline_speaks h p amt reason now tr db :
  movable h p db -> Payment.state p = PaymentState.Initiated ->
  speaks h (eq PaymentState.Failed) (fail_inline p h amt reason now) tr db.
Proof.
  intros Hp Hs. destruct (mark_pending_movable h now p db Hp Hs) as (p' & Hm & Hp' & _).
  unfold fail_inline. rewrite Hm. unfold commit_failed.
  pose proof Hp' as (_ & [Hwf _] & _ & Hs').
  pose proof (run_command_answer (Fail_ reason now) p' Hwf) as Hrun.
  pose proof (command_to_write h (Fail_ reason now) p' db Hp') as Hw. cbn in Hrun, Hw.
  assert (Hst : Payment.state (Payment.fail reason now p').1 = PaymentState.Failed)
    by (rewrite Hrun; by destruct Hs' as [-> | ->]).
  destruct (Payment.fail reason now p') as [q r]. cbn in Hw, Hst.
  destruct Hs' as [Hs' | Hs']; rewrite Hs' in *; injection Hrun as _ ->;
    rewrite <- Hst; apply commit_speaks, Hw; done.
Qed.

(** A payment that has moved on is not read as initiated. *)
Lemma reload_speaks h tr db :
  moved h db ->
  speaks h (fun s => s <> PaymentState.Initiated)
    (map_err_ (fun e => AppError.Payment (PaymentError.PaymentFind e)) (find_payment h)) tr db.
Proof.
  intros Hm. apply assures_bind, read_answers. intros r db' Hf Hi Hr. cbn [assures].
  split; [set_solver |]. split; [done |]. destruct r as [p | e]; [| done]. cbn [map_err about].
  destruct Hr as [Hr | [s [=]]]. symmetry in Hr.
  destruct (find_payment_in_hand _ _ _ Hi Hr) as [[Hk _] Hh].
  split; [by apply answered_last; [| by eapply found_clean] |]. split; [done |].
  destruct (moved_state h db' Hi) as (p' & Hp' & Hs); [by eapply moved_future |]. congruence.
Qed.

Lemma speaks_bind {A} h S (q : app A) (k : A -> app (result Payment.t AppError.t)) tr db :
  assured q tr db (fun a tr' db' => tr ⊆ tr' /\ future db db' /\ speaks h S (k a) tr' db') ->
  speaks h S (bind q k) tr db.
Proof.
  intros Hq. apply assures_bind. eapply assures_mono; [exact Hq |].
  intros a tr1 db1 (Htr & Hf & Hk). eapply assures_mono; [exact Hk |].
  intros r tr2 db2 (Htr' & Hf' & Ha). split; [set_solver |]. split; [by etransitivity | done].
Qed.

Lemma transition_speaks h p now tr db :
  movable h p db -> Payment.state p = PaymentState.Initiated ->
  speaks h (fun s => s <> PaymentState.Initiated) (transition_to_pending p h now) tr db.
Proof.
  intros Hp Hs. destruct (mark_pending_movable h now p db Hp Hs) as (p' & Hm & _ & Hw).
  assert (Hst : Payment.state p' = PaymentState.Pending).
  { pose proof Hp as (_ & [Hwf _] & _).
    pose proof (run_command_answer (MarkPending now) p Hwf) as Hrun. rewrite Hs in Hrun.
    cbn in Hrun. rewrite Hm in Hrun. by injection Hrun as ->. }
  unfold transition_to_pending. rewrite Hm. apply speaks_bind, assured_tx.
  intros db1 r db2 Hf Hi Hsem Hf2. split; [set_solver |]. split; [by etransitivity |].
  pose proof (to_write_future h p' db db1 Hf Hw) as Hw1. pose proof Hw1 as (Hh & Hk & _ & Hnew).
  destruct r as [q | e].
  - split; [set_solver |]. split; [done |].
    destruct Hsem as (env & [(a & Hb & Hr) | (_ & [(e & _ & [=]) | (s & [=])])]).
    destruct (update_in_op Payments.desc p' (payments db1)) as [[q' tbl] |] eqn:Hup; [| done].
    injection Hb as <- <-. assert (q = q') as -> by (destruct Hr as [[=] | [s [=]]]; done).
    edestruct (payment_update_known p' db1) as (Hk' & Hn' & Hh' & Hs'); [done | done | exact Hup |].
    split; [by apply answered_last |]. split; [congruence |]. by rewrite Hs', Hst.
  - destruct (is_concurrent_modification e) eqn:Hc; [| by apply speaks_err].
    destruct e; try discriminate Hc.
    assert (Hmoved : moved h db2).
    { destruct Hsem as (env & [(a & _ & [[=] | [s [=]]]) | (-> & [(e & Hb & [= <-]) | (s & [=])])]).
      destruct (update_in_op Payments.desc p' (payments db1)) as [[q tbl] | e] eqn:Hup; [done |].
      by apply (refused_moved h p' e). }
    apply speaks_bind. eapply assures_mono; [by apply reload_speaks |].
    intros [q | e] tr' db' (Htr & Hf' & Ha); split_and!; try done; set_solver.
Qed.

Lemma dispatch_speaks h p amt now resp tr db :
  movable h p db -> Payment.state p = PaymentState.Initiated ->
  speaks h (fun s => s <> PaymentState.Initiated /\
      (s = PaymentState.Pending ->
       SendPaymentResponse.payment_hash resp = h /\
       SendPaymentResponse.status resp = SendPaymentStatus.InFlight))
    (dispatch_lnd_response p h amt now resp) tr db.
Proof.
  intros Hp Hs. unfold dispatch_lnd_response. case_decide as Hh.
  { eapply speaks_mono; [| by apply fail_inline_speaks]. by intros s <-. }
  destruct (SendPaymentResponse.status resp) eqn:Hst.
  - eapply speaks_mono; [| by apply transition_speaks]. by intros s Hn.
  - destruct (SendPaymentResponse.payment_preimage resp); [| by apply speaks_err].
    eapply speaks_mono; [| by apply settle_inline_speaks]. by intros s <-.
  - eapply speaks_mono; [| by apply fail_inline_speaks]. by intros s <-.
Qed.

(** ** The send *)

Definition send_sincere (text : string) (w : WalletId.t) (r : result Payment.t AppError.t) tr db :
    Prop :=
  match r with
  | Ok p =>
      last_seen tr db text (Payment.state p) /\ Payment.state p <> PaymentState.Initiated /\
      (Payment.state p = PaymentState.Pending -> lnd_took tr text)
  | Err e =>
      Forall uninvolved tr \/
      not_paid e /\ (Forall unacknowledged tr \/ payment_for text w (fun _ => true) db)
  end.

Lemma intraledger_tx_sincere text w n i h sat w1 w2 amt now tr db :
  Forall uninvolved tr -> invoice_in_hand i db -> Invoice.state i = InvoiceState.Open ->
  Invoice.payment_hash i = h -> NewPayment.payment_hash n = h -> request_hash text h ->
  is_intraledger (NewPayment.max_fee_msat n) = true -> sat = sat_i64 (NewPayment.amount_msat n) ->
  assured (in_tx (intraledger_tx n i h sat w1 w2 amt now)) tr db (send_sincere text w).
Proof.
  intros Htr Hin Hopen Hih Hnh Hreq Hil Hsat. apply assured_tx. intros db1 r db2 Hf Hi Hs _.
  apply (invoice_in_hand_future _ _ _ Hf) in Hin. destruct r as [p | e].
  - destruct Hs as (env & [(a & Hb & Hr) | (_ & [(e & _ & [=]) | (s & [=])])]).
    assert (p = a) as -> by (destruct Hr as [[= Hr] | [s [=]]]; done).
    apply intraledger_tx_ok in Hb as (_ & _ & _ & _ & (Hh & Hk & _) & Hc & Hn); try done.
    split; [apply answered_last_seen; [by apply answered_last | by rewrite Hh] |].
    rewrite Hc. by split.
  - assert (Hcase : not_paid e \/ exists x, e = AppError.Payment (PaymentError.AlreadyPaid x)).
    { destruct e as [| [] | | | | | |]; try (by left). right. by eexists. }
    destruct Hcase as [Hn | [x ->]]; [right; split; [done |]; left | left];
      (apply Forall_app_2; [| apply Forall_singleton; right]).
    + by apply uninvolved_unacknowledged.
    + by exists e.
    + done.
    + eexists. split; [done |]. by intros s [=].
Qed.

Lemma send_intraledger_sincere text req d i now tr db :
  Forall uninvolved tr -> invoice_in_hand i db ->
  Invoice.payment_hash i = DecodedInvoice.payment_hash d ->
  request_hash text (DecodedInvoice.payment_hash d) ->
  assured (send_intraledger_payment req d i now) tr db
    (send_sincere text (SendPaymentReq.wallet_id req)).
Proof.
  intros Htr Hin Hih Hreq. unfold send_intraledger_payment.
  unfold try_bind at 1.
  apply harmless_bind; [track | done |]. intros [[] | e] tr1 db1 Htr1 Hf1; [| by left].
  apply (invoice_in_hand_future _ _ _ Hf1) in Hin. case_decide; [by left |].
  unfold try_bind at 1, pure_ at 1. apply assures_bind. cbn [assures].
  destruct (recipient_guard _ _ _) as [[] | e] eqn:Hguard; [| by left].
  assert (Hopen : Invoice.state i = InvoiceState.Open).
  { unfold recipient_guard in Hguard. by destruct (Invoice.state i). }
  apply harmless_bind; [track | done |]. intros uuid tr2 db2 Htr2 Hf2.
  unfold try_bind at 1, pure_ at 1. apply assures_bind. cbn [assures].
  destruct (NewPayment.try_new_intraledger _ _ _ _ _) as [n | e] eqn:Hn; [| by left].
  destruct (try_new_intraledger_fields _ _ _ _ _ _ Hn) as (Hnh & _ & _ & Hfee).
  cbn [map_err]. apply harmless_bind; [track | done |]. intros auth tr3 db3 Htr3 Hf3.
  destruct auth as [resp | e]; [| by left].
  destruct (SymphonyAuthorizeResponse.status resp); [| by left].
  unfold try_bind. apply harmless_bind; [track | done |].
  intros [[] | e] tr4 db4 Htr4 Hf4; [| by left].
  assert (Hf : future db1 db4) by by repeat (etransitivity; [eassumption |]).
  apply intraledger_tx_sincere; try done.
  - by apply (invoice_in_hand_future _ _ _ Hf).
  - rewrite Hfee. by apply bool_decide_eq_true_2.
Qed.

(** The intent of a request is its payment on record. *)
Lemma intent_on_record text n db :
  request_hash text (NewPayment.payment_hash n) ->
  NewPayment.bolt_invoice n = BoltInvoice.new text -> intent_stored n db ->
  payment_for text (NewPayment.wallet_id n) (fun _ => true) db.
Proof. intros Hr Hb (st & es & Hst & Hev). by exists n, st, es. Qed.

(** Whatever is said of the payment after its intent is stored. *)
Lemma speaks_sincere text n S p tr db :
  request_hash text (NewPayment.payment_hash n) ->
  NewPayment.bolt_invoice n = BoltInvoice.new text -> intent_stored n db ->
  (forall s, S s -> s <> PaymentState.Initiated /\ (s = PaymentState.Pending -> lnd_took tr text)) ->
  speaks (NewPayment.payment_hash n) S p tr db ->
  assured p tr db (send_sincere text (NewPayment.wallet_id n)).
Proof.
  intros Hr Hb Hint HS Hp. eapply assures_mono; [exact Hp |].
  intros [q | e] tr' db' (Htr & Hf & Ha).
  - destruct Ha as (Ha & Hh & Hs). destruct (HS _ Hs) as [Hni Hpend].
    split; [apply answered_last_seen; [done | by rewrite Hh] |]. split; [done |].
    intros Hst. destruct (Hpend Hst) as (params & resp & Hin & Hrest). exists params, resp.
    split; [set_solver | done].
  - right. split; [done |]. right. apply intent_on_record; [done | done |].
    by apply (intent_stored_future _ db).
Qed.

(** Storing the intent: it is refused, or the payment is in hand. *)
Lemma persist_intent_sincere text n w amt fee dest bolt
    (k : result Payment.t AppError.t -> app (result Payment.t AppError.t)) tr db :
  Forall uninvolved tr -> is_intraledger (NewPayment.max_fee_msat n) = false ->
  (forall p tr' db', movable (NewPayment.payment_hash n) p db' ->
     Payment.state p = PaymentState.Initiated -> intent_stored n db' ->
     assured (k (Ok p)) tr' db' (send_sincere text (NewPayment.wallet_id n))) ->
  (forall e, k (Err e) = Ret (Err e)) ->
  assured (bind (persist_intent n (NewPayment.payment_hash n) w amt fee dest bolt) k) tr db
    (send_sincere text (NewPayment.wallet_id n)).
Proof.
  intros Htr Hil Hok Herr. apply assures_bind, assured_tx. intros db1 r db2 Hf Hi Hs Hf2.
  set (h := NewPayment.payment_hash n). destruct r as [p | e].
  - destruct Hs as (env & [(a & Hb & Hr) | (_ & [(e & _ & [=]) | (s & [=])])]).
    assert (p = a) as -> by (destruct Hr as [[= Hr] | [s [=]]]; done).
    unfold tx_bind, payments_create_in_op in Hb.
    destruct (create_in_op Payments.desc (db_now env) n (payments db1)) as [[q tbl] |] eqn:Hc; [| done].
    apply payment_create_outcome in Hc as (row & _ & _ & -> & ->). cbn in Hb.
    destruct (outbox_publish_in_tx _ _ _) as [[seq db3] |] eqn:Hpub; [| done].
    apply publish_outcome in Hpub as [-> _]; [| apply Hi]. injection Hb as <- <-.
    apply Hok; [| done | by eexists _, []; cbn; rewrite lookup_insert_eq].
    split; [done |]. split; [eapply intent_in_hand; [done |]; apply lookup_insert_eq |].
    split; [| by left]. cbn. unfold NewPayment.into_events. by autorewrite with events.
  - rewrite Herr. cbn [assures].
    assert (Hcase : not_paid e \/ exists x, e = AppError.Payment (PaymentError.AlreadyPaid x)).
    { destruct e as [| [] | | | | | |]; try (by left). right. by eexists. }
    destruct Hcase as [Hn | [x ->]]; [right; split; [done |]; left | left];
      (apply Forall_app_2; [| apply Forall_singleton; right]).
    + by apply uninvolved_unacknowledged.
    + by exists e.
    + done.
    + eexists. split; [done |]. by intros s [=].
Qed.

Lemma send_payment_sincere req tr db :
  Forall uninvolved tr ->
  assured (send_payment str_debug req) tr db
    (send_sincere (SendPaymentReq.payment_request req) (SendPaymentReq.wallet_id req)).
Proof.
  intros Htr. unfold send_payment, try_bind.
  apply harmless_bind; [track | done |]. intros now tr1 db1 Hr1 _.
  apply harmless_bind; [track | done |]. intros [[] | e] tr2 db2 Hr2 _; [| by left].
  unfold decode_bolt11 at 1. set (text := SendPaymentReq.payment_request req).
  apply assures_bind, assures_bind, assures_call. intros db3 now' Hf3 Hi3. cbn [assures].
  set (tr3 := tr2 ++ _). assert (Hr3 : Forall uninvolved tr3)
    by by apply Forall_app_2, Forall_singleton.
  destruct (decode_bolt11_at text now') as [d | e] eqn:Hd; [| by left].
  pose proof (decode_text _ _ _ Hd) as Hbolt.
  assert (Hhash : request_hash text (DecodedInvoice.payment_hash d)) by by exists now', d.
  apply assures_bind, assures_bind, read_answers. intros r db4 Hf4 Hi4 Hread.
  set (tr4 := tr3 ++ _). assert (Hr4 : Forall uninvolved tr4).
  { apply Forall_app_2, Forall_singleton; [done |]. left. apply read_only_read. }
  cbn [assures map_err]. destruct r as [[i |] | e]; [| | by left]; cbn [map_err].
  { destruct Hread as [Hread | [s [=]]].
    destruct (find_by_payment_hash _ _ _) as [i' | []] eqn:Hfind; try done.
    injection Hread as <-.
    destruct (find_invoice_in_hand _ _ _ Hi4 Hfind) as (Hin & Hih & _).
    by apply send_intraledger_sincere. }
  apply assures_bind. cbn [assures pure_].
  destruct (DecodedInvoice.amount_msat d) as [amt |] eqn:Ha; [| by left]. cbn [ok_or].
  apply harmless_bind; [track | done |]. intros uuid tr5 db5 Hr5 _.
  apply assures_bind. cbn [assures pure_].
  destruct (NewPayment.try_new _ _ _ _ _ _) as [n | e] eqn:Hn; [| by left]. cbn [map_err].
  destruct (try_new_fields _ _ _ _ _ _ _ Ha Hn) as (Hnh & Hnw & _ & Hnf & Hnb & Hne).
  rewrite <- Hnw, <- Hnh in *. rewrite Hbolt in Hnb.
  apply persist_intent_sincere; [done | | | done].
  { rewrite Hnf. unfold is_intraledger. by apply bool_decide_eq_false_2. }
  intros p tr6 db6 Hp Hs Hint.
  apply assures_bind, assures_call. intros db7 auth Hf7 Hi7. set (tr7 := tr6 ++ _).
  apply (movable_future _ _ _ _ Hf7) in Hp. apply (intent_stored_future _ _ _ Hf7) in Hint.
  assert (Hfail : forall reason tr db,
    movable (NewPayment.payment_hash n) p db -> intent_stored n db ->
    assured (fail_inline p (NewPayment.payment_hash n) (sat_i64 amt) reason now) tr db
      (send_sincere text (NewPayment.wallet_id n))).
  { intros reason t d' Hp' Hint'. eapply speaks_sincere; [done | done | done | |
      by apply fail_inline_speaks]. by intros s <-. }
  destruct auth as [resp | e]; [| by apply Hfail].
  destruct (SymphonyAuthorizeResponse.status resp); [| by apply Hfail].
  apply assures_bind, assures_call. intros db8 sent Hf8 Hi8. set (tr8 := tr7 ++ _).
  apply (movable_future _ _ _ _ Hf8) in Hp. apply (intent_stored_future _ _ _ Hf8) in Hint.
  destruct sent as [resp' | e]; [| by apply Hfail].
  eapply speaks_sincere; [done | done | done | | by apply dispatch_speaks].
  intros s [Hni Hpend]. split; [done |]. intros Hst. destruct (Hpend Hst) as [Hrh Hrs].
  eexists _, resp'. split; [apply elem_of_app; right; by left |].
  split; [by rewrite Hbolt |]. split; [by rewrite Hrh | done].
Qed.

(** ** The resolvers *)

Lemma send_payload_sincere input r tr db :
  send_sincere (LnPaymentRequest.text (LnInvoicePaymentInput.payment_request input))
    (GqlWalletId.wallet (LnInvoicePaymentInput.wallet_id input)) r tr db ->
  sincere tr db (ReqPay input) (RespPay (send_payload r)).
Proof.
  destruct r as [p | e].
  - intros (Hl & Hni & Hp). cbn. destruct (Payment.state p); cbn;
      [done | by split; [| apply Hp] | done | by left | by right].
  - intros He. assert (Hcase : (exists x, e = AppError.Payment (PaymentError.AlreadyPaid x)) \/
      sincere tr db (ReqPay input) (RespPay (send_payload (Err e))) =
        (true = true -> accounted tr db (ReqPay input))).
    { destruct e as [| [] | | | | | |]; try (by right). left. by eexists. }
    destruct Hcase as [[x ->] | ->]; [by destruct He as [He | [[] _]] |]. intros _.
    destruct He as [He | [_ [He | He]]]; [left; by apply uninvolved_unacknowledged | by left | by right].
Qed.

Lemma send_resolver_sincere ctx input tr db :
  Forall uninvolved tr ->
  assured (ln_invoice_payment_send ctx input) tr db
    (fun resp tr' db' => sincere tr' db' (ReqPay input) resp).
Proof.
  intros Htr. unfold ln_invoice_payment_send. destruct (negb _).
  { intros _. left. by apply uninvolved_unacknowledged. }
  apply assures_bind. eapply assures_mono; [by apply send_payment_sincere |].
  intros r tr' db' Hr. by apply send_payload_sincere.
Qed.

(** An invoice is created in full, or no write of it is acknowledged. *)
Lemma create_invoice_sincere req tr db :
  Forall uninvolved tr ->
  assured (create_invoice mode req) tr db
    (fun r tr' _ => forall e, r = Err e -> Forall unacknowledged tr').
Proof.
  intros Htr. pose proof uninvolved_unacknowledged as Hun. unfold create_invoice, try_bind.
  apply harmless_bind; [track | done |]. intros now tr1 db1 Hr1 _.
  apply harmless_bind; [track | done |]. intros [[] | e] tr2 db2 Hr2 _; [| by intros ? _; apply Hun].
  apply harmless_bind; [track | done |]. intros random tr3 db3 Hr3 _.
  apply harmless_bind; [track | done |]. intros [ext | e] tr4 db4 Hr4 _; [| by intros ? _; apply Hun].
  apply harmless_bind; [track | done |]. intros [lnd | e] tr5 db5 Hr5 _; [| by intros ? _; apply Hun].
  apply harmless_bind; [track | done |]. intros uuid tr6 db6 Hr6 _.
  apply harmless_bind; [track | done |]. intros [n | e] tr7 db7 Hr7 _; [| by intros ? _; apply Hun].
  destruct mode; [| by intros ? _; apply Hun].
  apply assures_bind, assures_bind, assured_tx. intros db8 r db9 Hf8 Hi8 _ _. cbn [assures].
  destruct r as [i | e]; cbn [map_err].
  - apply assures_bind, assures_call. by intros.
  - intros ? _. apply Forall_app_2; [by apply Hun |]. apply Forall_singleton. right. by exists e.
Qed.

Lemma create_resolver_sincere ctx input tr db :
  Forall uninvolved tr ->
  assured (ln_invoice_create mode ctx input) tr db
    (fun resp tr' db' => sincere tr' db' (ReqCreate input) resp).
Proof.
  intros Htr. unfold ln_invoice_create. destruct (negb _).
  { intros _. left. by apply uninvolved_unacknowledged. }
  apply assures_bind. eapply assures_mono; [by apply create_invoice_sincere |].
  intros [i | e] tr' db' Hr.
  - unfold expect. destruct (Invoice.amount_msat i); [done | by intros ? []].
  - intros _. left. by apply (Hr e).
Qed.

Lemma probe_resolver_sincere ctx input tr db :
  Forall uninvolved tr ->
  assured (ln_invoice_fee_probe ctx input) tr db
    (fun resp tr' db' => sincere tr' db' (ReqProbe input) resp).
Proof.
  intros Htr. unfold ln_invoice_fee_probe. destruct (negb _).
  { intros _. left. by apply uninvolved_unacknowledged. }
  apply harmless_bind; [track | done |]. intros probed tr' db' Hr _ _. left.
  by apply uninvolved_unacknowledged.
Qed.

(** ** The handler *)

Lemma accounted_future tr db db' req : future db db' -> accounted tr db req -> accounted tr db' req.
Proof.
  intros Hf [Ha | Ha]; [by left |]. destruct req; [done | right | done].
  by apply (payment_for_future _ _ _ db).
Qed.

Lemma sincere_future tr db db' req resp :
  future db db' -> sincere tr db req resp -> sincere tr db' req resp.
Proof.
  intros Hf. assert (Hgen : (has_errors resp = true -> accounted tr db req) ->
    has_errors resp = true -> accounted tr db' req).
  { intros Hs He. by apply (accounted_future _ db), Hs. }
  destruct req; [exact Hgen | | exact Hgen].
  destruct resp as [| [[] [] ?] | |]; try exact Hgen. by apply candid_future.
Qed.

(** What has been answered was so when it was. *)
Definition told req tr db : Prop :=
  forall tr0 resp, tr = tr0 ++ [Ev (Call (Respond req resp)) tt] -> sincere tr0 db req resp.

Lemma told_future req tr db db' : told req tr db -> future db db' -> told req tr db'.
Proof. intros Ht Hf tr0 resp ->. by apply (sincere_future _ db), Ht. Qed.

Lemma graphql_handler_tells configured authorization req db :
  assured (graphql_handler mode configured authorization req) [] db (fun _ => told req).
Proof.
  unfold graphql_handler. apply harmless_bind; [track | constructor |].
  intros caller tr1 db1 Hr1 _. apply assures_bind.
  assert (Hexec : assured (execute mode (RequestData configured caller) req) tr1 db1
    (fun resp tr' db' => sincere tr' db' req resp)).
  { destruct req.
    - by apply create_resolver_sincere.
    - by apply send_resolver_sincere.
    - by apply probe_resolver_sincere. }
  eapply assures_mono; [exact Hexec |]. intros resp tr2 db2 Hs. apply assures_call.
  intros db3 [] Hf _ tr0 resp' Heq. apply app_inj_tail in Heq as [<- Hev].
  injection Hev as <-. by apply (sincere_future _ db2).
Qed.

(** ** Every thread *)

(** The other handlers answer nobody. *)
Definition unanswering (x : gw_eff) : Prop :=
  match x with Call (Respond _ _) => False | _ => True end.

Lemma reconcile_all_unanswering hs k : only unanswering (reconcile_all hs k).
Proof.
  revert k. induction hs as [| h hs IH]; intros k; [done |]. cbn [reconcile_all].
  apply only_bind; [track |]. intros [[] |]; apply IH.
Qed.

Lemma reconcile_each_unanswering hs : only unanswering (reconcile_each hs).
Proof. induction hs; cbn [reconcile_each]; track. done. Qed.

Lemma load_each_unanswering hs : only unanswering (load_each hs).
Proof.
  induction hs as [| h hs IH]; cbn [load_each]; [done |].
  apply only_bind; [track |]. intros found. by apply only_bind.
Qed.

Lemma spawn_each_unanswering open : only unanswering (spawn_each open).
Proof. induction open; cbn [spawn_each]; [done |]. by apply only_bind; [track |]. Qed.

Lemma sweep_unanswering :
  only unanswering orphan_hold_run /\ only unanswering invoice_reconciliation_run /\
  only unanswering invoice_subscription_recovery_run.
Proof.
  split; [| split].
  - unfold orphan_hold_run, try_bind, sweep_orphan_holds, map_err_.
    apply only_bind; [| intros []; track]. apply only_bind; [track |]. intros now.
    apply only_bind; [track |]. intros [hs | e]; [| done].
    apply only_bind; [apply reconcile_all_unanswering | done].
  - unfold invoice_reconciliation_run, try_bind. apply only_bind; [track |].
    intros [hs | e]; [| track]. apply only_bind; [apply reconcile_each_unanswering | track].
  - unfold invoice_subscription_recovery_run, run_invoice_subscription_recovery_sweep,
      list_open_invoices, try_bind. apply only_bind; [| intros []; track].
    apply only_bind.
    + apply only_bind; [track |]. intros [rows | e]; [| track].
      apply only_bind; [apply load_each_unanswering | track].
    + intros [open | e]; [| track]. apply only_bind; [apply spawn_each_unanswering | track].
Qed.

Lemma handler_answers p :
  gateway_handler mode p ->
  (exists configured authorization req, p = graphql_handler mode configured authorization req) \/
  only unanswering p.
Proof.
  destruct sweep_unanswering as (Ho & Hr & Hs).
  destruct 1 as [configured authorization req | | | h' | h' | | |]; [left; by eexists _, _, _ | ..];
    right; [track.. | | |]; unfold discard; by apply only_bind.
Qed.

(** A thread that is about to answer has something to show for it. *)
Lemma threads_tell c i q tr :
  reachable (gateway_handler mode) (empty_db, []) c -> c.2 !! i = Some (Thread q tr) ->
  (exists p, only unanswering p /\ runs ext_resp p tr q) \/
  exists configured authorization req,
    runs ext_resp (graphql_handler mode configured authorization req) tr q /\
    assured q tr c.1 (fun _ => told req).
Proof.
  intros Hr. revert i q tr. revert c Hr.
  apply (rtc_ind_r (fun c => forall i q tr, c.2 !! i = Some (Thread q tr) -> _)).
  { by intros i q tr. }
  intros c1 c2 Hr Hs IH i q tr Hi.
  assert (Hcase : c1.2 !! i = None \/ exists t, c1.2 !! i = Some t)
    by (destruct (c1.2 !! i); eauto).
  destruct Hcase as [Hnone | [[q1 tr1] Hi1]].
  - destruct Hs as [db ts p Hp | db db' ts j x k trj r Hj Hsem]; cbn in *.
    + apply lookup_app_Some in Hi as [Hi | [_ Hi]]; [congruence |].
      apply list_lookup_singleton_Some in Hi as [_ [= <- <-]].
      destruct (handler_answers p Hp) as [(a & b & req & ->) | Ho]; [right | left].
      * exists a, b, req. split; [constructor | apply graphql_handler_tells].
      * exists p. split; [done | constructor].
    + apply list_lookup_insert_Some in Hi as [(<- & _ & _) | [_ Hi]]; congruence.
  - assert (Hs' : reachable (gateway_handler mode) c1 c2) by by apply rtc_once.
    destruct (thread_runs _ _ _ _ _ _ _ Hs' Hi1) as (q2 & tr2 & Hi2 & Hrun2).
    rewrite Hi in Hi2. injection Hi2 as <- ->.
    destruct (IH _ _ _ Hi1) as [(p & Ho & Hrun) | (a & b & req & Hrun & Hk)].
    + left. exists p. split; [done | by eapply runs_trans].
    + right. exists a, b, req. split; [by eapply runs_trans |].
      destruct (thread_assures ext_resp db_ok future (gateway_handler mode) (empty_db, [])
        c1 c2 i q1 tr1 (told req)) as (q3 & tr3 & Hi3 & Hk3); try done.
      * intros c. apply gateway_ok.
      * intros c c'. by apply gateway_future.
      * intros t d d'. apply told_future.
      * rewrite Hi in Hi3. by injection Hi3 as <- <-.
Qed.

(** So every answer is sincere at the moment it leaves. *)
Lemma answers_sincere c i req resp k tr :
  reachable (gateway_handler mode) (empty_db, []) c ->
  c.2 !! i = Some (Thread (Do (Call (Respond req resp)) k) tr) -> sincere tr c.1 req resp.
Proof.
  intros Hr Hi. destruct (threads_tell c i _ tr Hr Hi)
    as [(p & Ho & Hrun) | (a & b & req' & Hrun & Hk)].
  - by destruct (runs_only _ _ _ _ _ Ho Hrun) as [[[] _] _].
  - destruct (runs_once _ _ _ _ _ _ (graphql_handler_once mode a b req') Hrun)
      as [[Honce _] | (? & ? & ? & [=] & _)].
    destruct Honce as [[[resp' Hresp] Hret] | [[] _]]. injection Hresp as <- <-.
    destruct (Hret tt) as [u Hu].
    pose proof (Hk c.1 tt c.1 (reflexivity _) (gateway_ok mode c Hr) eq_refl
      (reflexivity _) (gateway_ok mode c Hr)) as Hk'.
    rewrite Hu in Hk'. by apply Hk'.
Qed.

(** C14. What a client is told is so, at the moment the answer leaves.

    A send is answered without errors: with [SUCCESS], [PENDING] or [FAILURE] only if a
    payment of this very request and wallet is stored, and its state was completed, pending,
    or failed or reversed when the request last looked - the last thing the request did is
    the transaction that answered the payment in this state, and the log it saw, which gives
    the state, is the beginning of what is stored; with [PENDING] moreover only if LND has
    answered this request's own send with the payment in flight.  With [ALREADY_PAID] only
    if the request has asked LND for no payment and written nothing, while a payment - in
    whatever state, a failed one too - is stored under the request's hash, or the gateway's
    own invoice of that hash is settled.

    An invoice is shown only when it is stored for the asked wallet and amount, the caller's
    ownership was checked and its listener was started. *)
Theorem answers_truthful c i req resp k tr :
  reachable (gateway_handler mode) (empty_db, []) c ->
  c.2 !! i = Some (Thread (Do (Call (Respond req resp)) k) tr) ->
  truthful tr c.1 req resp /\
  forall input payload status,
    req = ReqPay input -> resp = RespPay payload -> PaymentSendPayload.errors payload = [] ->
    PaymentSendPayload.status payload = Some status ->
    candid tr c.1 (LnPaymentRequest.text (LnInvoicePaymentInput.payment_request input)) status.
Proof.
  intros Hr Hi. split.
  - destruct (gateway_adequacy mode _ _ empty_db_ok Hr) as (_ & _ & Hall).
    exact (Hall _ _ _ _ Hi).
  - intros input [errs st t] status -> -> Herr Hst. cbn in Herr, Hst. subst.
    exact (answers_sincere _ _ _ _ _ _ Hr Hi).
Qed.

(** C34. An answer with errors hides nothing.  When a request is answered with an error, in
    whatever field, it has asked LND for no payment and no write of it was acknowledged -
    each of its transactions only read, or answered an error; or it is a send, and the
    payment of this very request and wallet is stored, where the sweep and the subscription
    find it. *)
Theorem errors_accounted c i req resp k tr :
  reachable (gateway_handler mode) (empty_db, []) c ->
  c.2 !! i = Some (Thread (Do (Call (Respond req resp)) k) tr) -> has_errors resp = true ->
  accounted tr c.1 req.
Proof.
  intros Hr Hi He. pose proof (answers_sincere _ _ _ _ _ _ Hr Hi) as Hs.
  destruct req, resp as [| [[] [] ?] | |]; first [by apply Hs | discriminate He].
Qed.
End Requests.

(** * Runs *)

Section Examples.
#[local] Existing Instance list_hex.
#[local] Existing Instance list_hex_laws.
#[local] Existing Instance list_sha.
#[local] Existing Instance list_uuid.
#[local] Existing Instance list_store.
#[local] Existing Instance list_store_laws.
#[local] Existing Instance map_row_order.
#[local] Existing Instance plain_tonic.
#[local] Existing Instance plain_errors.
#[local] Existing Instance plain_bolt11.
#[local] Existing Instance payments_repo.
#[local] Existing Instance payments_repo_laws.
#[local] Existing Instance invoices_repo.
#[local] Existing Instance invoices_repo_laws.

(** LND answers the sends with the given status, and no preimage. *)
Definition lnd_says (status : SendPaymentStatus.t) (e : ext) : option (ext_resp e) :=
  match e return option (ext_resp e) with
  | LndSendPayment _ =>
      Some (Ok (SendPaymentResponse.mk (hash_of x01) None status MilliSatoshi.ZERO [] None))
  | e => kind_answer e
  end.

(** Turns of the handlers, in the world of this LND. *)
Definition turns_with (status : SendPaymentStatus.t) (turns : list nat) :
    list (nat * world ext_resp TxEnv) :=
  imap (fun k i => (i, World (lnd_says status)
    (MkEnv (Timestamp.new 5) (Timestamp.new 6) (1 + Z.of_nat k)) NoFault)) turns.

(** What a handler is about to answer to the remote payment. *)
Definition answer_of (q : app unit) : option PaymentSendPayload.t :=
  match q with
  | Do (Call (Respond (ReqPay input) (RespPay payload))) _ =>
      if bool_decide (LnPaymentRequest.text (LnInvoicePaymentInput.payment_request input) =
                      "lnbc-remote") then Some payload else None
  | _ => None
  end.

Lemma answer_of_spec q payload :
  answer_of q = Some payload ->
  exists input k, q = Do (Call (Respond (ReqPay input) (RespPay payload))) k /\
    LnPaymentRequest.text (LnInvoicePaymentInput.payment_request input) = "lnbc-remote".
Proof.
  destruct q as [| [[] |] k]; try done. cbn. destruct request, response; try done.
  case_bool_decide; [| done]. intros [= <-]. by eexists _, _.
Qed.

(** Two requests for the same payment, and a check of what one is about to be answered. *)
Lemma answered_run status turns (check : PaymentSendPayload.t -> gw_trace -> DbState -> bool) i :
  match interleave (turns_with status turns) (empty_db, [Thread pay []; Thread pay []]) with
  | Some c =>
      match c.2 !! i with
      | Some (Thread q tr) =>
          match answer_of q with Some payload => check payload tr c.1 | None => false end
      | None => false
      end
  | None => false
  end = true ->
  exists c input payload k tr,
    reachable (gateway_handler App.Live) (empty_db, []) c /\
    c.2 !! i = Some (Thread (Do (Call (Respond (ReqPay input) (RespPay payload))) k) tr) /\
    LnPaymentRequest.text (LnInvoicePaymentInput.payment_request input) = "lnbc-remote" /\
    check payload tr c.1 = true.
Proof.
  intros Hc. destruct (interleave _ _) as [c |] eqn:Hi; [| done].
  destruct (c.2 !! i) as [[q tr] |] eqn:Hq; [| done].
  destruct (answer_of q) as [payload |] eqn:Ha; [| done].
  apply answer_of_spec in Ha as (input & k & -> & Ht).
  exists c, input, payload, k, tr. split_and!; try done.
  eapply rtc_l; [exact (step_spawn _ _ _ _ empty_db [] pay (gh_graphql _ _ _ _)) |].
  eapply rtc_l; [exact (step_spawn _ _ _ _ empty_db _ pay (gh_graphql _ _ _ _)) |].
  by eapply interleave_steps.
Qed.

Definition plain_status (status : PaymentSendResult.t) (payload : PaymentSendPayload.t) : bool :=
  bool_decide (PaymentSendPayload.status payload = Some status) &&
  match PaymentSendPayload.errors payload with [] => true | _ => false end.

Lemma plain_status_spec status payload :
  plain_status status payload = true ->
  PaymentSendPayload.errors payload = [] /\ PaymentSendPayload.status payload = Some status.
Proof.
  intros [Hs%bool_decide_eq_true_1 He]%andb_true_iff. split; [| done].
  by destruct (PaymentSendPayload.errors payload).
Qed.

(** LND has the payment in flight: the client is told [PENDING]. *)
Example answers_truthful_witness :
  exists c tr w,
    reachable (gateway_handler App.Live) (empty_db, []) c /\
    payment_for "lnbc-remote" w (fun _ => true) c.1 /\
    last_seen tr c.1 "lnbc-remote" PaymentState.Pending /\ lnd_took tr "lnbc-remote".
Proof.
  destruct (answered_run SendPaymentStatus.InFlight (repeat 0 10)
    (fun payload _ _ => plain_status PaymentSendResult.Pending payload) 0)
    as (c & input & payload & k & tr & Hr & Hi & Ht & Hs); [by vm_compute |].
  apply plain_status_spec in Hs as [He Hs].
  destruct (answers_truthful App.Live c 0 _ _ _ _ Hr Hi) as [Htrue Hcandid].
  specialize (Hcandid input payload _ eq_refl eq_refl He Hs). cbn in Htrue, Hcandid.
  rewrite He, Hs in Htrue. rewrite Ht in Htrue, Hcandid.
  eexists c, tr, _. split; [exact Hr |]. split; [exact Htrue | exact Hcandid].
Defined.

(** The request has asked LND to pay. *)
Definition asked_lnd (tr : gw_trace) : bool :=
  existsb (fun ev => match ev with Ev (Call (LndSendPayment _)) _ => true | _ => false end) tr.

Lemma asked_lnd_acknowledged tr : asked_lnd tr = true -> ~ Forall unacknowledged tr.
Proof.
  intros ([x r] & Hin%list_elem_of_In & Hx)%existsb_exists Hall.
  pose proof (proj1 (Forall_forall _ _) Hall _ Hin) as Hev. by destruct x as [[] |].
Qed.

(** LND reports a success without its preimage: the client is told an error, and the payment
    is on record. *)
Example errors_accounted_witness :
  exists c tr w,
    reachable (gateway_handler App.Live) (empty_db, []) c /\ asked_lnd tr = true /\
    payment_for "lnbc-remote" w (fun _ => true) c.1.
Proof.
  destruct (answered_run SendPaymentStatus.Succeeded (repeat 0 9)
    (fun payload tr _ => has_errors (RespPay payload) && asked_lnd tr) 0)
    as (c & input & payload & k & tr & Hr & Hi & Ht & Hc); [by vm_compute |].
  apply andb_true_iff in Hc as [He Hs].
  destruct (errors_accounted App.Live c 0 _ _ _ _ Hr Hi He) as [Hun | Hp];
    [by destruct (asked_lnd_acknowledged tr Hs) |].
  rewrite Ht in Hp. eexists c, tr, _. split; [exact Hr |]. split; [exact Hs | exact Hp].
Defined.

(** A failed payment is told as already paid: LND refuses the payment of the first request,
    its row is marked failed, and the second request for the same invoice is about to be
    answered [ALREADY_PAID]. *)
Theorem failed_told_already_paid :
  exists c input payload k tr p,
    reachable (gateway_handler App.Live) (empty_db, []) c /\
    c.2 !! 1 = Some (Thread (Do (Call (Respond (ReqPay input) (RespPay payload))) k) tr) /\
    PaymentSendPayload.errors payload = [] /\
    PaymentSendPayload.status payload = Some PaymentSendResult.AlreadyPaid /\
    find_by_payment_hash Payments.desc (hash_of x01) (payments c.1) = Ok p /\
    Payment.state p = PaymentState.Failed.
Proof.
  destruct (answered_run SendPaymentStatus.Failed (repeat 0 11 ++ repeat 1 7)
    (fun payload _ db => plain_status PaymentSendResult.AlreadyPaid payload &&
       match find_by_payment_hash Payments.desc (hash_of x01) (payments db) with
       | Ok p => bool_decide (Payment.state p = PaymentState.Failed)
       | Err _ => false
       end) 1)
    as (c & input & payload & k & tr & Hr & Hi & _ & Hc); [by vm_compute |].
  apply andb_true_iff in Hc as [[He Hs]%plain_status_spec Hp].
  destruct (find_by_payment_hash _ _ _) as [p |] eqn:Hfind; [| done].
  apply bool_decide_eq_true_1 in Hp. by exists c, input, payload, k, tr, p.
Qed.
End Examples.
