(* ===== verification/Listeners.v ===== *)
(** The invoice listeners of the wired gateway: the dispatcher beside the handlers that ask it
    for listeners, LND's streams and the channel they feed. *)
From S2P Require Import Prelude Primitives Fees EsEntity Concrete GraphqlTypes Jwks.
From S2P Require Import PaymentEntity InvoiceEntity Outbox Lnd LndClient Symphony Wallet Effects.
From S2P Require Import App Adapters Grpc AppPayment AppInvoice Mutation Jobs.
From S2P Require Import Ledger Evidence Safety SendSafety InvoiceSafety MutationSafety Gateway.
From S2P Require Import Wired EndToEnd.

Section Listeners.
Context {Channel : Type}.
Context `{HexLaws} `{Sha256} `{UuidText} `{TonicText} `{ErrorText} `{Bolt11} `{EventStoreLaws}.
Context `{PR : !EsRepo Payments.desc} `{PRL : !EsRepoLaws (d := Payments.desc)}.
Context `{IR : !EsRepo Invoices.desc} `{IRL : !EsRepoLaws (d := Invoices.desc)}.
Context `{RowOrder} `{LndProto} `{SerdeJson} `{JsonWebToken}.
Context (app : AppHandles Channel).

Notation wired_reaches := (rtc (wired_step app) start).

(** The dispatcher's shared set is the set of its tasks, of which no two are for one hash. *)
Definition dispatcher_ok (a : Adapters) : Prop :=
  NoDup (listeners a) /\
  dispatcher a = InvoiceUpdateDispatcher.Live (list_to_set (listeners a)).

(** What listens, or has been heard, is of a stored invoice. *)
Definition heard_ok (a : Adapters) (db : DbState) : Prop :=
  (forall h, h ∈ listeners a -> is_Some (invoices db !! h)) /\
  forall u, u ∈ invoice_updates a -> is_Some (invoices db !! InvoiceUpdate.payment_hash u).

Lemma stored_future h db db' :
  future db db' -> is_Some (invoices db !! h) -> is_Some (invoices db' !! h).
Proof. intros (_ & Hf & _) [st Hst]. destruct (Hf _ _ Hst) as (st' & -> & _). by eexists. Qed.

Lemma heard_future a db db' : future db db' -> heard_ok a db -> heard_ok a db'.
Proof.
  intros Hf [Hl Hu]. split.
  - intros h Hh. by eapply stored_future, Hl.
  - intros u Hin. by eapply stored_future, Hu.
Qed.

Lemma end_listener_ok h a : dispatcher_ok a -> dispatcher_ok (end_listener h a).
Proof.
  intros [Hnd Hd]. split; simpl; [by apply NoDup_filter |].
  rewrite Hd. simpl. f_equal. apply set_eq. intros h'.
  rewrite elem_of_difference, elem_of_singleton, !elem_of_list_to_set, list_elem_of_filter.
  naive_solver.
Qed.

Lemma end_listener_heard h a db : heard_ok a db -> heard_ok (end_listener h a) db.
Proof. intros [Hl Hu]. split; [| done]. intros h'. simpl. intros [_ Hin]%list_elem_of_filter. by apply Hl. Qed.

(** A call: only [SpawnListener] adds a listener, for an invoice the handler has stored. *)
Lemma serve_listeners o i e a a' b r db tr :
  serve app o i e a = Some (a', b, r) -> allowed tr db (Call e) ->
  dispatcher_ok a -> heard_ok a db -> dispatcher_ok a' /\ heard_ok a' db.
Proof.
  intros Hs Ha Hd Hh. destruct e; simpl in Hs; unfold asked, known in Hs; try (by simplify_eq).
  - unfold serve_ownership, gate_fetched, asked, known in Hs. case_decide.
    + by destruct (fetch_owned_wallets _ _); simplify_eq.
    + by destruct (gate_lookup _ _ _ _); simplify_eq.
  - unfold serve_spawn, known in Hs. destruct Hd as [Hnd Hd], Hh as [Hl Hu].
    rewrite Hd in Hs. simpl in Hs. case_decide as Hin; simplify_eq; simpl; [done |].
    rewrite elem_of_list_to_set in Hin. split; [split; [by constructor | done] |].
    split; [| done]. intros h' [-> | Hh']%elem_of_cons; [exact Ha | by apply Hl].
  - destruct (payment_updates a); by simplify_eq.
  - destruct Hh as [Hl Hu]. destruct (invoice_updates a) as [| u us] eqn:Hus; simplify_eq.
    split; [done |]. split; [done |]. intros u' Hin. simpl in Hin. apply Hu. by right.
Qed.

(** What comes by itself: a stream is heard only by a listener that runs. *)
Lemma on_signal_listeners s a a' db :
  on_signal app s a = Some a' -> dispatcher_ok a -> heard_ok a db ->
  dispatcher_ok a' /\ heard_ok a' db.
Proof.
  intros Hs Hd Hh. destruct s as [d | attempts | m | h m | h];
    cbn [on_signal] in Hs.
  - destruct (0 <=? d)%Z; by simplify_eq.
  - by simplify_eq.
  - destruct (LndClient.is_connected _); by simplify_eq.
  - destruct (_ && _) eqn:Hrun; [| done].
    apply andb_true_iff in Hrun as [_ Hin%bool_decide_eq_true_1].
    set (us := (drive_invoice_stream h [Message m Sent]).1) in *.
    assert (Hus : forall u, u ∈ us -> InvoiceUpdate.payment_hash u = h).
    { unfold us. simpl. destruct (lnd_invoice_to_update m) as [u |]; simpl;
        [| by intros u ?%not_elem_of_nil].
      case_decide as Hu; [by intros u' ?%not_elem_of_nil |].
      destruct (is_terminal_state _); simpl; intros u' Hu';
        apply list_elem_of_singleton in Hu' as ->; done. }
    assert (Hh' : heard_ok (set_invoice_updates (invoice_updates a ++ us) a) db).
    { destruct Hh as [Hl Hu]. split; [done |].
      intros u [Hin' | Hin']%elem_of_app; [by apply Hu |]. rewrite (Hus _ Hin'). by apply Hl. }
    unfold us in *. destruct (drive_invoice_stream h [Message m Sent]) as [sent ended].
    cbn [fst] in Hh'. destruct ended; injection Hs as <-.
    + split; [by apply end_listener_ok | by apply end_listener_heard].
    + by split.
  - case_bool_decide; simplify_eq. split; [by apply end_listener_ok | by apply end_listener_heard].
Qed.

Lemma step_listeners w w' :
  wired_reaches w -> wired_step app w w' ->
  dispatcher_ok (adapters w) /\ heard_ok (adapters w) (config w).1 ->
  dispatcher_ok (adapters w') /\ heard_ok (adapters w') (config w').1.
Proof.
  intros Hr Hs [Hd Hh]. pose proof (wired_refines app w Hr) as Hg.
  destruct (gateway_adequacy (mode app) _ _ empty_db_ok Hg) as (_ & _ & Hall).
  destruct Hs as [| a db db' ts l i A E lost body k tr r Hi Hsem
    | o a a' b db ts l i e k tr r Hi Hserve | o a a' b db ts l i e k tr Hi Hserve
    | s a a' c l Hsig]; simpl in *; [done | | | |].
  - split; [done |]. eapply heard_future; [| exact Hh].
    apply (gateway_future (mode app) (db, ts)
             (db', <[i := Thread (k r) (tr ++ [Ev (Tx A E lost body) r])]> ts)); [done |].
    apply rtc_once. by eapply step_thread.
  - eapply serve_listeners; [exact Hserve | by eapply Hall | done | done].
  - eapply serve_listeners; [exact Hserve | by eapply Hall | done | done].
  - by eapply on_signal_listeners.
Qed.

(** C37. Listeners: at any time of the wired gateway the listener tasks that run are for
    distinct hashes and the dispatcher's shared set holds exactly these, so no invoice is
    listened to twice and one whose listener has ended can be listened to again; every
    listener is for a stored invoice; and so is every update that waits in the channel, so
    the consumer is never handed an update of an invoice the gateway does not know. *)
Theorem listeners_sound w :
  wired_reaches w ->
  NoDup (listeners (adapters w)) /\
  dispatcher (adapters w) =
    InvoiceUpdateDispatcher.Live (list_to_set (listeners (adapters w))) /\
  (forall h, h ∈ listeners (adapters w) -> is_Some (invoices (config w).1 !! h)) /\
  forall u, u ∈ invoice_updates (adapters w) ->
    is_Some (invoices (config w).1 !! InvoiceUpdate.payment_hash u).
Proof.
  intros Hr.
  assert (Hok : dispatcher_ok (adapters w) /\ heard_ok (adapters w) (config w).1).
  { pattern w. eapply (rtc_ind_r _ start); [| | exact Hr].
    - split; [split; [constructor | done] |].
      split; simpl; [by intros h ?%not_elem_of_nil | by intros u ?%not_elem_of_nil].
    - intros w1 w2 Hr1 Hs. by apply step_listeners. }
  destruct Hok as [[Hnd Hd] [Hl Hu]]. by split_and!.
Qed.
End Listeners.

Section Runs.
#[local] Existing Instance list_hex.
#[local] Existing Instance list_hex_laws.
#[local] Existing Instance list_sha.
#[local] Existing Instance list_uuid.
#[local] Existing Instance list_store.
#[local] Existing Instance list_store_laws.
#[local] Existing Instance map_row_order.
#[local] Existing Instance plain_tonic.
#[local] Existing Instance plain_errors.
#[local] Existing Instance plain_bolt11.
#[local] Existing Instance payments_repo.
#[local] Existing Instance payments_repo_laws.
#[local] Existing Instance invoices_repo.
#[local] Existing Instance invoices_repo_laws.
#[local] Existing Instance lnd_tags.
#[local] Existing Instance empty_json.
#[local] Existing Instance one_key_jwt.

(** The created invoice has its listener, and its accepted update waits in the channel. *)
Example listeners_sound_witness :
  exists w : wired, rtc (wired_step gateway) start w /\ listeners (adapters w) <> [] /\
    forall u, u ∈ invoice_updates (adapters w) ->
      is_Some (invoices (config w).1 !! InvoiceUpdate.payment_hash u).
Proof.
  destruct (played (receiving 0) (fun w =>
    match listeners (adapters w), invoice_updates (adapters w) with
    | _ :: _, _ :: _ => true | _, _ => false end)) as (w & Hr & Hc); [by vm_compute |].
  exists w. split; [exact Hr |]. split; [by destruct (listeners (adapters w)) |].
  exact (proj2 (proj2 (proj2 (listeners_sound gateway w Hr)))).
Defined.
End Runs.
