(* ===== verification/Recovery.v ===== *)
(** The orphan-hold sweep reaches its goal (src/src/app/sweep_orphan_holds.rs,
    src/src/job/orphan_hold_sweep.rs).

    The other files say what a handler never does; here total correctness is proved of the
    job that repairs what a crash or a lost notification left of a payment.  A program is
    run to its end against an oracle, which gives the world's answers at each database;
    [ends] is the triple that the run returns as wanted, with a rule for each construct,
    and every such run is a run of the interleaving semantics.  When the database answers,
    the sweep drives every payment it has selected and LND has an outcome for to exactly
    this outcome, announces it, and touches nothing else. *)
From S2P Require Import Prelude Primitives Fees EsEntity Concrete GraphqlTypes Jwks.
From S2P Require Import PaymentEntity InvoiceEntity Outbox Lnd Symphony Wallet Effects App.
From S2P Require Import Grpc AppPayment AppInvoice Jobs Ledger Evidence Safety Gateway.

(** * Complete runs *)

Section Runs.
Context {ext : Type} {ext_resp : ext -> Type} {Env Db : Type}.
Context (oracle : Db -> world ext_resp Env).
Notation program := (prog ext_resp Env Db).

Fixpoint run {A} (p : program A) (db : Db) : option (A * Db) :=
  match p with
  | Ret a => Some (a, db)
  | Do x k => '(r, db1) ← perform (oracle db) x db; run (k r) db1
  end.

(** The run returns, with an answer and a database as wanted. *)
Definition ends {A} (p : program A) (db : Db) (Q : A -> Db -> Prop) : Prop :=
  match run p db with Some (a, db') => Q a db' | None => False end.

Lemma ends_ret {A} (a : A) db (Q : A -> Db -> Prop) : Q a db -> ends (Ret a) db Q.
Proof. done. Qed.

Lemma ends_mono {A} (p : program A) db (Q Q' : A -> Db -> Prop) :
  ends p db Q -> (forall a db', Q a db' -> Q' a db') -> ends p db Q'.
Proof. unfold ends. destruct (run p db) as [[a db'] |]; [| done]. intros HQ Hm. by apply Hm. Qed.

Lemma run_bind {A B} (p : program A) (f : A -> program B) db :
  run (bind p f) db = '(a, db1) ← run p db; run (f a) db1.
Proof.
  revert db. induction p as [a | x k IH]; intros db; [done |].
  change (bind (Do x k) f) with (Do x (fun r => bind (k r) f)). cbn.
  destruct (perform (oracle db) x db) as [[r db1] |]; [apply IH | done].
Qed.

Lemma ends_bind {A B} (p : program A) (f : A -> program B) db Q :
  ends p db (fun a db' => ends (f a) db' Q) -> ends (bind p f) db Q.
Proof. unfold ends. rewrite run_bind. by destruct (run p db) as [[a db1] |]. Qed.

Lemma ends_call e r db (Q : ext_resp e -> Db -> Prop) :
  w_call (oracle db) e = Some r -> Q r db -> ends (perform_call e) db Q.
Proof. intros He HQ. unfold ends, perform_call. cbn. by rewrite He. Qed.

Lemma ends_tx {A E} (lost : SqlxError -> E) body db (Q : result A E -> Db -> Prop) :
  w_fault (oracle db) = NoFault ->
  match body (w_env (oracle db)) db with
  | Ok (a, db') => Q (Ok a) db'
  | Err e => Q (Err e) db
  end ->
  ends (perform_tx lost body) db Q.
Proof.
  intros Hf HQ. unfold ends, perform_tx. cbn. rewrite Hf.
  by destruct (body (w_env (oracle db)) db) as [[a db'] | e].
Qed.

(** A complete run is one the evaluator can perform effect by effect. *)
Lemma run_advance {A} (p : program A) db a db' :
  run p db = Some (a, db') -> exists ws tr, advance ws p db = Some (Ret a, tr, db').
Proof.
  revert db. induction p as [b | x k IH]; intros db; cbn.
  - intros [= -> ->]. by exists [], [].
  - destruct (perform (oracle db) x db) as [[r db1] |] eqn:Hx; [| done]. cbn.
    intros (ws & tr & Ha)%IH. exists (oracle db :: ws), (Ev x r :: tr). cbn.
    rewrite Hx. cbn. by rewrite Ha.
Qed.

(** A handler run to its end is a run of the interleaving semantics. *)
Lemma run_reachable (handlers : prog ext_resp Env Db unit -> Prop) c0 db ts p a db' :
  handlers p -> reachable handlers c0 (db, ts) -> run p db = Some (a, db') ->
  exists tr, reachable handlers c0 (db', ts ++ [Thread (Ret a) tr]).
Proof.
  intros Hp Hr (ws & tr & Ha)%run_advance. exists tr. by eapply advance_reachable.
Qed.
End Runs.
#[global] Arguments ends : simpl never.

(** The answers of a world in which nothing fails: the database keeps its connections and
    hands out unused sequence numbers, the clock reads, and LND answers its lookups and
    the settlement of a preimage in a fixed way, errors and timeouts included. *)
Record lnd_answers : Type := LndAnswers {
  payment_outcome : PaymentHash.t -> option (result SendPaymentResponse.t LndError.t);
  invoice_outcome : PaymentHash.t -> result InvoiceUpdate.t LndError.t;
  settle_outcome : Preimage.t -> result unit LndError.t
}.

Record undisturbed (lnd : lnd_answers) (oracle : DbState -> world ext_resp TxEnv) : Prop := {
  u_fault db : w_fault (oracle db) = NoFault;
  u_nextval db : nextval (w_env (oracle db)) ∉ map OutboxRow.sequence (outbox db);
  u_now db : is_Some (w_call (oracle db) Now);
  u_lookup_payment db h :
    w_call (oracle db) (LndLookupPayment h) = Some (payment_outcome lnd h);
  u_lookup_invoice db h :
    w_call (oracle db) (LndLookupInvoice h) = Some (invoice_outcome lnd h);
  u_settle db pre : w_call (oracle db) (LndSettleInvoice pre) = Some (settle_outcome lnd pre)
}.

(** What LND's answer makes of an initiated payment, at the time [t]; nothing when LND
    does not know, does not answer or reports the payment in flight. *)
Definition payment_verdict (lnd : lnd_answers) (h : PaymentHash.t) (t : Timestamp.t) :
    option payment_command :=
  match payment_outcome lnd h with
  | Some (Ok resp) =>
      match SendPaymentResponse.status resp, SendPaymentResponse.payment_preimage resp with
      | SendPaymentStatus.Succeeded, Some pre =>
          Some (Settle pre (SendPaymentResponse.fees_paid_msat resp)
                  (SendPaymentResponse.route_hops resp) t)
      | SendPaymentStatus.Failed, _ =>
          Some (Fail_ (default (FailureReason.Other "LND reported Failed with no reason")
                         (SendPaymentResponse.failure_reason resp)) t)
      | _, _ => None
      end
  | _ => None
  end.

Definition payment_conclusive (lnd : lnd_answers) (h : PaymentHash.t) : bool :=
  if payment_verdict lnd h (Timestamp.new 0) then true else false.

(** The payment a verdict leaves. *)
Definition closed_by `{EventStore} (c : payment_command) (q : Payment.t) : Prop :=
  match c with
  | Settle pre fees _ t =>
      Payment.state q = PaymentState.Completed /\ Payment.payment_preimage q = Some pre /\
      Payment.fees_paid_msat q = Some fees /\ Payment.settled_at q = Some t
  | Fail_ _ _ => Payment.state q = PaymentState.Failed
  | _ => False
  end.

Section Recovery.
Context `{HexLaws} `{Sha256} `{UuidText} `{TonicText} `{ErrorText} `{Bolt11} `{EventStoreLaws}.
Context `{PR : !EsRepo Payments.desc} `{PRL : !EsRepoLaws (d := Payments.desc)}.
Context `{IR : !EsRepo Invoices.desc} `{IRL : !EsRepoLaws (d := Invoices.desc)}.
Context `{RO : RowOrder} `{ROL : !RowOrderLaws}.
Context (lnd : lnd_answers) (oracle : DbState -> world ext_resp TxEnv).
Context (Hcalm : undisturbed lnd oracle).

Notation find_p h db := (find_by_payment_hash Payments.desc h (payments db)).
Notation find_i h db := (find_by_payment_hash Invoices.desc h (invoices db)).

(** ** Effects in an undisturbed world *)

Lemma ends_now {B} (f : Timestamp.t -> app B) db Q :
  (forall now, w_call (oracle db) Now = Some now -> ends oracle (f now) db Q) ->
  ends oracle (bind (call Now) f) db Q.
Proof.
  intros Hf. destruct (u_now _ _ Hcalm db) as [now Hnow].
  by apply ends_bind, (ends_call _ _ now), Hf.
Qed.

Lemma ends_read {A E} (lost : SqlxError -> E) (q : DbState -> result A E) db Q :
  Q (q db) db -> ends oracle (read lost q) db Q.
Proof.
  intros HQ. apply ends_tx; [apply (u_fault _ _ Hcalm) |]. by destruct (q db).
Qed.

(** A lookup sees a row only. *)
Lemma find_payment_row h db db' :
  payments db' !! h = payments db !! h -> find_p h db' = find_p h db.
Proof. intros Hrow. by rewrite !find_by_payment_hash_spec, Hrow. Qed.

(** A loaded aggregate has the whole stored log. *)
Lemma find_payment_stored h db p :
  find_p h db = Ok p ->
  exists st, payments db !! h = Some st /\
    Payment.events p = ev_load (st_id st) (st_events st).
Proof.
  rewrite find_by_payment_hash_spec. destruct (payments db !! h) as [st |]; [| done].
  simpl. destruct (Payment.try_from_events _) as [p' |] eqn:Hp; intros [= <-].
  exists st. split; [done |]. by apply PaymentTheory.try_from_events_events.
Qed.

(** ** One payment *)

(** From [db] to [db'] the payment [h] was given LND's verdict. *)
Definition concluded (h : PaymentHash.t) (db db' : DbState) : Prop :=
  exists p q t c,
    payment_verdict lnd h t = Some c /\
    find_p h db = Ok p /\ Payment.state p = PaymentState.Initiated /\
    find_p h db' = Ok q /\ closed_by c q /\
    iter_all (Payment.events q) = iter_all (Payment.events p) ++ [command_event c].

(** The tables but for the payment [h], and the invariant. *)
Definition only_payment (h : PaymentHash.t) (db db' : DbState) : Prop :=
  db_ok db' /\ future db db' /\ invoices db' = invoices db /\
  forall h', h' <> h -> payments db' !! h' = payments db !! h'.

(** An executed command on a loaded payment is written, and reads back. *)
Lemma command_written h p c db :
  db_ok db -> find_p h db = Ok p -> lifecycle c (Payment.state p) = Ok Executed ->
  exists q st',
    update_in_op Payments.desc (run_command c p).1 (payments db) =
      Ok (q, <[ h := st' ]> (payments db)) /\
    exists q', find_by_payment_hash Payments.desc h (<[ h := st' ]> (payments db)) = Ok q' /\
      iter_all (Payment.events q') = iter_all (Payment.events p) ++ [command_event c] /\
      forall evs, Payment.set_events evs q' = Payment.set_events evs (run_command c p).1.
Proof.
  intros Hok Hfind Hl.
  destruct (find_payment_in_hand _ _ _ Hok Hfind) as [([Hwf _] & _) Hh].
  destruct (find_payment_stored _ _ _ Hfind) as (st & Hst & Hev).
  pose proof (run_command_wf c p Hwf) as [Hco _].
  pose proof (run_command_identity c p Hwf) as (_ & Hh' & _).
  rewrite run_command_answer in * by done. rewrite Hl in *. simpl in *.
  set (p1 := PaymentTheory.project (command_event c) (Payment.push (command_event c) p)) in *.
  assert (Hev1 : Payment.events p1 = ev_push (Payment.events p) (command_event c)) by by destruct c.
  assert (Hkey : Payment.payment_hash p1 = h) by congruence.
  pose proof (update_in_op_spec (d := Payments.desc) p1 (payments db) st) as Hup. simpl in Hup.
  rewrite Hkey, Hev1, Hev in Hup. autorewrite with events in Hup.
  rewrite decide_True in Hup by done. specialize (Hup ltac:(done) Hst).
  eexists _, _. split; [exact Hup |].
  eexists. split; [| split].
  - rewrite find_by_payment_hash_spec, lookup_insert_eq. simpl.
    rewrite (PaymentTheory.try_from_events_set (Payment.events p1)
               (ev_load (st_id st) (st_events st ++ [command_event c])) p1);
      [reflexivity | | | exact Hco].
    + rewrite Hev1, Hev. by autorewrite with events.
    + rewrite Hev1, Hev. by autorewrite with events.
  - simpl. rewrite Hev. by autorewrite with events.
  - done.
Qed.

Lemma ends_payment_commit h p c mk k db :
  db_ok db -> find_p h db = Ok p -> Payment.state p = PaymentState.Initiated ->
  lifecycle c (Payment.state p) = Ok Executed ->
  payment_announcement false (command_event c) = Some k -> payment_class k = true ->
  (forall t,
     NewOutboxEvent.domain_event (mk t) = k /\
     NewOutboxEvent.reference_id (mk t) = PaymentHash.to_hex h /\
     NewOutboxEvent.amount_sat (mk t) = sat_i64 (Payment.amount_msat p)) ->
  ends oracle (in_tx (let# p' := payments_update_in_op (run_command c p).1 in
                      let# t := tx_utc_now in
                      let# _ := outbox_publish_in_tx (mk t) in
                      tx_ret p')) db
    (fun r db' => is_ok r = true /\ only_payment h db db' /\
       exists q, find_p h db' = Ok q /\
         iter_all (Payment.events q) = iter_all (Payment.events p) ++ [command_event c] /\
         forall evs, Payment.set_events evs q = Payment.set_events evs (run_command c p).1).
Proof.
  intros Hok Hfind Hs Hl Hk Hclass Hmk. apply ends_tx; [apply (u_fault _ _ Hcalm) |].
  destruct (find_payment_in_hand _ _ _ Hok Hfind) as [Hhand Hh].
  destruct (command_announces c p db (Some k) Hhand Hl ltac:(done) ltac:(by left))
    as (Hnew & Hhash & _ & _ & Hnews).
  destruct (command_written h p c db Hok Hfind Hl) as (q & st' & Hup & q' & Hq' & Hlog & Hset).
  destruct ((tx_bind _ _) _ db) as [[a db2] | e] eqn:Htx.
  - pose proof Htx as Hdb2. apply payment_commit_tx_ok with (ret := fun p => p) in Htx
      as (_ & Hok2 & Hf2 & _); [| done | apply knows_payment_command, Hhand | done |].
    + split; [done |].
      unfold tx_bind, payments_update_in_op in Hdb2. rewrite Hup in Hdb2. cbn in Hdb2.
      change (MkDb _ (invoices db) (outbox db)) with
        (MkDb (<[ h := st' ]> (payments db)) (invoices db) (outbox db)) in Hdb2.
      unfold outbox_publish_in_tx in Hdb2.
      destruct (EventPublisher.publish_in_tx _ _ _) as [[seq tbl] |]; [| done].
      cbn in Hdb2. injection Hdb2 as _ <-. split; [| by exists q'].
      split; [done |]. split; [done |]. split; [done |]. intros h' Hne.
      apply lookup_insert_ne. congruence.
    + intros t. destruct (Hmk t) as (Hd & Hr & Ha). rewrite Hhash, Hh, Hnews, Hd, Hr, Ha. done.
  - exfalso. unfold tx_bind, payments_update_in_op in Htx. rewrite Hup in Htx. cbn in Htx.
    unfold outbox_publish_in_tx, EventPublisher.publish_in_tx in Htx. cbn in Htx.
    by rewrite (proj2 (OutboxTheory.sequence_unused _ _) (u_nextval _ _ Hcalm db)) in Htx.
Qed.

(** The two writers of outcomes, on an initiated payment. *)
Definition carried_out (h : PaymentHash.t) (p : Payment.t) (c : payment_command)
    (r : result Payment.t AppError.t) (db db' : DbState) : Prop :=
  is_ok r = true /\ only_payment h db db' /\
  exists q, find_p h db' = Ok q /\ closed_by c q /\
    iter_all (Payment.events q) = iter_all (Payment.events p) ++ [command_event c].

Lemma ends_commit_completed h p pre fees hops now db :
  db_ok db -> find_p h db = Ok p -> Payment.state p = PaymentState.Initiated ->
  ends oracle (commit_completed p h (sat_i64 (Payment.amount_msat p)) pre fees hops now) db
    (fun r db' => carried_out h p (Settle pre fees hops now) r db db').
Proof.
  intros Hok Hfind Hs. set (c := Settle pre fees hops now).
  destruct (find_payment_in_hand _ _ _ Hok Hfind) as [[[Hwf _] _] Hh].
  assert (Hl : lifecycle c (Payment.state p) = Ok Executed) by by rewrite Hs.
  pose proof (run_command_answer c p Hwf) as Hrun. rewrite Hl in Hrun.
  pose proof (ends_payment_commit h p c
    (completed_event h (sat_i64 (Payment.amount_msat p)) pre fees hops)
    GatewayDomainEvent.LightningPaymentCompleted db Hok Hfind Hs Hl eq_refl eq_refl) as Hc.
  unfold commit_completed. change (Payment.settle _ _ _ now p) with (run_command c p).
  rewrite Hrun in *. eapply ends_mono; [by apply Hc |].
  intros r db' (Hr & Honly & q & Hq & Hlog & Hset). split; [done |]. split; [done |].
  exists q. split; [done |]. split; [| done]. specialize (Hset (Payment.events p)).
  split; [exact (f_equal Payment.state Hset) |].
  split; [exact (f_equal Payment.payment_preimage Hset) |].
  split; [exact (f_equal Payment.fees_paid_msat Hset) |].
  exact (f_equal Payment.settled_at Hset).
Qed.

Lemma ends_commit_failed h p reason now db :
  db_ok db -> find_p h db = Ok p -> Payment.state p = PaymentState.Initiated ->
  ends oracle (commit_failed p h (sat_i64 (Payment.amount_msat p)) reason now) db
    (fun r db' => carried_out h p (Fail_ reason now) r db db').
Proof.
  intros Hok Hfind Hs. set (c := Fail_ reason now).
  destruct (find_payment_in_hand _ _ _ Hok Hfind) as [[[Hwf _] _] Hh].
  assert (Hl : lifecycle c (Payment.state p) = Ok Executed) by by rewrite Hs.
  pose proof (run_command_answer c p Hwf) as Hrun. rewrite Hl in Hrun.
  pose proof (ends_payment_commit h p c
    (failed_event h (sat_i64 (Payment.amount_msat p)) (FailureReason.detail_str reason))
    GatewayDomainEvent.LightningPaymentFailed db Hok Hfind Hs Hl eq_refl eq_refl) as Hc.
  unfold commit_failed. change (Payment.fail reason now p) with (run_command c p).
  rewrite Hrun in *. eapply ends_mono; [by apply Hc |].
  intros r db' (Hr & Honly & q & Hq & Hlog & Hset). split; [done |]. split; [done |].
  exists q. split; [done |]. split; [| done].
  exact (f_equal Payment.state (Hset (Payment.events p))).
Qed.

(** A reconciliation of an initiated payment returns; it reports success exactly when
    LND has a verdict, which it has then carried out, and else changes nothing. *)
Lemma reconcile_orphan_hold_ends h p db :
  db_ok db -> find_p h db = Ok p -> Payment.state p = PaymentState.Initiated ->
  ends oracle (reconcile_orphan_hold h) db (fun r db' =>
    if payment_conclusive lnd h
    then r = Ok true /\ only_payment h db db' /\ concluded h db db'
    else r <> Ok true /\ db' = db).
Proof.
  intros Hok Hfind Hs. unfold reconcile_orphan_hold, try_bind, map_err_.
  apply ends_bind, ends_bind, ends_read. rewrite Hfind. apply ends_ret. cbn [map_err].
  rewrite decide_False by (intros Hno; by apply Hno). apply ends_now. intros now _.
  apply ends_bind, (ends_call _ _ _ _ _ (u_lookup_payment _ _ Hcalm db h)).
  assert (Hcarried : forall c (r : result Payment.t AppError.t) db',
    payment_verdict lnd h now = Some c -> carried_out h p c r db db' ->
    exists p', r = Ok p' /\ only_payment h db db' /\ concluded h db db').
  { intros c [p' | e] db' Hv (Hr & Honly & q & Hq & Hc & Hlog); [| done].
    exists p'. split; [done |]. split; [done |]. by exists p, q, now, c. }
  unfold payment_conclusive. unfold payment_verdict in *.
  destruct (payment_outcome lnd h) as [[resp | e] |]; [| by destruct e | done].
  destruct (SendPaymentResponse.status resp); [done | |].
  - destruct (SendPaymentResponse.payment_preimage resp) as [pre |]; [| done].
    apply ends_bind. eapply ends_mono; [by apply ends_commit_completed |].
    intros r db' (p' & -> & Hrest)%Hcarried; [| done]. by apply ends_ret.
  - apply ends_bind. eapply ends_mono; [by apply ends_commit_failed |].
    intros r db' (p' & -> & Hrest)%Hcarried; [| done]. by apply ends_ret.
Qed.

(** ** The sweep over stranded payments *)

Lemma concluded_from h db0 db db' :
  payments db !! h = payments db0 !! h -> concluded h db db' -> concluded h db0 db'.
Proof. unfold concluded. intros Hrow. by rewrite (find_payment_row h db0 db Hrow). Qed.

Lemma concluded_to h db db1 db' :
  payments db' !! h = payments db1 !! h -> concluded h db db1 -> concluded h db db'.
Proof. unfold concluded. intros Hrow. by rewrite (find_payment_row h db1 db' Hrow). Qed.

(** What a sweep over the hashes [hs] makes of the database: the verdicts on them carried
    out, and nothing else. *)
Definition swept (hs : list PaymentHash.t) (db db' : DbState) : Prop :=
  db_ok db' /\ future db db' /\ invoices db' = invoices db /\
  forall h, if decide (h ∈ hs /\ payment_conclusive lnd h = true)
            then concluded h db db' else payments db' !! h = payments db !! h.

Lemma swept_nil db : db_ok db -> swept [] db db.
Proof.
  intros Hok. split; [done |]. split; [done |]. split; [done |]. intros h.
  by rewrite decide_False by (intros [Hin _]; by apply not_elem_of_nil in Hin).
Qed.

(** One more hash in front. *)
Lemma swept_cons h hs db db1 db2 :
  h ∉ hs -> swept hs db1 db2 ->
  (if payment_conclusive lnd h then only_payment h db db1 /\ concluded h db db1
   else db1 = db) ->
  swept (h :: hs) db db2.
Proof.
  intros Hno (Hok2 & Hf2 & Hi2 & Hall) Hhead.
  assert (Hfirst : future db db1 /\ invoices db1 = invoices db /\
    forall h', h' <> h -> payments db1 !! h' = payments db !! h').
  { destruct (payment_conclusive lnd h); [| by subst].
    destruct Hhead as [(_ & Hf & Hi & Hother) _]. done. }
  destruct Hfirst as (Hf1 & Hi1 & Hother).
  split; [done |]. split; [by etransitivity |]. split; [congruence |].
  intros h'. specialize (Hall h'). destruct (decide (h' = h)) as [-> | Hne].
  - rewrite decide_False in Hall by tauto. destruct (payment_conclusive lnd h) eqn:Hc.
    + rewrite decide_True by (split; [by left | done]). destruct Hhead as [_ Hconc].
      by apply (concluded_to h db db1).
    + rewrite decide_False by naive_solver. by subst.
  - rewrite <- (Hother h' Hne). destruct (decide (h' ∈ hs /\ _)) as [[Hin Hc] | Hn].
    + rewrite decide_True by (split; [by right | done]).
      by apply (concluded_from h' db db1 db2), Hall; apply Hother.
    + rewrite decide_False; [done |]. rewrite elem_of_cons. naive_solver.
Qed.

Lemma reconcile_all_ends hs n db :
  NoDup hs -> db_ok db ->
  (forall h, h ∈ hs -> exists p, find_p h db = Ok p /\ Payment.state p = PaymentState.Initiated) ->
  ends oracle (reconcile_all hs n) db (fun m db' =>
    m = n + length (List.filter (payment_conclusive lnd) hs) /\ swept hs db db').
Proof.
  revert n db. induction hs as [| h hs IH]; intros n db Hnd Hok Hall.
  - apply ends_ret. split; [simpl; lia | by apply swept_nil].
  - apply NoDup_cons in Hnd as [Hno Hnd]. destruct (Hall h) as (p & Hp & Hs); [by left |].
    apply ends_bind. eapply ends_mono; [by apply (reconcile_orphan_hold_ends h p) |].
    intros r db1 Hr. cbn [List.filter].
    assert (Hrest : db_ok db1 /\ forall h', h' ∈ hs ->
      exists p', find_p h' db1 = Ok p' /\ Payment.state p' = PaymentState.Initiated).
    { destruct (payment_conclusive lnd h); [| destruct Hr as [_ ->]; split; [done |];
        intros h' Hin; apply Hall; by right].
      destruct Hr as (_ & (Hok1 & _ & _ & Hother) & _). split; [done |].
      intros h' Hin. rewrite (find_payment_row h' db db1); [apply Hall; by right |].
      apply Hother. by intros ->. }
    destruct Hrest as [Hok1 Hall1].
    destruct (payment_conclusive lnd h) eqn:Hc.
    + destruct Hr as (-> & Hhead). eapply ends_mono; [by apply IH |].
      intros m db2 [-> Hsw]. split; [simpl; lia |].
      apply (swept_cons h hs db db1); [done | done |]. by rewrite Hc.
    + destruct Hr as [Hr ->]. assert (Hm : forall m db2,
        m = n + length (List.filter (payment_conclusive lnd) hs) /\ swept hs db db2 ->
        m = n + length (List.filter (payment_conclusive lnd) hs) /\ swept (h :: hs) db db2).
      { intros m db2 [-> Hsw]. split; [done |].
        apply (swept_cons h hs db db); [done | done |]. by rewrite Hc. }
      destruct r as [[] | e]; [done | |]; (eapply ends_mono; [by apply IH | exact Hm]).
Qed.

(** The stranded payments, read off the table. *)
Definition is_stranded (cutoff : Timestamp.t) (h : PaymentHash.t) (db : DbState) : Prop :=
  exists p st, find_p h db = Ok p /\ payments db !! h = Some st /\
    Payment.state p = PaymentState.Initiated /\
    Timestamp.lt (PaymentRow.created_at (st_row st)) cutoff.

Lemma state_str_initiated s : PaymentState.as_str s = "initiated" <-> s = PaymentState.Initiated.
Proof. by destruct s. Qed.

Lemma stored_found h st db :
  db_ok db -> payments db !! h = Some st ->
  exists p, find_p h db = Ok p /\ PaymentRow.state (st_row st) = PaymentState.as_str (Payment.state p).
Proof.
  intros [Hp _] Hst. specialize (Hp h). rewrite Hst in Hp.
  destruct Hp as ((p & Hfind & _ & _ & _ & _ & _ & Hs & _) & _). exists p.
  rewrite find_by_payment_hash_spec, Hst. simpl. by rewrite Hfind.
Qed.

(** The query returns stranded payments, each once, and all of them when it returns fewer
    than its limit, or the table is no larger than that. *)
Lemma list_stranded_spec cutoff limit db :
  db_ok db -> (0 <= limit)%Z ->
  exists hs, Payments.list_stranded_initiated cutoff limit (payments db) = Ok hs /\
    NoDup hs /\ (forall h, h ∈ hs -> is_stranded cutoff h db) /\
    ((Z.of_nat (length hs) < limit)%Z \/ (Z.of_nat (size (payments db)) <= limit)%Z ->
     forall h, is_stranded cutoff h db -> h ∈ hs).
Proof.
  intros Hok Hlimit. unfold Payments.list_stranded_initiated.
  set (sel := fun st : stored PaymentRow.t PaymentId.t PaymentEvent.t => _ && _).
  destruct (select_limit sel limit (payments db)) as [rows | e] eqn:Hrows;
    [| by apply select_limit_err in Hrows; lia].
  eexists. split; [reflexivity |]. split; [by eapply select_limit_keys |].
  assert (Hsel : forall h st, payments db !! h = Some st ->
    sel st = true <-> exists p, find_p h db = Ok p /\ Payment.state p = PaymentState.Initiated /\
      Timestamp.lt (PaymentRow.created_at (st_row st)) cutoff).
  { intros h st Hst. destruct (stored_found h st db Hok Hst) as (p & Hp & Hs). unfold sel.
    rewrite andb_true_iff, bool_decide_eq_true, String.eqb_eq, Hs, state_str_initiated.
    split; [intros []; by exists p |]. intros (p' & Hp' & ?).
    rewrite Hp in Hp'. by injection Hp' as <-. }
  split.
  - intros h ((h' & st) & -> & Hin)%list_elem_of_fmap.
    destruct (select_limit_sound _ _ _ _ _ _ Hrows Hin) as [Hst (p & ?)%(Hsel _ _ Hst)].
    exists p, st. tauto.
  - intros Hfit h (p & st & Hp & Hst & Hs & Ht). apply list_elem_of_fmap. exists (h, st).
    split; [done |]. assert (Hs' : sel st = true) by (apply (Hsel h st Hst); by exists p).
    rewrite length_map in Hfit.
    destruct Hfit as [Hfit | Hfit];
      [by eapply select_limit_short | by eapply select_limit_complete].
Qed.

Lemma sweep_orphan_holds_runs idle limit db now hs :
  db_ok db -> w_call (oracle db) Now = Some now ->
  Payments.list_stranded_initiated (Timestamp.new
    (Timestamp.as_nanos now - default (600 * nanos_per_sec)%Z idle)) limit (payments db) =
    Ok hs ->
  NoDup hs ->
  (forall h, h ∈ hs -> exists p, find_p h db = Ok p /\ Payment.state p = PaymentState.Initiated) ->
  exists db', run oracle (sweep_orphan_holds idle limit) db =
    Some (Ok (length (List.filter (payment_conclusive lnd) hs)), db') /\ swept hs db db'.
Proof.
  intros Hok Hnow Hhs Hnd Hin.
  assert (Hrun : ends oracle (sweep_orphan_holds idle limit) db (fun r db' =>
    r = Ok (length (List.filter (payment_conclusive lnd) hs)) /\ swept hs db db')).
  { unfold sweep_orphan_holds, try_bind, map_err_. apply ends_bind.
    apply (ends_call _ _ now); [done |]. apply ends_bind, ends_bind, ends_read.
    rewrite Hhs. apply ends_ret. cbn [map_err]. apply ends_bind.
    eapply ends_mono; [by apply reconcile_all_ends |].
    intros n db' [-> Hsw]. by apply ends_ret. }
  unfold ends in Hrun. destruct (run oracle _ db) as [[r db'] |]; [| done].
  destruct Hrun as [-> Hsw]. by exists db'.
Qed.

(** C24. When nothing fails meanwhile, the sweep over orphan holds returns, whatever LND
    answers: every payment it selected whose outcome LND knows is driven to exactly this
    outcome (completed with LND's preimage and fee, or failed), with one event appended to
    its log and, the invariant holding, its announcement in the outbox; it counts these
    payments; no other payment and no invoice is touched.  When the limit is no smaller
    than the table, every payment stranded for longer than the idle time is among them. *)
Theorem orphan_sweep_recovers idle limit db now :
  db_ok db -> (0 <= limit)%Z -> w_call (oracle db) Now = Some now ->
  let cutoff := Timestamp.new
    (Timestamp.as_nanos now - default (600 * nanos_per_sec)%Z idle) in
  exists stranded n db',
    Payments.list_stranded_initiated cutoff limit (payments db) = Ok stranded /\
    run oracle (sweep_orphan_holds idle limit) db = Some (Ok n, db') /\
    n = length (List.filter (payment_conclusive lnd) stranded) /\
    swept stranded db db' /\
    ((Z.of_nat (size (payments db)) <= limit)%Z ->
     forall h, is_stranded cutoff h db -> payment_conclusive lnd h = true ->
       concluded h db db').
Proof.
  intros Hok Hlimit Hnow cutoff.
  destruct (list_stranded_spec cutoff limit db Hok Hlimit) as (hs & Hhs & Hnd & Hin & Hfit).
  destruct (sweep_orphan_holds_runs idle limit db now hs) as (db' & Hrun & Hsw);
    [done | done | done | done | |].
  { intros h (p & st & Hp & _ & Hs & _)%Hin. by exists p. }
  eexists hs, _, db'. split; [done |]. split; [done |]. split; [done |]. split; [done |].
  intros Hsize h Hh Hc. destruct Hsw as (_ & _ & _ & Hall). specialize (Hall h).
  rewrite decide_True in Hall; [done |]. split; [by apply Hfit; [right |] | done].
Qed.

(** A payment that LND has never heard of, left by a crash between its hold and its send,
    is left by every sweep, and its hold with it; and when all those selected are such, the
    sweep changes no payment, so that the next one may select the same again. *)
Theorem sweep_leaves_unknown idle limit db now :
  db_ok db -> (0 <= limit)%Z -> w_call (oracle db) Now = Some now ->
  exists stranded n db',
    Payments.list_stranded_initiated (Timestamp.new
      (Timestamp.as_nanos now - default (600 * nanos_per_sec)%Z idle)) limit (payments db) =
      Ok stranded /\
    run oracle (sweep_orphan_holds idle limit) db = Some (Ok n, db') /\
    (forall h, payment_outcome lnd h = Some (Err LndError.PaymentNotFound) ->
       payments db' !! h = payments db !! h) /\
    ((forall h, h ∈ stranded ->
        payment_outcome lnd h = Some (Err LndError.PaymentNotFound)) ->
     payments db' = payments db).
Proof.
  intros Hok Hlimit Hnow.
  destruct (list_stranded_spec (Timestamp.new
    (Timestamp.as_nanos now - default (600 * nanos_per_sec)%Z idle)) limit db Hok Hlimit)
    as (hs & Hhs & Hnd & Hin & _).
  destruct (sweep_orphan_holds_runs idle limit db now hs) as (db' & Hrun & _ & _ & _ & Hall);
    [done | done | done | done | |].
  { intros h (p & st & Hp & _ & Hs & _)%Hin. by exists p. }
  assert (Hunknown : forall h, payment_outcome lnd h = Some (Err LndError.PaymentNotFound) ->
    payment_conclusive lnd h = false).
  { intros h Hh. unfold payment_conclusive, payment_verdict. by rewrite Hh. }
  eexists hs, _, db'. split; [done |]. split; [done |]. split.
  - intros h Hh%Hunknown. specialize (Hall h). rewrite decide_False in Hall; [done |].
    intros [_ Hc]. congruence.
  - intros Hnone. apply map_eq. intros h. specialize (Hall h).
    rewrite decide_False in Hall; [done |]. intros [Hh Hc].
    rewrite (Hunknown h (Hnone h Hh)) in Hc. done.
Qed.
End Recovery.
