(* ===== verification/CrashRecovery.v ===== *)
(** Recovery after a crash: the sweep over held invoices
    (src/src/app/reconcile_held_invoice.rs, src/src/job/invoice_reconciliation_sweep.rs)
    reaches its goal as the sweep over payments does, and both jobs together decide, in
    whatever configuration the handlers were stopped in, what their queries select.  The
    examples run them on a
    payment and on an invoice left behind. *)
From S2P Require Import Prelude Primitives Fees EsEntity Concrete GraphqlTypes Jwks.
From S2P Require Import PaymentEntity InvoiceEntity Outbox Lnd Symphony Wallet Effects App.
From S2P Require Import Grpc AppPayment AppInvoice Jobs Ledger Evidence Safety Gateway Recovery.

(** What LND's answers make of a held invoice. *)
Definition invoice_verdict `{EventStore} (lnd : lnd_answers) (i : Invoice.t) (t : Timestamp.t) :
    option invoice_command :=
  match invoice_outcome lnd (Invoice.payment_hash i) with
  | Ok upd =>
      match InvoiceUpdate.state upd with
      | LndInvoiceState.Settled => Some (SettleHold t)
      | LndInvoiceState.Canceled => Some (Cancel CancelReason.Expired t)
      | LndInvoiceState.Accepted =>
          if settle_outcome lnd (Invoice.payment_preimage i) then Some (SettleHold t) else None
      | LndInvoiceState.Open => None
      end
  | Err _ => None
  end.

Section CrashRecovery.
Context `{HexLaws} `{Sha256} `{UuidText} `{TonicText} `{ErrorText} `{Bolt11} `{EventStoreLaws}.
Context `{PR : !EsRepo Payments.desc} `{PRL : !EsRepoLaws (d := Payments.desc)}.
Context `{IR : !EsRepo Invoices.desc} `{IRL : !EsRepoLaws (d := Invoices.desc)}.
Context `{RO : RowOrder} `{ROL : !RowOrderLaws}.
Context (lnd : lnd_answers) (oracle : DbState -> world ext_resp TxEnv).
Context (Hcalm : undisturbed lnd oracle).

Notation find_i h db := (find_by_payment_hash Invoices.desc h (invoices db)).

(** ** Rows and loaded invoices *)

Lemma find_invoice_row h db db' :
  invoices db' !! h = invoices db !! h -> find_i h db' = find_i h db.
Proof. intros Hrow. by rewrite !find_by_payment_hash_spec, Hrow. Qed.

Lemma find_invoice_stored h db i :
  find_i h db = Ok i ->
  exists st, invoices db !! h = Some st /\
    Invoice.events i = ev_load (st_id st) (st_events st).
Proof.
  rewrite find_by_payment_hash_spec. destruct (invoices db !! h) as [st |]; [| done].
  simpl. destruct (Invoice.try_from_events _) as [i' |] eqn:Hi; intros [= <-].
  exists st. split; [done |]. by apply InvoiceTheory.invoice_try_from_events_events.
Qed.

(** ** One held invoice *)

Definition invoice_conclusive (h : PaymentHash.t) (db : DbState) : bool :=
  match find_i h db with
  | Ok i => if invoice_verdict lnd i (Timestamp.new 0) then true else false
  | Err _ => false
  end.

(** From [db] to [db'] the held invoice [h] was given LND's verdict. *)
Definition resolved (h : PaymentHash.t) (db db' : DbState) : Prop :=
  exists i j t c,
    invoice_verdict lnd i t = Some c /\
    find_i h db = Ok i /\ Invoice.state i = InvoiceState.Held /\
    find_i h db' = Ok j /\
    Invoice.state j = phase_state (invoice_command_phase c PhHeld) /\
    iter_all (Invoice.events j) = iter_all (Invoice.events i) ++ [invoice_command_event c].

Definition only_invoice (h : PaymentHash.t) (db db' : DbState) : Prop :=
  db_ok db' /\ future db db' /\ payments db' = payments db /\
  forall h', h' <> h -> invoices db' !! h' = invoices db !! h'.

Lemma held_phase i : InvoiceTheory.wf i -> Invoice.state i = InvoiceState.Held ->
  InvoiceTheory.wf_in PhHeld i.
Proof. intros [ph Hwf] Hs. pose proof Hwf as (_ & _ & Hph & _). rewrite Hs in Hph. by destruct ph. Qed.

Lemma invoice_command_written h i c db :
  db_ok db -> find_i h db = Ok i -> Invoice.state i = InvoiceState.Held ->
  invoice_lifecycle c PhHeld = Ok Executed ->
  exists j st',
    update_in_op Invoices.desc (run_invoice_command c i).1 (invoices db) =
      Ok (j, <[ h := st' ]> (invoices db)) /\
    exists j', find_by_payment_hash Invoices.desc h (<[ h := st' ]> (invoices db)) = Ok j' /\
      iter_all (Invoice.events j') = iter_all (Invoice.events i) ++ [invoice_command_event c] /\
      Invoice.state j' = phase_state (invoice_command_phase c PhHeld).
Proof.
  intros Hok Hfind Hheld Hl.
  destruct (find_invoice_in_hand _ _ _ Hok Hfind) as ([[Hwf _] _] & Hh & _).
  apply held_phase in Hwf; [| done].
  destruct (find_invoice_stored _ _ _ Hfind) as (st & Hst & Hev).
  pose proof (run_invoice_command_wf c PhHeld i Hwf) as (Hco & _ & Hs & _).
  rewrite (run_invoice_command_answer c PhHeld) in * by done. rewrite Hl in *. simpl in *.
  set (i1 := InvoiceTheory.project _ _) in *.
  assert (Hev1 : Invoice.events i1 = ev_push (Invoice.events i) (invoice_command_event c))
    by by destruct c.
  assert (Hkey : Invoice.payment_hash i1 = h) by by rewrite <- Hh; destruct c.
  pose proof (update_in_op_spec (d := Invoices.desc) i1 (invoices db) st) as Hup. simpl in Hup.
  rewrite Hkey, Hev1, Hev in Hup. autorewrite with events in Hup.
  rewrite decide_True in Hup by done. specialize (Hup ltac:(done) Hst).
  eexists _, _. split; [exact Hup |].
  eexists. split; [| split].
  - rewrite find_by_payment_hash_spec, lookup_insert_eq. simpl.
    rewrite (InvoiceTheory.invoice_try_from_events_set (Invoice.events i1)
               (ev_load (st_id st) (st_events st ++ [invoice_command_event c])) i1);
      [reflexivity | | | exact Hco].
    + rewrite Hev1, Hev. by autorewrite with events.
    + rewrite Hev1, Hev. by autorewrite with events.
  - simpl. rewrite Hev. by autorewrite with events.
  - exact Hs.
Qed.

(** What a writer of an invoice's outcome leaves. *)
Definition carried_out_invoice (h : PaymentHash.t) (i : Invoice.t) (c : invoice_command)
    (db db' : DbState) : Prop :=
  only_invoice h db db' /\
  exists j, find_i h db' = Ok j /\
    Invoice.state j = phase_state (invoice_command_phase c PhHeld) /\
    iter_all (Invoice.events j) = iter_all (Invoice.events i) ++ [invoice_command_event c].

Lemma ends_invoice_commit h i c mk db :
  db_ok db -> find_i h db = Ok i -> Invoice.state i = InvoiceState.Held ->
  invoice_lifecycle c PhHeld = Ok Executed ->
  (forall t,
     invoice_announcement (invoice_command_event c) =
       Some (NewOutboxEvent.domain_event (mk t)) /\
     payment_class (NewOutboxEvent.domain_event (mk t)) = false /\
     NewOutboxEvent.reference_id (mk t) = PaymentHash.to_hex h) ->
  ends oracle (in_tx (let# _ := invoices_update_in_op (run_invoice_command c i).1 in
                      let# t := tx_utc_now in
                      let# _ := outbox_publish_in_tx (mk t) in
                      tx_ret tt)) db
    (fun r db' => r = Ok tt /\ carried_out_invoice h i c db db').
Proof.
  intros Hok Hfind Hheld Hl Hmk. apply ends_tx; [apply (u_fault _ _ Hcalm) |].
  destruct (find_invoice_in_hand _ _ _ Hok Hfind) as ([Hk Hnone] & Hh & _).
  pose proof (held_phase i (proj1 Hk) Hheld) as Hwf.
  destruct (run_invoice_command_executed c PhHeld i Hwf Hl) as (Hnew & Hhash).
  destruct (invoice_command_written h i c db Hok Hfind Hheld Hl)
    as (j & st' & Hup & j' & Hj' & Hlog & Hs).
  destruct ((tx_bind _ _) _ db) as [[[] db2] | e] eqn:Htx.
  - split; [done |]. pose proof Htx as Hdb2.
    apply invoice_commit_tx_ok in Htx as (_ & Hok2 & Hf2); [| done | by apply knows_invoice_command | ..].
    + unfold tx_bind, invoices_update_in_op in Hdb2. rewrite Hup in Hdb2. cbn in Hdb2.
      unfold outbox_publish_in_tx in Hdb2.
      destruct (EventPublisher.publish_in_tx _ _ _) as [[seq tbl] |]; [| done].
      cbn in Hdb2. injection Hdb2 as <-. split; [| by exists j'].
      split; [done |]. split; [done |]. split; [done |]. intros h' Hne.
      apply lookup_insert_ne. congruence.
    + by rewrite Hnew, Hnone.
    + intros t. destruct (Hmk t) as (Ha & Hc & Hr). rewrite Hhash, Hh, Hr, Hc.
      unfold new_invoice_announcements in *. rewrite Hnew, Hnone. csimpl. by rewrite Ha.
    + rewrite Hnew, Hnone. destruct (Hmk (Timestamp.new 0)) as (Ha & _). by destruct c.
  - exfalso. unfold tx_bind, invoices_update_in_op in Htx. rewrite Hup in Htx. cbn in Htx.
    unfold outbox_publish_in_tx, EventPublisher.publish_in_tx in Htx. cbn in Htx.
    by rewrite (proj2 (OutboxTheory.sequence_unused _ _) (u_nextval _ _ Hcalm db)) in Htx.
Qed.

Lemma ends_commit_settle h i amt db :
  db_ok db -> find_i h db = Ok i -> Invoice.state i = InvoiceState.Held ->
  ends oracle (commit_settle i h amt) db (fun r db' =>
    exists now, r = Ok tt /\ carried_out_invoice h i (SettleHold now) db db').
Proof.
  intros Hok Hfind Hheld. unfold commit_settle. apply (ends_now lnd oracle Hcalm). intros now _.
  destruct (find_invoice_in_hand _ _ _ Hok Hfind) as ([[Hwf _] _] & _).
  apply held_phase in Hwf; [| done].
  pose proof (run_invoice_command_answer (SettleHold now) PhHeld i Hwf) as Hrun.
  pose proof (run_invoice_command_wf (SettleHold now) PhHeld i Hwf) as (_ & _ & _ & Hm & _).
  pose proof (ends_invoice_commit h i (SettleHold now)) as Hc.
  change (Invoice.settle now i) with (run_invoice_command (SettleHold now) i).
  rewrite Hrun in *. cbn [fst snd invoice_lifecycle] in *. destruct Hm as [_ Hm].
  destruct (Hm eq_refl) as [m Heq]. unfold expect. rewrite Heq.
  eapply ends_mono; [by apply Hc |]. intros r db' Hr. by exists now.
Qed.

Lemma ends_commit_cancel h i reason amt db :
  db_ok db -> find_i h db = Ok i -> Invoice.state i = InvoiceState.Held ->
  ends oracle (commit_cancel i h reason amt) db (fun r db' =>
    exists now, r = Ok tt /\ carried_out_invoice h i (Cancel reason now) db db').
Proof.
  intros Hok Hfind Hheld. unfold commit_cancel. apply (ends_now lnd oracle Hcalm). intros now _.
  destruct (find_invoice_in_hand _ _ _ Hok Hfind) as ([[Hwf _] _] & _).
  apply held_phase in Hwf; [| done].
  pose proof (run_invoice_command_answer (Cancel reason now) PhHeld i Hwf) as Hrun.
  pose proof (ends_invoice_commit h i (Cancel reason now)) as Hc.
  change (Invoice.cancel reason now i) with (run_invoice_command (Cancel reason now) i).
  rewrite Hrun in *. cbn [fst snd invoice_lifecycle] in *.
  eapply ends_mono; [by apply Hc |]. intros r db' Hr. by exists now.
Qed.

Lemma reconcile_held_invoice_ends h i db :
  db_ok db -> find_i h db = Ok i -> Invoice.state i = InvoiceState.Held ->
  ends oracle (reconcile_held_invoice h) db (fun r db' =>
    if invoice_conclusive h db
    then r = Ok tt /\ only_invoice h db db' /\ resolved h db db' else db' = db).
Proof.
  intros Hok Hfind Hheld. unfold reconcile_held_invoice, try_bind, map_err_.
  apply ends_bind, (ends_read lnd oracle Hcalm). rewrite Hfind.
  rewrite decide_False by (intros Hno; by apply Hno).
  destruct (find_invoice_in_hand _ _ _ Hok Hfind) as (_ & Hh & _).
  assert (Hcarried : forall c t (r : result unit AppError.t) db',
    invoice_verdict lnd i t = Some c -> r = Ok tt /\ carried_out_invoice h i c db db' ->
    r = Ok tt /\ only_invoice h db db' /\ resolved h db db').
  { intros c t r db' Hv (Hr & Honly & j & Hj & Hs & Hlog). split; [done |]. split; [done |].
    by exists i, j, t, c. }
  unfold invoice_conclusive. rewrite Hfind. unfold invoice_verdict in *. rewrite Hh in *.
  apply ends_bind, ends_bind, (ends_call _ _ _ _ _ (u_lookup_invoice _ _ Hcalm db h)), ends_ret.
  destruct (invoice_outcome lnd h) as [upd | e]; [| done]. cbn [map_err].
  destruct (InvoiceUpdate.state upd); [done | | |].
  - apply ends_bind, ends_bind, (ends_call _ _ _ _ _ (u_settle _ _ Hcalm db _)), ends_ret.
    destruct (settle_outcome lnd _) as [[] | e]; [| done]. cbn [map_err].
    eapply ends_mono; [by apply ends_commit_settle |]. intros r db' (t & Hr).
    by apply (Hcarried (SettleHold t) t).
  - eapply ends_mono; [by apply ends_commit_settle |]. intros r db' (t & Hr).
    by apply (Hcarried (SettleHold t) t).
  - eapply ends_mono; [by apply ends_commit_cancel |]. intros r db' (t & Hr).
    by apply (Hcarried (Cancel CancelReason.Expired t) t).
Qed.

(** ** The sweep over held invoices *)

Lemma resolved_rows h db0 db1 db db' :
  invoices db !! h = invoices db0 !! h -> invoices db1 !! h = invoices db' !! h ->
  resolved h db db1 -> resolved h db0 db'.
Proof.
  unfold resolved. intros Hbefore Hafter.
  by rewrite (find_invoice_row h db0 db Hbefore), (find_invoice_row h db' db1 Hafter).
Qed.

Definition swept_invoices (hs : list PaymentHash.t) (db db' : DbState) : Prop :=
  db_ok db' /\ future db db' /\ payments db' = payments db /\
  forall h, if decide (h ∈ hs /\ invoice_conclusive h db = true)
            then resolved h db db' else invoices db' !! h = invoices db !! h.

Lemma swept_invoices_cons h hs db db1 db2 :
  h ∉ hs -> swept_invoices hs db1 db2 ->
  (if invoice_conclusive h db then only_invoice h db db1 /\ resolved h db db1 else db1 = db) ->
  swept_invoices (h :: hs) db db2.
Proof.
  intros Hno (Hok2 & Hf2 & Hp2 & Hall) Hhead.
  assert (Hfirst : future db db1 /\ payments db1 = payments db /\
    forall h', h' <> h -> invoices db1 !! h' = invoices db !! h').
  { destruct (invoice_conclusive h db); [| by subst].
    by destruct Hhead as [(_ & Hf & Hp & Hother) _]. }
  destruct Hfirst as (Hf1 & Hp1 & Hother).
  split; [done |]. split; [by etransitivity |]. split; [congruence |].
  intros h'. specialize (Hall h'). destruct (decide (h' = h)) as [-> | Hne].
  - rewrite decide_False in Hall by tauto. destruct (invoice_conclusive h db) eqn:Hc.
    + rewrite decide_True by (split; [by left | done]). destruct Hhead as [_ Hres].
      by apply (resolved_rows h db db1 db).
    + rewrite decide_False by naive_solver. by subst.
  - assert (Hc : invoice_conclusive h' db1 = invoice_conclusive h' db).
    { unfold invoice_conclusive. by rewrite (find_invoice_row h' db db1) by by apply Hother. }
    rewrite Hc in Hall. rewrite <- (Hother h' Hne).
    destruct (decide (h' ∈ hs /\ _)) as [[Hin Hc'] | Hn].
    + rewrite decide_True by (split; [by right | done]).
      apply (resolved_rows h' db db2 db1); [by apply Hother | done | done].
    + rewrite decide_False; [done |]. rewrite elem_of_cons. naive_solver.
Qed.

Lemma reconcile_each_ends hs db :
  NoDup hs -> db_ok db ->
  (forall h, h ∈ hs -> exists i, find_i h db = Ok i /\ Invoice.state i = InvoiceState.Held) ->
  ends oracle (reconcile_each hs) db (fun _ db' => swept_invoices hs db db').
Proof.
  revert db. induction hs as [| h hs IH]; intros db Hnd Hok Hall.
  - apply ends_ret. split; [done |]. split; [done |]. split; [done |]. intros h.
    by rewrite decide_False by (intros [Hin _]; by apply not_elem_of_nil in Hin).
  - apply NoDup_cons in Hnd as [Hno Hnd]. destruct (Hall h) as (i & Hi & Hs); [by left |].
    apply ends_bind. eapply ends_mono; [by apply (reconcile_held_invoice_ends h i) |].
    intros r db1 Hr.
    assert (Hhead : if invoice_conclusive h db
      then only_invoice h db db1 /\ resolved h db db1 else db1 = db)
      by (destruct (invoice_conclusive h db); [by destruct Hr as [_ ?] | done]).
    assert (Hrest : db_ok db1 /\ forall h', h' <> h -> invoices db1 !! h' = invoices db !! h').
    { destruct (invoice_conclusive h db); [| by subst]. by destruct Hhead as [(? & _ & _ & ?) _]. }
    destruct Hrest as [Hok1 Hother]. eapply ends_mono; [apply IH; [done | done |] |].
    + intros h' Hin. rewrite (find_invoice_row h' db db1); [apply Hall; by right |].
      apply Hother. by intros ->.
    + intros [] db2 Hsw. by apply (swept_invoices_cons h hs db db1).
Qed.

Definition is_held (h : PaymentHash.t) (db : DbState) : Prop :=
  exists i, find_i h db = Ok i /\ Invoice.state i = InvoiceState.Held.

Lemma invoice_stored_found h st db :
  db_ok db -> invoices db !! h = Some st ->
  exists i, find_i h db = Ok i /\
    InvoiceRow.state (st_row st) = InvoiceState.as_str (Invoice.state i).
Proof.
  intros (_ & _ & Hi & _) Hst. specialize (Hi h). rewrite Hst in Hi.
  destruct Hi as ((i & Hfind & _ & _ & _ & _ & _ & Hs) & _). exists i.
  rewrite find_by_payment_hash_spec, Hst. simpl. by rewrite Hfind.
Qed.

Lemma list_held_spec limit db :
  db_ok db -> (0 <= limit)%Z ->
  exists hs, Invoices.list_held limit (invoices db) = Ok hs /\
    NoDup hs /\ (forall h, h ∈ hs -> is_held h db) /\
    ((Z.of_nat (length hs) < limit)%Z \/ (Z.of_nat (size (invoices db)) <= limit)%Z ->
     forall h, is_held h db -> h ∈ hs).
Proof.
  intros Hok Hlimit. unfold Invoices.list_held.
  destruct (select_limit _ limit (invoices db)) as [rows | e] eqn:Hrows;
    [| by apply select_limit_err in Hrows; lia].
  eexists. split; [reflexivity |]. split; [by eapply select_limit_keys |].
  assert (Hsel : forall h st, invoices db !! h = Some st ->
    Invoices.state_in ["held"] st = true <-> is_held h db).
  { intros h st Hst. destruct (invoice_stored_found h st db Hok Hst) as (i & Hi & Hs).
    unfold Invoices.state_in, is_held. simpl. rewrite Hs, Hi, orb_false_r. split.
    - intros Heq. exists i. split; [done |]. by destruct (Invoice.state i).
    - intros (i' & [= <-] & ->). done. }
  split.
  - intros h ((h' & st) & -> & Hin)%list_elem_of_fmap.
    destruct (select_limit_sound _ _ _ _ _ _ Hrows Hin) as [Hst Hh]. by apply (Hsel _ st).
  - intros Hfit h Hh. destruct Hh as (i & Hi & Hs).
    destruct (find_invoice_stored _ _ _ Hi) as (st & Hst & _).
    apply list_elem_of_fmap. exists (h, st). split; [done |].
    assert (Hs' : Invoices.state_in ["held"] st = true) by (apply (Hsel h st Hst); by exists i).
    rewrite length_map in Hfit.
    destruct Hfit as [Hfit | Hfit];
      [by eapply select_limit_short | by eapply select_limit_complete].
Qed.

Lemma invoice_reconciliation_runs db :
  db_ok db ->
  exists held db',
    Invoices.list_held RECONCILIATION_SWEEP_LIMIT (invoices db) = Ok held /\
    run oracle invoice_reconciliation_run db =
      Some (Ok (RescheduleIn RECONCILIATION_SWEEP_INTERVAL), db') /\
    swept_invoices held db db' /\
    ((Z.of_nat (length held) < RECONCILIATION_SWEEP_LIMIT)%Z \/
     (Z.of_nat (size (invoices db)) <= RECONCILIATION_SWEEP_LIMIT)%Z ->
     forall h, is_held h db -> h ∈ held).
Proof.
  intros Hok.
  destruct (list_held_spec RECONCILIATION_SWEEP_LIMIT db Hok ltac:(done))
    as (hs & Hhs & Hnd & Hin & Hfit).
  assert (Hrun : ends oracle invoice_reconciliation_run db (fun r db' =>
    r = Ok (RescheduleIn RECONCILIATION_SWEEP_INTERVAL) /\ swept_invoices hs db db')).
  { unfold invoice_reconciliation_run, try_bind. apply ends_bind, (ends_read lnd oracle Hcalm).
    rewrite Hhs. apply ends_bind. eapply ends_mono; [by apply reconcile_each_ends |].
    intros [] db' Hsw. by apply ends_ret. }
  unfold ends in Hrun. destruct (run oracle _ db) as [[r db'] |]; [| done].
  destruct Hrun as [-> Hsw]. by exists hs, db'.
Qed.

(** The conclusive ones among the swept. *)
Lemma swept_invoices_resolved hs db db' h :
  swept_invoices hs db db' -> h ∈ hs -> invoice_conclusive h db = true -> resolved h db db'.
Proof.
  intros (_ & _ & _ & Hall) Hin Hc. specialize (Hall h). by rewrite decide_True in Hall.
Qed.

(** When nothing fails meanwhile, the reconciliation job returns and asks for its next
    run, whatever LND answers: every held invoice it selected that LND reports settled or
    canceled, or still accepted and lets settle, is driven to exactly this outcome, with
    one event appended to its log and its announcement made; no other invoice and no
    payment is touched.  When the limit is no smaller than the table, every held invoice
    is among them. *)
Theorem held_sweep_recovers db :
  db_ok db ->
  exists held db',
    Invoices.list_held RECONCILIATION_SWEEP_LIMIT (invoices db) = Ok held /\
    run oracle invoice_reconciliation_run db =
      Some (Ok (RescheduleIn RECONCILIATION_SWEEP_INTERVAL), db') /\
    swept_invoices held db db' /\
    ((Z.of_nat (size (invoices db)) <= RECONCILIATION_SWEEP_LIMIT)%Z ->
     forall h, is_held h db -> invoice_conclusive h db = true -> resolved h db db').
Proof.
  intros Hok. destruct (invoice_reconciliation_runs db Hok)
    as (held & db' & Hl & Hrun & Hsw & Hfit).
  exists held, db'. split_and!; try done. intros Hsize h Hh.
  apply (swept_invoices_resolved held); [done |]. by apply Hfit; [right |].
Qed.

(** ** After a crash *)

Lemma run_discard {A} (p : app A) db a db' :
  run oracle p db = Some (a, db') -> run oracle (discard p) db = Some (tt, db').
Proof. intros Hp. unfold discard. by rewrite run_bind, Hp. Qed.

(** C23. Whatever interleaving of handlers came before, and wherever each of them stopped
    for ever: when both jobs then run, one after the other, in an undisturbed world - no
    connection is lost, nobody else commits, the sequence has fresh values, LND answers every
    question and the same one alike - they return, and the gateway is in a configuration it
    can reach.  Each job decides what its query selected: every
    selected payment whose outcome LND knows has this outcome, and every selected invoice
    that LND reports decided, or lets settle, is decided.  A query that returns fewer rows
    than its limit of a thousand has selected everything - all payments stranded for ten
    minutes, all held invoices - and so has one on a table no larger than the limit; then
    nothing LND has decided is left behind.  A query that returns a thousand may leave any
    of the others, as it has no order. *)
Theorem crash_recovery mode c now :
  reachable (gateway_handler mode) (empty_db, []) c ->
  w_call (oracle c.1) Now = Some now ->
  let cutoff := Timestamp.new
    (Timestamp.as_nanos now - ORPHAN_HOLD_IDLE_THRESHOLD * nanos_per_sec)%Z in
  exists stranded held db1 db2 tr1 tr2,
    Payments.list_stranded_initiated cutoff ORPHAN_HOLD_SWEEP_LIMIT (payments c.1) =
      Ok stranded /\
    Invoices.list_held RECONCILIATION_SWEEP_LIMIT (invoices c.1) = Ok held /\
    run oracle (discard orphan_hold_run) c.1 = Some (tt, db1) /\
    run oracle (discard invoice_reconciliation_run) db1 = Some (tt, db2) /\
    reachable (gateway_handler mode) (empty_db, [])
      (db2, c.2 ++ [Thread (Ret tt) tr1; Thread (Ret tt) tr2]) /\
    (forall h, h ∈ stranded -> payment_conclusive lnd h = true -> concluded lnd h c.1 db2) /\
    ((Z.of_nat (length stranded) < ORPHAN_HOLD_SWEEP_LIMIT)%Z \/
     (Z.of_nat (size (payments c.1)) <= ORPHAN_HOLD_SWEEP_LIMIT)%Z ->
     forall h, is_stranded cutoff h c.1 -> h ∈ stranded) /\
    (forall h, h ∈ held -> invoice_conclusive h c.1 = true -> resolved h c.1 db2) /\
    ((Z.of_nat (length held) < RECONCILIATION_SWEEP_LIMIT)%Z \/
     (Z.of_nat (size (invoices c.1)) <= RECONCILIATION_SWEEP_LIMIT)%Z ->
     forall h, is_held h c.1 -> h ∈ held).
Proof.
  intros Hreach Hnow cutoff. pose proof (gateway_ok mode c Hreach) as Hok.
  destruct (list_stranded_spec cutoff ORPHAN_HOLD_SWEEP_LIMIT c.1 Hok ltac:(done))
    as (hs & Hhs & Hnd & Hin & Hfit).
  destruct (sweep_orphan_holds_runs lnd oracle Hcalm (Some (ORPHAN_HOLD_IDLE_THRESHOLD * nanos_per_sec)%Z)
    ORPHAN_HOLD_SWEEP_LIMIT c.1 now hs) as (db1 & Hrun1 & Hok1 & _ & Hinv1 & Hall1);
    [done | done | done | done | |].
  { intros h (p & st & Hp & _ & Hs & _)%Hin. by exists p. }
  destruct (invoice_reconciliation_runs db1 Hok1)
    as (held & db2 & Hheld & Hrun2 & Hsw2 & Hfit2).
  pose proof Hsw2 as (_ & _ & Hpay2 & _).
  assert (Hjob1 : run oracle (discard orphan_hold_run) c.1 = Some (tt, db1)).
  { eapply run_discard. unfold orphan_hold_run, try_bind. by rewrite run_bind, Hrun1. }
  apply run_discard in Hrun2.
  destruct (run_reachable oracle (gateway_handler mode) (empty_db, []) c.1 c.2 _ tt db1
    (gh_orphan_hold_run mode)) as [tr1 Hr1]; [by destruct c | done |].
  destruct (run_reachable oracle (gateway_handler mode) (empty_db, []) db1 _ _ tt db2
    (gh_reconciliation_run mode) Hr1 Hrun2) as [tr2 Hr2].
  assert (Hsame : forall h, find_i h db1 = find_i h c.1)
    by (intros h; apply find_invoice_row; by rewrite Hinv1).
  rewrite Hinv1 in Hheld.
  exists hs, held, db1, db2, tr1, tr2. split_and!; try done.
  - by rewrite <- app_assoc in Hr2.
  - intros h Hh Hc. apply (concluded_to lnd h c.1 db1); [by rewrite Hpay2 |].
    specialize (Hall1 h). by rewrite decide_True in Hall1.
  - intros h Hh Hc. apply (resolved_rows h c.1 db2 db1); [by rewrite Hinv1 | done |].
    apply (swept_invoices_resolved held); [done | done |].
    unfold invoice_conclusive. by rewrite Hsame.
  - intros Hfew h Hh. apply Hfit2; [by rewrite Hinv1 |]. unfold is_held. by rewrite Hsame.
Qed.
End CrashRecovery.

(** * A sweep after a crash

    A payment whose intent was persisted, and a held invoice, each left behind by a
    handler that stopped there. *)

Section Examples.
#[local] Existing Instance list_hex.
#[local] Existing Instance list_hex_laws.
#[local] Existing Instance list_sha.
#[local] Existing Instance list_uuid.
#[local] Existing Instance list_store.
#[local] Existing Instance list_store_laws.
#[local] Existing Instance map_row_order.
#[local] Existing Instance map_row_order_laws.
#[local] Existing Instance plain_tonic.
#[local] Existing Instance plain_errors.
#[local] Existing Instance plain_bolt11.
#[local] Existing Instance payments_repo.
#[local] Existing Instance payments_repo_laws.
#[local] Existing Instance invoices_repo.
#[local] Existing Instance invoices_repo_laws.

(** A sequence number above every one in use. *)
Definition unused (tbl : outbox_table) : Z :=
  (1 + foldr Z.max 0 (map OutboxRow.sequence tbl))%Z.

Lemma unused_fresh tbl : unused tbl ∉ map OutboxRow.sequence tbl.
Proof.
  assert (Hmax : forall z, z ∈ map OutboxRow.sequence tbl ->
    (z <= foldr Z.max 0 (map OutboxRow.sequence tbl))%Z).
  { intros z. induction (map OutboxRow.sequence tbl) as [| x l IH]; simpl.
    - by intros ?%not_elem_of_nil.
    - intros [-> | Hin]%elem_of_cons; [lia |]. specialize (IH Hin). lia. }
  unfold unused. intros Hin%Hmax. lia.
Qed.

(** LND has paid every payment it is asked about, and holds every invoice. *)
Definition paid_and_held : lnd_answers :=
  LndAnswers
    (fun h => Some (Ok (SendPaymentResponse.mk h (Some (preimage_of x01))
                          SendPaymentStatus.Succeeded (MilliSatoshi.new 1000) [] None)))
    (fun h => Ok (InvoiceUpdate.mk h LndInvoiceState.Accepted (MilliSatoshi.new 5000000) None))
    (fun _ => Ok tt).

Definition later : Timestamp.t := Timestamp.new (1000 * nanos_per_sec).

Definition calm_answer (e : ext) : option (ext_resp e) :=
  match e return option (ext_resp e) with
  | Now => Some later
  | LndLookupPayment h => Some (payment_outcome paid_and_held h)
  | LndLookupInvoice h => Some (invoice_outcome paid_and_held h)
  | LndSettleInvoice pre => Some (settle_outcome paid_and_held pre)
  | e => kind_answer e
  end.

Definition calm (db : DbState) : world ext_resp TxEnv :=
  World calm_answer (MkEnv later later (unused (outbox db))) NoFault.

Lemma calm_undisturbed : undisturbed paid_and_held calm.
Proof. constructor; try done. intros db. apply unused_fresh. Qed.

(** A handler persists the intent of a payment and stops. *)
Lemma stranded_reachable :
  exists c, reachable (gateway_handler App.Live) (empty_db, []) c /\
    is_stranded (Timestamp.new (400 * nanos_per_sec)) (hash_of x01) c.1 /\
    (Z.of_nat (size (payments c.1)) <= 1000)%Z /\ (Z.of_nat (size (invoices c.1)) <= 1000)%Z.
Proof.
  destruct (after_reachable 1 7 pay empty_db
    (fun _ db =>
       match find_by_payment_hash Payments.desc (hash_of x01) (payments db),
             payments db !! hash_of x01 with
       | Ok p, Some st =>
           bool_decide (Payment.state p = PaymentState.Initiated) &&
           bool_decide (Timestamp.lt (PaymentRow.created_at (st_row st))
                          (Timestamp.new (400 * nanos_per_sec))) &&
           (Z.of_nat (size (payments db)) <=? 1000)%Z &&
           (Z.of_nat (size (invoices db)) <=? 1000)%Z
       | _, _ => false
       end) (empty_db, []) [])
    as (q & tr & db & Hc & Hr); [apply gh_graphql | apply rtc_refl | by vm_compute |].
  destruct (find_by_payment_hash _ _ _) as [p |] eqn:Hp; [| done].
  destruct (payments db !! hash_of x01) as [st |] eqn:Hst; [| done].
  apply andb_true_iff in Hc as [[[Hs Ht]%andb_true_iff Hps]%andb_true_iff His].
  apply bool_decide_eq_true_1 in Hs, Ht. apply Z.leb_le in Hps, His.
  exists (db, [Thread q tr]). split; [exact Hr |]. split; [by exists p, st | by split].
Qed.

Example orphan_sweep_recovers_witness :
  exists c n db' q,
    reachable (gateway_handler App.Live) (empty_db, []) c /\
    is_stranded (Timestamp.new (400 * nanos_per_sec)) (hash_of x01) c.1 /\
    run calm (sweep_orphan_holds (Some (600 * nanos_per_sec)%Z) 1000) c.1 = Some (Ok n, db') /\
    find_by_payment_hash Payments.desc (hash_of x01) (payments db') = Ok q /\
    Payment.state q = PaymentState.Completed.
Proof.
  destruct stranded_reachable as (c & Hr & Hh & Hps & _).
  destruct (orphan_sweep_recovers paid_and_held calm calm_undisturbed
    (Some (600 * nanos_per_sec)%Z) 1000 c.1 later)
    as (hs & n & db' & _ & Hrun & _ & _ & Hall);
    [exact (gateway_ok App.Live c Hr) | done | reflexivity |].
  destruct (Hall Hps (hash_of x01) Hh eq_refl) as (p & q & t & cmd & Hv & _ & _ & Hq & Hclosed & _).
  injection Hv as <-. destruct Hclosed as (Hcompleted & _).
  exists c, n, db', q. split; [exact Hr |]. split; [exact Hh |]. split; [exact Hrun |].
  split; [exact Hq | exact Hcompleted].
Defined.

Example crash_recovery_witness :
  exists c db2 tr1 tr2 q,
    is_stranded (Timestamp.new (400 * nanos_per_sec)) (hash_of x01) c.1 /\
    reachable (gateway_handler App.Live) (empty_db, [])
      (db2, c.2 ++ [Thread (Ret tt) tr1; Thread (Ret tt) tr2]) /\
    find_by_payment_hash Payments.desc (hash_of x01) (payments db2) = Ok q /\
    Payment.state q = PaymentState.Completed.
Proof.
  destruct stranded_reachable as (c & Hr & Hh & Hps & _).
  destruct (crash_recovery paid_and_held calm calm_undisturbed App.Live c later Hr eq_refl)
    as (hs & held & db1 & db2 & tr1 & tr2 & Hl & _ & _ & _ & Hr2 & Hall & Hfit & _).
  assert (Hin : hash_of x01 ∈ hs) by (apply Hfit; [by right | exact Hh]).
  destruct (Hall (hash_of x01) Hin eq_refl) as (p & q & t & cmd & Hv & _ & _ & Hq & Hclosed & _).
  injection Hv as <-. destruct Hclosed as (Hcompleted & _).
  exists c, db2, tr1, tr2, q. split; [exact Hh |]. split; [exact Hr2 |].
  split; [exact Hq | exact Hcompleted].
Defined.

Example held_sweep_recovers_witness :
  exists c db' i j,
    reachable (gateway_handler App.Live) (empty_db, []) c /\
    find_by_payment_hash Invoices.desc (hash_of x09) (invoices c.1) = Ok i /\
    Invoice.state i = InvoiceState.Held /\
    run calm invoice_reconciliation_run c.1 =
      Some (Ok (RescheduleIn RECONCILIATION_SWEEP_INTERVAL), db') /\
    find_by_payment_hash Invoices.desc (hash_of x09) (invoices db') = Ok j /\
    Invoice.state j = InvoiceState.Settled.
Proof.
  destruct (after_receive 4 accepted
    (fun _ db =>
       match find_by_payment_hash Invoices.desc (hash_of x09) (invoices db) with
       | Ok i => bool_decide (Invoice.state i = InvoiceState.Held) &&
                 bool_decide (Invoice.payment_hash i = hash_of x09)
       | Err _ => false
       end && (Z.of_nat (size (invoices db)) <=? RECONCILIATION_SWEEP_LIMIT)%Z))
    as (th & q & tr & db & Hc & Hr); [apply gh_invoice_update | by vm_compute |].
  apply andb_true_iff in Hc as [Hc Hsize]. apply Z.leb_le in Hsize.
  destruct (find_by_payment_hash _ _ _) as [i |] eqn:Hi; [| done].
  apply andb_true_iff in Hc as [Hs Hh]. apply bool_decide_eq_true_1 in Hs, Hh.
  destruct (held_sweep_recovers paid_and_held calm calm_undisturbed db)
    as (hs & db' & _ & Hrun & _ & Hall); [exact (gateway_ok App.Live (db, [th; Thread q tr]) Hr) |].
  destruct (Hall Hsize (hash_of x09)) as (i' & j & t & c & Hv & Hi' & _ & Hj & Hset & _).
  - by exists i.
  - unfold invoice_conclusive, invoice_verdict. by rewrite Hi.
  - exists (db, [th; Thread q tr]), db', i, j. split; [exact Hr |]. split; [exact Hi |].
    split; [exact Hs |]. split; [exact Hrun |]. split; [exact Hj |]. rewrite Hset.
    unfold invoice_verdict in Hv. cbn in Hv. by injection Hv as <-.
Defined.
End Examples.
