(* ===== verification/Watch.v ===== *)
(** A client watching an invoice: the status stream, the fan-out it is attached to, the
    LISTEN connection and the running gateway, together.  The gateway moves the database
    by any step of its handlers; the connection, the ingest task and the stream move
    between its steps in any order, with any of their reads failing. *)
From S2P Require Import Prelude Primitives Fees EsEntity Concrete GraphqlTypes Jwks.
From S2P Require Import PaymentEntity InvoiceEntity Outbox Listen Fanout.
From S2P Require Import Lnd Symphony Wallet Effects App Grpc StatusStream.
From S2P Require Import AppPayment AppInvoice Mutation Jobs.
From S2P Require Import Ledger Evidence Safety SendSafety InvoiceSafety MutationSafety Gateway.
Import EventPublisher StatusStream.

(** * The scene *)

Section Scene.
Context `{Hex} `{Bolt11} `{EventStore} `{IR : !EsRepo Invoices.desc}.

Record scene : Type := Scene {
  db : DbState;
  conn : ListenConnection.t;
  (** Notified by Postgres, not yet read off the session. *)
  wire : list string;
  (** The channel from the connection task to the ingest task. *)
  queue : list (result Z OutboxError.t);
  fan : OutboxFanout.t;
  (** The client's stream once it has subscribed, and its place in the broadcast. *)
  watching : option stream;
  position : nat
}.

Inductive action : Type :=
(** The gateway's database moves. *)
| World (db' : DbState)
| Connection (i : ListenConnection.input)
(** The ingest task: [fault] is a failed query. *)
| IngestCancelled
| IngestNotified
| IngestClosed
| IngestRow (fault : option SqlxError)
(** The client subscribes, once. *)
| Subscribe (h : PaymentHash.t) (resume : option Z)
(** The streaming task: the steps of its phases, with the reading of the clock, the
    outcome of the query and of the send. *)
| StreamCancelled
| InitialLookup (fault : option SqlxError) (now : Timestamp.t) (d : delivery)
| DerivedLookup (fault : option SqlxError) (now : Timestamp.t) (d : delivery)
| Count (fault : option SqlxError) (d : delivery)
| Page (fault : option SqlxError)
| Row (fault : option SqlxError) (d : delivery)
| Receive (skipped : nat) (fault : option SqlxError) (d : delivery)
| BroadcastClosed.

Definition query {A} (fault : option SqlxError) (r : result A OutboxError.t) :
    result A OutboxError.t :=
  match fault with Some e => Err (OutboxError.Db e) | None => r end.

Definition listens (c : ListenConnection.t) : bool :=
  bool_decide (ListenConnection.at_ c = ListenConnection.Listening).

Definition set_fan (sc : scene) (queue : list (result Z OutboxError.t)) (f : OutboxFanout.t) :
    scene :=
  Scene (db sc) (conn sc) (wire sc) queue f (watching sc) (position sc).

Definition set_stream (sc : scene) (s : stream) (position : nat) : scene :=
  Scene (db sc) (conn sc) (wire sc) (queue sc) (fan sc) (Some s) position.

(** The rows the new database adds are notified to a session that listens. *)
Definition do_world (db' : DbState) (sc : scene) : scene :=
  let new := drop (length (outbox (db sc))) (outbox db') in
  let notified := map (fun r => pretty (OutboxRow.sequence r)) new in
  Scene db' (conn sc) (if listens (conn sc) then wire sc ++ notified else wire sc)
    (queue sc) (fan sc) (watching sc) (position sc).

Definition do_connection (i : ListenConnection.input) (sc : scene) : option scene :=
  let receiver := match OutboxFanout.at_ (fan sc) with OutboxFanout.Stopped => false | _ => true end in
  let step wire :=
    let (c, out) := ListenConnection.connection_step receiver i (conn sc) in
    Some (Scene (db sc) c (if listens c then wire else []) (queue sc ++ out) (fan sc)
            (watching sc) (position sc)) in
  match i with
  | ListenConnection.Notification payload =>
      match wire sc with
      | p :: wire => if String.eqb p payload then step wire else None
      | [] => None
      end
  | _ => step (wire sc)
  end.

Definition do_ingest (a : action) (sc : scene) : option scene :=
  match a, OutboxFanout.at_ (fan sc) with
  | IngestCancelled, OutboxFanout.Waiting =>
      Some (set_fan sc (queue sc) (OutboxFanout.on_cancelled (fan sc)))
  | IngestNotified, OutboxFanout.Waiting =>
      match queue sc with
      | n :: queue => Some (set_fan sc queue (OutboxFanout.on_notification (Some n) (fan sc)))
      | [] => None
      end
  | IngestClosed, OutboxFanout.Waiting =>
      Some (set_fan sc (queue sc) (OutboxFanout.on_notification None (fan sc)))
  | IngestRow fault, OutboxFanout.Reading sequence =>
      Some (set_fan sc (queue sc)
        (OutboxFanout.on_row (query fault (find_by_sequence sequence (outbox (db sc)))) (fan sc)))
  | _, _ => None
  end.

Definition do_stream (a : action) (sc : scene) (s : stream) : option scene :=
  let lookup fault := lookup_invoice fault (payment_hash s) (invoices (db sc)) in
  let ob := outbox (db sc) in
  let stay s := Some (set_stream sc s (position sc)) in
  match a, at_ s with
  | StreamCancelled, Live => stay (goto Finished s)
  | InitialLookup fault now d, Initial => stay (on_initial (lookup fault) now d s)
  | DerivedLookup fault now d, Deriving => stay (on_derived (lookup fault) now d s)
  | Count fault d, Counting live =>
      stay (on_count live (query fault (Ok (count_after (cursor s) ob))) d s)
  | Page fault, Paging live => stay (on_page live (query fault (fetch_after_batch (cursor s) ob)) s)
  | Row fault d, Scanning live (event :: rest) => stay (on_row live event rest (lookup fault) d s)
  | Receive skipped fault d, Live =>
      '(r, next) ← OutboxFanout.receive skipped (fan sc) (position sc);
      Some (set_stream sc (on_recv r (lookup fault) d s) next)
  | BroadcastClosed, Live => stay (on_recv OutboxFanout.Closed None Accepted s)
  | _, _ => None
  end.

Definition do_action (a : action) (sc : scene) : option scene :=
  match a with
  | World db' => Some (do_world db' sc)
  | Connection i => do_connection i sc
  | IngestCancelled | IngestNotified | IngestClosed | IngestRow _ => do_ingest a sc
  | Subscribe h resume =>
      match watching sc with
      | None => Some (set_stream sc (start h resume) (OutboxFanout.subscribe (fan sc)))
      | Some _ => None
      end
  | _ => s ← watching sc; do_stream a sc s
  end.

(** The process has started: nothing is listened to yet, nobody watches. *)
Definition booted (db : DbState) : scene :=
  Scene db ListenConnection.start [] [] OutboxFanout.started None 0.

Fixpoint run (actions : list action) (sc : scene) : option scene :=
  match actions with
  | [] => Some sc
  | a :: actions => sc' ← do_action a sc; run actions sc'
  end.

(** What the client has been told. *)
Definition told (sc : scene) : list payload :=
  match watching sc with Some s => sent s | None => [] end.

(** The fault of the query in an action. *)
Definition fault_of (a : action) : option SqlxError :=
  match a with
  | InitialLookup f _ _ | DerivedLookup f _ _ | Count f _ | Page f | Row f _ | Receive _ f _
  | IngestRow f => f
  | _ => None
  end.
End Scene.

(** * The shape of a stream *)

Section Shape.
Context `{Hex} `{Bolt11} `{EventStore} `{IR : !EsRepo Invoices.desc}.

Definition pending_payload (h : PaymentHash.t) : payload :=
  build_payload InvoicePaymentStatus.Pending h None.

(** What ends a stream: a terminal status, or an error. *)
Definition final_payload (h : PaymentHash.t) (p : payload) : Prop :=
  (exists status invoice, is_terminal status = true /\ p = build_payload status h invoice) \/
  (exists message, p = error_payload message).

(** At most one [PENDING], then at most one final payload, after which the task is over. *)
Definition well_told (s : stream) : Prop :=
  exists pend fin,
    sent s = pend ++ fin /\
    (pend = [] \/ pend = [pending_payload (payment_hash s)]) /\
    match fin with
    | [] =>
        at_ s = Finished \/
        last s = match pend with [] => None | _ => Some InvoicePaymentStatus.Pending end
    | [p] => at_ s = Finished /\ final_payload (payment_hash s) p
    | _ => False
    end.

(** A task that is not over has told nothing, or [PENDING]. *)
Lemma well_told_running s :
  well_told s -> at_ s <> Finished ->
  (sent s = [] /\ last s = None) \/
  (sent s = [pending_payload (payment_hash s)] /\ last s = Some InvoicePaymentStatus.Pending).
Proof.
  intros (pend & fin & Hs & Hp & Hfin) Hrun. rewrite Hs.
  destruct fin as [| p [| q fin]]; [| by destruct Hfin | done].
  destruct Hfin as [| Hlast]; [done |]. rewrite app_nil_r.
  destruct Hp as [-> | ->]; auto.
Qed.

Lemma running_well_told s :
  (sent s = [] /\ last s = None) \/
  (sent s = [pending_payload (payment_hash s)] /\ last s = Some InvoicePaymentStatus.Pending) ->
  well_told s.
Proof.
  intros [[Hs Hl] | [Hs Hl]].
  - exists [], []. split_and!; [done | by left | by right].
  - exists [pending_payload (payment_hash s)], []. split_and!; [done | by right | by right].
Qed.

Lemma finished_well_told s :
  at_ s = Finished ->
  sent s = [] \/ sent s = [pending_payload (payment_hash s)] \/
  (exists p, final_payload (payment_hash s) p /\
     (sent s = [p] \/ sent s = [pending_payload (payment_hash s); p])) ->
  well_told s.
Proof.
  intros Hfin [Hs | [Hs | (p & Hp & [Hs | Hs])]].
  - exists [], []. auto.
  - exists [pending_payload (payment_hash s)], []. auto.
  - exists [], [p]. auto.
  - exists [pending_payload (payment_hash s)], [p]. auto.
Qed.

Lemma goto_well_told p s : well_told s -> at_ s <> Finished -> well_told (goto p s).
Proof. intros Hs Hrun. apply running_well_told. by apply well_told_running in Hs. Qed.

(** Ending a task with one more final payload, or with none. *)
Lemma close_well_told s l c last' :
  well_told s -> at_ s <> Finished ->
  (l = [] \/ exists p, l = [p] /\ final_payload (payment_hash s) p) ->
  well_told (Stream (payment_hash s) Finished c last' (sent s ++ l)).
Proof.
  intros Hs Hrun Hl. apply well_told_running in Hs; [| done].
  apply finished_well_told; [done |]. simpl.
  destruct Hs as [[-> _] | [-> _]], Hl as [-> | (p & -> & Hp)]; simpl; eauto 10.
Qed.

Lemma emit_well_told status invoice d next s :
  well_told s -> at_ s <> Finished -> well_told (emit status invoice d next s).
Proof.
  intros Hs Hrun. pose proof (well_told_running s Hs Hrun) as Hcase.
  unfold emit, emitter_next. case_decide as Hsame; [by apply running_well_told |].
  destruct d.
  - destruct (is_terminal status) eqn:Ht.
    + apply close_well_told; [done | done |]. right. eexists. split; [done |]. left. eauto.
    + destruct status; try done. apply running_well_told. right.
      destruct Hcase as [[Hsent _] | [_ Hl]]; [simpl; by rewrite Hsent | done].
  - pose proof (close_well_told s [] (cursor s) (Some status) Hs Hrun (or_introl eq_refl)) as Hc.
    by rewrite app_nil_r in Hc.
Qed.

Lemma advance_well_told q s : well_told s -> well_told (advance_cursor q s).
Proof. done. Qed.

Lemma emit_for_event_well_told k found d next s :
  well_told s -> at_ s <> Finished -> well_told (emit_for_event k found d next s).
Proof.
  intros Hs Hrun. unfold emit_for_event. destruct (status_from_event k).
  - by apply emit_well_told.
  - by apply goto_well_told.
Qed.

Lemma do_stream_well_told a sc s sc' s' :
  do_stream a sc s = Some sc' -> watching sc' = Some s' -> well_told s -> well_told s'.
Proof.
  intros Hdo Hw Hs.
  assert (Hrun : at_ s <> Finished) by (intros Heq; unfold do_stream in Hdo; rewrite Heq in Hdo; by destruct a).
  unfold do_stream in Hdo.
  destruct a, (at_ s) as [| live | live | live [| e rest] | | |] eqn:Hat; try done;
    try (injection Hdo as <-; simpl in Hw; injection Hw as <-).
  - apply goto_well_told; [done | by rewrite Hat].
  - unfold on_initial. apply emit_well_told; [done | by rewrite Hat].
  - unfold on_derived. destruct (is_terminal _);
      [apply emit_well_told | apply goto_well_told]; rewrite ?Hat; done.
  - unfold on_count. destruct (query _ _) as [n |]; [| apply goto_well_told; rewrite ?Hat; done].
    destruct (_ <? n)%Z; [| apply goto_well_told; rewrite ?Hat; done].
    destruct d.
    + apply close_well_told; [done | by rewrite Hat |]. right. eexists. split; [done |].
      right. by eexists.
    + pose proof (close_well_told s [] (cursor s) (last s) Hs) as Hc. rewrite app_nil_r in Hc.
      apply Hc; [by rewrite Hat | by left].
  - unfold on_page. destruct (query _ _) as [[| e l] |]; apply goto_well_told; rewrite ?Hat; done.
  - unfold on_row. destruct (about _ _);
      [apply emit_for_event_well_told | apply goto_well_told]; simpl; rewrite ?Hat; done.
  - destruct (OutboxFanout.receive _ _ _) as [[r next] |]; simpl in Hdo; [| done].
    injection Hdo as <-. simpl in Hw. injection Hw as <-.
    unfold on_recv. destruct r as [e | n |].
    + destruct (_ <=? _)%Z; [apply goto_well_told; rewrite ?Hat; done |].
      destruct (about _ _); [apply emit_for_event_well_told | apply goto_well_told]; simpl;
        rewrite ?Hat; done.
    + apply goto_well_told; rewrite ?Hat; done.
    + apply goto_well_told; rewrite ?Hat; done.
  - apply goto_well_told; rewrite ?Hat; done.
Qed.

(** Every other action leaves the stream alone. *)
Lemma do_action_stream a sc sc' :
  do_action a sc = Some sc' ->
  (exists s, watching sc = Some s /\ do_stream a sc s = Some sc') \/
  (exists h resume, a = Subscribe h resume /\ watching sc = None /\
     watching sc' = Some (start h resume)) \/
  watching sc' = watching sc.
Proof.
  intros Hdo. destruct a; simpl in Hdo;
    try (destruct (watching sc) as [s |] eqn:Hw; simpl in Hdo; [left; by exists s | done]).
  - injection Hdo as <-. by right; right.
  - right; right. unfold do_connection in Hdo.
    destruct (ListenConnection.connection_step _ _ _) as [c out].
    destruct i; try (injection Hdo as <-; done).
    destruct (wire sc) as [| p w]; [done |]. destruct (String.eqb p payload); [| done].
    by injection Hdo as <-.
  - right; right. destruct (OutboxFanout.at_ (fan sc)); try done. by injection Hdo as <-.
  - right; right. destruct (OutboxFanout.at_ (fan sc)); try done.
    destruct (queue sc); [done |]. by injection Hdo as <-.
  - right; right. destruct (OutboxFanout.at_ (fan sc)); try done. by injection Hdo as <-.
  - right; right. destruct (OutboxFanout.at_ (fan sc)); try done. by injection Hdo as <-.
  - destruct (watching sc) eqn:Hw; [done |]. injection Hdo as <-. right; left. by exists h, resume.
Qed.

(** C25. What a client sees of an invoice, in every run - whatever happens to the database, the
    LISTEN connection, the fan-out and every query: at most one [PENDING], then at most
    one final payload - a terminal status or an error - and nothing after it. *)
Theorem stream_well_told db actions sc s :
  run actions (booted db) = Some sc -> watching sc = Some s -> well_told s.
Proof.
  assert (Hgen : forall actions sc0, run actions sc0 = Some sc ->
    (forall s0, watching sc0 = Some s0 -> well_told s0) ->
    forall s, watching sc = Some s -> well_told s).
  { clear. induction actions as [| a actions IH]; intros sc0; simpl; [by intros [= ->] |].
    destruct (do_action a sc0) as [sc1 |] eqn:Ha; simpl; [| done]. intros Hrun Hs0.
    apply (IH sc1 Hrun). intros s1 Hs1.
    destruct (do_action_stream _ _ _ Ha) as [(s0 & Hw & Hd) | [(h & r & _ & _ & Hw) | Hw]].
    - eapply do_stream_well_told; [exact Hd | done | by apply Hs0].
    - rewrite Hw in Hs1. injection Hs1 as <-. apply running_well_told. by left.
    - apply Hs0. congruence. }
  intros Hrun Hw. by apply (Hgen actions (booted db)).
Qed.
End Shape.
