(* ===== verification/WatchTruth.v ===== *)
(** What a watching client is told is true: the gateway's handlers and the scene of [Watch]
    run together, and every payload that leaves is held against the database it was read
    from - a step of the stream is a read with the send behind it. *)
From S2P Require Import Prelude Primitives Fees EsEntity Concrete GraphqlTypes Jwks.
From S2P Require Import PaymentEntity InvoiceEntity Outbox Listen Fanout.
From S2P Require Import Lnd Symphony Wallet Effects App Grpc StatusStream.
From S2P Require Import AppPayment AppInvoice Mutation Jobs.
From S2P Require Import Ledger Evidence Announced Safety SendSafety InvoiceSafety MutationSafety.
From S2P Require Import Gateway Watch.
Import EventPublisher OutboxTheory StatusStream.

Section Truth.
Context `{HexLaws} `{Sha256} `{UuidText} `{TonicText} `{ErrorText} `{Bolt11} `{EventStoreLaws}.
Context `{PR : !EsRepo Payments.desc} `{PRL : !EsRepoLaws (d := Payments.desc)}.
Context `{IR : !EsRepo Invoices.desc} `{IRL : !EsRepoLaws (d := Invoices.desc)}.
Context `{RowOrder} (mode : Mode).

Notation config := (Effects.config ext_resp TxEnv DbState).
Notation gateway_step := (Effects.step (gateway_handler mode)).
Notation gateway_reaches := (reachable (gateway_handler mode)).

(** The gateway and the scene: a step of a handler, seen by the scene as a move of the
    database, or a step of the scene. *)
Inductive watch_step : config * scene -> config * scene -> Prop :=
| ws_gateway c c' sc :
    gateway_step c c' -> watch_step (c, sc) (c', do_world c'.1 sc)
| ws_scene c a sc sc' :
    (forall db', a <> World db') -> do_action a sc = Some sc' ->
    watch_step (c, sc) (c, sc').

(** Everything started together on an empty database. *)
Definition watch_started : config * scene := ((empty_db, []), booted empty_db).

(** ** Where the events come from *)

Lemma emit_at status invoice d next s :
  at_ (emit status invoice d next s) = next \/ at_ (emit status invoice d next s) = Finished.
Proof.
  unfold emit, emitter_next. case_decide; [by left |]. destruct d; [| by right].
  destruct (is_terminal status); [by right | by left].
Qed.

Lemma emit_for_event_at k found d next s :
  at_ (emit_for_event k found d next s) = next \/
  at_ (emit_for_event k found d next s) = Finished.
Proof. unfold emit_for_event. destruct (status_from_event k); [apply emit_at | by left]. Qed.

Lemma page_in_outbox cursor tbl batch e :
  fetch_after_batch cursor tbl = Ok batch -> e ∈ batch -> e ∈ events_of tbl.
Proof.
  intros Hf Hin. destruct (collect_row _ _ _ Hf Hin) as (r & Hr & He).
  apply list_elem_of_omap. exists r. rewrite He. split; [| done].
  apply elem_of_take in Hr as (i & Hr & _). apply list_elem_of_lookup_2 in Hr.
  by apply rows_after_in in Hr as [? _].
Qed.

Lemma query_ok {A} fault (r : result A OutboxError.t) a :
  query fault r = Ok a -> fault = None /\ r = Ok a.
Proof. by destruct fault. Qed.

(** What a backfill still has to go through was on its page, or comes from a new page. *)
Lemma do_stream_scanning a sc s sc' s' live rest e :
  do_stream a sc s = Some sc' -> watching sc' = Some s' ->
  at_ s' = Scanning live rest -> e ∈ rest ->
  (exists live0 rest0, at_ s = Scanning live0 rest0 /\ e ∈ rest0) \/
  e ∈ events_of (outbox (db sc)).
Proof.
  intros Hdo Hw Hat Hin. unfold do_stream in Hdo.
  destruct a, (at_ s) as [| lv | lv | lv [| e0 rest0] | | |] eqn:Hs; try done;
    try (injection Hdo as <-; simpl in Hw; injection Hw as <-).
  - done.
  - unfold on_initial in Hat. edestruct emit_at as [Heq | Heq]; rewrite Heq in Hat; [| done].
    by destruct (is_terminal _).
  - unfold on_derived in Hat. destruct (is_terminal _); [| done].
    edestruct emit_at as [Heq | Heq]; rewrite Heq in Hat; done.
  - unfold on_count in Hat. destruct (query _ _) as [n |]; [| done].
    by destruct (_ <? n)%Z.
  - unfold on_page in Hat. destruct (query _ _) as [[| e1 l] |] eqn:Hq; simpl in Hat; try done.
    + by destruct lv.
    + injection Hat as <- <-. right. apply query_ok in Hq as [_ Hf]. by eapply page_in_outbox.
  - left. exists lv, (e0 :: rest0). split; [done |]. right.
    unfold on_row in Hat.
    destruct (about _ _); [edestruct emit_for_event_at as [Hn | Hn]; rewrite Hn in Hat; [| done] |
      simpl in Hat].
    all: destruct rest0; [done |]; by injection Hat as <- <-.
  - destruct (OutboxFanout.receive _ _ _) as [[r next] |]; simpl in Hdo; [| done].
    injection Hdo as <-. simpl in Hw. injection Hw as <-. unfold on_recv in Hat.
    destruct r as [ev | n |]; try done. destruct (_ <=? _)%Z; [done |].
    destruct (about _ _); [| done]. edestruct emit_for_event_at as [Heq | Heq];
      rewrite Heq in Hat; done.
  - done.
Qed.

(** ** What a step tells *)

(** The reading of the clock in an action. *)
Definition clock_of (a : action) : option Timestamp.t :=
  match a with InitialLookup _ now _ | DerivedLookup _ now _ => Some now | _ => None end.

Lemma one_more {A} (l : list A) a b : l ++ [a] = l ++ [b] -> a = b.
Proof. by intros [= ->]%app_inv_head. Qed.

Lemma emit_sent status invoice d next s p :
  sent (emit status invoice d next s) = sent s ++ [p] ->
  p = build_payload status (payment_hash s) invoice.
Proof.
  unfold emit, emitter_next. case_decide; simpl; [intros Heq | destruct d; simpl].
  - by rewrite <- (app_nil_r (sent s)) in Heq at 1; apply app_inv_head in Heq.
  - intros Heq. by apply one_more in Heq.
  - intros Heq. by rewrite <- (app_nil_r (sent s)) in Heq at 1; apply app_inv_head in Heq.
Qed.

Lemma emit_for_event_sent k found d next s p :
  sent (emit_for_event k found d next s) = sent s ++ [p] ->
  exists status, status_from_event k = Some status /\
    p = build_payload status (payment_hash s)
          (if decide (status = InvoicePaymentStatus.Paid) then found else None).
Proof.
  unfold emit_for_event. destruct (status_from_event k) as [status |].
  - intros Hp. exists status. split; [done | by eapply emit_sent].
  - simpl. intros Heq. by rewrite <- (app_nil_r (sent s)) in Heq at 1; apply app_inv_head in Heq.
Qed.

(** An event the stream may still meet: on the page it goes through, or broadcast. *)
Definition in_sight (sc : scene) (s : stream) (e : OutboxEvent.t) : Prop :=
  e ∈ OutboxFanout.broadcast (fan sc) \/
  exists live rest, at_ s = Scanning live rest /\ e ∈ rest.

Lemma do_stream_tells a sc s sc' s' p :
  do_stream a sc s = Some sc' -> watching sc' = Some s' -> sent s' = sent s ++ [p] ->
  let found := lookup_invoice (fault_of a) (payment_hash s) (invoices (db sc)) in
  (exists message, p = error_payload message) \/
  (exists now, clock_of a = Some now /\
     p = build_payload (derived_status found now) (payment_hash s) found) \/
  (exists e status, in_sight sc s e /\
     OutboxEvent.reference_id e = PaymentHash.to_hex (payment_hash s) /\
     status_from_event (OutboxEvent.domain_event e) = Some status /\
     p = build_payload status (payment_hash s)
           (if decide (status = InvoicePaymentStatus.Paid) then found else None)).
Proof.
  intros Hdo Hw Hp. unfold do_stream in Hdo.
  assert (Hno : sent s = sent s ++ [p] -> False)
    by (intros Heq; by rewrite <- (app_nil_r (sent s)) in Heq at 1; apply app_inv_head in Heq).
  destruct a, (at_ s) as [| lv | lv | lv [| e0 rest0] | | |] eqn:Hs; try done;
    try (injection Hdo as <-; simpl in Hw; injection Hw as <-); simpl.
  - done.
  - right; left. apply emit_sent in Hp. by exists now.
  - right; left. unfold on_derived in Hp. destruct (is_terminal _); [| done].
    apply emit_sent in Hp. by exists now.
  - left. unfold on_count in Hp. destruct (query _ _) as [n |]; [| done].
    destruct (_ <? n)%Z; [| done]. destruct d; [| done]. apply one_more in Hp. by eexists.
  - unfold on_page in Hp. by destruct (query _ _) as [[|] |].
  - right; right. unfold on_row in Hp. destruct (about _ _) eqn:Ha; [| done].
    apply (emit_for_event_sent _ _ _ _ (advance_cursor _ s)) in Hp as (status & Hst & ->). exists e0, status.
    split_and!; try done; [| by apply String.eqb_eq]. right. exists lv, (e0 :: rest0).
    split; [done | by left].
  - right; right. destruct (OutboxFanout.receive _ _ _) as [[r next] |] eqn:Hr; simpl in Hdo; [| done].
    injection Hdo as <-. simpl in Hw. injection Hw as <-. unfold on_recv in Hp.
    destruct r as [ev | n |]; try done. destruct (_ <=? _)%Z; [done |].
    destruct (about _ _) eqn:Ha; [| done].
    apply (emit_for_event_sent _ _ _ _ (advance_cursor _ s)) in Hp as (status & Hst & ->). exists ev, status.
    split_and!; try done; [| by apply String.eqb_eq]. left.
    by destruct (OutboxFanout.receive_in _ _ _ _ _ Hr).
  - done.
Qed.

(** ** The invariant of the scene *)

Definition from_outbox (sc : scene) : Prop :=
  (forall e, e ∈ OutboxFanout.broadcast (fan sc) -> e ∈ events_of (outbox (db sc))) /\
  (forall s e, watching sc = Some s -> in_sight sc s e -> e ∈ events_of (outbox (db sc))).

Lemma do_stream_rest a sc s sc' :
  do_stream a sc s = Some sc' -> db sc' = db sc /\ fan sc' = fan sc.
Proof.
  unfold do_stream. intros Hdo.
  destruct a, (at_ s) as [| lv | lv | lv [| e0 rest0] | | |]; try done;
    try (by injection Hdo as <-).
  destruct (OutboxFanout.receive _ _ _) as [[r next] |]; simpl in Hdo; [| done].
  by injection Hdo as <-.
Qed.

Lemma row_in_outbox fault sequence tbl e :
  query fault (find_by_sequence sequence tbl) = Ok (Some e) -> e ∈ events_of tbl.
Proof.
  intros [_ (r & Hr & He & _)%find_by_sequence_row]%query_ok.
  apply list_elem_of_omap. exists r. by rewrite He.
Qed.

(** Only the ingest task broadcasts, and only rows of the outbox. *)
Lemma do_ingest_broadcast a sc sc' e :
  do_ingest a sc = Some sc' -> e ∈ OutboxFanout.broadcast (fan sc') ->
  e ∈ OutboxFanout.broadcast (fan sc) \/ e ∈ events_of (outbox (db sc)).
Proof.
  unfold do_ingest. intros Hdo Hin.
  destruct a, (OutboxFanout.at_ (fan sc)); try done; try (injection Hdo as <-; by left).
  - destruct (queue sc) as [| [] q]; [done | ..]; injection Hdo as <-; by left.
  - injection Hdo as <-. apply OutboxFanout.on_row_broadcast in Hin as [? | Hrow]; [by left |].
    right. by eapply row_in_outbox.
Qed.

Lemma do_action_rest a sc sc' :
  (forall db', a <> World db') -> do_action a sc = Some sc' ->
  db sc' = db sc /\
  forall e, e ∈ OutboxFanout.broadcast (fan sc') ->
    e ∈ OutboxFanout.broadcast (fan sc) \/ e ∈ events_of (outbox (db sc)).
Proof.
  intros Ha Hdo.
  assert (Hstream : forall s, do_stream a sc s = Some sc' -> db sc' = db sc /\
            forall e, e ∈ OutboxFanout.broadcast (fan sc') ->
              e ∈ OutboxFanout.broadcast (fan sc) \/ e ∈ events_of (outbox (db sc))).
  { intros s (Hdb & Hfan)%do_stream_rest. rewrite Hfan. by split; [| left]. }
  destruct a; cbn [do_action] in Hdo; try (by destruct (Ha db'));
    try (destruct (watching sc) as [s |]; simpl in Hdo; [by apply (Hstream s) | done]).
  - unfold do_connection in Hdo. destruct (ListenConnection.connection_step _ _ _) as [c out].
    destruct i; try (injection Hdo as <-; by split; [| left]).
    destruct (wire sc) as [| p w]; [done |]. destruct (String.eqb p payload); [| done].
    injection Hdo as <-. by split; [| left].
  - split; [| by intros e; apply do_ingest_broadcast with (a := IngestCancelled)].
    unfold do_ingest in Hdo. destruct (OutboxFanout.at_ (fan sc)); try done. by injection Hdo as <-.
  - split; [| by intros e; apply do_ingest_broadcast with (a := IngestNotified)].
    unfold do_ingest in Hdo. destruct (OutboxFanout.at_ (fan sc)), (queue sc); try done. by injection Hdo as <-.
  - split; [| by intros e; apply do_ingest_broadcast with (a := IngestClosed)].
    unfold do_ingest in Hdo. destruct (OutboxFanout.at_ (fan sc)); try done. by injection Hdo as <-.
  - split; [| by intros e; apply do_ingest_broadcast with (a := IngestRow fault)].
    unfold do_ingest in Hdo. destruct (OutboxFanout.at_ (fan sc)); try done. by injection Hdo as <-.
  - destruct (watching sc); [done |]. injection Hdo as <-. by split; [| left].
Qed.

Lemma do_action_in_sight a sc sc' s' e :
  (forall db', a <> World db') -> do_action a sc = Some sc' -> from_outbox sc ->
  watching sc' = Some s' -> in_sight sc' s' e -> e ∈ events_of (outbox (db sc)).
Proof.
  intros Ha Hdo [Hb Hs] Hw [Hin | (live & rest & Hat & Hin)].
  - destruct (do_action_rest _ _ _ Ha Hdo) as [_ Hrest].
    destruct (Hrest _ Hin) as [Hin' | Hin']; [by apply Hb | done].
  - destruct (do_action_stream _ _ _ Hdo) as [(s & Hws & Hd) | [(h & r & _ & _ & Hws) | Hws]].
    + destruct (do_stream_scanning _ _ _ _ _ _ _ _ Hd Hw Hat Hin) as [(l0 & r0 & Hat0 & Hin0) | ?];
        [| done].
      apply (Hs s); [done |]. right. by exists l0, r0.
    + rewrite Hw in Hws. injection Hws as ->. by destruct r.
    + apply (Hs s'); [congruence |]. right. by exists live, rest.
Qed.

Lemma events_of_prefix l1 l2 e : l1 `prefix_of` l2 -> e ∈ events_of l1 -> e ∈ events_of l2.
Proof. intros [k ->] Hin. rewrite events_of_app. apply elem_of_app. by left. Qed.

(** What holds of the gateway and the scene together, in every reachable state. *)
Definition scene_ok (x : config * scene) : Prop :=
  gateway_reaches (empty_db, []) x.1 /\ db x.2 = x.1.1 /\ from_outbox x.2.

Lemma watch_step_ok x x' : watch_step x x' -> scene_ok x -> scene_ok x'.
Proof.
  intros Hstep (Hr & Hdb & Hfrom). destruct Hstep as [c c' sc Hc | c a sc sc' Ha Hdo]; simpl in *.
  - assert (Hcc : gateway_reaches c c') by by apply rtc_once.
    split; [unfold reachable in *; by etransitivity |]. split; [done |].
    destruct (gateway_future mode c c' Hr Hcc) as (_ & _ & Hpre). rewrite <- Hdb in Hpre.
    destruct Hfrom as [Hb Hs].
    split; simpl; [intros e Hin | intros s e Hw Hin]; eapply events_of_prefix; try done;
      [by apply Hb | by apply (Hs s)].
  - destruct (do_action_rest _ _ _ Ha Hdo) as [Hdb' Hrest].
    split; [done |]. split; simpl; [congruence |]. split.
    + intros e Hin. simpl in Hin. rewrite Hdb'. destruct (Hrest e Hin); [by apply Hfrom | done].
    + intros s' e Hw Hin. simpl in *. rewrite Hdb'. by eapply do_action_in_sight.
Qed.

Lemma watch_reachable_ok x : rtc watch_step watch_started x -> scene_ok x.
Proof.
  intros Hr. cut (scene_ok watch_started).
  - induction Hr as [| x1 x2 x3 H12 _ IH]; [done |]. intros Hx1. apply IH. by eapply watch_step_ok.
  - split; [apply rtc_refl |]. split; [done |].
    split; [intros e []%not_elem_of_nil | by intros].
Qed.

(** ** The truth of a payload *)

(** A payload against the database its step read; [fault_of a] is the failure of the lookup
    in that step, [clock_of a] its reading of the clock. *)
Definition sincere (a : action) (h : PaymentHash.t) (db : DbState) (p : payload) : Prop :=
  match LnInvoicePaymentStatusPayload.status p with
  | None => exists message, p = error_payload message
  | Some InvoicePaymentStatus.Paid =>
      exists i, find_by_payment_hash Invoices.desc h (invoices db) = Ok i /\
        Invoice.state i = InvoiceState.Settled /\
        Preimage.payment_hash (Invoice.payment_preimage i) = h /\
        p = build_payload InvoicePaymentStatus.Paid h
              (match fault_of a with None => Some i | Some _ => None end)
  | Some InvoicePaymentStatus.Pending =>
      p = pending_payload h /\
      exists i, find_by_payment_hash Invoices.desc h (invoices db) = Ok i /\
        (existsb InvoiceEvent.is_HtlcHeld (invoice_events db h) = true \/
         exists now, clock_of a = Some now /\
           Invoice.state i = InvoiceState.Open /\ ~ Timestamp.le (Invoice.expiry_at i) now)
  | Some InvoicePaymentStatus.Expired =>
      p = build_payload InvoicePaymentStatus.Expired h None /\
      (fault_of a = None ->
       match find_by_payment_hash Invoices.desc h (invoices db) with
       | Ok i =>
           Invoice.state i = InvoiceState.Canceled \/
           exists now, clock_of a = Some now /\
             Invoice.state i = InvoiceState.Open /\ Timestamp.le (Invoice.expiry_at i) now
       | Err _ => invoices db !! h = None
       end)
  end.

(** What an event says. *)
Lemma event_sincere a h db e status :
  db_ok db -> e ∈ events_of (outbox db) ->
  OutboxEvent.reference_id e = PaymentHash.to_hex h ->
  status_from_event (OutboxEvent.domain_event e) = Some status ->
  sincere a h db (build_payload status h
    (if decide (status = InvoicePaymentStatus.Paid)
     then lookup_invoice (fault_of a) h (invoices db) else None)).
Proof.
  intros Hok Hin Href Hst. pose proof (event_status_holds db e h status Hok Hin Href Hst) as Hholds.
  pose proof Hok as (_ & _ & Hi & _).
  destruct (found_if_recorded db h Hi) as [i Hfind];
    [intros Hnil; rewrite Hnil in Hholds; by destruct status |].
  pose proof (found_reflects db h Hi) as Href'. rewrite Hfind in Href'.
  destruct Href' as (ph & Hlog & Hs & Hpre). pose proof (log_status _ _ _ Hlog Hholds) as Hph.
  unfold sincere, lookup_invoice.
  destruct status; cbn -[decide find_by_payment_hash] in *.
  - split; [done |]. intros _. rewrite Hfind. left. congruence.
  - rewrite Hfind. destruct (fault_of a); (exists i; split_and!; try done; congruence).
  - split; [done |]. exists i. split; [done | by left].
Qed.

(** What the stored aggregate says. *)
Lemma derived_sincere a h db now :
  db_ok db -> clock_of a = Some now ->
  let found := lookup_invoice (fault_of a) h (invoices db) in
  sincere a h db (build_payload (derived_status found now) h found).
Proof.
  intros (_ & _ & Hi & _) Hnow found. pose proof (found_reflects db h Hi) as Href.
  unfold found, lookup_invoice, derived_status. destruct (fault_of a) eqn:Hf.
  - split; [done |]. congruence.
  - destruct (find_by_payment_hash Invoices.desc h (invoices db)) as [i |] eqn:Hfind.
    + destruct Href as (ph & Hlog & Hs & Hpre).
      assert (Hheld : Invoice.state i = InvoiceState.Held ->
                existsb InvoiceEvent.is_HtlcHeld (invoice_events db h) = true).
      { intros Heq. destruct (invoice_log_marks _ _ Hlog) as [-> _].
        rewrite Heq in Hs. by destruct ph. }
      simpl. unfold sincere.
      destruct (Invoice.state i) eqn:Hstate; [case_decide | ..]; simpl; rewrite Hfind.
      * split; [done |]. intros _. right. by exists now.
      * split; [done |]. exists i. split; [done |]. right. by exists now.
      * split; [done |]. exists i. split; [done |]. left. by apply Hheld.
      * exists i. rewrite Hf. by split_and!.
      * split; [done |]. intros _. by left.
    + split; [done |]. intros _. by rewrite Hfind.
Qed.

(** C13. What a watching client is told agrees with the database it was read from, whatever the
    handlers of the gateway, the LISTEN session, the fan-out and the other queries are doing: [PAID] only
    of a stored, settled invoice, with the preimage of the watched hash and its payment
    request, and no other payload carries either; [PENDING] only of a stored invoice that
    is open and not expired, or was held; [EXPIRED], unless the lookup itself failed, only
    of an invoice that is canceled, open past its expiry or not there. *)
Theorem status_truthful c sc a sc' s p :
  rtc watch_step watch_started (c, sc) ->
  watching sc = Some s -> do_action a sc = Some sc' -> told sc' = told sc ++ [p] ->
  sincere a (payment_hash s) c.1 p.
Proof.
  intros Hr Hw Hdo Htold. apply watch_reachable_ok in Hr as (Hr & Hdb & Hfrom). simpl in *.
  pose proof (gateway_ok mode c Hr) as Hok. rewrite <- Hdb in Hok |- *.
  unfold told in Htold. rewrite Hw in Htold.
  destruct (do_action_stream _ _ _ Hdo) as [(s0 & Hw0 & Hd) | [(h & r & _ & Hw0 & _) | Hw']].
  - rewrite Hw in Hw0. injection Hw0 as <-.
    destruct (watching sc') as [s' |] eqn:Hw'; [| by destruct (sent s)].
    destruct (do_stream_tells _ _ _ _ _ _ Hd Hw' Htold)
      as [(m & ->) | [(now & Hnow & ->) | (e & status & Hin & Href & Hst & ->)]].
    + by exists m.
    + by apply derived_sincere.
    + apply event_sincere with (e := e); try done. by apply (proj2 Hfrom s).
  - congruence.
  - rewrite Hw', Hw in Htold. rewrite <- (app_nil_r (sent s)) in Htold at 1.
    by apply app_inv_head in Htold.
Qed.

(** While no session listens, a run of the gateway is one move of the database. *)
Lemma deaf_run c c' sc :
  db sc = c.1 -> listens (conn sc) = false -> gateway_reaches c c' ->
  rtc watch_step (c, sc) (c', do_world c'.1 sc).
Proof.
  intros Hdb Hdeaf Hr. revert sc Hdb Hdeaf.
  induction Hr as [c | c c1 c' H01 _ IH]; intros sc Hdb Hdeaf.
  - destruct sc as [db co wi qu fa wa po]. simpl in *. unfold do_world. simpl. subst db.
    rewrite Hdeaf. apply rtc_refl.
  - eapply rtc_l; [apply (ws_gateway c c1 sc H01) |].
    assert (Hw : do_world c'.1 sc = do_world c'.1 (do_world c1.1 sc))
      by (unfold do_world; simpl; by rewrite Hdeaf).
    rewrite Hw. by apply IH.
Qed.

(** The scene may be set at any time. *)
Lemma booted_late c : gateway_reaches (empty_db, []) c -> rtc watch_step watch_started (c, booted c.1).
Proof. exact (deaf_run (empty_db, []) c (booted empty_db) eq_refl eq_refl). Qed.

Lemma run_watch c actions sc sc' :
  Forall (fun a => forall db', a <> World db') actions -> run actions sc = Some sc' ->
  rtc watch_step (c, sc) (c, sc').
Proof.
  intros Hno. revert sc. induction Hno as [| a actions Ha _ IH]; intros sc; simpl.
  - intros [= ->]. apply rtc_refl.
  - destruct (do_action a sc) as [sc1 |] eqn:Hdo; [| done]. simpl. intros Hrun.
    eapply rtc_l; [by eapply ws_scene | by apply IH].
Qed.
End Truth.
