(* ===== verification/WatchProgress.v ===== *)
(** A status stream gets to its end: while nothing fails, a stream that has started over a
    decided invoice tells its outcome after a bounded number of its own steps. *)
From S2P Require Import Prelude Primitives Fees EsEntity Concrete GraphqlTypes Jwks.
From S2P Require Import PaymentEntity InvoiceEntity Outbox Listen Fanout.
From S2P Require Import Lnd Symphony Wallet Effects App Grpc StatusStream.
From S2P Require Import Subscription Feed Ledger Evidence Announced Watch WatchTruth.
Import EventPublisher OutboxTheory StatusStream.

Section Progress.
Context `{HexLaws} `{Sha256} `{Bolt11} `{EventStoreLaws}.
Context `{IR : !EsRepo Invoices.desc} `{IRL : !EsRepoLaws (d := Invoices.desc)}.

(** The next step of a task that nothing holds up: every query answers, the client takes
    every payload.  A live stream waits for the broadcast. *)
Definition next_action (now : Timestamp.t) (s : stream) : option action :=
  match at_ s with
  | Initial => Some (InitialLookup None now Accepted)
  | Counting _ => Some (Count None Accepted)
  | Paging _ => Some (Page None)
  | Scanning _ _ => Some (Row None Accepted)
  | Deriving => Some (DerivedLookup None now Accepted)
  | Live | Finished => None
  end.

Fixpoint play (fuel : nat) (now : Timestamp.t) (sc : scene) : option scene :=
  match fuel with
  | 0 => None
  | S fuel =>
      s ← watching sc;
      match next_action now s with
      | None => Some sc
      | Some a => sc' ← do_action a sc; play fuel now sc'
      end
  end.

(** The status of an invoice whose life is over. *)
Definition decided (i : Invoice.t) : option Status :=
  match Invoice.state i with
  | InvoiceState.Settled => Some InvoicePaymentStatus.Paid
  | InvoiceState.Canceled => Some InvoicePaymentStatus.Expired
  | InvoiceState.Open | InvoiceState.Held => None
  end.

(** The rows a backfill has ahead, and the steps it can still take. *)
Definition ahead (tbl : outbox_table) (s : stream) : nat := length (rows_after (cursor s) tbl).

Definition cost (tbl : outbox_table) (s : stream) : nat :=
  match at_ s with
  | Initial | Deriving => 1
  | Counting _ => 2 * ahead tbl s + 3
  | Paging _ => 2 * ahead tbl s + 2
  | Scanning _ _ => 2 * ahead tbl s + 1
  | Live | Finished => 0
  end.

(** A stream on its way to the first look at the aggregate. *)
Definition on_track (tbl : outbox_table) (s : stream) : Prop :=
  well_told s /\
  match at_ s with
  | Initial | Deriving | Paging false => True
  | Counting false => (count_after (cursor s) tbl <= MAX_BACKFILL_EVENTS)%Z
  | Scanning false rest =>
      rest <> [] /\ increasing (cursor s) rest /\ Forall (committed_event tbl) rest
  | _ => False
  end.

Definition concluded (status : Status) (i : Invoice.t) (s : stream) : Prop :=
  at_ s = Finished /\
  exists l, sent s = l ++ [build_payload status (payment_hash s) (Some i)].

Lemma ahead_less tbl c e :
  committed_event tbl e -> (c < OutboxEvent.sequence e)%Z ->
  length (rows_after (OutboxEvent.sequence e) tbl) < length (rows_after c tbl).
Proof.
  intros (r & Hr & He) Hlt. apply event_of_row_sequence in He. rewrite He in *.
  rewrite !rows_after_perm. apply list_elem_of_split in Hr as (l1 & l2 & ->).
  rewrite !List.filter_app, !length_app. simpl.
  destruct (Z.ltb_spec (OutboxRow.sequence r) (OutboxRow.sequence r)); [lia |].
  destruct (Z.ltb_spec c (OutboxRow.sequence r)); [| lia]. simpl.
  assert (Hle : forall l : outbox_table,
    length (List.filter (fun r0 => OutboxRow.sequence r <? OutboxRow.sequence r0)%Z l) <=
    length (List.filter (fun r0 => c <? OutboxRow.sequence r0)%Z l)).
  { induction l as [| r0 l IH]; simpl; [lia |].
    destruct (Z.ltb_spec (OutboxRow.sequence r) (OutboxRow.sequence r0)),
             (Z.ltb_spec c (OutboxRow.sequence r0)); simpl; lia. }
  pose proof (Hle l1). pose proof (Hle l2). lia.
Qed.

Lemma ahead_bound tbl s : ahead tbl s <= length tbl.
Proof. unfold ahead. rewrite rows_after_perm. apply List.filter_length_le. Qed.

(** A running stream has not told a final status, so it is not taken for a repetition. *)
Lemma emit_final status invoice next s :
  well_told s -> at_ s <> Finished -> is_terminal status = true ->
  at_ (emit status invoice Accepted next s) = Finished /\
  sent (emit status invoice Accepted next s) =
    sent s ++ [build_payload status (payment_hash s) invoice].
Proof.
  intros Hs Hrun Ht. pose proof (well_told_running s Hs Hrun) as Hcase.
  unfold emit, emitter_next. case_decide as Heq.
  - exfalso. destruct Hcase as [[_ Hl] | [_ Hl]]; rewrite Hl in Heq; [done |]. by injection Heq as <-.
  - simpl. by rewrite Ht.
Qed.

Lemma emit_hash status invoice d next s :
  payment_hash (emit status invoice d next s) = payment_hash s.
Proof. unfold emit, emitter_next. case_decide; [done |]. by destruct d. Qed.

(** What the aggregate says of a decided invoice. *)
Lemma derived_decided i now status :
  decided i = Some status -> derived_status (Some i) now = status /\ is_terminal status = true.
Proof.
  unfold decided, derived_status. simpl. by destruct (Invoice.state i); intros [= <-].
Qed.

(** A terminal event about a decided invoice tells its status. *)
Lemma event_decided db h i e status status' :
  db_ok db -> find_by_payment_hash Invoices.desc h (invoices db) = Ok i ->
  decided i = Some status -> committed_event (outbox db) e ->
  OutboxEvent.reference_id e = PaymentHash.to_hex h ->
  status_from_event (OutboxEvent.domain_event e) = Some status' ->
  is_terminal status' = true -> status' = status.
Proof.
  intros Hok Hfind Hdec (r & Hr & He) Href Hst Ht.
  assert (Hin : e ∈ events_of (outbox db))
    by (apply list_elem_of_omap; exists r; by rewrite He).
  pose proof (event_status_holds db e h status' Hok Hin Href Hst) as Hholds.
  destruct Hok as (_ & _ & Hi & _). pose proof (found_reflects db h Hi) as Hf. rewrite Hfind in Hf.
  destruct Hf as (ph & Hlog & Hs & _). pose proof (log_status _ _ _ Hlog Hholds) as Hph.
  unfold decided in Hdec. destruct status'; rewrite Hs, ?Hph in Hdec; try done; congruence.
Qed.

(** Going on behind a row of the page. *)
Lemma next_on_track tbl s s' e rest :
  at_ s = Scanning false (e :: rest) -> on_track tbl s ->
  well_told s' -> cursor s' = OutboxEvent.sequence e ->
  at_ s' = match rest with [] => Paging false | _ => Scanning false rest end ->
  on_track tbl s' /\ cost tbl s' < cost tbl s.
Proof.
  intros Hpc [_ Hat] Hwell Hcur Hpc'. rewrite Hpc in Hat. destruct Hat as (_ & Hinc & Hcom).
  apply increasing_cons in Hinc as [Hlt Hinc]. apply Forall_cons in Hcom as [He Hcom].
  pose proof (ahead_less _ _ _ He Hlt) as Hless. unfold on_track, cost, ahead.
  rewrite Hpc, Hpc', Hcur. destruct rest; (split; [by split | lia]).
Qed.

(** A row either tells the outcome or leaves less to do. *)
Lemma on_row_track db s i status e rest :
  db_ok db -> find_by_payment_hash Invoices.desc (payment_hash s) (invoices db) = Ok i ->
  decided i = Some status -> on_track (outbox db) s -> at_ s = Scanning false (e :: rest) ->
  let s' := on_row false e rest (Some i) Accepted s in
  payment_hash s' = payment_hash s /\
  (concluded status i s' \/
   on_track (outbox db) s' /\ cost (outbox db) s' < cost (outbox db) s).
Proof.
  intros Hok Hfind Hdec Htrack Hpc. pose proof Htrack as [Hwell Hat]. rewrite Hpc in Hat.
  destruct Hat as (_ & _ & [He _]%Forall_cons). unfold on_row.
  set (next := match rest with [] => Paging false | _ => Scanning false rest end).
  set (s1 := advance_cursor (OutboxEvent.sequence e) s).
  assert (Hrun : at_ s1 <> Finished) by (simpl; by rewrite Hpc).
  assert (Hw1 : well_told s1) by done.
  assert (Hgoto : on_track (outbox db) (goto next s1) /\
            cost (outbox db) (goto next s1) < cost (outbox db) s)
    by (eapply next_on_track; [done | done | by apply goto_well_told | done | done]).
  destruct (about e s1) eqn:Habout; [| by split; [| right]].
  unfold emit_for_event. destruct (status_from_event _) as [st |] eqn:Hst; [| by split; [| right]].
  split; [exact (emit_hash _ _ _ _ s1) |]. destruct (is_terminal st) eqn:Hterm.
  - left. assert (Hsame : st = status)
      by (eapply event_decided; try done; by apply String.eqb_eq). subst st.
    set (inv := if decide _ then _ else _).
    destruct (emit_final status inv next s1 Hw1 Hrun Hterm) as [Hfin Hsent].
    split; [done |]. exists (sent s). rewrite Hsent, emit_hash. simpl. unfold inv.
    by destruct status.
  - right. destruct st; try done.
    pose proof (emit_well_told InvoicePaymentStatus.Pending None Accepted next s1 Hw1 Hrun) as Hw2.
    eapply next_on_track; try done; unfold emit, emitter_next; by case_decide.
Qed.

(** One step: the outcome, or strictly less to do. *)
Lemma on_track_step sc s i status now :
  db_ok (db sc) -> watching sc = Some s ->
  find_by_payment_hash Invoices.desc (payment_hash s) (invoices (db sc)) = Ok i ->
  decided i = Some status -> on_track (outbox (db sc)) s ->
  exists a s', next_action now s = Some a /\ do_stream a sc s = Some (set_stream sc s' (position sc)) /\
    payment_hash s' = payment_hash s /\
    (concluded status i s' \/
     on_track (outbox (db sc)) s' /\ cost (outbox (db sc)) s' < cost (outbox (db sc)) s).
Proof.
  intros Hok Hw Hfind Hdec [Hwell Hat].
  pose proof (derived_decided i now status Hdec) as [Hder Hterm].
  assert (Hlookup : lookup_invoice None (payment_hash s) (invoices (db sc)) = Some i)
    by (unfold lookup_invoice; by rewrite Hfind).
  unfold next_action. destruct (at_ s) as [| live | live | live rest | | |] eqn:Hpc; try done.
  - eexists _, _. split; [done |]. unfold do_stream. rewrite Hpc, Hlookup. split; [done |].
    unfold on_initial. rewrite Hder.
    destruct (emit_final status (Some i) (if is_terminal status then Finished else Live) s)
      as [Hfin Hsent]; [done | by rewrite Hpc | done |].
    split; [apply emit_hash | left; split; [done | rewrite emit_hash; by eexists]].
  - destruct live; [done |]. eexists _, _. split; [done |]. unfold do_stream. rewrite Hpc.
    split; [done |]. unfold on_count. simpl.
    destruct (Z.ltb_spec MAX_BACKFILL_EVENTS (count_after (cursor s) (outbox (db sc)))); [lia |].
    split; [done |]. right. split; [split; [apply goto_well_told; [done | by rewrite Hpc] | done] |].
    unfold cost. rewrite Hpc. simpl. unfold ahead. simpl. lia.
  - destruct live; [done |]. eexists _, _. split; [done |]. unfold do_stream. rewrite Hpc.
    split; [done |]. destruct Hok as (_ & _ & _ & _ & Hwf).
    destruct (fetch_after_batch (cursor s) (outbox (db sc))) as [page |] eqn:Hpage.
    + destruct (page_increasing _ _ _ Hwf Hpage) as [Hinc Hcom]. simpl.
      destruct page as [| e page]; (split; [done |]); right;
        (split; [split; [apply goto_well_told; [done | by rewrite Hpc] | done] |]);
        unfold cost; rewrite Hpc; simpl; unfold ahead; simpl; lia.
    + exfalso. unfold fetch_after_batch in Hpage. rewrite collect_published in Hpage; [done |].
      apply Forall_forall. intros r (k & Hr & _)%elem_of_take. apply list_elem_of_lookup_2 in Hr.
      apply rows_after_in in Hr as [Hr _]. destruct Hwf as [Hpub _].
      by apply (proj1 (Forall_forall _ _) Hpub).
  - destruct live; [done |]. destruct Hat as (Hne & Hinc & Hcom).
    destruct rest as [| e rest]; [done |]. eexists _, _. split; [done |]. unfold do_stream.
    rewrite Hpc. split; [done |].
    rewrite Hlookup. apply on_row_track; try done. split; [done |]. by rewrite Hpc.
  - eexists _, _. split; [done |]. unfold do_stream. rewrite Hpc, Hlookup. split; [done |].
    unfold on_derived. rewrite Hder, Hterm.
    destruct (emit_final status (Some i) Finished s)
      as [Hfin Hsent]; [done | by rewrite Hpc | done |].
    split; [apply emit_hash | left; split; [done | rewrite emit_hash; by eexists]].
Qed.

Lemma play_concludes n now sc s i status :
  db_ok (db sc) -> watching sc = Some s ->
  find_by_payment_hash Invoices.desc (payment_hash s) (invoices (db sc)) = Ok i ->
  decided i = Some status -> on_track (outbox (db sc)) s -> cost (outbox (db sc)) s < n ->
  exists sc' s', play n now sc = Some sc' /\ db sc' = db sc /\ watching sc' = Some s' /\
    payment_hash s' = payment_hash s /\ concluded status i s'.
Proof.
  revert sc s. induction n as [| n IH]; [lia |]. intros sc s Hok Hw Hfind Hdec Htrack Hcost.
  destruct (on_track_step sc s i status now Hok Hw Hfind Hdec Htrack)
    as (a & s' & Hnext & Hdo & Hhash & Hs').
  assert (Hact : do_action a sc = Some (set_stream sc s' (position sc))).
  { unfold next_action in Hnext. destruct (at_ s); simplify_eq;
      cbn [do_action]; rewrite Hw; exact Hdo. }
  cbn [play]. rewrite Hw. simpl. rewrite Hnext, Hact. simpl. clear Hnext Hdo Hact a.
  destruct Hs' as [Hdone | [Htrack' Hless]].
  - destruct n as [| n]; [exfalso |].
    + destruct Htrack as [_ Hat]. unfold cost in Hcost. destruct (at_ s); try done; lia.
    + exists (set_stream sc s' (position sc)), s'. destruct Hdone as [Hfin Hl]. simpl.
      unfold next_action. by rewrite Hfin.
  - destruct (IH (set_stream sc s' (position sc)) s') as (sc2 & s2 & Hplay & Hdb & Hw2 & Hh2 & Hc);
      simpl; try done; [by rewrite Hhash | lia |].
    exists sc2, s2. split_and!; try done. congruence.
Qed.

(** C21. A stream over a decided invoice ends, and with the decision: started afresh, or resumed
    from a sequence that the backfill bound covers, and with nothing failing, within
    twice as many steps as the outbox has rows, and a few, the task has returned, and the
    last thing it told is the final status of the invoice - with its preimage and request
    when it was paid. *)
Theorem stream_concludes now db h resume i status :
  db_ok db ->
  find_by_payment_hash Invoices.desc h (invoices db) = Ok i -> decided i = Some status ->
  (forall c, resume = Some c -> (count_after c (outbox db) <= MAX_BACKFILL_EVENTS)%Z) ->
  exists sc sc' s' l,
    do_action (Subscribe h resume) (booted db) = Some sc /\
    play (2 * length (outbox db) + 4) now sc = Some sc' /\
    watching sc' = Some s' /\ at_ s' = Finished /\
    told sc' = l ++ [build_payload status h (Some i)].
Proof.
  intros Hok Hfind Hdec Hres.
  destruct (play_concludes (2 * length (outbox db) + 4) now
    (set_stream (booted db) (start h resume) 0) (start h resume) i status)
    as (sc' & s' & Hplay & _ & Hw & Hh & Hfin & l & Hl); try done.
  - split; [apply running_well_told; by left |]. destruct resume as [c |]; [| done].
    simpl. by apply Hres.
  - unfold cost. pose proof (ahead_bound (outbox db) (start h resume)) as Hb.
    destruct resume; simpl in *; lia.
  - exists (set_stream (booted db) (start h resume) 0), sc', s', l. split; [done |].
    split; [done |]. split; [done |]. split; [done |]. unfold told. rewrite Hw, Hl.
    by rewrite Hh.
Qed.
End Progress.
