(* ===== verification/StreamReference.v ===== *)
(** What a resumed stream tells, without pages, cursors and steps: one pass over the events
    after the resume point, then the aggregate.  The streaming task is equivalent to it on
    a database that holds still. *)
From S2P Require Import Prelude Primitives Fees EsEntity Concrete GraphqlTypes Jwks.
From S2P Require Import PaymentEntity InvoiceEntity Outbox Listen Fanout.
From S2P Require Import Lnd Symphony Wallet Effects App Grpc StatusStream.
From S2P Require Import Subscription Feed Ledger Evidence Announced Watch WatchTruth WatchProgress.
From stdpp Require Import sorting.
Import EventPublisher OutboxTheory StatusStream.

Section Reference.
Context `{HexLaws} `{Sha256} `{Bolt11} `{EventStoreLaws}.
Context `{IR : !EsRepo Invoices.desc} `{IRL : !EsRepoLaws (d := Invoices.desc)}.
Context (now : Timestamp.t).

(** The payloads, and whether the stream ends: statuses in the order of the events, none
    twice in a row, up to the first final one; if there is none, the status of the
    aggregate when that is final. *)
Fixpoint reference (invoice : option Invoice.t) (h : PaymentHash.t) (last : option Status)
    (events : list OutboxEvent.t) : list payload * bool :=
  match events with
  | [] =>
      let status := derived_status invoice now in
      if is_terminal status then
        (if decide (last = Some status) then [] else [build_payload status h invoice], true)
      else ([], false)
  | e :: events =>
      if String.eqb (OutboxEvent.reference_id e) (PaymentHash.to_hex h) then
        match status_from_event (OutboxEvent.domain_event e) with
        | None => reference invoice h last events
        | Some status =>
            if decide (last = Some status) then reference invoice h last events
            else
              let p := build_payload status h
                         (if decide (status = InvoicePaymentStatus.Paid) then invoice else None) in
              if is_terminal status then ([p], true)
              else
                let (ps, ended) := reference invoice h (Some status) events in (p :: ps, ended)
        end
      else reference invoice h last events
  end.

Lemma in_order_nodup l : in_order l -> NoDup l.
Proof.
  induction 1 as [| r l Hs IH Hr]; constructor; [| done]. intros Hin.
  pose proof (proj1 (Forall_forall _ _) Hr r Hin). unfold seq_lt in *. lia.
Qed.

(** Distinct keys tell rows apart. *)
Lemma row_by_key tbl r1 r2 :
  NoDup (map OutboxRow.sequence tbl) -> r1 ∈ tbl -> r2 ∈ tbl ->
  OutboxRow.sequence r1 = OutboxRow.sequence r2 -> r1 = r2.
Proof.
  intros Hnd Hr1 Hr2 Heq. induction tbl as [| r0 tbl IH]; [by apply not_elem_of_nil in Hr1 |].
  simpl in Hnd. apply NoDup_cons in Hnd as [Hno Hnd].
  apply elem_of_cons in Hr1 as [-> | Hr1], Hr2 as [-> | Hr2]; try done; [| | by apply IH];
    exfalso; apply Hno; [rewrite Heq | rewrite <- Heq]; by apply list_elem_of_fmap_2.
Qed.

Lemma in_order_sorted l : in_order l -> StronglySorted row_le l.
Proof.
  induction 1 as [| r0 l Hs IH Hr0]; constructor; [done |].
  eapply Forall_impl; [exact Hr0 |]. unfold seq_lt, row_le. lia.
Qed.

(** Behind a row come the rows behind it. *)
Lemma rows_after_next c tbl r rows :
  NoDup (map OutboxRow.sequence tbl) -> rows_after c tbl = r :: rows ->
  rows_after (OutboxRow.sequence r) tbl = rows.
Proof.
  intros Hnd Hrows. pose proof (rows_after_in_order c tbl Hnd) as Ho. rewrite Hrows in Ho.
  pose proof (rows_after_in_order (OutboxRow.sequence r) tbl Hnd) as Ho'.
  assert (Hin : forall x, x ∈ r :: rows -> x ∈ tbl /\ (c < OutboxRow.sequence x)%Z)
    by (intros x Hx; apply rows_after_in; by rewrite Hrows).
  inversion Ho as [| ? ? Hrest Hlt]; subst.
  apply (StronglySorted_unique_strong row_le); [| by apply in_order_sorted.. |].
  - intros r1 r2 [Hr1 _]%rows_after_in Hr2 H12 H21. apply (row_by_key tbl); try done.
    + apply Hin. by right.
    + unfold row_le in *. lia.
  - apply NoDup_Permutation; [by apply in_order_nodup.. |].
    intros x. rewrite rows_after_in. split.
    + intros [Hx Hgt]. assert (Hx' : x ∈ rows_after c tbl).
      { apply rows_after_in. split; [done |]. destruct (Hin r ltac:(by left)). lia. }
      rewrite Hrows in Hx'. apply elem_of_cons in Hx' as [-> | Hx']; [lia | done].
    + intros Hx. split; [apply Hin; by right | by apply (proj1 (Forall_forall _ _) Hlt)].
Qed.

(** ** The task on a database that holds still *)

(** Where the task comes to rest from a scene: having told what the reference tells, and
    over when the reference is. *)
Definition comes_to (sc : scene) (s : stream) (out : list payload * bool) : Prop :=
  exists fuel sc' s', play fuel now sc = Some sc' /\ watching sc' = Some s' /\
    sent s' = sent s ++ out.1 /\ at_ s' = if out.2 then Finished else Live.

Lemma comes_to_step sc s a sc1 s1 out out1 l :
  watching sc = Some s -> next_action now s = Some a -> do_stream a sc s = Some sc1 ->
  watching sc1 = Some s1 -> sent s1 = sent s ++ l -> out = (l ++ out1.1, out1.2) ->
  comes_to sc1 s1 out1 -> comes_to sc s out.
Proof.
  intros Hw Hn Hd Hw1 Hs1 -> (fuel & sc' & s' & Hplay & Hw' & Hsent & Hat).
  exists (S fuel), sc', s'. split_and!; [| done | by rewrite Hsent, Hs1, <- app_assoc | done].
  cbn [play]. rewrite Hw. simpl. rewrite Hn.
  assert (Hdo : do_action a sc = Some sc1).
  { unfold next_action in Hn. destruct (at_ s); simplify_eq; cbn [do_action]; by rewrite Hw. }
  by rewrite Hdo.
Qed.

Lemma at_rest sc s (ended : bool) :
  watching sc = Some s -> at_ s = (if ended then Finished else Live) -> comes_to sc s ([], ended).
Proof.
  intros Hw Hat. exists 1, sc, s. cbn [play]. rewrite Hw. simpl. unfold next_action.
  rewrite app_nil_r. destruct ended; by rewrite Hat.
Qed.

(** Emitting, on the reference's terms. *)
Lemma emit_told status inv next s :
  emit status inv Accepted next s =
  if decide (last s = Some status) then goto next s
  else Stream (payment_hash s) (if is_terminal status then Finished else next) (cursor s)
         (Some status) (sent s ++ [build_payload status (payment_hash s) inv]).
Proof.
  unfold emit, emitter_next. by case_decide.
Qed.

Section Static.
Context (sc0 : scene) (h : PaymentHash.t).
Let tbl := outbox (db sc0).
Let found := lookup_invoice None h (invoices (db sc0)).
Context (Hwf : outbox_wf tbl).

(** The events ahead of a stream. *)
Definition events_ahead (s : stream) : list OutboxEvent.t := events_of (rows_after (cursor s) tbl).

Definition on_course (sc : scene) (s : stream) : Prop :=
  db sc = db sc0 /\ watching sc = Some s /\ payment_hash s = h /\
  match at_ s with
  | Paging false => True
  | Scanning false rest => rest <> [] /\ exists more, events_ahead s = rest ++ more
  | _ => False
  end.

Lemma published_after c : Forall published (rows_after c tbl).
Proof.
  apply Forall_forall. intros r [Hr _]%rows_after_in. destruct Hwf as [Hpub _].
  by apply (proj1 (Forall_forall _ _) Hpub).
Qed.

(** The aggregate ends the pass. *)
Lemma derives sc s :
  db sc = db sc0 -> watching sc = Some s -> payment_hash s = h -> at_ s = Deriving ->
  comes_to sc s (reference found h (last s) []).
Proof.
  intros Hdb Hw Hh Hat. pose (s1 := on_derived found now Accepted s).
  assert (Hd : do_stream (DerivedLookup None now Accepted) sc s =
            Some (set_stream sc s1 (position sc)))
    by (unfold do_stream; rewrite Hat, Hh, Hdb; done).
  assert (Hs1 : s1 = on_derived found now Accepted s) by done. clearbody s1.
  unfold on_derived in Hs1. rewrite emit_told, Hh in Hs1. simpl.
  destruct (is_terminal (derived_status found now)) eqn:Ht.
  - eapply (comes_to_step _ _ (DerivedLookup None now Accepted) _ s1 _ ([], true));
      [done | unfold next_action; by rewrite Hat | exact Hd | done | |
       by rewrite app_nil_r | apply at_rest; [done |]].
    + subst s1. case_decide; simpl; [by rewrite app_nil_r | done].
    + subst s1. by case_decide.
  - eapply (comes_to_step _ _ (DerivedLookup None now Accepted) _ s1 _ ([], false) []);
      [done | unfold next_action; by rewrite Hat | exact Hd | done | | done |
       by apply at_rest; [| subst s1]].
    subst s1. simpl. by rewrite app_nil_r.
Qed.

(** A page. *)
Lemma pages sc s :
  at_ s = Paging false -> on_course sc s ->
  (forall sc1 s1, on_course sc1 s1 -> cursor s1 = cursor s -> last s1 = last s ->
     (exists rest, at_ s1 = Scanning false rest) ->
     comes_to sc1 s1 (reference found h (last s) (events_ahead s))) ->
  comes_to sc s (reference found h (last s) (events_ahead s)).
Proof.
  intros Hat (Hdb & Hw & Hh & _) Hscan. pose proof (published_after (cursor s)) as Hpub.
  assert (Hpage : Forall published
            (take (Z.to_nat BACKFILL_BATCH_SIZE) (rows_after (cursor s) tbl)))
    by by apply Forall_take.
  pose (page := events_of (take (Z.to_nat BACKFILL_BATCH_SIZE) (rows_after (cursor s) tbl))).
  assert (Hfetch : fetch_after_batch (cursor s) (outbox (db sc)) = Ok page)
    by (unfold fetch_after_batch; rewrite Hdb; by apply collect_published).
  assert (Hd : do_stream (Page None) sc s =
            Some (set_stream sc (on_page false (Ok page) s) (position sc)))
    by (unfold do_stream; rewrite Hat; unfold query; by rewrite Hfetch).
  assert (Hsplit : events_ahead s = page ++
            events_of (drop (Z.to_nat BACKFILL_BATCH_SIZE) (rows_after (cursor s) tbl)))
    by (unfold events_ahead, page; by rewrite <- events_of_app, take_drop).
  destruct page as [| e rest] eqn:Hp.
  - assert (Hnil : rows_after (cursor s) tbl = []).
    { apply events_of_nil in Hp; [| done]. destruct (rows_after (cursor s) tbl); [done |].
      by apply (f_equal length) in Hp. }
    unfold events_ahead. rewrite Hnil. simpl events_of.
    eapply (comes_to_step _ _ (Page None) _ (goto Deriving s) _ (reference found h (last s) []) []);
      [done | unfold next_action; by rewrite Hat | exact Hd | done | by rewrite app_nil_r |
       apply surjective_pairing |
       exact (derives (set_stream sc (goto Deriving s) (position sc)) (goto Deriving s)
                Hdb eq_refl Hh eq_refl)].
  - eapply (comes_to_step _ _ (Page None) _ (goto (Scanning false (e :: rest)) s) _
      (reference found h (last s) (events_ahead s)) []);
      [done | unfold next_action; by rewrite Hat | exact Hd | done | by rewrite app_nil_r |
       apply surjective_pairing | apply Hscan; [| done | done | by exists (e :: rest)]].
    split; [done |]. split; [done |]. split; [done |]. simpl. split; [done |]. by eexists.
Qed.

(** A row: the reference takes the same event. *)
Lemma row_step sc s e rest :
  at_ s = Scanning false (e :: rest) -> on_course sc s ->
  (forall sc1 s1, on_course sc1 s1 -> cursor s1 = OutboxEvent.sequence e ->
     comes_to sc1 s1 (reference found h (last s1) (events_ahead s1))) ->
  comes_to sc s (reference found h (last s) (events_ahead s)).
Proof.
  intros Hat (Hdb & Hw & Hh & Hcourse) Hnext. rewrite Hat in Hcourse.
  destruct Hcourse as (_ & more & Hahead).
  destruct (rows_after (cursor s) tbl) as [| r rows] eqn:Hrows;
    [unfold events_ahead in Hahead; by rewrite Hrows in Hahead |].
  assert (Hpub : published r)
    by (apply (proj1 (Forall_forall _ _) (published_after (cursor s))); rewrite Hrows; by left).
  destruct (event_of_row_published _ Hpub) as (e0 & He0).
  assert (Hevents : e0 = e /\ events_of rows = rest ++ more).
  { unfold events_ahead in Hahead. rewrite Hrows, (events_of_cons _ _ _ He0) in Hahead.
    by injection Hahead. }
  destruct Hevents as [-> Hrest].
  assert (Hafter : events_of (rows_after (OutboxEvent.sequence e) tbl) = rest ++ more).
  { rewrite (event_of_row_sequence _ _ He0). destruct Hwf as [_ Hnd].
    by rewrite (rows_after_next _ _ _ _ Hnd Hrows). }
  set (next := match rest with [] => Paging false | _ => Scanning false rest end).
  assert (Hcont : forall s1, payment_hash s1 = h -> cursor s1 = OutboxEvent.sequence e ->
            at_ s1 = next ->
            comes_to (set_stream sc s1 (position sc)) s1
              (reference found h (last s1) (rest ++ more))).
  { intros s1 Hh1 Hc1 Hat1. rewrite <- Hafter, <- Hc1. apply Hnext; [| done].
    split; [done |]. split; [done |]. split; [done |]. rewrite Hat1. unfold next.
    destruct rest; [done |]. split; [done |]. exists more. unfold events_ahead. by rewrite Hc1. }
  pose (s1 := on_row false e rest found Accepted s).
  assert (Hd : do_stream (Row None Accepted) sc s = Some (set_stream sc s1 (position sc)))
    by (unfold do_stream; rewrite Hat, Hh, Hdb; done).
  assert (Hn : next_action now s = Some (Row None Accepted)) by (unfold next_action; by rewrite Hat).
  rewrite Hahead. simpl.
  assert (Hs1 : s1 = on_row false e rest found Accepted s) by done. clearbody s1.
  unfold on_row, about, emit_for_event in Hs1. simpl in Hs1. rewrite Hh in Hs1. fold next in Hs1.
  assert (Hskip : last s1 = last s -> sent s1 = sent s -> payment_hash s1 = h ->
            cursor s1 = OutboxEvent.sequence e -> at_ s1 = next ->
            comes_to sc s (reference found h (last s) (rest ++ more))).
  { intros Hl Hsent Hh1 Hc1 Hat1.
    eapply (comes_to_step _ _ (Row None Accepted) _ s1 _
      (reference found h (last s) (rest ++ more)) []); try done.
    - by rewrite app_nil_r.
    - apply surjective_pairing.
    - rewrite <- Hl. by apply Hcont. }
  destruct (String.eqb _ _); [| by subst s1; apply Hskip].
  destruct (status_from_event _) as [status |]; [| by subst s1; apply Hskip].
  rewrite emit_told in Hs1. simpl in Hs1. rewrite Hh in Hs1.
  destruct (decide (last s = Some status)); [by subst s1; apply Hskip |].
  destruct (is_terminal status).
  - eapply (comes_to_step _ _ (Row None Accepted) _ s1 _ ([], true)); try done.
    + by subst s1.
    + done.
    + apply at_rest; [done | by subst s1].
  - destruct (reference found h (Some status) (rest ++ more)) as [ps ended] eqn:Href.
    eapply (comes_to_step _ _ (Row None Accepted) _ s1 _ (ps, ended)); try done.
    + by subst s1.
    + done.
    + rewrite <- Href. subst s1. by apply Hcont.
Qed.

(** From any place of a resumed backfill. *)
Lemma backfills m sc s :
  length (rows_after (cursor s) tbl) = m -> on_course sc s ->
  comes_to sc s (reference found h (last s) (events_ahead s)).
Proof.
  revert sc s. induction m as [m IH] using lt_wf_ind. intros sc s Hm Hcourse.
  assert (Hscan : forall sc1 s1 rest, on_course sc1 s1 -> cursor s1 = cursor s ->
            at_ s1 = Scanning false rest ->
            comes_to sc1 s1 (reference found h (last s1) (events_ahead s1))).
  { intros sc1 s1 rest Hc1 Hcur Hat1. pose proof Hc1 as (_ & _ & _ & Hp). rewrite Hat1 in Hp.
    destruct Hp as (Hne & more & Hahead). destruct rest as [| e rest]; [done |].
    eapply row_step; [exact Hat1 | done |]. intros sc2 s2 Hc2 Hcur2.
    eapply (IH (length (rows_after (cursor s2) tbl))); [| done | done].
    unfold events_ahead in Hahead. rewrite Hcur in Hahead.
    destruct (rows_after (cursor s) tbl) as [| r rows] eqn:Hrows; [done |].
    assert (Hpub : published r)
      by (apply (proj1 (Forall_forall _ _) (published_after (cursor s))); rewrite Hrows; by left).
    destruct (event_of_row_published _ Hpub) as (e0 & He0).
    rewrite (events_of_cons _ _ _ He0) in Hahead. injection Hahead as -> _.
    rewrite Hcur2, (event_of_row_sequence _ _ He0). destruct Hwf as [_ Hnd].
    rewrite (rows_after_next _ _ _ _ Hnd Hrows). simpl in Hm. lia. }
  pose proof Hcourse as (_ & _ & _ & Hp).
  destruct (at_ s) as [| lv | [] | [] rest | | |] eqn:Hat; try done.
  - apply pages; [done | done |]. intros sc1 s1 Hc1 Hcur Hl (rest & Hat1).
    pose proof (Hscan sc1 s1 rest Hc1 Hcur Hat1) as Hgo. unfold events_ahead in *.
    by rewrite Hl, Hcur in Hgo.
  - by eapply Hscan.
Qed.
End Static.

(** C20. Resuming loses nothing and repeats nothing: on a database that holds still, within the
    backfill bound and with nothing failing, the paged, stepwise stream tells exactly what
    the one-pass reference tells of the events after the resume point, and it is over
    exactly when the reference says so; otherwise it is live. *)
Theorem resumed_stream_reference db h c :
  outbox_wf (outbox db) -> (count_after c (outbox db) <= MAX_BACKFILL_EVENTS)%Z ->
  let out := reference (lookup_invoice None h (invoices db)) h None
               (events_of (rows_after c (outbox db))) in
  exists fuel sc sc' s',
    do_action (Subscribe h (Some c)) (booted db) = Some sc /\
    play fuel now sc = Some sc' /\ watching sc' = Some s' /\
    told sc' = out.1 /\ at_ s' = if out.2 then Finished else Live.
Proof.
  intros Hwf Hcount out.
  set (sc := set_stream (booted db) (start h (Some c)) 0).
  assert (Hgo : comes_to sc (start h (Some c)) out).
  { assert (Hd : do_stream (Count None Accepted) sc (start h (Some c)) =
              Some (set_stream sc (goto (Paging false) (start h (Some c))) 0)).
    { unfold do_stream. simpl. unfold on_count. simpl.
      destruct (Z.ltb_spec MAX_BACKFILL_EVENTS (count_after c (outbox db))); [lia | done]. }
    eapply (comes_to_step _ _ (Count None Accepted) _ (goto (Paging false) (start h (Some c))) _
      out []); [done | done | exact Hd | done | done | apply surjective_pairing |].
    apply (backfills (booted db) h Hwf _ _ (goto (Paging false) (start h (Some c))) eq_refl).
    by split_and!. }
  destruct Hgo as (fuel & sc' & s' & Hplay & Hw & Hsent & Hat).
  exists fuel, sc, sc', s'. split; [done |]. split; [done |]. split; [done |].
  split; [| done]. unfold told. by rewrite Hw, Hsent.
Qed.
End Reference.
