(* ===== verification/Ingest.v ===== *)
(** What the fan-out owes its receivers while its LISTEN session lasts and its task is not
    cancelled: every committed row, once, in commit order - in the broadcast, or still on the
    way to it - but for the rows whose own read has failed, which are lost for good. *)
From S2P Require Import Prelude Primitives Decimal EsEntity Concrete GraphqlTypes.
From S2P Require Import InvoiceEntity Outbox Listen Fanout Lnd App StatusStream Watch.
Import EventPublisher OutboxTheory StatusStream.

Section Ingest.
Context `{Hex} `{Bolt11} `{EventStore} `{IR : !EsRepo Invoices.desc}.

(** Rows that can be notified: published, with distinct keys of the column's type. *)
Definition notifiable (tbl : outbox_table) : Prop :=
  outbox_wf tbl /\ Forall (fun r => is_i64 (OutboxRow.sequence r)) tbl.

(** The steps while the session lasts and the task is not cancelled: the database grows,
    notifications are read, rows are found or their query fails, and the client does
    anything. *)
Inductive steady : action -> scene -> Prop :=
| steady_world sc db' :
    outbox (db sc) `prefix_of` outbox db' -> notifiable (outbox db') -> steady (World db') sc
| steady_notification sc payload : steady (Connection (ListenConnection.Notification payload)) sc
| steady_notified sc : steady IngestNotified sc
| steady_row sc fault : steady (IngestRow fault) sc
| steady_subscribe sc h resume : steady (Subscribe h resume) sc
| steady_stream sc a s sc' : watching sc = Some s -> do_stream a sc s = Some sc' -> steady a sc.

(** The sequence a step loses: the one whose row's query fails. *)
Definition lost_by (a : action) (sc : scene) : list Z :=
  match a, OutboxFanout.at_ (fan sc) with
  | IngestRow (Some _), OutboxFanout.Reading sequence => [sequence]
  | _, _ => []
  end.

(** A run of such steps, with the sequences lost on the way. *)
Inductive session (sc0 : scene) : list Z -> scene -> Prop :=
| session_start : session sc0 [] sc0
| session_step lost sc a sc' :
    session sc0 lost sc -> steady a sc -> do_action a sc = Some sc' ->
    session sc0 (lost ++ lost_by a sc) sc'.

(** The rows that were not lost. *)
Definition kept (lost : list Z) (rows : list OutboxRow.t) : list OutboxRow.t :=
  filter (fun r => OutboxRow.sequence r ∉ lost) rows.

(** The session listens and nothing is on its way. *)
Definition quiet (sc : scene) : Prop :=
  ListenConnection.at_ (conn sc) = ListenConnection.Listening /\
  wire sc = [] /\ queue sc = [] /\ OutboxFanout.at_ (fan sc) = OutboxFanout.Waiting.

(** The rows on their way: the one the ingest task reads, those notified to it, those the
    session has not read yet. *)
Definition in_flight (sc : scene) (todo : list OutboxRow.t) : Prop :=
  exists reading queued notified,
    todo = reading ++ queued ++ notified /\
    match reading with
    | [] => OutboxFanout.at_ (fan sc) = OutboxFanout.Waiting
    | [r] => OutboxFanout.at_ (fan sc) = OutboxFanout.Reading (OutboxRow.sequence r)
    | _ => False
    end /\
    queue sc = map (fun r => Ok (OutboxRow.sequence r)) queued /\
    wire sc = map (fun r => pretty (OutboxRow.sequence r)) notified.

(** From a quiet scene [sc0], everything committed since is dealt with or in flight: the rows
    dealt with are broadcast, but for the lost ones. *)
Definition keeps_up (sc0 : scene) (lost : list Z) (sc : scene) : Prop :=
  notifiable (outbox (db sc)) /\
  ListenConnection.at_ (conn sc) = ListenConnection.Listening /\
  exists handled todo,
    outbox (db sc) = outbox (db sc0) ++ handled ++ todo /\
    OutboxFanout.broadcast (fan sc) =
      OutboxFanout.broadcast (fan sc0) ++ events_of (kept lost handled) /\
    lost `sublist_of` map OutboxRow.sequence handled /\
    in_flight sc todo.

(** ** The rows lost *)

Lemma kept_app lost rows rows' : kept lost (rows ++ rows') = kept lost rows ++ kept lost rows'.
Proof. apply filter_app. Qed.

Lemma kept_nil rows : kept [] rows = rows.
Proof.
  induction rows as [| r rows IH]; [done |]. unfold kept.
  rewrite filter_cons_True by apply not_elem_of_nil. by f_equal.
Qed.

Lemma kept_fresh lost r : OutboxRow.sequence r ∉ lost -> kept lost [r] = [r].
Proof. intros Hr. unfold kept. by rewrite filter_cons_True. Qed.

(** A failed read loses nothing but the row itself. *)
Lemma kept_lose lost rows r :
  OutboxRow.sequence r ∉ map OutboxRow.sequence rows ->
  kept (lost ++ [OutboxRow.sequence r]) (rows ++ [r]) = kept lost rows.
Proof.
  intros Hr. rewrite kept_app. unfold kept at 2.
  rewrite filter_cons_False by (intros Hn; apply Hn, elem_of_app; right; by left).
  rewrite filter_nil, app_nil_r. unfold kept.
  induction rows as [| r0 rows IH]; [done |]. apply not_elem_of_cons in Hr as [Hne Hr].
  rewrite !filter_cons, IH by done.
  assert (Hiff : OutboxRow.sequence r0 ∉ lost ++ [OutboxRow.sequence r] <-> OutboxRow.sequence r0 ∉ lost)
    by (rewrite elem_of_app, list_elem_of_singleton; intuition congruence).
  by repeat case_decide; [| tauto | tauto |].
Qed.

(** The rows before one have other sequences. *)
Lemma fresh_sequence tbl before handled r after :
  outbox_wf tbl -> tbl = before ++ handled ++ r :: after ->
  OutboxRow.sequence r ∉ map OutboxRow.sequence handled.
Proof.
  intros [_ Hnd] ->. rewrite !map_app, map_cons in Hnd.
  apply NoDup_app in Hnd as (_ & _ & Hnd). apply NoDup_app in Hnd as (_ & Hdis & _).
  intros Hin. apply (Hdis _ Hin). by left.
Qed.

(** A row is found under its own sequence. *)
Lemma find_row tbl r :
  outbox_wf tbl -> r ∈ tbl -> exists e, find_by_sequence (OutboxRow.sequence r) tbl = Ok (Some e) /\
    event_of_row r = Ok e.
Proof.
  intros [Hpub Hnd] Hr. pose proof (proj1 (Forall_forall _ _) Hpub r Hr) as [e He]%event_of_row_published.
  exists e. split; [| done]. unfold find_by_sequence.
  assert (Hfind : List.find (fun r0 => OutboxRow.sequence r0 =? OutboxRow.sequence r)%Z tbl = Some r).
  { clear Hpub. induction tbl as [| r0 tbl IH]; [by apply not_elem_of_nil in Hr |]. simpl.
    apply NoDup_cons in Hnd as [Hno Hnd]. destruct (Z.eqb_spec (OutboxRow.sequence r0) (OutboxRow.sequence r)) as [Heq | Hne].
    - apply elem_of_cons in Hr as [-> | Hr]; [done |]. exfalso. apply Hno. rewrite Heq.
      by apply list_elem_of_fmap_2.
    - apply elem_of_cons in Hr as [-> | Hr]; [done | by apply IH]. }
  by rewrite Hfind, He.
Qed.

(** The database grows: the new rows are notified. *)
Lemma world_keeps_up sc0 lost sc db' :
  outbox (db sc) `prefix_of` outbox db' -> notifiable (outbox db') -> keeps_up sc0 lost sc ->
  keeps_up sc0 lost (do_world db' sc).
Proof.
  intros [new Hnew] Hok (_ & Hl & done_ & todo & Hout & Hb & Hlost & (rd & q & w & -> & Hrd & Hq & Hw)).
  split; [done |]. split; [done |]. exists done_, (rd ++ q ++ w ++ new).
  split; [simpl; rewrite Hnew, Hout, ?app_assoc; done |]. split; [done |]. split; [done |].
  exists rd, q, (w ++ new). split; [by rewrite ?app_assoc |]. split; [done |]. split; [done |].
  simpl. unfold listens. rewrite bool_decide_eq_true_2 by done.
  by rewrite Hnew, drop_app_length, map_app, Hw.
Qed.

(** The session reads a notification and passes it on. *)
Lemma notification_keeps_up sc0 lost sc sc' payload :
  do_action (Connection (ListenConnection.Notification payload)) sc = Some sc' ->
  keeps_up sc0 lost sc -> keeps_up sc0 lost sc'.
Proof.
  intros Hdo (Hok & Hl & done_ & todo & Hout & Hb & Hlost & (rd & q & w & -> & Hrd & Hq & Hw)).
  cbn [do_action] in Hdo. unfold do_connection in Hdo. rewrite Hw in Hdo.
  destruct w as [| r w]; simpl in Hdo; [done |].
  destruct (String.eqb_spec (pretty (OutboxRow.sequence r)) payload) as [<- |]; [| done].
  unfold ListenConnection.connection_step in Hdo. rewrite Hl in Hdo.
  assert (Hr : is_i64 (OutboxRow.sequence r)).
  { destruct Hok as [_ Hi]. rewrite Hout, !Forall_app in Hi. destruct Hi as (_ & _ & _ & _ & Hi).
    apply Forall_cons in Hi as [Hr _]. exact Hr. }
  rewrite parse_i64_pretty in Hdo by done.
  assert (Hrecv : match OutboxFanout.at_ (fan sc) with OutboxFanout.Stopped => false | _ => true end = true).
  { destruct rd as [| r0 [|]]; [by rewrite Hrd | by rewrite Hrd | done]. }
  rewrite Hrecv in Hdo. injection Hdo as <-. split; [done |]. split; [done |]. simpl.
  exists done_, (rd ++ (q ++ [r]) ++ w). split; [by rewrite Hout, <- !app_assoc |]. split; [done |].
  split; [done |]. exists rd, (q ++ [r]), w. split; [done |]. split; [done |]. simpl.
  unfold listens. rewrite bool_decide_eq_true_2 by done. by rewrite Hq, map_app.
Qed.

(** The ingest task takes a notification, then reads its row. *)
Lemma notified_keeps_up sc0 lost sc sc' :
  do_ingest IngestNotified sc = Some sc' -> keeps_up sc0 lost sc -> keeps_up sc0 lost sc'.
Proof.
  intros Hdo (Hok & Hl & done_ & todo & Hout & Hb & Hlost & (rd & q & w & -> & Hrd & Hq & Hw)).
  unfold do_ingest in Hdo. destruct (OutboxFanout.at_ (fan sc)) eqn:Hat; try done.
  destruct rd as [| r [|]]; [| done | done]. rewrite Hq in Hdo.
  destruct q as [| r q]; [done |]. injection Hdo as <-. split; [done |]. split; [done |].
  exists done_, ([r] ++ q ++ w). split; [done |]. split; [done |]. split; [done |].
  by exists [r], q, w.
Qed.

Lemma row_keeps_up sc0 lost sc sc' fault :
  do_ingest (IngestRow fault) sc = Some sc' -> keeps_up sc0 lost sc ->
  keeps_up sc0 (lost ++ lost_by (IngestRow fault) sc) sc'.
Proof.
  intros Hdo (Hok & Hl & done_ & todo & Hout & Hb & Hlost & (rd & q & w & -> & Hrd & Hq & Hw)).
  unfold do_ingest in Hdo. unfold lost_by.
  destruct (OutboxFanout.at_ (fan sc)) as [| n |] eqn:Hat; try done.
  destruct rd as [| r [|]]; [done | | done]. injection Hrd as ->.
  destruct (find_row (outbox (db sc)) r) as (e & Hfind & He);
    [apply Hok | rewrite Hout; apply elem_of_app; right; apply elem_of_app; right; by left |].
  assert (Hnew : OutboxRow.sequence r ∉ map OutboxRow.sequence done_)
    by (eapply fresh_sequence; [apply Hok | exact Hout]).
  injection Hdo as <-. split; [done |]. split; [done |]. simpl. rewrite Hfind.
  exists (done_ ++ [r]), (q ++ w). split; [by rewrite Hout, <- !app_assoc |].
  assert (Hflight : in_flight (set_fan sc (queue sc) (OutboxFanout.on_row
      (query fault (Ok (Some e))) (fan sc))) (q ++ w)).
  { exists [], q, w. split_and!; try done. by destruct fault. }
  rewrite map_app. destruct fault as [err |]; simpl.
  - rewrite kept_lose by done. split; [done |]. split; [by apply sublist_app | exact Hflight].
  - rewrite app_nil_r, kept_app, kept_fresh, events_of_app, (events_of_cons _ _ _ He), Hb, <- app_assoc.
    + split; [done |]. split; [by apply sublist_inserts_r | exact Hflight].
    + intros Hin. by eapply Hnew, elem_of_sublist.
Qed.

Lemma stream_keeps_up sc0 lost sc sc' :
  db sc' = db sc -> conn sc' = conn sc -> wire sc' = wire sc -> queue sc' = queue sc ->
  fan sc' = fan sc -> keeps_up sc0 lost sc -> keeps_up sc0 lost sc'.
Proof. unfold keeps_up, in_flight. by intros -> -> -> -> ->. Qed.

Lemma do_stream_frame a sc s sc' :
  do_stream a sc s = Some sc' ->
  lost_by a sc = [] /\
  db sc' = db sc /\ conn sc' = conn sc /\ wire sc' = wire sc /\ queue sc' = queue sc /\
  fan sc' = fan sc.
Proof.
  unfold do_stream. intros Hdo.
  destruct a, (at_ s) as [| lv | lv | lv [| e0 rest0] | | |]; try done;
    try (by injection Hdo as <-).
  destruct (OutboxFanout.receive _ _ _) as [[r next] |]; simpl in Hdo; [| done].
  by injection Hdo as <-.
Qed.

Lemma steady_keeps_up sc0 lost sc a sc' :
  steady a sc -> do_action a sc = Some sc' -> keeps_up sc0 lost sc ->
  keeps_up sc0 (lost ++ lost_by a sc) sc'.
Proof.
  intros Ha Hdo Hk.
  destruct Ha as [sc db' Hpre Hok | sc payload | sc | sc fault | sc h resume | sc a s sc1 Hw Hd].
  - injection Hdo as <-. rewrite app_nil_r. by apply world_keeps_up.
  - rewrite app_nil_r. by eapply notification_keeps_up.
  - rewrite app_nil_r. by eapply notified_keeps_up.
  - by apply row_keeps_up.
  - simpl in Hdo. destruct (watching sc); [done |]. injection Hdo as <-. rewrite app_nil_r.
    by apply (stream_keeps_up _ _ sc).
  - assert (Hdo' : do_action a sc = Some sc1).
    { unfold do_stream in Hd. destruct a; try (by destruct (at_ s));
        cbn [do_action]; rewrite Hw; exact Hd. }
    rewrite Hdo' in Hdo. injection Hdo as <-.
    destruct (do_stream_frame _ _ _ _ Hd) as (-> & ? & ? & ? & ? & ?). rewrite app_nil_r.
    by apply (stream_keeps_up _ _ sc).
Qed.

Lemma session_keeps_up sc0 lost sc :
  notifiable (outbox (db sc0)) -> quiet sc0 -> session sc0 lost sc -> keeps_up sc0 lost sc.
Proof.
  intros Hok (Hl & Hwire & Hq & Hat). induction 1 as [| lost sc a sc' _ IH Ha Hdo].
  - split; [done |]. split; [done |]. exists [], []. rewrite !app_nil_r. split_and!; try done.
    by exists [], [], [].
  - by apply steady_keeps_up.
Qed.

(** ** The way out of the pipeline *)

(** What is still to be moved along the pipeline. *)
Definition work (sc : scene) : nat :=
  3 * length (wire sc) + 2 * length (queue sc) +
  match OutboxFanout.at_ (fan sc) with OutboxFanout.Reading _ => 1 | _ => 0 end.

(** Something in flight can always be moved, and nothing is lost by it. *)
Lemma pipeline_moves sc0 lost sc :
  keeps_up sc0 lost sc -> quiet sc \/
  exists a sc', steady a sc /\ do_action a sc = Some sc' /\ lost_by a sc = [] /\
    db sc' = db sc /\ work sc' < work sc.
Proof.
  intros Hk.
  pose proof Hk as (Hok & Hl & done_ & todo & Hout & _ & _ & (rd & q & w & -> & Hrd & Hq & Hw)).
  destruct rd as [| r [|]]; [| | done].
  - destruct q as [| r q]; [destruct w as [| r w] |].
    + left. by split_and!.
    + right.
      assert (Hr : is_i64 (OutboxRow.sequence r)).
      { destruct Hok as [_ Hi]. rewrite Hout, !Forall_app in Hi. destruct Hi as (_ & _ & _ & _ & Hi).
        apply Forall_cons in Hi as [Hr _]. exact Hr. }
      exists (Connection (ListenConnection.Notification (pretty (OutboxRow.sequence r)))).
      eexists. split; [constructor |]. split.
      * cbn [do_action]. unfold do_connection. rewrite Hw. simpl.
        rewrite String.eqb_refl. unfold ListenConnection.connection_step.
        rewrite Hl, parse_i64_pretty, Hrd by done. reflexivity.
      * split; [done |]. split; [done |]. unfold work. simpl. unfold listens.
        rewrite bool_decide_eq_true_2 by done. rewrite Hrd, Hw, Hq. simpl. lia.
    + right. exists IngestNotified. eexists. split; [constructor |]. split.
      * cbn [do_action]. unfold do_ingest. rewrite Hrd, Hq, map_cons. reflexivity.
      * split; [done |]. split; [done |]. unfold work. simpl. rewrite Hrd, Hq. simpl. lia.
  - right. exists (IngestRow None). eexists. split; [constructor |]. split.
    + cbn [do_action]. unfold do_ingest. rewrite Hrd. reflexivity.
    + split; [done |]. split; [done |]. unfold work. rewrite Hrd. simpl.
      destruct (find_by_sequence _ _) as [[|] |]; simpl; lia.
Qed.

Lemma session_trans sc0 lost sc lost' sc' :
  session sc0 lost sc -> session sc lost' sc' -> session sc0 (lost ++ lost') sc'.
Proof.
  intros Hs. induction 1 as [| lost' sc1 a sc2 _ IH Ha Hdo]; [by rewrite app_nil_r |].
  rewrite app_assoc. exact (session_step sc0 _ _ _ _ IH Ha Hdo).
Qed.

Lemma pipeline_drains sc0 lost sc :
  keeps_up sc0 lost sc ->
  exists sc', session sc [] sc' /\ db sc' = db sc /\ quiet sc' /\ keeps_up sc0 lost sc'.
Proof.
  remember (work sc) as n eqn:Hn. revert sc Hn.
  induction n as [n IH] using lt_wf_ind. intros sc -> Hk.
  destruct (pipeline_moves sc0 lost sc Hk) as [Hq | (a & sc1 & Ha & Hdo & Hnone & Hdb & Hless)].
  - exists sc. split_and!; [constructor | done..].
  - pose proof (session_step sc _ _ _ _ (session_start sc) Ha Hdo) as Hr1.
    pose proof (steady_keeps_up sc0 _ _ _ _ Ha Hdo Hk) as Hk1.
    rewrite Hnone in Hr1, Hk1. rewrite app_nil_r in Hk1.
    destruct (IH (work sc1) Hless sc1 eq_refl Hk1) as (sc2 & Hr2 & Hdb2 & Hq2 & Hk2).
    exists sc2. split_and!; try done; [exact (session_trans _ [] _ [] _ Hr1 Hr2) | congruence].
Qed.

(** C22. While its LISTEN session lasts and its task is not cancelled, the fan-out loses
    exactly the rows whose own read fails: from a quiet moment on, whatever is committed
    (published rows, with distinct keys of their column's type, appended in commit order),
    whichever reads fail and whatever the receivers do, the rows committed since are, in
    commit order, those dealt with followed by those still on their way; the broadcast has
    grown by the events of the rows dealt with but for the lost ones, each once and in commit
    order, and each lost sequence is that of one row dealt with.  From there the pipeline,
    when no more reads fail, comes to rest with every row broadcast that was not lost by
    then; a lost one never is. *)
Theorem fanout_keeps_up sc0 lost sc :
  notifiable (outbox (db sc0)) -> quiet sc0 -> session sc0 lost sc ->
  (exists handled todo,
     outbox (db sc) = outbox (db sc0) ++ handled ++ todo /\
     OutboxFanout.broadcast (fan sc) =
       OutboxFanout.broadcast (fan sc0) ++ events_of (kept lost handled) /\
     lost `sublist_of` map OutboxRow.sequence handled /\
     in_flight sc todo) /\
  exists sc' new, session sc [] sc' /\ db sc' = db sc /\ quiet sc' /\
    outbox (db sc) = outbox (db sc0) ++ new /\
    OutboxFanout.broadcast (fan sc') =
      OutboxFanout.broadcast (fan sc0) ++ events_of (kept lost new).
Proof.
  intros Hok Hq0 Hr. pose proof (session_keeps_up _ _ _ Hok Hq0 Hr) as Hk.
  split; [by destruct Hk as (_ & _ & Hk) |].
  destruct (pipeline_drains sc0 lost sc Hk)
    as (sc' & Hr' & Hdb & Hquiet & (_ & _ & done_ & todo & Hout & Hb & _ & Hfl)).
  exists sc', done_. split_and!; try done.
  destruct Hquiet as (_ & Hw' & Hq' & Hat'), Hfl as (rd & q & w & -> & Hrd & Hqq & Hww).
  rewrite Hw' in Hww. rewrite Hq' in Hqq. rewrite <- Hdb, Hout.
  destruct w; [| done]. destruct q; [| done]. destruct rd as [| r [|]]; [by rewrite !app_nil_r | congruence | done].
Qed.
End Ingest.
