(* ===== verification/WatchRuns.v ===== *)
(** Closed runs of the scene over the concrete instances: the theorems of [Watch],
    [WatchTruth], [WatchProgress] and [Ingest] at a held and settled invoice, and the run in
    which a lost LISTEN session keeps a client waiting. *)
From S2P Require Import Prelude Primitives Fees EsEntity Concrete GraphqlTypes Jwks.
From S2P Require Import PaymentEntity InvoiceEntity Outbox Listen Fanout.
From S2P Require Import Lnd Symphony Wallet Effects App Grpc StatusStream.
From S2P Require Import Subscription Feed Ledger Evidence Announced Safety Gateway.
From S2P Require Import Watch WatchTruth WatchProgress StreamReference Ingest.
Import EventPublisher OutboxTheory StatusStream.

Section Runs.
#[local] Existing Instance list_hex.
#[local] Existing Instance list_hex_laws.
#[local] Existing Instance list_sha.
#[local] Existing Instance list_uuid.
#[local] Existing Instance list_store.
#[local] Existing Instance list_store_laws.
#[local] Existing Instance map_row_order.
#[local] Existing Instance plain_tonic.
#[local] Existing Instance plain_errors.
#[local] Existing Instance plain_bolt11.
#[local] Existing Instance payments_repo.
#[local] Existing Instance payments_repo_laws.
#[local] Existing Instance invoices_repo.
#[local] Existing Instance invoices_repo_laws.

Let watched : PaymentHash.t := hash_of x09.
Let noon : Timestamp.t := Timestamp.new 50.

(** An invoice is created, later its payment is held and settled: a check of the database
    in between and of the one after. *)
Lemma settled_after (check : DbState -> DbState -> bool) :
  after 10 8 receive empty_db (fun _ db1 =>
    after 20 9 accepted db1 (fun _ db2 => check db1 db2)) = true ->
  exists c1 c2, reachable (gateway_handler App.Live) (empty_db, []) c1 /\
    reachable (gateway_handler App.Live) c1 c2 /\ check c1.1 c2.1 = true.
Proof.
  intros Hrun.
  destruct (after_reachable 10 8 receive empty_db _ (empty_db, []) []
              (gh_graphql _ _ _ _) (rtc_refl _ _) Hrun) as (q1 & tr1 & db1 & H2 & Hr1).
  destruct (after_reachable 20 9 accepted db1 (fun _ db2 => check db1 db2)
              (db1, [] ++ [Thread q1 tr1]) _ (gh_invoice_update _) (rtc_refl _ _) H2)
    as (q2 & tr2 & db2 & Hc & Hr2).
  exists (db1, [Thread q1 tr1]), (db2, [Thread q1 tr1; Thread q2 tr2]).
  split; [exact Hr1 |]. split; [exact Hr2 | exact Hc].
Qed.

Definition is_settled (r : result Invoice.t FindError) : bool :=
  match r with Ok i => bool_decide (Invoice.state i = InvoiceState.Settled) | Err _ => false end.

Lemma settled_invoice_reachable :
  exists c i, reachable (gateway_handler App.Live) (empty_db, []) c /\
    find_by_payment_hash Invoices.desc watched (invoices c.1) = Ok i /\
    Invoice.state i = InvoiceState.Settled.
Proof.
  destruct (settled_after (fun _ db2 =>
    is_settled (find_by_payment_hash Invoices.desc watched (invoices db2))))
    as (c1 & c2 & Hr1 & Hr2 & Hc); [by vm_compute |].
  destruct (find_by_payment_hash _ _ _) as [i |] eqn:Hfind; [| done].
  apply bool_decide_eq_true_1 in Hc. exists c2, i. split_and!; try done.
  unfold reachable in *. by etransitivity.
Qed.

Example stream_well_told_witness :
  exists sc s,
    run [Subscribe watched None; InitialLookup None noon Accepted] (booted empty_db) = Some sc /\
    watching sc = Some s /\ sent s <> [] /\ well_told s.
Proof.
  eexists _, _. split; [reflexivity |]. split; [reflexivity |].
  split; [| exact (stream_well_told empty_db
                     [Subscribe watched None; InitialLookup None noon Accepted] _ _ eq_refl eq_refl)].
  by vm_compute.
Defined.

Example status_truthful_witness :
  exists c i p, reachable (gateway_handler App.Live) (empty_db, []) c /\
    find_by_payment_hash Invoices.desc watched (invoices c.1) = Ok i /\
    p = build_payload InvoicePaymentStatus.Paid watched (Some i) /\
    sincere (InitialLookup None noon Accepted) watched c.1 p.
Proof.
  destruct settled_invoice_reachable as (c & i & Hr & Hfind & Hs).
  exists c, i, (build_payload InvoicePaymentStatus.Paid watched (Some i)).
  split; [exact Hr |]. split; [exact Hfind |]. split; [reflexivity |].
  assert (Hsub : run [Subscribe watched None] (booted c.1) =
            Some (set_stream (booted c.1) (start watched None) 0)) by reflexivity.
  refine (status_truthful App.Live c (set_stream (booted c.1) (start watched None) 0)
            (InitialLookup None noon Accepted) _ (start watched None) _ _ eq_refl eq_refl _).
  - etransitivity; [exact (booted_late App.Live c Hr) |].
    eapply run_watch; [| exact Hsub]. repeat constructor. intros db' Heq. discriminate Heq.
  - change (sent (on_initial (lookup_invoice None watched (invoices c.1)) noon Accepted
                    (start watched None)) =
              [build_payload InvoicePaymentStatus.Paid watched (Some i)]).
    unfold lookup_invoice. rewrite Hfind. unfold on_initial, derived_status. simpl.
    by rewrite Hs.
Defined.

Example stream_concludes_witness :
  exists db i sc sc' l,
    find_by_payment_hash Invoices.desc watched (invoices db) = Ok i /\
    play (2 * length (outbox db) + 4) noon sc = Some sc' /\
    told sc' = l ++ [build_payload InvoicePaymentStatus.Paid watched (Some i)].
Proof.
  destruct settled_invoice_reachable as (c & i & Hr & Hfind & Hs).
  destruct (stream_concludes noon c.1 watched None i InvoicePaymentStatus.Paid)
    as (sc & sc' & s' & l & _ & Hplay & _ & _ & Hl).
  - exact (gateway_ok App.Live c Hr).
  - exact Hfind.
  - unfold decided. by rewrite Hs.
  - intros c0 Hc0. discriminate Hc0.
  - exists c.1, i, sc, sc', l. split; [exact Hfind |]. split; [exact Hplay | exact Hl].
Defined.

(** What the reference tells of the settled invoice from the start of the outbox. *)
Definition reference_told (db : DbState) : list payload :=
  (reference noon (lookup_invoice None watched (invoices db)) watched None
     (events_of (rows_after 0 (outbox db)))).1.

Example resumed_stream_reference_witness :
  exists fuel sc sc', play fuel noon sc = Some sc' /\
    map LnInvoicePaymentStatusPayload.status (told sc') =
      [Some InvoicePaymentStatus.Pending; Some InvoicePaymentStatus.Paid].
Proof.
  destruct (settled_after (fun _ db2 =>
      (count_after 0 (outbox db2) <=? 10)%Z &&
      bool_decide (map LnInvoicePaymentStatusPayload.status (reference_told db2) =
        [Some InvoicePaymentStatus.Pending; Some InvoicePaymentStatus.Paid])))
    as (c1 & c2 & Hr1 & Hr2 & Hc); [by vm_compute |].
  apply andb_true_iff in Hc as [Hcount Htold]. apply bool_decide_eq_true_1 in Htold.
  assert (Hr : reachable (gateway_handler App.Live) (empty_db, []) c2)
    by (unfold reachable in *; etransitivity; [exact Hr1 | exact Hr2]).
  destruct (gateway_ok App.Live c2 Hr) as (_ & _ & _ & _ & Hwf).
  destruct (resumed_stream_reference noon c2.1 watched 0 Hwf)
    as (fuel & sc & sc' & s' & _ & Hplay & _ & Ht & _).
  - unfold MAX_BACKFILL_EVENTS. lia.
  - exists fuel, sc, sc'. split; [exact Hplay |]. rewrite Ht. exact Htold.
Defined.

(** A scene whose session listens. *)
Definition listening (db : DbState) : scene :=
  Scene db (ListenConnection.mk ListenConnection.BASE_BACKOFF_MS ListenConnection.Listening) [] []
    OutboxFanout.started None 0.

Definition small_keys (tbl : outbox_table) : bool :=
  forallb (fun r => (0 <=? OutboxRow.sequence r)%Z && (OutboxRow.sequence r <=? 100)%Z) tbl.

Lemma small_keys_i64 tbl :
  small_keys tbl = true -> Forall (fun r => is_i64 (OutboxRow.sequence r)) tbl.
Proof.
  intros Hs. apply Forall_forall. intros r Hr%list_elem_of_In.
  pose proof (proj1 (forallb_forall _ _) Hs r Hr) as Hk. simpl in Hk. unfold_width. lia.
Qed.

(** A run whose actions are allowed at any moment, with what it loses. *)
Fixpoint play_session (actions : list action) (lost : list Z) (sc : scene) :
    option (list Z * scene) :=
  match actions with
  | [] => Some (lost, sc)
  | a :: actions => sc' ← do_action a sc; play_session actions (lost ++ lost_by a sc) sc'
  end.

Lemma play_session_spec sc0 actions lost sc lost' sc' :
  Forall (fun a => forall sc, steady a sc) actions -> session sc0 lost sc ->
  play_session actions lost sc = Some (lost', sc') -> session sc0 lost' sc'.
Proof.
  intros Hall. revert lost sc. induction Hall as [| a actions Ha _ IH]; simpl; intros lost sc Hs.
  - by intros [= <- <-].
  - destruct (do_action a sc) as [sc1 |] eqn:Hdo; simpl; [| done].
    apply IH. exact (session_step sc0 _ _ _ _ Hs (Ha sc) Hdo).
Qed.

(** The first row's notification is taken, and the query of the row fails. *)
Definition first_row_fails (db : DbState) : list action :=
  [Connection (ListenConnection.Notification
     (match outbox db with r :: _ => pretty (OutboxRow.sequence r) | [] => EmptyString end));
   IngestNotified; IngestRow (Some (Sqlx "pool timed out"))].

Definition held_lost (db' : DbState) : bool :=
  match play_session (first_row_fails db') [] (do_world db' (listening empty_db)) with
  | Some (lost, sc) =>
      bool_decide (map OutboxEvent.domain_event (events_of (outbox (db sc))) =
        [GatewayDomainEvent.LightningHtlcHeld; GatewayDomainEvent.LightningInvoiceSettled]) &&
      bool_decide (map OutboxEvent.domain_event (events_of (kept lost (outbox (db sc)))) =
        [GatewayDomainEvent.LightningInvoiceSettled])
  | None => false
  end.

(** With one failed read: the hold is lost, the settlement is broadcast. *)
Example fanout_keeps_up_witness :
  exists lost sc,
    session (listening empty_db) lost sc /\ quiet sc /\
    map OutboxEvent.domain_event (events_of (outbox (db sc))) =
      [GatewayDomainEvent.LightningHtlcHeld; GatewayDomainEvent.LightningInvoiceSettled] /\
    map OutboxEvent.domain_event (OutboxFanout.broadcast (fan sc)) =
      [GatewayDomainEvent.LightningInvoiceSettled].
Proof.
  destruct (settled_after (fun _ db2 => small_keys (outbox db2) && held_lost db2))
    as (c1 & c2 & Hr1 & Hr2 & Hc); [by vm_compute |].
  apply andb_true_iff in Hc as [Hk Hlost].
  assert (Hr : reachable (gateway_handler App.Live) (empty_db, []) c2)
    by (unfold reachable in *; etransitivity; [exact Hr1 | exact Hr2]).
  destruct (gateway_ok App.Live c2 Hr) as (_ & _ & _ & _ & Hwf).
  unfold held_lost in Hlost.
  destruct (play_session _ _ _) as [[lost sc] |] eqn:Hplay; [| done].
  apply andb_true_iff in Hlost as [Hall%bool_decide_eq_true_1 Hkept%bool_decide_eq_true_1].
  assert (Hs : session (listening empty_db) lost sc).
  { eapply play_session_spec; [| | exact Hplay]; [repeat constructor |].
    apply (session_step (listening empty_db) [] (listening empty_db) (World c2.1));
      [constructor | | reflexivity].
    constructor; [apply prefix_nil |]. split; [exact Hwf | by apply small_keys_i64]. }
  destruct (fanout_keeps_up (listening empty_db) lost sc)
    as (_ & sc' & new & Hrun & Hdb & Hq & Hout & Hb);
    [split; [apply empty_db_ok | constructor] | by split_and! | exact Hs |].
  exists lost, sc'. simpl in Hout, Hb. rewrite Hdb, Hb, <- Hout.
  split; [pose proof (session_trans _ _ _ _ _ Hs Hrun) as Hrun'; by rewrite app_nil_r in Hrun' |].
  done.
Defined.

(** ** A lost session *)

(** The client subscribes, and then the session drops. *)
Let before : list action :=
  [Connection ListenConnection.Connected; Connection ListenConnection.ListenRegistered;
   Subscribe watched None; InitialLookup None (Timestamp.new 6) Accepted;
   Connection ListenConnection.NotificationsClosed].

(** The loss is logged, and the session comes back. *)
Let afterwards : list action :=
  [IngestNotified; Connection ListenConnection.Slept; Connection ListenConnection.Connected;
   Connection ListenConnection.ListenRegistered].

Definition waits_in_vain (sc : scene) : bool :=
  listens (conn sc) && bool_decide (wire sc = []) &&
  match queue sc, OutboxFanout.at_ (fan sc), OutboxFanout.broadcast (fan sc) with
  | [], OutboxFanout.Waiting, [] => true
  | _, _, _ => false
  end &&
  match watching sc with
  | Some s =>
      match at_ s, map LnInvoicePaymentStatusPayload.status (sent s) with
      | Live, [Some InvoicePaymentStatus.Pending] => true
      | _, _ => false
      end
  | None => false
  end && bool_decide (position sc = 0).

Definition gap_check (db1 db2 : DbState) : bool :=
  match run before (booted db1) with
  | Some sc =>
      negb (listens (conn sc)) &&
      match run afterwards (do_world db2 sc) with
      | Some sc => waits_in_vain sc
      | None => false
      end
  | None => false
  end && is_settled (find_by_payment_hash Invoices.desc watched (invoices db2)) &&
  bool_decide (map OutboxEvent.domain_event (events_of (outbox db2)) =
    [GatewayDomainEvent.LightningHtlcHeld; GatewayDomainEvent.LightningInvoiceSettled]).

Lemma waits_in_vain_spec sc :
  waits_in_vain sc = true ->
  quiet sc /\ OutboxFanout.broadcast (fan sc) = [] /\ position sc = 0 /\
  exists s, watching sc = Some s /\ at_ s = Live /\
    map LnInvoicePaymentStatusPayload.status (sent s) = [Some InvoicePaymentStatus.Pending].
Proof.
  unfold waits_in_vain. rewrite !andb_true_iff.
  intros ((((Hl & Hw) & Hf) & Hs) & Hp). apply bool_decide_eq_true_1 in Hl, Hw, Hp.
  destruct (queue sc) eqn:Hq, (OutboxFanout.at_ (fan sc)) eqn:Hat,
    (OutboxFanout.broadcast (fan sc)) eqn:Hb; try done.
  split; [by split_and! |]. split; [done |]. split; [done |].
  destruct (watching sc) as [s |]; [| done]. exists s. split; [done |].
  destruct (at_ s), (map _ _) as [| [[] |] []]; done.
Qed.

(** A lost LISTEN session leaves no trace at the clients: there is a run of the gateway in
    which an invoice is settled and its event committed while the session is being
    re-established; afterwards the session listens again, nothing is on its way any more,
    the outbox holds the event, and the stream that watches the invoice is still live, has
    told only [PENDING], and is neither given an event nor told that it lags. *)
Theorem listen_gap_unnoticed :
  exists c sc s i,
    rtc (watch_step App.Live) watch_started (c, sc) /\ quiet sc /\
    find_by_payment_hash Invoices.desc watched (invoices c.1) = Ok i /\
    Invoice.state i = InvoiceState.Settled /\
    GatewayDomainEvent.LightningInvoiceSettled
      ∈ map OutboxEvent.domain_event (events_of (outbox c.1)) /\
    watching sc = Some s /\ at_ s = Live /\
    map LnInvoicePaymentStatusPayload.status (told sc) = [Some InvoicePaymentStatus.Pending] /\
    forall skipped fault d, do_action (Receive skipped fault d) sc = None.
Proof.
  destruct (settled_after gap_check) as (c1 & c2 & Hr1 & Hr2 & Hc); [by vm_compute |].
  unfold gap_check in Hc. apply andb_true_iff in Hc as [[Hc Hs]%andb_true_iff He].
  apply bool_decide_eq_true_1 in He.
  destruct (run before (booted c1.1)) as [sc1 |] eqn:Hrun1; [| done].
  apply andb_true_iff in Hc as [Hdeaf%negb_true_iff Hc].
  destruct (run afterwards (do_world c2.1 sc1)) as [sc |] eqn:Hrun2; [| done].
  destruct (waits_in_vain_spec _ Hc) as (Hq & Hb & Hp & s & Hw & Hlive & Htold).
  destruct (find_by_payment_hash Invoices.desc watched (invoices c2.1)) as [i |] eqn:Hfind; [| done].
  apply bool_decide_eq_true_1 in Hs. exists c2, sc, s, i. split_and!; try done.
  - etransitivity; [exact (booted_late App.Live c1 Hr1) |].
    etransitivity; [eapply run_watch; [| exact Hrun1]; repeat constructor; discriminate |].
    etransitivity; [apply (deaf_run App.Live c1 c2 sc1); [| exact Hdeaf | exact Hr2] |].
    + by injection Hrun1 as <-.
    + eapply run_watch; [| exact Hrun2]. repeat constructor; discriminate.
  - rewrite He. right. left.
  - unfold told. by rewrite Hw.
  - intros skipped fault d. cbn [do_action]. rewrite Hw. simpl. unfold do_stream. rewrite Hlive.
    unfold OutboxFanout.receive. rewrite Hb, Hp. by destruct skipped.
Qed.
End Runs.
