(* ===== verification/Boot.v ===== *)
(** Start-up (src/src/cli.rs, cli/config.rs, cli/db.rs, server/config.rs, lnd/config.rs,
    tracing.rs, health.rs): the configuration with its defaults, what [run] refuses, what
    [run_cmd] sets up before its tasks, and the readiness probe.  The file system, the
    YAML parser, the database, LND, the gRPC channel and the job crate are the record
    [boot_ops] of what they answer. *)
From Stdlib Require Import Ascii.
From S2P Require Import Prelude Primitives EsEntity Outbox Listen Fanout Lnd LndClient Symphony Wallet.
From S2P Require Import Effects App Adapters.

(** * Blank strings

    [str::trim] on UTF-8: the encodings of Unicode's [White_Space] are stripped from both
    ends. *)
Module Str.
Definition code (c : ascii) : nat := nat_of_ascii c.

Definition is_space (l : list nat) : bool :=
  match l with
  | [c] => (9 <=? c) && (c <=? 13) || (c =? 32)
  | [194; c] => (c =? 133) || (c =? 160)
  | [225; 154; 128] => true
  | [226; 128; c] => (128 <=? c) && (c <=? 138) || (c =? 168) || (c =? 169) || (c =? 175)
  | [226; 129; 159] => true
  | [227; 128; 128] => true
  | _ => false
  end.

(** The bytes of a leading white space, on a text read forwards or backwards. *)
Definition space_len (backwards : bool) (l : list ascii) : nat :=
  let word k := map code (if backwards then rev (take k l) else take k l) in
  if is_space (word 1) then 1 else if is_space (word 2) then 2
  else if is_space (word 3) then 3 else 0.

Fixpoint strip (fuel : nat) (backwards : bool) (l : list ascii) : list ascii :=
  match fuel with
  | 0 => l
  | S fuel =>
      match space_len backwards l with
      | 0 => l
      | n => strip fuel backwards (drop n l)
      end
  end.

Definition trim (s : string) : string :=
  let l := String.list_ascii_of_string s in
  let l := strip (length l) false l in
  String.string_of_list_ascii (rev (strip (length l) true (rev l))).

Example trim_spec :
  trim "" = "" /\ trim "  " = "" /\ trim " a b	" = "a b" /\
  trim (String.string_of_list_ascii (map ascii_of_nat [226; 128; 138; 97; 194; 160])) = "a".
Proof. vm_compute. by split_and!. Qed.
End Str.

Definition blank (s : string) : bool := String.eqb (Str.trim s) "".

(** * Configuration *)

Module DbConfig.
Record t : Type := mk { pg_con : string; pool_size : Z }.
Definition default_pool_size : Z := 20.
Definition default : t := mk "" default_pool_size.
End DbConfig.

Module SubgraphServerConfig.
Record t : Type := mk { port : Z; jwks_url : string; pg_config : string }.
Definition default_graphql_port : Z := 6691.
Definition default_jwks_url : string := "http://localhost:4456/.well-known/jwks.json".
Definition default : t := mk default_graphql_port default_jwks_url "".
End SubgraphServerConfig.

Module GrpcServerConfig.
Record t : Type := mk {
  port : Z;
  pg_config : string;
  keepalive_interval_secs : Z;
  keepalive_timeout_secs : Z;
  shutdown_grace_secs : Z
}.
Definition default_grpc_port : Z := 6690.
Definition default_keepalive_interval_secs : Z := 30.
Definition default_keepalive_timeout_secs : Z := 10.
Definition default_shutdown_grace_secs : Z := 5.
Definition default : t :=
  mk default_grpc_port "" default_keepalive_interval_secs default_keepalive_timeout_secs
    default_shutdown_grace_secs.
End GrpcServerConfig.

Module HealthServerConfig.
Record t : Type := mk { port : Z }.
Definition default_health_port : Z := 8080.
Definition default : t := mk default_health_port.
End HealthServerConfig.

Module WalletOwnershipConfig.
Record t : Type := mk { router_endpoint : string; cache_secs : Z }.
Definition default : t := mk "" default_cache_secs.
End WalletOwnershipConfig.

Module TracingConfig.
Record t : Type := mk { exporter_otlp_url : string; service_name : string }.
Definition default : t := mk "http://localhost:4317" "blink-lightning-gateway-dev".
End TracingConfig.

Module Config.
Record t : Type := mk {
  db : DbConfig.t;
  subgraph_server : SubgraphServerConfig.t;
  grpc_server : GrpcServerConfig.t;
  health_server : HealthServerConfig.t;
  (** [SymphonyConfig]: its one field, the gRPC endpoint. *)
  symphony : string;
  wallet_ownership : WalletOwnershipConfig.t;
  lnd : option LndConfig.t;
  tracing : option TracingConfig.t
}.
Definition default : t :=
  mk DbConfig.default SubgraphServerConfig.default GrpcServerConfig.default
    HealthServerConfig.default "" WalletOwnershipConfig.default None None.

Definition set_pg_con (pg_con : string) (c : t) : t :=
  mk (DbConfig.mk pg_con (DbConfig.pool_size (db c))) (subgraph_server c) (grpc_server c)
    (health_server c) (symphony c) (wallet_ownership c) (lnd c) (tracing c).
End Config.

(** * Start-up *)

Inductive sweep : Type :=
| InvoiceSubscriptionRecoverySweep
| InvoiceReconciliationSweep
| OrphanHoldSweep.
#[export] Instance sweep_eq_dec : EqDecision sweep.
Proof. solve_decision. Defined.

(** What the systems behind the start-up answer; [Channel] is LND's. *)
Record boot_ops {Channel : Type} : Type := {
  read_to_string : string -> result string string;
  from_yaml : string -> result Config.t string;
  try_init_subscriber : result unit string;
  pg_connect : Z -> string -> result unit string;
  apply_migrations : string -> result unit string;
  tonic_connect : string -> string -> string -> result Channel string;
  from_shared : string -> result unit string;
  http_client_builds : bool;
  jobs_init : result unit string;
  start_poll : result unit string;
  spawn_unique : sweep -> result unit string
}.
Arguments boot_ops : clear implicits.

Inductive BootError : Type :=
| PgConMissing
| ConfigUnreadable (cause : string)
| ConfigUnparsable (cause : string)
| TracingFailed (cause : string)
| MigrationsFailed (cause : string)
| PoolFailed (cause : string)
| LndUnreachable (address : string) (cause : LndError.t)
| SymphonyInvalid (message : string)
| SymphonyUnreachable (cause : SymphonyError.t)
| JobsFailed (cause : string)
| SweepNotSpawned (job : sweep) (cause : string).

Record cli : Type := Cli { config_path : string; cli_pg_con : string; migrate : bool }.

(** The gateway just before its tasks are spawned. *)
Record booted {Channel : Type} : Type := Booted {
  lnd_client : LndClient.t Channel;
  symphony_endpoint : string;
  app : AppHandles Channel;
  sweeps : list sweep;
  grpc_config : GrpcServerConfig.t;
  graphql_config : SubgraphServerConfig.t;
  health_port : Z;
  shutdown_grace : Z
}.

Arguments booted : clear implicits.

Inductive outcome {Channel : Type} : Type := Migrated | Serving (b : booted Channel).
Arguments outcome : clear implicits.

Section Boot.
Context {Channel : Type} (ops : boot_ops Channel).

(** [Config::from_path]: an empty file is the default, and the connection string always
    comes from the environment. *)
Definition from_path (path pg_con : string) : result Config.t BootError :=
  let? body := map_err ConfigUnreadable (read_to_string ops path) in
  let? config :=
    if blank body then Ok Config.default else map_err ConfigUnparsable (from_yaml ops body) in
  Ok (Config.set_pg_con pg_con config).

(** [init_tracer] falls back to the plain subscriber. *)
Definition init_tracing (tracing : option TracingConfig.t) : result unit BootError :=
  map_err TracingFailed (try_init_subscriber ops).

Definition connect_lnd (lnd : option LndConfig.t) : result (LndClient.t Channel) BootError :=
  match lnd with
  | Some lnd_cfg =>
      map_err (LndUnreachable (LndConfig.address lnd_cfg))
        (LndClient.connect (tonic_connect ops) lnd_cfg)
  | None => Ok (LndClient.boot_stub LndConfig.stub)
  end.

(** The scheduled jobs are only registered with a connected LND. *)
Definition registered_sweeps (lnd_client : LndClient.t Channel) : list sweep :=
  if LndClient.is_connected lnd_client then
    [InvoiceSubscriptionRecoverySweep; InvoiceReconciliationSweep; OrphanHoldSweep]
  else [].

Fixpoint spawn_sweeps (l : list sweep) : result unit BootError :=
  match l with
  | [] => Ok tt
  | job :: l => let? _ := map_err (SweepNotSpawned job) (spawn_unique ops job) in spawn_sweeps l
  end.

(** The servers get the connection string of the environment. *)
Definition grpc_server_config (config : Config.t) : GrpcServerConfig.t :=
  let g := Config.grpc_server config in
  GrpcServerConfig.mk (GrpcServerConfig.port g) (DbConfig.pg_con (Config.db config))
    (GrpcServerConfig.keepalive_interval_secs g) (GrpcServerConfig.keepalive_timeout_secs g)
    (GrpcServerConfig.shutdown_grace_secs g).

Definition graphql_server_config (config : Config.t) : SubgraphServerConfig.t :=
  let g := Config.subgraph_server config in
  SubgraphServerConfig.mk (SubgraphServerConfig.port g) (SubgraphServerConfig.jwks_url g)
    (DbConfig.pg_con (Config.db config)).

(** [run_cmd] up to its first task. *)
(** cli/db.rs: at most so many connections to the configured database, migrated. *)
Definition migrated_pool (max_connections : Z) (config : DbConfig.t) : result unit string :=
  let? _ := pg_connect ops max_connections (DbConfig.pg_con config) in
  apply_migrations ops (DbConfig.pg_con config).

Definition run_migrations : DbConfig.t -> result unit string := migrated_pool 1.
Definition init_pool (config : DbConfig.t) : result unit string :=
  migrated_pool (DbConfig.pool_size config) config.

Definition migrate_cmd (config : Config.t) : result unit BootError :=
  map_err MigrationsFailed (run_migrations (Config.db config)).

Definition boot (config : Config.t) : result (booted Channel) BootError :=
  let? _ := map_err PoolFailed (init_pool (Config.db config)) in
  let? lnd_client := connect_lnd (Config.lnd config) in
  let endpoint := Config.symphony config in
  let? _ := map_err SymphonyInvalid (SymphonyConfig_validate Str.trim endpoint) in
  let? symphony := map_err SymphonyUnreachable (connect_lazy (from_shared ops) endpoint) in
  let wallets := Config.wallet_ownership config in
  let ownership := checker_mode Str.trim (http_client_builds ops)
                     (WalletOwnershipConfig.router_endpoint wallets) in
  let app := Handles.new lnd_client symphony ownership
               (from_secs (WalletOwnershipConfig.cache_secs wallets)) in
  let? _ := map_err JobsFailed (jobs_init ops) in
  let? _ := map_err JobsFailed (start_poll ops) in
  let? _ := spawn_sweeps (registered_sweeps lnd_client) in
  Ok {| lnd_client := lnd_client;
        symphony_endpoint := endpoint;
        app := app;
        sweeps := registered_sweeps lnd_client;
        grpc_config := grpc_server_config config;
        graphql_config := graphql_server_config config;
        health_port := HealthServerConfig.port (Config.health_server config);
        shutdown_grace :=
          GrpcServerConfig.shutdown_grace_secs (Config.grpc_server config) |}.

Definition run (args : cli) : result (outcome Channel) BootError :=
  if blank (cli_pg_con args) then Err PgConMissing
  else
    let? config := from_path (config_path args) (cli_pg_con args) in
    let? _ := init_tracing (Config.tracing config) in
    if migrate args then let? _ := migrate_cmd config in Ok Migrated
    else let? b := boot config in Ok (Serving b).
End Boot.

(** * Health probe

    [check_postgres]: [None] is the probe's timeout. *)
Definition POSTGRES_PROBE_TIMEOUT_MS : Z := 2000.

Inductive StatusCode : Type := OK | SERVICE_UNAVAILABLE.

Definition check_postgres (probe : option (result unit SqlxError)) : StatusCode :=
  match probe with
  | Some (Ok _) => OK
  | Some (Err _) => SERVICE_UNAVAILABLE
  | None => SERVICE_UNAVAILABLE
  end.

Inductive route : Type := HealthStartup | HealthLive | HealthReady.

Definition answer_probe (r : route) (probe : option (result unit SqlxError)) : StatusCode :=
  match r with
  | HealthStartup | HealthReady => check_postgres probe
  | HealthLive => OK
  end.

(** * Theorems *)

Lemma spawn_sweeps_ok {Channel} (ops : boot_ops Channel) l :
  spawn_sweeps ops l = Ok tt -> forall job, job ∈ l -> spawn_unique ops job = Ok tt.
Proof.
  induction l as [| j l IH]; simpl; [by intros _ job []%not_elem_of_nil |].
  intros ([] & Hj & Hl)%result_bind_ok job [-> | Hin]%elem_of_cons; [| by apply IH].
  by destruct (spawn_unique ops j) as [[] |].
Qed.

(** What [boot] has made sure of. *)
Lemma boot_spec {Channel} (ops : boot_ops Channel) config b :
  boot ops config = Ok b ->
  init_pool ops (Config.db config) = Ok tt /\
  blank (symphony_endpoint b) = false /\
  connect_lazy (from_shared ops) (symphony_endpoint b) = Ok Real /\
  symphony_endpoint b = Config.symphony config /\
  (lnd (app b) = lnd_client b /\ symphony (app b) = Real /\ mode (app b) = Live) /\
  match Config.lnd config with
  | Some lnd => LndClient.connect (tonic_connect ops) lnd = Ok (lnd_client b)
  | None => lnd_client b = LndClient.boot_stub LndConfig.stub
  end /\
  sweeps b = registered_sweeps (lnd_client b) /\
  (forall job, job ∈ sweeps b -> spawn_unique ops job = Ok tt) /\
  GrpcServerConfig.pg_config (grpc_config b) = DbConfig.pg_con (Config.db config) /\
  SubgraphServerConfig.pg_config (graphql_config b) = DbConfig.pg_con (Config.db config).
Proof.
  unfold boot. intros ([] & Hpool%map_err_ok & (l & Hlnd & (u2 & Hval & (sym & Hsym &
    (u4 & _ & (u5 & _ & (u6 & Hsw & Hb)%result_bind_ok)%result_bind_ok)%result_bind_ok)%result_bind_ok)
    %result_bind_ok)%result_bind_ok)%result_bind_ok.
  injection Hb as <-. simpl. destruct u6.
  apply map_err_ok in Hsym. pose proof Hsym as Hreal.
  apply result_bind_ok in Hreal as (u & _ & [= <-]).
  split_and!; try done.
  - unfold blank. unfold SymphonyConfig_validate in Hval. by destruct (String.eqb _ _).
  - unfold connect_lnd in Hlnd. destruct (Config.lnd config); [| by injection Hlnd as <-].
    by apply map_err_ok in Hlnd.
  - by apply spawn_sweeps_ok.
Qed.

(** A gateway that serves was booted on the connection string of the environment. *)
Lemma run_boots {Channel} (ops : boot_ops Channel) args b :
  run ops args = Ok (Serving b) ->
  exists config, boot ops config = Ok b /\
    DbConfig.pg_con (Config.db config) = cli_pg_con args /\
    ListenConnection.validate (cli_pg_con args) = Ok tt.
Proof.
  unfold run. destruct (blank (cli_pg_con args)) eqn:Hblank; [done |].
  intros (config & Hconfig & (u & _ & Hrun)%result_bind_ok)%result_bind_ok.
  destruct (migrate args); apply result_bind_ok in Hrun as (b' & Hb & Hserve); [done |].
  injection Hserve as <-. exists config. split; [done |]. split.
  - unfold from_path in Hconfig.
    by apply result_bind_ok in Hconfig as (body & _ & (c & _ & [= <-])%result_bind_ok).
  - unfold ListenConnection.validate.
    destruct (String.eqb_spec (cli_pg_con args) "") as [He |]; [by rewrite He in Hblank | done].
Qed.

(** A configured LND was reached, and then every sweep spawned. *)
Lemma sweeps_follow_lnd {Channel} (ops : boot_ops Channel) config b :
  boot ops config = Ok b ->
  if LndClient.is_connected (lnd_client b) then
    LndClient.connect (tonic_connect ops) (LndClient.config (lnd_client b)) =
      Ok (lnd_client b) /\
    forall job, spawn_unique ops job = Ok tt
  else lnd_client b = LndClient.boot_stub LndConfig.stub /\ sweeps b = [].
Proof.
  intros (_ & _ & _ & _ & _ & Hlnd & Hsw & Hspawn & _)%boot_spec.
  unfold registered_sweeps in Hsw. destruct (Config.lnd config) as [lnd |].
  - destruct (connected_config _ _ _ Hlnd) as [Hc Hup]. rewrite Hup, Hc in *. split; [done |].
    intros job. apply Hspawn. rewrite Hsw. destruct job; set_solver.
  - by rewrite Hlnd in *.
Qed.

(** C33. The gateway refuses to come up half-configured: when it serves, the connection string
    is the one of the environment, whatever the file says, both LISTEN sides accept it, and
    the database there was reached and migrated; Symphony's endpoint is set and its channel
    was made; the application runs live on these clients, Symphony's never being the stub;
    a configured LND was reached and then all three sweeps were spawned, and without one the
    gateway runs on the stub with none of them. *)
Theorem serves_configured {Channel} (ops : boot_ops Channel) args b :
  run ops args = Ok (Serving b) ->
  GrpcServerConfig.pg_config (grpc_config b) = cli_pg_con args /\
  SubgraphServerConfig.pg_config (graphql_config b) = cli_pg_con args /\
  ListenConnection.validate (cli_pg_con args) = Ok tt /\
  OutboxFanout.start (cli_pg_con args) = Ok tt /\
  (exists n, pg_connect ops n (cli_pg_con args) = Ok tt) /\
  apply_migrations ops (cli_pg_con args) = Ok tt /\
  blank (symphony_endpoint b) = false /\
  connect_lazy (from_shared ops) (symphony_endpoint b) = Ok Real /\
  (lnd (app b) = lnd_client b /\ symphony (app b) = Real /\ mode (app b) = Live) /\
  if LndClient.is_connected (lnd_client b) then
    LndClient.connect (tonic_connect ops) (LndClient.config (lnd_client b)) =
      Ok (lnd_client b) /\
    forall job, spawn_unique ops job = Ok tt
  else lnd_client b = LndClient.boot_stub LndConfig.stub /\ sweeps b = [].
Proof.
  intros (config & Hb & Hpg & Hval)%run_boots.
  pose proof (sweeps_follow_lnd _ _ _ Hb) as Hsweeps.
  destruct (boot_spec _ _ _ Hb) as (Hpool & Hsym & Hlazy & _ & Happ & _ & _ & _ & Hg & Hq).
  unfold init_pool, migrated_pool in Hpool. rewrite Hpg in Hpool.
  apply result_bind_ok in Hpool as ([] & Hconn & Hmigr).
  rewrite Hg, Hq, Hpg. split_and!; try done; try apply Happ. by eexists.
Qed.

Definition all_well : boot_ops unit := {|
  read_to_string := fun _ => Ok "symphony: {}";
  from_yaml := fun _ => Ok (Config.mk (DbConfig.mk "from-yaml" 20) SubgraphServerConfig.default
    GrpcServerConfig.default HealthServerConfig.default "http://symphony:50051"
    WalletOwnershipConfig.default (Some LndConfig.stub) None);
  try_init_subscriber := Ok tt; pg_connect := fun _ _ => Ok tt;
  apply_migrations := fun _ => Ok tt;
  tonic_connect := fun _ _ _ => Ok tt; from_shared := fun _ => Ok tt; http_client_builds := true;
  jobs_init := Ok tt; start_poll := Ok tt; spawn_unique := fun _ => Ok tt |}.

Example serves_configured_witness :
  exists b, run all_well (Cli "ln-gateway.yml" "postgres://db" false) = Ok (Serving b) /\
    GrpcServerConfig.pg_config (grpc_config b) = "postgres://db" /\ length (sweeps b) = 3.
Proof.
  eexists. split; [vm_compute; reflexivity |].
  split; [| vm_compute; reflexivity].
  refine (proj1 (serves_configured all_well (Cli "ln-gateway.yml" "postgres://db" false) _ _)).
  vm_compute. reflexivity.
Defined.

(** The default configuration alone does not boot: its Symphony endpoint is empty. *)
Example defaults_do_not_serve :
  boot all_well Config.default =
    Err (SymphonyInvalid "symphony.grpc_endpoint must be set; empty value rejected").
Proof. reflexivity. Qed.
