(* ===== verification/Servers.v ===== *)
(** The servers' bootstrap (src/src/server/grpc.rs, graphql.rs, error.rs, health.rs): what each
    checks, spawns and binds before it serves, in this order, and how its failures are
    named; and the registered jobs (src/src/job/): their names, and the runner each starts.
    The listeners and the HTTP stacks are what they answer. *)
From S2P Require Import Prelude Primitives EsEntity Outbox Listen Fanout Lnd LndClient.
From S2P Require Import PaymentEntity InvoiceEntity Symphony Wallet Effects App Adapters.
From S2P Require Import AppPayment AppInvoice Jobs Boot.

Module ServerError.
Inductive t : Type :=
| Transport (e : string)
| Bind (e : string)
| Outbox (e : OutboxError.t).
End ServerError.

(** What a server does to the outside, in order; an address is [0.0.0.0] and the port. *)
Inductive server_action : Type :=
| SpawnIngest (pg_config : string)
| SpawnKeyRefresh (jwks_url : string)
| Bound (port : Z)
| Served (port : Z) (keepalive : option (Z * Z)).

Definition server_run : Type := list server_action * result unit ServerError.t.

(** The libraries: binding a port, serving until the cancellation. *)
Record server_ops : Type := {
  tcp_bind : Z -> result unit string;
  axum_serve : Z -> result unit string;
  tonic_serve : Z -> result unit string
}.

Section Servers.
Context (ops : server_ops).

(** [LightningPaymentGatewayService::new]. *)
Definition service_new (pg_url : string) : result unit OutboxError.t :=
  ListenConnection.validate pg_url.

Definition run_grpc_server (config : GrpcServerConfig.t) : server_run :=
  let port := GrpcServerConfig.port config in
  match service_new (GrpcServerConfig.pg_config config) with
  | Err e => ([], Err (ServerError.Outbox e))
  | Ok _ =>
      ([Served port (Some (GrpcServerConfig.keepalive_interval_secs config,
                           GrpcServerConfig.keepalive_timeout_secs config))],
       map_err ServerError.Transport (tonic_serve ops port))
  end.

Definition run_graphql_server (config : SubgraphServerConfig.t) : server_run :=
  let port := SubgraphServerConfig.port config in
  let pg_config := SubgraphServerConfig.pg_config config in
  match OutboxFanout.start pg_config with
  | Err e => ([], Err (ServerError.Outbox e))
  | Ok _ =>
      let spawned := [SpawnIngest pg_config; SpawnKeyRefresh (SubgraphServerConfig.jwks_url config)] in
      match tcp_bind ops port with
      | Err e => (spawned, Err (ServerError.Bind e))
      | Ok _ =>
          (spawned ++ [Bound port; Served port None],
           map_err ServerError.Bind (axum_serve ops port))
      end
  end.

(** [health::run]. *)
Definition run_health_server (port : Z) : server_run :=
  match tcp_bind ops port with
  | Err e => ([], Err (ServerError.Bind e))
  | Ok _ => ([Bound port; Served port None], map_err ServerError.Bind (axum_serve ops port))
  end.
End Servers.

(** The routes of the health router. *)
Definition health_routes : list (string * route) :=
  [("/health/startup", HealthStartup); ("/health/live", HealthLive);
   ("/health/ready", HealthReady)].

Definition health_route (path : string) : option route :=
  snd <$> List.find (fun r => String.eqb r.1 path) health_routes.

(** [GET path]: no answer of this server's own for any other path. *)
Definition health_get (path : string) (probe : option (result unit SqlxError)) :
    option StatusCode := (fun r => answer_probe r probe) <$> health_route path.

(** * Jobs *)

(** The error of a runner, boxed. *)
Inductive JobError : Type := OfApp (e : AppError.t) | OfInvoice (e : InvoiceError.t).

Section Jobs.
Context `{Hex} `{UuidText} `{EventStore} `{PR : !EsRepo Payments.desc}.
Context `{IR : !EsRepo Invoices.desc} `{RowOrder}.

(** The trait [JobInitializer]: the job's name, and [run] of the runner that [init] makes. *)
Record JobInitializer : Type := Initializer {
  job_type : string;
  init : App.app (result JobCompletion JobError)
}.

Definition InvoiceSubscriptionRecoverySweepInitializer : JobInitializer :=
  Initializer "invoice_subscription_recovery_sweep"
    (map_err_ OfInvoice invoice_subscription_recovery_run).
Definition InvoiceReconciliationSweepInitializer : JobInitializer :=
  Initializer "invoice_reconciliation_sweep" (map_err_ OfInvoice invoice_reconciliation_run).
Definition OrphanHoldSweepInitializer : JobInitializer :=
  Initializer "orphan_hold_sweep" (map_err_ OfApp orphan_hold_run).

(** What is registered for a sweep of [Boot.registered_sweeps]. *)
Definition initializer (job : sweep) : JobInitializer :=
  match job with
  | InvoiceSubscriptionRecoverySweep => InvoiceSubscriptionRecoverySweepInitializer
  | InvoiceReconciliationSweep => InvoiceReconciliationSweepInitializer
  | OrphanHoldSweep => OrphanHoldSweepInitializer
  end.

(** The job service tells the jobs apart. *)
Lemma job_type_inj job1 job2 :
  job_type (initializer job1) = job_type (initializer job2) -> job1 = job2.
Proof. by destruct job1, job2. Qed.
End Jobs.

(** The liveness probe never asks Postgres; the two others answer 200 exactly when it
    answered in time. *)
Lemma probes_truthful path probe r :
  health_route path = Some r ->
  health_get path probe = Some OK <-> (r = HealthLive \/ probe = Some (Ok tt)).
Proof.
  unfold health_get. intros ->. cbn.
  destruct r, probe as [[[] |] |]; cbn; naive_solver.
Qed.

(** A server without a connection string does nothing at all. *)
Lemma unconfigured_servers_refuse ops g s :
  GrpcServerConfig.pg_config g = "" -> SubgraphServerConfig.pg_config s = "" ->
  (exists e, run_grpc_server ops g = ([], Err (ServerError.Outbox e))) /\
  (exists e, run_graphql_server ops s = ([], Err (ServerError.Outbox e))).
Proof.
  intros Hg Hs. unfold run_grpc_server, service_new, run_graphql_server, OutboxFanout.start.
  rewrite Hg, Hs. split; by eexists.
Qed.

(** The servers of a gateway that came up are never refused for their configuration: the
    gRPC server listens, and the GraphQL server starts its fan-out and its key refresh. *)
Lemma booted_servers_start {Channel} (ops : boot_ops Channel) sops args b :
  run ops args = Ok (Serving b) ->
  (run_grpc_server sops (grpc_config b)).1 =
    [Served (GrpcServerConfig.port (grpc_config b))
       (Some (GrpcServerConfig.keepalive_interval_secs (grpc_config b),
              GrpcServerConfig.keepalive_timeout_secs (grpc_config b)))] /\
  [SpawnIngest (cli_pg_con args);
   SpawnKeyRefresh (SubgraphServerConfig.jwks_url (graphql_config b))] `prefix_of`
    (run_graphql_server sops (graphql_config b)).1 /\
  forall e, (run_grpc_server sops (grpc_config b)).2 <> Err (ServerError.Outbox e) /\
            (run_graphql_server sops (graphql_config b)).2 <> Err (ServerError.Outbox e).
Proof.
  intros (config & Hb & Hpg & Hval)%run_boots.
  destruct (boot_spec _ _ _ Hb) as (_ & _ & _ & _ & _ & _ & _ & _ & Hg & Hs).
  rewrite Hpg in Hg, Hs.
  unfold run_grpc_server, service_new, run_graphql_server, OutboxFanout.start.
  rewrite Hg, Hs, Hval. simpl. split; [done |]. split.
  - destruct (tcp_bind sops _); simpl; [by eexists | done].
  - intros e. split; [by destruct (tonic_serve sops _) |].
    destruct (tcp_bind sops _); simpl; [by destruct (axum_serve sops _) | done].
Qed.
