(* ===== verification/Supervisor.v ===== *)
(** The supervisor of the binary (src/src/cli.rs, from the spawned tasks to the end of
    [run_cmd]): six tasks that report why they exit into a channel of one slot, the
    shutdown token, the health reporter, and the main task that takes the first report,
    cancels and drains the others. *)
From S2P Require Import Prelude Primitives Boot.

Module Supervisor.
(** The tasks, in the order of their handles. *)
Inductive task : Type :=
| GrpcServer
| GraphqlServer
| HealthServer
| InvoiceUpdateConsumer
| PaymentSubscription
| SignalHandler.
#[export] Instance task_eq_dec : EqDecision task.
Proof. solve_decision. Defined.

Definition handles : list task :=
  [GrpcServer; GraphqlServer; HealthServer; InvoiceUpdateConsumer; PaymentSubscription;
   SignalHandler].

Inductive status : Type := Running | Returned | Panicked | Aborted.
#[export] Instance status_eq_dec : EqDecision status.
Proof. solve_decision. Defined.

(** An exit reason. *)
Notation report := (result unit string).

(** Where the signal handler is: waiting for a signal, in the grace sleep, past the
    cancellation. *)
Inductive signal_pc : Type := AwaitingSignal | InGrace | Cancelling.
#[export] Instance signal_pc_eq_dec : EqDecision signal_pc.
Proof. solve_decision. Defined.

(** Where [run_cmd] is: on the channel, joining the handles it still has, shutting the job
    poller down, or returned. *)
Inductive main_pc : Type :=
| Waiting
| Draining (todo : list task) (reason : report)
| ShuttingJobs (reason : report)
| Done (reason : report).

Record state : Type := State {
  cancelled : bool;
  serving : bool;
  signal : signal_pc;
  status_of : task -> status;
  slot : option report;
  main : main_pc;
  (** Seconds spent in join timeouts. *)
  waited : Z;
  (** Every report made, with its task, oldest first. *)
  reported : list (task * report)
}.

Definition started : state :=
  State false true AwaitingSignal (fun _ => Running) None Waiting 0 [].

Definition drain_deadline (shutdown_grace_secs : Z) : Z := shutdown_grace_secs + 5.

(** [anyhow]'s context. *)
Definition context (c : string) (r : report) : report := map_err (fun e => c +:+ ": " +:+ e) r.

Definition server_context (t : task) : string :=
  match t with
  | GrpcServer => "gRPC server error"
  | GraphqlServer => "GraphQL subgraph server error"
  | _ => "HTTP health server error"
  end.

Definition set_status (t : task) (s : status) (f : task -> status) : task -> status :=
  fun t' => if decide (t' = t) then s else f t'.

(** [report_exit], the last thing a task does: dropped when the slot is taken. *)
Definition exit_with (t : task) (r : report) (s : state) : state :=
  State (cancelled s) (serving s) (signal s) (set_status t Returned (status_of s))
    (match slot s with None => Some r | Some old => Some old end) (main s) (waited s)
    (reported s ++ [(t, r)]).

Definition go (m : main_pc) (s : state) : state :=
  State (cancelled s) (serving s) (signal s) (status_of s) (slot s) m (waited s) (reported s).

Inductive event : Type :=
(** A server's future resolves. *)
| ServerReturns (t : task) (r : report)
(** The invoice-update consumer sees the cancellation, or the end of its channel. *)
| ConsumerCancelled
| ConsumerChannelClosed
(** [subscribe_payments] and its consumer have returned. *)
| ProducerReturns (r : report)
(** The signal handler. *)
| SignalInstallFails (e : string)
| SignalReceived
| GraceElapsed
| SignalReports
| Panics (t : task)
(** The main task. *)
| MainReceives
| MainStarves
| Joined
| JoinTimedOut
| JobsShutDown.

Definition is_server (t : task) : bool :=
  match t with GrpcServer | GraphqlServer | HealthServer => true | _ => false end.

Definition is_running (t : task) (s : state) : bool := bool_decide (status_of s t = Running).

Definition guard {A} (b : bool) (a : A) : option A := if b then Some a else None.

Section Steps.
Context (shutdown_grace_secs : Z).

Definition do_task (e : event) (s : state) : option state :=
  match e with
  | ServerReturns t r =>
      guard (is_server t && is_running t s) (exit_with t (context (server_context t) r) s)
  | ConsumerCancelled =>
      guard (is_running InvoiceUpdateConsumer s && cancelled s)
        (exit_with InvoiceUpdateConsumer (Ok tt) s)
  | ConsumerChannelClosed =>
      guard (is_running InvoiceUpdateConsumer s)
        (exit_with InvoiceUpdateConsumer
           (if cancelled s then Ok tt
            else Err "invoice-update consumer exited: every listener Sender dropped") s)
  | ProducerReturns r =>
      guard (is_running PaymentSubscription s)
        (exit_with PaymentSubscription
           (if cancelled s then Ok tt
            else match r with
                 | Ok _ => Err "LND payment-subscription producer exited without cancellation"
                 | Err _ => context "LND payment-subscription producer error" r
                 end) s)
  | SignalInstallFails e =>
      guard (is_running SignalHandler s && bool_decide (signal s = AwaitingSignal))
        (exit_with SignalHandler (context "install shutdown signal handler" (Err e)) s)
  | SignalReceived =>
      guard (is_running SignalHandler s && bool_decide (signal s = AwaitingSignal))
        (State (cancelled s) false InGrace (status_of s) (slot s) (main s) (waited s) (reported s))
  | GraceElapsed =>
      guard (is_running SignalHandler s && bool_decide (signal s = InGrace))
        (State true (serving s) Cancelling (status_of s) (slot s) (main s) (waited s) (reported s))
  | SignalReports =>
      guard (is_running SignalHandler s && bool_decide (signal s = Cancelling))
        (exit_with SignalHandler (Ok tt) s)
  | Panics t =>
      guard (is_running t s)
        (State (cancelled s) (serving s) (signal s) (set_status t Panicked (status_of s)) (slot s)
           (main s) (waited s) (reported s))
  | _ => None
  end.

Definition do_main (e : event) (s : state) : option state :=
  match e, main s with
  | MainReceives, Waiting =>
      r ← slot s;
      Some (State true (serving s) (signal s) (status_of s) None (Draining handles r) (waited s)
              (reported s))
  | MainStarves, Waiting =>
      guard (bool_decide (slot s = None) && forallb (fun t => negb (is_running t s)) handles)
        (go (Done (Err "all server tasks exited without reporting status")) s)
  | Joined, Draining (t :: todo) r =>
      guard (negb (is_running t s)) (go (Draining todo r) s)
  | JoinTimedOut, Draining (t :: todo) r =>
      guard (is_running t s)
        (State (cancelled s) (serving s) (signal s) (set_status t Aborted (status_of s)) (slot s)
           (Draining todo r) (waited s + drain_deadline shutdown_grace_secs) (reported s))
  | Joined, Draining [] r => Some (go (ShuttingJobs r) s)
  | JobsShutDown, ShuttingJobs r => Some (go (Done r) s)
  | _, _ => None
  end.

(** Once [run_cmd] has returned the process is gone. *)
Definition do_event (e : event) (s : state) : option state :=
  match main s with
  | Done _ => None
  | _ => match do_task e s with Some s' => Some s' | None => do_main e s end
  end.

Fixpoint run (es : list event) (s : state) : option state :=
  match es with
  | [] => Some s
  | e :: es => s' ← do_event e s; run es s'
  end.

Definition step (s s' : state) : Prop := exists e, do_event e s = Some s'.
End Steps.

(** ** Theorems *)

Section Theory.
Context (shutdown_grace_secs : Z) (grace_nonneg : (0 <= shutdown_grace_secs)%Z).

Notation supervised := (rtc (step shutdown_grace_secs) started).
Notation deadline := (drain_deadline shutdown_grace_secs).

Definition starved : report := Err "all server tasks exited without reporting status".

Definition first_report (s : state) : option report := snd <$> head (reported s).

(** The reason the main task holds, and how it came by it. *)
Definition reason_ok (s : state) : Prop :=
  match main s with
  | Waiting => slot s = first_report s
  | Draining _ r | ShuttingJobs r => first_report s = Some r
  | Done r =>
      first_report s = Some r \/
      (r = starved /\ reported s = [] /\ forall t, status_of s t = Panicked)
  end.

(** A first report of success comes from a server, or follows the signal handler. *)
Definition success_ok (s : state) : Prop :=
  match head (reported s) with
  | Some (t, Ok _) => is_server t = true \/ signal s = Cancelling
  | _ => True
  end.

Definition order_ok (s : state) : Prop :=
  (main s = Waiting -> cancelled s = true -> signal s = Cancelling) /\
  (signal s <> AwaitingSignal -> serving s = false).

Definition statuses_ok (s : state) : Prop :=
  forall t, (status_of s t = Returned -> reported s <> []) /\
            (main s = Waiting -> status_of s t <> Aborted).

(** The handles joined so far are of tasks that are over, and the time spent on them. *)
Definition joins_ok (s : state) : Prop :=
  match main s with
  | Waiting => waited s = 0%Z
  | Draining todo _ =>
      exists joined, handles = joined ++ todo /\
        (forall t, t ∈ joined -> is_running t s = false) /\
        (0 <= waited s <= Z.of_nat (length joined) * deadline)%Z
  | ShuttingJobs _ | Done _ =>
      (forall t, is_running t s = false) /\ (0 <= waited s <= 6 * deadline)%Z
  end.

Definition supervisor_ok (s : state) : Prop :=
  reason_ok s /\ success_ok s /\ order_ok s /\ statuses_ok s /\ joins_ok s.

Lemma in_handles t : t ∈ handles.
Proof. destruct t; unfold handles; set_solver. Qed.

Lemma deadline_nonneg : (0 <= deadline)%Z.
Proof. unfold drain_deadline. lia. Qed.

Lemma guard_Some {A} (b : bool) (a a' : A) : guard b a = Some a' -> b = true /\ a' = a.
Proof. destruct b; [by intros [= <-] | done]. Qed.

Lemma first_report_snoc s t r :
  snd <$> head (reported s ++ [(t, r)]) =
  match first_report s with None => Some r | Some old => Some old end.
Proof. unfold first_report. by destruct (reported s). Qed.

Lemma is_running_set t t' st s :
  st <> Running ->
  bool_decide (set_status t' st (status_of s) t = Running) = true -> is_running t s = true.
Proof.
  intros Hst Hr. apply bool_decide_eq_true_1 in Hr. unfold set_status in Hr.
  case_decide; [done | by apply bool_decide_eq_true_2].
Qed.

(** A report keeps everything in order, if a success is one of those allowed. *)
Lemma exit_with_ok t r s :
  (forall reason, main s <> Done reason) ->
  (r = Ok tt -> cancelled s = true \/ is_server t = true \/ signal s = Cancelling) ->
  supervisor_ok s -> supervisor_ok (exit_with t r s).
Proof.
  intros Hmain Hr (Hreason & Hsucc & [Hord1 Hord2] & Hst & Hj).
  assert (Hrun : forall t', is_running t' s = false -> is_running t' (exit_with t r s) = false).
  { intros t' Ht'. apply not_true_iff_false. intros Hx. apply not_true_iff_false in Ht'.
    apply Ht'. eapply is_running_set; [| exact Hx]. done. }
  split_and!; [| | by split | |].
  - unfold reason_ok, first_report in *. simpl.
    destruct (main s) eqn:Hm; try (by destruct (Hmain reason)); destruct (reported s); simpl in *;
      try done; by rewrite Hreason.
  - unfold success_ok in *. simpl. destruct (reported s) as [| [t0 r0] l] eqn:Hrep; simpl; [| done].
    destruct r as [[] |]; [| done]. destruct (Hr eq_refl) as [Hc | [? | ?]]; [| by left | by right].
    right. apply Hord1; [| done]. unfold reason_ok, first_report in Hreason. rewrite Hrep in Hreason.
    destruct (main s); try done. by destruct (Hmain reason).
  - intros t'. simpl. split; [by destruct (reported s) |]. intros Hw. unfold set_status.
    case_decide; [done | by apply Hst].
  - unfold joins_ok in *. simpl. destruct (main s) as [| todo r0 | r0 | r0]; try done.
    + destruct Hj as (joined & -> & Hjd & Hw). exists joined. split_and!; try done; [| lia..].
      intros t' Ht'. by apply Hrun, Hjd.
    + destruct Hj as [Hjd Hw]. split; [| done]. intros t'. by apply Hrun.
    + by destruct (Hmain r0).
Qed.

(** A step of the signal handler or a panic reports nothing. *)
Lemma quiet_ok s c sv sg st :
  supervisor_ok s ->
  (main s = Waiting -> c = true -> sg = Cancelling) -> (sg <> AwaitingSignal -> sv = false) ->
  (signal s = Cancelling -> sg = Cancelling) ->
  (forall t, st t = status_of s t \/ (st t = Panicked /\ is_running t s = true)) ->
  (forall t, status_of s t = Panicked -> st t = Panicked) ->
  (forall reason, main s <> Done reason) ->
  supervisor_ok (State c sv sg st (slot s) (main s) (waited s) (reported s)).
Proof.
  intros (Hreason & Hsucc & _ & Hst & Hj) Hc Hsv Hsg Hstat _ Hmain.
  assert (Hrun : forall t, is_running t s = false ->
            is_running t (State c sv sg st (slot s) (main s) (waited s) (reported s)) = false).
  { intros t Ht. apply bool_decide_eq_false_2. simpl. unfold is_running in Ht.
    apply bool_decide_eq_false_1 in Ht. destruct (Hstat t) as [-> | [-> _]]; done. }
  split_and!; [| | by split | |].
  - unfold reason_ok, first_report in *. simpl. destruct (main s) eqn:Hm; try done.
    by destruct (Hmain reason).
  - unfold success_ok in *. simpl. destruct (head (reported s)) as [[t [[] |]] |]; try done.
    destruct Hsucc; auto.
  - intros t. simpl. destruct (Hstat t) as [-> | [-> _]]; [by apply Hst | done].
  - unfold joins_ok in *. simpl. destruct (main s) as [| todo r0 | r0 | r0]; try done.
    + destruct Hj as (joined & -> & Hjd & Hw). exists joined. split_and!; try done; [| lia..].
      intros t' Ht'. by apply Hrun, Hjd.
    + destruct Hj as [Hjd Hw]. split; [| done]. intros t'. by apply Hrun.
    + by destruct (Hmain r0).
Qed.

Lemma do_task_ok e s s' :
  (forall reason, main s <> Done reason) ->
  do_task e s = Some s' -> supervisor_ok s -> supervisor_ok s'.
Proof.
  intros Hmain Hdo Hok. pose proof Hok as (_ & _ & [Hord1 Hord2] & _ & _).
  destruct e; simpl in Hdo; try done; apply guard_Some in Hdo as [Hg ->];
    rewrite ?andb_true_iff in Hg.
  - apply exit_with_ok; try done. intros _. right; left. by destruct Hg.
  - apply exit_with_ok; try done. intros _. left. by destruct Hg.
  - apply exit_with_ok; try done. destruct (cancelled s); [by left | done].
  - apply exit_with_ok; try done. destruct (cancelled s); [by left |]. by destruct r.
  - by apply exit_with_ok.
  - apply quiet_ok; try done; auto.
    + intros Hm Hc. destruct Hg as [_ Hg%bool_decide_eq_true_1].
      rewrite (Hord1 Hm Hc) in Hg. done.
    + destruct Hg as [_ Hg%bool_decide_eq_true_1]. by rewrite Hg.
  - apply quiet_ok; try done; auto. intros _. apply Hord2.
    destruct Hg as [_ Hg%bool_decide_eq_true_1]. by rewrite Hg.
  - apply exit_with_ok; try done. intros _. right; right.
    by destruct Hg as [_ Hg%bool_decide_eq_true_1].
  - apply quiet_ok; try done; auto.
    + intros t'. unfold set_status. case_decide; [right | by left]. subst. by split.
    + intros t' Ht'. unfold set_status. by case_decide.
Qed.

Lemma do_main_ok e s s' :
  do_main shutdown_grace_secs e s = Some s' -> supervisor_ok s -> supervisor_ok s'.
Proof.
  pose proof deadline_nonneg as Hdl.
  intros Hdo (Hreason & Hsucc & [Hord1 Hord2] & Hst & Hj). unfold do_main in Hdo.
  destruct e, (main s) as [| todo r0 | r0 | r0] eqn:Hm; try done.
  - destruct (slot s) as [r |] eqn:Hslot; [| done]. injection Hdo as <-.
    unfold reason_ok in Hreason. rewrite Hm, Hslot in Hreason.
    unfold joins_ok in Hj. rewrite Hm in Hj.
    split_and!; try done.
    + intros t. split; [apply Hst | done].
    + exists []. split_and!; [done | by intros t ?%not_elem_of_nil | simpl; lia..].
  - apply guard_Some in Hdo as [[Hslot Hall]%andb_true_iff ->].
    apply bool_decide_eq_true_1 in Hslot.
    unfold reason_ok in Hreason. rewrite Hm, Hslot in Hreason.
    assert (Hnil : reported s = []) by (unfold first_report in Hreason; by destruct (reported s)).
    assert (Hno : forall t, is_running t s = false).
    { intros t. apply negb_true_iff. apply (proj1 (forallb_forall _ _) Hall).
      apply list_elem_of_In, in_handles. }
    unfold joins_ok in Hj. rewrite Hm in Hj.
    split_and!; try done.
    + right. split; [done |]. split; [done |]. intros t. simpl.
      pose proof (Hno t) as Ht. unfold is_running in Ht. apply bool_decide_eq_false_1 in Ht.
      destruct (Hst t) as [Hret Hab], (status_of s t); try done; [by destruct Hret | by destruct Hab].
    + intros t. split; [apply Hst | done].
    + split; [exact Hno |]. simpl. lia.
  - destruct todo as [| t todo].
    + injection Hdo as <-. unfold reason_ok in Hreason. rewrite Hm in Hreason.
      unfold joins_ok in Hj. rewrite Hm in Hj. destruct Hj as (joined & Heq & Hjd & Hw).
      rewrite app_nil_r in Heq. subst joined.
      split_and!; try done; [intros t; split; [apply Hst | done] |].
      split; [intros t; apply Hjd, in_handles |]. simpl in *. lia.
    + apply guard_Some in Hdo as [Hg%negb_true_iff ->].
      unfold reason_ok in Hreason. rewrite Hm in Hreason.
      unfold joins_ok in Hj. rewrite Hm in Hj. destruct Hj as (joined & Heq & Hjd & Hw).
      split_and!; try done; [intros t'; split; [apply Hst | done] |].
      exists (joined ++ [t]). rewrite length_app. simpl. split; [by rewrite <- app_assoc |].
      split; [| lia]. intros t' [Hin | ->%list_elem_of_singleton]%elem_of_app; [by apply Hjd | done].
  - destruct todo as [| t todo]; [done |]. apply guard_Some in Hdo as [Hg ->].
    unfold reason_ok in Hreason. rewrite Hm in Hreason.
    unfold joins_ok in Hj. rewrite Hm in Hj. destruct Hj as (joined & Heq & Hjd & Hw).
    split_and!; try done.
    + intros t'. simpl. split; [| done]. unfold set_status. case_decide; [done | apply Hst].
    + exists (joined ++ [t]). rewrite length_app. simpl. split; [by rewrite <- app_assoc |].
      split; [| lia]. intros t' Hin. apply bool_decide_eq_false_2. simpl. unfold set_status.
      case_decide as Hne; [done |].
      apply elem_of_app in Hin as [Hin | ->%list_elem_of_singleton]; [| done].
      specialize (Hjd t' Hin). unfold is_running in Hjd. by apply bool_decide_eq_false_1 in Hjd.
  - injection Hdo as <-. unfold reason_ok in Hreason. rewrite Hm in Hreason.
    unfold joins_ok in Hj. rewrite Hm in Hj.
    split_and!; try done; [by left | intros t; split; [apply Hst | done]].
Qed.

Lemma supervised_ok s : supervised s -> supervisor_ok s.
Proof.
  intros Hr. cut (supervisor_ok started).
  - induction Hr as [| s1 s2 s3 [e He] _ IH]; [done |]. intros H1. apply IH. clear IH.
    unfold do_event in He.
    destruct (main s1) eqn:Hm; try done;
      (destruct (do_task e s1) as [s' |] eqn:Ht; [injection He as <-; eapply do_task_ok; eauto; congruence |
       by eapply do_main_ok]).
  - split_and!; done.
Qed.

(** C31. The shutdown is orderly.  While no exit reason has been taken the token is only ever
    cancelled by the signal handler, after the health service has said [NotServing] and
    the grace window has passed.  The exit code tells the truth: [run_cmd] returns the
    first reason reported, and success only when a server returned it or a signal was
    handled that way; it gives up without a reason only when every task has panicked. *)
Theorem shutdown_orderly s :
  supervised s ->
  (main s = Waiting -> cancelled s = true -> signal s = Cancelling /\ serving s = false) /\
  forall r, main s = Done r ->
    (r = starved /\ reported s = [] /\ (forall t, status_of s t = Panicked)) \/
    exists t, head (reported s) = Some (t, r) /\
      (r = Ok tt -> is_server t = true \/ (signal s = Cancelling /\ serving s = false)).
Proof.
  intros (Hreason & Hsucc & [Hord1 Hord2] & _)%supervised_ok.
  assert (Hns : signal s = Cancelling -> serving s = false)
    by (intros Heq; apply Hord2; by rewrite Heq).
  split; [intros Hm Hc; split; [by apply Hord1 | by apply Hns, Hord1] |].
  intros r Hm. unfold reason_ok in Hreason. rewrite Hm in Hreason.
  destruct Hreason as [Hf | ?]; [right | by left]. unfold first_report in Hf.
  unfold success_ok in Hsucc. destruct (head (reported s)) as [[t r'] |]; [| done].
  injection Hf as <-. exists t. split; [done |]. intros ->. destruct Hsucc; auto.
Qed.

Lemma run_supervised es s s' :
  run shutdown_grace_secs es s = Some s' -> rtc (step shutdown_grace_secs) s s'.
Proof.
  revert s. induction es as [| e es IH]; intros s; simpl; [by intros [= ->] |].
  destruct (do_event _ e s) as [s1 |] eqn:He; [| done]. simpl. intros Hrun.
  eapply rtc_l; [by exists e | by apply IH].
Qed.

(** The main task joins its handles, whether they come to an end or not. *)
Lemma drains todo r s :
  main s = Draining todo r ->
  exists es s', run shutdown_grace_secs es s = Some s' /\ length es = S (length todo) /\
    main s' = ShuttingJobs r.
Proof.
  revert s. induction todo as [| t todo IH]; intros s Hm.
  - exists [Joined], (go (ShuttingJobs r) s). split; [| done]. simpl. unfold do_event.
    rewrite Hm. simpl. by rewrite Hm.
  - assert (Hstep : exists e s1, do_event shutdown_grace_secs e s = Some s1 /\
              main s1 = Draining todo r).
    { destruct (is_running t s) eqn:Ht; [exists JoinTimedOut | exists Joined]; eexists;
        (split; [unfold do_event; rewrite Hm; simpl; rewrite Hm, Ht; reflexivity | done]). }
    destruct Hstep as (e & s1 & He & Hm1). destruct (IH s1 Hm1) as (es & s' & Hrun & Hl & Hm').
    exists (e :: es), s'. split; [simpl; by rewrite He |]. split; [simpl; by rewrite Hl | done].
Qed.

(** C32. A reported exit is acted upon: from any reachable state with a reason in the channel
    the main task comes, in nine steps of its own, to return that reason, whether the
    other tasks heed the cancellation or not; none of them runs any more then, and the
    time spent waiting for them is at most six times the grace window plus five seconds. *)
Theorem supervisor_returns s r :
  supervised s -> main s = Waiting -> slot s = Some r ->
  exists es s', run shutdown_grace_secs es s = Some s' /\ length es = 9 /\ main s' = Done r /\
    (forall t, is_running t s' = false) /\
    (0 <= waited s' <= 6 * (shutdown_grace_secs + 5))%Z.
Proof.
  intros Hs Hm Hslot.
  assert (Hrecv : exists s1, do_event shutdown_grace_secs MainReceives s = Some s1 /\
            main s1 = Draining handles r)
    by (eexists; unfold do_event; rewrite Hm; simpl; rewrite Hm, Hslot; by split).
  destruct Hrecv as (s1 & He & Hm1). destruct (drains _ _ _ Hm1) as (es & s2 & Hrun & Hl & Hm2).
  assert (Hall : run shutdown_grace_secs (MainReceives :: es ++ [JobsShutDown]) s =
            Some (go (Done r) s2)).
  { simpl. rewrite He. simpl. clear He Hl Hm1. revert s1 Hrun.
    induction es as [| e es IH]; intros s1; simpl.
    - intros [= ->]. unfold do_event. rewrite Hm2. simpl. by rewrite Hm2.
    - destruct (do_event _ e s1); [| done]. simpl. apply IH. }
  exists (MainReceives :: es ++ [JobsShutDown]), (go (Done r) s2).
  split; [exact Hall |]. split; [simpl; rewrite length_app, Hl; reflexivity |]. split; [done |].
  assert (Hend : supervised (go (Done r) s2))
    by (etransitivity; [exact Hs | by eapply run_supervised]).
  apply supervised_ok in Hend as (_ & _ & _ & _ & Hj). exact Hj.
Qed.
End Theory.

(** ** Runs *)

Definition failure : list event := [ServerReturns GrpcServer (Err "bind")].

Example shutdown_orderly_witness :
  exists s, run 5 [SignalReceived; GraceElapsed] started = Some s /\
    cancelled s = true /\ main s = Waiting /\ serving s = false.
Proof.
  eexists. split; [reflexivity |]. split; [reflexivity |]. split; [reflexivity |].
  refine (proj2 (proj1 (shutdown_orderly 5 _ _ _) _ _)); [lia | | reflexivity | reflexivity].
  apply (run_supervised 5 [SignalReceived; GraceElapsed]). reflexivity.
Defined.

Example supervisor_returns_witness :
  exists s es s', run 5 failure started = Some s /\ run 5 es s = Some s' /\
    main s' = Done (Err "gRPC server error: bind") /\ (waited s' <= 60)%Z.
Proof.
  destruct (supervisor_returns 5 ltac:(lia)
    (exit_with GrpcServer (Err "gRPC server error: bind") started) (Err "gRPC server error: bind"))
    as (es & s' & Hrun & _ & Hm & _ & Hw).
  - apply (run_supervised 5 failure). reflexivity.
  - reflexivity.
  - reflexivity.
  - eexists _, es, s'. split; [reflexivity |]. split; [exact Hrun |]. split; [exact Hm | lia].
Defined.

(** A task that panics reports nothing: the main task keeps waiting, and the others keep
    serving. *)
Example panic_is_silent :
  exists s, run 5 [Panics InvoiceUpdateConsumer] started = Some s /\
    reported s = [] /\ slot s = None /\ cancelled s = false /\
    do_event 5 MainReceives s = None /\ do_event 5 MainStarves s = None.
Proof. eexists. split; [reflexivity |]. split_and!; vm_compute; reflexivity. Qed.

(** After a failure the signal handler, which nothing cancels, costs a whole deadline
    although every other task has drained at once. *)
Example failure_waits_for_signal :
  (fun s => (main s, waited s)) <$> run 5 (failure ++
      [MainReceives; ServerReturns GraphqlServer (Ok tt); ServerReturns HealthServer (Ok tt);
       ConsumerCancelled; ProducerReturns (Ok tt); Joined; Joined; Joined; Joined; Joined;
       JoinTimedOut; Joined; JobsShutDown]) started =
  Some (Done (Err "gRPC server error: bind"), 10%Z).
Proof. vm_compute. reflexivity. Qed.
End Supervisor.
